(* ===== verification/_CoqProject ===== *)
-Q . S2P
Prelude.v
F64.v
Text.v
F64Text.v
Encoding.v
Engine.v
Gc.v
Rocks.v
RocksOpen.v
Store.v
StoreSpec.v
StoreRep.v
StoreInv.v
StoreGeneric.v
StoreHash.v
StoreSet.v
StoreList.v
StoreZSet.v
StoreAdmin.v
StoreRefine.v
Ideal.v
StoreProps.v
StoreCollections.v
StoreDurability.v
VersionClock.v
Programs.v
Interleaving.v
Locality.v
Scheduling.v
KeyFrame.v
Budget.v
Faults.v
Crash.v
Isolation.v
Clients.v
Registers.v
Frame.v
Encode.v
Decode.v
Streaming.v
RoundTrip.v
Inline.v
Termination.v
Registry.v
CmdConnectivity.v
CmdString.v
CmdHash.v
CmdSet.v
CmdZSet.v
CmdList.v
CmdAdmin.v
Commands.v
Codec.v
Server.v
CommandProps.v
ServerProps.v
Service.v
Config.v
Observability.v
Boot.v
CommandSpec.v
CommandTime.v
CommandRefine.v
SessionRefine.v
Connections.v
Namespaces.v
SpikeEncoding.v
SpikeStore.v
SpikeAgree.v
SpikeResp.v
SpikeCommands.v
