(* ===== verification/Prelude.v ===== *)
(** * GameStore: a verification development

    GameStore is a Redis-compatible server: clients speak RESP over TCP, commands
    are mapped onto typed operations of a store, and the store lays its values
    out as records of a key-value engine, RocksDB.  This library models the Rust
    workspace under src/crates crate by crate as executable definitions and
    proves, layer by layer, that each implements what the next relies on:

<<
      a connection        Service  Server  Codec        datanode/server.rs
           | bytes in and out          Encode Decode    protocol/
           v
      a command           Registry Cmd* Commands        datamodel/
           | typed operations
           v
      the store           Store  Gc  Encoding           engine/store.rs gc.rs encoding.rs
           | batches, gets, prefix scans
           v
      the engine          Engine  Rocks                 engine/engine.rs rocks.rs
>>

    ** Parts of the program and where they are

    - [Prelude] (this file): bytes, machine integers, results, and the lemmas,
      hints and tactics on lists, options and maps that the parts share.
    - [F64], [Text], [F64Text]: what the program uses of Rust's standard library
      on numbers and text: IEEE-754 comparison over bit patterns, UTF-8, decimal
      parsing and printing of integers and floats.
    - [Encoding] (engine/encoding.rs): keys and metadata records as bytes.
    - [Engine] (engine/engine.rs, error.rs): the storage trait as a class
      [GeneralEngine], its contract as a class [EngineLaws].  [Rocks]
      (engine/rocks.rs) implements the class over an abstract RocksDB handle
      ([RocksDb], [RocksDbLaws]) and discharges the contract; [MemDb] there is
      the concrete handle that the witnesses run on.  [RocksOpen] has the options
      a database is opened with and the statistics it exports.
    - [Gc] (engine/gc.rs): the version table and the compaction filter.
    - [Store] (engine/store.rs): every operation of the store as a state
      transformer with errors, over any [GeneralEngine].
    - [Frame], [Encode], [Decode], [Codec] (protocol/src): RESP values, the
      encoder, the incremental decoders, the two framed codecs.
    - [Registry], [CmdConnectivity], [CmdString], [CmdHash], [CmdSet], [CmdZSet],
      [CmdList], [CmdAdmin], [Commands] (datamodel/src): dispatch, every command
      handler, the standard command set.
    - [Server], [Service] (datanode/src/server.rs): one connection's loop; the
      accept loop, its tasks and the graceful shutdown.
    - [Config] (common/src/config.rs, error.rs, datanode/src/main.rs),
      [Observability] (datanode/src/observability.rs) and [Boot]
      (datanode/src/main.rs, common/src/telemetry.rs, metrics.rs): where settings
      come from, what is measured, how a scrape is answered, and the calls by
      which [main] gets to serve.

    - [SpikeEncoding], [SpikeStore], [SpikeResp], [SpikeCommands] (spike/rust/src):
      the prototype that the crates replaced, a server with strings and hashes
      over RocksDB, each file with its definitions in a Module of its own.

    A function of the source is a definition of the same name, in a Section over
    the interface it uses; where two modules share a name the file's name comes
    first.  A Rust [enum] is an [Inductive], a [struct] a [Record], a [?] the bind
    of an error monad ([M] of Store.v, [Cmd] of Registry.v, [Parsed] of Decode.v),
    an [i64] or [u64] a [Z] with its wrap-around written out ([wrap_i64],
    [wrap_u64]), a [Vec<u8>], [Bytes], [String] a list of bytes, the shared
    version table and the atomics fields of the state.

    ** What is proved

    - Keys and records.  [Encoding]: the parsers accept precisely the encodings,
      encodings of different owners, versions and fields do not collide under a
      prefix scan, scores sort as their encodings do.
    - The engine.  [Rocks]: a scan with the source's iterator is the sorted list
      of matching records, errors of the handle included; the contract holds.
    - The store.  [StoreSpec] is an abstract database, a map from keys to typed
      values with an expiry; [StoreRep] says when records, version table and
      clock represent one; [StoreInv] collects what all operations do first.
      [StoreGeneric], [StoreHash], [StoreSet], [StoreZSet], [StoreList] and
      [StoreAdmin] prove operation by operation that the code refines it,
      [StoreRefine] composes them over any sequence of operations, and [Budget]
      reads the room such a sequence needs off what it asks for.
      [StoreProps], [StoreCollections] and [StoreDurability] draw what a client
      can rely on: reads after writes, exact counts, order, double-ended lists,
      expiry, type errors without effect, reclamation by compaction, restarts;
      and what a repeated field or a failing write does.
    - Faults and crashes.  [Ideal] is the contract of an engine as an engine that
      never fails, which every operation over a failing one mirrors up to the
      fault; by it [Faults] shows that an operation does what it should or reports
      the fault and changes nothing, and [Crash] that a process killed between any
      two steps of an operation leaves, to the next one, the database before or
      after.  Both name the operations that write twice and so are excepted.
    - Concurrency.  [VersionClock]: versions handed out by concurrent calls of
      [next_version] are distinct and increase in the order of the exchanges.
      [Programs] cuts every operation at its engine calls, and a pool runs several
      under a schedule.  [Locality] shows that each step touches its key only, and
      [Isolation] that an operation among steps on other keys therefore answers as
      if alone.  [Clients] are the connections: one that has a key to itself is
      answered in sequence whatever the others do, and under a fair schedule every
      one is served to the end.  [Registers]: a string that is SET without an
      expiry and read needs no lock, its operations are answered as in one
      sequence; [Interleaving] has schedules of conflicting operations on one key
      that show what the absence of a lock loses elsewhere.
    - The protocol.  [Streaming]: decoding does not depend on how the bytes are
      fragmented.  [RoundTrip]: what the encoder writes the decoder reads back,
      frames and requests.  [Inline]: the same for quoted inline commands, and the
      limit that depends on fragmentation.  [Termination]: the draining loops end.
    - Commands.  [CommandProps]: a handler within its arity never panics and
      answers something the protocol version can carry.  [CommandSpec] is a table
      of what each command means: which operations it asks for, what it makes of
      their answers, which command lines it refuses; [CommandRefine]: dispatch of
      any command line answers what its meaning answers on the abstract database.
      [CommandTime]: lifetimes given in seconds as TTL reports them.
    - Connections.  [ServerProps]: no input crashes a connection, pipelined
      requests are answered in order, replies can be represented, and the one way
      to forge a reply.  [Service]: ids are distinct, no task crashes, shutdown
      completes.  [SessionRefine] puts the layers together: the frames a client
      decodes are what its requests are answered on the abstract database,
      wherever the network cut the bytes.  [Config]: precedence of the sources of
      a setting.  [Observability]: metric labels come from a bounded set.  [Boot]:
      no address is bound before the store is open, and a restart on the data of
      an earlier process serves the database that process left.

    - The prototype.  [SpikeEncoding] shows that both programs write the same
      records, [SpikeAgree] that they answer the operations they share alike,
      [SpikeResp] and [SpikeCommands] that the prototype reads what a client of
      the crates writes, writes what their encoder does, and that a connection
      always ends.

    ** Bounds and fuel

    Recursion that is not structural takes fuel, and each use is shown never to
    be short of it.  [parse_frame] gives one level more than the source's
    recursion limit, and [Streaming.parse_frame_unfold] is the source's equation
    without fuel.  The tokenizer gets the length of the line, the draining loop
    the length of the buffer plus one: every turn takes a byte
    ([Termination.decoding_terminates], [Streaming.drain_fuel]); so do the readers
    of the prototype ([SpikeResp.Resp.read_args_fuel],
    [SpikeCommands.Prototype.handle_conn_fuel]).  [pop_loop] gets
    the number of elements ([StoreList.pop_left_ok], [StoreList.pop_right_ok]).
    Printing a float tries up to seventeen digits, enough for any binary64, and
    has the exact expansion to fall back on, so that it parses back in any case
    ([F64Text.f64_from_str_display]).  Where the source can overflow, the
    theorems carry the bound.  [Budget.op_cost] says how far an operation moves
    versions, counts and list indices, and the theorems on sequences of operations,
    on commands, sessions and connections ask for a start with that much room: less
    than 2^32 words in all, counts, indices and clocks that far from their ends.
    [usize] is taken wide enough for the lengths of buffers.

    ** Not modelled

    Third-party code is a parameter: RocksDB (with its documented behaviour as
    [RocksDbLaws]), tokio's sockets, tasks and channels (what they deliver are
    events), TOML and the environment, the metrics and tracing crates.  Left out
    are log lines, capacity hints and debug assertions: they compute nothing the
    modelled parts depend on.  RAWCOUNT counts garbage too, so the abstract database
    leaves its answer open.  A scan and a compaction are one step each when
    operations interleave.  The prototype in C++ (src/spike/cpp) is left out. *)

From Stdlib Require Export Strings.Byte.
From Stdlib Require Export ZArith Lia.
From stdpp Require Export sorting countable strings.
From stdpp Require Export base tactics gmap sets list list_numbers.

#[export] Set Default Proof Using "Type".

(** ** Bytes *)

(** The Rust type u8, and slices and vectors of it. *)
Abbreviation byte := Byte.byte (only parsing).
Abbreviation bytes := (list Byte.byte) (only parsing).

Declare Scope gs_scope.
Delimit Scope gs_scope with gs.
Open Scope gs_scope.
Open Scope Z_scope.

(** [B "text"] is the Rust byte-string literal b"text". *)
Definition B (s : string) : bytes := String.list_byte_of_string s.
Arguments B _%_string.

#[export] Instance byte_eq_dec : EqDecision byte := Byte.byte_eq_dec.

#[export] Program Instance byte_countable : Countable byte :=
  inj_countable Byte.to_N Byte.of_N _.
Next Obligation. intros b. apply Byte.of_to_N. Qed.

(** [b as u64]. *)
Definition byte_val (b : byte) : Z := Z.of_N (Byte.to_N b).

(** [z as u8]: truncation to the low eight bits. *)
Definition byte_of_Z (z : Z) : byte :=
  default x00%byte (Byte.of_N (Z.to_N (z mod 256))).

(** ** Machine integers

    A [u64], [u32], [usize] or [i64] is a [Z]; the operations that wrap say so. *)

Definition u32_max : Z := 2 ^ 32 - 1.
Definition u64_max : Z := 2 ^ 64 - 1.
Definition i64_max : Z := 2 ^ 63 - 1.
Definition i64_min : Z := - 2 ^ 63.

Definition wrap_u32 (z : Z) : Z := z mod 2 ^ 32.
Definition wrap_u64 (z : Z) : Z := z mod 2 ^ 64.

(** Reinterpret the low 64 bits as a two's complement [i64] ([z as i64]). *)
Definition wrap_i64 (z : Z) : Z := (z + 2 ^ 63) mod 2 ^ 64 - 2 ^ 63.

Definition in_u32 (z : Z) : Prop := 0 <= z < 2 ^ 32.
Definition in_u64 (z : Z) : Prop := 0 <= z < 2 ^ 64.
Definition in_i64 (z : Z) : Prop := - 2 ^ 63 <= z < 2 ^ 63.

#[export] Instance in_u32_dec z : Decision (in_u32 z).
Proof. unfold in_u32; apply _. Defined.
#[export] Instance in_u64_dec z : Decision (in_u64 z).
Proof. unfold in_u64; apply _. Defined.
#[export] Instance in_i64_dec z : Decision (in_i64 z).
Proof. unfold in_i64; apply _. Defined.

(** [x.checked_add(y)] and [x.checked_mul(y)] on [i64]. *)
Definition i64_checked (z : Z) : option Z :=
  if decide (in_i64 z) then Some z else None.
Definition i64_checked_add (x y : Z) : option Z := i64_checked (x + y).
Definition i64_checked_mul (x y : Z) : option Z := i64_checked (x * y).
Definition i64_saturating_add (x y : Z) : Z :=
  Z.max i64_min (Z.min i64_max (x + y)).

(** [x.saturating_sub(y)] on an unsigned type. *)
Definition saturating_sub (x y : Z) : Z := Z.max 0 (x - y).

(** ** Values that do not wrap *)

Lemma wrap_i64_small z : in_i64 z -> wrap_i64 z = z.
Proof. unfold in_i64, wrap_i64. intros. rewrite Z.mod_small; lia. Qed.

Lemma wrap_u32_small z : in_u32 z -> wrap_u32 z = z.
Proof. apply Z.mod_small. Qed.

Lemma wrap_u64_range z : in_u64 (wrap_u64 z).
Proof. unfold wrap_u64, in_u64. apply Z.mod_pos_bound. lia. Qed.
Lemma wrap_u64_small z : in_u64 z -> wrap_u64 z = z.
Proof. apply Z.mod_small. Qed.

(** ** Results *)

(** Rust's [Result<A, Er>]. *)
Inductive result (Er A : Type) : Type :=
  | Ok (a : A)
  | Err (e : Er).
Arguments Ok {Er A} a.
Arguments Err {Er A} e.

#[export] Instance result_ret {Er} : MRet (result Er) := fun A a => Ok a.
#[export] Instance result_bind {Er} : MBind (result Er) := fun A C f r =>
  match r with Ok a => f a | Err e => Err e end.
#[export] Instance result_fmap {Er} : FMap (result Er) := fun A C f r =>
  match r with Ok a => Ok (f a) | Err e => Err e end.

#[export] Instance result_eq_dec {Er A} `{EqDecision Er, EqDecision A} :
  EqDecision (result Er A).
Proof. solve_decision. Defined.

#[export] Instance Ok_inj {Er A} : Inj eq eq (@Ok Er A).
Proof. by intros ?? [= ->]. Qed.

(** [o.ok_or(e)]. *)
Definition ok_or {Er A} (o : option A) (e : Er) : result Er A :=
  match o with Some a => Ok a | None => Err e end.

(** ** Big-endian encoding *)

(** The [n] low bytes of [z], most significant first ([to_be_bytes]). *)
Fixpoint be_bytes (n : nat) (z : Z) : bytes :=
  match n with
  | O => []
  | S n' => byte_of_Z (Z.shiftr z (8 * Z.of_nat n')) :: be_bytes n' z
  end.

(** [from_be_bytes]. *)
Definition of_be_bytes (l : bytes) : Z :=
  fold_left (fun acc b => acc * 256 + byte_val b) l 0.

Abbreviation u32_be := (be_bytes 4).
Abbreviation u64_be := (be_bytes 8).

(** ** The order of byte strings

    Slices compare lexicographically by unsigned byte value, in Rust as in the
    storage backend. *)

Fixpoint bytes_compare (a b : bytes) : comparison :=
  match a, b with
  | [], [] => Eq
  | [], _ :: _ => Lt
  | _ :: _, [] => Gt
  | x :: a', y :: b' =>
      match byte_val x ?= byte_val y with
      | Eq => bytes_compare a' b'
      | c => c
      end
  end.

Definition bytes_lt (a b : bytes) : Prop := bytes_compare a b = Lt.
Definition bytes_le (a b : bytes) : Prop := bytes_compare a b <> Gt.

#[export] Instance bytes_lt_dec : RelDecision bytes_lt.
Proof. intros a b; unfold bytes_lt; apply _. Defined.
#[export] Instance bytes_le_dec : RelDecision bytes_le.
Proof. intros a b; unfold bytes_le; apply _. Defined.

(** The entries of a map in ascending key order. *)
Definition sorted_keys {V} (m : gmap bytes V) : list bytes :=
  merge_sort bytes_le (map_to_list m).*1.

Definition sorted_entries {V} (m : gmap bytes V) : list (bytes * V) :=
  omap (fun k => (fun v => (k, v)) <$> m !! k) (sorted_keys m).

(** [Iterator::take_while]. *)
Fixpoint take_while {A} (P : A -> Prop) `{!forall x, Decision (P x)} (l : list A) : list A :=
  match l with
  | [] => []
  | x :: l' => if decide (P x) then x :: take_while P l' else []
  end.

(** ** ASCII case *)

(** [u8::to_ascii_uppercase] and [u8::to_ascii_lowercase]. *)
Definition ascii_upper (b : byte) : byte :=
  if (97 <=? byte_val b) && (byte_val b <=? 122)
  then byte_of_Z (byte_val b - 32) else b.
Definition ascii_lower (b : byte) : byte :=
  if (65 <=? byte_val b) && (byte_val b <=? 90)
  then byte_of_Z (byte_val b + 32) else b.
Definition to_ascii_uppercase (s : bytes) : bytes := ascii_upper <$> s.
Definition to_ascii_lowercase (s : bytes) : bytes := ascii_lower <$> s.

(** [eq_ignore_ascii_case]. *)
Definition eq_ignore_ascii_case (a b : bytes) : bool :=
  bool_decide (to_ascii_lowercase a = to_ascii_lowercase b).

(** ** Lemmas on bytes and big-endian encoding *)

Create HintDb gs discriminated.
Create Rewrite HintDb gs.

Lemma byte_val_range b : 0 <= byte_val b < 256.
Proof.
  unfold byte_val. pose proof (Byte.to_N_bounded b). lia.
Qed.

Lemma byte_val_of_Z z : byte_val (byte_of_Z z) = z mod 256.
Proof.
  unfold byte_val, byte_of_Z.
  pose proof (Z.mod_pos_bound z 256 eq_refl) as Hz.
  destruct (Byte.of_N (Z.to_N (z mod 256))) as [b|] eqn:Hb; simpl.
  - apply Byte.to_of_N in Hb. rewrite Hb. lia.
  - apply Byte.of_N_None_iff in Hb. lia.
Qed.

Lemma byte_val_inj b1 b2 : byte_val b1 = byte_val b2 -> b1 = b2.
Proof.
  unfold byte_val. intros H%N2Z.inj.
  pose proof (Byte.of_to_N b1). pose proof (Byte.of_to_N b2). congruence.
Qed.

Lemma byte_of_val b : byte_of_Z (byte_val b) = b.
Proof.
  apply byte_val_inj. rewrite byte_val_of_Z.
  apply Z.mod_small, byte_val_range.
Qed.

Lemma length_be_bytes n z : length (be_bytes n z) = n.
Proof. induction n; simpl; congruence. Qed.
#[export] Hint Rewrite length_be_bytes : gs.

Lemma of_be_bytes_fold l a :
  fold_left (fun acc b => acc * 256 + byte_val b) l a =
  a * 256 ^ Z.of_nat (length l) + of_be_bytes l.
Proof.
  unfold of_be_bytes. revert a. induction l as [|b l IH]; intros a; simpl.
  - lia.
  - rewrite IH, (IH (0 * 256 + byte_val b)), Nat2Z.inj_succ, Z.pow_succ_r by lia. lia.
Qed.

Lemma of_be_bytes_cons b l :
  of_be_bytes (b :: l) = byte_val b * 256 ^ Z.of_nat (length l) + of_be_bytes l.
Proof. apply (of_be_bytes_fold l (0 * 256 + byte_val b)). Qed.

Lemma of_be_bytes_range l : 0 <= of_be_bytes l < 256 ^ Z.of_nat (length l).
Proof.
  induction l as [|b l IH]; [done|].
  rewrite of_be_bytes_cons. cbn [length].
  rewrite Nat2Z.inj_succ, Z.pow_succ_r by lia.
  pose proof (byte_val_range b). nia.
Qed.

Lemma of_be_be_bytes n z : of_be_bytes (be_bytes n z) = z mod 256 ^ Z.of_nat n.
Proof.
  induction n as [|n IH]; [by rewrite Z.mod_1_r|].
  cbn [be_bytes].
  rewrite of_be_bytes_cons, byte_val_of_Z, IH, length_be_bytes.
  rewrite Z.shiftr_div_pow2 by lia.
  replace (2 ^ (8 * Z.of_nat n)) with (256 ^ Z.of_nat n)
    by (change 256 with (2 ^ 8); rewrite <- Z.pow_mul_r by lia; done).
  rewrite Nat2Z.inj_succ, Z.pow_succ_r by lia.
  rewrite (Z.mul_comm 256), Z.rem_mul_r by lia. lia.
Qed.

Lemma be_bytes_mod n z : be_bytes n (z mod 256 ^ Z.of_nat n) = be_bytes n z.
Proof.
  assert (Hlt : forall m, (m <= n)%nat ->
    be_bytes m (z mod 256 ^ Z.of_nat n) = be_bytes m z); [|by apply Hlt].
  induction m as [|m IH]; intros Hm; [done|]. cbn [be_bytes].
  rewrite IH by lia. f_equal. apply byte_val_inj. rewrite !byte_val_of_Z.
  rewrite !Z.shiftr_div_pow2 by lia.
  replace (256 ^ Z.of_nat n)
    with (2 ^ (8 * Z.of_nat m) * (256 * 256 ^ Z.of_nat (n - S m))).
  - set (P := 2 ^ (8 * Z.of_nat m)). assert (0 < P) by (unfold P; lia).
    rewrite Z.rem_mul_r, (Z.mul_comm P) by lia.
    rewrite Z.div_add, (Z.div_small (z mod P)), Z.add_0_l
      by (try apply Z.mod_pos_bound; lia).
    rewrite Z.rem_mul_r, (Z.mul_comm 256) by lia.
    by rewrite Z.mod_add, Z.mod_mod by lia.
  - change 256 with (2 ^ 8). rewrite <- !Z.pow_mul_r, <- !Z.pow_add_r by lia.
    f_equal. lia.
Qed.

Lemma be_bytes_of_be l : be_bytes (length l) (of_be_bytes l) = l.
Proof.
  induction l as [|b l IH]; [done|]. cbn [length be_bytes].
  pose proof (of_be_bytes_range l) as Hl.
  rewrite of_be_bytes_cons. f_equal.
  - rewrite Z.shiftr_div_pow2 by lia.
    replace (2 ^ (8 * Z.of_nat (length l))) with (256 ^ Z.of_nat (length l))
      by (change 256 with (2 ^ 8); rewrite <- Z.pow_mul_r by lia; done).
    rewrite Z.add_comm, Z.div_add, Z.div_small, Z.add_0_l by lia.
    apply byte_of_val.
  - rewrite <- be_bytes_mod, Z.add_comm, Z.mod_add by lia.
    by rewrite be_bytes_mod.
Qed.

Lemma be_bytes_of_be' n l : length l = n -> be_bytes n (of_be_bytes l) = l.
Proof. intros <-. apply be_bytes_of_be. Qed.

#[global] Opaque be_bytes of_be_bytes.

Lemma of_be_u64 z : in_u64 z -> of_be_bytes (u64_be z) = z.
Proof. intros Hz. rewrite of_be_be_bytes. apply Z.mod_small, Hz. Qed.

Lemma of_be_u32 z : in_u32 z -> of_be_bytes (u32_be z) = z.
Proof. intros Hz. rewrite of_be_be_bytes. apply Z.mod_small, Hz. Qed.

Lemma of_be_u64_range l : length l = 8%nat -> in_u64 (of_be_bytes l).
Proof. intros Hl. pose proof (of_be_bytes_range l) as H. rewrite Hl in H. exact H. Qed.

Lemma u64_be_inj x y : in_u64 x -> in_u64 y -> u64_be x = u64_be y -> x = y.
Proof. intros Hx Hy H. rewrite <- (of_be_u64 x), <- (of_be_u64 y) by done. by rewrite H. Qed.

(** ** Lemmas on the order of byte strings *)

Lemma bytes_compare_refl a : bytes_compare a a = Eq.
Proof. induction a as [|x a IH]; simpl; [done|]. by rewrite Z.compare_refl. Qed.

Lemma bytes_compare_eq a b : bytes_compare a b = Eq <-> a = b.
Proof.
  split; [|intros ->; apply bytes_compare_refl].
  revert b; induction a as [|x a IH]; intros [|y b]; simpl; try done.
  destruct (Z.compare_spec (byte_val x) (byte_val y)) as [Hxy|Hxy|Hxy]; try done.
  intros H. apply byte_val_inj in Hxy as ->. by rewrite (IH b H).
Qed.

Lemma bytes_compare_antisym a b : bytes_compare b a = CompOpp (bytes_compare a b).
Proof.
  revert b; induction a as [|x a IH]; intros [|y b]; simpl; try done.
  rewrite (Z.compare_antisym (byte_val x)).
  destruct (byte_val x ?= byte_val y); simpl; done.
Qed.

Lemma bytes_lt_trans a b c : bytes_lt a b -> bytes_lt b c -> bytes_lt a c.
Proof.
  unfold bytes_lt. revert b c.
  induction a as [|x a IH]; intros [|y b] [|z c]; simpl; try done.
  destruct (Z.compare_spec (byte_val x) (byte_val y)),
    (Z.compare_spec (byte_val y) (byte_val z)),
    (Z.compare_spec (byte_val x) (byte_val z)); try done; try lia; eauto.
Qed.

Lemma bytes_le_lteq a b : bytes_le a b <-> bytes_lt a b \/ a = b.
Proof.
  unfold bytes_le, bytes_lt. rewrite <- bytes_compare_eq.
  destruct (bytes_compare a b); naive_solver.
Qed.

Lemma bytes_lt_irrefl a : ~ bytes_lt a a.
Proof. unfold bytes_lt. by rewrite bytes_compare_refl. Qed.

#[export] Instance bytes_le_total_order : TotalOrder bytes_le.
Proof.
  split; [split; [split|]|].
  - intros a. apply bytes_le_lteq. by right.
  - intros a b c. rewrite !bytes_le_lteq.
    intros [H1| ->] [H2| ->]; eauto using bytes_lt_trans.
  - intros a b. rewrite !bytes_le_lteq.
    intros [H1|?] [H2|?]; try done.
    destruct (bytes_lt_irrefl a). eauto using bytes_lt_trans.
  - intros a b. unfold strict, bytes_le. rewrite <- bytes_compare_eq.
    rewrite (bytes_compare_antisym a b).
    destruct (bytes_compare a b); simpl; naive_solver.
Qed.

#[export] Instance bytes_le_trans' : Transitive bytes_le.
Proof. apply _. Qed.
#[export] Instance bytes_le_total : Total bytes_le.
Proof.
  intros a b. unfold bytes_le. rewrite (bytes_compare_antisym a b).
  destruct (bytes_compare a b); simpl; auto.
Qed.
#[export] Instance bytes_le_antisym : AntiSymm eq bytes_le.
Proof. apply _. Qed.

(** A common prefix does not matter, and the first difference decides. *)
Lemma bytes_compare_app p a b : bytes_compare (p ++ a) (p ++ b) = bytes_compare a b.
Proof. induction p as [|x p IH]; simpl; [done|]. by rewrite Z.compare_refl. Qed.

Lemma bytes_compare_app_len a b x y :
  length a = length b ->
  bytes_compare (a ++ x) (b ++ y) =
  match bytes_compare a b with Eq => bytes_compare x y | c => c end.
Proof.
  revert b; induction a as [|u a IH]; intros [|v b]; simpl; try done.
  intros [= Hl]. rewrite (IH b Hl). by destruct (_ ?= _).
Qed.

(** Fixed-width big-endian fields sort in numeric order. *)
Lemma bytes_compare_be n x y :
  0 <= x < 256 ^ Z.of_nat n -> 0 <= y < 256 ^ Z.of_nat n ->
  bytes_compare (be_bytes n x) (be_bytes n y) = (x ?= y).
Proof.
  intros Hx Hy.
  assert (Hl : length (be_bytes n x) = length (be_bytes n y)) by by rewrite !length_be_bytes.
  transitivity (of_be_bytes (be_bytes n x) ?= of_be_bytes (be_bytes n y));
    [|by rewrite !of_be_be_bytes, !Z.mod_small by done].
  revert Hl. generalize (be_bytes n x), (be_bytes n y). clear Hx Hy.
  induction l as [|u l IH]; intros [|v l']; cbn -[of_be_bytes]; try done.
  intros [= Hl]. rewrite !of_be_bytes_cons, Hl, (IH l' Hl).
  pose proof (of_be_bytes_range l) as H1. pose proof (of_be_bytes_range l') as H2.
  rewrite Hl in H1. set (P := 256 ^ Z.of_nat (length l')) in *.
  destruct (Z.compare_spec (byte_val u) (byte_val v)) as [->|Huv|Huv].
  - by rewrite Z.add_compare_mono_l.
  - symmetry. apply Z.compare_lt_iff. nia.
  - symmetry. apply Z.compare_gt_iff. nia.
Qed.

(** ** Sorted entries of a map *)

Lemma sorted_keys_elem {V} (m : gmap bytes V) k :
  k ∈ sorted_keys m <-> is_Some (m !! k).
Proof.
  unfold sorted_keys. rewrite merge_sort_Permutation, list_elem_of_fmap. split.
  - intros ([k' v] & -> & H%elem_of_map_to_list). eauto.
  - intros [v Hv]. exists (k, v). by rewrite elem_of_map_to_list.
Qed.

Lemma sorted_keys_nodup {V} (m : gmap bytes V) : NoDup (sorted_keys m).
Proof.
  unfold sorted_keys. rewrite merge_sort_Permutation. apply NoDup_fst_map_to_list.
Qed.

Lemma sorted_keys_sorted {V} (m : gmap bytes V) : StronglySorted bytes_le (sorted_keys m).
Proof. apply (StronglySorted_merge_sort bytes_le). Qed.

(** A strictly described list of keys is the sorted list of keys. *)
Lemma sorted_keys_unique {V} (m : gmap bytes V) l :
  StronglySorted bytes_le l -> NoDup l -> (forall k, k ∈ l <-> is_Some (m !! k)) ->
  l = sorted_keys m.
Proof.
  intros Hs Hn Hl. apply (StronglySorted_unique bytes_le); [done|apply sorted_keys_sorted|].
  apply NoDup_Permutation; [done|apply sorted_keys_nodup|].
  intros k. by rewrite Hl, sorted_keys_elem.
Qed.

Lemma sorted_entries_elem {V} (m : gmap bytes V) k v :
  (k, v) ∈ sorted_entries m <-> m !! k = Some v.
Proof.
  unfold sorted_entries. rewrite list_elem_of_omap. split.
  - intros (k' & _ & H). destruct (m !! k') eqn:E; naive_solver.
  - intros H. exists k. rewrite sorted_keys_elem, H. eauto.
Qed.

Lemma sorted_entries_keys {V} (m : gmap bytes V) : (sorted_entries m).*1 = sorted_keys m.
Proof.
  unfold sorted_entries.
  assert (H : forall k, k ∈ sorted_keys m -> is_Some (m !! k))
    by (intros; by apply sorted_keys_elem).
  induction (sorted_keys m) as [|k l IH]; [done|]. simpl.
  destruct (H k) as [v Hv]; [left|]. rewrite Hv. simpl. f_equal.
  apply IH. intros k' Hk'. apply H. by right.
Qed.

Lemma sorted_entries_sorted {V} (m : gmap bytes V) :
  StronglySorted bytes_le (sorted_entries m).*1.
Proof. rewrite sorted_entries_keys. apply sorted_keys_sorted. Qed.

Lemma sorted_entries_nodup {V} (m : gmap bytes V) : NoDup (sorted_entries m).*1.
Proof. rewrite sorted_entries_keys. apply sorted_keys_nodup. Qed.

Lemma sorted_entries_perm {V} (m : gmap bytes V) : sorted_entries m ≡ₚ map_to_list m.
Proof.
  apply NoDup_Permutation.
  - eapply NoDup_fmap_1, sorted_entries_nodup.
  - apply NoDup_map_to_list.
  - intros [k v]. by rewrite sorted_entries_elem, elem_of_map_to_list.
Qed.

Lemma length_sorted_entries {V} (m : gmap bytes V) : length (sorted_entries m) = size m.
Proof. by rewrite sorted_entries_perm, length_map_to_list. Qed.

Lemma entries_det {V} (l1 l2 : list (bytes * V)) :
  NoDup l1.*1 -> l1.*1 = l2.*1 -> (forall e, e ∈ l1 -> e ∈ l2) -> l1 = l2.
Proof.
  revert l2; induction l1 as [|[k v] l1 IH]; intros [|[k' v'] l2]; simpl; try done.
  intros [Hk Hn]%list.NoDup_cons [= -> Heq] Hsub.
  assert (Hnot : forall w, (k', w) ∉ l2).
  { intros w Hw. apply Hk. rewrite Heq. by apply (list_elem_of_fmap_2 fst) in Hw. }
  assert (v = v') as ->.
  { assert (Hin : (k', v) ∈ (k', v') :: l2) by (apply Hsub; left).
    apply elem_of_cons in Hin as [?|Hin]; [congruence|]. by destruct (Hnot v). }
  f_equal. apply IH; [done..|]. intros e He.
  assert (Hin : e ∈ (k', v') :: l2) by (apply Hsub; by right).
  apply elem_of_cons in Hin as [->|?]; [|done].
  destruct Hk. by apply (list_elem_of_fmap_2 fst) in He.
Qed.

(** A list of entries in strict key order that agrees with the map is its
    sorted entry list. *)
Lemma sorted_entries_unique {V} (m : gmap bytes V) l :
  StronglySorted bytes_le l.*1 -> NoDup l.*1 ->
  (forall k v, (k, v) ∈ l <-> m !! k = Some v) -> l = sorted_entries m.
Proof.
  intros Hs Hn Hl. apply entries_det; [done| |].
  - rewrite sorted_entries_keys. apply sorted_keys_unique; [done..|].
    intros k. rewrite list_elem_of_fmap. split.
    + intros ([k' v] & -> & H%Hl). simpl. eauto.
    + intros [v Hv%Hl]. by exists (k, v).
  - intros [k v] H%Hl. by apply sorted_entries_elem.
Qed.

Lemma sorted_entries_empty {V} : sorted_entries (∅ : gmap bytes V) = [].
Proof. done. Qed.

(** The records whose key starts with [p], in key order. *)
Definition scan_entries {V} (p : bytes) (m : gmap bytes V) : list (bytes * V) :=
  sorted_entries (filter (fun kv => p `prefix_of` kv.1) m).

Lemma scan_entries_elem {V} (p : bytes) (m : gmap bytes V) (k : bytes) (v : V) :
  (k, v) ∈ scan_entries p m <-> p `prefix_of` k /\ m !! k = Some v.
Proof.
  unfold scan_entries. rewrite sorted_entries_elem, map_lookup_filter_Some. naive_solver.
Qed.

Definition strip {V} (p : bytes) (kv : bytes * V) : bytes * V :=
  (drop (length p) kv.1, kv.2).

(** Dropping the common prefix of a scan gives the sorted entries of the
    map of suffixes. *)
Lemma scan_entries_strip {V} (p : bytes) (m h : gmap bytes V) :
  (forall f, m !! (p ++ f) = h !! f) ->
  strip p <$> scan_entries p m = sorted_entries h.
Proof.
  intros Hh.
  assert (Hpre : forall k v, (k, v) ∈ scan_entries p m -> k = p ++ drop (length p) k).
  { intros k v ([f ->] & _)%scan_entries_elem. by rewrite drop_app_length. }
  assert (Hkeys : forall l : list (bytes * V),
    (forall k v, (k, v) ∈ l -> k = p ++ drop (length p) k) ->
    l.*1 = (fun f => p ++ f) <$> (strip p <$> l).*1).
  { clear. induction l as [|[k v] l IH]; intros H; [done|]. simpl. f_equal.
    - apply (H k v). left.
    - apply IH. intros k' v' ?. apply (H k' v'). by right. }
  apply sorted_entries_unique.
  - pose proof (sorted_entries_sorted (filter (fun kv => p `prefix_of` kv.1) m)) as Hs.
    fold (scan_entries p m) in Hs. rewrite (Hkeys _ Hpre) in Hs. revert Hs. clear.
    induction ((strip p <$> scan_entries p m).*1) as [|f l IH]; [constructor|].
    cbn. intros [HF ?]%StronglySorted_cons. constructor; [by apply IH|].
    rewrite Forall_fmap in HF. eapply List.Forall_impl; [|exact HF]. simpl.
    intros g. unfold bytes_le. by rewrite bytes_compare_app.
  - pose proof (sorted_entries_nodup (filter (fun kv => p `prefix_of` kv.1) m)) as Hn.
    fold (scan_entries p m) in Hn. rewrite (Hkeys _ Hpre) in Hn.
    by apply NoDup_fmap_1 in Hn.
  - intros f v. rewrite list_elem_of_fmap. rewrite <- Hh. split.
    + intros ([k w] & [= -> ->] & Hin). rewrite <- (Hpre _ _ Hin).
      by apply scan_entries_elem in Hin as [_ ?].
    + intros Hf. exists (p ++ f, v). unfold strip; simpl.
      rewrite drop_app_length, scan_entries_elem. split; [done|].
      split; [by apply prefix_app_r|done].
Qed.

(** Filters that agree on the elements of a list agree on the list. *)
Lemma filter_ext_Forall {A} (P Q : A -> Prop) `{!forall x, Decision (P x), !forall x, Decision (Q x)}
  (l : list A) :
  Forall (fun x => P x <-> Q x) l -> filter P l = filter Q l.
Proof.
  induction 1 as [|x l Hx _ IH]; [done|]. destruct (decide (P x)).
  - rewrite !filter_cons_True by tauto. by f_equal.
  - by rewrite !filter_cons_False by tauto.
Qed.

(** The records under a prefix, as a map from suffixes. *)
Lemma scan_suffixes {V} (p : bytes) (m : gmap bytes V) :
  exists h : gmap bytes V, forall f, m !! (p ++ f) = h !! f.
Proof.
  exists (list_to_map ((fun kv : bytes * V => (drop (length p) kv.1, kv.2)) <$>
    filter (fun kv : bytes * V => p `prefix_of` kv.1) (map_to_list m))).
  intros f. apply option_eq. intros v.
  assert (Hin : forall k w, (k, w) ∈ filter (fun kv : bytes * V => p `prefix_of` kv.1) (map_to_list m) <->
    p `prefix_of` k /\ m !! k = Some w).
  { intros k w. by rewrite list_elem_of_filter, elem_of_map_to_list. }
  rewrite <- elem_of_list_to_map.
  - rewrite list_elem_of_fmap. split.
    + intros Hf. exists (p ++ f, v). cbn. rewrite drop_app_length. split; [done|].
      apply Hin. split; [by exists f|done].
    + intros ([k w] & [= -> ->] & [[g ->] Hk]%Hin). by rewrite drop_app_length.
  - rewrite <- list_fmap_compose.
    assert (Hnd : NoDup (filter (fun kv : bytes * V => p `prefix_of` kv.1) (map_to_list m)))
      by apply list.NoDup_filter, NoDup_map_to_list.
    apply (NoDup_fmap_2_strong _ _); [|done].
    intros [k1 w1] [k2 w2] [[g1 ->] H1]%Hin [[g2 ->] H2]%Hin. cbn.
    rewrite !drop_app_length. intros ->. congruence.
Qed.

Lemma scan_entries_prepend {V} (p : bytes) (m : gmap bytes V) :
  scan_entries p m = (fun kv : bytes * V => (p ++ kv.1, kv.2)) <$> (strip p <$> scan_entries p m).
Proof.
  rewrite <- list_fmap_compose. symmetry. rewrite <- (list_fmap_id (scan_entries p m)) at 2.
  apply list_fmap_ext. intros i [k v] ([g ->] & _)%list_elem_of_lookup_2%scan_entries_elem.
  cbn. by rewrite drop_app_length.
Qed.

Lemma StronglySorted_filter {A} (R : relation A) (P : A -> Prop)
  `{!forall x, Decision (P x)} (l : list A) :
  StronglySorted R l -> StronglySorted R (filter P l).
Proof.
  induction 1 as [|x l Hs IH Hx]; [constructor|]. destruct (decide (P x)).
  - rewrite filter_cons_True by done. constructor; [done|].
    rewrite list.Forall_forall in *. intros y [_ Hy]%list_elem_of_filter. by apply Hx.
  - by rewrite filter_cons_False by done.
Qed.

Lemma scan_entries_filter {V} (p : bytes) (m : gmap bytes V) :
  scan_entries p m = filter (fun kv : bytes * V => p `prefix_of` kv.1) (sorted_entries m).
Proof.
  assert (Hsub : forall l : list (bytes * V),
    (filter (fun kv : bytes * V => p `prefix_of` kv.1) l).*1 = filter (fun k => p `prefix_of` k) l.*1).
  { induction l as [|[k v] l IH]; [done|]. rewrite fmap_cons. cbn [fst].
    destruct (decide (p `prefix_of` k)).
    - rewrite !filter_cons_True by done. cbn. by f_equal.
    - by rewrite !filter_cons_False by done. }
  symmetry. apply sorted_entries_unique.
  - rewrite Hsub. apply StronglySorted_filter, sorted_entries_sorted.
  - rewrite Hsub. apply list.NoDup_filter, sorted_entries_nodup.
  - intros k v. rewrite list_elem_of_filter, sorted_entries_elem, map_lookup_filter_Some. naive_solver.
Qed.

(** Keys with a given prefix are contiguous in key order. *)
Lemma bytes_prefix_between p k f : bytes_le p k -> bytes_le k (p ++ f) -> p `prefix_of` k.
Proof.
  unfold bytes_le. revert k; induction p as [|x p IH]; intros [|y k]; simpl.
  - by exists [].
  - by exists (y :: k).
  - done.
  - destruct (Z.compare_spec (byte_val x) (byte_val y)) as [Hxy|Hxy|Hxy]; [| |done].
    + apply byte_val_inj in Hxy as ->. rewrite Z.compare_refl. intros.
      by apply prefix_cons, IH.
    + rewrite (proj2 (Z.compare_gt_iff _ _)) by done. done.
Qed.

Lemma bytes_le_prefix p k : p `prefix_of` k -> bytes_le p k.
Proof.
  intros [f ->]. unfold bytes_le. induction p as [|x p IH]; simpl.
  - by destruct f.
  - by rewrite Z.compare_refl.
Qed.

(** A seek to the prefix followed by a scan while the prefix matches visits
    exactly the keys with the prefix. *)
Lemma scan_entries_seek {V} (p : bytes) (m : gmap bytes V) :
  scan_entries p m =
  take_while (fun kv : bytes * V => p `prefix_of` kv.1)
    (filter (fun kv : bytes * V => bytes_le p kv.1) (sorted_entries m)).
Proof.
  rewrite scan_entries_filter. pose proof (sorted_entries_sorted m) as Hs.
  induction (sorted_entries m) as [|[k v] l IH]; [done|].
  cbn in Hs. apply StronglySorted_cons in Hs as [Hk Hs].
  destruct (decide (p `prefix_of` k)) as [Hp|Hp].
  - rewrite !filter_cons_True by (first [done|by apply bytes_le_prefix]). cbn [take_while fst].
    rewrite decide_True by done. by rewrite IH.
  - rewrite filter_cons_False by done.
    destruct (decide (bytes_le p k)) as [Hle|Hle].
    + rewrite filter_cons_True by done. cbn [take_while fst]. rewrite decide_False by done.
      clear IH Hs. rewrite Forall_fmap in Hk.
      induction Hk as [|[k' v'] l Hkk Hk IH]; [done|].
      rewrite filter_cons_False; [done|]. simpl in *.
      intros [f ->]. apply Hp. by eapply bytes_prefix_between.
    + rewrite filter_cons_False by done. by apply IH.
Qed.

Lemma take_while_prefix {A} (P : A -> Prop) `{!forall x, Decision (P x)} (l1 l2 : list A) :
  l1 `prefix_of` l2 -> ~ Forall P l1 -> take_while P l1 = take_while P l2.
Proof.
  intros [k ->]. induction l1 as [|x l1 IH]; intros Hn; [by destruct Hn|].
  cbn. destruct (decide (P x)) as [Hx|Hx]; [|done].
  f_equal. apply IH. intros HF. apply Hn. by constructor.
Qed.
