(* ===== verification/F64.v ===== *)
(** * IEEE-754 binary64 numbers as the program handles them

    An [f64] is modelled by its bit pattern, what [f64::to_bits] returns: a [Z]
    in [0, 2^64).  Its value, and with it the comparisons the program makes, is
    the standard library's executable specification of floating-point numbers
    ([SpecFloat]).  The numeric value of a bit pattern orders like the integer
    [f64_key]; that is what the order of the score index rests on. *)

From Stdlib Require Import SpecFloat.
From S2P Require Import Prelude.

(** An [f64] by its bits. *)
Abbreviation f64 := Z (only parsing).

Definition f64_sign (x : f64) : bool := Z.testbit x 63.
Definition f64_exponent (x : f64) : Z := Z.land (Z.shiftr x 52) (Z.ones 11).
Definition f64_mantissa (x : f64) : Z := Z.land x (Z.ones 52).

(** The number a bit pattern denotes. *)
Definition f64_value (x : f64) : spec_float :=
  let s := f64_sign x in
  let e := f64_exponent x in
  let m := f64_mantissa x in
  if e =? 2047 then (if m =? 0 then S754_infinity s else S754_nan)
  else if e =? 0 then
    (if m =? 0 then S754_zero s else S754_finite s (Z.to_pos m) (-1074))
  else S754_finite s (Z.to_pos (m + 2 ^ 52)) (e - 1075).

Definition f64_compare (x y : f64) : option comparison :=
  SFcompare (f64_value x) (f64_value y).

(** [x == y], [x < y], [x > y] on [f64]. *)
Definition f64_eqb (x y : f64) : bool := SFeqb (f64_value x) (f64_value y).
Definition f64_ltb (x y : f64) : bool := SFltb (f64_value x) (f64_value y).
Definition f64_gtb (x y : f64) : bool := f64_ltb y x.

Definition f64_is_nan (x : f64) : bool :=
  match f64_value x with S754_nan => true | _ => false end.
Definition f64_is_infinite (x : f64) : bool :=
  match f64_value x with S754_infinity _ => true | _ => false end.
Definition f64_is_finite (x : f64) : bool :=
  match f64_value x with S754_zero _ | S754_finite _ _ _ => true | _ => false end.

(** A bit pattern that denotes a number (or an infinity). *)
Definition f64_num (x : f64) : Prop := in_u64 x /\ f64_is_nan x = false.

#[export] Instance f64_num_dec x : Decision (f64_num x).
Proof. unfold f64_num; apply _. Defined.

Definition f64_inf : f64 := 2047 * 2 ^ 52.
Definition f64_neg_inf : f64 := 2 ^ 63 + 2047 * 2 ^ 52.
Definition f64_nan : f64 := 2047 * 2 ^ 52 + 2 ^ 51.

(** The integer whose order is the numeric order of the bit patterns: the
    magnitude bits, negated when the sign bit is set. *)
Definition f64_key (x : f64) : Z := if x <? 2 ^ 63 then x else 2 ^ 63 - x.

(** ** The numeric order is the order of the keys *)

Lemma f64_sign_ltb x : in_u64 x -> f64_sign x = negb (x <? 2 ^ 63).
Proof.
  intros [H0 H1]. unfold f64_sign.
  rewrite Z.testbit_eqb by lia.
  destruct (Z.ltb_spec x (2 ^ 63)).
  - by rewrite Z.div_small by lia.
  - replace (x / 2 ^ 63) with 1; [done|].
    apply (Z.div_unique x (2 ^ 63) 1 (x - 2 ^ 63)); lia.
Qed.

(** The fields of a bit pattern determine its magnitude. *)
Lemma f64_fields x :
  in_u64 x ->
  0 <= f64_exponent x < 2048 /\ 0 <= f64_mantissa x < 2 ^ 52 /\
  Z.abs (f64_key x) = f64_exponent x * 2 ^ 52 + f64_mantissa x.
Proof.
  intros [H0 H1]. unfold f64_exponent, f64_mantissa, f64_key.
  rewrite !Z.land_ones, Z.shiftr_div_pow2 by lia.
  change (2 ^ 11) with 2048.
  pose proof (Z.mod_pos_bound (x / 2 ^ 52) 2048 eq_refl).
  pose proof (Z.mod_pos_bound x (2 ^ 52) eq_refl).
  split; [done|]. split; [done|].
  pose proof (Z.div_mod x (2 ^ 52) ltac:(lia)) as Hx.
  destruct (Z.ltb_spec x (2 ^ 63)).
  - rewrite (Z.mod_small (x / 2 ^ 52)).
    + rewrite Z.abs_eq by lia. lia.
    + split; [apply Z.div_pos; lia|apply Z.div_lt_upper_bound; lia].
  - replace ((x / 2 ^ 52) mod 2048) with (x / 2 ^ 52 - 2048); [lia|].
    apply (Z.mod_unique (x / 2 ^ 52) 2048 1); [|lia].
    left. split.
    + assert (2048 <= x / 2 ^ 52) by (apply Z.div_le_lower_bound; lia). lia.
    + assert (x / 2 ^ 52 < 4096) by (apply Z.div_lt_upper_bound; lia). lia.
Qed.

Lemma to_pos_compare a b : 0 < a -> 0 < b ->
  Pos.compare_cont Eq (Z.to_pos a) (Z.to_pos b) = (a ?= b).
Proof. intros Ha Hb. destruct a, b; try lia. done. Qed.

(** The value as a function of the sign and of the two magnitude fields. *)
Definition f64_fields_value (s : bool) (e m : Z) : spec_float :=
  if e =? 2047 then (if m =? 0 then S754_infinity s else S754_nan)
  else if e =? 0 then
    (if m =? 0 then S754_zero s else S754_finite s (Z.to_pos m) (-1074))
  else S754_finite s (Z.to_pos (m + 2 ^ 52)) (e - 1075).

Ltac compare_solve :=
  symmetry; f_equal;
  first [ apply Z.compare_eq_iff; lia
        | apply Z.compare_lt_iff; lia
        | apply Z.compare_gt_iff; lia ].

(** Comparing values compares signed magnitudes. *)
Lemma f64_fields_value_compare s1 e1 m1 s2 e2 m2 :
  0 <= e1 < 2048 -> 0 <= m1 < 2 ^ 52 -> 0 <= e2 < 2048 -> 0 <= m2 < 2 ^ 52 ->
  f64_fields_value s1 e1 m1 <> S754_nan -> f64_fields_value s2 e2 m2 <> S754_nan ->
  SFcompare (f64_fields_value s1 e1 m1) (f64_fields_value s2 e2 m2) =
  Some ((if s1 then - (e1 * 2 ^ 52 + m1) else e1 * 2 ^ 52 + m1) ?=
        (if s2 then - (e2 * 2 ^ 52 + m2) else e2 * 2 ^ 52 + m2)).
Proof.
  intros He1 Hm1 He2 Hm2. unfold f64_fields_value.
  destruct (Z.eqb_spec e1 2047), (Z.eqb_spec m1 0); try done;
  destruct (Z.eqb_spec e2 2047), (Z.eqb_spec m2 0); try done; intros _ _;
  try (destruct (Z.eqb_spec e1 0)); try (destruct (Z.eqb_spec e2 0));
  cbn [SFcompare]; destruct s1, s2; try compare_solve;
  rewrite ?to_pos_compare by lia;
  repeat match goal with
  | |- Some ?l = _ => match l with
    | context [?a ?= ?b] => destruct (Z.compare_spec a b); cbn [CompOpp]
    end
  end; compare_solve.
Qed.

Lemma f64_value_fields x :
  f64_value x = f64_fields_value (f64_sign x) (f64_exponent x) (f64_mantissa x).
Proof. done. Qed.

Lemma f64_key_fields x :
  in_u64 x ->
  f64_key x = if f64_sign x then - (f64_exponent x * 2 ^ 52 + f64_mantissa x)
              else f64_exponent x * 2 ^ 52 + f64_mantissa x.
Proof.
  intros Hx. destruct (f64_fields x Hx) as (_ & _ & <-).
  rewrite f64_sign_ltb by done. unfold f64_key. destruct Hx.
  destruct (Z.ltb_spec x (2 ^ 63)); simpl; lia.
Qed.

Lemma f64_num_value x : f64_num x -> f64_value x <> S754_nan.
Proof. intros [_ H]. unfold f64_is_nan in H. by destruct (f64_value x). Qed.

Lemma f64_compare_key x y :
  f64_num x -> f64_num y -> f64_compare x y = Some (f64_key x ?= f64_key y).
Proof.
  intros Hx Hy. unfold f64_compare.
  pose proof (f64_num_value _ Hx) as Nx. pose proof (f64_num_value _ Hy) as Ny.
  destruct Hx as [Hx _], Hy as [Hy _].
  destruct (f64_fields x Hx) as (? & ? & _). destruct (f64_fields y Hy) as (? & ? & _).
  rewrite (f64_key_fields x), (f64_key_fields y) by done.
  rewrite f64_value_fields in Nx |- *. rewrite (f64_value_fields y) in Ny |- *.
  by apply f64_fields_value_compare.
Qed.

Lemma f64_ltb_key x y :
  f64_num x -> f64_num y -> f64_ltb x y = (f64_key x <? f64_key y).
Proof.
  intros Hx Hy. unfold f64_ltb, SFltb. fold (f64_compare x y).
  rewrite f64_compare_key by done. unfold Z.ltb. by destruct (_ ?= _).
Qed.

Lemma f64_eqb_key x y :
  f64_num x -> f64_num y -> f64_eqb x y = (f64_key x =? f64_key y).
Proof.
  intros Hx Hy. unfold f64_eqb, SFeqb. fold (f64_compare x y).
  rewrite f64_compare_key by done. rewrite Z.eqb_compare. by destruct (_ ?= _).
Qed.

(** Distinct bit patterns with one key are the two zeros. *)
Lemma f64_key_inj x y :
  in_u64 x -> in_u64 y -> f64_key x = f64_key y ->
  x = y \/ (x = 0 /\ y = 2 ^ 63) \/ (x = 2 ^ 63 /\ y = 0).
Proof.
  intros [] []. unfold f64_key.
  destruct (Z.ltb_spec x (2 ^ 63)), (Z.ltb_spec y (2 ^ 63)); lia.
Qed.

Example f64_one : f64_value (1023 * 2 ^ 52) = S754_finite false (2 ^ 52) (-52).
Proof. reflexivity. Qed.
Example f64_nan_is_nan : f64_is_nan f64_nan = true.
Proof. reflexivity. Qed.
