(* ===== verification/Text.v ===== *)
(** * Text: UTF-8, decimal integers

    What the program uses of the standard library on text.  A [String] or
    [&str] is its UTF-8 bytes; [utf8_valid] is the test [str::from_utf8]
    makes, and [from_utf8_lossy] is [String::from_utf8_lossy]. *)

From S2P Require Import Prelude.

(** ** UTF-8 *)

Definition in_range (lo hi : Z) (b : byte) : bool :=
  (lo <=? byte_val b) && (byte_val b <=? hi).

Definition is_cont (b : byte) : bool := in_range 128 191 b.

(** Whether [b1] may follow the lead byte [b0] of a three- or four-byte
    sequence: no overlong forms, no surrogates, nothing above U+10FFFF. *)
Definition second_ok (b0 b1 : byte) : bool :=
  let v := byte_val b0 in
  if v =? 224 then in_range 160 191 b1
  else if v =? 237 then in_range 128 159 b1
  else if v =? 240 then in_range 144 191 b1
  else if v =? 244 then in_range 128 143 b1
  else is_cont b1.

(** The number of bytes a lead byte announces, zero for a byte that leads none. *)
Definition utf8_width (b : byte) : Z :=
  if in_range 0 127 b then 1
  else if in_range 194 223 b then 2
  else if in_range 224 239 b then 3
  else if in_range 240 244 b then 4
  else 0.

(** How many bytes of [l], which follow the lead byte [b0], continue the
    sequence, up to the [utf8_width b0 - 1] it needs. *)
Definition utf8_follow (b0 : byte) (l : bytes) : nat :=
  let w := utf8_width b0 in
  if w <=? 1 then 0%nat
  else if w =? 2 then
    match l with b1 :: _ => if is_cont b1 then 1%nat else 0%nat | [] => 0%nat end
  else
    match l with
    | b1 :: l2 =>
        if second_ok b0 b1 then
          match l2 with
          | b2 :: l3 =>
              if is_cont b2 then
                if w =? 3 then 2%nat
                else match l3 with b3 :: _ => if is_cont b3 then 3%nat else 2%nat | [] => 2%nat end
              else 1%nat
          | [] => 1%nat
          end
        else 0%nat
    | [] => 0%nat
    end.

(** The first sequence of [b0 :: l]: whether it is a character, and the bytes
    after its first one that belong to it. *)
Definition utf8_char_ok (b0 : byte) (l : bytes) : bool :=
  (0 <? utf8_width b0) && (Z.of_nat (utf8_follow b0 l) =? utf8_width b0 - 1).

(** Every sequence takes at least one byte, so [length l] steps suffice. *)
Fixpoint utf8_valid_go (fuel : nat) (l : bytes) : bool :=
  match fuel, l with
  | _, [] => true
  | O, _ :: _ => false
  | S fuel', b :: l' =>
      utf8_char_ok b l' && utf8_valid_go fuel' (drop (utf8_follow b l') l')
  end.
Definition utf8_valid (l : bytes) : bool := utf8_valid_go (length l) l.

(** U+FFFD. *)
Definition REPLACEMENT : bytes := [xef; xbf; xbd]%byte.

(** Each maximal invalid sequence becomes one U+FFFD. *)
Fixpoint from_utf8_lossy_go (fuel : nat) (l : bytes) : bytes :=
  match fuel, l with
  | _, [] => []
  | O, _ :: _ => []
  | S fuel', b :: l' =>
      let n := utf8_follow b l' in
      (if utf8_char_ok b l' then b :: take n l' else REPLACEMENT) ++
      from_utf8_lossy_go fuel' (drop n l')
  end.
Definition from_utf8_lossy (l : bytes) : bytes := from_utf8_lossy_go (length l) l.

(** ** Decimal integers *)

Definition CHAR_0 : Z := 48.

Definition is_ascii_digit (b : byte) : bool := in_range 48 57 b.
Definition digit_val (b : byte) : option Z :=
  if is_ascii_digit b then Some (byte_val b - CHAR_0) else None.
Definition digit_char (d : Z) : byte := byte_of_Z (CHAR_0 + d).

(** [i64::from_str]: the digits accumulate with overflow checks, downward for a
    negative number. *)
Fixpoint parse_digits (negative : bool) (acc : Z) (l : bytes) : option Z :=
  match l with
  | [] => Some acc
  | b :: l' =>
      d ← digit_val b;
      acc1 ← i64_checked_mul acc 10;
      acc2 ← i64_checked_add acc1 (if negative then - d else d);
      parse_digits negative acc2 l'
  end.

Definition i64_from_str (s : bytes) : option Z :=
  match s with
  | [] => None
  | b :: rest =>
      if decide (b = "+"%byte) then
        match rest with [] => None | _ => parse_digits false 0 rest end
      else if decide (b = "-"%byte) then
        match rest with [] => None | _ => parse_digits true 0 rest end
      else parse_digits false 0 s
  end.

(** The decimal digits of a natural number, most significant first.  Twenty
    digits are enough for 64 bits; [fuel] bounds the count. *)
Fixpoint digits_go (fuel : nat) (n : Z) (acc : bytes) : bytes :=
  match fuel with
  | O => acc
  | S fuel' =>
      let acc' := digit_char (n mod 10) :: acc in
      if n <? 10 then acc' else digits_go fuel' (n / 10) acc'
  end.

(** [Display] for integers.  [n] has at most [log2 n + 1] digits. *)
Definition dec_digits (n : Z) : bytes := digits_go (S (Z.to_nat (Z.log2 n))) n [].
Definition int_display (n : Z) : bytes :=
  if n <? 0 then "-"%byte :: dec_digits (- n) else dec_digits n.

(** [{:02x}] on a byte. *)
Definition hex_digit (d : Z) : byte :=
  if d <? 10 then byte_of_Z (48 + d) else byte_of_Z (87 + d).
Definition hex02 (b : byte) : bytes :=
  [hex_digit (byte_val b / 16); hex_digit (byte_val b mod 16)].

(** The carriage return and line feed that end a line. *)
Definition CR : byte := x0d%byte.
Definition LF : byte := x0a%byte.
Definition CRLF : bytes := [CR; LF].

Example lossy_mixed : from_utf8_lossy [x41; xff; xe2; x82; x42]%byte = [x41] ++ REPLACEMENT ++ REPLACEMENT ++ [x42].
Proof. reflexivity. Qed.
Example display_min : int_display (- 2 ^ 63) = B "-9223372036854775808".
Proof. reflexivity. Qed.
Example from_str_plus : i64_from_str (B "+007") = Some 7.
Proof. reflexivity. Qed.
Example from_str_overflow : i64_from_str (B "9223372036854775808") = None.
Proof. reflexivity. Qed.

(** ** Lemmas on UTF-8 *)

Lemma in_range_spec lo hi b : in_range lo hi b = true <-> lo <= byte_val b <= hi.
Proof. unfold in_range. rewrite andb_true_iff, !Z.leb_le. lia. Qed.

Definition is_ascii (b : byte) : bool := in_range 0 127 b.

Lemma utf8_follow_length b l : (utf8_follow b l <= length l)%nat.
Proof.
  unfold utf8_follow. destruct (utf8_width b <=? 1); [lia|].
  destruct l as [|b1 [|b2 [|b3 l]]]; cbn [length];
    repeat case_match; lia.
Qed.

(** A complete character does not look at the bytes after it. *)
Lemma utf8_follow_app b l x :
  utf8_char_ok b l = true -> utf8_follow b (l ++ x) = utf8_follow b l.
Proof.
  unfold utf8_char_ok. rewrite andb_true_iff, Z.eqb_eq. intros [_ Hw]. revert Hw.
  unfold utf8_follow. destruct (Z.leb_spec (utf8_width b) 1); [done|].
  destruct (Z.eqb_spec (utf8_width b) 2), (Z.eqb_spec (utf8_width b) 3);
    destruct l as [|b1 [|b2 [|b3 l]]]; cbn [app]; repeat case_match; try done; try lia.
Qed.

Lemma utf8_char_ok_app b l x :
  utf8_char_ok b l = true -> utf8_char_ok b (l ++ x) = true.
Proof.
  intros H. unfold utf8_char_ok. rewrite utf8_follow_app by done. exact H.
Qed.

Lemma utf8_valid_go_fuel n m l :
  (length l <= n)%nat -> (length l <= m)%nat -> utf8_valid_go n l = utf8_valid_go m l.
Proof.
  revert m l. induction n as [|n IH]; intros [|m] [|b l]; cbn [length]; intros; try lia; try done.
  cbn [utf8_valid_go]. f_equal. apply IH; rewrite length_drop; lia.
Qed.

Lemma utf8_valid_cons b l :
  utf8_valid (b :: l) = utf8_char_ok b l && utf8_valid (drop (utf8_follow b l) l).
Proof.
  unfold utf8_valid. cbn [length utf8_valid_go]. f_equal.
  apply utf8_valid_go_fuel; rewrite length_drop; lia.
Qed.

(** Induction over the characters of a text. *)
Lemma utf8_ind (P : bytes -> Prop) :
  P [] -> (forall b l, P (drop (utf8_follow b l) l) -> P (b :: l)) -> forall l, P l.
Proof.
  intros Hn Hc l. remember (length l) as n eqn:Hl. assert (length l <= n)%nat by lia. clear Hl.
  revert l H. induction n as [|n IH]; intros [|b l]; cbn [length]; intros; try done; try lia.
  apply Hc, IH. rewrite length_drop. lia.
Qed.

Lemma utf8_valid_app a x : utf8_valid a = true -> utf8_valid (a ++ x) = utf8_valid x.
Proof.
  revert a. apply (utf8_ind (fun a => utf8_valid a = true -> utf8_valid (a ++ x) = utf8_valid x)); [done|].
  intros b l IH. rewrite utf8_valid_cons, andb_true_iff. intros [Hc Hv]. cbn [app].
  rewrite utf8_valid_cons, utf8_char_ok_app, utf8_follow_app by done. cbn [andb].
  rewrite drop_app_le by apply utf8_follow_length. by apply IH.
Qed.

Lemma utf8_ascii_follow b l : is_ascii b = true -> utf8_follow b l = 0%nat /\ utf8_char_ok b l = true.
Proof.
  intros Hb. unfold utf8_char_ok, utf8_follow, utf8_width.
  unfold is_ascii in Hb. rewrite Hb. done.
Qed.

Lemma utf8_valid_ascii_cons b l : is_ascii b = true -> utf8_valid (b :: l) = utf8_valid l.
Proof.
  intros Hb. rewrite utf8_valid_cons. by destruct (utf8_ascii_follow b l Hb) as [-> ->].
Qed.

Lemma utf8_valid_ascii l : Forall (fun b => is_ascii b = true) l -> utf8_valid l = true.
Proof. induction 1; [done|]. by rewrite utf8_valid_ascii_cons. Qed.

Lemma from_utf8_lossy_go_fuel n m l :
  (length l <= n)%nat -> (length l <= m)%nat -> from_utf8_lossy_go n l = from_utf8_lossy_go m l.
Proof.
  revert m l. induction n as [|n IH]; intros [|m] [|b l]; cbn [length]; intros; try lia; try done.
  cbn [from_utf8_lossy_go]. f_equal. apply IH; rewrite length_drop; lia.
Qed.

Lemma from_utf8_lossy_cons b l :
  from_utf8_lossy (b :: l) =
  (if utf8_char_ok b l then b :: take (utf8_follow b l) l else REPLACEMENT) ++
  from_utf8_lossy (drop (utf8_follow b l) l).
Proof.
  unfold from_utf8_lossy. cbn [length from_utf8_lossy_go]. f_equal.
  apply from_utf8_lossy_go_fuel; rewrite length_drop; lia.
Qed.

(** Lossy decoding leaves a valid text as it is. *)
Lemma from_utf8_lossy_valid l : utf8_valid l = true -> from_utf8_lossy l = l.
Proof.
  revert l. apply (utf8_ind (fun l => utf8_valid l = true -> from_utf8_lossy l = l)); [done|].
  intros b l IH. rewrite utf8_valid_cons, andb_true_iff. intros [Hc Hv].
  rewrite from_utf8_lossy_cons, Hc, IH by done. cbn [app]. by rewrite take_drop.
Qed.

Lemma utf8_char_valid b l :
  utf8_char_ok b l = true -> utf8_valid (b :: take (utf8_follow b l) l) = true.
Proof.
  intros Hc. pose proof (utf8_follow_length b l) as Hl.
  assert (Hn : utf8_follow b (take (utf8_follow b l) l) = utf8_follow b l).
  { revert Hc. unfold utf8_char_ok. rewrite andb_true_iff, Z.eqb_eq. intros [_ Hw]. revert Hw Hl.
    unfold utf8_follow. destruct (Z.leb_spec (utf8_width b) 1); [done|].
    destruct (utf8_width b =? 2) eqn:E2, (utf8_width b =? 3) eqn:E3;
      destruct l as [|b1 [|b2 [|b3 l]]]; repeat case_match; cbn [take] in *; try done; try lia;
      simplify_eq; repeat case_match; try done; try lia; congruence. }
  rewrite utf8_valid_cons. rewrite Hn. unfold utf8_char_ok in *. rewrite Hn, Hc.
  rewrite drop_ge by (rewrite length_take; lia). done.
Qed.

(** What lossy decoding answers is always a valid text. *)
Lemma from_utf8_lossy_utf8 l : utf8_valid (from_utf8_lossy l) = true.
Proof.
  revert l. apply utf8_ind; [done|]. intros b l IH. rewrite from_utf8_lossy_cons.
  destruct (utf8_char_ok b l) eqn:Hc.
  - rewrite utf8_valid_app by by apply utf8_char_valid. done.
  - rewrite utf8_valid_app by done. done.
Qed.

(** ** Lemmas on decimal integers *)

Definition is_digits (l : bytes) : Prop := Forall (fun b => is_ascii_digit b = true) l.

Definition digits_value (l : bytes) : Z :=
  fold_left (fun acc b => acc * 10 + (byte_val b - CHAR_0)) l 0.

Lemma digits_value_from l a :
  fold_left (fun acc b => acc * 10 + (byte_val b - CHAR_0)) l a =
  a * 10 ^ Z.of_nat (length l) + digits_value l.
Proof.
  unfold digits_value. revert a. induction l as [|b l IH]; intros a; cbn [fold_left length]; [lia|].
  rewrite IH, (IH (0 * 10 + _)), Nat2Z.inj_succ, Z.pow_succ_r by lia. ring.
Qed.

Lemma digits_value_cons b l :
  digits_value (b :: l) = (byte_val b - CHAR_0) * 10 ^ Z.of_nat (length l) + digits_value l.
Proof. unfold digits_value at 1. cbn [fold_left]. rewrite digits_value_from. lia. Qed.

Lemma digits_value_app a b :
  digits_value (a ++ b) = digits_value a * 10 ^ Z.of_nat (length b) + digits_value b.
Proof. unfold digits_value at 1. by rewrite fold_left_app, digits_value_from. Qed.

Lemma digits_value_range l : is_digits l -> 0 <= digits_value l < 10 ^ Z.of_nat (length l).
Proof.
  induction 1 as [|b l Hb Hl IH]; [done|]. apply in_range_spec in Hb. unfold CHAR_0 in *.
  rewrite digits_value_cons. cbn [length]. rewrite Nat2Z.inj_succ, Z.pow_succ_r by lia.
  unfold CHAR_0. nia.
Qed.

Lemma digit_char_val d : 0 <= d < 10 -> byte_val (digit_char d) = CHAR_0 + d.
Proof. intros. unfold digit_char. rewrite byte_val_of_Z. unfold CHAR_0. apply Z.mod_small. lia. Qed.

Lemma digit_char_digit d : 0 <= d < 10 -> is_ascii_digit (digit_char d) = true.
Proof. intros. apply in_range_spec. rewrite digit_char_val by done. unfold CHAR_0. lia. Qed.

Lemma digits_go_spec fuel n acc :
  0 <= n < 10 ^ Z.of_nat fuel -> fuel <> 0%nat ->
  exists l, digits_go fuel n acc = l ++ acc /\ is_digits l /\ digits_value l = n /\
    l <> [] /\ (0 < n -> exists b l', l = b :: l' /\ 0 < byte_val b - CHAR_0).
Proof.
  revert n acc. induction fuel as [|fuel IH]; [done|]. intros n acc Hn _.
  rewrite Nat2Z.inj_succ, Z.pow_succ_r in Hn by lia. cbn [digits_go].
  pose proof (Z.mod_pos_bound n 10 eq_refl) as Hm.
  destruct (Z.ltb_spec n 10) as [Hs|Hs].
  - exists [digit_char (n mod 10)]. rewrite Z.mod_small by lia.
    split; [done|]. split; [by constructor; [apply digit_char_digit; lia|constructor]|].
    split; [|split; [done|]].
    + rewrite digits_value_cons, digit_char_val by lia. cbn. unfold digits_value. simpl. lia.
    + intros. exists (digit_char n), []. rewrite digit_char_val by lia. split; [done|lia].
  - assert (fuel <> 0%nat) by (intros ->; simpl in Hn; lia).
    assert (Hq : 0 <= n / 10 < 10 ^ Z.of_nat fuel)
      by (split; [apply Z.div_pos; lia|apply Z.div_lt_upper_bound; lia]).
    assert (0 < n / 10) by (apply Z.div_str_pos; lia).
    destruct (IH (n / 10) (digit_char (n mod 10) :: acc) Hq) as (l & -> & Hd & Hv & Hne & Hf); [done|].
    exists (l ++ [digit_char (n mod 10)]). rewrite <- app_assoc. split; [done|]. split; [|split; [|split]].
    + apply Forall_app. split; [done|]. constructor; [by apply digit_char_digit|constructor].
    + rewrite digits_value_app, digits_value_cons, digit_char_val, Hv by lia.
      cbn [length]. unfold digits_value. simpl. pose proof (Z.div_mod n 10). lia.
    + by destruct l.
    + intros _. destruct Hf as (b & l' & -> & Hb); [done|]. by exists b, (l' ++ [digit_char (n mod 10)]).
Qed.

Lemma dec_digits_spec n :
  0 <= n -> is_digits (dec_digits n) /\ digits_value (dec_digits n) = n /\ dec_digits n <> [] /\
    (0 < n -> exists b l', dec_digits n = b :: l' /\ 0 < byte_val b - CHAR_0).
Proof.
  intros Hn. unfold dec_digits.
  destruct (digits_go_spec (S (Z.to_nat (Z.log2 n))) n []) as (l & -> & H1 & H2 & H3 & H4); [|done|].
  - split; [done|]. rewrite Nat2Z.inj_succ, Z2Nat.id by apply Z.log2_nonneg.
    apply Z.lt_le_trans with (2 ^ Z.succ (Z.log2 n)).
    + destruct (Z.eq_dec n 0) as [->|]; [done|]. apply Z.log2_spec. lia.
    + apply Z.pow_le_mono_l. lia.
  - rewrite app_nil_r. auto.
Qed.

Lemma parse_digits_ok (negative : bool) (a : Z) (l : bytes) :
  is_digits l -> 0 <= a ->
  a * 10 ^ Z.of_nat (length l) + digits_value l <= (if negative then 2 ^ 63 else 2 ^ 63 - 1) ->
  parse_digits negative (if negative then - a else a) l =
  Some (if negative then - (a * 10 ^ Z.of_nat (length l) + digits_value l)
        else a * 10 ^ Z.of_nat (length l) + digits_value l).
Proof.
  intros Hl. revert a. induction Hl as [|b l Hb Hl IH]; intros a Ha Hmax.
  - cbn. unfold digits_value. cbn. destruct negative; f_equal; lia.
  - cbn [parse_digits]. unfold digit_val. rewrite Hb. cbn [mbind option_bind].
    pose proof (digits_value_range l Hl) as Hr. apply in_range_spec in Hb.
    rewrite digits_value_cons in Hmax |- *. cbn [length] in Hmax |- *.
    rewrite Nat2Z.inj_succ, Z.pow_succ_r in Hmax |- * by lia.
    set (P := 10 ^ Z.of_nat (length l)) in *. assert (1 <= P) by (unfold P; lia).
    set (dg := byte_val b - CHAR_0) in *. unfold CHAR_0 in dg. assert (0 <= dg < 10) by lia.
    assert (Hstep : a * 10 + dg <= if negative then 2 ^ 63 else 2 ^ 63 - 1)
      by (destruct negative; nia).
    unfold i64_checked_mul, i64_checked_add, i64_checked.
    assert (E1 : in_i64 ((if negative then - a else a) * 10))
      by (unfold in_i64; destruct negative; lia).
    rewrite decide_True by exact E1. cbn [mbind option_bind].
    assert (E2 : (if negative then - a else a) * 10 + (if negative then - dg else dg) =
      if negative then - (a * 10 + dg) else a * 10 + dg) by (destruct negative; lia).
    rewrite E2, decide_True by (unfold in_i64; destruct negative; lia). cbn [mbind option_bind].
    rewrite IH by (try (destruct negative); nia).
    destruct negative; f_equal; fold P; ring.
Qed.

Lemma digit_not_sign b : is_ascii_digit b = true -> b <> "+"%byte /\ b <> "-"%byte.
Proof. split; intros ->; discriminate. Qed.

Lemma i64_from_str_digits l :
  is_digits l -> l <> [] -> digits_value l < 2 ^ 63 -> i64_from_str l = Some (digits_value l).
Proof.
  intros Hd Hne Hv. unfold i64_from_str. destruct l as [|b l]; [done|].
  destruct (digit_not_sign b) as [H1 H2]; [by inversion Hd|].
  rewrite !decide_False by done. rewrite (parse_digits_ok false 0) by (try done; lia). done.
Qed.

(** Parsing a displayed integer gives it back. *)
Lemma i64_from_str_display n : in_i64 n -> i64_from_str (int_display n) = Some n.
Proof.
  unfold in_i64, int_display. intros Hn. destruct (Z.ltb_spec n 0).
  - destruct (dec_digits_spec (- n)) as (Hd & Hv & Hne & _); [lia|].
    unfold i64_from_str. destruct (dec_digits (- n)) as [|b l] eqn:E; [done|].
    rewrite decide_False, decide_True by done.
    rewrite (parse_digits_ok true 0) by (try done; rewrite Hv; lia). rewrite Hv. f_equal. lia.
  - destruct (dec_digits_spec n) as (Hd & Hv & Hne & _); [lia|].
    rewrite i64_from_str_digits by (try done; lia). by rewrite Hv.
Qed.

Lemma is_digits_ascii l : is_digits l -> Forall (fun b => is_ascii b = true) l.
Proof.
  apply List.Forall_impl. intros b Hb%in_range_spec. apply in_range_spec. lia.
Qed.

Lemma int_display_ascii n : Forall (fun b => is_ascii b = true) (int_display n).
Proof.
  unfold int_display. destruct (Z.ltb_spec n 0).
  - constructor; [done|]. apply is_digits_ascii, dec_digits_spec. lia.
  - apply is_digits_ascii, dec_digits_spec. lia.
Qed.

Lemma int_display_utf8 n : utf8_valid (int_display n) = true.
Proof. apply utf8_valid_ascii, int_display_ascii. Qed.

Lemma int_display_no_cr n : CR ∉ int_display n.
Proof.
  assert (H : forall l, is_digits l -> CR ∉ l).
  { unfold is_digits. intros l Hl Hin. rewrite list.Forall_forall in Hl. by apply Hl in Hin. }
  unfold int_display. destruct (Z.ltb_spec n 0).
  - rewrite not_elem_of_cons. split; [done|]. apply H, dec_digits_spec. lia.
  - apply H, dec_digits_spec. lia.
Qed.

(** ** Characters *)

(** [str::chars]: the encodings of the characters of a valid text.  Every
    character takes at least one byte. *)
Fixpoint utf8_chars_go (fuel : nat) (l : bytes) : list bytes :=
  match fuel, l with
  | S fuel', b :: l' =>
      (b :: take (utf8_follow b l') l') :: utf8_chars_go fuel' (drop (utf8_follow b l') l')
  | _, _ => []
  end.
Definition utf8_chars (l : bytes) : list bytes := utf8_chars_go (length l) l.

(** The characters with the Unicode property White_Space, in UTF-8:
    U+0009 to U+000D, U+0020, U+0085, U+00A0, U+1680, U+2000 to U+200A, U+2028,
    U+2029, U+202F, U+205F and U+3000. *)
Definition WHITE_SPACE : list bytes :=
  [[x09]; [x0a]; [x0b]; [x0c]; [x0d]; [x20]; [xc2; x85]; [xc2; xa0]; [xe1; x9a; x80];
   [xe2; x80; x80]; [xe2; x80; x81]; [xe2; x80; x82]; [xe2; x80; x83]; [xe2; x80; x84];
   [xe2; x80; x85]; [xe2; x80; x86]; [xe2; x80; x87]; [xe2; x80; x88]; [xe2; x80; x89];
   [xe2; x80; x8a]; [xe2; x80; xa8]; [xe2; x80; xa9]; [xe2; x80; xaf]; [xe2; x81; x9f];
   [xe3; x80; x80]]%byte.

(** [char::is_whitespace]. *)
Definition is_whitespace (c : bytes) : bool := bool_decide (c ∈ WHITE_SPACE).

Fixpoint drop_whitespace (l : list bytes) : list bytes :=
  match l with
  | c :: l' => if is_whitespace c then drop_whitespace l' else l
  | [] => []
  end.

(** [str::trim]. *)
Definition trim (s : bytes) : bytes :=
  concat (rev (drop_whitespace (rev (drop_whitespace (utf8_chars s))))).

Example trim_both : trim (B " 3" ++ [xc2; xa0; x0a]%byte) = B "3".
Proof. vm_compute. reflexivity. Qed.
