(* ===== verification/F64Text.v ===== *)
(** * Floating-point numbers as text

    [str::parse::<f64>] and [Display] for [f64] as the standard library
    documents them: parsing rounds the decimal number to the nearest [f64], ties
    to even; display prints the shortest decimal number that parses back, never
    with an exponent.  The main lemma is that display followed by parse is the
    identity on finite numbers ([f64_from_str_display]). *)

From S2P Require Import Prelude F64 Text.

(** ** Rounding a rational number *)

(** The integer nearest to [a / b], ties to even. *)
Definition div_round_even (a b : Z) : Z :=
  let q := a / b in
  match 2 * (a mod b) ?= b with
  | Lt => q
  | Gt => q + 1
  | Eq => if Z.even q then q else q + 1
  end.

(** [2 ^ e <= num / den], for any integer [e]. *)
Definition pow2_le (e num den : Z) : bool :=
  den * 2 ^ Z.max e 0 <=? num * 2 ^ Z.max (- e) 0.

(** The integer part of the binary logarithm of [num / den]. *)
Definition floor_log2 (num den : Z) : Z :=
  let e := Z.log2 num - Z.log2 den in
  if pow2_le e num den then e else e - 1.

(** The [f64] nearest to [num / den]: its last place is [2 ^ t], never below
    [2 ^ -1074]; the biased exponent and the fraction add up in one number, and
    anything from the last power on is infinite. *)
Definition f64_round (negative : bool) (num den : Z) : f64 :=
  let mag :=
    if num =? 0 then 0
    else
      let t := Z.max (floor_log2 num den - 52) (-1074) in
      let q := div_round_even (num * 2 ^ Z.max (- t) 0) (den * 2 ^ Z.max t 0) in
      Z.min f64_inf ((t + 1074) * 2 ^ 52 + q) in
  if negative then mag + 2 ^ 63 else mag.

(** The [f64] nearest to [c * 10 ^ p]. *)
Definition f64_decimal (negative : bool) (c p : Z) : f64 :=
  f64_round negative (c * 10 ^ Z.max p 0) (10 ^ Z.max (- p) 0).

(** ** Parsing *)

(** The longest run of digits at the front. *)
Fixpoint span_digits (l : bytes) : bytes * bytes :=
  match l with
  | b :: l' =>
      if is_ascii_digit b then let '(ds, r) := span_digits l' in (b :: ds, r) else ([], l)
  | [] => ([], [])
  end.

(** The exponent's digits; it stops growing from 65536 on. *)
Definition exponent_value (ds : bytes) : Z :=
  fold_left (fun acc b => if acc <? 65536 then 10 * acc + (byte_val b - CHAR_0) else acc) ds 0.

(** After the [e]: an optional sign and at least one digit. *)
Definition parse_scientific (l : bytes) : option (Z * bytes) :=
  let '(negative, l1) :=
    match l with
    | b :: l' =>
        if decide (b = "-"%byte) then (true, l')
        else if decide (b = "+"%byte) then (false, l') else (false, l)
    | [] => (false, l)
    end in
  match span_digits l1 with
  | ([], _) => None
  | (ds, r) => Some (if negative then - exponent_value ds else exponent_value ds, r)
  end.

(** [digits[.digits][e[sign]digits]] with a digit before or after the point:
    the number is the first answer times ten to the second. *)
Definition parse_number (s : bytes) : option (Z * Z) :=
  let '(ints, r1) := span_digits s in
  let '(fracs, r2) :=
    match r1 with
    | b :: r => if decide (b = "."%byte) then span_digits r else ([], r1)
    | [] => ([], r1)
    end in
  if decide (ints ++ fracs = []) then None
  else
    '(e, r3) ← match r2 with
      | b :: r =>
          if decide (b = "e"%byte \/ b = "E"%byte) then parse_scientific r else Some (0, r2)
      | [] => Some (0, r2)
      end;
    match r3 with
    | [] => Some (digits_value (ints ++ fracs), e - Z.of_nat (length fracs))
    | _ => None
    end.

(** [inf], [infinity] and [nan], in any case. *)
Definition parse_inf_nan (s : bytes) : option f64 :=
  if eq_ignore_ascii_case s (B "inf") || eq_ignore_ascii_case s (B "infinity") then Some f64_inf
  else if eq_ignore_ascii_case s (B "nan") then Some f64_nan
  else None.

Definition f64_from_str (s : bytes) : option f64 :=
  let '(negative, s1) :=
    match s with
    | b :: r =>
        if decide (b = "-"%byte) then (true, r)
        else if decide (b = "+"%byte) then (false, r) else (false, s)
    | [] => (false, s)
    end in
  match parse_number s1 with
  | Some (c, p) => Some (f64_decimal negative c p)
  | None => (fun x => if negative then x + 2 ^ 63 else x) <$> parse_inf_nan s1
  end.

(** ** Display *)

(** The magnitude of a finite number as a fraction. *)
Definition f64_ratio (d : f64) : Z * Z :=
  let e := Z.max (f64_exponent d) 1 - 1075 in
  let m := f64_mantissa d + (if f64_exponent d =? 0 then 0 else 2 ^ 52) in
  (m * 2 ^ Z.max e 0, 2 ^ Z.max (- e) 0).

(** The number of zeros after the point of [num / den < 1]; the smallest
    number, [2 ^ -1074], has 323. *)
Fixpoint leading_zeros (fuel : nat) (num den : Z) : Z :=
  match fuel with
  | O => 0
  | S fuel' => if den <=? num * 10 then 0 else 1 + leading_zeros fuel' (num * 10) den
  end.

(** The [k] with [10 ^ (k - 1) <= num / den < 10 ^ k]. *)
Definition decimal_exponent (num den : Z) : Z :=
  if den <=? num then Z.of_nat (length (dec_digits (num / den)))
  else - leading_zeros 400 num den.

(** The [n]-digit decimal number nearest to [num / den] among those that parse
    to [mag], the upper one in a tie. *)
Definition digits_candidate (mag num den n : Z) : option (Z * Z) :=
  let s := n - decimal_exponent num den in
  let num' := num * 10 ^ Z.max s 0 in
  let den' := den * 10 ^ Z.max (- s) 0 in
  let lo := num' / den' in
  let ok c := f64_decimal false c (- s) =? mag in
  if ok lo && (negb (ok (lo + 1)) || (2 * (num' mod den') <? den')) then Some (lo, - s)
  else if ok (lo + 1) then Some (lo + 1, - s)
  else None.

Fixpoint shortest_from (fuel : nat) (mag num den n : Z) : option (Z * Z) :=
  match fuel with
  | O => None
  | S fuel' =>
      match digits_candidate mag num den n with
      | Some r => Some r
      | None => shortest_from fuel' mag num den (n + 1)
      end
  end.

(** The shortest decimal number [c * 10 ^ p] that parses to the magnitude.
    Seventeen digits are always enough; the exact expansion is the last resort. *)
Definition shortest (d : f64) : Z * Z :=
  let '(num, den) := f64_ratio d in
  default (num * 5 ^ Z.log2 den, - Z.log2 den)
    (shortest_from 17 (Z.abs (f64_key d)) num den 1).

Fixpoint strip_zeros (fuel : nat) (c p : Z) : Z * Z :=
  match fuel with
  | O => (c, p)
  | S fuel' => if c mod 10 =? 0 then strip_zeros fuel' (c / 10) (p + 1) else (c, p)
  end.

(** The digits of [c * 10 ^ p] around the decimal point. *)
Definition decimal_text (c p : Z) : bytes :=
  let ds := dec_digits c in
  let len := Z.of_nat (length ds) in
  let e := len + p in
  if e <=? 0 then B "0." ++ replicate (Z.to_nat (- e)) "0"%byte ++ ds
  else if e <? len then take (Z.to_nat e) ds ++ "."%byte :: drop (Z.to_nat e) ds
  else ds ++ replicate (Z.to_nat (e - len)) "0"%byte.

(** [format!("{d}")]. *)
Definition f64_display (d : f64) : bytes :=
  if f64_is_nan d then B "NaN"
  else
    (if f64_sign d then B "-" else []) ++
    (if f64_is_infinite d then B "inf"
     else if f64_key d =? 0 then B "0"
     else let '(c, p) := shortest d in
          let '(c, p) := strip_zeros (Z.to_nat (Z.log2 c)) c p in decimal_text c p).

Definition f64_bits (negative : bool) (e m : Z) : f64 := (if negative then 2 ^ 63 else 0) + e * 2 ^ 52 + m.

Example parse_one_half : f64_from_str (B "0.5") = Some (f64_bits false 1022 0).
Proof. vm_compute. reflexivity. Qed.
Example parse_exponent : f64_from_str (B "-12.5e1") = Some (f64_bits true 1029 (2 ^ 52 * 61 / 64)).
Proof. vm_compute. reflexivity. Qed.
Example parse_huge : f64_from_str (B "1e400") = Some f64_inf.
Proof. vm_compute. reflexivity. Qed.
Example parse_neg_infinity : f64_from_str (B "-Infinity") = Some f64_neg_inf.
Proof. vm_compute. reflexivity. Qed.
Example parse_no_digits : f64_from_str (B ".") = None.
Proof. vm_compute. reflexivity. Qed.
Example parse_tiny : f64_from_str (B "2e-324") = Some 0.
Proof. vm_compute. reflexivity. Qed.

(** ** Rounding depends on the ratio only *)

Lemma pow2_split e : 2 ^ Z.max (- e) 0 * 2 ^ Z.max e 0 = 2 ^ Z.abs e.
Proof. rewrite <- Z.pow_add_r by lia. f_equal. lia. Qed.

Lemma pow2_le_shift e num den k :
  0 <= k -> 0 <= e + k -> (pow2_le e num den = true <-> den * 2 ^ (e + k) <= num * 2 ^ k).
Proof.
  intros Hk Hek. unfold pow2_le. rewrite Z.leb_le.
  set (j := k - Z.max (- e) 0). assert (0 <= j) by lia.
  replace (e + k) with (Z.max e 0 + j) by lia. replace k with (Z.max (- e) 0 + j) by lia.
  rewrite !Z.pow_add_r, !Z.mul_assoc by lia.
  symmetry. rewrite <- Z.mul_le_mono_pos_r by lia. done.
Qed.

Lemma floor_log2_spec num den :
  0 < num -> 0 < den ->
  pow2_le (floor_log2 num den) num den = true /\ pow2_le (floor_log2 num den + 1) num den = false.
Proof.
  intros Hn Hd. pose proof (Z.log2_spec num Hn) as [N1 N2]. pose proof (Z.log2_spec den Hd) as [D1 D2].
  pose proof (Z.log2_nonneg num) as Hln. pose proof (Z.log2_nonneg den) as Hld.
  unfold floor_log2. set (ln := Z.log2 num) in *. set (ld := Z.log2 den) in *.
  assert (Hlo : pow2_le (ln - ld - 1) num den = true).
  { apply (pow2_le_shift _ _ _ (ld + 1)); [lia|lia|].
    replace (ln - ld - 1 + (ld + 1)) with ln by lia. rewrite <- Z.add_1_r in D2.
    pose proof (Z.pow_pos_nonneg 2 ln). pose proof (Z.pow_pos_nonneg 2 (ld + 1)). nia. }
  assert (Hhi : pow2_le (ln - ld + 1) num den = false).
  { apply not_true_iff_false. rewrite (pow2_le_shift _ _ _ ld) by lia.
    replace (ln - ld + 1 + ld) with (ln + 1) by lia. rewrite <- Z.add_1_r in N2.
    pose proof (Z.pow_pos_nonneg 2 ld). nia. }
  destruct (pow2_le (ln - ld) num den) eqn:E; [done|].
  replace (ln - ld - 1 + 1) with (ln - ld) by lia. done.
Qed.

Lemma pow2_le_mono e e' num den :
  0 < num -> 0 < den -> e' <= e -> pow2_le e num den = true -> pow2_le e' num den = true.
Proof.
  intros Hn Hd He. rewrite (pow2_le_shift e num den (Z.abs e + Z.abs e')),
    (pow2_le_shift e' num den (Z.abs e + Z.abs e')) by lia.
  intros H. eapply Z.le_trans; [|exact H].
  apply Z.mul_le_mono_nonneg_l; [lia|]. apply Z.pow_le_mono_r; lia.
Qed.

Lemma floor_log2_unique num den e :
  0 < num -> 0 < den -> pow2_le e num den = true -> pow2_le (e + 1) num den = false ->
  floor_log2 num den = e.
Proof.
  intros Hn Hd H1 H2. destruct (floor_log2_spec num den Hn Hd) as [F1 F2].
  set (f := floor_log2 num den) in *. destruct (Z.lt_trichotomy f e) as [Hlt|[?|Hlt]]; [|done|].
  - rewrite (pow2_le_mono e (f + 1) num den) in F2 by (try done; lia). done.
  - rewrite (pow2_le_mono f (e + 1) num den) in H2 by (try done; lia). done.
Qed.

Lemma pow2_le_scale k e num den : 0 < k -> pow2_le e (k * num) (k * den) = pow2_le e num den.
Proof.
  intros Hk. unfold pow2_le. apply eq_true_iff_eq. rewrite !Z.leb_le, <- !Z.mul_assoc.
  symmetry. apply Z.mul_le_mono_pos_l. done.
Qed.

Lemma div_round_even_scale k a b : 0 < k -> 0 < b -> div_round_even (k * a) (k * b) = div_round_even a b.
Proof.
  intros Hk Hb. unfold div_round_even.
  rewrite Z.div_mul_cancel_l, Z.mul_mod_distr_l by lia.
  replace (2 * (k * (a mod b))) with (k * (2 * (a mod b))) by ring.
  rewrite <- Zmult_compare_compat_l by lia. done.
Qed.

Lemma f64_round_scale neg k num den :
  0 < k -> 0 <= num -> 0 < den -> f64_round neg (k * num) (k * den) = f64_round neg num den.
Proof.
  intros Hk Hn Hd. unfold f64_round.
  destruct (Z.eqb_spec num 0) as [->|Hne]; [by rewrite Z.mul_0_r|].
  destruct (Z.eqb_spec (k * num) 0); [nia|].
  assert (E : floor_log2 (k * num) (k * den) = floor_log2 num den).
  { destruct (floor_log2_spec num den) as [F1 F2]; [lia|lia|].
    apply floor_log2_unique; [nia|nia|by rewrite pow2_le_scale|by rewrite pow2_le_scale]. }
  rewrite E, <- !Z.mul_assoc, div_round_even_scale; [done|done|].
  apply Z.mul_pos_pos; [done|]. apply Z.pow_pos_nonneg; lia.
Qed.

Lemma f64_round_ratio neg a b a' b' :
  0 <= a -> 0 < b -> 0 <= a' -> 0 < b' -> a * b' = a' * b -> f64_round neg a b = f64_round neg a' b'.
Proof.
  intros Ha Hb Ha' Hb' E.
  rewrite <- (f64_round_scale neg b' a b), <- (f64_round_scale neg b a' b') by done.
  f_equal; lia.
Qed.

(** [c * 10 ^ p] may be written with any power of ten. *)
Lemma f64_decimal_shift neg c p k :
  0 <= c -> 0 <= k -> f64_decimal neg (c * 10 ^ k) (p - k) = f64_decimal neg c p.
Proof.
  intros Hc Hk. unfold f64_decimal.
  assert (Hp : forall x, 0 < 10 ^ Z.max x 0) by (intros; apply Z.pow_pos_nonneg; lia).
  assert (Hm : forall x, 0 <= 10 ^ x) by (intros; apply Z.pow_nonneg; lia).
  apply f64_round_ratio; [| apply Hp| |apply Hp|].
  - apply Z.mul_nonneg_nonneg; [apply Z.mul_nonneg_nonneg|]; auto.
  - apply Z.mul_nonneg_nonneg; auto.
  - rewrite <- !Z.mul_assoc. f_equal. rewrite <- !Z.pow_add_r by lia. f_equal. lia.
Qed.

(** ** Rounding an exact value gives it back *)

Lemma f64_finite_fields d : in_u64 d -> f64_is_finite d = true -> f64_exponent d < 2047.
Proof.
  intros Hd. destruct (f64_fields d Hd) as (He & Hm & _).
  unfold f64_is_finite, f64_value. destruct (Z.eqb_spec (f64_exponent d) 2047); [|lia].
  by destruct (_ =? 0).
Qed.

Lemma f64_round_exact d :
  in_u64 d -> f64_is_finite d = true ->
  f64_round false (f64_ratio d).1 (f64_ratio d).2 = Z.abs (f64_key d).
Proof.
  intros Hd Hf. pose proof (f64_finite_fields d Hd Hf) as He2. destruct (f64_fields d Hd) as (He & Hm & ->).
  unfold f64_ratio. cbn [fst snd]. set (E := f64_exponent d) in *. set (m := f64_mantissa d) in *.
  set (e := Z.max E 1 - 1075). set (M := m + (if E =? 0 then 0 else 2 ^ 52)).
  assert (Hbits : (e + 1074) * 2 ^ 52 + M = E * 2 ^ 52 + m)
    by (unfold e, M; destruct (Z.eqb_spec E 0); lia).
  assert (HM : 0 <= M < 2 ^ 53) by (unfold M; destruct (E =? 0); lia).
  set (A := 2 ^ Z.max e 0). set (D := 2 ^ Z.max (- e) 0).
  assert (0 < A) by (apply Z.pow_pos_nonneg; lia). assert (0 < D) by (apply Z.pow_pos_nonneg; lia).
  unfold f64_round. destruct (Z.eqb_spec (M * A) 0) as [Hz|Hnz].
  { assert (M = 0) by nia. unfold M in *. destruct (Z.eqb_spec E 0); lia. }
  assert (0 < M) by nia. assert (HMA : 0 < M * A) by nia.
  assert (Hfl : floor_log2 (M * A) D = Z.log2 M + e).
  { pose proof (Z.log2_spec M ltac:(lia)) as [L1 L2]. pose proof (Z.log2_nonneg M).
    assert (Hpow : forall x, pow2_le (x + e) (M * A) D = true <-> 2 ^ (Z.max x 0) <= M * 2 ^ Z.max (- x) 0).
    { intros x. rewrite (pow2_le_shift _ _ _ (Z.abs x + Z.max (- e) 0)) by lia.
      unfold A, D. rewrite <- Z.mul_assoc, <- !Z.pow_add_r by lia.
      set (j := Z.max (- e) 0 + Z.max e 0 + Z.abs x - Z.max (- x) 0). assert (0 <= j) by lia.
      replace (Z.max (- e) 0 + (x + e + (Z.abs x + Z.max (- e) 0))) with (Z.max x 0 + j) by lia.
      replace (Z.max e 0 + (Z.abs x + Z.max (- e) 0)) with (Z.max (- x) 0 + j) by lia.
      rewrite !Z.pow_add_r, !Z.mul_assoc by lia. symmetry. apply Z.mul_le_mono_pos_r.
      apply Z.pow_pos_nonneg; lia. }
    apply floor_log2_unique; [done|done| |].
    - apply Hpow. rewrite Z.max_l, Z.max_r by lia. lia.
    - apply not_true_iff_false. replace (Z.log2 M + e + 1) with (Z.log2 M + 1 + e) by lia.
      rewrite Hpow, Z.max_l, Z.max_r by lia. rewrite <- Z.add_1_r in L2. lia. }
  rewrite Hfl.
  assert (Ht : Z.max (Z.log2 M + e - 52) (-1074) = e).
  { unfold e in *. destruct (Z.eqb_spec E 0) as [E0|E0].
    - assert (Z.log2 M < 52) by (apply Z.log2_lt_pow2; unfold M; lia). lia.
    - assert (Z.log2 M = 52) by (apply Z.log2_unique; unfold M; lia). lia. }
  rewrite Ht. fold D A.
  assert (Hq : div_round_even (M * A * D) (D * A) = M).
  { replace (M * A * D) with ((D * A) * M) by ring. rewrite <- (Z.mul_1_r (D * A)) at 2.
    rewrite div_round_even_scale by nia. unfold div_round_even.
    rewrite Z.div_1_r, Z.mod_1_r. done. }
  rewrite Hq, Hbits. apply Z.min_r. unfold f64_inf. lia.
Qed.

(** ** Parsing what display prints *)

Definition no_digit_first (r : bytes) : Prop :=
  match r with [] => True | b :: _ => is_ascii_digit b = false end.

Lemma span_digits_app a r : is_digits a -> no_digit_first r -> span_digits (a ++ r) = (a, r).
Proof.
  intros Ha Hr. induction Ha as [|b a Hb Ha IH]; cbn [app span_digits].
  - destruct r as [|b r]; [done|]. cbn in *. by rewrite Hr.
  - by rewrite Hb, IH.
Qed.

Lemma parse_number_int ds : is_digits ds -> ds <> [] -> parse_number ds = Some (digits_value ds, 0).
Proof.
  intros Hd Hne. unfold parse_number. rewrite <- (app_nil_r ds), span_digits_app by done.
  cbn [app]. rewrite !app_nil_r, decide_False by done. done.
Qed.

Lemma parse_number_frac a b :
  is_digits a -> is_digits b -> a <> [] ->
  parse_number (a ++ "."%byte :: b) = Some (digits_value (a ++ b), - Z.of_nat (length b)).
Proof.
  intros Ha Hb Hne. unfold parse_number. rewrite span_digits_app by done.
  rewrite decide_True by done. rewrite <- (app_nil_r b) at 1. rewrite span_digits_app by done.
  rewrite decide_False by (by destruct a). cbn. f_equal. 
Qed.

Lemma is_digits_zeros n : is_digits (replicate n "0"%byte).
Proof. by apply Forall_replicate. Qed.

Lemma digits_value_zeros n : digits_value (replicate n "0"%byte) = 0.
Proof. induction n; [done|]. cbn [replicate]. rewrite digits_value_cons, IHn. done. Qed.

Lemma decimal_text_parse neg c p :
  0 < c ->
  exists M X, parse_number (decimal_text c p) = Some (M, X) /\ f64_decimal neg M X = f64_decimal neg c p.
Proof.
  intros Hc. destruct (dec_digits_spec c) as (Hd & Hv & Hne & _); [lia|].
  unfold decimal_text. set (ds := dec_digits c) in *. set (len := Z.of_nat (length ds)).
  destruct (Z.leb_spec (len + p) 0) as [H0|H0]; [|destruct (Z.ltb_spec (len + p) len) as [H1|H1]].
  - exists c, p. split; [|done].
    change (B "0." ++ ?x) with ((B "0") ++ "."%byte :: x).
    rewrite parse_number_frac; [|by constructor|apply Forall_app; split; [apply is_digits_zeros|done]|done].
    rewrite app_assoc, digits_value_app, Hv.
    rewrite length_app, length_replicate. f_equal. f_equal; [|lia].
    rewrite digits_value_app, digits_value_zeros. change (digits_value (B "0")) with 0. lia.
  - exists c, p. split; [|done]. set (n := Z.to_nat (len + p)).
    assert (Hn : (0 < n < length ds)%nat) by lia.
    rewrite parse_number_frac.
    + rewrite take_drop, Hv, length_drop. f_equal. f_equal. lia.
    + by apply Forall_take.
    + by apply Forall_drop.
    + destruct ds; [done|]. destruct n; [lia|]. done.
  - exists (c * 10 ^ p), 0.
    assert (p = Z.of_nat (Z.to_nat (len + p - len))) by lia. set (n := Z.to_nat (len + p - len)) in *.
    split; [|rewrite <- (f64_decimal_shift neg c p p) by lia; f_equal; lia].
    rewrite parse_number_int.
    + rewrite digits_value_app, digits_value_zeros, Hv, length_replicate. f_equal. f_equal.
      rewrite <- H. lia.
    + apply Forall_app. split; [done|apply is_digits_zeros].
    + by destruct ds.
Qed.

Lemma decimal_text_first c p : 0 < c -> exists b r, decimal_text c p = b :: r /\ is_ascii_digit b = true.
Proof.
  intros Hc. destruct (dec_digits_spec c) as (Hd & _ & Hne & _); [lia|]. unfold decimal_text.
  destruct (dec_digits c) as [|b ds]; [done|]. assert (is_ascii_digit b = true) by by inversion Hd.
  destruct (Z.leb_spec (Z.of_nat (length (b :: ds)) + p) 0); [by eexists _, _|].
  destruct (Z.ltb_spec (Z.of_nat (length (b :: ds)) + p) (Z.of_nat (length (b :: ds)))).
  - destruct (Z.to_nat (Z.of_nat (length (b :: ds)) + p)) eqn:?; [lia|]. by eexists _, _.
  - by eexists _, _.
Qed.

Lemma strip_zeros_spec neg fuel c p c' p' :
  0 < c -> strip_zeros fuel c p = (c', p') -> 0 < c' /\ f64_decimal neg c' p' = f64_decimal neg c p.
Proof.
  revert c p. induction fuel as [|fuel IH]; intros c p Hc; cbn [strip_zeros].
  - intros [= <- <-]. done.
  - destruct (Z.eqb_spec (c mod 10) 0) as [Hm|Hm]; [|intros [= <- <-]; done].
    pose proof (Z.div_mod c 10 ltac:(lia)) as Hdm. intros H%IH; [|lia]. destruct H as [? ->].
    split; [done|]. rewrite <- (f64_decimal_shift neg (c / 10) (p + 1) 1) by lia. f_equal; lia.
Qed.

Lemma f64_decimal_zero neg p : f64_decimal neg 0 p = if neg then 2 ^ 63 else 0.
Proof. unfold f64_decimal, f64_round. cbn. by destruct neg. Qed.

Lemma f64_decimal_sign c p : f64_decimal true c p = f64_decimal false c p + 2 ^ 63.
Proof. done. Qed.

Lemma shortest_from_spec fuel mag num den n c p :
  0 <= num -> 0 < den -> shortest_from fuel mag num den n = Some (c, p) ->
  0 <= c /\ f64_decimal false c p = mag.
Proof.
  intros Hn Hd. revert n. induction fuel as [|fuel IH]; intros n; [done|]. cbn [shortest_from].
  destruct (digits_candidate mag num den n) as [[c' p']|] eqn:E; [|apply IH].
  intros [= -> ->]. revert E. unfold digits_candidate.
  set (s := n - decimal_exponent num den). set (lo := _ / _).
  assert (0 <= lo).
  { apply Z.div_pos; [apply Z.mul_nonneg_nonneg; [done|]; apply Z.pow_nonneg; lia|].
    apply Z.mul_pos_pos; [done|]. apply Z.pow_pos_nonneg; lia. }
  destruct (f64_decimal false lo (- s) =? mag) eqn:E1;
    destruct (f64_decimal false (lo + 1) (- s) =? mag) eqn:E2; cbn [andb negb orb];
    repeat case_match; intros; simplify_eq; split; lia.
Qed.

Lemma f64_key_zero d : in_u64 d -> f64_key d = 0 -> d = if f64_sign d then 2 ^ 63 else 0.
Proof.
  intros Hd. rewrite f64_sign_ltb by done. unfold f64_key. destruct (Z.ltb_spec d (2 ^ 63)); cbn; lia.
Qed.

Lemma f64_key_sign d : in_u64 d -> d = if f64_sign d then Z.abs (f64_key d) + 2 ^ 63 else Z.abs (f64_key d).
Proof.
  intros Hd. rewrite f64_sign_ltb by done. unfold f64_key. destruct Hd.
  destruct (Z.ltb_spec d (2 ^ 63)); cbn; lia.
Qed.

Lemma f64_ratio_shape d :
  in_u64 d -> 0 <= (f64_ratio d).1 /\ exists j, 0 <= j /\ (f64_ratio d).2 = 2 ^ j.
Proof.
  intros Hd. destruct (f64_fields d Hd) as (? & ? & _). unfold f64_ratio. cbn [fst snd].
  split; [|eexists; split; [|done]; lia].
  apply Z.mul_nonneg_nonneg; [destruct (_ =? 0); lia|apply Z.pow_nonneg; lia].
Qed.

Lemma shortest_spec d c p :
  in_u64 d -> f64_is_finite d = true -> f64_key d <> 0 -> shortest d = (c, p) ->
  0 < c /\ f64_decimal false c p = Z.abs (f64_key d).
Proof.
  intros Hd Hf Hk. pose proof (f64_round_exact d Hd Hf) as Hex. unfold shortest.
  destruct (f64_ratio d) as [num den] eqn:Er. cbn [fst snd] in Hex.
  assert (Hnd : 0 <= num /\ exists j, 0 <= j /\ den = 2 ^ j).
  { pose proof (f64_ratio_shape d Hd) as Hs. by rewrite Er in Hs. }
  destruct Hnd as [Hn (j & Hj & ->)]. assert (0 < 2 ^ j) by lia.
  assert (Hpos : forall c p, 0 <= c -> f64_decimal false c p = Z.abs (f64_key d) -> 0 < c).
  { intros c' p' Hc' E. destruct (Z.eq_dec c' 0) as [->|]; [|lia].
    rewrite f64_decimal_zero in E. lia. }
  destruct (shortest_from _ _ _ _ _) as [[c' p']|] eqn:Es; cbn [default].
  - intros [= -> ->]. apply shortest_from_spec in Es as [? ?]; [|done|done].
    split; [by eapply Hpos|done].
  - rewrite Z.log2_pow2 by done. intros [= <- <-].
    assert (E : f64_decimal false (num * 5 ^ j) (- j) = Z.abs (f64_key d)).
    { rewrite <- Hex. unfold f64_decimal. rewrite Z.max_r, Z.opp_involutive, Z.max_l by lia.
      assert (0 <= 5 ^ j) by (apply Z.pow_nonneg; lia).
      apply f64_round_ratio; [nia|apply Z.pow_pos_nonneg; lia|done|done|].
      change 10 with (5 * 2) at 2. rewrite Z.pow_mul_l. ring. }
    split; [|done]. apply (Hpos _ (- j)); [|done]. apply Z.mul_nonneg_nonneg; [done|]. apply Z.pow_nonneg; lia.
Qed.

Definition sign_text (negative : bool) : bytes := if negative then B "-" else [].

Lemma f64_from_str_signed (negative : bool) (b : byte) (r : bytes) c p :
  is_ascii_digit b = true -> parse_number (b :: r) = Some (c, p) ->
  f64_from_str (sign_text negative ++ b :: r) = Some (f64_decimal negative c p).
Proof.
  intros Hb Hp. destruct (digit_not_sign b Hb) as [H1 H2]. destruct negative; unfold f64_from_str.
  - change (sign_text true ++ b :: r) with ("-"%byte :: b :: r).
    cbv iota. rewrite decide_True by done. by rewrite Hp.
  - change (sign_text false ++ b :: r) with (b :: r).
    cbv iota. rewrite !decide_False by done. by rewrite Hp.
Qed.

Lemma f64_finite_num d : in_u64 d -> f64_is_finite d = true -> f64_num d /\ f64_is_infinite d = false.
Proof.
  unfold f64_num, f64_is_nan, f64_is_infinite, f64_is_finite. by destruct (f64_value d).
Qed.

(** Display then parse is the identity on finite numbers. *)
Lemma f64_from_str_display d :
  in_u64 d -> f64_is_finite d = true -> f64_from_str (f64_display d) = Some d.
Proof.
  intros Hd Hf. destruct (f64_finite_num d Hd Hf) as [[_ Hnan] Hinf].
  unfold f64_display. rewrite Hnan, Hinf.
  change (if f64_sign d then B "-" else []) with (sign_text (f64_sign d)).
  destruct (Z.eqb_spec (f64_key d) 0) as [Hz|Hz].
  - change (B "0") with ["0"%byte].
    rewrite (f64_from_str_signed (f64_sign d) "0"%byte [] 0 0) by done.
    f_equal. rewrite f64_decimal_zero. symmetry. by apply f64_key_zero.
  - destruct (shortest d) as [c p] eqn:Es. destruct (shortest_spec d c p) as [Hc Hr]; [done..|].
    destruct (strip_zeros _ c p) as [c' p'] eqn:Et.
    destruct (strip_zeros_spec false _ _ _ _ _ Hc Et) as [Hc' Hr'].
    destruct (decimal_text_first c' p' Hc') as (b & r & Eb & Hb).
    destruct (decimal_text_parse (f64_sign d) c' p' Hc') as (M & X & Hp & HM).
    rewrite Eb in Hp |- *. rewrite (f64_from_str_signed _ _ _ M X) by done.
    f_equal. rewrite HM. rewrite (f64_key_sign d Hd) at 2. rewrite <- Hr, <- Hr'.
    by destruct (f64_sign d).
Qed.

(** ** What display prints is plain text *)

Definition printable (b : byte) : bool := in_range 32 126 b.

Lemma digits_printable l : is_digits l -> Forall (fun b => printable b = true) l.
Proof. apply List.Forall_impl. intros b Hb%in_range_spec. apply in_range_spec. lia. Qed.

Lemma printable_ascii l : Forall (fun b => printable b = true) l -> Forall (fun b => is_ascii b = true) l.
Proof. apply List.Forall_impl. intros b Hb%in_range_spec. apply in_range_spec. lia. Qed.

Lemma printable_no_cr l : Forall (fun b => printable b = true) l -> CR ∉ l.
Proof. rewrite list.Forall_forall. intros H Hin. by apply H in Hin. Qed.

Lemma digits_go_digits fuel n acc : is_digits acc -> is_digits (digits_go fuel n acc).
Proof.
  revert n acc. induction fuel as [|fuel IH]; intros n acc Ha; [done|]. cbn [digits_go].
  assert (is_digits (digit_char (n mod 10) :: acc)).
  { constructor; [|done]. apply digit_char_digit, Z.mod_pos_bound. lia. }
  destruct (n <? 10); [done|]. by apply IH.
Qed.

Lemma int_display_printable n : Forall (fun b => printable b = true) (int_display n).
Proof.
  assert (H : forall m, Forall (fun b => printable b = true) (dec_digits m))
    by (intros; apply digits_printable, digits_go_digits; constructor).
  unfold int_display. destruct (n <? 0); [by constructor|done].
Qed.

Lemma decimal_text_printable c p : Forall (fun b => printable b = true) (decimal_text c p).
Proof.
  assert (H : Forall (fun b => printable b = true) (dec_digits c))
    by (apply digits_printable, digits_go_digits; constructor).
  unfold decimal_text.
  destruct (_ <=? 0); [|destruct (_ <? _)]; repeat (apply Forall_app; split); try done.
  - by repeat constructor.
  - by apply Forall_replicate.
  - by apply Forall_take.
  - constructor; [done|]. by apply Forall_drop.
  - by apply Forall_replicate.
Qed.

Lemma f64_display_printable d : Forall (fun b => printable b = true) (f64_display d).
Proof.
  unfold f64_display. destruct (f64_is_nan d); [by repeat constructor|].
  apply Forall_app. split; [destruct (f64_sign d); by repeat constructor|].
  destruct (f64_is_infinite d); [by repeat constructor|].
  destruct (f64_key d =? 0); [by repeat constructor|].
  destruct (shortest d) as [c p]. destruct (strip_zeros _ c p) as [c' p'].
  apply decimal_text_printable.
Qed.

(** ** A parsed number is an [f64] *)

Lemma span_digits_is_digits l : is_digits (span_digits l).1.
Proof.
  induction l as [|b l IH]; [constructor|]. cbn [span_digits]. destruct (is_ascii_digit b) eqn:Hb; [|constructor].
  destruct (span_digits l) as [ds r]. by constructor.
Qed.

Lemma parse_number_nonneg s c p : parse_number s = Some (c, p) -> 0 <= c.
Proof.
  unfold parse_number. destruct (span_digits s) as [ints r1] eqn:Hi.
  pose proof (span_digits_is_digits s) as Hd1. rewrite Hi in Hd1.
  set (fr := match r1 with [] => _ | _ => _ end).
  assert (Hd2 : is_digits fr.1).
  { unfold fr. destruct r1 as [|b r]; [constructor|]. destruct (decide _); [apply span_digits_is_digits|constructor]. }
  destruct fr as [fracs r2]. destruct (decide _); [done|].
  intros ([e r3] & _ & Hr)%bind_Some. destruct r3; [|done]. injection Hr as <- _.
  apply digits_value_range, Forall_app. by split.
Qed.

Lemma f64_round_range negative num den : 0 <= num -> 0 < den -> in_u64 (f64_round negative num den).
Proof.
  intros Hn Hd. unfold f64_round. set (mag := if num =? 0 then 0 else _).
  assert (Hm : 0 <= mag <= f64_inf).
  { unfold mag. destruct (num =? 0); [unfold f64_inf; lia|]. cbv zeta.
    set (t := Z.max _ _). assert (0 <= t + 1074) by lia.
    set (q := div_round_even _ _). assert (0 <= q); [|unfold f64_inf; lia].
    unfold q, div_round_even. set (a := num * _). set (b := den * _).
    assert (0 <= a) by (apply Z.mul_nonneg_nonneg; lia).
    assert (0 < b) by (apply Z.mul_pos_pos; lia).
    pose proof (Z.div_pos a b). repeat case_match; lia. }
  unfold f64_inf, in_u64 in *. destruct negative; lia.
Qed.

Lemma f64_from_str_range s d : f64_from_str s = Some d -> in_u64 d.
Proof.
  unfold f64_from_str. set (ns := match s with [] => _ | _ => _ end). destruct ns as [negative s1].
  destruct (parse_number s1) as [[c p]|] eqn:Hp.
  - intros [= <-]. apply parse_number_nonneg in Hp. apply f64_round_range; [|lia].
    apply Z.mul_nonneg_nonneg; lia.
  - intros (x & Hx & ->)%fmap_Some. unfold parse_inf_nan, f64_inf, f64_nan, in_u64 in *.
    repeat case_match; simplify_eq; lia.
Qed.
