(* ===== verification/Encoding.v ===== *)
(** * On-disk encoding of metadata, subkeys and score-index records

    Models crates/gamestore-engine/src/encoding.rs.  Record keys:
<<
    metadata   : [META_PREFIX][user_key]
    subkey     : [SUBKEY_PREFIX][u32 BE key_len][user_key][u64 BE version][field]
    score index: [ZSCORE_PREFIX][u32 BE key_len][user_key][u64 BE version]
                 [8-byte order-preserving score][member]
>>
    The theorems: both parsers are exact inverses of the encoders (a parse
    succeeds on precisely the encodings, so keys of distinct owners, versions
    and fields never collide), metadata records round-trip, scores round-trip
    and their encodings sort in numeric order, and with them the score-index
    and list-index records. *)

From S2P Require Import Prelude F64.

(** ** Constants *)

Definition META_PREFIX : byte := x01%byte.
Definition SUBKEY_PREFIX : byte := x02%byte.
Definition ZSCORE_PREFIX : byte := x03%byte.

Definition TYPE_STRING : byte := x01%byte.
Definition TYPE_HASH : byte := x02%byte.
Definition TYPE_SET : byte := x03%byte.
Definition TYPE_ZSET : byte := x04%byte.
Definition TYPE_LIST : byte := x05%byte.

Definition META_HEADER_LEN : nat := 1 + 8 + 8.

Definition LIST_INITIAL_INDEX : Z := 2 ^ 63.

(** ** Record keys *)

(** [l[a..b]]. *)
Definition slice (l : bytes) (a b : nat) : bytes := take (b - a) (drop a l).

Definition meta_key (user_key : bytes) : bytes := META_PREFIX :: user_key.

(** [user_key.len() as u32] wraps: [be_bytes] keeps the low four bytes. *)
Definition subkey_prefix (user_key : bytes) (version : Z) : bytes :=
  SUBKEY_PREFIX :: u32_be (Z.of_nat (length user_key)) ++ user_key ++ u64_be version.

Definition subkey (user_key : bytes) (version : Z) (field : bytes) : bytes :=
  subkey_prefix user_key version ++ field.

(** [usize::checked_add]. *)
Definition usize_checked_add (a b : Z) : option Z :=
  if decide (in_u64 (a + b)) then Some (a + b) else None.

Definition parse_versioned (raw : bytes) (prefix : byte) : option (bytes * Z * bytes) :=
  match raw with
  | [] => None
  | b0 :: _ =>
      if negb (bool_decide (b0 = prefix)) then None
      else if Nat.ltb (length raw) (1 + 4 + 8) then None
      else
        let klen := of_be_bytes (slice raw 1 5) in
        let key_start := 5 in
        key_end ← usize_checked_add key_start klen;
        ver_end ← usize_checked_add key_end 8;
        if Z.of_nat (length raw) <? ver_end then None
        else
          let user_key := slice raw (Z.to_nat key_start) (Z.to_nat key_end) in
          let version := of_be_bytes (slice raw (Z.to_nat key_end) (Z.to_nat ver_end)) in
          let rest := drop (Z.to_nat ver_end) raw in
          Some (user_key, version, rest)
  end.

Definition parse_subkey (raw : bytes) : option (bytes * Z * bytes) :=
  parse_versioned raw SUBKEY_PREFIX.

Definition parse_owner_version (raw : bytes) : option (bytes * Z) :=
  prefix ← head raw;
  if negb (bool_decide (prefix = SUBKEY_PREFIX)) && negb (bool_decide (prefix = ZSCORE_PREFIX))
  then None
  else '(uk, ver, _) ← parse_versioned raw prefix; Some (uk, ver).

(** ** ZSet score index *)

(** [!bits] on [u64]. *)
Definition u64_not (z : Z) : Z := Z.lxor z (Z.ones 64).

Definition encode_score (score : f64) : bytes :=
  let bits := score in
  let ordered :=
    if negb (Z.land bits (Z.shiftl 1 63) =? 0)
    then u64_not bits
    else Z.lxor bits (Z.shiftl 1 63) in
  u64_be ordered.

(** The argument is an [[u8; 8]]. *)
Definition decode_score (raw : bytes) : f64 :=
  let ordered := of_be_bytes raw in
  if negb (Z.land ordered (Z.shiftl 1 63) =? 0)
  then Z.lxor ordered (Z.shiftl 1 63)
  else u64_not ordered.

Definition zscore_prefix (user_key : bytes) (version : Z) : bytes :=
  ZSCORE_PREFIX :: u32_be (Z.of_nat (length user_key)) ++ user_key ++ u64_be version.

Definition zscore_key (user_key : bytes) (version : Z) (score : f64) (member : bytes) : bytes :=
  zscore_prefix user_key version ++ encode_score score ++ member.

Definition split_score_suffix (suffix : bytes) : option (f64 * bytes) :=
  if Nat.ltb (length suffix) 8 then None
  else Some (decode_score (take 8 suffix), drop 8 suffix).

(** ** List element index *)

Definition list_index_field (index : Z) : bytes := u64_be index.

(** ** Metadata records *)

Record Meta : Type := mk_Meta {
  type_id : byte;
  version : Z;
  expire_ms : Z;
  payload : bytes;
}.

#[export] Instance Meta_eq_dec : EqDecision Meta.
Proof. solve_decision. Defined.

Definition Meta_encode (m : Meta) : bytes :=
  type_id m :: u64_be (version m) ++ u64_be (expire_ms m) ++ payload m.

Definition Meta_decode (raw : bytes) : option Meta :=
  if Nat.ltb (length raw) META_HEADER_LEN then None
  else
    t ← head raw;
    Some {| type_id := t;
            version := of_be_bytes (slice raw 1 9);
            expire_ms := of_be_bytes (slice raw 9 17);
            payload := drop META_HEADER_LEN raw |}.

(** [matches!(type_id, TYPE_HASH | TYPE_SET | TYPE_ZSET)]. *)
Definition counted_type (t : byte) : bool :=
  bool_decide (t = TYPE_HASH) || bool_decide (t = TYPE_SET) || bool_decide (t = TYPE_ZSET).

Definition field_count (m : Meta) : Z :=
  if counted_type (type_id m) && Nat.leb 4 (length (payload m))
  then of_be_bytes (take 4 (payload m))
  else 0.

Definition with_payload (m : Meta) (p : bytes) : Meta :=
  mk_Meta (type_id m) (version m) (expire_ms m) p.

Definition with_expire (m : Meta) (e : Z) : Meta :=
  mk_Meta (type_id m) (version m) e (payload m).

Definition set_field_count (m : Meta) (n : Z) : Meta := with_payload m (u32_be n).

Definition list_bounds (m : Meta) : option (Z * Z) :=
  if negb (bool_decide (type_id m = TYPE_LIST)) || Nat.ltb (length (payload m)) 16 then None
  else Some (of_be_bytes (take 8 (payload m)), of_be_bytes (slice (payload m) 8 16)).

Definition set_list_bounds (m : Meta) (head tail : Z) : Meta :=
  with_payload m (u64_be head ++ u64_be tail).

(** ** Well-formedness *)

(** Keys whose length fits the [u32] length field; the protocol bounds keys to
    512 MiB, so every key that reaches the store is one. *)
Definition valid_key (k : bytes) : Prop := in_u32 (Z.of_nat (length k)).

Definition meta_wf (m : Meta) : Prop := in_u64 (version m) /\ in_u64 (expire_ms m).

(** The shape the two versioned record families share. *)
Definition versioned_key (prefix : byte) (uk : bytes) (v : Z) (rest : bytes) : bytes :=
  prefix :: u32_be (Z.of_nat (length uk)) ++ uk ++ u64_be v ++ rest.

(** ** Keys: parsing is the exact inverse of encoding *)

Lemma slice_app_l a b c n :
  length a = n -> slice (a ++ b ++ c) n (n + length b) = b.
Proof.
  intros <-. unfold slice. rewrite drop_app_length.
  replace (length a + length b - length a)%nat with (length b) by lia.
  apply take_app_length.
Qed.

Lemma length_slice l a b : (a <= b <= length l)%nat -> length (slice l a b) = (b - a)%nat.
Proof. intros. unfold slice. rewrite length_take, length_drop. lia. Qed.

Lemma slice_split l a b :
  (a <= b <= length l)%nat -> drop a l = slice l a b ++ drop b l.
Proof.
  intros. unfold slice. rewrite <- (take_drop (b - a) (drop a l)) at 1.
  rewrite drop_drop. do 2 f_equal. lia.
Qed.

Lemma subkey_versioned uk v f : subkey uk v f = versioned_key SUBKEY_PREFIX uk v f.
Proof. unfold subkey, subkey_prefix, versioned_key. simpl. by rewrite <- !(assoc_L (++)). Qed.

Lemma zscore_versioned uk v s m :
  zscore_key uk v s m = versioned_key ZSCORE_PREFIX uk v (encode_score s ++ m).
Proof. unfold zscore_key, zscore_prefix, versioned_key. simpl. by rewrite <- !(assoc_L (++)). Qed.

Lemma zscore_prefix_versioned uk v rest :
  zscore_prefix uk v ++ rest = versioned_key ZSCORE_PREFIX uk v rest.
Proof. unfold zscore_prefix, versioned_key. simpl. by rewrite <- !(assoc_L (++)). Qed.

Lemma subkey_prefix_versioned uk v rest :
  subkey_prefix uk v ++ rest = versioned_key SUBKEY_PREFIX uk v rest.
Proof. apply subkey_versioned. Qed.

Lemma length_versioned_key p uk v rest :
  length (versioned_key p uk v rest) = (13 + length uk + length rest)%nat.
Proof. unfold versioned_key. simpl. rewrite !length_app, !length_be_bytes. lia. Qed.

Lemma parse_versioned_key p uk v rest :
  valid_key uk -> in_u64 v ->
  parse_versioned (versioned_key p uk v rest) p = Some (uk, v, rest).
Proof.
  intros Hk Hv. unfold parse_versioned. unfold versioned_key at 1.
  rewrite bool_decide_eq_true_2 by done. cbn [negb].
  rewrite length_versioned_key.
  replace (Nat.ltb (13 + length uk + length rest) (1 + 4 + 8)) with false
    by (symmetry; apply Nat.ltb_ge; lia).
  assert (Hslice : slice (versioned_key p uk v rest) 1 5 = u32_be (Z.of_nat (length uk))).
  { apply (slice_app_l [p]). done. }
  assert (Hkl : of_be_bytes (slice (versioned_key p uk v rest) 1 5) = Z.of_nat (length uk)).
  { rewrite Hslice. by apply of_be_u32. }
  rewrite Hkl. unfold usize_checked_add, valid_key, in_u32 in *.
  rewrite decide_True by (unfold in_u64; lia). simpl.
  rewrite decide_True by (unfold in_u64; lia). simpl.
  replace (Z.of_nat _ <? _) with false by (symmetry; apply Z.ltb_ge; lia).
  replace (Z.to_nat 5) with 5%nat by done.
  replace (Z.to_nat (5 + Z.of_nat (length uk))) with (5 + length uk)%nat by lia.
  replace (Z.to_nat (5 + Z.of_nat (length uk) + 8)) with (5 + length uk + 8)%nat by lia.
  unfold versioned_key.
  change (p :: u32_be ?n ++ ?x) with ((p :: u32_be n) ++ x).
  rewrite slice_app_l by (simpl; by rewrite length_be_bytes).
  rewrite (assoc_L (++) _ uk).
  rewrite <- (length_be_bytes 8 v) at 2.
  rewrite slice_app_l by (rewrite length_app; simpl; rewrite length_be_bytes; lia).
  rewrite of_be_u64 by done. rewrite (assoc_L (++) _ (u64_be v)), drop_app_length'; [done|].
  rewrite !length_app; simpl; rewrite !length_be_bytes; lia.
Qed.

Lemma parse_versioned_inv raw p uk v rest :
  parse_versioned raw p = Some (uk, v, rest) ->
  raw = versioned_key p uk v rest /\ valid_key uk /\ in_u64 v.
Proof.
  unfold parse_versioned. destruct raw as [|b0 l]; [done|].
  destruct (decide (b0 = p)) as [->|]; [|by rewrite bool_decide_eq_false_2].
  rewrite bool_decide_eq_true_2 by done. cbn [negb].
  destruct (Nat.ltb_spec (length (p :: l)) (1 + 4 + 8)) as [|Hlen]; [done|].
  set (raw := p :: l) in *. set (kl := of_be_bytes (slice raw 1 5)).
  assert (Hs5 : length (slice raw 1 5) = 4%nat) by (apply length_slice; lia).
  assert (Hkl : in_u32 kl).
  { pose proof (of_be_bytes_range (slice raw 1 5)) as H. rewrite Hs5 in H. exact H. }
  unfold usize_checked_add, in_u32 in *.
  rewrite decide_True by (unfold in_u64; lia). simpl.
  rewrite decide_True by (unfold in_u64; lia). simpl.
  change (S (length l)) with (length raw).
  destruct (Z.ltb_spec (Z.of_nat (length raw)) (5 + kl + 8)) as [|Hl]; [done|].
  intros [= <- <- <-]. change (Z.to_nat 5) with 5%nat.
  set (k := Z.to_nat (5 + kl)). set (e := Z.to_nat (5 + kl + 8)).
  assert (Hk : length (slice raw 5 k) = Z.to_nat kl)
    by (rewrite length_slice; unfold k; lia).
  assert (He : length (slice raw k e) = 8%nat)
    by (rewrite length_slice; unfold k, e; lia).
  split; [|split].
  - unfold versioned_key. rewrite Hk, Z2Nat.id by lia.
    rewrite (be_bytes_of_be' 8) by done. unfold kl. rewrite (be_bytes_of_be' 4) by done.
    rewrite <- (slice_split raw k e), <- (slice_split raw 5 k), <- (slice_split raw 1 5)
      by (unfold k, e; lia). done.
  - unfold valid_key, in_u32. rewrite Hk. lia.
  - by apply of_be_u64_range.
Qed.

Lemma parse_versioned_iff raw p uk v rest :
  parse_versioned raw p = Some (uk, v, rest) <->
  raw = versioned_key p uk v rest /\ valid_key uk /\ in_u64 v.
Proof.
  split; [apply parse_versioned_inv|]. intros (-> & ? & ?). by apply parse_versioned_key.
Qed.

(** [parse_subkey] accepts exactly the byte strings [subkey] produces, and
    recovers the owner key, the version and the field: encoding and parsing
    are inverse, nothing else is accepted, and two different (owner, version,
    field) triples never share a record key. *)
Theorem parse_subkey_iff (raw uk : bytes) (v : Z) (field : bytes) :
  parse_subkey raw = Some (uk, v, field) <->
  raw = subkey uk v field /\ valid_key uk /\ in_u64 v.
Proof. rewrite subkey_versioned. apply parse_versioned_iff. Qed.

(** [parse_owner_version], the parse the garbage collector decides by,
    accepts exactly the well-formed records of the two versioned families and
    returns the owner and version they were written under; in particular it
    accepts no metadata record. *)
Theorem parse_owner_version_iff (raw uk : bytes) (v : Z) :
  parse_owner_version raw = Some (uk, v) <->
  valid_key uk /\ in_u64 v /\
  exists rest, raw = subkey_prefix uk v ++ rest \/ raw = zscore_prefix uk v ++ rest.
Proof.
  setoid_rewrite subkey_prefix_versioned. setoid_rewrite zscore_prefix_versioned.
  unfold parse_owner_version. split.
  - destruct raw as [|p l]; [done|]. cbn [head mbind option_bind].
    destruct (negb _ && negb _) eqn:Hp; [done|]. intros H.
    apply bind_Some in H as ([[uk' v'] rest] & H & [= <- <-]).
    apply parse_versioned_iff in H as (-> & ? & ?). do 2 (split; [done|]). exists rest.
    apply andb_false_iff in Hp as [Hp|Hp]; apply negb_false_iff, bool_decide_eq_true in Hp;
      rewrite Hp; auto.
  - intros (Hk & Hv & rest & [-> | ->]); unfold versioned_key;
      cbn [list.head mbind option_bind].
    + pose proof (parse_versioned_key SUBKEY_PREFIX uk v rest Hk Hv) as H.
      unfold versioned_key in H. by rewrite H.
    + pose proof (parse_versioned_key ZSCORE_PREFIX uk v rest Hk Hv) as H.
      unfold versioned_key in H. by rewrite H.
Qed.

Lemma versioned_key_inj p1 p2 uk1 uk2 v1 v2 r1 r2 :
  valid_key uk1 -> valid_key uk2 -> in_u64 v1 -> in_u64 v2 ->
  versioned_key p1 uk1 v1 r1 = versioned_key p2 uk2 v2 r2 ->
  p1 = p2 /\ uk1 = uk2 /\ v1 = v2 /\ r1 = r2.
Proof.
  intros H1 H2 Hv1 Hv2 H.
  assert (p1 = p2) as -> by (by injection H).
  pose proof (parse_versioned_key p2 uk1 v1 r1 H1 Hv1) as Hp. rewrite H in Hp.
  rewrite parse_versioned_key in Hp by done. naive_solver.
Qed.

(** The parse of a record of either family; [p] is its prefix byte. *)
Lemma parse_owner_versioned p uk v rest :
  p = SUBKEY_PREFIX \/ p = ZSCORE_PREFIX -> valid_key uk -> in_u64 v ->
  parse_owner_version (versioned_key p uk v rest) = Some (uk, v).
Proof.
  intros Hp Hk Hv. unfold parse_owner_version. cbn [list.head mbind option_bind versioned_key].
  fold (versioned_key p uk v rest). rewrite parse_versioned_key by done.
  by destruct Hp as [-> | ->].
Qed.

(** ** Metadata *)

Lemma Meta_decode_spec (raw : bytes) (m : Meta) :
  Meta_decode raw = Some m <-> raw = Meta_encode m /\ meta_wf m.
Proof.
  unfold Meta_decode, META_HEADER_LEN. split.
  - destruct (Nat.ltb_spec (length raw) (1 + 8 + 8)) as [|Hl]; [done|].
    destruct raw as [|t l]; [done|]. intros [= <-].
    set (raw := t :: l) in *.
    assert (H1 : length (slice raw 1 9) = 8%nat) by (rewrite length_slice; lia).
    assert (H2 : length (slice raw 9 17) = 8%nat) by (rewrite length_slice; lia).
    unfold Meta_encode; cbn [type_id version expire_ms payload]. split.
    + rewrite !(be_bytes_of_be' 8) by done.
      change (drop 16 l) with (drop 17 raw).
      rewrite <- (slice_split raw 9 17), <- (slice_split raw 1 9) by lia. done.
    + split; cbn; by apply of_be_u64_range.
  - intros (-> & Hv & He). destruct m as [t v e p]. unfold Meta_encode; cbn [type_id version expire_ms payload] in *; cbn in Hv, He.
    assert (Hlen : length (t :: u64_be v ++ u64_be e ++ p) = (17 + length p)%nat)
      by (simpl; rewrite !length_app, !length_be_bytes; lia).
    rewrite Hlen. replace (Nat.ltb _ _) with false by (symmetry; apply Nat.ltb_ge; lia).
    cbn [list.head mbind option_bind]. do 2 f_equal.
    + pose proof (slice_app_l [t] (u64_be v) (u64_be e ++ p) 1 eq_refl) as H.
      rewrite length_be_bytes in H. simpl in H. rewrite H. by apply of_be_u64.
    + pose proof (slice_app_l (t :: u64_be v) (u64_be e) p 9) as H.
      simpl in H. rewrite !length_be_bytes in H. rewrite H by done. by apply of_be_u64.
Qed.

(** C34. Metadata records round-trip: decoding accepts exactly the encodings of
    records with 64-bit version and expiry, and returns the record encoded. *)
Theorem Meta_decode_iff (raw : bytes) (m : Meta) :
  Meta_decode raw = Some m <-> raw = Meta_encode m /\ meta_wf m.
Proof. apply Meta_decode_spec. Qed.

Lemma Meta_decode_encode m : meta_wf m -> Meta_decode (Meta_encode m) = Some m.
Proof. intros. by apply Meta_decode_spec. Qed.

Lemma field_count_set m n :
  counted_type (type_id m) = true -> in_u32 n -> field_count (set_field_count m n) = n.
Proof.
  intros Ht Hn. unfold field_count, set_field_count; cbn. rewrite Ht, length_be_bytes; cbn.
  rewrite take_ge by (by rewrite length_be_bytes). by apply of_be_u32.
Qed.

Lemma list_bounds_set m h t :
  type_id m = TYPE_LIST -> in_u64 h -> in_u64 t ->
  list_bounds (set_list_bounds m h t) = Some (h, t).
Proof.
  intros Ht Hh Htl. unfold list_bounds, set_list_bounds; cbn.
  rewrite bool_decide_eq_true_2, length_app, !length_be_bytes by done; cbn.
  rewrite take_app_length' by (by rewrite length_be_bytes). do 2 f_equal.
  - by apply of_be_u64.
  - rewrite drop_app_length', take_ge by (by rewrite length_be_bytes). by apply of_be_u64.
Qed.

(** ** Scores *)


Lemma u64_not_sub x : in_u64 x -> u64_not x = 2 ^ 64 - 1 - x.
Proof.
  intros [H0 H1]. unfold u64_not.
  assert (Hx : Z.ldiff x (Z.ones 64) = 0) by (apply Z.ldiff_ones_r_low; [done|]; destruct (decide (x = 0)) as [->|]; [done|apply Z.log2_lt_pow2; lia]).
  change (2 ^ 64 - 1) with (Z.ones 64). rewrite Z.sub_nocarry_ldiff by done.
  apply Z.bits_inj'. intros i Hi. rewrite Z.lxor_spec, Z.ldiff_spec.
  pose proof (f_equal (fun z => Z.testbit z i) Hx) as Hb. simpl in Hb.
  rewrite Z.ldiff_spec, Z.bits_0 in Hb.
  destruct (Z.testbit x i), (Z.testbit (Z.ones 64) i); done.
Qed.

Lemma sign_bit_ltb x : in_u64 x -> (Z.land x (Z.shiftl 1 63) =? 0) = (x <? 2 ^ 63).
Proof.
  intros Hx. pose proof (f64_sign_ltb x Hx) as Hs. unfold f64_sign in Hs.
  change (Z.shiftl 1 63) with (2 ^ 63).
  assert (Hl : Z.land x (2 ^ 63) = if Z.testbit x 63 then 2 ^ 63 else 0).
  { apply Z.bits_inj'. intros i Hi. rewrite Z.land_spec, Z.pow2_bits_eqb by lia.
    destruct (Z.eqb_spec 63 i) as [<-|].
    - destruct (Z.testbit x 63); [done|by rewrite Z.bits_0].
    - rewrite andb_false_r. destruct (Z.testbit x 63); [|by rewrite Z.bits_0].
      rewrite Z.pow2_bits_eqb by lia. symmetry. by apply Z.eqb_neq. }
  rewrite Hl, Hs. by destruct (x <? 2 ^ 63).
Qed.

Lemma lxor_sign_clear x : 0 <= x < 2 ^ 63 -> Z.lxor x (Z.shiftl 1 63) = x + 2 ^ 63.
Proof.
  intros Hx. symmetry. apply Z.add_nocarry_lxor.
  apply Z.eqb_eq. rewrite sign_bit_ltb by (unfold in_u64; lia). apply Z.ltb_lt. lia.
Qed.

Lemma lxor_sign_set x : 2 ^ 63 <= x < 2 ^ 64 -> Z.lxor x (Z.shiftl 1 63) = x - 2 ^ 63.
Proof.
  intros Hx. replace x with ((x - 2 ^ 63) + 2 ^ 63) at 1 by lia.
  rewrite <- lxor_sign_clear by lia.
  by rewrite Z.lxor_assoc, Z.lxor_nilpotent, Z.lxor_0_r.
Qed.

(** The integer whose big-endian bytes [encode_score] writes. *)
Definition score_ordered (x : f64) : Z :=
  if x <? 2 ^ 63 then x + 2 ^ 63 else 2 ^ 64 - 1 - x.

Lemma score_ordered_u64 x : in_u64 x -> in_u64 (score_ordered x).
Proof. unfold in_u64, score_ordered. destruct (Z.ltb_spec x (2 ^ 63)); lia. Qed.

Lemma encode_score_ordered x : in_u64 x -> encode_score x = u64_be (score_ordered x).
Proof.
  intros Hx. unfold encode_score, score_ordered. rewrite sign_bit_ltb by done.
  destruct Hx. destruct (Z.ltb_spec x (2 ^ 63)); simpl.
  - by rewrite lxor_sign_clear by lia.
  - by rewrite u64_not_sub.
Qed.

Lemma length_encode_score x : length (encode_score x) = 8%nat.
Proof. apply length_be_bytes. Qed.

Lemma decode_score_encode (x : f64) : in_u64 x -> decode_score (encode_score x) = x.
Proof.
  intros Hx. unfold decode_score. pose proof (score_ordered_u64 x Hx) as Ho.
  rewrite encode_score_ordered, of_be_u64 by done. cbv zeta.
  rewrite sign_bit_ltb by done. unfold score_ordered in *. unfold in_u64 in *.
  destruct (Z.ltb_spec x (2 ^ 63)).
  - replace (x + 2 ^ 63 <? 2 ^ 63) with false by (symmetry; apply Z.ltb_ge; lia).
    cbn [negb]. rewrite lxor_sign_set; lia.
  - replace (2 ^ 64 - 1 - x <? 2 ^ 63) with true by (symmetry; apply Z.ltb_lt; lia).
    cbn [negb]. rewrite u64_not_sub; unfold in_u64; lia.
Qed.

(** [decode_score] inverts [encode_score] on every bit pattern, infinities,
    NaNs and both zeros included. *)
Theorem decode_encode_score (x : f64) : in_u64 x -> decode_score (encode_score x) = x.
Proof. apply decode_score_encode. Qed.

Lemma decode_score_u64 raw : length raw = 8%nat -> in_u64 (decode_score raw).
Proof.
  intros Hl. pose proof (of_be_u64_range raw Hl) as H. unfold decode_score.
  rewrite sign_bit_ltb by done. unfold in_u64 in *.
  destruct (Z.ltb_spec (of_be_bytes raw) (2 ^ 63)); cbn [negb].
  - rewrite u64_not_sub; unfold in_u64; lia.
  - rewrite lxor_sign_set; lia.
Qed.

(** The other direction: every eight bytes encode the score they decode to. *)
Lemma encode_decode_score raw : length raw = 8%nat -> encode_score (decode_score raw) = raw.
Proof.
  intros Hl. rewrite encode_score_ordered by by apply decode_score_u64.
  pose proof (of_be_u64_range raw Hl) as Ho. unfold decode_score.
  assert (Hs : score_ordered (decode_score raw) = of_be_bytes raw).
  { unfold decode_score. rewrite sign_bit_ltb by done. unfold score_ordered, in_u64 in *.
    destruct (Z.ltb_spec (of_be_bytes raw) (2 ^ 63)); cbn [negb].
    - rewrite u64_not_sub by (unfold in_u64; lia).
      rewrite (proj2 (Z.ltb_ge _ _)); lia.
    - rewrite lxor_sign_set by lia. rewrite (proj2 (Z.ltb_lt _ _)); lia. }
  unfold decode_score in Hs. rewrite Hs. by apply be_bytes_of_be'.
Qed.

Lemma encode_score_inj x y : in_u64 x -> in_u64 y -> encode_score x = encode_score y -> x = y.
Proof.
  intros Hx Hy H. rewrite <- (decode_score_encode x), <- (decode_score_encode y) by done.
  by rewrite H.
Qed.

Lemma encode_score_lt (x y : f64) :
  f64_num x -> f64_num y ->
  bytes_lt (encode_score x) (encode_score y) <->
  f64_ltb x y = true \/ (x = 2 ^ 63 /\ y = 0).
Proof.
  intros Hx Hy. rewrite f64_ltb_key by done. destruct Hx as [Hx _], Hy as [Hy _].
  unfold bytes_lt. rewrite !encode_score_ordered by done.
  rewrite bytes_compare_be by (by apply score_ordered_u64).
  rewrite Z.compare_lt_iff, Z.ltb_lt. unfold score_ordered, f64_key, in_u64 in *.
  destruct (Z.ltb_spec x (2 ^ 63)), (Z.ltb_spec y (2 ^ 63)); lia.
Qed.

(** Byte order of encoded scores is numeric order: one encoding sorts
    before another exactly when the score is smaller, except that -0.0, which
    equals 0.0, sorts just before it.  NaNs, which commands reject, excluded. *)
Theorem encode_score_order (x y : f64) :
  f64_num x -> f64_num y ->
  bytes_lt (encode_score x) (encode_score y) <->
  f64_ltb x y = true \/ (x = 2 ^ 63 /\ y = 0).
Proof. apply encode_score_lt. Qed.

Lemma encode_score_order_witness :
  f64_num (2 ^ 63 + 1023 * 2 ^ 52) /\ f64_num (1023 * 2 ^ 52) /\
  bytes_lt (encode_score (2 ^ 63 + 1023 * 2 ^ 52)) (encode_score (1023 * 2 ^ 52)).
Proof.
  split; [vm_compute; split; [split; congruence|done]|].
  split; [vm_compute; split; [split; congruence|done]|].
  apply encode_score_order; [vm_compute; split; [split; congruence|done]..|].
  left. reflexivity.
Defined.

Lemma encode_score_compare x y m1 m2 :
  bytes_compare (encode_score x ++ m1) (encode_score y ++ m2) =
  match bytes_compare (encode_score x) (encode_score y) with
  | Eq => bytes_compare m1 m2 | c => c end.
Proof. apply bytes_compare_app_len. by rewrite !length_encode_score. Qed.

(** The suffix of a score-index record. *)
Lemma split_score_suffix_encode x (m : bytes) :
  in_u64 x -> split_score_suffix (encode_score x ++ m) = Some (x, m).
Proof.
  intros Hx. unfold split_score_suffix. rewrite length_app, length_encode_score.
  rewrite (proj2 (Nat.ltb_ge _ _)) by lia.
  rewrite take_app_length', drop_app_length' by by rewrite length_encode_score.
  by rewrite decode_score_encode.
Qed.

Lemma split_score_suffix_cases (r : bytes) :
  (split_score_suffix r = None /\ (length r < 8)%nat) \/
  exists x m, in_u64 x /\ r = encode_score x ++ m /\ split_score_suffix r = Some (x, m).
Proof.
  unfold split_score_suffix. destruct (Nat.ltb_spec (length r) 8) as [Hl|Hl]; [by left|right].
  assert (H8 : length (take 8 r) = 8%nat) by (rewrite length_take; lia).
  exists (decode_score (take 8 r)), (drop 8 r).
  split; [by apply decode_score_u64|]. split; [|done].
  by rewrite encode_decode_score, take_drop.
Qed.

Lemma encode_score_app_inj x y (m1 m2 : bytes) :
  in_u64 x -> in_u64 y -> encode_score x ++ m1 = encode_score y ++ m2 -> x = y /\ m1 = m2.
Proof.
  intros Hx Hy Heq. apply app_inj_1 in Heq as [Hs Hm]; [|by rewrite !length_encode_score].
  split; [by apply encode_score_inj|done].
Qed.

(** Byte order of the suffixes implies the numeric order of the scores. *)
Lemma score_suffix_le x y (m1 m2 : bytes) :
  in_u64 x -> in_u64 y ->
  bytes_le (encode_score x ++ m1) (encode_score y ++ m2) -> f64_key x <= f64_key y.
Proof.
  intros Hx Hy. unfold bytes_le. rewrite encode_score_compare, !encode_score_ordered by done.
  rewrite bytes_compare_be by by apply score_ordered_u64.
  unfold score_ordered, f64_key, in_u64 in *.
  destruct (Z.compare_spec (if x <? 2 ^ 63 then x + 2 ^ 63 else 2 ^ 64 - 1 - x)
    (if y <? 2 ^ 63 then y + 2 ^ 63 else 2 ^ 64 - 1 - y)) as [He|He|He]; [| |done];
    intros _; destruct (Z.ltb_spec x (2 ^ 63)), (Z.ltb_spec y (2 ^ 63)); lia.
Qed.

Lemma score_suffix_lt_iff (s1 s2 : f64) (m1 m2 : bytes) :
  f64_num s1 -> f64_num s2 ->
  bytes_lt (encode_score s1 ++ m1) (encode_score s2 ++ m2) <->
  f64_ltb s1 s2 = true \/ (s1 = 2 ^ 63 /\ s2 = 0) \/ (s1 = s2 /\ bytes_lt m1 m2).
Proof.
  intros H1 H2. pose proof (encode_score_lt s1 s2 H1 H2) as Ho.
  destruct H1 as [H1 _], H2 as [H2 _]. unfold bytes_lt in *. rewrite encode_score_compare.
  destruct (bytes_compare (encode_score s1) (encode_score s2)) eqn:Hc.
  - apply bytes_compare_eq, encode_score_inj in Hc as ->; [|done..]. naive_solver.
  - naive_solver.
  - split; [done|]. intros [H|[H|[-> _]]]; [naive_solver..|].
    by rewrite bytes_compare_refl in Hc.
Qed.



Lemma decode_encode_score_witness :
  in_u64 (2 ^ 63) /\ decode_score (encode_score (2 ^ 63)) = 2 ^ 63.
Proof. split; [vm_compute; split; congruence|apply decode_encode_score; vm_compute; split; congruence]. Defined.

(** List elements scan left to right: index fields sort in numeric order. *)
Lemma list_index_field_order i j :
  in_u64 i -> in_u64 j ->
  bytes_compare (list_index_field i) (list_index_field j) = (i ?= j).
Proof. intros. by apply bytes_compare_be. Qed.

(** C23. A prefix scan of one key's subkeys or score index never meets a record
    of another key, of another version, or of the other family. *)
Theorem scan_prefix_isolated (uk1 uk2 : bytes) (v1 v2 : Z) (rest : bytes) :
  valid_key uk1 -> valid_key uk2 -> in_u64 v1 -> in_u64 v2 ->
  (subkey_prefix uk1 v1 `prefix_of` subkey_prefix uk2 v2 ++ rest <-> uk1 = uk2 /\ v1 = v2) /\
  (zscore_prefix uk1 v1 `prefix_of` zscore_prefix uk2 v2 ++ rest <-> uk1 = uk2 /\ v1 = v2) /\
  ~ subkey_prefix uk1 v1 `prefix_of` zscore_prefix uk2 v2 ++ rest /\
  ~ zscore_prefix uk1 v1 `prefix_of` subkey_prefix uk2 v2 ++ rest /\
  ~ subkey_prefix uk1 v1 `prefix_of` meta_key uk2 /\
  ~ zscore_prefix uk1 v1 `prefix_of` meta_key uk2.
Proof.
  intros Hk1 Hk2 Hv1 Hv2.
  assert (Hinj : forall p1 p2 r1 r2,
    versioned_key p2 uk2 v2 r2 = versioned_key p1 uk1 v1 r1 -> p1 = p2 /\ uk1 = uk2 /\ v1 = v2)
    by (intros * ?%versioned_key_inj; naive_solver).
  split_and!.
  - split; [|intros [-> ->]; by exists rest].
    intros [r H]. rewrite !subkey_prefix_versioned in H. by destruct (Hinj _ _ _ _ H) as (_ & ? & ?).
  - split; [|intros [-> ->]; by exists rest].
    intros [r H]. rewrite !zscore_prefix_versioned in H. by destruct (Hinj _ _ _ _ H) as (_ & ? & ?).
  - intros [r H]. rewrite subkey_prefix_versioned, zscore_prefix_versioned in H.
    by apply Hinj in H as [? _].
  - intros [r H]. rewrite subkey_prefix_versioned, zscore_prefix_versioned in H.
    by apply Hinj in H as [? _].
  - by intros [r [=]].
  - by intros [r [=]].
Qed.

Lemma scan_prefix_isolated_witness :
  valid_key (B "player:1") /\
  (subkey_prefix (B "player:1") 7 `prefix_of` subkey_prefix (B "player:1") 7 ++ B "gold" <->
   B "player:1" = B "player:1" /\ 7 = 7).
Proof.
  assert (H1 : valid_key (B "player:1")) by (vm_compute; split; congruence).
  assert (H2 : in_u64 7) by (vm_compute; split; congruence).
  split; [exact H1|].
  apply (scan_prefix_isolated (B "player:1") (B "player:1") 7 7 (B "gold") H1 H1 H2 H2).
Defined.
