(* ===== verification/Engine.v ===== *)
(** * The storage-engine interface

    Models crates/gamestore-engine/src/engine.rs and error.rs: write batches,
    the error type, and the [GeneralEngine] trait as a type class.  A second
    class, [EngineLaws], states what the layers above rely on: an engine holds
    a map from keys to values, a batch applies atomically, a prefix scan lists
    the matching records in key order until an error stops it, compaction drops only records the
    installed predicate rejects.  [Rocks] proves the laws for the RocksDB
    engine; [Store] is written and proved against the classes alone.

    The trait's [stats] method, the read-only gauges of the metrics endpoint, is
    in Observability.v: nothing here depends on it. *)

From S2P Require Import Prelude Encoding.

(** ** Errors *)

Inductive EngineError : Type :=
  | Backend (msg : bytes)
  | Corruption (msg : bytes)
  | WrongType.

#[export] Instance EngineError_eq_dec : EqDecision EngineError.
Proof. solve_decision. Defined.

(** The [Display] texts of the derived [Error] implementation. *)
Definition EngineError_to_string (e : EngineError) : bytes :=
  match e with
  | Backend m => B "engine backend error: " ++ m
  | Corruption m => B "engine corruption: " ++ m
  | WrongType => B "WRONGTYPE Operation against a key holding the wrong kind of value"
  end.

(** ** Write batches *)

Inductive WriteOp : Type :=
  | Put (k v : bytes)
  | Delete (k : bytes).

Record WriteBatch : Type := mk_WriteBatch { ops : list WriteOp }.

Definition WriteBatch_new : WriteBatch := mk_WriteBatch [].
Definition batch_put (b : WriteBatch) (k v : bytes) : WriteBatch :=
  mk_WriteBatch (ops b ++ [Put k v]).
Definition batch_delete (b : WriteBatch) (k : bytes) : WriteBatch :=
  mk_WriteBatch (ops b ++ [Delete k]).
Definition batch_len (b : WriteBatch) : nat := length (ops b).
Definition batch_is_empty (b : WriteBatch) : bool :=
  match ops b with [] => true | _ :: _ => false end.

(** What a batch does to the contents of an engine. *)
Definition apply_op (m : gmap bytes bytes) (o : WriteOp) : gmap bytes bytes :=
  match o with
  | Put k v => <[k := v]> m
  | Delete k => delete k m
  end.

Definition apply_batch (b : WriteBatch) (m : gmap bytes bytes) : gmap bytes bytes :=
  fold_left apply_op (ops b) m.

(** ** Key ranges *)

Record Range : Type := mk_Range { range_start : option bytes; range_end : option bytes }.

Definition Range_default : Range := mk_Range None None.

(** ** The interface *)

(** The table a version map shares between its clones. *)
Abbreviation version_table := (gmap bytes Z) (only parsing).

(** A predicate object reads the table through its shared reference: what it
    answers depends on the table's contents at the time of the call. *)
Definition GcPredicate : Type := version_table -> bytes -> bytes -> bool.

Class GeneralEngine (E : Type) : Type := {
  eng_get : E -> bytes -> result EngineError (option bytes);
  eng_write : E -> WriteBatch -> E * result EngineError unit;
  eng_scan_prefix : E -> bytes -> list (result EngineError (bytes * bytes));
  eng_compact_range : version_table -> E -> option Range -> E * result EngineError unit;
  eng_install_gc : E -> GcPredicate -> E;
}.

(** Whether compaction keeps a record: with no predicate installed it keeps
    everything. *)
Definition gc_keeps (p : option GcPredicate) (vt : version_table) (k v : bytes) : bool :=
  match p with Some q => q vt k v | None => true end.

(** A range without bounds. *)
Definition range_is_full (r : option Range) : Prop :=
  match r with Some (mk_Range None None) | None => True | _ => False end.

(** A list of results that gives the items of [l] in order, to the end or up to
    a first error, which satisfies [fault]. *)
Inductive cut {A} (fault : EngineError -> Prop) : list (result EngineError A) -> list A -> Prop :=
  | cut_nil : cut fault [] []
  | cut_item x items l : cut fault items l -> cut fault (Ok x :: items) (x :: l)
  | cut_error e items l : fault e -> cut fault (Err e :: items) l.

(** What an engine promises.  The laws for a single call hold whether or not the
    backend can fail; the errors it fails with are its [fault]s; an engine in a
    [reliable] state does not fail, and stays reliable. *)
Class EngineLaws (E : Type) `{GeneralEngine E} : Type := {
  contents : E -> gmap bytes bytes;
  installed : E -> option GcPredicate;
  reliable : E -> Prop;
  fault : EngineError -> Prop;
  get_ok e k v : eng_get e k = Ok v -> v = contents e !! k;
  get_fault e k x : eng_get e k = Err x -> fault x;
  write_ok e b e' :
    eng_write e b = (e', Ok tt) -> contents e' = apply_batch b (contents e);
  write_err e b e' err : eng_write e b = (e', Err err) -> contents e' = contents e;
  write_fault e b e' err : eng_write e b = (e', Err err) -> fault err;
  write_installed e b : installed (eng_write e b).1 = installed e;
  scan_cut e p : cut fault (eng_scan_prefix e p) (scan_entries p (contents e));
  compact_safe vt e r k v :
    contents (eng_compact_range vt e r).1 !! k = Some v -> contents e !! k = Some v;
  compact_keeps vt e r k v :
    contents e !! k = Some v -> gc_keeps (installed e) vt k v = true ->
    contents (eng_compact_range vt e r).1 !! k = Some v;
  compact_full vt e r e' k v :
    range_is_full r -> eng_compact_range vt e r = (e', Ok tt) ->
    contents e' !! k = Some v -> gc_keeps (installed e) vt k v = true;
  compact_fault vt e r e' x : eng_compact_range vt e r = (e', Err x) -> fault x;
  compact_installed vt e r : installed (eng_compact_range vt e r).1 = installed e;
  install_contents e p : contents (eng_install_gc e p) = contents e;
  install_installed e p : installed (eng_install_gc e p) = Some p;
  install_reliable e p : reliable e -> reliable (eng_install_gc e p);
  reliable_get e k : reliable e -> eng_get e k = Ok (contents e !! k);
  reliable_write e b :
    reliable e -> exists e', eng_write e b = (e', Ok tt) /\ reliable e';
  reliable_scan e p :
    reliable e -> eng_scan_prefix e p = Ok <$> scan_entries p (contents e);
  reliable_compact vt e r :
    reliable e -> exists e', eng_compact_range vt e r = (e', Ok tt) /\ reliable e';
}.

Lemma cut_prefix {A} (fault : EngineError -> Prop) (l l' : list A) e :
  l' `prefix_of` l -> fault e -> cut fault ((Ok <$> l') ++ [Err e]) l.
Proof.
  intros [l2 ->] He. induction l' as [|x l' IH]; cbn; [by apply cut_error|by apply cut_item].
Qed.

Lemma cut_all {A} (fault : EngineError -> Prop) (l : list A) : cut fault (Ok <$> l) l.
Proof. induction l; cbn; by constructor. Qed.

(** The key an operation writes. *)
Definition op_key (o : WriteOp) : bytes :=
  match o with Put k _ => k | Delete k => k end.

(** ** Lemmas on batches *)

Lemma apply_batch_new m : apply_batch WriteBatch_new m = m.
Proof. done. Qed.

Lemma apply_batch_put b k v m : apply_batch (batch_put b k v) m = <[k := v]> (apply_batch b m).
Proof. unfold apply_batch, batch_put; cbn. by rewrite fold_left_app. Qed.

Lemma apply_batch_delete b k m : apply_batch (batch_delete b k) m = delete k (apply_batch b m).
Proof. unfold apply_batch, batch_delete; cbn. by rewrite fold_left_app. Qed.

#[export] Hint Rewrite apply_batch_new apply_batch_put apply_batch_delete : gs.

(** A batch is applied in the order it was filled: for each key the last
    operation queued for it decides, and keys it does not name are untouched. *)
Theorem apply_batch_lookup (b : WriteBatch) (m : gmap bytes bytes) (k : bytes) :
  apply_batch b m !! k =
  match last (filter (fun o => op_key o = k) (ops b)) with
  | Some (Put _ v) => Some v
  | Some (Delete _) => None
  | None => m !! k
  end.
Proof.
  unfold apply_batch. induction (ops b) as [|o l IH] using rev_ind; [done|].
  rewrite fold_left_app, filter_app; cbn [fold_left].
  destruct o as [k' v|k']; cbn [apply_op].
  - destruct (decide (k' = k)) as [->|Hne].
    + by rewrite lookup_insert_eq, filter_cons_True, filter_nil, last_snoc.
    + by rewrite lookup_insert_ne, IH, filter_cons_False, filter_nil, app_nil_r.
  - destruct (decide (k' = k)) as [->|Hne].
    + by rewrite lookup_delete_eq, filter_cons_True, filter_nil, last_snoc.
    + by rewrite lookup_delete_ne, IH, filter_cons_False, filter_nil, app_nil_r.
Qed.
