(* ===== verification/Gc.v ===== *)
(** * Version-based garbage collection

    Models crates/gamestore-engine/src/gc.rs.  A [VersionMap] is a reference to
    one table of current structure versions that all its clones share; the
    operations below act on the table's contents, which the store's state
    carries (the [RwLock] serialises them).  The predicate handed to the engine
    reads the same table. *)

From S2P Require Import Prelude Encoding Engine.

Definition VersionMap_new : version_table := ∅.
Definition VersionMap_set (t : version_table) (user_key : bytes) (version : Z) : version_table :=
  <[user_key := version]> t.
Definition VersionMap_remove (t : version_table) (user_key : bytes) : version_table :=
  delete user_key t.
Definition VersionMap_get (t : version_table) (user_key : bytes) : option Z := t !! user_key.
Definition VersionMap_clear (t : version_table) : version_table := ∅.
Definition VersionMap_len (t : version_table) : nat := size t.
Definition VersionMap_is_empty (t : version_table) : bool := Nat.eqb (VersionMap_len t) 0.

Definition VersionMap_should_keep (t : version_table) (key : bytes) : bool :=
  match parse_owner_version key with
  | None => true
  | Some (user_key, version) =>
      match VersionMap_get t user_key with
      | Some current => version =? current
      | None => false
      end
  end.

(** [impl GcPredicate for VersionMap]. *)
Definition VersionMap_predicate : GcPredicate :=
  fun t key _value => VersionMap_should_keep t key.

(** The filter keeps a subkey or score-index record exactly when its owner
    is tracked at the record's version, and keeps every metadata record. *)
Theorem should_keep_spec (t : version_table) (uk : bytes) (v : Z) (rest : bytes) :
  valid_key uk -> in_u64 v ->
  VersionMap_should_keep t (subkey_prefix uk v ++ rest) = bool_decide (t !! uk = Some v) /\
  VersionMap_should_keep t (zscore_prefix uk v ++ rest) = bool_decide (t !! uk = Some v) /\
  VersionMap_should_keep t (meta_key uk) = true.
Proof.
  intros Hk Hv. unfold VersionMap_should_keep, VersionMap_get.
  assert (Hs : parse_owner_version (subkey_prefix uk v ++ rest) = Some (uk, v))
    by (rewrite !subkey_prefix_versioned; apply parse_owner_versioned; [by left|done..]).
  assert (Hz : parse_owner_version (zscore_prefix uk v ++ rest) = Some (uk, v))
    by (rewrite !zscore_prefix_versioned; apply parse_owner_versioned; [by right|done..]).
  rewrite Hs, Hz. split_and!; [| |done];
    (destruct (t !! uk) as [c|];
     [destruct (Z.eqb_spec v c); case_bool_decide; naive_solver|by case_bool_decide]).
Qed.

Lemma should_keep_spec_witness :
  valid_key (B "k") /\ in_u64 5 /\
  VersionMap_should_keep (<[B "k" := 5]> ∅) (subkey_prefix (B "k") 5 ++ B "f") =
    bool_decide ((<[B "k" := 5]> ∅ : version_table) !! B "k" = Some 5).
Proof.
  assert (H1 : valid_key (B "k")) by (vm_compute; split; congruence).
  assert (H2 : in_u64 5) by (vm_compute; split; congruence).
  split_and!; [exact H1|exact H2|].
  apply (should_keep_spec (<[B "k" := 5]> ∅) (B "k") 5 (B "f") H1 H2).
Defined.
