(* ===== verification/Rocks.v ===== *)
(** * The RocksDB engine

    Models crates/gamestore-engine/src/rocks.rs.  RocksDB itself is not part of
    the program: the class [RocksDb] lists the calls the engine makes and
    [RocksDbLaws] states their documented behaviour (a map, atomic write
    batches, an iterator in key order from a start key, a forced full
    compaction that consults the filter on every record).  The engine's own
    code, the batch translation, the prefix-scan iterator and the compaction
    filter trampoline, is modelled in full, and the engine is proved to meet
    [EngineLaws].

    [MemDb] is a concrete instance of the interface, an ordered in-memory map
    whose writes fail on demand; the witnesses of the development run on it.

    The options given at open time and the statistics are in RocksOpen.v. *)

From S2P Require Import Prelude Encoding Engine Gc.

(** ** The backend *)

Class RocksDb (DB : Type) : Type := {
  rocks_error : Type;
  rocks_error_text : rocks_error -> bytes;
  rocks_batch : Type;
  rocks_batch_default : rocks_batch;
  rocks_batch_put : rocks_batch -> bytes -> bytes -> rocks_batch;
  rocks_batch_delete : rocks_batch -> bytes -> rocks_batch;
  rocks_get : DB -> bytes -> result rocks_error (option bytes);
  rocks_write : DB -> rocks_batch -> DB * result rocks_error unit;
  (** [iterator(IteratorMode::From(start, Direction::Forward))]. *)
  rocks_iterator_from : DB -> bytes -> list (result rocks_error (bytes * bytes));
  rocks_flush : DB -> DB * result rocks_error unit;
  (** [compact_range_opt] with the bottommost level forced; the filter registered
      at open time answers [true] for records to remove. *)
  rocks_compact_range : (bytes -> bytes -> bool) -> DB -> option bytes -> option bytes -> DB;
}.

(** The entries an ordered iterator started at [start] visits. *)
Definition entries_from (start : bytes) (m : gmap bytes bytes) : list (bytes * bytes) :=
  filter (fun kv => bytes_le start kv.1) (sorted_entries m).

Class RocksDbLaws (DB : Type) `{RocksDb DB} : Type := {
  db_contents : DB -> gmap bytes bytes;
  db_reliable : DB -> Prop;
  batch_effect : rocks_batch -> gmap bytes bytes -> gmap bytes bytes;
  batch_effect_default m : batch_effect rocks_batch_default m = m;
  batch_effect_put b k v m :
    batch_effect (rocks_batch_put b k v) m = <[k := v]> (batch_effect b m);
  batch_effect_delete b k m :
    batch_effect (rocks_batch_delete b k) m = delete k (batch_effect b m);
  rocks_get_ok d k v : rocks_get d k = Ok v -> v = db_contents d !! k;
  rocks_write_ok d b d' :
    rocks_write d b = (d', Ok tt) -> db_contents d' = batch_effect b (db_contents d);
  rocks_write_err d b d' e : rocks_write d b = (d', Err e) -> db_contents d' = db_contents d;
  (** Items come in key order from the first key not below [start]; an error may
      cut the iteration short. *)
  rocks_iterator_ok d start :
    exists l tail,
      rocks_iterator_from d start = (Ok <$> l) ++ tail /\
      l `prefix_of` entries_from start (db_contents d) /\
      (tail = [] -> l = entries_from start (db_contents d)) /\
      (tail <> [] -> exists e rest, tail = Err e :: rest);
  rocks_flush_contents d : db_contents (rocks_flush d).1 = db_contents d;
  rocks_compact_safe f d s e k v :
    db_contents (rocks_compact_range f d s e) !! k = Some v -> db_contents d !! k = Some v;
  rocks_compact_keeps f d s e k v :
    db_contents d !! k = Some v -> f k v = false ->
    db_contents (rocks_compact_range f d s e) !! k = Some v;
  rocks_compact_removes f d k v :
    db_contents (rocks_compact_range f d None None) !! k = Some v -> f k v = false;
  db_reliable_get d k : db_reliable d -> rocks_get d k = Ok (db_contents d !! k);
  db_reliable_write d b :
    db_reliable d -> exists d', rocks_write d b = (d', Ok tt) /\ db_reliable d';
  db_reliable_iterator d start :
    db_reliable d ->
    rocks_iterator_from d start =
      Ok <$> entries_from start (db_contents d);
  db_reliable_flush d :
    db_reliable d -> exists d', rocks_flush d = (d', Ok tt) /\ db_reliable d';
  db_reliable_compact f d s e : db_reliable d -> db_reliable (rocks_compact_range f d s e);
}.

(** ** The engine *)

Section Rocks.
Context {DB : Type} `{RocksDb DB}.

Record RocksEngine : Type := mk_RocksEngine {
  db : DB;
  gc : option GcPredicate;
}.

(** [impl From<rocksdb::Error> for EngineError]. *)
Definition EngineError_from_rocks (e : rocks_error) : EngineError :=
  Backend (rocks_error_text e).

Definition map_err {A} (r : result rocks_error A) : result EngineError A :=
  match r with Ok a => Ok a | Err e => Err (EngineError_from_rocks e) end.

(** The engine over a freshly opened database: no predicate installed yet. *)
Definition RocksEngine_open (opened : result rocks_error DB) : result EngineError RocksEngine :=
  d ← map_err opened; Ok (mk_RocksEngine d None).

(** The closure registered as the compaction filter. *)
Definition filter_removes (vt : version_table) (slot : option GcPredicate) (k v : bytes) : bool :=
  match slot with
  | Some pred => if negb (pred vt k v) then true else false
  | None => false
  end.

Definition RocksEngine_get (e : RocksEngine) (key : bytes) : result EngineError (option bytes) :=
  map_err (rocks_get (db e) key).

(** The loop that fills the backend's batch. *)
Definition to_rocks_batch (b : WriteBatch) : rocks_batch :=
  fold_left (fun wb o =>
    match o with
    | Put k v => rocks_batch_put wb k v
    | Delete k => rocks_batch_delete wb k
    end) (ops b) rocks_batch_default.

Definition RocksEngine_write (e : RocksEngine) (b : WriteBatch) :
  RocksEngine * result EngineError unit :=
  let '(d', r) := rocks_write (db e) (to_rocks_batch b) in
  (mk_RocksEngine d' (gc e), map_err r).

(** [PrefixScan]: the backend iterator, the prefix, and the [done] flag; [next]
    consumes one backend item. *)
Record PrefixScan : Type := mk_PrefixScan {
  scan_iter : list (result rocks_error (bytes * bytes));
  scan_prefix : bytes;
  scan_done : bool;
}.

Definition PrefixScan_next (s : PrefixScan) :
  option (result EngineError (bytes * bytes)) * PrefixScan :=
  if scan_done s then (None, s)
  else
    match scan_iter s with
    | [] => (None, s)
    | Ok (k, v) :: rest =>
        if decide (scan_prefix s `prefix_of` k)
        then (Some (Ok (k, v)), mk_PrefixScan rest (scan_prefix s) false)
        else (None, mk_PrefixScan rest (scan_prefix s) true)
    | Err e :: rest =>
        (Some (Err (EngineError_from_rocks e)), mk_PrefixScan rest (scan_prefix s) true)
    end.

(** A consumer's [for] loop: call [next] until it answers [None].  Every item
    takes one backend item, so [length (scan_iter s)] calls yield all items. *)
Fixpoint PrefixScan_collect (fuel : nat) (s : PrefixScan) :
  list (result EngineError (bytes * bytes)) :=
  match fuel with
  | O => []
  | S fuel' =>
      match PrefixScan_next s with
      | (None, _) => []
      | (Some item, s') => item :: PrefixScan_collect fuel' s'
      end
  end.

Definition RocksEngine_scan_prefix (e : RocksEngine) (prefix : bytes) :
  list (result EngineError (bytes * bytes)) :=
  let iter := rocks_iterator_from (db e) prefix in
  PrefixScan_collect (length iter) (mk_PrefixScan iter prefix false).

Definition RocksEngine_compact_range (vt : version_table) (e : RocksEngine)
  (range : option Range) : RocksEngine * result EngineError unit :=
  let '(d1, r) := rocks_flush (db e) in
  match map_err r with
  | Err x => (mk_RocksEngine d1 (gc e), Err x)
  | Ok _ =>
      let '(start, end_) :=
        match range with
        | Some r => (range_start r, range_end r)
        | None => (None, None)
        end in
      (mk_RocksEngine (rocks_compact_range (filter_removes vt (gc e)) d1 start end_) (gc e), Ok tt)
  end.

Definition RocksEngine_install_gc (e : RocksEngine) (p : GcPredicate) : RocksEngine :=
  mk_RocksEngine (db e) (Some p).

#[export] Instance RocksEngine_engine : GeneralEngine RocksEngine := {
  eng_get := RocksEngine_get;
  eng_write := RocksEngine_write;
  eng_scan_prefix := RocksEngine_scan_prefix;
  eng_compact_range := RocksEngine_compact_range;
  eng_install_gc := RocksEngine_install_gc;
}.

End Rocks.
Arguments RocksEngine DB : clear implicits.
Arguments mk_RocksEngine {DB} _ _.

(** ** The prefix scan *)

Section RocksProofs.
Context {DB : Type} `{RocksDbLaws DB}.

(** What a scan hands its consumer once the backend's items are [l] and then
    [tail]: the items while the prefix matches, and the error if one comes
    before the prefix ends. *)
Lemma PrefixScan_collect_app fuel (p : bytes) l tail :
  (length l + length tail <= fuel)%nat ->
  PrefixScan_collect fuel (mk_PrefixScan ((Ok <$> l) ++ tail) p false) =
  (Ok <$> take_while (fun kv : bytes * bytes => p `prefix_of` kv.1) l) ++
  (if decide (Forall (fun kv : bytes * bytes => p `prefix_of` kv.1) l)
   then PrefixScan_collect (fuel - length l) (mk_PrefixScan tail p false) else []).
Proof.
  revert fuel. induction l as [|[k v] l IH]; intros fuel Hf; cbn in Hf.
  - rewrite decide_True by constructor. by rewrite Nat.sub_0_r.
  - destruct fuel as [|fuel]; [lia|]. cbn [PrefixScan_collect fmap list_fmap app].
    unfold PrefixScan_next; cbn [scan_done scan_iter scan_prefix]. cbn [take_while fst].
    destruct (decide (p `prefix_of` k)) as [Hp|Hp].
    + rewrite IH by lia. cbn. f_equal. f_equal.
      destruct (decide (Forall _ l)) as [Ha|Ha].
      * by rewrite decide_True by (by constructor).
      * rewrite decide_False; [done|]. by intros [??]%Forall_cons.
    + cbn. rewrite decide_False; [done|]. by intros [??]%Forall_cons.
Qed.

Lemma PrefixScan_collect_error fuel (p : bytes) e rest :
  (0 < fuel)%nat ->
  PrefixScan_collect fuel (mk_PrefixScan (Err e :: rest) p false) =
  [Err (EngineError_from_rocks e)].
Proof. destruct fuel as [|[|fuel]]; [lia|done..]. Qed.

Lemma take_while_all {A} (P : A -> Prop) `{!forall x, Decision (P x)} (l : list A) :
  Forall P l -> take_while P l = l.
Proof. induction 1 as [|x l Hx _ IH]; [done|]. cbn. by rewrite decide_True, IH. Qed.

(** The scan either lists exactly the records under the prefix, or a prefix of
    them followed by the one error that ended it. *)
Lemma RocksEngine_scan_cases (e : RocksEngine DB) (p : bytes) :
  RocksEngine_scan_prefix e p = Ok <$> scan_entries p (db_contents (db e)) \/
  exists l x, l `prefix_of` scan_entries p (db_contents (db e)) /\
    RocksEngine_scan_prefix e p = (Ok <$> l) ++ [Err (EngineError_from_rocks x)].
Proof.
  unfold RocksEngine_scan_prefix. rewrite scan_entries_seek.
  fold (entries_from p (db_contents (db e))).
  destruct (rocks_iterator_ok (db e) p) as (l & tail & -> & Hpre & Hall & Herr).
  rewrite length_app, length_fmap, PrefixScan_collect_app by lia.
  destruct (decide (Forall _ l)) as [HF|HF].
  - destruct tail as [|t tail].
    + left. rewrite Hall by done. cbn.
      by rewrite Nat.add_0_r, Nat.sub_diag, app_nil_r.
    + right. destruct Herr as (x & rest & [= -> ->]); [done|].
      exists l, x. split.
      * destruct Hpre as [k ->]. rewrite <- (take_while_all _ l HF) at 1. clear.
        induction l as [|y l IH]; cbn; [apply prefix_nil|].
        destruct (decide _); [by apply prefix_cons|apply prefix_nil].
      * rewrite PrefixScan_collect_error by (cbn; lia). by rewrite take_while_all.
  - left. rewrite app_nil_r. by rewrite (take_while_prefix _ _ _ Hpre HF).
Qed.

Lemma to_rocks_batch_effect b m : batch_effect (to_rocks_batch b) m = apply_batch b m.
Proof.
  unfold to_rocks_batch, apply_batch.
  induction (ops b) as [|o l IH] using rev_ind; cbn; [apply batch_effect_default|].
  rewrite !fold_left_app; cbn.
  destruct o; cbn; by rewrite ?batch_effect_put, ?batch_effect_delete, IH.
Qed.

Lemma map_err_Ok {A} (r : result rocks_error A) a : map_err r = Ok a -> r = Ok a.
Proof. by destruct r; intros [= ->]. Qed.

Lemma map_err_Err {A} (r : result rocks_error A) x : map_err r = Err x -> exists m, x = Backend m.
Proof. destruct r as [a|e]; intros [= <-]. by eexists. Qed.

Lemma filter_removes_keeps vt slot k v : filter_removes vt slot k v = negb (gc_keeps slot vt k v).
Proof. destruct slot as [pred|]; [cbn; by destruct (pred vt k v)|done]. Qed.

(** The state after a compaction: the flush's, then the backend's. *)
Lemma RocksEngine_compact_cases vt (e : RocksEngine DB) r :
  (exists d x, db_contents d = db_contents (db e) /\
    RocksEngine_compact_range vt e r = (mk_RocksEngine d (gc e), Err x)) \/
  (exists d s t, db_contents d = db_contents (db e) /\
    (range_is_full r -> s = None /\ t = None) /\
    RocksEngine_compact_range vt e r =
      (mk_RocksEngine (rocks_compact_range (filter_removes vt (gc e)) d s t) (gc e), Ok tt)).
Proof.
  unfold RocksEngine_compact_range. pose proof (rocks_flush_contents (db e)) as Hc.
  destruct (rocks_flush (db e)) as [d1 [[]|x]]; cbn in *; [right|left; eauto].
  destruct r as [[s t]|]; cbn.
  - exists d1, s, t. split_and!; [done| |done]. by destruct s, t.
  - by exists d1, None, None.
Qed.

(** ** The engine meets the interface's laws *)

#[export] Program Instance RocksEngine_laws : EngineLaws (RocksEngine DB) := {
  contents e := db_contents (db e);
  installed e := gc e;
  reliable e := db_reliable (db e);
  fault x := exists m, x = Backend m;
}.
Next Obligation. intros e k v ?%map_err_Ok. by apply rocks_get_ok. Qed.
Next Obligation. intros e k x. apply map_err_Err. Qed.
Next Obligation.
  intros e b e'. cbn. unfold RocksEngine_write.
  destruct (rocks_write (db e) (to_rocks_batch b)) as [d' r] eqn:E.
  intros [= <- ->%map_err_Ok]. rewrite <- to_rocks_batch_effect. by apply (rocks_write_ok).
Qed.
Next Obligation.
  intros e b e' err. cbn. unfold RocksEngine_write.
  destruct (rocks_write (db e) (to_rocks_batch b)) as [d' [?|x]] eqn:E; intros [=]; subst.
  by eapply rocks_write_err.
Qed.
Next Obligation.
  intros e b e' err. cbn. unfold RocksEngine_write.
  destruct (rocks_write (db e) (to_rocks_batch b)) as [d' r]. intros [= _ Hx]. by eapply map_err_Err.
Qed.
Next Obligation.
  intros e b. cbn. unfold RocksEngine_write. by destruct (rocks_write _ _).
Qed.
Next Obligation.
  intros e p. cbn. destruct (RocksEngine_scan_cases e p) as [->|(l & x & Hl & ->)].
  - apply cut_all.
  - apply cut_prefix; [done|by eexists].
Qed.
Next Obligation.
  intros vt e r k v. cbn.
  destruct (RocksEngine_compact_cases vt e r) as [(d & x & <- & ->)|(d & s & t & <- & _ & ->)];
    cbn; [done|apply rocks_compact_safe].
Qed.
Next Obligation.
  intros vt e r k v. cbn.
  destruct (RocksEngine_compact_cases vt e r) as [(d & x & <- & ->)|(d & s & t & <- & _ & ->)];
    cbn; [done|intros Hk Hg]. apply rocks_compact_keeps; [done|].
  by rewrite filter_removes_keeps, Hg.
Qed.
Next Obligation.
  intros vt e r e' k v Hfull. cbn.
  destruct (RocksEngine_compact_cases vt e r) as [(d & x & _ & ->)|(d & s & t & _ & Hst & ->)];
    intros [= <-]; cbn. destruct (Hst Hfull) as [-> ->].
  intros Hk%rocks_compact_removes. rewrite filter_removes_keeps in Hk.
  by apply negb_false_iff in Hk.
Qed.
Next Obligation.
  intros vt e r e' x. cbn. unfold RocksEngine_compact_range. destruct (rocks_flush (db e)) as [d1 y].
  destruct (map_err y) as [u|z] eqn:Hy; [by destruct r as [[]|]|]. intros [= _ <-]. by eapply map_err_Err.
Qed.
Next Obligation.
  intros vt e r. cbn.
  by destruct (RocksEngine_compact_cases vt e r) as [(d & x & _ & ->)|(d & s & t & _ & _ & ->)].
Qed.
Next Obligation. done. Qed.
Next Obligation. done. Qed.
Next Obligation. done. Qed.
Next Obligation. intros e k Hr. cbn. unfold RocksEngine_get. by rewrite db_reliable_get. Qed.
Next Obligation.
  intros e b Hr. cbn. unfold RocksEngine_write.
  destruct (db_reliable_write (db e) (to_rocks_batch b) Hr) as (d' & -> & ?).
  by exists (mk_RocksEngine d' (gc e)).
Qed.
Next Obligation.
  intros e p Hr. cbn. unfold RocksEngine_scan_prefix.
  rewrite db_reliable_iterator by done. rewrite <- (app_nil_r (Ok <$> _)).
  rewrite length_app, length_fmap, PrefixScan_collect_app by (cbn; lia).
  rewrite scan_entries_seek. cbn. rewrite Nat.add_0_r, Nat.sub_diag. cbn.
  by destruct (decide _); rewrite app_nil_r.
Qed.
Next Obligation.
  intros vt e r Hr. cbn. unfold RocksEngine_compact_range.
  destruct (db_reliable_flush (db e) Hr) as (d' & -> & Hd). cbn.
  destruct r as [[s t]|]; eexists; (split; [done|]); cbn; by apply db_reliable_compact.
Qed.

(** C24. A prefix scan over the backend's ordered iterator yields every record
    whose key starts with the prefix, in key order and with nothing else, or a
    prefix of that list followed by the single backend error that cut it
    short: it never skips, repeats or reorders a record and never goes on after
    an error. *)
Theorem RocksEngine_scan_prefix_spec (e : RocksEngine DB) (p : bytes) :
  RocksEngine_scan_prefix e p = Ok <$> scan_entries p (db_contents (db e)) \/
  exists l x, l `prefix_of` scan_entries p (db_contents (db e)) /\
    RocksEngine_scan_prefix e p = (Ok <$> l) ++ [Err x].
Proof. destruct (RocksEngine_scan_cases e p) as [Hs|(l & x & Hl & Hs)]; [by left|right; eauto]. Qed.

End RocksProofs.

(** ** An in-memory backend *)

(** An ordered map.  Each write consumes one flag of [write_faults] and fails,
    leaving the map alone, when it is [true]; with [scan_limit = Some n] an
    iterator fails after [n] items. *)
Record MemDb : Type := mk_MemDb {
  mem : gmap bytes bytes;
  write_faults : list bool;
  scan_limit : option nat;
}.

Definition MemDb_empty : MemDb := mk_MemDb ∅ [] None.

Definition MemDb_write (d : MemDb) (b : WriteBatch) : MemDb * result bytes unit :=
  match write_faults d with
  | true :: fs => (mk_MemDb (mem d) fs (scan_limit d), Err (B "injected write fault"))
  | fs => (mk_MemDb (apply_batch b (mem d)) (tail fs) (scan_limit d), Ok tt)
  end.

Definition MemDb_iterator (d : MemDb) (start : bytes) : list (result bytes (bytes * bytes)) :=
  let l := entries_from start (mem d) in
  match scan_limit d with
  | Some n => (Ok <$> take n l) ++ [Err (B "injected scan fault")]
  | None => Ok <$> l
  end.

(** Whether a key lies between the bounds of a compaction (both inclusive). *)
Definition in_bounds (s t : option bytes) (k : bytes) : bool :=
  (match s with Some a => bool_decide (bytes_le a k) | None => true end) &&
  (match t with Some z => bool_decide (bytes_le k z) | None => true end).

Definition MemDb_compact (f : bytes -> bytes -> bool) (d : MemDb) (s t : option bytes) : MemDb :=
  mk_MemDb (filter (fun kv => in_bounds s t kv.1 && f kv.1 kv.2 = false) (mem d))
    (write_faults d) (scan_limit d).

#[export] Instance MemDb_rocks : RocksDb MemDb := {
  rocks_error := bytes;
  rocks_error_text e := e;
  rocks_batch := WriteBatch;
  rocks_batch_default := WriteBatch_new;
  rocks_batch_put := batch_put;
  rocks_batch_delete := batch_delete;
  rocks_get d k := Ok (mem d !! k);
  rocks_write := MemDb_write;
  rocks_iterator_from := MemDb_iterator;
  rocks_flush d := (d, Ok tt);
  rocks_compact_range := MemDb_compact;
}.

#[export] Program Instance MemDb_laws : RocksDbLaws MemDb := {
  db_contents := mem;
  db_reliable d := Forall (fun b => b = false) (write_faults d) /\ scan_limit d = None;
  batch_effect := apply_batch;
}.
Next Obligation. done. Qed.
Next Obligation. intros. apply apply_batch_put. Qed.
Next Obligation. intros. apply apply_batch_delete. Qed.
Next Obligation. by intros d k v [= ->]. Qed.
Next Obligation.
  intros d b d'. cbn. unfold MemDb_write. by destruct (write_faults d) as [|[] ?]; intros [= <-].
Qed.
Next Obligation.
  intros d b d' e. cbn. unfold MemDb_write. by destruct (write_faults d) as [|[] ?]; intros [= <-].
Qed.
Next Obligation.
  intros d start. cbn. unfold MemDb_iterator. destruct (scan_limit d) as [n|].
  - exists (take n (entries_from start (mem d))), [Err (B "injected scan fault")].
    split_and!; [done|apply prefix_take|done|eauto].
  - exists (entries_from start (mem d)), []. by rewrite app_nil_r.
Qed.
Next Obligation. done. Qed.
Next Obligation. intros f d s e k v. cbn. rewrite map_lookup_filter_Some. by intros [? _]. Qed.
Next Obligation.
  intros f d s e k v Hk Hf. cbn. rewrite map_lookup_filter_Some; cbn.
  by rewrite Hf, andb_false_r.
Qed.
Next Obligation. intros f d k v. cbn. rewrite map_lookup_filter_Some. by intros [_ ?]. Qed.
Next Obligation. done. Qed.
Next Obligation.
  intros d b [Hf Hs]. cbn. unfold MemDb_write.
  destruct Hf as [|f fs -> Hf]; eexists; (split; [done|]); by split.
Qed.
Next Obligation. intros d start [_ Hs]. cbn. unfold MemDb_iterator. by rewrite Hs. Qed.
Next Obligation. intros d Hd. by exists d. Qed.
Next Obligation. done. Qed.

(** The engine on a fresh in-memory database that never fails. *)
Definition mem_engine : RocksEngine MemDb := mk_RocksEngine MemDb_empty None.

