(* ===== verification/RocksOpen.v ===== *)
(** * Opening RocksDB and its statistics

    The rest of crates/gamestore-engine/src/rocks.rs: the tuning options, the
    calls that hand them to RocksDB when a database is opened, and the properties
    exported as gauges.  The option builders only record what they are given, so
    [open_options] is the list of calls made on them; opening a path with those
    options, and reading an integer property, are parameters. *)

From S2P Require Import Prelude F64 F64Text Engine Gc Rocks.

(** ** Options *)

(** A missing size leaves RocksDB's default; a missing rate leaves I/O unlimited. *)
Record EngineConfig : Type := mk_EngineConfig {
  create_if_missing : bool;
  bloom_bits_per_key : option f64;
  block_cache_bytes : option Z;
  write_buffer_bytes : option Z;
  rate_limit_bytes_per_sec : option Z;
}.

Definition EngineConfig_default : EngineConfig := {|
  create_if_missing := true;
  bloom_bits_per_key := Some (f64_decimal false 10 0);
  block_cache_bytes := Some (64 * 1024 * 1024);
  write_buffer_bytes := Some (64 * 1024 * 1024);
  rate_limit_bytes_per_sec := None;
|}.

(** The calls on the option builders. *)
Inductive RocksOption : Type :=
  | CreateIfMissing (create : bool)
  | LevelCompaction
  | WriteBufferSize (size : Z)
  | RateLimiter (rate refill_micros fairness : Z)
  | BlockCache (lru_bytes : Z)
  | BloomFilter (bits : f64) (block_based : bool)
  | BlockTableFactory
  | CompactionFilter (name : bytes).

Definition when_set {A} (o : option A) (f : A -> RocksOption) : list RocksOption :=
  match o with Some a => [f a] | None => [] end.

Definition open_options (config : EngineConfig) : list RocksOption :=
  [CreateIfMissing (create_if_missing config); LevelCompaction] ++
  when_set (write_buffer_bytes config) WriteBufferSize ++
  when_set (rate_limit_bytes_per_sec config) (fun rate => RateLimiter rate 100000 10) ++
  when_set (block_cache_bytes config) BlockCache ++
  when_set (bloom_bits_per_key config) (fun bits => BloomFilter bits false) ++
  [BlockTableFactory; CompactionFilter (B "gamestore-subkey-gc")].

Example default_options : open_options EngineConfig_default =
  [CreateIfMissing true; LevelCompaction; WriteBufferSize 67108864; BlockCache 67108864;
   BloomFilter 4621819117588971520 false; BlockTableFactory; CompactionFilter (B "gamestore-subkey-gc")].
Proof. vm_compute. reflexivity. Qed.

Section Opening.
Context {DB : Type} `{RocksDb DB}.
Context (db_open : list RocksOption -> bytes -> result rocks_error DB).

(** [RocksEngine::open]. *)
Definition open (path : bytes) (config : EngineConfig) : result EngineError (RocksEngine DB) :=
  RocksEngine_open (db_open (open_options config) path).

Lemma open_ok path config d :
  db_open (open_options config) path = Ok d -> open path config = Ok (mk_RocksEngine d None).
Proof. unfold open. by intros ->. Qed.

Lemma open_err path config x :
  db_open (open_options config) path = Err x -> open path config = Err (EngineError_from_rocks x).
Proof. unfold open. by intros ->. Qed.
End Opening.

(** ** Statistics *)

(** The exported name of a property, and RocksDB's. *)
Definition PROPS : list (bytes * bytes) := [
  (B "rocksdb_estimate_num_keys", B "rocksdb.estimate-num-keys");
  (B "rocksdb_block_cache_usage_bytes", B "rocksdb.block-cache-usage");
  (B "rocksdb_cur_size_all_mem_tables_bytes", B "rocksdb.cur-size-all-mem-tables");
  (B "rocksdb_total_sst_files_size_bytes", B "rocksdb.total-sst-files-size");
  (B "rocksdb_estimate_pending_compaction_bytes", B "rocksdb.estimate-pending-compaction-bytes");
  (B "rocksdb_num_running_compactions", B "rocksdb.num-running-compactions");
  (B "rocksdb_num_running_flushes", B "rocksdb.num-running-flushes");
  (B "rocksdb_actual_delayed_write_rate", B "rocksdb.actual-delayed-write-rate");
  (B "rocksdb_is_write_stopped", B "rocksdb.is-write-stopped")
].

Section Stats.
Context {DB : Type} `{RocksDb DB}.
Context (property_int_value : DB -> bytes -> result rocks_error (option Z)).

(** A property that RocksDB lacks, or fails to read, is skipped. *)
Definition stats (e : RocksEngine DB) : list (bytes * Z) :=
  omap (fun '(name, prop) =>
    match property_int_value (db e) prop with
    | Ok (Some v) => Some (name, v)
    | _ => None
    end) PROPS.

Lemma stats_names e : (stats e).*1 `sublist_of` PROPS.*1.
Proof.
  unfold stats. induction PROPS as [|[name prop] props IH]; cbn; [done|].
  destruct (property_int_value (db e) prop) as [[v|]|]; cbn; [by constructor|by constructor..].
Qed.

Lemma PROPS_distinct : NoDup (PROPS.*1).
Proof. apply (bool_decide_unpack _). vm_compute. exact I. Qed.

(** No gauge is exported twice. *)
Lemma stats_distinct e : NoDup ((stats e).*1).
Proof. eapply sublist_NoDup; [apply PROPS_distinct|apply stats_names]. Qed.
End Stats.
