(* ===== verification/Store.v ===== *)
(** * The Redis data model over a storage engine

    Models crates/gamestore-engine/src/store.rs, every operation, over any
    [GeneralEngine].  An operation is a function of type [M A]: it takes the
    state of the store and returns the new state with a value or an
    [EngineError]; an error keeps the effects made before it.

    The state holds the engine, the version table the store shares with the
    engine's compaction filter, the process-wide [VERSION_CLOCK], and the wall
    clock as an oracle: [clock i] is the [i]-th reading, in nanoseconds since the
    epoch (negative before it), and [tick] counts the readings made.

    Integer arithmetic wraps as in a release build.  Capacity hints
    ([Vec::with_capacity]) have no counterpart. *)

From S2P Require Import Prelude F64 Encoding Engine Gc.

(** ** State and monad *)

Record State (E : Type) : Type := mk_State {
  engine : E;
  versions : version_table;
  VERSION_CLOCK : Z;
  clock : nat -> Z;
  tick : nat;
}.
Arguments mk_State {E} _ _ _ _ _.
Arguments engine {E} _.
Arguments versions {E} _.
Arguments VERSION_CLOCK {E} _.
Arguments clock {E} _ _.
Arguments tick {E} _.

Definition M (E A : Type) : Type := State E -> State E * result EngineError A.

#[export] Instance M_ret {E} : MRet (M E) := fun A a s => (s, Ok a).
#[export] Instance M_bind {E} : MBind (M E) := fun A C f m s =>
  match m s with
  | (s', Ok a) => f a s'
  | (s', Err e) => (s', Err e)
  end.
#[export] Instance M_fmap {E} : FMap (M E) := fun A C f m s =>
  match m s with
  | (s', Ok a) => (s', Ok (f a))
  | (s', Err e) => (s', Err e)
  end.

Definition throw {E A} (e : EngineError) : M E A := fun s => (s, Err e).

(** [r?] on a result, and [o.ok_or_else(...)?] on an option. *)
Definition lift {E A} (r : result EngineError A) : M E A := fun s => (s, r).
Definition some_or {E A} (o : option A) (e : EngineError) : M E A := lift (ok_or o e).

Section Store.
Context {E : Type} `{GeneralEngine E}.

Abbreviation St := (State E).

Definition with_engine_state (s : St) (e : E) : St :=
  mk_State e (versions s) (VERSION_CLOCK s) (clock s) (tick s).
Definition with_versions (s : St) (v : version_table) : St :=
  mk_State (engine s) v (VERSION_CLOCK s) (clock s) (tick s).

(** Calls on the engine. *)
Definition engine_get (k : bytes) : M E (option bytes) := fun s =>
  (s, eng_get (engine s) k).
Definition engine_write (b : WriteBatch) : M E unit := fun s =>
  let '(e, r) := eng_write (engine s) b in (with_engine_state s e, r).
Definition engine_scan_prefix (p : bytes) : M E (list (result EngineError (bytes * bytes))) :=
  fun s => (s, Ok (eng_scan_prefix (engine s) p)).
Definition engine_compact_range (r : option Range) : M E unit := fun s =>
  let '(e, x) := eng_compact_range (versions s) (engine s) r in (with_engine_state s e, x).
Definition engine_install_gc (p : GcPredicate) : M E unit := fun s =>
  (with_engine_state s (eng_install_gc (engine s) p), Ok tt).

(** Calls on the version map. *)
Definition versions_set (k : bytes) (v : Z) : M E unit := fun s =>
  (with_versions s (VersionMap_set (versions s) k v), Ok tt).
Definition versions_remove (k : bytes) : M E unit := fun s =>
  (with_versions s (VersionMap_remove (versions s) k), Ok tt).
Definition versions_clear : M E unit := fun s =>
  (with_versions s (VersionMap_clear (versions s)), Ok tt).

(** ** Clocks *)

(** [SystemTime::now().duration_since(UNIX_EPOCH).unwrap_or_default()], in
    nanoseconds. *)
Definition read_clock : M E Z := fun s =>
  (mk_State (engine s) (versions s) (VERSION_CLOCK s) (clock s) (S (tick s)),
   Ok (Z.max 0 (clock s (tick s)))).

Definition as_millis (ns : Z) : Z := wrap_u64 (ns / 1000000).
Definition as_micros (ns : Z) : Z := wrap_u64 (ns / 1000).

Definition now_ms : M E Z := ns ← read_clock; mret (as_millis ns).
Definition now_micros : M E Z := ns ← read_clock; mret (as_micros ns).

(** The body of [next_version]'s loop after the clock reading: load, pick the
    candidate, compare-and-exchange.  With one thread the exchange of the first
    round succeeds. *)
Definition bump_version_clock (micros : Z) : M E Z := fun s =>
  let prev := VERSION_CLOCK s in
  let candidate := Z.max (wrap_u64 (prev + 1)) micros in
  (mk_State (engine s) (versions s) candidate (clock s) (tick s), Ok candidate).

Definition next_version : M E Z := micros ← now_micros; bump_version_clock micros.

(** ** Helpers *)

Definition decode_stored_score (raw : bytes) : result EngineError f64 :=
  if Nat.eqb (length raw) 8 then Ok (decode_score raw)
  else Err (Corruption (B "undecodable zset member score")).

Definition normalize_range (start stop len : Z) : option (Z * Z) :=
  if len <=? 0 then None
  else
    let lo := Z.max (if start <? 0 then start + len else start) 0 in
    let hi := Z.min (if stop <? 0 then stop + len else stop) (len - 1) in
    if hi <? lo then None else Some (lo, hi).

(** ** Opening *)

(** The body of the loop over metadata records. *)
Fixpoint rebuild_loop (items : list (result EngineError (bytes * bytes))) : M E unit :=
  match items with
  | [] => mret tt
  | item :: rest =>
      '(k, v) ← lift item;
      if negb (bool_decide (head k = Some META_PREFIX)) then rebuild_loop rest
      else
        match Meta_decode v with
        | Some meta =>
            if bool_decide (type_id meta = TYPE_HASH) || bool_decide (type_id meta = TYPE_SET) ||
               bool_decide (type_id meta = TYPE_ZSET) || bool_decide (type_id meta = TYPE_LIST)
            then _ ← versions_set (drop 1 k) (version meta); rebuild_loop rest
            else rebuild_loop rest
        | None => rebuild_loop rest
        end
  end.

Definition rebuild_version_map : M E unit :=
  _ ← versions_clear;
  items ← engine_scan_prefix [META_PREFIX];
  rebuild_loop items.

(** [with_engine]: [s] is the process's state with the opened engine; the
    version map is a new one. *)
Definition with_engine : M E unit := fun s =>
  (_ ← engine_install_gc VersionMap_predicate; rebuild_version_map)
    (with_versions s VersionMap_new).

(** ** Metadata *)

Definition load_meta (user_key : bytes) : M E (option Meta) :=
  r ← engine_get (meta_key user_key);
  match r with
  | Some raw =>
      m ← some_or (Meta_decode raw) (Corruption (B "undecodable metadata record"));
      mret (Some m)
  | None => mret None
  end.

Definition put_meta (user_key : bytes) (meta : Meta) : M E unit :=
  engine_write (batch_put WriteBatch_new (meta_key user_key) (Meta_encode meta)).

Definition logical_delete (user_key : bytes) : M E unit :=
  _ ← engine_write (batch_delete WriteBatch_new (meta_key user_key));
  versions_remove user_key.

(** [meta.expire_ms != 0 && now_ms() >= meta.expire_ms]: the clock is read only
    when there is an expiry. *)
Definition expired (meta : Meta) : M E bool :=
  if negb (expire_ms meta =? 0)
  then now ← now_ms; mret (expire_ms meta <=? now)
  else mret false.

Definition load_live_meta (user_key : bytes) : M E (option Meta) :=
  o ← load_meta user_key;
  match o with
  | None => mret None
  | Some meta =>
      x ← expired meta;
      if (x : bool) then _ ← logical_delete user_key; mret None
      else mret (Some meta)
  end.

Definition load_typed (user_key : bytes) (ty : byte) : M E (option Meta) :=
  o ← load_live_meta user_key;
  match o with
  | Some m => if decide (type_id m = ty) then mret (Some m) else throw WrongType
  | None => mret None
  end.

Definition new_composite_meta (user_key : bytes) (ty : byte) : M E Meta :=
  v ← next_version;
  _ ← versions_set user_key v;
  mret (mk_Meta ty v 0 []).

(** [match self.load_typed(key, ty)? { Some(m) => m, None => { new; set_field_count(0) } }]. *)
Definition load_or_new_counted (key : bytes) (ty : byte) : M E Meta :=
  o ← load_typed key ty;
  match o with
  | Some m => mret m
  | None => m ← new_composite_meta key ty; mret (set_field_count m 0)
  end.

(** ** Strings *)

Definition set (key value : bytes) (expire : Z) : M E unit :=
  _ ← versions_remove key;
  v ← next_version;
  put_meta key (mk_Meta TYPE_STRING v expire value).

Definition get (key : bytes) : M E (option bytes) :=
  o ← load_live_meta key;
  match o with
  | None => mret None
  | Some meta =>
      if negb (bool_decide (type_id meta = TYPE_STRING)) then throw WrongType
      else mret (Some (payload meta))
  end.

(** ** Generic operations *)

Definition is_some {A} (o : option A) : bool := match o with Some _ => true | None => false end.

Definition exists_ (key : bytes) : M E bool :=
  o ← load_live_meta key; mret (is_some o).

Definition type_of (key : bytes) : M E bytes :=
  o ← load_live_meta key;
  mret (match o with
  | Some m =>
      if decide (type_id m = TYPE_STRING) then B "string"
      else if decide (type_id m = TYPE_HASH) then B "hash"
      else if decide (type_id m = TYPE_SET) then B "set"
      else if decide (type_id m = TYPE_ZSET) then B "zset"
      else if decide (type_id m = TYPE_LIST) then B "list"
      else B "none"
  | None => B "none"
  end).

Definition del (key : bytes) : M E bool :=
  o ← load_live_meta key;
  if is_some o then _ ← logical_delete key; mret true else mret false.

Definition expire_at (key : bytes) (expire_at_ms : Z) : M E bool :=
  o ← load_live_meta key;
  match o with
  | Some meta => _ ← put_meta key (with_expire meta expire_at_ms); mret true
  | None => mret false
  end.

Definition pttl (key : bytes) : M E Z :=
  o ← load_live_meta key;
  match o with
  | None => mret (-2)
  | Some meta =>
      if expire_ms meta =? 0 then mret (-1)
      else now ← now_ms; mret (wrap_i64 (saturating_sub (expire_ms meta) now))
  end.

(** ** Hashes *)

Fixpoint hset_loop (key : bytes) (ver : Z) (pairs : list (bytes * bytes))
  (fc created : Z) (batch : WriteBatch) : M E (Z * Z * WriteBatch) :=
  match pairs with
  | [] => mret (fc, created, batch)
  | (field, value) :: rest =>
      let sk := subkey key ver field in
      existed ← engine_get sk;
      let '(fc, created) :=
        if negb (is_some existed) then (wrap_u32 (fc + 1), wrap_i64 (created + 1))
        else (fc, created) in
      hset_loop key ver rest fc created (batch_put batch sk value)
  end.

Definition hset (key : bytes) (pairs : list (bytes * bytes)) : M E Z :=
  meta ← load_or_new_counted key TYPE_HASH;
  '(fc, created, batch) ← hset_loop key (version meta) pairs (field_count meta) 0 WriteBatch_new;
  let meta := set_field_count meta fc in
  _ ← engine_write (batch_put batch (meta_key key) (Meta_encode meta));
  mret created.

Definition hget (key field : bytes) : M E (option bytes) :=
  o ← load_typed key TYPE_HASH;
  match o with
  | None => mret None
  | Some meta => engine_get (subkey key (version meta) field)
  end.

(** [for item in scan { let (k, v) = item?; out.push(f(k, v)) }]. *)
Fixpoint collect_items {A} (f : bytes -> bytes -> A)
  (items : list (result EngineError (bytes * bytes))) (out : list A) : M E (list A) :=
  match items with
  | [] => mret out
  | item :: rest =>
      '(k, v) ← lift item;
      collect_items f rest (out ++ [f k v])
  end.

Definition hgetall (key : bytes) : M E (list (bytes * bytes)) :=
  o ← load_typed key TYPE_HASH;
  match o with
  | None => mret []
  | Some meta =>
      let prefix := subkey_prefix key (version meta) in
      items ← engine_scan_prefix prefix;
      collect_items (fun k v => (drop (length prefix) k, v)) items []
  end.

Fixpoint hdel_loop (key : bytes) (ver : Z) (fields : list bytes)
  (fc removed : Z) (batch : WriteBatch) : M E (Z * Z * WriteBatch) :=
  match fields with
  | [] => mret (fc, removed, batch)
  | field :: rest =>
      let sk := subkey key ver field in
      existed ← engine_get sk;
      if is_some existed
      then hdel_loop key ver rest (saturating_sub fc 1) (wrap_i64 (removed + 1)) (batch_delete batch sk)
      else hdel_loop key ver rest fc removed batch
  end.

(** The common end of the removing operations: nothing to write, the key is
    empty, or the new count is written with the batch. *)
Definition finish_removal (key : bytes) (meta : Meta) (count removed : Z) (batch : WriteBatch) :
  M E unit :=
  if 0 <? removed then
    if count =? 0 then
      _ ← engine_write batch;
      logical_delete key
    else
      engine_write (batch_put batch (meta_key key) (Meta_encode (set_field_count meta count)))
  else mret tt.

Definition hdel (key : bytes) (fields : list bytes) : M E Z :=
  o ← load_typed key TYPE_HASH;
  match o with
  | None => mret 0
  | Some meta =>
      '(fc, removed, batch) ←
        hdel_loop key (version meta) fields (field_count meta) 0 WriteBatch_new;
      _ ← finish_removal key meta fc removed batch;
      mret removed
  end.

Definition hlen (key : bytes) : M E Z :=
  o ← load_typed key TYPE_HASH;
  mret (match o with Some m => wrap_i64 (field_count m) | None => 0 end).

Definition hexists (key field : bytes) : M E bool :=
  o ← hget key field; mret (is_some o).

(** ** Sets *)

(** [seen] is the [HashSet] of the members met in this call. *)
Fixpoint sadd_loop (key : bytes) (ver : Z) (members : list bytes)
  (seen : gset bytes) (count added : Z) (batch : WriteBatch) : M E (Z * Z * WriteBatch) :=
  match members with
  | [] => mret (count, added, batch)
  | member :: rest =>
      if decide (member ∈ seen) then sadd_loop key ver rest seen count added batch
      else
        let seen := {[ member ]} ∪ seen in
        let sk := subkey key ver member in
        existed ← engine_get sk;
        if negb (is_some existed)
        then sadd_loop key ver rest seen (wrap_u32 (count + 1)) (wrap_i64 (added + 1))
               (batch_put batch sk [])
        else sadd_loop key ver rest seen count added batch
  end.

Definition sadd (key : bytes) (members : list bytes) : M E Z :=
  meta ← load_or_new_counted key TYPE_SET;
  '(count, added, batch) ←
    sadd_loop key (version meta) members ∅ (field_count meta) 0 WriteBatch_new;
  _ ← (if 0 <? added
       then engine_write (batch_put batch (meta_key key) (Meta_encode (set_field_count meta count)))
       else mret tt);
  mret added.

Fixpoint srem_loop (key : bytes) (ver : Z) (members : list bytes)
  (seen : gset bytes) (count removed : Z) (batch : WriteBatch) : M E (Z * Z * WriteBatch) :=
  match members with
  | [] => mret (count, removed, batch)
  | member :: rest =>
      if decide (member ∈ seen) then srem_loop key ver rest seen count removed batch
      else
        let seen := {[ member ]} ∪ seen in
        let sk := subkey key ver member in
        existed ← engine_get sk;
        if is_some existed
        then srem_loop key ver rest seen (saturating_sub count 1) (wrap_i64 (removed + 1))
               (batch_delete batch sk)
        else srem_loop key ver rest seen count removed batch
  end.

Definition srem (key : bytes) (members : list bytes) : M E Z :=
  o ← load_typed key TYPE_SET;
  match o with
  | None => mret 0
  | Some meta =>
      '(count, removed, batch) ←
        srem_loop key (version meta) members ∅ (field_count meta) 0 WriteBatch_new;
      _ ← finish_removal key meta count removed batch;
      mret removed
  end.

Definition sismember (key member : bytes) : M E bool :=
  o ← load_typed key TYPE_SET;
  match o with
  | None => mret false
  | Some meta => r ← engine_get (subkey key (version meta) member); mret (is_some r)
  end.

Definition smembers (key : bytes) : M E (list bytes) :=
  o ← load_typed key TYPE_SET;
  match o with
  | None => mret []
  | Some meta =>
      let prefix := subkey_prefix key (version meta) in
      items ← engine_scan_prefix prefix;
      collect_items (fun k _ => drop (length prefix) k) items []
  end.

Definition scard (key : bytes) : M E Z :=
  o ← load_typed key TYPE_SET;
  mret (match o with Some m => wrap_i64 (field_count m) | None => 0 end).

(** ** Sorted sets *)

(** One round of the deduplication: overwrite the member's slot or append one. *)
Fixpoint upsert_score (member : bytes) (score : f64) (effective : list (bytes * f64)) :
  list (bytes * f64) :=
  match effective with
  | [] => [(member, score)]
  | (m, s) :: rest =>
      if decide (m = member) then (m, score) :: rest
      else (m, s) :: upsert_score member score rest
  end.

Definition effective_pairs (pairs : list (f64 * bytes)) : list (bytes * f64) :=
  fold_left (fun eff '(score, member) => upsert_score member score eff) pairs [].

Fixpoint zadd_loop (key : bytes) (ver : Z) (effective : list (bytes * f64))
  (count added : Z) (batch : WriteBatch) : M E (Z * Z * WriteBatch) :=
  match effective with
  | [] => mret (count, added, batch)
  | (member, score) :: rest =>
      let member_sk := subkey key ver member in
      let puts b :=
        batch_put (batch_put b member_sk (encode_score score)) (zscore_key key ver score member) [] in
      r ← engine_get member_sk;
      match r with
      | Some old_raw =>
          old_score ← lift (decode_stored_score old_raw);
          if f64_eqb old_score score then zadd_loop key ver rest count added batch
          else
            zadd_loop key ver rest count added
              (puts (batch_delete batch (zscore_key key ver old_score member)))
      | None =>
          zadd_loop key ver rest (wrap_u32 (count + 1)) (wrap_i64 (added + 1)) (puts batch)
      end
  end.

Definition zadd (key : bytes) (pairs : list (f64 * bytes)) : M E Z :=
  meta ← load_or_new_counted key TYPE_ZSET;
  '(count, added, batch) ←
    zadd_loop key (version meta) (effective_pairs pairs) (field_count meta) 0 WriteBatch_new;
  _ ← (if negb (batch_is_empty batch)
       then engine_write (batch_put batch (meta_key key) (Meta_encode (set_field_count meta count)))
       else mret tt);
  mret added.

Definition zscore (key member : bytes) : M E (option f64) :=
  o ← load_typed key TYPE_ZSET;
  match o with
  | None => mret None
  | Some meta =>
      r ← engine_get (subkey key (version meta) member);
      match r with
      | Some raw => s ← lift (decode_stored_score raw); mret (Some s)
      | None => mret None
      end
  end.

Fixpoint zrem_loop (key : bytes) (ver : Z) (members : list bytes)
  (seen : gset bytes) (count removed : Z) (batch : WriteBatch) : M E (Z * Z * WriteBatch) :=
  match members with
  | [] => mret (count, removed, batch)
  | member :: rest =>
      if decide (member ∈ seen) then zrem_loop key ver rest seen count removed batch
      else
        let seen := {[ member ]} ∪ seen in
        let sk := subkey key ver member in
        r ← engine_get sk;
        match r with
        | Some raw =>
            score ← lift (decode_stored_score raw);
            zrem_loop key ver rest seen (saturating_sub count 1) (wrap_i64 (removed + 1))
              (batch_delete (batch_delete batch sk) (zscore_key key ver score member))
        | None => zrem_loop key ver rest seen count removed batch
        end
  end.

Definition zrem (key : bytes) (members : list bytes) : M E Z :=
  o ← load_typed key TYPE_ZSET;
  match o with
  | None => mret 0
  | Some meta =>
      '(count, removed, batch) ←
        zrem_loop key (version meta) members ∅ (field_count meta) 0 WriteBatch_new;
      _ ← finish_removal key meta count removed batch;
      mret removed
  end.

Definition zcard (key : bytes) : M E Z :=
  o ← load_typed key TYPE_ZSET;
  mret (match o with Some m => wrap_i64 (field_count m) | None => 0 end).

Definition undecodable_index : EngineError := Corruption (B "undecodable zset score index").

(** The loop of [zrange]: [rank] counts the items from 0. *)
Fixpoint zrange_loop (plen : nat) (lo hi rank : Z)
  (items : list (result EngineError (bytes * bytes))) (out : list (bytes * f64)) :
  M E (list (bytes * f64)) :=
  match items with
  | [] => mret out
  | item :: rest =>
      '(k, _) ← lift item;
      if rank <? lo then zrange_loop plen lo hi (rank + 1) rest out
      else if hi <? rank then mret out
      else
        '(score, member) ← some_or (split_score_suffix (drop plen k)) undecodable_index;
        zrange_loop plen lo hi (rank + 1) rest (out ++ [(member, score)])
  end.

Definition zrange (key : bytes) (start stop : Z) : M E (list (bytes * f64)) :=
  o ← load_typed key TYPE_ZSET;
  match o with
  | None => mret []
  | Some meta =>
      let len := wrap_i64 (field_count meta) in
      match normalize_range start stop len with
      | None => mret []
      | Some (lo, hi) =>
          let prefix := zscore_prefix key (version meta) in
          items ← engine_scan_prefix prefix;
          zrange_loop (length prefix) lo hi 0 items []
      end
  end.

Fixpoint zrange_by_score_loop (plen : nat) (min : f64) (min_exclusive : bool) (max : f64)
  (max_exclusive : bool) (items : list (result EngineError (bytes * bytes)))
  (out : list (bytes * f64)) : M E (list (bytes * f64)) :=
  match items with
  | [] => mret out
  | item :: rest =>
      '(k, _) ← lift item;
      '(score, member) ← some_or (split_score_suffix (drop plen k)) undecodable_index;
      if f64_gtb score max || (max_exclusive && f64_eqb score max) then mret out
      else if f64_ltb score min || (min_exclusive && f64_eqb score min)
      then zrange_by_score_loop plen min min_exclusive max max_exclusive rest out
      else zrange_by_score_loop plen min min_exclusive max max_exclusive rest
             (out ++ [(member, score)])
  end.

Definition zrange_by_score (key : bytes) (min : f64) (min_exclusive : bool)
  (max : f64) (max_exclusive : bool) : M E (list (bytes * f64)) :=
  o ← load_typed key TYPE_ZSET;
  match o with
  | None => mret []
  | Some meta =>
      let prefix := zscore_prefix key (version meta) in
      items ← engine_scan_prefix prefix;
      zrange_by_score_loop (length prefix) min min_exclusive max max_exclusive items []
  end.

(** ** Lists *)

Definition undecodable_bounds : EngineError := Corruption (B "undecodable list bounds").
Definition missing_element : EngineError := Corruption (B "missing list element record").

Fixpoint push_loop (key : bytes) (ver : Z) (left : bool) (values : list bytes)
  (head tail : Z) (batch : WriteBatch) : Z * Z * WriteBatch :=
  match values with
  | [] => (head, tail, batch)
  | value :: rest =>
      let '(index, head, tail) :=
        if left then let h := wrap_u64 (head - 1) in (h, h, tail)
        else (tail, head, wrap_u64 (tail + 1)) in
      push_loop key ver left rest head tail
        (batch_put batch (subkey key ver (list_index_field index)) value)
  end.

Definition push (key : bytes) (values : list bytes) (left : bool) : M E Z :=
  o ← load_typed key TYPE_LIST;
  meta ←
    match o with
    | Some m => mret m
    | None =>
        m ← new_composite_meta key TYPE_LIST;
        mret (set_list_bounds m LIST_INITIAL_INDEX LIST_INITIAL_INDEX)
    end;
  '(head, tail) ← some_or (list_bounds meta) undecodable_bounds;
  let '(head, tail, batch) := push_loop key (version meta) left values head tail WriteBatch_new in
  _ ← engine_write
        (batch_put batch (meta_key key) (Meta_encode (set_list_bounds meta head tail)));
  mret (wrap_i64 (wrap_u64 (tail - head))).

(** [while out.len() < count && head < tail]: each round moves one bound towards
    the other, so [fuel = tail - head] rounds suffice. *)
Fixpoint pop_loop (fuel : nat) (key : bytes) (ver count : Z) (left : bool)
  (head tail : Z) (out : list bytes) (batch : WriteBatch) :
  M E (Z * Z * list bytes * WriteBatch) :=
  match fuel with
  | O => mret (head, tail, out, batch)
  | S fuel' =>
      if (Z.of_nat (length out) <? count) && (head <? tail) then
        let '(index, head, tail) :=
          if left then (head, wrap_u64 (head + 1), tail)
          else let t := wrap_u64 (tail - 1) in (t, head, t) in
        let sk := subkey key ver (list_index_field index) in
        r ← engine_get sk;
        value ← some_or r missing_element;
        pop_loop fuel' key ver count left head tail (out ++ [value]) (batch_delete batch sk)
      else mret (head, tail, out, batch)
  end.

Definition pop (key : bytes) (count : Z) (left : bool) : M E (list bytes) :=
  o ← load_typed key TYPE_LIST;
  match o with
  | None => mret []
  | Some meta =>
      '(head, tail) ← some_or (list_bounds meta) undecodable_bounds;
      '(head, tail, out, batch) ←
        pop_loop (Z.to_nat (tail - head)) key (version meta) count left head tail [] WriteBatch_new;
      _ ← match out with
          | [] => mret tt
          | _ :: _ =>
              if head =? tail then
                _ ← engine_write batch;
                logical_delete key
              else
                engine_write
                  (batch_put batch (meta_key key) (Meta_encode (set_list_bounds meta head tail)))
          end;
      mret out
  end.

(** [for offset in lo..=hi]. *)
Fixpoint lrange_loop (key : bytes) (ver head : Z) (offsets : list Z) (out : list bytes) :
  M E (list bytes) :=
  match offsets with
  | [] => mret out
  | offset :: rest =>
      let index := wrap_u64 (head + offset) in
      r ← engine_get (subkey key ver (list_index_field index));
      value ← some_or r missing_element;
      lrange_loop key ver head rest (out ++ [value])
  end.

Definition lrange (key : bytes) (start stop : Z) : M E (list bytes) :=
  o ← load_typed key TYPE_LIST;
  match o with
  | None => mret []
  | Some meta =>
      '(head, tail) ← some_or (list_bounds meta) undecodable_bounds;
      let len := wrap_i64 (wrap_u64 (tail - head)) in
      match normalize_range start stop len with
      | None => mret []
      | Some (lo, hi) => lrange_loop key (version meta) head (seqZ lo (hi - lo + 1)) []
      end
  end.

Definition llen (key : bytes) : M E Z :=
  o ← load_typed key TYPE_LIST;
  mret (match o with
  | Some m =>
      match list_bounds m with
      | Some (head, tail) => wrap_i64 (wrap_u64 (tail - head))
      | None => 0
      end
  | None => 0
  end).

(** ** Administration *)

(** [for item in scan { item?; n += 1 }]. *)
Fixpoint count_items (items : list (result EngineError (bytes * bytes))) (n : Z) : M E Z :=
  match items with
  | [] => mret n
  | item :: rest => _ ← lift item; count_items rest (wrap_i64 (n + 1))
  end.

Definition dbsize : M E Z :=
  items ← engine_scan_prefix [META_PREFIX]; count_items items 0.

Definition raw_subkey_count : M E Z :=
  items ← engine_scan_prefix [SUBKEY_PREFIX];
  n ← count_items items 0;
  items ← engine_scan_prefix [ZSCORE_PREFIX];
  count_items items n.

Definition compact : M E unit := engine_compact_range (Some Range_default).

(** [for item in scan { let (k, _) = item?; batch.delete(k) }]. *)
Fixpoint delete_items (items : list (result EngineError (bytes * bytes))) (b : WriteBatch) :
  M E WriteBatch :=
  match items with
  | [] => mret b
  | item :: rest => '(k, _) ← lift item; delete_items rest (batch_delete b k)
  end.

Definition flush_all : M E unit :=
  items ← engine_scan_prefix [META_PREFIX];
  b ← delete_items items WriteBatch_new;
  items ← engine_scan_prefix [SUBKEY_PREFIX];
  b ← delete_items items b;
  items ← engine_scan_prefix [ZSCORE_PREFIX];
  b ← delete_items items b;
  _ ← engine_write b;
  versions_clear.

End Store.
