(* ===== verification/StoreSpec.v ===== *)
(** * What the store promises: the abstract database

    The specification the operations of [Store] are proved to implement: a map
    from keys to typed values with an expiry, with no records, versions, batches
    or scans.  Each operation of store.rs has a pure counterpart here that
    takes the time the operation observes; [record] and [meta_of] say how a
    value is laid out in the engine's records.

    A hash carries its field count as a component of its own: the code
    maintains it separately from the fields, and the two agree only when no
    call repeats a field. *)

From S2P Require Import Prelude F64 Encoding Engine Store.

(** ** Values *)

Inductive Value : Type :=
  | StringV (v : bytes)
  | HashV (count : Z) (fields : gmap bytes bytes)
  | SetV (members : gset bytes)
  | ZSetV (scores : gmap bytes f64)
  | ListV (head : Z) (elems : list bytes).

Record Obj : Type := mk_Obj { value : Value; expiry : Z }.

Abbreviation Db := (gmap bytes Obj).

Definition value_type (v : Value) : byte :=
  match v with
  | StringV _ => TYPE_STRING
  | HashV _ _ => TYPE_HASH
  | SetV _ => TYPE_SET
  | ZSetV _ => TYPE_ZSET
  | ListV _ _ => TYPE_LIST
  end.

Definition composite (v : Value) : Prop := value_type v <> TYPE_STRING.

(** ** Layout *)

Definition value_payload (v : Value) : bytes :=
  match v with
  | StringV v => v
  | HashV c _ => u32_be c
  | SetV s => u32_be (Z.of_nat (size s))
  | ZSetV z => u32_be (Z.of_nat (size z))
  | ListV h l => u64_be h ++ u64_be (h + Z.of_nat (length l))
  end.

Definition meta_of (ver : Z) (o : Obj) : Meta :=
  mk_Meta (value_type (value o)) ver (expiry o) (value_payload (value o)).

(** The record a value keeps under family [p] with suffix [rest]. *)
Definition record (v : Value) (p : byte) (rest : bytes) : option bytes :=
  if decide (p = SUBKEY_PREFIX) then
    match v with
    | StringV _ => None
    | HashV _ h => h !! rest
    | SetV s => if decide (rest ∈ s) then Some [] else None
    | ZSetV z => encode_score <$> z !! rest
    | ListV h l =>
        if decide (length rest = 8%nat /\ h <= of_be_bytes rest)
        then l !! Z.to_nat (of_be_bytes rest - h) else None
    end
  else
    match v with
    | ZSetV z =>
        match split_score_suffix rest with
        | Some (s, m) => if decide (z !! m = Some s) then Some [] else None
        | None => None
        end
    | _ => None
    end.

(** Values the machine integers can hold. *)
Definition value_wf (v : Value) : Prop :=
  match v with
  | StringV _ => True
  | HashV c h => in_u32 c
  | SetV s => in_u32 (Z.of_nat (size s))
  | ZSetV z => in_u32 (Z.of_nat (size z)) /\ map_Forall (fun _ s => f64_num s) z
  | ListV h l => 0 <= h /\ h + Z.of_nat (length l) < 2 ^ 64 /\ Z.of_nat (length l) < 2 ^ 63
  end.

Definition obj_wf (o : Obj) : Prop := value_wf (value o) /\ in_u64 (expiry o).

(** Room for [n] more entries without an overflow of the counters. *)
Definition value_room (n : Z) (v : Value) : Prop :=
  match v with
  | StringV _ => True
  | HashV c h => c + n < 2 ^ 32
  | SetV s => Z.of_nat (size s) + n < 2 ^ 32
  | ZSetV z => Z.of_nat (size z) + n < 2 ^ 32
  | ListV h l => n <= h /\ h + Z.of_nat (length l) + n < 2 ^ 64 /\ Z.of_nat (length l) + n < 2 ^ 63
  end.

Definition room (n : Z) (o : option Obj) : Prop :=
  n < 2 ^ 32 /\ match o with Some o => value_room n (value o) | None => True end.

(** ** Expiry *)

Definition obj_expired (now : Z) (o : Obj) : Prop := expiry o <> 0 /\ expiry o <= now.
#[export] Instance obj_expired_dec now o : Decision (obj_expired now o).
Proof. unfold obj_expired; apply _. Defined.

(** The database after a key was looked at: gone if it had expired. *)
Definition purge (now : Z) (k : bytes) (d : Db) : Db :=
  match d !! k with
  | Some o => if decide (obj_expired now o) then delete k d else d
  | None => d
  end.

(** The object a key holds when it is looked at. *)
Definition live (now : Z) (k : bytes) (d : Db) : option Obj := purge now k d !! k.

(** ** Operations *)

Definition Ans (A : Type) : Type := (Db * result EngineError A)%type.

Definition on_type {A : Type} (now : Z) (ty : byte) (k : bytes) (d : Db) (missing : Db -> Ans A)
  (present : Db -> Obj -> Ans A) : Ans A :=
  let d := purge now k d in
  match d !! k with
  | None => missing d
  | Some o => if decide (value_type (value o) = ty) then present d o else (d, Err WrongType)
  end.

Definition spec_set (k v : bytes) (expire : Z) (d : Db) : Ans unit :=
  (<[k := mk_Obj (StringV v) expire]> d, Ok tt).

Definition spec_get (now : Z) (k : bytes) (d : Db) : Ans (option bytes) :=
  on_type now TYPE_STRING k d (fun d => (d, Ok None)) (fun d o =>
    (d, Ok (Some (value_payload (value o))))).

Definition spec_exists (now : Z) (k : bytes) (d : Db) : Ans bool :=
  (purge now k d, Ok (is_some (live now k d))).

Definition type_name (v : Value) : bytes :=
  match v with
  | StringV _ => B "string" | HashV _ _ => B "hash" | SetV _ => B "set"
  | ZSetV _ => B "zset" | ListV _ _ => B "list"
  end.

Definition spec_type_of (now : Z) (k : bytes) (d : Db) : Ans bytes :=
  (purge now k d, Ok (match live now k d with Some o => type_name (value o) | None => B "none" end)).

Definition spec_del (now : Z) (k : bytes) (d : Db) : Ans bool :=
  (delete k d, Ok (is_some (live now k d))).

Definition spec_expire_at (now : Z) (k : bytes) (at_ms : Z) (d : Db) : Ans bool :=
  match live now k d with
  | Some o => (<[k := mk_Obj (value o) at_ms]> d, Ok true)
  | None => (purge now k d, Ok false)
  end.

(** [now'] is the second reading, taken when there is an expiry. *)
Definition spec_pttl (now now' : Z) (k : bytes) (d : Db) : Ans Z :=
  (purge now k d,
   Ok (match live now k d with
       | None => -2
       | Some o => if decide (expiry o = 0) then -1 else wrap_i64 (saturating_sub (expiry o) now')
       end)).

(** Hashes.  A field counts as created when the hash did not hold it before the
    call. *)
Definition new_fields (h : gmap bytes bytes) (pairs : list (bytes * bytes)) : Z :=
  Z.of_nat (length (filter (fun fv => h !! fv.1 = None) pairs)).

Definition insert_pairs (h : gmap bytes bytes) (pairs : list (bytes * bytes)) : gmap bytes bytes :=
  fold_left (fun h fv => <[fv.1 := fv.2]> h) pairs h.

Definition old_fields (h : gmap bytes bytes) (fields : list bytes) : Z :=
  Z.of_nat (length (filter (fun f => is_Some (h !! f)) fields)).

Definition delete_fields {A} (h : gmap bytes A) (fields : list bytes) : gmap bytes A :=
  filter (fun fv => fv.1 ∉ fields) h.

Definition hash_of (o : option Obj) : Z * gmap bytes bytes * Z :=
  match o with
  | Some (mk_Obj (HashV c h) ex) => (c, h, ex)
  | _ => (0, ∅, 0)
  end.

Definition spec_hset (now : Z) (k : bytes) (pairs : list (bytes * bytes)) (d : Db) : Ans Z :=
  let upd d o :=
    let '(c, h, ex) := hash_of o in
    (<[k := mk_Obj (HashV (c + new_fields h pairs) (insert_pairs h pairs)) ex]> d,
     Ok (new_fields h pairs)) in
  on_type now TYPE_HASH k d (fun d => upd d None) (fun d o => upd d (Some o)).

Definition spec_hget (now : Z) (k f : bytes) (d : Db) : Ans (option bytes) :=
  on_type now TYPE_HASH k d (fun d => (d, Ok None)) (fun d o =>
    let '(_, h, _) := hash_of (Some o) in (d, Ok (h !! f))).

Definition spec_hexists (now : Z) (k f : bytes) (d : Db) : Ans bool :=
  let '(d, r) := spec_hget now k f d in (d, is_some <$> r).

Definition spec_hgetall (now : Z) (k : bytes) (d : Db) : Ans (list (bytes * bytes)) :=
  on_type now TYPE_HASH k d (fun d => (d, Ok [])) (fun d o =>
    let '(_, h, _) := hash_of (Some o) in (d, Ok (sorted_entries h))).

(** The count drops by one for every listed field the hash holds, repeats
    included; when it reaches zero the key goes. *)
Definition spec_hdel (now : Z) (k : bytes) (fields : list bytes) (d : Db) : Ans Z :=
  on_type now TYPE_HASH k d (fun d => (d, Ok 0)) (fun d o =>
    let '(c, h, ex) := hash_of (Some o) in
    let n := old_fields h fields in
    (if decide (n = 0) then d
     else if decide (saturating_sub c n = 0) then delete k d
     else <[k := mk_Obj (HashV (saturating_sub c n) (delete_fields h fields)) ex]> d,
     Ok n)).

Definition spec_hlen (now : Z) (k : bytes) (d : Db) : Ans Z :=
  on_type now TYPE_HASH k d (fun d => (d, Ok 0)) (fun d o =>
    let '(c, _, _) := hash_of (Some o) in (d, Ok c)).

(** Sets. *)
Definition set_of (o : option Obj) : gset bytes * Z :=
  match o with Some (mk_Obj (SetV s) ex) => (s, ex) | _ => (∅, 0) end.

Definition spec_sadd (now : Z) (k : bytes) (members : list bytes) (d : Db) : Ans Z :=
  let upd d o :=
    let '(s, ex) := set_of o in
    let s' := s ∪ list_to_set members in
    let added := Z.of_nat (size s') - Z.of_nat (size s) in
    (if decide (added = 0) then d else <[k := mk_Obj (SetV s') ex]> d, Ok added) in
  on_type now TYPE_SET k d (fun d => upd d None) (fun d o => upd d (Some o)).

Definition spec_srem (now : Z) (k : bytes) (members : list bytes) (d : Db) : Ans Z :=
  on_type now TYPE_SET k d (fun d => (d, Ok 0)) (fun d o =>
    let '(s, ex) := set_of (Some o) in
    let s' := s ∖ list_to_set members in
    let removed := Z.of_nat (size s) - Z.of_nat (size s') in
    (if decide (removed = 0) then d
     else if decide (s' = ∅) then delete k d
     else <[k := mk_Obj (SetV s') ex]> d, Ok removed)).

Definition spec_sismember (now : Z) (k m : bytes) (d : Db) : Ans bool :=
  on_type now TYPE_SET k d (fun d => (d, Ok false)) (fun d o =>
    (d, Ok (bool_decide (m ∈ (set_of (Some o)).1)))).

(** The elements of a set in ascending byte order. *)
Definition sorted_elements (s : gset bytes) : list bytes := merge_sort bytes_le (elements s).

Definition spec_smembers (now : Z) (k : bytes) (d : Db) : Ans (list bytes) :=
  on_type now TYPE_SET k d (fun d => (d, Ok [])) (fun d o =>
    (d, Ok (sorted_elements (set_of (Some o)).1))).

Definition spec_scard (now : Z) (k : bytes) (d : Db) : Ans Z :=
  on_type now TYPE_SET k d (fun d => (d, Ok 0)) (fun d o =>
    (d, Ok (Z.of_nat (size (set_of (Some o)).1)))).

(** Sorted sets. *)
Definition zset_of (o : option Obj) : gmap bytes f64 * Z :=
  match o with Some (mk_Obj (ZSetV z) ex) => (z, ex) | _ => (∅, 0) end.

(** The last score a call gives each member. *)
Definition latest (pairs : list (f64 * bytes)) : gmap bytes f64 :=
  fold_left (fun g sm => <[sm.2 := sm.1]> g) pairs ∅.

(** A member keeps its stored score when the new one compares equal to it. *)
Definition update_score (old new : option f64) : option f64 :=
  match old, new with
  | Some o, Some n => if f64_eqb o n then Some o else Some n
  | None, n => n
  | o, None => o
  end.

Definition zadd_scores (z : gmap bytes f64) (pairs : list (f64 * bytes)) : gmap bytes f64 :=
  merge update_score z (latest pairs).

Definition spec_zadd (now : Z) (k : bytes) (pairs : list (f64 * bytes)) (d : Db) : Ans Z :=
  let upd d o :=
    let '(z, ex) := zset_of o in
    let z' := zadd_scores z pairs in
    (if decide (z' = z) then d else <[k := mk_Obj (ZSetV z') ex]> d,
     Ok (Z.of_nat (size z') - Z.of_nat (size z))) in
  on_type now TYPE_ZSET k d (fun d => upd d None) (fun d o => upd d (Some o)).

Definition spec_zscore (now : Z) (k m : bytes) (d : Db) : Ans (option f64) :=
  on_type now TYPE_ZSET k d (fun d => (d, Ok None)) (fun d o =>
    (d, Ok ((zset_of (Some o)).1 !! m))).

Definition spec_zrem (now : Z) (k : bytes) (members : list bytes) (d : Db) : Ans Z :=
  on_type now TYPE_ZSET k d (fun d => (d, Ok 0)) (fun d o =>
    let '(z, ex) := zset_of (Some o) in
    let z' := delete_fields z members in
    let removed := Z.of_nat (size z) - Z.of_nat (size z') in
    (if decide (removed = 0) then d
     else if decide (z' = ∅) then delete k d
     else <[k := mk_Obj (ZSetV z') ex]> d, Ok removed)).

Definition spec_zcard (now : Z) (k : bytes) (d : Db) : Ans Z :=
  on_type now TYPE_ZSET k d (fun d => (d, Ok 0)) (fun d o =>
    (d, Ok (Z.of_nat (size (zset_of (Some o)).1)))).

(** The order of a sorted set: by score, then by member. *)
Definition z_le (a b : bytes * f64) : Prop :=
  bytes_le (encode_score a.2 ++ a.1) (encode_score b.2 ++ b.1).
#[export] Instance z_le_dec : RelDecision z_le.
Proof. intros a b; unfold z_le; apply _. Defined.

Definition ranked (z : gmap bytes f64) : list (bytes * f64) := merge_sort z_le (map_to_list z).

(** Elements [lo..=hi] of a list. *)
Definition sublist {A} (r : option (Z * Z)) (l : list A) : list A :=
  match r with
  | Some (lo, hi) => take (Z.to_nat (hi - lo + 1)) (drop (Z.to_nat lo) l)
  | None => []
  end.

Definition spec_zrange (now : Z) (k : bytes) (start stop : Z) (d : Db) : Ans (list (bytes * f64)) :=
  on_type now TYPE_ZSET k d (fun d => (d, Ok [])) (fun d o =>
    let z := (zset_of (Some o)).1 in
    (d, Ok (sublist (normalize_range start stop (Z.of_nat (size z))) (ranked z)))).

Definition score_in (min : f64) (min_ex : bool) (max : f64) (max_ex : bool) (s : f64) : bool :=
  negb (f64_gtb s max || (max_ex && f64_eqb s max)) &&
  negb (f64_ltb s min || (min_ex && f64_eqb s min)).

Definition spec_zrange_by_score (now : Z) (k : bytes) (min : f64) (min_ex : bool) (max : f64)
  (max_ex : bool) (d : Db) : Ans (list (bytes * f64)) :=
  on_type now TYPE_ZSET k d (fun d => (d, Ok [])) (fun d o =>
    (d, Ok (filter (fun ms => score_in min min_ex max max_ex ms.2 = true)
              (ranked (zset_of (Some o)).1)))).

(** Lists. *)
Definition list_of (o : option Obj) : Z * list bytes * Z :=
  match o with
  | Some (mk_Obj (ListV h l) ex) => (h, l, ex)
  | _ => (LIST_INITIAL_INDEX, [], 0)
  end.

Definition push_list (left : bool) (values : list bytes) (h : Z) (l : list bytes) : Value :=
  if left then ListV (h - Z.of_nat (length values)) (reverse values ++ l)
  else ListV h (l ++ values).

Definition spec_push (now : Z) (k : bytes) (values : list bytes) (left : bool) (d : Db) : Ans Z :=
  let upd d o :=
    let '(h, l, ex) := list_of o in
    (<[k := mk_Obj (push_list left values h l) ex]> d,
     Ok (Z.of_nat (length l + length values))) in
  on_type now TYPE_LIST k d (fun d => upd d None) (fun d o => upd d (Some o)).

(** The elements a pop of [n] takes, in the order it returns them, and the rest. *)
Definition popped (left : bool) (n : nat) (l : list bytes) : list bytes :=
  if left then take n l else reverse (drop (length l - n) l).
Definition pop_rest (left : bool) (n : nat) (h : Z) (l : list bytes) : Value :=
  if left then ListV (h + Z.of_nat (Nat.min n (length l))) (drop n l)
  else ListV h (take (length l - n) l).

Definition spec_pop (now : Z) (k : bytes) (count : Z) (left : bool) (d : Db) : Ans (list bytes) :=
  on_type now TYPE_LIST k d (fun d => (d, Ok [])) (fun d o =>
    let '(h, l, ex) := list_of (Some o) in
    let n := Z.to_nat (Z.min count (Z.of_nat (length l))) in
    (if decide (n = 0)%nat then d
     else if decide (n = length l) then delete k d
     else <[k := mk_Obj (pop_rest left n h l) ex]> d,
     Ok (popped left n l))).

Definition spec_lrange (now : Z) (k : bytes) (start stop : Z) (d : Db) : Ans (list bytes) :=
  on_type now TYPE_LIST k d (fun d => (d, Ok [])) (fun d o =>
    let '(_, l, _) := list_of (Some o) in
    (d, Ok (sublist (normalize_range start stop (Z.of_nat (length l))) l))).

Definition spec_llen (now : Z) (k : bytes) (d : Db) : Ans Z :=
  on_type now TYPE_LIST k d (fun d => (d, Ok 0)) (fun d o =>
    let '(_, l, _) := list_of (Some o) in (d, Ok (Z.of_nat (length l)))).

(** Administration. *)
Definition spec_dbsize (d : Db) : Ans Z := (d, Ok (Z.of_nat (size d))).
Definition spec_compact (d : Db) : Ans unit := (d, Ok tt).
Definition spec_flush_all (d : Db) : Ans unit := (∅, Ok tt).

(** The number of versioned records a value owns. *)
Definition value_records (v : Value) : Z :=
  match v with
  | StringV _ => 0
  | HashV _ h => Z.of_nat (size h)
  | SetV s => Z.of_nat (size s)
  | ZSetV z => 2 * Z.of_nat (size z)
  | ListV _ l => Z.of_nat (length l)
  end.

(** ** Removing fields *)

Lemma delete_fields_lookup {A} (h : gmap bytes A) (fields : list bytes) (f : bytes) :
  delete_fields h fields !! f = if decide (f ∈ fields) then None else h !! f.
Proof.
  unfold delete_fields. case_decide as Hf.
  - apply map_lookup_filter_None. right. intros x _ Hx. by apply Hx.
  - destruct (h !! f) as [x|] eqn:Hx.
    + by apply map_lookup_filter_Some.
    + apply map_lookup_filter_None. by left.
Qed.

Lemma delete_fields_nil {A} (h : gmap bytes A) : delete_fields h [] = h.
Proof. apply map_eq. intros f. rewrite delete_fields_lookup. by rewrite decide_False by set_solver. Qed.

Lemma delete_fields_cons {A} (h : gmap bytes A) (f : bytes) (fields : list bytes) :
  delete_fields h (f :: fields) = delete_fields (delete f h) fields.
Proof.
  apply map_eq. intros g. rewrite !delete_fields_lookup.
  destruct (decide (g = f)) as [->|Hne].
  - rewrite decide_True by left. rewrite lookup_delete_eq. by case_decide.
  - rewrite lookup_delete_ne by done.
    destruct (decide (g ∈ fields)); [rewrite decide_True by by right|rewrite decide_False by set_solver]; done.
Qed.
