(* ===== verification/StoreRep.v ===== *)
(** * The representation invariant of the store

    [rep m vm B d]: the records [m] and the version table [vm] represent the
    abstract database [d], with every version in use at most [B].  For each key
    of [d] the metadata record encodes the object, the records under the current
    version are exactly the object's, and composites are tracked at that
    version; records under other versions are garbage, and no table entry makes
    garbage look live.  [Inv] adds what the state of a running store needs: a
    clock past [B], an engine that does not fail, the installed predicate.

    Each lemma [rep_*] is one way an operation changes the store: write a batch
    of one key's records and its metadata, replace the metadata alone, register
    a fresh version, delete a key. *)

From S2P Require Import Prelude F64 Encoding Engine Gc Store StoreSpec.

(** ** Records *)

Definition family (p : byte) : Prop := p = SUBKEY_PREFIX \/ p = ZSCORE_PREFIX.

Lemma family_sub : family SUBKEY_PREFIX. Proof. by left. Qed.
Lemma family_zscore : family ZSCORE_PREFIX. Proof. by right. Qed.
#[export] Hint Resolve family_sub family_zscore : gs.

Definition no_records (m : gmap bytes bytes) (k : bytes) (v : Z) : Prop :=
  forall p rest, family p -> m !! versioned_key p k v rest = None.

(** Key [k] holds [o] under version [ver]. *)
Record key_at (m : gmap bytes bytes) (vm : version_table) (k : bytes) (ver : Z) (o : Obj) : Prop := {
  at_ver : in_u64 ver;
  at_wf : obj_wf o;
  at_meta : m !! meta_key k = Some (Meta_encode (meta_of ver o));
  at_records p rest : family p -> m !! versioned_key p k ver rest = record (value o) p rest;
  at_tracked : composite (value o) -> vm !! k = Some ver;
}.

Record key_rep (m : gmap bytes bytes) (vm : version_table) (B : Z) (k : bytes)
  (oo : option Obj) : Prop := {
  kr_obj : match oo with
           | None => m !! meta_key k = None
           | Some o => exists ver, key_at m vm k ver o /\ ver <= B
           end;
  kr_tracked v : vm !! k = Some v ->
    in_u64 v /\ v <= B /\ (no_records m k v \/ exists o, oo = Some o /\ key_at m vm k v o);
  kr_bound p v rest : family p -> in_u64 v -> is_Some (m !! versioned_key p k v rest) -> v <= B;
}.

(** A raw key the store writes. *)
Definition raw_wf (raw : bytes) : Prop :=
  (exists k, valid_key k /\ raw = meta_key k) \/
  (exists p k v rest, family p /\ valid_key k /\ in_u64 v /\ raw = versioned_key p k v rest).

Record rep (m : gmap bytes bytes) (vm : version_table) (B : Z) (d : Db) : Prop := {
  rep_key k : valid_key k -> key_rep m vm B k (d !! k);
  rep_valid k : is_Some (d !! k) -> valid_key k;
  rep_raw raw : is_Some (m !! raw) -> raw_wf raw;
}.

(** Two stores that agree on everything about key [k]. *)
Definition same_at (m m' : gmap bytes bytes) (vm vm' : version_table) (k : bytes) : Prop :=
  m' !! meta_key k = m !! meta_key k /\ vm' !! k = vm !! k /\
  forall p v rest, family p -> in_u64 v ->
    m' !! versioned_key p k v rest = m !! versioned_key p k v rest.

Lemma key_at_same m m' vm vm' k ver o :
  same_at m m' vm vm' k -> key_at m vm k ver o -> key_at m' vm' k ver o.
Proof.
  intros (Hm & Hv & Hr) []. split; [done|done|by rewrite Hm| |by rewrite Hv].
  intros. by rewrite Hr, at_records0.
Qed.

Lemma key_rep_same m m' vm vm' B B' k oo :
  same_at m m' vm vm' k -> B <= B' -> key_rep m vm B k oo -> key_rep m' vm' B' k oo.
Proof.
  intros Hs HB [Ho Ht Hb]. split.
  - destruct oo as [o|]; [|by destruct Hs as (-> & _)].
    destruct Ho as (ver & ? & ?). exists ver. split; [by eapply key_at_same|lia].
  - destruct Hs as (Hm & Hv & Hr). intros v Hvm. rewrite Hv in Hvm.
    destruct (Ht v Hvm) as (Hv64 & Hle & Hc). split; [done|]. split; [lia|].
    destruct Hc as [Hn|(o & -> & Hat)].
    + left. intros p rest Hp. rewrite Hr by done. by apply Hn.
    + right. exists o. split; [done|]. by eapply key_at_same.
  - destruct Hs as (_ & _ & Hr). intros p v rest Hp Hv. rewrite Hr by done.
    intros Hx. specialize (Hb p v rest Hp Hv Hx). lia.
Qed.

(** Changing one key: the others keep what they hold. *)
Lemma rep_change m vm B d m' vm' B' k oo :
  rep m vm B d -> valid_key k -> B <= B' ->
  (forall k', valid_key k' -> k' <> k -> same_at m m' vm vm' k') ->
  (forall raw, is_Some (m' !! raw) -> raw_wf raw) ->
  key_rep m' vm' B' k oo ->
  rep m' vm' B' (partial_alter (fun _ => oo) k d).
Proof.
  intros [Hk Hv _] Hval HB Hother Hraw Hnew. split; [| |done].
  - intros k' Hk'. destruct (decide (k' = k)) as [->|Hne].
    + by rewrite lookup_partial_alter_eq.
    + rewrite lookup_partial_alter_ne by done. eapply key_rep_same; eauto.
  - intros k'. destruct (decide (k' = k)) as [->|Hne]; [done|].
    rewrite lookup_partial_alter_ne by done. apply Hv.
Qed.

(** ** Batches *)

(** A batch over the records of [k] under [ver]. *)
Definition batch_at (k : bytes) (ver : Z) (b : WriteBatch) : Prop :=
  Forall (fun o => exists p rest, family p /\ op_key o = versioned_key p k ver rest) (ops b).

Lemma batch_at_new k ver : batch_at k ver WriteBatch_new.
Proof. constructor. Qed.

Lemma batch_at_put k ver b p rest x :
  family p -> batch_at k ver b -> batch_at k ver (batch_put b (versioned_key p k ver rest) x).
Proof. intros Hp Hb. apply Forall_app_2; [done|]. constructor; [by exists p, rest|done]. Qed.

Lemma batch_at_delete k ver b p rest :
  family p -> batch_at k ver b -> batch_at k ver (batch_delete b (versioned_key p k ver rest)).
Proof. intros Hp Hb. apply Forall_app_2; [done|]. constructor; [by exists p, rest|done]. Qed.

#[export] Hint Resolve batch_at_new batch_at_put batch_at_delete : gs.

Lemma apply_batch_other b m raw :
  Forall (fun o => op_key o <> raw) (ops b) -> apply_batch b m !! raw = m !! raw.
Proof.
  unfold apply_batch. revert m. induction (ops b) as [|o l IH]; intros m; [done|].
  intros [Ho Hl]%Forall_cons. cbn. rewrite (IH _ Hl).
  destruct o; cbn in *; [by rewrite lookup_insert_ne|by rewrite lookup_delete_ne].
Qed.

Lemma apply_batch_raw b m raw :
  is_Some (apply_batch b m !! raw) ->
  is_Some (m !! raw) \/ exists o, o ∈ ops b /\ op_key o = raw.
Proof.
  intros Hx. destruct (decide (Forall (fun o => op_key o <> raw) (ops b))) as [HF|HF].
  - rewrite apply_batch_other in Hx by done. by left.
  - right. apply not_Forall_Exists in HF; [|intros o; apply _].
    apply list.Exists_exists in HF as (o & Hin & Ho). exists o. split; [done|].
    by apply dec_stable in Ho.
Qed.

Lemma meta_versioned k p k' v rest : family p -> meta_key k <> versioned_key p k' v rest.
Proof. by intros [-> | ->] [=]. Qed.

Section Batch.
Context (k : bytes) (ver : Z) (b : WriteBatch).
Hypotheses (Hk : valid_key k) (Hver : in_u64 ver) (Hb : batch_at k ver b).

Lemma batch_at_other m p k' v rest :
  valid_key k' -> family p -> in_u64 v -> (k', v) <> (k, ver) ->
  apply_batch b m !! versioned_key p k' v rest = m !! versioned_key p k' v rest.
Proof using All.
  intros Hk' Hp Hv Hne. apply apply_batch_other. eapply List.Forall_impl; [|exact Hb].
  intros o (p' & r' & Hp' & ->) Heq. apply versioned_key_inj in Heq; [|done..]. naive_solver.
Qed.

Lemma batch_at_meta m k' : apply_batch b m !! meta_key k' = m !! meta_key k'.
Proof using Hb.
  apply apply_batch_other. eapply List.Forall_impl; [|exact Hb].
  intros o (p' & r' & Hp' & ->) Heq. by apply eq_sym, meta_versioned in Heq.
Qed.

Lemma batch_at_raw m raw :
  (forall raw, is_Some (m !! raw) -> raw_wf raw) ->
  is_Some (apply_batch b m !! raw) -> raw_wf raw.
Proof using All.
  intros Hm [Hr|(o & Ho & <-)]%apply_batch_raw; [by apply Hm|].
  unfold batch_at in Hb. rewrite list.Forall_forall in Hb.
  destruct (Hb o Ho) as (p & rest & Hp & ->). right. by exists p, k, ver, rest.
Qed.

Lemma batch_at_same m vm vm' k' :
  valid_key k' -> k' <> k -> vm' !! k' = vm !! k' -> same_at m (apply_batch b m) vm vm' k'.
Proof using All.
  intros Hk' Hne Hv. split; [apply batch_at_meta|]. split; [done|].
  intros. apply batch_at_other; [done..|]. congruence.
Qed.

End Batch.

Lemma meta_key_inj k1 k2 : meta_key k1 = meta_key k2 -> k1 = k2.
Proof. by intros [=]. Qed.

#[export] Instance meta_key_inj' : Inj eq eq meta_key := meta_key_inj.

(** Writing or deleting one metadata record. *)
Lemma same_at_meta m m' vm vm' k x k' :
  k' <> k -> same_at m m' vm vm' k' ->
  same_at m (partial_alter (fun _ => x) (meta_key k) m') vm vm' k'.
Proof.
  intros Hne (Hm & Hv & Hr). split.
  - rewrite lookup_partial_alter_ne; [done|]. by intros ?%meta_key_inj.
  - split; [done|]. intros p v rest Hp Hv64.
    rewrite lookup_partial_alter_ne by (by apply meta_versioned). by apply Hr.
Qed.

Lemma raw_wf_meta (m : gmap bytes bytes) k x raw :
  valid_key k -> (forall raw, is_Some (m !! raw) -> raw_wf raw) ->
  is_Some (partial_alter (fun _ => x) (meta_key k) m !! raw) -> raw_wf raw.
Proof.
  intros Hk Hm. destruct (decide (raw = meta_key k)) as [->|Hne].
  - intros _. left. by exists k.
  - rewrite lookup_partial_alter_ne by done. apply Hm.
Qed.

(** The version can be read off a metadata record. *)
Lemma meta_of_version_inj v1 v2 o1 o2 :
  in_u64 v1 -> in_u64 v2 -> Meta_encode (meta_of v1 o1) = Meta_encode (meta_of v2 o2) -> v1 = v2.
Proof.
  intros H1 H2 H. apply (f_equal (fun l => take 8 (drop 1 l))) in H. revert H.
  unfold Meta_encode. cbn [drop meta_of Encoding.version]. rewrite !drop_0.
  rewrite !take_app_length' by (by rewrite length_be_bytes). by apply u64_be_inj.
Qed.

(** ** The ways the store changes *)

(** A batch of one key's records with its new metadata. *)
Lemma rep_update m vm B d k ver b o :
  rep m vm B d -> valid_key k -> vm !! k = Some ver -> batch_at k ver b ->
  (forall p rest, family p -> apply_batch b m !! versioned_key p k ver rest = record (value o) p rest) ->
  obj_wf o ->
  rep (<[meta_key k := Meta_encode (meta_of ver o)]> (apply_batch b m)) vm B (<[k := o]> d).
Proof.
  intros Hrep Hk Hvm Hb Hrec Hwf.
  destruct (kr_tracked _ _ _ _ _ (rep_key _ _ _ _ Hrep k Hk) ver Hvm) as (Hver & Hle & _).
  assert (Hat : key_at (<[meta_key k := Meta_encode (meta_of ver o)]> (apply_batch b m)) vm k ver o).
  { split; [done|done|by rewrite lookup_insert_eq| |done].
    intros p rest Hp. rewrite lookup_insert_ne by (by apply meta_versioned). by apply Hrec. }
  apply (rep_change m vm B d); [done|done|lia| | |].
  - intros k' Hk' Hne. apply same_at_meta; [done|]. by apply (batch_at_same k ver).
  - intros raw. apply raw_wf_meta; [done|]. intros raw'. apply (batch_at_raw k ver b); [done..|].
    by apply (rep_raw _ _ _ _ Hrep).
  - split.
    + by exists ver.
    + intros v Hv. rewrite Hvm in Hv. injection Hv as <-. split_and!; [done..|]. right. eauto.
    + intros p v rest Hp Hv64. rewrite lookup_insert_ne by (by apply meta_versioned).
      destruct (decide (v = ver)) as [->|Hne]; [done|].
      rewrite (batch_at_other k ver) by (try done; congruence).
      by apply (kr_bound _ _ _ _ _ (rep_key _ _ _ _ Hrep k Hk)).
Qed.

(** New metadata over the same records: another expiry, say. *)
Lemma rep_meta m vm B d k ver o o' :
  rep m vm B d -> valid_key k -> ver <= B -> key_at m vm k ver o ->
  value o' = value o -> obj_wf o' ->
  rep (<[meta_key k := Meta_encode (meta_of ver o')]> m) vm B (<[k := o']> d).
Proof.
  intros Hrep Hk Hle Hat Hval Hwf.
  assert (Hat' : key_at (<[meta_key k := Meta_encode (meta_of ver o')]> m) vm k ver o').
  { destruct Hat as [? ? ? Hr Ht]. split; [done|done|by rewrite lookup_insert_eq| |by rewrite Hval].
    intros p rest Hp. rewrite lookup_insert_ne by (by apply meta_versioned).
    rewrite Hval. by apply Hr. }
  apply (rep_change m vm B d); [done|done|lia| | |].
  - intros k' Hk' Hne. by apply same_at_meta.
  - intros raw. apply raw_wf_meta; [done|]. apply (rep_raw _ _ _ _ Hrep).
  - destruct (rep_key _ _ _ _ Hrep k Hk) as [Ho Ht Hbd]. split.
    + eauto.
    + intros v Hv. destruct (Ht v Hv) as (? & ? & Hc). split_and!; [done..|].
      destruct (decide (v = ver)) as [->|Hne]; [right; eauto|]. left.
      intros p rest Hp. rewrite lookup_insert_ne by (by apply meta_versioned).
      destruct Hc as [Hn|(o2 & _ & Hat2)]; [by apply Hn|].
      destruct Hne. pose proof (at_meta _ _ _ _ _ Hat2) as H1.
      rewrite (at_meta _ _ _ _ _ Hat) in H1. apply (inj Some) in H1.
      apply meta_of_version_inj in H1; [done|by destruct Hat|by destruct Hat2].
    + intros p v rest Hp Hv64. rewrite lookup_insert_ne by (by apply meta_versioned).
      by apply Hbd.
Qed.

(** A string under a fresh version; the key is no longer tracked. *)
Lemma rep_string m vm B d k ver o v :
  rep m vm B d -> valid_key k -> B < ver -> in_u64 ver -> value o = StringV v -> obj_wf o ->
  rep (<[meta_key k := Meta_encode (meta_of ver o)]> m) (delete k vm) ver (<[k := o]> d).
Proof.
  intros Hrep Hk Hlt Hver Hval Hwf.
  destruct (rep_key _ _ _ _ Hrep k Hk) as [_ _ Hbd].
  assert (Hnone : no_records m k ver).
  { intros p rest Hp. apply eq_None_not_Some. intros Hx. specialize (Hbd p ver rest Hp Hver Hx). lia. }
  apply (rep_change m vm B d); [done|done|lia| | |].
  - intros k' Hk' Hne. apply same_at_meta; [done|]. split; [done|]. split; [|done].
    by rewrite lookup_delete_ne.
  - intros raw. apply raw_wf_meta; [done|]. apply (rep_raw _ _ _ _ Hrep).
  - split.
    + exists ver. split; [|lia]. split; [done|done|by rewrite lookup_insert_eq| |].
      * intros p rest Hp. rewrite lookup_insert_ne by (by apply meta_versioned).
        rewrite Hnone, Hval by done. unfold record. by repeat case_decide.
      * rewrite Hval. intros Hc. by destruct Hc.
    + intros v'. by rewrite lookup_delete_eq.
    + intros p v' rest Hp Hv64. rewrite lookup_insert_ne by (by apply meta_versioned).
      intros Hx. specialize (Hbd p v' rest Hp Hv64 Hx). lia.
Qed.

(** Registering a fresh version for a missing key changes nothing yet. *)
Lemma rep_new m vm B d k ver :
  rep m vm B d -> valid_key k -> B < ver -> in_u64 ver -> d !! k = None ->
  rep m (<[k := ver]> vm) ver d /\ no_records m k ver.
Proof.
  intros Hrep Hk Hlt Hver Hd.
  destruct (rep_key _ _ _ _ Hrep k Hk) as [Ho _ Hbd].
  assert (Hnone : no_records m k ver).
  { intros p rest Hp. apply eq_None_not_Some. intros Hx. specialize (Hbd p ver rest Hp Hver Hx). lia. }
  split; [|done]. rewrite Hd in Ho.
  rewrite <- (delete_id d k Hd) at 1. apply (rep_change m vm B d); [done|done|lia| | |].
  - intros k' Hk' Hne. split; [done|]. split; [|done]. by rewrite lookup_insert_ne.
  - apply (rep_raw _ _ _ _ Hrep).
  - split.
    + done.
    + intros v. rewrite lookup_insert_eq. intros [= <-]. split_and!; [done|done|by left].
    + intros p v rest Hp Hv Hx. specialize (Hbd p v rest Hp Hv Hx). lia.
Qed.

(** Deleting a key's metadata and dropping its version, after a batch of its
    records or none. *)
Lemma rep_delete m vm B d k ver b :
  rep m vm B d -> valid_key k -> in_u64 ver -> ver <= B -> batch_at k ver b ->
  rep (delete (meta_key k) (apply_batch b m)) (delete k vm) B (delete k d).
Proof.
  intros Hrep Hk Hver Hle Hb.
  apply (rep_change m vm B d); [done|done|lia| | |].
  - intros k' Hk' Hne. apply same_at_meta; [done|]. apply (batch_at_same k ver); [done..|].
    by rewrite lookup_delete_ne.
  - intros raw. apply raw_wf_meta; [done|]. intros raw'. apply (batch_at_raw k ver b); [done..|].
    apply (rep_raw _ _ _ _ Hrep).
  - split.
    + by rewrite lookup_delete_eq.
    + intros v. by rewrite lookup_delete_eq.
    + intros p v rest Hp Hv64. rewrite lookup_delete_ne by (by apply meta_versioned).
      destruct (decide (v = ver)) as [->|Hne]; [done|].
      rewrite (batch_at_other k ver) by (try done; congruence).
      by apply (kr_bound _ _ _ _ _ (rep_key _ _ _ _ Hrep k Hk)).
Qed.

Lemma rep_empty B : rep ∅ ∅ B ∅.
Proof.
  split.
  - intros k Hk. split; [by rewrite lookup_empty|intros v; by rewrite lookup_empty|].
    intros p v rest _ _ [? Hx]. by rewrite lookup_empty in Hx.
  - intros k [? Hx]. by rewrite lookup_empty in Hx.
  - intros k [? Hx]. by rewrite lookup_empty in Hx.
Qed.
