(* ===== verification/StoreInv.v ===== *)
(** * The invariant of a running store, and what loading a key does

    [Inv s d]: the store in state [s] represents the abstract database [d], its
    version clock is past every version in use, its engine does not fail and
    runs the store's predicate.  [refines m s a]: the computation [m] started in
    [s] returns, with the answer of [a], in a state that represents the
    database of [a].

    The lemmas here cover the steps the operations share: reading the clock,
    taking a version, loading a key's metadata under lazy expiry, committing a
    batch, deleting a key. *)

From S2P Require Import Prelude F64 Encoding Engine Gc Store StoreSpec StoreRep.

Section Inv.
Context {E : Type} `{EngineLaws E}.

Abbreviation St := (State E).
Abbreviation records s := (contents (engine s)).

(** The version clock will give versions above [B]: because it is there
    already, or, after a restart, because the wall clock is. *)
Definition fresh_above (s : St) (B : Z) : Prop :=
  B <= VERSION_CLOCK s \/ forall i, (tick s <= i)%nat -> B < as_micros (Z.max 0 (clock s i)).

Record Inv_at (B : Z) (s : St) (d : Db) : Prop := {
  inv_rep : rep (records s) (versions s) B d;
  inv_bound : 0 <= B <= u64_max;
  inv_clock : in_u64 (VERSION_CLOCK s);
  inv_fresh : fresh_above s B;
  inv_reliable : reliable (engine s);
  inv_installed : installed (engine s) = Some VersionMap_predicate;
}.

Definition Inv (s : St) (d : Db) : Prop := exists B, Inv_at B s d.

(** What an operation leaves alone. *)
Definition later (s s' : St) : Prop := clock s' = clock s /\ (tick s <= tick s')%nat.

#[export] Instance later_preorder : PreOrder later.
Proof.
  split; [done|]. intros s1 s2 s3 [H1 H2] [H3 H4]. split; [congruence|lia].
Qed.

Definition refines {A} (m : M E A) (s : St) (a : Ans A) : Prop :=
  exists s', m s = (s', a.2) /\ Inv s' a.1 /\ later s s'.

(** The time the next reading of the clock gives. *)
Definition peek_ms (s : St) : Z := as_millis (Z.max 0 (clock s (tick s))).

Definition now_micros_at (s : St) : Z := as_micros (Z.max 0 (clock s (tick s))).

(** The version clock has not run out: versions are microseconds, so this holds
    for half a million years. *)
Definition clock_left (s : St) : Prop := VERSION_CLOCK s < u64_max.

(** ** Sequencing *)

Lemma bind_ok {A C} (m : M E A) (f : A -> M E C) s s' a :
  m s = (s', Ok a) -> (m ≫= f) s = f a s'.
Proof. unfold mbind, M_bind. by intros ->. Qed.

Lemma bind_err {A C} (m : M E A) (f : A -> M E C) s s' e :
  m s = (s', Err e) -> (m ≫= f) s = (s', Err e).
Proof. unfold mbind, M_bind. by intros ->. Qed.

(** ** Primitive calls *)

Lemma engine_get_ok s k : reliable (engine s) -> engine_get k s = (s, Ok (records s !! k)).
Proof. intros Hr. unfold engine_get. by rewrite reliable_get. Qed.

Lemma engine_scan_ok s p :
  reliable (engine s) ->
  engine_scan_prefix p s = (s, Ok (Ok <$> scan_entries p (records s))).
Proof. intros Hr. unfold engine_scan_prefix. by rewrite reliable_scan. Qed.

Lemma engine_write_ok s b :
  reliable (engine s) ->
  exists e, engine_write b s = (with_engine_state s e, Ok tt) /\
    contents e = apply_batch b (records s) /\ reliable e /\ installed e = installed (engine s).
Proof.
  intros Hr. unfold engine_write. destruct (reliable_write (engine s) b Hr) as (e & Hw & He).
  exists e. rewrite Hw. split_and!; [done|by apply write_ok|done|].
  pose proof (write_installed (engine s) b) as Hi. by rewrite Hw in Hi.
Qed.

(** ** The clock *)

Lemma as_micros_range z : in_u64 (as_micros z).
Proof. unfold as_micros, wrap_u64, in_u64. apply Z.mod_pos_bound. lia. Qed.
Lemma as_millis_range z : in_u64 (as_millis z).
Proof. unfold as_millis, wrap_u64, in_u64. apply Z.mod_pos_bound. lia. Qed.

Definition ticked (s : St) : St :=
  mk_State (engine s) (versions s) (VERSION_CLOCK s) (clock s) (S (tick s)).

Lemma now_ms_eq s : now_ms s = (ticked s, Ok (peek_ms s)).
Proof. done. Qed.

Lemma later_ticked s : later s (ticked s).
Proof. split; [done|]. cbn. lia. Qed.

Lemma Inv_ticked B s d : Inv_at B s d -> Inv_at B (ticked s) d.
Proof.
  intros [? ? ? Hf ? ?]. split; [done..| |done|done].
  destruct Hf as [Hf|Hf]; [by left|]. right. intros i Hi. apply Hf. cbn in Hi. lia.
Qed.

(** Taking a version: above every version in use, and the clock is there. *)
Lemma next_version_ok B s d :
  Inv_at B s d -> clock_left s ->
  exists s' v, next_version s = (s', Ok v) /\ B < v /\ in_u64 v /\ VERSION_CLOCK s < v /\
    VERSION_CLOCK s' = v /\ engine s' = engine s /\ versions s' = versions s /\ later s s'.
Proof.
  intros [_ HB Hc Hf _ _] Hl. unfold next_version.
  pose proof (as_micros_range (Z.max 0 (clock s (tick s)))) as Hm.
  set (v := Z.max (VERSION_CLOCK s + 1) (as_micros (Z.max 0 (clock s (tick s))))).
  exists (mk_State (engine s) (versions s) v (clock s) (S (tick s))), v.
  unfold clock_left, u64_max, in_u64 in *.
  assert (Hv : v = Z.max (wrap_u64 (VERSION_CLOCK s + 1)) (as_micros (Z.max 0 (clock s (tick s))))).
  { unfold v, wrap_u64. by rewrite Z.mod_small by lia. }
  assert (HBv : B < v).
  { unfold v. destruct Hf as [?|Hf]; [lia|]. specialize (Hf (tick s)). lia. }
  split; [by rewrite Hv|]. split; [done|]. 
  assert (Hvr : 0 <= v < 2 ^ 64) by (unfold v; lia).
  split; [done|]. split; [unfold v; lia|]. do 3 (split; [done|]). split; [done|]. cbn; lia.
Qed.

(** ** Deleting and committing *)

Lemma Inv_step B s s' d d' :
  Inv_at B s d -> later s s' -> VERSION_CLOCK s' = VERSION_CLOCK s ->
  rep (records s') (versions s') B d' -> reliable (engine s') ->
  installed (engine s') = installed (engine s) -> Inv_at B s' d'.
Proof.
  intros [_ HB Hc Hf _ Hi] [Hck Htk] Hvc Hrep Hr Hi'. split; [done|done|by rewrite Hvc| |done|congruence].
  unfold fresh_above. rewrite Hvc, Hck. destruct Hf as [Hf|Hf]; [by left|].
  right. intros i Hl. apply Hf. lia.
Qed.

Lemma later_engine s e : later s (with_engine_state s e).
Proof. done. Qed.

(** Writing a batch of a key's records, then deleting the key. *)
Lemma delete_after_write B s d k ver b :
  Inv_at B s d -> valid_key k -> in_u64 ver -> ver <= B -> batch_at k ver b ->
  exists s', (_ ← engine_write b; logical_delete k) s = (s', Ok tt) /\
    Inv_at B s' (delete k d) /\ later s s' /\ VERSION_CLOCK s' = VERSION_CLOCK s.
Proof.
  intros HI Hk Hver Hle Hb.
  destruct (engine_write_ok s b (inv_reliable _ _ _ HI)) as (e1 & Hw1 & Hc1 & Hr1 & Hi1).
  set (s1 := with_engine_state s e1) in *.
  destruct (engine_write_ok s1 (batch_delete WriteBatch_new (meta_key k)) Hr1)
    as (e2 & Hw2 & Hc2 & Hr2 & Hi2).
  exists (with_versions (with_engine_state s1 e2) (VersionMap_remove (versions s) k)).
  split_and!; [|apply (Inv_step B s _ d); [done..| | |]|done|done].
  - rewrite (bind_ok _ _ _ _ _ Hw1). unfold logical_delete. by rewrite (bind_ok _ _ _ _ _ Hw2).
  - change (rep (contents e2) (delete k (versions s)) B (delete k d)).
    change (contents (engine s1)) with (contents e1) in Hc2.
    rewrite Hc2, apply_batch_delete, apply_batch_new, Hc1.
    by apply (rep_delete (records s) _ _ _ _ ver); [apply HI|..].
  - done.
  - cbn in *. congruence.
Qed.

Lemma logical_delete_ok B s d k :
  Inv_at B s d -> valid_key k ->
  exists s', logical_delete k s = (s', Ok tt) /\
    Inv_at B s' (delete k d) /\ later s s' /\ VERSION_CLOCK s' = VERSION_CLOCK s.
Proof.
  intros HI Hk.
  destruct (engine_write_ok s (batch_delete WriteBatch_new (meta_key k)) (inv_reliable _ _ _ HI))
    as (e & Hw & Hc & Hr & Hi).
  exists (with_versions (with_engine_state s e) (VersionMap_remove (versions s) k)).
  split_and!; [|apply (Inv_step B s _ d); [done..| | |]|done|done].
  - unfold logical_delete. by rewrite (bind_ok _ _ _ _ _ Hw).
  - change (rep (contents e) (delete k (versions s)) B (delete k d)).
    rewrite Hc, apply_batch_delete, apply_batch_new.
    pose proof (inv_bound _ _ _ HI).
    apply (rep_delete (records s) _ _ _ _ 0 WriteBatch_new); [apply HI|done| |lia|apply batch_at_new].
    unfold in_u64; lia.
  - done.
  - cbn in *. congruence.
Qed.

(** Key [k] is open at version [ver] with the records of [v]: it holds [v], or
    it is new and [v] is empty. *)
Definition key_open (s : St) (k : bytes) (ver : Z) (v : Value) : Prop :=
  in_u64 ver /\ versions s !! k = Some ver /\
  forall p rest, family p -> records s !! versioned_key p k ver rest = record v p rest.

Lemma key_open_bound B s d k ver v :
  Inv_at B s d -> valid_key k -> key_open s k ver v -> ver <= B.
Proof.
  intros HI Hk (_ & Hvm & _).
  by destruct (kr_tracked _ _ _ _ _ (rep_key _ _ _ _ (inv_rep _ _ _ HI) k Hk) ver Hvm) as (_ & ? & _).
Qed.

Lemma key_at_open s k ver o :
  key_at (records s) (versions s) k ver o -> composite (value o) -> key_open s k ver (value o).
Proof. intros [] Hc. split_and!; auto. Qed.

(** A batch that takes the records of the key from [v] to those of [v']. *)
Definition batch_to (s : St) (k : bytes) (ver : Z) (b : WriteBatch) (v' : Value) : Prop :=
  batch_at k ver b /\
  forall p rest, family p ->
    apply_batch b (records s) !! versioned_key p k ver rest = record v' p rest.

Lemma batch_to_new s k ver v : key_open s k ver v -> batch_to s k ver WriteBatch_new v.
Proof. intros (? & ? & Hr). split; [apply batch_at_new|done]. Qed.

(** One more record in the batch. *)
Lemma versioned_key_rest p1 p2 k ver r1 r2 :
  versioned_key p1 k ver r1 = versioned_key p2 k ver r2 -> p1 = p2 /\ r1 = r2.
Proof.
  unfold versioned_key. intros [= -> Hr]. split; [done|].
  repeat (apply app_inv_head in Hr; try done).
Qed.

Lemma batch_to_put s k ver b v v' p rest x :
  family p -> batch_to s k ver b v ->
  (forall p' r, family p' ->
     record v' p' r = if decide (p' = p /\ r = rest) then Some x else record v p' r) ->
  batch_to s k ver (batch_put b (versioned_key p k ver rest) x) v'.
Proof.
  intros Hp [Hb Hto] Hrec. split; [by apply batch_at_put|].
  intros p' r Hp'. rewrite apply_batch_put, Hrec by done. case_decide as Heq.
  - destruct Heq as [-> ->]. apply lookup_insert_eq.
  - rewrite lookup_insert_ne; [by apply Hto|].
    intros [-> ->]%versioned_key_rest. by destruct Heq.
Qed.

Lemma batch_to_delete s k ver b v v' p rest :
  family p -> batch_to s k ver b v ->
  (forall p' r, family p' ->
     record v' p' r = if decide (p' = p /\ r = rest) then None else record v p' r) ->
  batch_to s k ver (batch_delete b (versioned_key p k ver rest)) v'.
Proof.
  intros Hp [Hb Hto] Hrec. split; [by apply batch_at_delete|].
  intros p' r Hp'. rewrite apply_batch_delete, Hrec by done. case_decide as Heq.
  - destruct Heq as [-> ->]. apply lookup_delete_eq.
  - rewrite lookup_delete_ne; [by apply Hto|].
    intros [-> ->]%versioned_key_rest. by destruct Heq.
Qed.

(** Writing such a batch with the new metadata. *)
Lemma commit_ok B s d k ver v b o :
  Inv_at B s d -> valid_key k -> key_open s k ver v -> batch_to s k ver b (value o) -> obj_wf o ->
  refines (engine_write (batch_put b (meta_key k) (Meta_encode (meta_of ver o)))) s
    (<[k := o]> d, Ok tt).
Proof.
  intros HI Hk (Hver & Hvm & _) [Hb Hto] Hwf.
  destruct (engine_write_ok s (batch_put b (meta_key k) (Meta_encode (meta_of ver o)))
    (inv_reliable _ _ _ HI)) as (e & Hw & Hc & Hr & Hi).
  exists (with_engine_state s e). split_and!; [done| |done].
  exists B. apply (Inv_step B s _ d); try done.
  change (rep (contents e) (versions s) B (<[k := o]> d)). rewrite Hc, apply_batch_put. by apply rep_update; [apply HI|..].
Qed.

(** ** Loading a key *)

Lemma Meta_decode_of ver o : in_u64 ver -> obj_wf o -> Meta_decode (Meta_encode (meta_of ver o)) = Some (meta_of ver o).
Proof. intros Hv [_ He]. by apply Meta_decode_encode. Qed.

Lemma load_meta_ok B s d k :
  Inv_at B s d -> valid_key k ->
  match d !! k with
  | None => load_meta k s = (s, Ok None)
  | Some o => exists ver, load_meta k s = (s, Ok (Some (meta_of ver o))) /\
      key_at (records s) (versions s) k ver o /\ ver <= B
  end.
Proof.
  intros HI Hk. pose proof (kr_obj _ _ _ _ _ (rep_key _ _ _ _ (inv_rep _ _ _ HI) k Hk)) as Ho.
  unfold load_meta. rewrite (bind_ok _ _ _ _ _ (engine_get_ok s _ (inv_reliable _ _ _ HI))).
  destruct (d !! k) as [o|].
  - destruct Ho as (ver & Hat & Hle). exists ver. split; [|done].
    rewrite (at_meta _ _ _ _ _ Hat). unfold some_or.
    rewrite Meta_decode_of by apply Hat. done.
  - by rewrite Ho.
Qed.

Lemma load_live_ok B s d k :
  Inv_at B s d -> valid_key k ->
  exists s', Inv_at B s' (purge (peek_ms s) k d) /\ later s s' /\
    VERSION_CLOCK s' = VERSION_CLOCK s /\
    match live (peek_ms s) k d with
    | None => load_live_meta k s = (s', Ok None)
    | Some o => exists ver, load_live_meta k s = (s', Ok (Some (meta_of ver o))) /\
        key_at (records s') (versions s') k ver o /\ ver <= B /\ d !! k = Some o /\
        s' = if decide (expiry o = 0) then s else ticked s
    end.
Proof.
  intros HI Hk. pose proof (load_meta_ok B s d k HI Hk) as Hload.
  unfold live, purge, load_live_meta. destruct (d !! k) as [o|] eqn:Hd.
  - destruct Hload as (ver & Hl & Hat & Hle). rewrite (bind_ok _ _ _ _ _ Hl).
    unfold expired. cbn [expire_ms meta_of].
    destruct (Z.eqb_spec (expiry o) 0) as [He|He]; cbn [negb].
    + exists s. rewrite decide_False by (unfold obj_expired; lia). split_and!; [done..|].
      rewrite Hd. exists ver. by rewrite decide_True.
    + destruct (decide (obj_expired (peek_ms s) o)) as [Hx|Hx].
      * destruct (logical_delete_ok B (ticked s) d k (Inv_ticked _ _ _ HI) Hk)
          as (s' & Hdel & HI' & Hlat & Hvc).
        exists s'. split_and!; [done|transitivity (ticked s); [apply later_ticked|done]|done|].
        rewrite lookup_delete_eq. erewrite bind_ok.
        2:{ rewrite (bind_ok _ _ _ _ _ (now_ms_eq s)). unfold mret, M_ret.
            replace (expiry o <=? peek_ms s) with true
              by (symmetry; apply Z.leb_le; apply Hx). done. }
        cbn iota. by rewrite (bind_ok _ _ _ _ _ Hdel).
      * exists (ticked s). split_and!; [by apply Inv_ticked|by apply later_ticked|done|].
        rewrite Hd. exists ver. rewrite decide_False by done. split_and!; [|done..].
        erewrite bind_ok.
        2:{ rewrite (bind_ok _ _ _ _ _ (now_ms_eq s)). unfold mret, M_ret.
            replace (expiry o <=? peek_ms s) with false
              by (symmetry; apply Z.leb_gt; unfold obj_expired in Hx; lia). done. }
        done.
  - exists s. rewrite Hd. by rewrite (bind_ok _ _ _ _ _ Hload).
Qed.

Lemma refines_later {A} (m : M E A) s s1 a (m0 : M E A) :
  later s s1 -> m0 s = m s1 -> refines m s1 a -> refines m0 s a.
Proof.
  intros Hl Heq (s' & Hm & HI & Hl'). exists s'.
  split_and!; [congruence|done|by transitivity s1].
Qed.

Lemma refines_ret {A} B s d (a : A) : Inv_at B s d -> refines (mret a) s (d, Ok a).
Proof. intros HI. exists s. split_and!; [done|by exists B|done]. Qed.

Lemma refines_then {A C} (m : M E A) (f : A -> M E C) s d a (c : Ans C) :
  refines m s (d, Ok a) ->
  (forall s' B, Inv_at B s' d -> later s s' -> refines (f a) s' c) ->
  refines (m ≫= f) s c.
Proof.
  intros (s' & Hm & [B HI] & Hl) Hf. cbn in *.
  apply (refines_later (f a) s s'); [done|by rewrite (bind_ok _ _ _ _ _ Hm)|]. by eapply Hf.
Qed.

(** An operation that loads a key of a given type behaves as its specification
    if its two continuations do. *)
Lemma load_typed_refines {A : Type} (B : Z) (s : St) (d : Db) (k : bytes) (ty : byte) (f : option Meta -> M E A) (missing : Db -> Ans A) (present : Db -> Obj -> Ans A) :
  Inv_at B s d -> valid_key k ->
  (forall s1 d1, Inv_at B s1 d1 -> later s s1 -> VERSION_CLOCK s1 = VERSION_CLOCK s ->
     d1 = purge (peek_ms s) k d -> d1 !! k = None -> refines (f None) s1 (missing d1)) ->
  (forall s1 d1 ver o, Inv_at B s1 d1 -> later s s1 -> d1 = purge (peek_ms s) k d ->
     d1 !! k = Some o -> value_type (value o) = ty ->
     key_at (records s1) (versions s1) k ver o -> d !! k = Some o ->
     refines (f (Some (meta_of ver o))) s1 (present d1 o)) ->
  refines (load_typed k ty ≫= f) s (on_type (peek_ms s) ty k d missing present).
Proof.
  intros HI Hk Hmiss Hpres. unfold on_type.
  destruct (load_live_ok B s d k HI Hk) as (s1 & HI1 & Hl1 & Hvc & Hcase).
  fold (live (peek_ms s) k d). destruct (live (peek_ms s) k d) as [o|] eqn:Hlive.
  - destruct Hcase as (ver & Hload & Hat & Hle & Hd & _).
    assert (Ht : load_typed k ty s =
      if decide (value_type (value o) = ty) then (s1, Ok (Some (meta_of ver o)))
      else (s1, Err WrongType)).
    { unfold load_typed. rewrite (bind_ok _ _ _ _ _ Hload). cbn [type_id meta_of].
      by destruct (decide _). }
    destruct (decide (value_type (value o) = ty)) as [Hty|Hty].
    + apply (refines_later (f (Some (meta_of ver o))) s s1); [done|by rewrite (bind_ok _ _ _ _ _ Ht)|].
      by apply Hpres.
    + exists s1. rewrite (bind_err _ _ _ _ _ Ht). split_and!; [done|by exists B|apply Hl1..].
  - assert (Ht : load_typed k ty s = (s1, Ok None)).
    { unfold load_typed. by rewrite (bind_ok _ _ _ _ _ Hcase). }
    apply (refines_later (f None) s s1); [done|by rewrite (bind_ok _ _ _ _ _ Ht)|].
    by apply Hmiss.
Qed.

(** Registering a new key: a fresh version with no records. *)
Lemma new_composite_ok B s d k ty v :
  Inv_at B s d -> valid_key k -> clock_left s -> d !! k = None ->
  (forall p rest, family p -> record v p rest = None) ->
  exists s' B' ver, new_composite_meta k ty s = (s', Ok (mk_Meta ty ver 0 [])) /\
    Inv_at B' s' d /\ later s s' /\ key_open s' k ver v.
Proof.
  intros HI Hk Hc Hd Hrec.
  destruct (next_version_ok B s d HI Hc) as (s1 & ver & Hn & HB & Hver & Hlt & Hvc & He & Hv & Hl).
  exists (with_versions s1 (VersionMap_set (versions s1) k ver)), ver, ver.
  destruct (rep_new (records s) (versions s) B d k ver (inv_rep _ _ _ HI) Hk HB Hver Hd) as [Hrep Hno].
  split_and!.
  - unfold new_composite_meta. by rewrite (bind_ok _ _ _ _ _ Hn).
  - pose proof (inv_bound _ _ _ HI) as Hb. split; cbn.
    + by rewrite He, Hv.
    + unfold in_u64, u64_max in *. lia.
    + by rewrite Hvc.
    + left. cbn. by rewrite Hvc.
    + rewrite He. apply HI.
    + rewrite He. apply HI.
  - apply Hl.
  - split; [done|]. split; [apply lookup_insert_eq|]. intros p rest Hp. cbn. rewrite He, Hrec by done. by apply Hno.
Qed.

(** The operations that create the key when it is missing. *)
Lemma load_or_new_refines {A : Type} (B : Z) (s : St) (d : Db) (k : bytes) (ty : byte) (v0 : Value) (f : Meta -> M E A) (upd : Db -> Obj -> Ans A) :
  Inv_at B s d -> valid_key k -> clock_left s ->
  value_type v0 = ty -> composite v0 -> (forall p rest, family p -> record v0 p rest = None) ->
  (forall ver, meta_of ver (mk_Obj v0 0) = set_field_count (mk_Meta ty ver 0 []) 0) ->
  (forall s1 B1 d1 ver o, Inv_at B1 s1 d1 -> later s s1 -> d1 = purge (peek_ms s) k d ->
     default (mk_Obj v0 0) (d1 !! k) = o -> value_type (value o) = ty ->
     key_open s1 k ver (value o) -> (obj_wf o \/ o = mk_Obj v0 0) ->
     (d !! k = Some o \/ o = mk_Obj v0 0) ->
     refines (f (meta_of ver o)) s1 (upd d1 o)) ->
  refines (load_or_new_counted k ty ≫= f) s
    (on_type (peek_ms s) ty k d (fun d => upd d (mk_Obj v0 0)) upd).
Proof.
  intros HI Hk Hc Hty Hcomp Hrec Hmeta Hf.
  assert (Hassoc : (load_or_new_counted k ty ≫= f) s =
    (load_typed k ty ≫= fun o => match o with
      | Some m => f m
      | None => m ← new_composite_meta k ty; f (set_field_count m 0) end) s).
  { unfold load_or_new_counted, mbind, M_bind.
    destruct (load_typed k ty s) as [s1 [[m|]|e]]; [done| |done].
    by destruct (new_composite_meta k ty s1) as [s2 [m|e]]. }
  eapply refines_later; [done|exact Hassoc|].
  apply (load_typed_refines B); [done|done| |].
  - intros s1 d1 HI1 Hl1 Hvc Hd1 Hnone.
    destruct (new_composite_ok B s1 d1 k ty v0 HI1 Hk) as (s2 & B2 & ver & Hn & HI2 & Hl2 & Hop);
      [unfold clock_left in *; by rewrite Hvc|done|done|].
    apply (refines_later (f (set_field_count (mk_Meta ty ver 0 []) 0)) s1 s2); [done|by rewrite (bind_ok _ _ _ _ _ Hn)|].
    rewrite <- Hmeta. apply (Hf _ B2 _ _ _ HI2); [by transitivity s1|done|by rewrite Hnone|done|done|by right|by right].
  - intros s1 d1 ver o HI1 Hl1 Hd1 Ho Hot Hat Hd. apply (Hf _ B _ _ _ HI1); [done|done|by rewrite Ho|done| |by left; apply Hat|by left].
    apply key_at_open; [done|]. unfold composite in *. congruence.
Qed.

(** How the removing operations end: a batch that removes [removed] entries and
    leaves the count at [count]. *)
Lemma finish_removal_ok B s d k ver v b o count removed :
  Inv_at B s d -> valid_key k -> key_open s k ver v ->
  (removed <> 0 -> batch_to s k ver b (value o)) -> 0 <= removed ->
  forall m, set_field_count m count = meta_of ver o -> obj_wf o ->
  refines (finish_removal k m count removed b) s
    (if decide (removed = 0) then d else if decide (count = 0) then delete k d else <[k := o]> d, Ok tt).
Proof.
  intros HI Hk Hop Hto Hrem m Hm Hwf. unfold finish_removal.
  destruct (Z.ltb_spec 0 removed) as [Hlt|Hge].
  - rewrite decide_False by lia. specialize (Hto ltac:(lia)).
    destruct (Z.eqb_spec count 0) as [->|Hne].
    + rewrite decide_True by done.
      destruct (delete_after_write B s d k ver b HI Hk) as (s' & Hd & HI' & Hl & _);
        [apply Hop|by eapply key_open_bound|apply Hto|].
      exists s'. split_and!; [done|by exists B|done].
    + rewrite decide_False by done. rewrite Hm. by eapply commit_ok.
  - rewrite decide_True by lia. by eapply refines_ret.
Qed.

(** Reading one subkey of an open key. *)
Lemma get_field (s : St) (k : bytes) (ver : Z) (v : Value) (f : bytes) :
  reliable (engine s) -> key_open s k ver v ->
  engine_get (subkey k ver f) s = (s, Ok (record v SUBKEY_PREFIX f)).
Proof.
  intros Hr (_ & _ & Hrec). rewrite engine_get_ok by done.
  by rewrite subkey_versioned, Hrec by auto with gs.
Qed.

(** Collecting the items of a scan that did not fail. *)
Lemma collect_items_ok {A : Type} (f : bytes -> bytes -> A) l out (s : St) :
  collect_items f (Ok <$> l) out s = (s, Ok (out ++ ((fun kv => f kv.1 kv.2) <$> l))).
Proof.
  revert out. induction l as [|[x y] l IH]; intros out; cbn; [by rewrite app_nil_r|].
  unfold lift, mbind, M_bind. rewrite IH. by rewrite <- (assoc_L (++)).
Qed.

(** Scanning the subkeys of an open key. *)
Lemma scan_subkeys (s : St) (k : bytes) (ver : Z) (h : gmap bytes bytes) :
  (forall f : bytes, records s !! (subkey_prefix k ver ++ f) = h !! f) ->
  (fun kv : bytes * bytes => (drop (length (subkey_prefix k ver)) kv.1, kv.2)) <$>
    scan_entries (subkey_prefix k ver) (records s) = sorted_entries h.
Proof. apply scan_entries_strip. Qed.

End Inv.
