(* ===== verification/StoreGeneric.v ===== *)
(** * Strings, keys and expiry: the operations implement their specifications

    [set], [get], [exists], [type_of], [del], [expire_at] and [pttl] of store.rs
    against [StoreSpec]. *)

From S2P Require Import Prelude F64 Encoding Engine Gc Store StoreSpec StoreRep StoreInv.

Section Generic.
Context {E : Type} `{EngineLaws E}.

Abbreviation St := (State E).
Abbreviation records s := (contents (engine s)).
Implicit Types (k f v : bytes) (d : Db) (s : St) (B now : Z) (o : Obj).

Lemma load_live_refines {A : Type} (B : Z) (s : St) (d : Db) (k : bytes)
  (f : option Meta -> M E A) (a : Ans A) :
  Inv_at B s d -> valid_key k ->
  (forall s1, Inv_at B s1 (purge (peek_ms s) k d) -> later s s1 ->
     live (peek_ms s) k d = None -> refines (f None) s1 a) ->
  (forall s1 ver o, Inv_at B s1 (purge (peek_ms s) k d) -> later s s1 ->
     VERSION_CLOCK s1 = VERSION_CLOCK s -> live (peek_ms s) k d = Some o ->
     key_at (records s1) (versions s1) k ver o -> ver <= B ->
     s1 = (if decide (expiry o = 0) then s else ticked s) ->
     refines (f (Some (meta_of ver o))) s1 a) ->
  refines (load_live_meta k ≫= f) s a.
Proof.
  intros HI Hk Hnone Hsome.
  destruct (load_live_ok B s d k HI Hk) as (s1 & HI1 & Hl1 & Hvc & Hcase).
  destruct (live (peek_ms s) k d) as [o|].
  - destruct Hcase as (ver & Hload & Hat & Hle & _ & Hs1).
    apply (refines_later (f (Some (meta_of ver o))) s s1); [done|by rewrite (bind_ok _ _ _ _ _ Hload)|].
    by eapply Hsome.
  - apply (refines_later (f None) s s1); [done|by rewrite (bind_ok _ _ _ _ _ Hcase)|]. by apply Hnone.
Qed.

(** Deleting after a purge is deleting. *)
Lemma delete_purge now k (d : Db) : delete k (purge now k d) = delete k d.
Proof.
  unfold purge. destruct (d !! k) as [o|]; [|done].
  destruct (decide _); [|done]. apply delete_delete_eq.
Qed.

Lemma insert_purge now k o (d : Db) : <[k := o]> (purge now k d) = <[k := o]> d.
Proof. by rewrite <- (insert_delete_eq (purge now k d)), delete_purge, insert_delete_eq. Qed.

Lemma purge_live_some now k (d : Db) o : live now k d = Some o -> purge now k d = d.
Proof.
  unfold live, purge. destruct (d !! k) as [o'|] eqn:Hd; [|done].
  destruct (decide _); [by rewrite lookup_delete_eq|done].
Qed.

Lemma purge_live_none now k (d : Db) : live now k d = None -> purge now k d = delete k d.
Proof. unfold live. intros Hn. by rewrite <- (delete_purge now), delete_id. Qed.

Lemma set_refines B s d k v expire :
  Inv_at B s d -> valid_key k -> clock_left s -> in_u64 expire ->
  refines (set k v expire) s (spec_set k v expire d).
Proof.
  intros HI Hk Hc He. unfold set.
  set (s0 := with_versions s (VersionMap_remove (versions s) k)).
  assert (HI0 : fresh_above s0 B) by apply HI.
  destruct (next_version_ok B s d HI Hc) as (s1 & ver & Hn & HB & Hver & _ & Hvc & Heng & Hvs & Hl).
  (* the removal commutes with taking the version *)
  assert (Hn0 : next_version s0 = (with_versions s1 (delete k (versions s)), Ok ver)).
  { clear -Hn. unfold next_version, now_micros, bump_version_clock, mbind, M_bind, read_clock in *.
    cbn in *. by injection Hn as <- <-. }
  set (s2 := with_versions s1 (delete k (versions s))) in *.
  assert (Hr2 : reliable (engine s2)) by (cbn; rewrite Heng; apply HI).
  set (b := batch_put WriteBatch_new (meta_key k) (Meta_encode (mk_Meta TYPE_STRING ver expire v))).
  destruct (engine_write_ok s2 b Hr2) as (e & Hw & Hcon & Hre & Hin).
  exists (with_engine_state s2 e). split_and!.
  - rewrite (bind_ok (versions_remove k) _ s s0 tt eq_refl), (bind_ok _ _ _ _ _ Hn0). exact Hw.
  - exists ver. pose proof (inv_bound _ _ _ HI) as Hb. split.
    + change (rep (contents e) (delete k (versions s)) ver (<[k := mk_Obj (StringV v) expire]> d)).
      unfold b in Hcon. rewrite Hcon, apply_batch_put, apply_batch_new. cbn. rewrite Heng.
      change (mk_Meta TYPE_STRING ver expire v) with (meta_of ver (mk_Obj (StringV v) expire)).
      by apply (rep_string (records s) (versions s) B d k ver _ v); [apply HI|..].
    + unfold in_u64, u64_max in *. lia.
    + cbn. by rewrite Hvc.
    + left. cbn. by rewrite Hvc.
    + done.
    + cbn in *. rewrite Hin, Heng. apply HI.
  - done.
Qed.

Lemma get_refines B s d k :
  Inv_at B s d -> valid_key k -> refines (get k) s (spec_get (peek_ms s) k d).
Proof.
  intros HI Hk. unfold get. apply (load_live_refines B s d k); [done..| |].
  - intros s1 HI1 _ Hn. unfold spec_get, on_type. fold (live (peek_ms s) k d). rewrite Hn.
    by eapply refines_ret.
  - intros s1 ver o HI1 _ _ Ho Hat _ _. unfold spec_get, on_type.
    fold (live (peek_ms s) k d). rewrite Ho. cbn [type_id payload meta_of].
    case_bool_decide as Ht; cbn [negb]; [rewrite decide_True by done|rewrite decide_False by done].
    + by eapply refines_ret.
    + exists s1. split_and!; [done|by exists B|done].
Qed.

Lemma exists_refines B s d k :
  Inv_at B s d -> valid_key k -> refines (exists_ k) s (spec_exists (peek_ms s) k d).
Proof.
  intros HI Hk. unfold exists_, spec_exists. apply (load_live_refines B s d k); [done..| |].
  - intros s1 HI1 _ ->. by eapply refines_ret.
  - intros s1 ver o HI1 _ _ -> _ _ _. by eapply refines_ret.
Qed.

Lemma type_of_refines B s d k :
  Inv_at B s d -> valid_key k -> refines (type_of k) s (spec_type_of (peek_ms s) k d).
Proof.
  intros HI Hk. unfold type_of, spec_type_of. apply (load_live_refines B s d k); [done..| |].
  - intros s1 HI1 _ ->. by eapply refines_ret.
  - intros s1 ver o HI1 _ _ -> _ _ _. cbn [type_id meta_of].
    destruct (value o); cbn [value_type type_name]; repeat case_decide;
      first [done|by eapply refines_ret].
Qed.

Lemma del_refines B s d k :
  Inv_at B s d -> valid_key k -> refines (del k) s (spec_del (peek_ms s) k d).
Proof.
  intros HI Hk. unfold del, spec_del. apply (load_live_refines B s d k); [done..| |].
  - intros s1 HI1 _ Hn. rewrite Hn. rewrite (purge_live_none _ _ _ Hn) in HI1. by eapply refines_ret.
  - intros s1 ver o HI1 _ _ Ho _ _ _. rewrite Ho. cbn [is_some].
    destruct (logical_delete_ok B s1 _ k HI1 Hk) as (s2 & Hdel & HI2 & Hl2 & _).
    rewrite delete_purge in HI2. exists s2.
    rewrite (bind_ok _ _ _ _ _ Hdel). split_and!; [done|by exists B|done].
Qed.

Lemma expire_at_refines B s d k at_ms :
  Inv_at B s d -> valid_key k -> in_u64 at_ms ->
  refines (expire_at k at_ms) s (spec_expire_at (peek_ms s) k at_ms d).
Proof.
  intros HI Hk Ha. unfold expire_at, spec_expire_at. apply (load_live_refines B s d k); [done..| |].
  - intros s1 HI1 _ Hn. rewrite Hn. by eapply refines_ret.
  - intros s1 ver o HI1 _ _ Ho Hat Hle _. rewrite Ho.
    set (o' := mk_Obj (value o) at_ms).
    change (with_expire (meta_of ver o) at_ms) with (meta_of ver o').
    destruct (engine_write_ok s1 (batch_put WriteBatch_new (meta_key k) (Meta_encode (meta_of ver o')))
      (inv_reliable _ _ _ HI1)) as (e & Hw & Hc & Hr & Hi).
    exists (with_engine_state s1 e). unfold put_meta. rewrite (bind_ok _ _ _ _ _ Hw).
    split_and!; [done| |done]. exists B. cbn [fst].
    rewrite <- (insert_purge (peek_ms s)).
    apply (Inv_step B s1 _ (purge (peek_ms s) k d)); try done.
    change (rep (contents e) (versions s1) B (<[k := o']> (purge (peek_ms s) k d))).
    rewrite Hc, apply_batch_put, apply_batch_new.
    apply (rep_meta _ _ _ _ _ _ o); try done; [apply HI1|]. split; [apply Hat|done].
Qed.

(** The second reading: [pttl] reads the clock again when there is an expiry. *)
Definition peek_ms2 (s : St) : Z := peek_ms (ticked s).

Lemma pttl_refines B s d k :
  Inv_at B s d -> valid_key k -> refines (pttl k) s (spec_pttl (peek_ms s) (peek_ms2 s) k d).
Proof.
  intros HI Hk. unfold pttl, spec_pttl. apply (load_live_refines B s d k); [done..| |].
  - intros s1 HI1 _ Hn. rewrite Hn. by eapply refines_ret.
  - intros s1 ver o HI1 _ _ Ho _ _ Hs1. rewrite Ho. cbn [expire_ms meta_of].
    destruct (Z.eqb_spec (expiry o) 0) as [He|He].
    + rewrite decide_True by done. by eapply refines_ret.
    + rewrite decide_False by done. destruct (decide (expiry o = 0)) in Hs1; [done|]. subst s1.
      exists (ticked (ticked s)). rewrite (bind_ok _ _ _ _ _ (now_ms_eq (ticked s))).
      split_and!; [done|exists B; by apply Inv_ticked|apply later_ticked].
Qed.

End Generic.
