(* ===== verification/StoreHash.v ===== *)
(** * Hashes: the operations implement their specifications

    [hset], [hget], [hgetall], [hdel], [hlen] and [hexists] of store.rs. *)

From S2P Require Import Prelude F64 Encoding Engine Gc Store StoreSpec StoreRep StoreInv.

Section Hash.
Context {E : Type} `{EngineLaws E}.

Abbreviation St := (State E).
Abbreviation records s := (contents (engine s)).
Implicit Types (k f x : bytes) (d : Db) (s : St) (B now c ver : Z) (o : Obj) (h : gmap bytes bytes).

Lemma record_hash_sub c h f : record (HashV c h) SUBKEY_PREFIX f = h !! f.
Proof. done. Qed.

Lemma record_hash_insert c c' h f x p r :
  family p ->
  record (HashV c' (<[f := x]> h)) p r =
  if decide (p = SUBKEY_PREFIX /\ r = f) then Some x else record (HashV c h) p r.
Proof.
  intros [-> | ->]; unfold record.
  - rewrite decide_True by done. destruct (decide (r = f)) as [->|Hne].
    + rewrite decide_True by done. apply lookup_insert_eq.
    + rewrite decide_False by naive_solver. rewrite decide_True by done. by apply lookup_insert_ne.
  - done.
Qed.

Lemma record_hash_delete c c' h f p r :
  family p ->
  record (HashV c' (delete f h)) p r =
  if decide (p = SUBKEY_PREFIX /\ r = f) then None else record (HashV c h) p r.
Proof.
  intros [-> | ->]; unfold record.
  - rewrite decide_True by done. destruct (decide (r = f)) as [->|Hne].
    + rewrite decide_True by done. apply lookup_delete_eq.
    + rewrite decide_False by naive_solver. rewrite decide_True by done. by apply lookup_delete_ne.
  - done.
Qed.

Lemma new_fields_cons h f x pairs :
  new_fields h ((f, x) :: pairs) = (if h !! f is Some _ then 0 else 1) + new_fields h pairs.
Proof.
  unfold new_fields. destruct (h !! f) eqn:Hf.
  - rewrite filter_cons_False by (cbn; by rewrite Hf). lia.
  - rewrite filter_cons_True by done. cbn [length]. lia.
Qed.

Lemma new_fields_bound h pairs : 0 <= new_fields h pairs <= Z.of_nat (length pairs).
Proof. unfold new_fields. pose proof (length_filter (fun fv => h !! fv.1 = None) pairs). lia. Qed.

Lemma hset_loop_ok s k ver c h pairs :
  reliable (engine s) -> key_open s k ver (HashV c h) ->
  forall fc created b hcur,
  batch_to s k ver b (HashV c hcur) ->
  0 <= fc -> fc + Z.of_nat (length pairs) < 2 ^ 32 ->
  0 <= created -> created + Z.of_nat (length pairs) < 2 ^ 32 ->
  exists b',
    hset_loop k ver pairs fc created b s =
      (s, Ok (fc + new_fields h pairs, created + new_fields h pairs, b')) /\
    batch_to s k ver b' (HashV c (insert_pairs hcur pairs)).
Proof.
  intros Hr Hop. induction pairs as [|[f x] pairs IH]; intros fc created b hcur Hto Hf1 Hf2 Hc1 Hc2.
  - exists b. cbn. by rewrite !Z.add_0_r.
  - cbn [length] in Hf2, Hc2. rewrite new_fields_cons. cbn [hset_loop].
    rewrite (bind_ok _ _ _ _ _ (get_field s k ver _ f Hr Hop)), record_hash_sub.
    assert (Hto' : batch_to s k ver (batch_put b (subkey k ver f) x) (HashV c (<[f := x]> hcur))).
    { rewrite subkey_versioned. eapply batch_to_put; [auto with gs|exact Hto|].
      intros. by apply record_hash_insert. }
    destruct (h !! f); cbn [is_some negb].
    + destruct (IH fc created _ _ Hto') as (b' & Hl & Hb'); [lia..|].
      exists b'. by rewrite Hl.
    + rewrite wrap_u32_small, wrap_i64_small by (unfold in_u32, in_i64; lia).
      destruct (IH (fc + 1) (created + 1) _ _ Hto') as (b' & Hl & Hb'); [lia..|].
      exists b'. rewrite Hl. split; [|done]. do 4 f_equal; lia.
Qed.

Lemma field_count_hash c h ver ex : in_u32 c -> field_count (meta_of ver (mk_Obj (HashV c h) ex)) = c.
Proof. intros. by apply (field_count_set (mk_Meta TYPE_HASH ver ex [])). Qed.

Lemma hset_refines B s d k pairs :
  Inv_at B s d -> valid_key k -> clock_left s -> room (Z.of_nat (length pairs)) (d !! k) ->
  refines (hset k pairs) s (spec_hset (peek_ms s) k pairs d).
Proof.
  intros HI Hk Hc [Hlen Hroom].
  refine (load_or_new_refines B s d k TYPE_HASH (HashV 0 ∅) _ (fun d o =>
    let '(c, h, ex) := hash_of (Some o) in
    (<[k := mk_Obj (HashV (c + new_fields h pairs) (insert_pairs h pairs)) ex]> d,
     Ok (new_fields h pairs))) HI Hk Hc _ _ _ _ _); [done|done|by intros p r [-> | ->]|done|].
  intros s1 B1 d1 ver o HI1 _ _ _ Hty Hop Hwf Ho. destruct o as [[|c h| | |] ex]; try done.
  cbn [hash_of value] in *.
  assert (Hcr : in_u32 c /\ in_u64 ex /\ c + Z.of_nat (length pairs) < 2 ^ 32).
  { destruct Hwf as [[? ?]|[= -> -> ->]]; [|by unfold in_u32, in_u64; lia].
    split; [done|]. split; [done|]. destruct Ho as [Ho|[= -> -> ->]]; [|lia].
    rewrite Ho in Hroom. exact Hroom. }
  destruct Hcr as (Hc32 & Hex & Hlt). unfold in_u32 in Hc32.
  rewrite field_count_hash by done. pose proof (new_fields_bound h pairs) as Hn.
  destruct (hset_loop_ok s1 k ver c h pairs (inv_reliable _ _ _ HI1) Hop c 0 WriteBatch_new h)
    as (b & Hl & Hb); [by apply batch_to_new|lia..|].
  change (version (meta_of ver (mk_Obj (HashV c h) ex))) with ver.
  eapply refines_later; [done|by rewrite (bind_ok _ _ _ _ _ Hl)|]. cbv beta iota.
  eapply refines_then.
  - change (set_field_count (meta_of ver (mk_Obj (HashV c h) ex)) (c + new_fields h pairs))
      with (meta_of ver (mk_Obj (HashV (c + new_fields h pairs) (insert_pairs h pairs)) ex)).
    eapply commit_ok; [done..| |split; [|done]; cbn; unfold in_u32; lia].
    exact Hb.
  - intros s2 B2 HI2 _. rewrite Z.add_0_l. by eapply refines_ret.
Qed.

Lemma hget_refines B s d k f :
  Inv_at B s d -> valid_key k -> refines (hget k f) s (spec_hget (peek_ms s) k f d).
Proof.
  intros HI Hk. apply (load_typed_refines B); [done..| |].
  - intros s1 d1 HI1 _ _ _ _. by eapply refines_ret.
  - intros s1 d1 ver o HI1 _ _ _ Hty Hat _. destruct o as [[|c h| | |] ex]; try done.
    exists s1. cbn [version meta_of hash_of].
    rewrite (get_field s1 k ver (HashV c h)) by
      (first [apply HI1|by apply (key_at_open s1 k ver (mk_Obj (HashV c h) ex))]).
    split_and!; [done|by exists B|done].
Qed.

Lemma hexists_refines B s d k f :
  Inv_at B s d -> valid_key k -> refines (hexists k f) s (spec_hexists (peek_ms s) k f d).
Proof.
  intros HI Hk. destruct (hget_refines B s d k f HI Hk) as (s1 & Hg & HI1 & Hl).
  unfold hexists, spec_hexists. destruct (spec_hget (peek_ms s) k f d) as [d1 [r|e]]; cbn in *.
  - exists s1. by rewrite (bind_ok _ _ _ _ _ Hg).
  - exists s1. by rewrite (bind_err _ _ _ _ _ Hg).
Qed.

Lemma hgetall_refines B s d k :
  Inv_at B s d -> valid_key k -> refines (hgetall k) s (spec_hgetall (peek_ms s) k d).
Proof.
  intros HI Hk. apply (load_typed_refines B); [done..| |].
  - intros s1 d1 HI1 _ _ _ _. by eapply refines_ret.
  - intros s1 d1 ver o HI1 _ _ _ Hty Hat _. destruct o as [[|c h| | |] ex]; try done.
    exists s1. cbn [version meta_of hash_of].
    rewrite (bind_ok _ _ _ _ _ (engine_scan_ok s1 _ (inv_reliable _ _ _ HI1))).
    rewrite collect_items_ok. cbn [app].
    rewrite (scan_subkeys s1 k ver h); [split_and!; [done|by exists B|done]|].
    intros f. rewrite subkey_prefix_versioned, (at_records _ _ _ _ _ Hat) by auto with gs. done.
Qed.

Lemma hlen_refines B s d k :
  Inv_at B s d -> valid_key k -> refines (hlen k) s (spec_hlen (peek_ms s) k d).
Proof.
  intros HI Hk. apply (load_typed_refines B); [done..| |].
  - intros s1 d1 HI1 _ _ _ _. by eapply refines_ret.
  - intros s1 d1 ver o HI1 _ _ _ Hty Hat _. destruct o as [[|c h| | |] ex]; try done.
    destruct (at_wf _ _ _ _ _ Hat) as [Hc _]. cbn in Hc. unfold in_u32 in Hc. cbn [hash_of].
    rewrite field_count_hash, wrap_i64_small by (unfold in_u32, in_i64; lia).
    by eapply refines_ret.
Qed.

Lemma old_fields_cons h f fields :
  old_fields h (f :: fields) = (if h !! f is Some _ then 1 else 0) + old_fields h fields.
Proof.
  unfold old_fields. destruct (h !! f) eqn:Hf.
  - rewrite filter_cons_True by (rewrite Hf; eauto). cbn [length]. lia.
  - rewrite filter_cons_False by (rewrite Hf; by intros [? [=]]). lia.
Qed.

Lemma old_fields_nonneg h fields : 0 <= old_fields h fields.
Proof. unfold old_fields. lia. Qed.

Lemma saturating_sub_sub c a b : 0 <= a -> 0 <= b ->
  saturating_sub (saturating_sub c a) b = saturating_sub c (a + b).
Proof. unfold saturating_sub. lia. Qed.

(** The reads of the loop see the hash as it was before the call. *)
Lemma hdel_loop_ok s k ver c h fields :
  reliable (engine s) -> key_open s k ver (HashV c h) ->
  forall fc removed b hcur,
  batch_to s k ver b (HashV c hcur) -> (forall f, h !! f = None -> hcur !! f = None) ->
  0 <= fc -> 0 <= removed -> removed + Z.of_nat (length fields) < 2 ^ 32 ->
  exists b',
    hdel_loop k ver fields fc removed b s =
      (s, Ok (saturating_sub fc (old_fields h fields), removed + old_fields h fields, b')) /\
    batch_to s k ver b' (HashV c (delete_fields hcur fields)).
Proof.
  intros Hr Hop. induction fields as [|f fields IH]; intros fc removed b hcur Hto Hsub Hfc Hr1 Hr2.
  - exists b. cbn. rewrite Z.add_0_r, delete_fields_nil.
    replace (saturating_sub fc (old_fields h [])) with fc
      by (unfold saturating_sub, old_fields; cbn; lia). done.
  - cbn [length] in Hr2. rewrite old_fields_cons, delete_fields_cons. cbn [hdel_loop].
    rewrite (bind_ok _ _ _ _ _ (get_field s k ver _ f Hr Hop)), record_hash_sub.
    destruct (h !! f) eqn:Hf; cbn [is_some].
    + assert (Hto' : batch_to s k ver (batch_delete b (subkey k ver f)) (HashV c (delete f hcur))).
      { rewrite subkey_versioned. eapply batch_to_delete; [auto with gs|exact Hto|].
        intros. by apply record_hash_delete. }
      rewrite wrap_i64_small by (unfold in_i64; lia).
      destruct (IH (saturating_sub fc 1) (removed + 1) _ _ Hto') as (b' & Hl & Hb');
        [|unfold saturating_sub; lia|lia..|].
      { intros g Hg. destruct (decide (g = f)) as [->|]; [apply lookup_delete_eq|].
        rewrite lookup_delete_ne by done. by apply Hsub. }
      exists b'. rewrite Hl. split; [|done].
      pose proof (old_fields_nonneg h fields). rewrite saturating_sub_sub by lia. do 4 f_equal; lia.
    + rewrite delete_id by by apply Hsub.
      destruct (IH fc removed _ _ Hto Hsub) as (b' & Hl & Hb'); [lia..|].
      exists b'. by rewrite Hl.
Qed.

Lemma hdel_refines B s d k fields :
  Inv_at B s d -> valid_key k -> Z.of_nat (length fields) < 2 ^ 32 ->
  refines (hdel k fields) s (spec_hdel (peek_ms s) k fields d).
Proof.
  intros HI Hk Hlen. apply (load_typed_refines B); [done..| |].
  - intros s1 d1 HI1 _ _ _ _. by eapply refines_ret.
  - intros s1 d1 ver o HI1 _ _ _ Hty Hat _. destruct o as [[|c h| | |] ex]; try done.
    destruct (at_wf _ _ _ _ _ Hat) as [Hc Hex]. cbn in Hc. unfold in_u32 in Hc.
    assert (Hop : key_open s1 k ver (HashV c h))
      by by apply (key_at_open s1 k ver (mk_Obj (HashV c h) ex)).
    destruct (hdel_loop_ok s1 k ver c h fields (inv_reliable _ _ _ HI1) Hop c 0 WriteBatch_new h)
      as (b & Hl & Hb); [by apply batch_to_new|done|lia..|].
    cbn [hash_of]. rewrite field_count_hash by done. cbn [version meta_of].
    eapply refines_later; [done|by rewrite (bind_ok _ _ _ _ _ Hl)|]. cbv beta iota.
    rewrite Z.add_0_l. set (n := old_fields h fields) in *. set (c' := saturating_sub c n) in *.
    pose proof (old_fields_nonneg h fields) as Hn. fold n in Hn.
    eapply refines_then.
    + apply (finish_removal_ok B s1 d1 k ver (HashV c h) b
        (mk_Obj (HashV c' (delete_fields h fields)) ex)); [done..|lia|done|].
      split; [|done]. cbn. unfold c', saturating_sub, in_u32. lia.
    + intros s2 B2 HI2 _. by eapply refines_ret.
Qed.

End Hash.
