(* ===== verification/StoreSet.v ===== *)
(** * Sets: the operations implement their specifications

    [sadd], [srem], [sismember], [smembers] and [scard] of store.rs. *)

From S2P Require Import Prelude F64 Encoding Engine Gc Store StoreSpec StoreRep StoreInv.

Section Sets.
Context {E : Type} `{EngineLaws E}.

Abbreviation St := (State E).
Abbreviation records s := (contents (engine s)).
Implicit Types (k f x m : bytes) (d : Db) (s : St) (B now ver : Z) (o : Obj) (u seen : gset bytes).

Lemma record_set_sub u f : record (SetV u) SUBKEY_PREFIX f = if decide (f ∈ u) then Some [] else None.
Proof. done. Qed.

Lemma record_set_add u f p r :
  family p ->
  record (SetV ({[ f ]} ∪ u)) p r =
  if decide (p = SUBKEY_PREFIX /\ r = f) then Some [] else record (SetV u) p r.
Proof.
  intros [-> | ->]; [|done]. rewrite !record_set_sub.
  destruct (decide (r = f)) as [->|Hne].
  - rewrite !decide_True by set_solver. done.
  - rewrite (decide_False (P := SUBKEY_PREFIX = SUBKEY_PREFIX /\ r = f)) by naive_solver.
    destruct (decide (r ∈ u)); [rewrite decide_True by set_solver|rewrite decide_False by set_solver]; done.
Qed.

Lemma record_set_remove u f p r :
  family p ->
  record (SetV (u ∖ {[ f ]})) p r =
  if decide (p = SUBKEY_PREFIX /\ r = f) then None else record (SetV u) p r.
Proof.
  intros [-> | ->]; [|done]. rewrite !record_set_sub.
  destruct (decide (r = f)) as [->|Hne].
  - rewrite decide_False, decide_True by set_solver. done.
  - rewrite (decide_False (P := SUBKEY_PREFIX = SUBKEY_PREFIX /\ r = f)) by naive_solver.
    destruct (decide (r ∈ u)); [rewrite decide_True by set_solver|rewrite decide_False by set_solver]; done.
Qed.

Lemma size_add_list u (l : list bytes) :
  Z.of_nat (size u) <= Z.of_nat (size (u ∪ list_to_set l)) <= Z.of_nat (size u) + Z.of_nat (length l).
Proof.
  split; [apply inj_le, subseteq_size; set_solver|].
  rewrite <- Nat2Z.inj_add. apply inj_le.
  induction l as [|x l IH]; cbn [list_to_set length]; [rewrite union_empty_r_L; lia|].
  replace (u ∪ ({[x]} ∪ list_to_set l)) with ({[x]} ∪ (u ∪ list_to_set l)) by set_solver.
  destruct (decide (x ∈ u ∪ list_to_set l)).
  - replace ({[x]} ∪ (u ∪ list_to_set l)) with (u ∪ list_to_set l) by set_solver. lia.
  - rewrite size_union_alt, size_singleton.
    assert (Hle : (size ((u ∪ list_to_set l) ∖ {[x]}) <= size (u ∪ list_to_set l))%nat)
      by (apply subseteq_size; set_solver). lia.
Qed.

Lemma size_remove_list u (l : list bytes) :
  Z.of_nat (size (u ∖ list_to_set l)) <= Z.of_nat (size u) <=
  Z.of_nat (size (u ∖ list_to_set l)) + Z.of_nat (length l).
Proof.
  split; [apply inj_le, subseteq_size; set_solver|].
  pose proof (size_add_list (u ∖ list_to_set l) l) as [_ H2].
  assert (Z.of_nat (size u) <= Z.of_nat (size (u ∖ list_to_set l ∪ list_to_set l))); [|lia].
  apply inj_le, subseteq_size. intros x Hx. destruct (decide (x ∈ l)); set_solver.
Qed.

Lemma size_add_one u x : x ∉ u -> Z.of_nat (size ({[x]} ∪ u)) = Z.of_nat (size u) + 1.
Proof. intros Hx. rewrite size_union by set_solver. rewrite size_singleton. lia. Qed.

Lemma sadd_loop_ok s k ver u members :
  reliable (engine s) -> key_open s k ver (SetV u) ->
  forall seen count added b,
  batch_to s k ver b (SetV (u ∪ seen)) ->
  0 <= count -> count + Z.of_nat (length members) < 2 ^ 32 ->
  0 <= added -> added + Z.of_nat (length members) < 2 ^ 32 ->
  let u' := u ∪ seen ∪ list_to_set members in
  let n := Z.of_nat (size u') - Z.of_nat (size (u ∪ seen)) in
  exists b',
    sadd_loop k ver members seen count added b s = (s, Ok (count + n, added + n, b')) /\
    batch_to s k ver b' (SetV u').
Proof.
  intros Hr Hop. induction members as [|m members IH];
    intros seen count added b Hto Hc1 Hc2 Ha1 Ha2; cbv zeta.
  - exists b. cbn [list_to_set]. rewrite union_empty_r_L, Z.sub_diag, !Z.add_0_r. done.
  - cbn [length] in Hc2, Ha2. cbn [sadd_loop list_to_set].
    destruct (decide (m ∈ seen)) as [Hin|Hin].
    + destruct (IH seen count added b Hto) as (b' & Hl & Hb'); [lia..|]. exists b'.
      replace (u ∪ seen ∪ ({[m]} ∪ list_to_set members))
        with (u ∪ seen ∪ list_to_set members) by set_solver. done.
    + rewrite (bind_ok _ _ _ _ _ (get_field s k ver _ m Hr Hop)), record_set_sub.
      replace (u ∪ seen ∪ ({[m]} ∪ list_to_set members))
        with (u ∪ ({[m]} ∪ seen) ∪ list_to_set members) by set_solver.
      destruct (decide (m ∈ u)) as [Hm|Hm]; cbn [is_some negb].
      * replace (u ∪ seen) with (u ∪ ({[m]} ∪ seen)) in * by set_solver.
        destruct (IH ({[m]} ∪ seen) count added b Hto) as (b' & Hl & Hb'); [lia..|].
        exists b'. done.
      * assert (Hto' : batch_to s k ver (batch_put b (subkey k ver m) []) (SetV (u ∪ ({[m]} ∪ seen)))).
        { rewrite subkey_versioned. eapply batch_to_put; [auto with gs|exact Hto|].
          intros p r Hp. replace (u ∪ ({[m]} ∪ seen)) with ({[m]} ∪ (u ∪ seen)) by set_solver.
          by apply record_set_add. }
        rewrite wrap_u32_small, wrap_i64_small by (unfold in_u32, in_i64; lia).
        destruct (IH ({[m]} ∪ seen) (count + 1) (added + 1) _ Hto') as (b' & Hl & Hb'); [lia..|].
        exists b'. rewrite Hl. split; [|done].
        assert (Hsz : Z.of_nat (size (u ∪ ({[m]} ∪ seen))) = Z.of_nat (size (u ∪ seen)) + 1).
        { rewrite <- size_add_one with (x := m) by set_solver. do 2 f_equal. set_solver. }
        rewrite Hsz. do 4 f_equal; lia.
Qed.

Lemma field_count_set_v u ver ex :
  in_u32 (Z.of_nat (size u)) -> field_count (meta_of ver (mk_Obj (SetV u) ex)) = Z.of_nat (size u).
Proof. intros. by apply (field_count_set (mk_Meta TYPE_SET ver ex [])). Qed.

Lemma sadd_refines B s d k members :
  Inv_at B s d -> valid_key k -> clock_left s -> room (Z.of_nat (length members)) (d !! k) ->
  refines (sadd k members) s (spec_sadd (peek_ms s) k members d).
Proof.
  intros HI Hk Hc [Hlen Hroom].
  refine (load_or_new_refines B s d k TYPE_SET (SetV ∅) _ (fun d o =>
    let '(u, ex) := set_of (Some o) in
    let u' := u ∪ list_to_set members in
    let added := Z.of_nat (size u') - Z.of_nat (size u) in
    (if decide (added = 0) then d else <[k := mk_Obj (SetV u') ex]> d, Ok added))
    HI Hk Hc _ _ _ _ _); [done|done|by intros p r [-> | ->]|done|].
  intros s1 B1 d1 ver o HI1 _ _ _ Hty Hop Hwf Ho. destruct o as [[| |u| |] ex]; try done.
  cbn [set_of value] in *.
  assert (Hcr : in_u64 ex /\ Z.of_nat (size u) + Z.of_nat (length members) < 2 ^ 32).
  { split; [destruct Hwf as [[? ?]|[= -> ->]]; [done|unfold in_u64; lia]|].
    destruct Ho as [Ho|[= -> ->]]; [by rewrite Ho in Hroom|]. by rewrite size_empty. }
  destruct Hcr as [Hex Hlt].
  rewrite field_count_set_v by (unfold in_u32; lia).
  destruct (sadd_loop_ok s1 k ver u members (inv_reliable _ _ _ HI1) Hop ∅
    (Z.of_nat (size u)) 0 WriteBatch_new) as (b & Hl & Hb);
    [rewrite union_empty_r_L; by apply batch_to_new|lia..|].
  rewrite union_empty_r_L in Hl, Hb. pose proof (size_add_list u members) as Hsz.
  set (u' := u ∪ list_to_set members) in *.
  set (added := Z.of_nat (size u') - Z.of_nat (size u)) in *.
  eapply refines_later; [done|by rewrite (bind_ok _ _ _ _ _ Hl)|]. cbv beta iota.
  rewrite Z.add_0_l. eapply refines_then;
    [|intros s2 B2 HI2 _; by eapply refines_ret].
  destruct (Z.ltb_spec 0 added) as [Ha|Ha].
  - rewrite decide_False by lia.
    replace (Z.of_nat (size u) + added) with (Z.of_nat (size u')) by (unfold added; lia).
    change (set_field_count (meta_of ver (mk_Obj (SetV u) ex)) (Z.of_nat (size u')))
      with (meta_of ver (mk_Obj (SetV u') ex)).
    eapply commit_ok; [done..|split; [|done]; cbn; unfold in_u32; lia].
  - rewrite decide_True by lia. by eapply refines_ret.
Qed.

Lemma srem_loop_ok s k ver u members :
  reliable (engine s) -> key_open s k ver (SetV u) ->
  forall seen count removed b,
  batch_to s k ver b (SetV (u ∖ seen)) ->
  0 <= count -> 0 <= removed -> removed + Z.of_nat (length members) < 2 ^ 32 ->
  let u' := u ∖ seen ∖ list_to_set members in
  let n := Z.of_nat (size (u ∖ seen)) - Z.of_nat (size u') in
  exists b',
    srem_loop k ver members seen count removed b s =
      (s, Ok (saturating_sub count n, removed + n, b')) /\
    batch_to s k ver b' (SetV u').
Proof.
  intros Hr Hop. induction members as [|m members IH];
    intros seen count removed b Hto Hc Hr1 Hr2; cbv zeta.
  - exists b. cbn [list_to_set]. rewrite difference_empty_L, Z.sub_diag, Z.add_0_r.
    replace (saturating_sub count 0) with count by (unfold saturating_sub; lia). done.
  - cbn [length] in Hr2. cbn [srem_loop list_to_set].
    destruct (decide (m ∈ seen)) as [Hin|Hin].
    + destruct (IH seen count removed b Hto) as (b' & Hl & Hb'); [lia..|]. exists b'.
      replace (u ∖ seen ∖ ({[m]} ∪ list_to_set members))
        with (u ∖ seen ∖ list_to_set members) by set_solver. done.
    + rewrite (bind_ok _ _ _ _ _ (get_field s k ver _ m Hr Hop)), record_set_sub.
      replace (u ∖ seen ∖ ({[m]} ∪ list_to_set members))
        with (u ∖ ({[m]} ∪ seen) ∖ list_to_set members) by set_solver.
      destruct (decide (m ∈ u)) as [Hm|Hm]; cbn [is_some negb].
      * assert (Hto' : batch_to s k ver (batch_delete b (subkey k ver m)) (SetV (u ∖ ({[m]} ∪ seen)))).
        { rewrite subkey_versioned. eapply batch_to_delete; [auto with gs|exact Hto|].
          intros p r Hp. replace (u ∖ ({[m]} ∪ seen)) with (u ∖ seen ∖ {[m]}) by set_solver.
          by apply record_set_remove. }
        rewrite wrap_i64_small by (unfold in_i64; lia).
        destruct (IH ({[m]} ∪ seen) (saturating_sub count 1) (removed + 1) _ Hto')
          as (b' & Hl & Hb'); [unfold saturating_sub; lia|lia..|].
        exists b'. rewrite Hl. split; [|done].
        assert (Hsz : Z.of_nat (size (u ∖ seen)) = Z.of_nat (size (u ∖ ({[m]} ∪ seen))) + 1).
        { rewrite <- size_add_one with (x := m) by set_solver. do 2 f_equal.
          apply leibniz_equiv. intros x. destruct (decide (x = m)); set_solver. }
        rewrite Hsz. pose proof (size_remove_list (u ∖ ({[m]} ∪ seen)) members).
        do 4 f_equal; [|lia]. unfold saturating_sub. lia.
      * replace (u ∖ seen) with (u ∖ ({[m]} ∪ seen)) in * by set_solver.
        destruct (IH ({[m]} ∪ seen) count removed b Hto) as (b' & Hl & Hb'); [lia..|].
        exists b'. done.
Qed.

Lemma srem_refines B s d k members :
  Inv_at B s d -> valid_key k -> Z.of_nat (length members) < 2 ^ 32 ->
  refines (srem k members) s (spec_srem (peek_ms s) k members d).
Proof.
  intros HI Hk Hlen. apply (load_typed_refines B); [done..| |].
  - intros s1 d1 HI1 _ _ _ _. by eapply refines_ret.
  - intros s1 d1 ver o HI1 _ _ _ Hty Hat _. destruct o as [[| |u| |] ex]; try done.
    destruct (at_wf _ _ _ _ _ Hat) as [Hsz Hex]. cbn [value value_wf expiry] in *.
    assert (Hop : key_open s1 k ver (SetV u))
      by by apply (key_at_open s1 k ver (mk_Obj (SetV u) ex)).
    destruct (srem_loop_ok s1 k ver u members (inv_reliable _ _ _ HI1) Hop ∅
      (Z.of_nat (size u)) 0 WriteBatch_new) as (b & Hl & Hb);
      [rewrite difference_empty_L; by apply batch_to_new|lia..|].
    rewrite difference_empty_L in Hl, Hb. cbn [set_of].
    rewrite field_count_set_v by done. cbn [version meta_of].
    eapply refines_later; [done|by rewrite (bind_ok _ _ _ _ _ Hl)|]. cbv beta iota.
    pose proof (size_remove_list u members) as Hrm. unfold in_u32 in Hsz.
    set (u' := u ∖ list_to_set members) in *. rewrite Z.add_0_l.
    set (n := Z.of_nat (size u) - Z.of_nat (size u')) in *.
    replace (saturating_sub (Z.of_nat (size u)) n) with (Z.of_nat (size u'))
      by (unfold saturating_sub, n; lia).
    eapply refines_then;
      [|intros s2 B2 HI2 _; by eapply refines_ret].
    replace (if decide (u' = ∅) then delete k d1 else <[k := mk_Obj (SetV u') ex]> d1)
      with (if decide (Z.of_nat (size u') = 0) then delete k d1 else <[k := mk_Obj (SetV u') ex]> d1).
    + eapply (finish_removal_ok B s1 d1 k ver (SetV u)); [done..|lia|done|].
      split; [|done]. cbn. unfold in_u32; lia.
    + destruct (decide (u' = ∅)) as [->|Hne]; [by rewrite decide_True by (by rewrite size_empty)|].
      rewrite decide_False; [done|]. intros Hz. apply Hne. apply leibniz_equiv, size_empty_iff. lia.
Qed.

Lemma sismember_refines B s d k m :
  Inv_at B s d -> valid_key k -> refines (sismember k m) s (spec_sismember (peek_ms s) k m d).
Proof.
  intros HI Hk. apply (load_typed_refines B); [done..| |].
  - intros s1 d1 HI1 _ _ _ _. by eapply refines_ret.
  - intros s1 d1 ver o HI1 _ _ _ Hty Hat _. destruct o as [[| |u| |] ex]; try done.
    cbn [version meta_of set_of].
    eapply refines_later; [done|erewrite bind_ok; [done|]|].
    + apply (get_field s1 k ver (SetV u)); [apply HI1|].
      by apply (key_at_open s1 k ver (mk_Obj (SetV u) ex)).
    + rewrite record_set_sub. case_decide as Hm.
      * rewrite bool_decide_eq_true_2 by done. by eapply refines_ret.
      * rewrite bool_decide_eq_false_2 by done. by eapply refines_ret.
Qed.

Lemma sorted_elements_keys u x : sorted_keys (gset_to_gmap x u) = sorted_elements u.
Proof.
  symmetry. apply sorted_keys_unique.
  - apply (StronglySorted_merge_sort bytes_le).
  - unfold sorted_elements. rewrite merge_sort_Permutation. apply NoDup_elements.
  - intros k. unfold sorted_elements. rewrite merge_sort_Permutation, elem_of_elements.
    rewrite <- (dom_gset_to_gmap u x) at 1. apply elem_of_dom.
Qed.

Lemma smembers_refines B s d k :
  Inv_at B s d -> valid_key k -> refines (smembers k) s (spec_smembers (peek_ms s) k d).
Proof.
  intros HI Hk. apply (load_typed_refines B); [done..| |].
  - intros s1 d1 HI1 _ _ _ _. by eapply refines_ret.
  - intros s1 d1 ver o HI1 _ _ _ Hty Hat _. destruct o as [[| |u| |] ex]; try done.
    exists s1. cbn [version meta_of set_of].
    rewrite (bind_ok _ _ _ _ _ (engine_scan_ok s1 _ (inv_reliable _ _ _ HI1))).
    rewrite collect_items_ok. cbn [app fst].
    rewrite <- (sorted_elements_keys u []), <- sorted_entries_keys.
    rewrite <- (scan_subkeys s1 k ver (gset_to_gmap [] u)).
    + split_and!; [|by exists B|done]. cbn. by rewrite <- list_fmap_compose.
    + intros f. rewrite subkey_prefix_versioned, (at_records _ _ _ _ _ Hat) by auto with gs.
      cbn [value]. rewrite record_set_sub. case_decide as Hf.
      * symmetry. by apply lookup_gset_to_gmap_Some.
      * symmetry. by apply lookup_gset_to_gmap_None.
Qed.

Lemma scard_refines B s d k :
  Inv_at B s d -> valid_key k -> refines (scard k) s (spec_scard (peek_ms s) k d).
Proof.
  intros HI Hk. apply (load_typed_refines B); [done..| |].
  - intros s1 d1 HI1 _ _ _ _. by eapply refines_ret.
  - intros s1 d1 ver o HI1 _ _ _ Hty Hat _. destruct o as [[| |u| |] ex]; try done.
    destruct (at_wf _ _ _ _ _ Hat) as [Hc _]. cbn in Hc. unfold in_u32 in Hc. cbn [set_of].
    rewrite field_count_set_v, wrap_i64_small by (unfold in_u32, in_i64; lia).
    by eapply refines_ret.
Qed.

End Sets.
