(* ===== verification/StoreList.v ===== *)
(** * Lists: the operations implement their specifications

    [push], [pop], [lrange] and [llen] of store.rs.  [pop_loop] is given
    [tail - head] rounds of fuel; [pop_left_ok] and [pop_right_ok] show it stops
    by its own condition within them. *)

From S2P Require Import Prelude F64 Encoding Engine Gc Store StoreSpec StoreRep StoreInv.

(** A normalized range lies within the collection. *)
Lemma normalize_range_bounds start stop len lo hi :
  normalize_range start stop len = Some (lo, hi) -> 0 <= lo <= hi /\ hi < len.
Proof.
  unfold normalize_range. destruct (Z.leb_spec len 0); [done|].
  destruct (Z.ltb_spec (Z.min (if stop <? 0 then stop + len else stop) (len - 1))
    (Z.max (if start <? 0 then start + len else start) 0)); [done|].
  intros [= <- <-]. lia.
Qed.

Section Lists.
Context {E : Type} `{EngineLaws E}.

Abbreviation St := (State E).
Abbreviation records s := (contents (engine s)).
Implicit Types (k x : bytes) (d : Db) (s : St) (B now ver h t : Z) (o : Obj) (l : list bytes).

(** ** Element records *)

Lemma record_index h l i :
  in_u64 i -> h <= i -> record (ListV h l) SUBKEY_PREFIX (list_index_field i) = l !! Z.to_nat (i - h).
Proof.
  intros Hi Hh. unfold record, list_index_field. rewrite decide_True by done.
  by rewrite length_be_bytes, of_be_u64, decide_True by done.
Qed.

Lemma index_field_ne r i : length r = 8%nat -> r <> list_index_field i -> of_be_bytes r <> i.
Proof. intros Hr Hne <-. apply Hne. unfold list_index_field. by rewrite be_bytes_of_be'. Qed.

(** Two lists whose records differ at one index only. *)
Lemma record_list_change h l h' l' i y p r :
  in_u64 i -> family p ->
  record (ListV h' l') SUBKEY_PREFIX (list_index_field i) = y ->
  (forall j, in_u64 j -> j <> i ->
     (if decide (h' <= j) then l' !! Z.to_nat (j - h') else None) =
     (if decide (h <= j) then l !! Z.to_nat (j - h) else None)) ->
  record (ListV h' l') p r =
  if decide (p = SUBKEY_PREFIX /\ r = list_index_field i) then y else record (ListV h l) p r.
Proof.
  intros Hi [-> | ->] Hy Hother; [|done].
  destruct (decide (r = list_index_field i)) as [->|Hne]; [by rewrite decide_True|].
  rewrite (decide_False (P := SUBKEY_PREFIX = SUBKEY_PREFIX /\ _)) by naive_solver.
  unfold record. rewrite !(decide_True (P := SUBKEY_PREFIX = SUBKEY_PREFIX)) by done.
  destruct (decide (length r = 8%nat)) as [Hl|Hl].
  - specialize (Hother (of_be_bytes r) (of_be_u64_range r Hl) (index_field_ne r i Hl Hne)).
    destruct (decide (h' <= of_be_bytes r)), (decide (h <= of_be_bytes r));
      repeat first [rewrite decide_True by done|rewrite decide_False by naive_solver]; done.
  - by rewrite !decide_False by naive_solver.
Qed.

Lemma record_snoc h l x p r :
  0 <= h -> h + Z.of_nat (length l) < 2 ^ 64 -> family p ->
  record (ListV h (l ++ [x])) p r =
  if decide (p = SUBKEY_PREFIX /\ r = list_index_field (h + Z.of_nat (length l)))
  then Some x else record (ListV h l) p r.
Proof.
  intros Hh Ht Hp. apply record_list_change; [unfold in_u64; lia|done| |].
  - rewrite record_index by (unfold in_u64; lia).
    replace (Z.to_nat _) with (length l) by lia. apply list_lookup_middle. lia.
  - intros j Hj Hne. case_decide; [|done].
    destruct (decide (Z.to_nat (j - h) < length l)%nat).
    + by apply lookup_app_l.
    + rewrite !lookup_ge_None_2; [done|lia|rewrite length_app; cbn; lia].
Qed.

Lemma record_cons h l x p r :
  0 < h -> h < 2 ^ 64 -> family p ->
  record (ListV (h - 1) (x :: l)) p r =
  if decide (p = SUBKEY_PREFIX /\ r = list_index_field (h - 1))
  then Some x else record (ListV h l) p r.
Proof.
  intros Hh Ht Hp. apply record_list_change; [unfold in_u64; lia|done| |].
  - rewrite record_index by (unfold in_u64; lia). by rewrite Z.sub_diag.
  - intros j Hj Hne. destruct (decide (h <= j)).
    + rewrite decide_True by lia. replace (Z.to_nat (j - (h - 1))) with (S (Z.to_nat (j - h))) by lia. done.
    + by rewrite decide_False by lia.
Qed.

Lemma record_tail h l x p r :
  0 <= h -> h + 1 < 2 ^ 64 -> family p ->
  record (ListV (h + 1) l) p r =
  if decide (p = SUBKEY_PREFIX /\ r = list_index_field h) then None else record (ListV h (x :: l)) p r.
Proof.
  intros Hh Ht Hp. apply record_list_change; [unfold in_u64; lia|done| |].
  - unfold record, list_index_field. rewrite decide_True by done.
    rewrite of_be_u64, decide_False by (unfold in_u64; lia). done.
  - intros j Hj Hne. destruct (decide (h + 1 <= j)).
    + rewrite decide_True by lia. replace (Z.to_nat (j - h)) with (S (Z.to_nat (j - (h + 1)))) by lia. done.
    + by rewrite decide_False by lia.
Qed.

Lemma record_init h l x p r :
  0 <= h -> h + Z.of_nat (length l) < 2 ^ 64 -> family p ->
  record (ListV h l) p r =
  if decide (p = SUBKEY_PREFIX /\ r = list_index_field (h + Z.of_nat (length l)))
  then None else record (ListV h (l ++ [x])) p r.
Proof.
  intros Hh Ht Hp. apply record_list_change; [unfold in_u64; lia|done| |].
  - rewrite record_index by (unfold in_u64; lia).
    apply lookup_ge_None_2. lia.
  - intros j Hj Hne. case_decide; [|done].
    destruct (decide (Z.to_nat (j - h) < length l)%nat).
    + by rewrite lookup_app_l.
    + rewrite !lookup_ge_None_2; [done|rewrite length_app; cbn; lia|lia].
Qed.

(** ** push *)

Lemma push_left_ok s k ver values :
  forall h l t b, batch_to s k ver b (ListV h l) -> Z.of_nat (length values) <= h -> h < 2 ^ 64 ->
  exists b',
    push_loop k ver true values h t b = (h - Z.of_nat (length values), t, b') /\
    batch_to s k ver b' (ListV (h - Z.of_nat (length values)) (reverse values ++ l)).
Proof.
  induction values as [|x values IH]; intros h l t b Hto Hh Hh2; cbn [length] in *.
  - exists b. by rewrite Z.sub_0_r.
  - cbn [push_loop]. rewrite wrap_u64_small by (unfold in_u64; lia).
    destruct (IH (h - 1) (x :: l) t (batch_put b (subkey k ver (list_index_field (h - 1))) x))
      as (b' & Hp & Hb'); [|lia..|].
    + rewrite subkey_versioned. eapply batch_to_put; [auto with gs|exact Hto|].
      intros. apply record_cons; [lia..|done].
    + exists b'. rewrite Hp, reverse_cons, <- (assoc_L (++)).
      replace (h - Z.of_nat (S (length values))) with (h - 1 - Z.of_nat (length values)) by lia. done.
Qed.

Lemma push_right_ok s k ver values :
  forall h l b, batch_to s k ver b (ListV h l) ->
  0 <= h -> h + Z.of_nat (length l) + Z.of_nat (length values) < 2 ^ 64 ->
  exists b',
    push_loop k ver false values h (h + Z.of_nat (length l)) b =
      (h, h + Z.of_nat (length l) + Z.of_nat (length values), b') /\
    batch_to s k ver b' (ListV h (l ++ values)).
Proof.
  induction values as [|x values IH]; intros h l b Hto Hh Hh2; cbn [length] in *.
  - exists b. by rewrite Z.add_0_r, app_nil_r.
  - cbn [push_loop]. rewrite wrap_u64_small by (unfold in_u64; lia).
    destruct (IH h (l ++ [x]) (batch_put b (subkey k ver (list_index_field (h + Z.of_nat (length l)))) x))
      as (b' & Hp & Hb'); [|lia|rewrite length_app; cbn; lia|].
    + rewrite subkey_versioned. eapply batch_to_put; [auto with gs|exact Hto|].
      intros. apply record_snoc; [lia..|done].
    + exists b'. rewrite length_app in Hp. cbn [length] in Hp.
      replace (h + Z.of_nat (length l) + 1) with (h + Z.of_nat (length l + 1)) by lia.
      rewrite Hp, <- (assoc_L (++)) in *. split; [do 2 f_equal; lia|done].
Qed.

Lemma list_bounds_of ver h l ex :
  0 <= h -> h + Z.of_nat (length l) < 2 ^ 64 ->
  list_bounds (meta_of ver (mk_Obj (ListV h l) ex)) = Some (h, h + Z.of_nat (length l)).
Proof.
  intros. apply (list_bounds_set (mk_Meta TYPE_LIST ver ex [])); [done|unfold in_u64; lia..].
Qed.

(** The metadata after a push or a pop. *)
Lemma set_bounds_of ver h l ex h' l' t' :
  t' = h' + Z.of_nat (length l') ->
  set_list_bounds (meta_of ver (mk_Obj (ListV h l) ex)) h' t' = meta_of ver (mk_Obj (ListV h' l') ex).
Proof. by intros ->. Qed.

(** The push once the key is loaded or created. *)
Definition push_rest (k : bytes) (values : list bytes) (left : bool) (meta : Meta) : M E Z :=
  '(head, tail) ← some_or (list_bounds meta) undecodable_bounds;
  let '(head, tail, batch) := push_loop k (version meta) left values head tail WriteBatch_new in
  _ ← engine_write (batch_put batch (meta_key k) (Meta_encode (set_list_bounds meta head tail)));
  mret (wrap_i64 (wrap_u64 (tail - head))).

Lemma push_rest_ok B s d k ver h l ex values left :
  Inv_at B s d -> valid_key k -> key_open s k ver (ListV h l) ->
  obj_wf (mk_Obj (ListV h l) ex) -> value_room (Z.of_nat (length values)) (ListV h l) ->
  refines (push_rest k values left (meta_of ver (mk_Obj (ListV h l) ex))) s
    (<[k := mk_Obj (push_list left values h l) ex]> d, Ok (Z.of_nat (length l + length values))).
Proof.
  intros HI Hk Hop [(Hh & Ht & Hlen) Hex] (Hr1 & Hr2 & Hr3). cbn [value value_wf expiry] in *.
  unfold push_rest. rewrite list_bounds_of by done.
  set (hl := push_list left values h l).
  assert (Hpush : exists h' l' b', hl = ListV h' l' /\
    push_loop k ver left values h (h + Z.of_nat (length l)) WriteBatch_new =
      (h', h' + Z.of_nat (length l'), b') /\ batch_to s k ver b' (ListV h' l') /\
    length l' = (length l + length values)%nat /\ 0 <= h' /\ h' + Z.of_nat (length l') < 2 ^ 64).
  { unfold hl, push_list. destruct left.
    - destruct (push_left_ok s k ver values h l (h + Z.of_nat (length l)) WriteBatch_new)
        as (b' & -> & Hb'); [by apply batch_to_new|lia..|].
      eexists _, _, b'. split; [done|].
      rewrite length_app, length_reverse. split_and!; [|done|lia..]. do 2 f_equal. lia.
    - destruct (push_right_ok s k ver values h l WriteBatch_new)
        as (b' & -> & Hb'); [by apply batch_to_new|lia..|].
      eexists _, _, b'. split; [done|].
      rewrite length_app. split_and!; [|done|lia..]. do 2 f_equal. lia. }
  destruct Hpush as (h' & l' & b' & Hhl & Hloop & Hb' & Hl' & Hh' & Ht').
  change (version (meta_of ver (mk_Obj (ListV h l) ex))) with ver.
  eapply refines_later; [done|erewrite bind_ok; [done|done]|]. cbv beta iota. rewrite Hloop, Hhl.
  rewrite (set_bounds_of ver h l ex h' l') by done.
  eapply refines_then; [eapply commit_ok; [done..|]|].
  - split; [|done]. cbn. lia.
  - intros s2 B2 HI2 _.
    rewrite wrap_u64_small, wrap_i64_small by (unfold in_u64, in_i64; lia).
    replace (h' + Z.of_nat (length l') - h') with (Z.of_nat (length l + length values)) by lia.
    by eapply refines_ret.
Qed.

Lemma push_refines B s d k values left :
  Inv_at B s d -> valid_key k -> clock_left s -> room (Z.of_nat (length values)) (d !! k) ->
  refines (push k values left) s (spec_push (peek_ms s) k values left d).
Proof.
  intros HI Hk Hc [Hlen Hroom]. apply (load_typed_refines B); [done..| |].
  - intros s1 d1 HI1 Hl1 Hvc Hd1 Hnone.
    destruct (new_composite_ok B s1 d1 k TYPE_LIST (ListV LIST_INITIAL_INDEX []) HI1 Hk)
      as (s2 & B2 & ver & Hn & HI2 & Hl2 & Hop); [unfold clock_left in *; by rewrite Hvc|done| |].
    { intros p r [-> | ->]; [|done]. unfold record. by repeat case_decide. }
    eapply (refines_later (push_rest k values left
      (meta_of ver (mk_Obj (ListV LIST_INITIAL_INDEX []) 0))) s1 s2); [done| |].
    { set (rest := fun meta => push_rest k values left meta).
      unfold mbind at 1, M_bind at 1. unfold mbind at 1, M_bind at 1. rewrite Hn. done. }
    cbn [list_of]. apply (push_rest_ok B2); [done..| |].
    + unfold LIST_INITIAL_INDEX. split; [cbn; lia|cbn; unfold in_u64; lia].
    + unfold LIST_INITIAL_INDEX. cbn. lia.
  - intros s1 d1 ver o HI1 _ _ _ Hty Hat Hd. destruct o as [[| | | |h l] ex]; try done.
    cbn [list_of]. apply (push_rest_ok B); [done|done| |apply Hat|by rewrite Hd in Hroom].
    by apply (key_at_open s1 k ver (mk_Obj (ListV h l) ex)).
Qed.

(** ** pop *)

(** What the loop has taken when the list was [l] and [n] more are wanted. *)
Lemma pop_left_ok s k ver L0 h0 count :
  reliable (engine s) -> key_open s k ver (ListV h0 L0) -> 0 <= h0 ->
  forall l h out b fuel, (length l <= fuel)%nat -> h0 <= h ->
  h + Z.of_nat (length l) < 2 ^ 64 ->
  (forall j, (j < length l)%nat -> L0 !! Z.to_nat (h - h0 + Z.of_nat j) = l !! j) ->
  batch_to s k ver b (ListV h l) ->
  let n := Nat.min (Z.to_nat (count - Z.of_nat (length out))) (length l) in
  exists b',
    pop_loop fuel k ver count true h (h + Z.of_nat (length l)) out b s =
      (s, Ok (h + Z.of_nat n, h + Z.of_nat (length l), out ++ take n l, b')) /\
    batch_to s k ver b' (ListV (h + Z.of_nat n) (drop n l)).
Proof.
  intros Hr Hop Hh0. induction l as [|x l IH]; intros h out b fuel Hf Hh Hmax HL Hto; cbv zeta.
  - exists b. rewrite Nat.min_0_r. cbn [length] in *. rewrite !Z.add_0_r, app_nil_r.
    split; [|done]. destruct fuel; [done|]. cbn [pop_loop].
    by rewrite Z.ltb_irrefl, andb_false_r.
  - cbn [length] in *. destruct fuel as [|fuel]; [lia|]. cbn [pop_loop].
    rewrite (proj2 (Z.ltb_lt h _)) by lia. rewrite andb_true_r.
    destruct (Z.ltb_spec (Z.of_nat (length out)) count) as [Hlt|Hge].
    + rewrite wrap_u64_small by (unfold in_u64; lia).
      rewrite (bind_ok _ _ _ _ _ (get_field s k ver _ _ Hr Hop)).
      rewrite record_index by (unfold in_u64; lia).
      pose proof (HL 0%nat ltac:(lia)) as H0'. rewrite Z.add_0_r in H0'. rewrite H0'. cbn [lookup list_lookup].
      unfold some_or, ok_or, lift. unfold mbind at 1, M_bind at 1.
      destruct (IH (h + 1) (out ++ [x]) (batch_delete b (subkey k ver (list_index_field h))) fuel)
        as (b' & Hl & Hb'); [lia..| | |].
      * intros j Hj. specialize (HL (S j) ltac:(lia)). change ((x :: l) !! S j) with (l !! j) in HL. rewrite <- HL. f_equal. lia.
      * rewrite subkey_versioned. eapply batch_to_delete; [auto with gs|exact Hto|].
        intros. apply record_tail; [lia..|done].
      * exists b'. rewrite length_app in Hl, Hb'. cbn [length] in Hl, Hb'.
        replace (h + Z.of_nat (S (length l))) with (h + 1 + Z.of_nat (length l)) by lia.
        replace (Nat.min (Z.to_nat (count - Z.of_nat (length out))) (S (length l)))
          with (S (Nat.min (Z.to_nat (count - Z.of_nat (length out + 1))) (length l))) by lia.
        rewrite Hl. cbn [take drop]. rewrite <- (assoc_L (++)).
        match goal with |- context [h + Z.of_nat (S ?n)] =>
          replace (h + Z.of_nat (S n)) with (h + 1 + Z.of_nat n) by lia end.
        done.
    + exists b. replace (Nat.min _ _) with O by lia. cbn [take drop]. by rewrite Z.add_0_r, app_nil_r.
Qed.

Lemma pop_right_ok s k ver L0 h count :
  reliable (engine s) -> key_open s k ver (ListV h L0) -> 0 <= h ->
  forall l out b fuel, (length l <= fuel)%nat ->
  h + Z.of_nat (length l) < 2 ^ 64 -> l `prefix_of` L0 ->
  batch_to s k ver b (ListV h l) ->
  let n := Nat.min (Z.to_nat (count - Z.of_nat (length out))) (length l) in
  exists b',
    pop_loop fuel k ver count false h (h + Z.of_nat (length l)) out b s =
      (s, Ok (h, h + Z.of_nat (length l - n), out ++ reverse (drop (length l - n) l), b')) /\
    batch_to s k ver b' (ListV h (take (length l - n) l)).
Proof.
  intros Hr Hop Hh. induction l as [|x l IH] using rev_ind; intros out b fuel Hf Hmax HL Hto; cbv zeta.
  - exists b. rewrite Nat.min_0_r. cbn [length drop] in *. rewrite app_nil_r.
    split; [|done]. cbn [Nat.sub]. rewrite Z.add_0_r. destruct fuel; [done|]. cbn [pop_loop].
    by rewrite Z.ltb_irrefl, andb_false_r.
  - rewrite length_app in *. cbn [length] in *. destruct fuel as [|fuel]; [lia|]. cbn [pop_loop].
    rewrite (proj2 (Z.ltb_lt h _)) by lia. rewrite andb_true_r.
    destruct (Z.ltb_spec (Z.of_nat (length out)) count) as [Hlt|Hge].
    + rewrite wrap_u64_small by (unfold in_u64; lia).
      replace (h + Z.of_nat (length l + 1) - 1) with (h + Z.of_nat (length l)) by lia.
      rewrite (bind_ok _ _ _ _ _ (get_field s k ver _ _ Hr Hop)).
      rewrite record_index by (unfold in_u64; lia).
      replace (Z.to_nat (h + Z.of_nat (length l) - h)) with (length l) by lia.
      assert (Hx : L0 !! length l = Some x).
      { eapply prefix_lookup_Some; [|exact HL]. by apply list_lookup_middle. }
      rewrite Hx. unfold some_or, ok_or, lift. unfold mbind at 1, M_bind at 1.
      destruct (IH (out ++ [x]) (batch_delete b (subkey k ver (list_index_field (h + Z.of_nat (length l))))) fuel)
        as (b' & Hl & Hb'); [lia..|by eapply prefix_app_l| |].
      * rewrite subkey_versioned. eapply batch_to_delete; [auto with gs|exact Hto|].
        intros. apply record_init; [lia..|done].
      * exists b'. rewrite length_app in Hl, Hb'. cbn [length] in Hl, Hb'.
        set (n := Nat.min (Z.to_nat (count - Z.of_nat (length out + 1))) (length l)) in *.
        replace (length l + 1 - Nat.min (Z.to_nat (count - Z.of_nat (length out))) (length l + 1))%nat
          with (length l - n)%nat by lia.
        rewrite Hl. rewrite drop_app_le, take_app_le by lia.
        rewrite reverse_app, <- (assoc_L (++)). done.
    + exists b. replace (Nat.min _ _) with O by lia. rewrite Nat.sub_0_r.
      assert (Hlen : (length l + 1)%nat = length (l ++ [x])) by (by rewrite length_app).
      rewrite Hlen, firstn_all, drop_all, app_nil_r. done.
Qed.

Lemma pop_refines B s d k count left :
  Inv_at B s d -> valid_key k -> 0 <= count ->
  refines (pop k count left) s (spec_pop (peek_ms s) k count left d).
Proof.
  intros HI Hk Hcount. apply (load_typed_refines B); [done..| |].
  - intros s1 d1 HI1 _ _ _ _. by eapply refines_ret.
  - intros s1 d1 ver o HI1 _ _ _ Hty Hat Hd. destruct o as [[| | | |h l] ex]; try done.
    destruct (at_wf _ _ _ _ _ Hat) as [(Hh & Ht & Hlen) Hex]. cbn [value value_wf expiry] in *.
    assert (Hop : key_open s1 k ver (ListV h l))
      by by apply (key_at_open s1 k ver (mk_Obj (ListV h l) ex)).
    rewrite list_bounds_of by done. cbn [list_of].
    set (n := Z.to_nat (Z.min count (Z.of_nat (length l)))).
    assert (Hloop : exists h' l' b', pop_rest left n h l = ListV h' l' /\
      pop_loop (Z.to_nat (h + Z.of_nat (length l) - h)) k ver count left h (h + Z.of_nat (length l))
        [] WriteBatch_new s1 = (s1, Ok (h', h' + Z.of_nat (length l'), popped left n l, b')) /\
      batch_to s1 k ver b' (ListV h' l') /\
      length l' = (length l - n)%nat /\ 0 <= h' /\ h' + Z.of_nat (length l') < 2 ^ 64).
    { unfold pop_rest, popped. destruct left.
      - destruct (pop_left_ok s1 k ver l h count (inv_reliable _ _ _ HI1) Hop Hh l h [] WriteBatch_new
          (Z.to_nat (h + Z.of_nat (length l) - h))) as (b' & Hl & Hb'); [lia..| |by apply batch_to_new|].
        { intros j Hj. f_equal. lia. }
        cbn [length app] in Hl, Hb'. rewrite Z.sub_0_r in Hl, Hb'.
        replace (Nat.min (Z.to_nat count) (length l)) with n in * by lia.
        replace (Nat.min n (length l)) with n by lia.
        eexists _, _, b'. split; [done|]. rewrite Hl, length_drop.
        split_and!; [|done|lia..]. do 5 f_equal. lia.
      - destruct (pop_right_ok s1 k ver l h count (inv_reliable _ _ _ HI1) Hop Hh l [] WriteBatch_new
          (Z.to_nat (h + Z.of_nat (length l) - h))) as (b' & Hl & Hb'); [lia..|done|by apply batch_to_new|].
        cbn [length app] in Hl, Hb'. rewrite Z.sub_0_r in Hl, Hb'.
        replace (Nat.min (Z.to_nat count) (length l)) with n in * by lia.
        eexists _, _, b'. split; [done|]. rewrite Hl, length_take.
        replace (Nat.min (length l - n) (length l)) with (length l - n)%nat by lia.
        split_and!; [done|done|lia..]. }
    destruct Hloop as (h' & l' & b' & Hrest & Hl & Hb' & Hl' & Hh' & Ht').
    assert (Hpop : length (popped left n l) = n).
    { unfold popped. destruct left; rewrite ?length_reverse, ?length_take, ?length_drop; lia. }
    eapply refines_later; [done|erewrite bind_ok; [done|done]|]. cbv beta iota.
    cbn [version meta_of]. eapply refines_later; [done|by rewrite (bind_ok _ _ _ _ _ Hl)|]. cbv beta iota.
    eapply refines_then; [|intros s2 B2 HI2 _; by eapply refines_ret].
    rewrite (set_bounds_of ver h l ex h' l') by done. rewrite Hrest.
    destruct (popped left n l) as [|x out] eqn:Hout; cbn [length] in Hpop.
    + rewrite decide_True by done. by eapply refines_ret.
    + rewrite decide_False by lia. destruct (Z.eqb_spec h' (h' + Z.of_nat (length l'))) as [He|He].
      * rewrite decide_True by lia.
        destruct (delete_after_write B s1 d1 k ver b' HI1 Hk) as (s2 & Hdel & HI2 & Hl2 & _);
          [apply Hop|by eapply key_open_bound|apply Hb'|].
        exists s2. split_and!; [done|by exists B|done].
      * rewrite decide_False by lia. eapply commit_ok; [done..|]. split; [|done]. cbn. lia.
Qed.

(** ** Reading *)

Lemma lrange_loop_ok s k ver h l :
  reliable (engine s) -> key_open s k ver (ListV h l) -> 0 <= h ->
  h + Z.of_nat (length l) < 2 ^ 64 ->
  forall (m : nat) lo out, 0 <= lo -> lo + Z.of_nat m <= Z.of_nat (length l) ->
  lrange_loop k ver h (seqZ lo (Z.of_nat m)) out s =
    (s, Ok (out ++ take m (drop (Z.to_nat lo) l))).
Proof.
  intros Hr Hop Hh Ht. induction m as [|m IH]; intros lo out Hlo Hm.
  - cbn. by rewrite app_nil_r.
  - rewrite seqZ_cons by lia. cbn [lrange_loop].
    rewrite wrap_u64_small by (unfold in_u64; lia).
    rewrite (bind_ok _ _ _ _ _ (get_field s k ver _ _ Hr Hop)).
    rewrite record_index by (unfold in_u64; lia).
    replace (Z.to_nat (h + lo - h)) with (Z.to_nat lo) by lia.
    destruct (lookup_lt_is_Some_2 l (Z.to_nat lo)) as [x Hx]; [lia|]. rewrite Hx.
    unfold some_or, ok_or, lift. unfold mbind at 1, M_bind at 1.
    replace (Z.pred (Z.of_nat (S m))) with (Z.of_nat m) by lia.
    rewrite IH by lia. rewrite (drop_S l x (Z.to_nat lo)) by done. cbn [take].
    rewrite <- (assoc_L (++)). replace (Z.to_nat (Z.succ lo)) with (S (Z.to_nat lo)) by lia. done.
Qed.

Lemma lrange_refines B s d k start stop :
  Inv_at B s d -> valid_key k ->
  refines (lrange k start stop) s (spec_lrange (peek_ms s) k start stop d).
Proof.
  intros HI Hk. apply (load_typed_refines B); [done..| |].
  - intros s1 d1 HI1 _ _ _ _. by eapply refines_ret.
  - intros s1 d1 ver o HI1 _ _ _ Hty Hat Hd. destruct o as [[| | | |h l] ex]; try done.
    destruct (at_wf _ _ _ _ _ Hat) as [(Hh & Ht & Hlen) Hex]. cbn [value value_wf expiry] in *.
    rewrite list_bounds_of by done. cbn [list_of].
    eapply refines_later; [done|erewrite bind_ok; [done|done]|]. cbv beta iota.
    replace (h + Z.of_nat (length l) - h) with (Z.of_nat (length l)) by lia.
    rewrite wrap_u64_small, wrap_i64_small by (unfold in_u64, in_i64; lia).
    destruct (normalize_range start stop (Z.of_nat (length l))) as [[lo hi]|] eqn:Hn;
      [|by eapply refines_ret].
    apply normalize_range_bounds in Hn. cbn [version meta_of sublist].
    exists s1. split_and!; [|by exists B|done].
    replace (hi - lo + 1) with (Z.of_nat (Z.to_nat (hi - lo + 1))) at 1 by lia.
    rewrite (lrange_loop_ok s1 k ver h l); [done|apply HI1| |done|done|lia|lia].
    by apply (key_at_open s1 k ver (mk_Obj (ListV h l) ex)).
Qed.

Lemma llen_refines B s d k :
  Inv_at B s d -> valid_key k -> refines (llen k) s (spec_llen (peek_ms s) k d).
Proof.
  intros HI Hk. apply (load_typed_refines B); [done..| |].
  - intros s1 d1 HI1 _ _ _ _. by eapply refines_ret.
  - intros s1 d1 ver o HI1 _ _ _ Hty Hat Hd. destruct o as [[| | | |h l] ex]; try done.
    destruct (at_wf _ _ _ _ _ Hat) as [(Hh & Ht & Hlen) Hex]. cbn [value value_wf expiry] in *.
    rewrite list_bounds_of by done. cbn [list_of].
    replace (h + Z.of_nat (length l) - h) with (Z.of_nat (length l)) by lia.
    rewrite wrap_u64_small, wrap_i64_small by (unfold in_u64, in_i64; lia).
    by eapply refines_ret.
Qed.

End Lists.
