(* ===== verification/StoreZSet.v ===== *)
(** * Sorted sets: the operations implement their specifications

    [zadd], [zscore], [zrem], [zcard], [zrange] and [zrange_by_score] of
    store.rs.  The member records and the score index change together, so the
    batch lemmas treat the two records of a member as one step; the scan lemmas
    read the index back as the ranked members. *)

From S2P Require Import Prelude F64 Encoding Engine Gc Store StoreSpec StoreRep StoreInv.

(** ** Scores as maps *)

Section Scores.
Implicit Types (z : gmap bytes f64) (m : bytes) (eff : list (bytes * f64)) (sc : f64)
  (pairs : list (f64 * bytes)).

Definition scores_num z : Prop := map_Forall (fun _ sc => f64_num sc) z.

Lemma f64_eqb_refl sc : f64_num sc -> f64_eqb sc sc = true.
Proof. intros Hs. rewrite f64_eqb_key by done. apply Z.eqb_refl. Qed.

(** What one round of the loop does to the scores. *)
Definition zstep z (ms : bytes * f64) : gmap bytes f64 :=
  match z !! ms.1 with
  | Some old => if f64_eqb old ms.2 then z else <[ms.1 := ms.2]> z
  | None => <[ms.1 := ms.2]> z
  end.

Lemma zstep_lookup_ne z ms m : m <> ms.1 -> zstep z ms !! m = z !! m.
Proof.
  intros Hne. unfold zstep. destruct (z !! ms.1); [destruct (f64_eqb _ _); [done|]|];
    by rewrite lookup_insert_ne.
Qed.

Lemma zstep_lookup_eq z ms : zstep z ms !! ms.1 = update_score (z !! ms.1) (Some ms.2).
Proof.
  unfold zstep, update_score. destruct (z !! ms.1) eqn:Hz; [|apply lookup_insert_eq].
  destruct (f64_eqb _ _); [done|apply lookup_insert_eq].
Qed.

Lemma zstep_num z ms : scores_num z -> f64_num ms.2 -> scores_num (zstep z ms).
Proof.
  intros Hz Hs. unfold zstep. destruct (z !! ms.1); [destruct (f64_eqb _ _); [done|]|];
    by apply map_Forall_insert_2.
Qed.

(** A round adds the member or keeps the members. *)
Lemma zstep_size z ms :
  Z.of_nat (size (zstep z ms)) = Z.of_nat (size z) + (if z !! ms.1 is Some _ then 0 else 1).
Proof.
  unfold zstep. destruct (z !! ms.1) eqn:Hz.
  - destruct (f64_eqb _ _); [lia|]. rewrite map_size_insert_Some by eauto. lia.
  - rewrite map_size_insert_None by done. lia.
Qed.

Lemma zsteps_lookup eff z m :
  NoDup eff.*1 ->
  fold_left zstep eff z !! m = update_score (z !! m) ((list_to_map eff : gmap bytes f64) !! m).
Proof.
  revert z. induction eff as [|[m' sc] eff IH]; intros z; cbn.
  - intros _. rewrite lookup_empty. by destruct (z !! m).
  - intros [Hin Hnd]%list.NoDup_cons. rewrite IH by done.
    destruct (decide (m = m')) as [->|Hne].
    + rewrite lookup_insert_eq. rewrite (not_elem_of_list_to_map_1 eff) by done.
      pose proof (zstep_lookup_eq z (m', sc)) as Hst. cbn [fst snd] in Hst. rewrite Hst.
      unfold update_score.
      destruct (z !! m') as [o|]; [|done]. by destruct (f64_eqb o sc).
    + by rewrite lookup_insert_ne, zstep_lookup_ne by done.
Qed.

(** The deduplicated pairs: distinct members, each with its last score. *)
Lemma upsert_score_keys m sc eff x : x ∈ (upsert_score m sc eff).*1 <-> x = m \/ x ∈ eff.*1.
Proof.
  induction eff as [|[m' s'] eff IH]; cbn; [set_solver|].
  destruct (decide (m' = m)) as [->|Hne]; cbn; [set_solver|].
  rewrite !elem_of_cons, IH. naive_solver.
Qed.

Lemma upsert_score_nodup m sc eff : NoDup eff.*1 -> NoDup (upsert_score m sc eff).*1.
Proof.
  induction eff as [|[m' s'] eff IH]; cbn.
  - intros _. apply NoDup_singleton.
  - intros [Hin Hnd]%list.NoDup_cons. destruct (decide (m' = m)) as [->|Hne]; cbn.
    + by apply list.NoDup_cons.
    + apply list.NoDup_cons. split; [|by apply IH]. by rewrite upsert_score_keys; intros [->|].
Qed.

Lemma upsert_score_map m sc eff :
  NoDup eff.*1 -> (list_to_map (upsert_score m sc eff) : gmap bytes f64) = <[m := sc]> (list_to_map eff).
Proof.
  induction eff as [|[m' s'] eff IH]; cbn; [done|].
  intros [Hin Hnd]%list.NoDup_cons. destruct (decide (m' = m)) as [->|Hne]; cbn.
  - by rewrite insert_insert_eq.
  - rewrite IH by done. by rewrite insert_insert_ne.
Qed.

Lemma upsert_score_length m sc eff : (length (upsert_score m sc eff) <= S (length eff))%nat.
Proof. induction eff as [|[m' s'] eff IH]; cbn; [lia|]. case_decide; cbn; lia. Qed.

Lemma upsert_score_forall (P : f64 -> Prop) m sc eff :
  P sc -> Forall (fun ms => P ms.2) eff -> Forall (fun ms => P ms.2) (upsert_score m sc eff).
Proof.
  intros Hs. induction 1 as [|[m' s'] eff Hx HF IH]; cbn; [by repeat constructor|].
  case_decide; by constructor.
Qed.

Lemma effective_pairs_spec pairs :
  NoDup (effective_pairs pairs).*1 /\
  (list_to_map (effective_pairs pairs) : gmap bytes f64) = latest pairs /\
  (length (effective_pairs pairs) <= length pairs)%nat /\
  (Forall (fun sm => f64_num sm.1) pairs -> Forall (fun ms => f64_num ms.2) (effective_pairs pairs)).
Proof.
  unfold effective_pairs, latest.
  induction pairs as [|[sc m] pairs (IH1 & IH2 & IH3 & IH4)] using rev_ind.
  - cbn. split; [apply NoDup_nil_2|]. split; [done|]. split; [lia|constructor].
  - rewrite !fold_left_app, length_app. cbn. split_and!.
    + by apply upsert_score_nodup.
    + by rewrite upsert_score_map, IH2.
    + match goal with |- context [upsert_score m sc ?l] => pose proof (upsert_score_length m sc l) end. lia.
    + intros [HF Hx]%Forall_app. apply upsert_score_forall; [by inversion Hx|by apply IH4].
Qed.

Lemma zsteps_effective pairs z :
  fold_left zstep (effective_pairs pairs) z = zadd_scores z pairs.
Proof.
  destruct (effective_pairs_spec pairs) as (Hnd & Hmap & _).
  apply map_eq. intros m. rewrite zsteps_lookup, Hmap by done. unfold zadd_scores.
  rewrite lookup_merge. unfold diag_None. by destruct (z !! m), (latest pairs !! m).
Qed.

Lemma zsteps_size eff z :
  Z.of_nat (size z) <= Z.of_nat (size (fold_left zstep eff z)) <= Z.of_nat (size z) + Z.of_nat (length eff).
Proof.
  revert z. induction eff as [|ms eff IH]; intros z; cbn [fold_left length]; [lia|].
  specialize (IH (zstep z ms)). rewrite zstep_size in IH. destruct (z !! ms.1); lia.
Qed.

Lemma zsteps_num eff z :
  scores_num z -> Forall (fun ms => f64_num ms.2) eff -> scores_num (fold_left zstep eff z).
Proof.
  revert z. induction eff as [|ms eff IH]; intros z Hz HF; [done|].
  inversion HF; subst. cbn. apply IH; [by apply zstep_num|done].
Qed.

(** ** Ranks *)

#[export] Instance z_le_total : Total z_le.
Proof. intros a b. apply bytes_le_total. Qed.
#[export] Instance z_le_trans : Transitive z_le.
Proof. intros a b c. unfold z_le. by apply bytes_le_trans'. Qed.

Lemma ranked_perm z : ranked z ≡ₚ map_to_list z.
Proof. apply merge_sort_Permutation. Qed.

Lemma ranked_elem z m sc : (m, sc) ∈ ranked z <-> z !! m = Some sc.
Proof. by rewrite ranked_perm, elem_of_map_to_list. Qed.

Lemma length_ranked z : length (ranked z) = size z.
Proof. by rewrite ranked_perm, length_map_to_list. Qed.

Lemma ranked_sorted z : StronglySorted z_le (ranked z).
Proof. apply (StronglySorted_merge_sort z_le). Qed.

Lemma ranked_num z : scores_num z -> Forall (fun ms => f64_num ms.2) (ranked z).
Proof.
  intros Hz. apply list.Forall_forall. intros [m sc] Hin%ranked_elem. by apply (Hz m sc).
Qed.

(** The index suffix of a member. *)
Definition suffix_of (ms : bytes * f64) : bytes := encode_score ms.2 ++ ms.1.

Lemma suffix_of_inj a b : in_u64 a.2 -> in_u64 b.2 -> suffix_of a = suffix_of b -> a = b.
Proof.
  destruct a, b. unfold suffix_of; cbn. intros Ha Hb Heq.
  by apply encode_score_app_inj in Heq as [-> ->].
Qed.

(** The score index of a sorted set, read in key order, is its ranking. *)
Lemma index_sorted z (ix : gmap bytes bytes) :
  scores_num z ->
  (forall r, ix !! r = record (ZSetV z) ZSCORE_PREFIX r) ->
  sorted_entries ix = (fun ms => (suffix_of ms, [])) <$> ranked z.
Proof.
  intros Hz Hix. symmetry. apply sorted_entries_unique.
  - rewrite <- list_fmap_compose. cbn. pose proof (ranked_sorted z) as Hs.
    induction Hs as [|a l Hl IH Ha]; [constructor|]. cbn. constructor; [done|].
    rewrite Forall_fmap. eapply List.Forall_impl; [|exact Ha]. done.
  - rewrite <- list_fmap_compose. cbn.
    assert (Hin : forall ms, ms ∈ ranked z -> in_u64 ms.2).
    { intros [m sc] Hms%ranked_elem. by apply (Hz m sc). }
    assert (Hnd : NoDup (ranked z)) by (rewrite ranked_perm; apply NoDup_map_to_list).
    induction Hnd as [|a l Hna Hnd IH]; [constructor|]. cbn. apply list.NoDup_cons. split.
    + intros (b & Hb & Hbl)%list_elem_of_fmap. apply Hna.
      apply suffix_of_inj in Hb as ->; [done|apply Hin; by left|apply Hin; by right].
    + apply IH. intros ms Hms. apply Hin. by right.
  - intros r v. rewrite Hix, list_elem_of_fmap. unfold record. rewrite decide_False by done. split.
    + intros ([m sc] & [= -> ->] & Hms%ranked_elem). unfold suffix_of; cbn.
      rewrite split_score_suffix_encode by by apply (Hz m sc). by rewrite decide_True.
    + destruct (split_score_suffix_cases r) as [[-> _]|(sc & m & _ & -> & ->)]; [done|].
      case_decide as Hm; [|done]. intros [= <-]. exists (m, sc). split; [done|]. by apply ranked_elem.
Qed.

End Scores.

Section ZSets.
Context {E : Type} `{EngineLaws E}.

Abbreviation St := (State E).
Abbreviation records s := (contents (engine s)).
Implicit Types (k x m : bytes) (d : Db) (s : St) (B now ver : Z) (o : Obj) (z : gmap bytes f64)
  (sc : f64) (b : WriteBatch).

(** ** The two records of a member *)

Lemma record_member z m : record (ZSetV z) SUBKEY_PREFIX m = encode_score <$> z !! m.
Proof. done. Qed.

Lemma record_index_entry z sc m :
  in_u64 sc -> record (ZSetV z) ZSCORE_PREFIX (encode_score sc ++ m) =
  if decide (z !! m = Some sc) then Some [] else None.
Proof.
  intros Hs. unfold record. rewrite decide_False by done. by rewrite split_score_suffix_encode.
Qed.

Lemma record_index_short z r : (length r < 8)%nat -> record (ZSetV z) ZSCORE_PREFIX r = None.
Proof.
  intros Hr. unfold record, split_score_suffix. rewrite decide_False by done.
  by rewrite (proj2 (Nat.ltb_lt _ _)).
Qed.

(** The family of a key and, in the index family, its suffix, decide equality. *)
Lemma batch_to_zput s k ver b z m sc :
  batch_to s k ver b (ZSetV z) -> scores_num z -> in_u64 sc ->
  batch_to s k ver
    (batch_put (batch_put
       (match z !! m with Some old => batch_delete b (zscore_key k ver old m) | None => b end)
       (subkey k ver m) (encode_score sc)) (zscore_key k ver sc m) [])
    (ZSetV (<[m := sc]> z)).
Proof.
  intros [Hb Hto] Hz Hsc. rewrite subkey_versioned, !zscore_versioned. split.
  { apply batch_at_put, batch_at_put; [auto with gs..|]. destruct (z !! m); [|done].
    rewrite zscore_versioned. apply batch_at_delete; auto with gs. }
  assert (Hbase : forall p r, family p -> (p, r) <> (SUBKEY_PREFIX, m) ->
    (p, r) <> (ZSCORE_PREFIX, encode_score sc ++ m) ->
    apply_batch (match z !! m with Some old => batch_delete b (zscore_key k ver old m) | None => b end)
      (records s) !! versioned_key p k ver r = record (ZSetV (<[m := sc]> z)) p r).
  { intros p r Hp Hne1 Hne2.
    assert (Heq : apply_batch (match z !! m with Some old => batch_delete b (zscore_key k ver old m) | None => b end)
      (records s) !! versioned_key p k ver r =
      if decide (p = ZSCORE_PREFIX /\ (fun old => encode_score old ++ m) <$> z !! m = Some r) then None
      else record (ZSetV z) p r).
    { destruct (z !! m) as [old|] eqn:Hm.
      - rewrite zscore_versioned, apply_batch_delete. case_decide as Hc.
        + destruct Hc as (-> & Hc). cbn [fmap option_fmap option_map] in Hc. apply (inj Some) in Hc as <-. apply lookup_delete_eq.
        + rewrite lookup_delete_ne; [by apply Hto|].
          intros [<- <-]%versioned_key_rest. by apply Hc.
      - rewrite decide_False; [by apply Hto|]. by intros (_ & [=]). }
    rewrite Heq. clear Heq. destruct Hp as [-> | ->].
    - rewrite decide_False by (by intros [? _]). rewrite !record_member.
      rewrite lookup_insert_ne; [done|]. congruence.
    - destruct (split_score_suffix_cases r) as [[_ Hr]|(x & m' & Hx & -> & _)].
      + rewrite !record_index_short by done. by case_decide.
      + rewrite !record_index_entry by done. destruct (decide (m' = m)) as [->|Hmm].
        * rewrite lookup_insert_eq. rewrite (decide_False (P := Some sc = Some x)) by congruence.
          destruct (decide (z !! m = Some x)) as [Hzx|Hzx]; [|by case_decide].
          rewrite decide_True; [done|]. by rewrite Hzx.
        * rewrite lookup_insert_ne by done. rewrite decide_False; [done|].
          intros (_ & Heq). destruct (z !! m) as [old|] eqn:Hold; [|done].
          cbn [fmap option_fmap option_map] in Heq. apply (inj Some) in Heq.
          apply encode_score_app_inj in Heq as [_ ?]; [done|by apply (Hz m old)|done]. }
  intros p r Hp. rewrite !apply_batch_put.
  destruct (decide ((p, r) = (ZSCORE_PREFIX, encode_score sc ++ m))) as [[= -> ->]|Hne2].
  { rewrite lookup_insert_eq, record_index_entry by done. rewrite decide_True; [done|]. apply lookup_insert_eq. }
  rewrite lookup_insert_ne by (intros [<- <-]%versioned_key_rest; done).
  destruct (decide ((p, r) = (SUBKEY_PREFIX, m))) as [[= -> ->]|Hne1].
  { rewrite lookup_insert_eq, record_member. by rewrite (lookup_insert_eq z). }
  rewrite lookup_insert_ne by (intros [<- <-]%versioned_key_rest; done).
  by apply Hbase.
Qed.

Lemma batch_to_zdelete s k ver b z m sc :
  batch_to s k ver b (ZSetV z) -> scores_num z -> z !! m = Some sc ->
  batch_to s k ver (batch_delete (batch_delete b (subkey k ver m)) (zscore_key k ver sc m))
    (ZSetV (delete m z)).
Proof.
  intros [Hb Hto] Hz Hm. pose proof (Hz m sc Hm) as [Hsc _].
  rewrite subkey_versioned, !zscore_versioned. split.
  { apply batch_at_delete, batch_at_delete; auto with gs. }
  intros p r Hp. rewrite !apply_batch_delete.
  destruct (decide ((p, r) = (ZSCORE_PREFIX, encode_score sc ++ m))) as [[= -> ->]|Hne2].
  { rewrite lookup_delete_eq, record_index_entry by done. rewrite decide_False; [done|]. by rewrite (lookup_delete_eq z). }
  rewrite lookup_delete_ne by (intros [<- <-]%versioned_key_rest; done).
  destruct (decide ((p, r) = (SUBKEY_PREFIX, m))) as [[= -> ->]|Hne1].
  { rewrite lookup_delete_eq, record_member. by rewrite (lookup_delete_eq z). }
  rewrite lookup_delete_ne by (intros [<- <-]%versioned_key_rest; done).
  rewrite Hto by done. destruct Hp as [-> | ->].
  - rewrite !record_member, lookup_delete_ne; [done|]. congruence.
  - destruct (split_score_suffix_cases r) as [[_ Hr]|(x & m' & Hx & -> & _)].
    + by rewrite !record_index_short.
    + rewrite !record_index_entry by done. destruct (decide (m' = m)) as [->|Hmm].
      * rewrite lookup_delete_eq. rewrite !decide_False; [done|done|congruence].
      * by rewrite lookup_delete_ne.
Qed.

Lemma decode_stored_encode sc : in_u64 sc -> decode_stored_score (encode_score sc) = Ok sc.
Proof.
  intros Hs. unfold decode_stored_score. by rewrite length_encode_score, decode_score_encode.
Qed.

(** ** zadd *)

Lemma zadd_loop_ok s k ver z0 eff :
  reliable (engine s) -> key_open s k ver (ZSetV z0) -> scores_num z0 ->
  NoDup eff.*1 -> Forall (fun ms => f64_num ms.2) eff ->
  forall count added b z,
  batch_to s k ver b (ZSetV z) -> scores_num z ->
  (forall m, m ∈ eff.*1 -> z !! m = z0 !! m) -> (ops b = [] \/ z <> ∅) ->
  0 <= count -> count + Z.of_nat (length eff) < 2 ^ 32 ->
  0 <= added -> added + Z.of_nat (length eff) < 2 ^ 32 ->
  let z' := fold_left zstep eff z in
  let n := Z.of_nat (size z') - Z.of_nat (size z) in
  exists b',
    zadd_loop k ver eff count added b s = (s, Ok (count + n, added + n, b')) /\
    batch_to s k ver b' (ZSetV z') /\ (ops b' = [] \/ z' <> ∅).
Proof.
  intros Hr Hop Hz0. induction eff as [|[m sc] eff IH];
    intros Hnd HF count added b z Hto Hz Hsame Hemp Hc1 Hc2 Ha1 Ha2; cbv zeta.
  - exists b. cbn [fold_left]. by rewrite Z.sub_diag, !Z.add_0_r.
  - cbn [length] in Hc2, Ha2. cbn in Hnd. apply list.NoDup_cons in Hnd as [Hin Hnd].
    apply Forall_cons in HF as [Hsc HF]. cbn in Hsc. cbn [fold_left zadd_loop].
    rewrite (bind_ok _ _ _ _ _ (get_field s k ver _ m Hr Hop)), record_member.
    assert (Hzm : z !! m = z0 !! m) by (apply Hsame; left).
    rewrite <- Hzm. pose proof (batch_to_zput s k ver b z m sc Hto Hz (proj1 Hsc)) as Hput.
    pose proof (zstep_size z (m, sc)) as Hsz. cbn [fst] in Hsz.
    assert (Hsame' : forall x, x ∈ eff.*1 -> zstep z (m, sc) !! x = z0 !! x).
    { intros x Hx. rewrite zstep_lookup_ne by (cbn; intros ->; done). apply Hsame. by right. }
    assert (Hz' : scores_num (zstep z (m, sc))) by by apply zstep_num.
    assert (Hst : zstep z (m, sc) = match z !! m with
      | Some old => if f64_eqb old sc then z else <[m := sc]> z | None => <[m := sc]> z end) by done.
    rewrite Hst in Hsz, Hsame', Hz' |- *. clear Hst.
    destruct (z !! m) as [old|] eqn:Hm; cbn [fmap option_fmap option_map].
    + pose proof (Hz m old Hm) as [Hold _].
      unfold lift. unfold mbind at 1, M_bind at 1. rewrite decode_stored_encode by done.
      destruct (f64_eqb old sc).
      * destruct (IH Hnd HF count added b z Hto Hz) as (b' & Hl & Hb' & He'); [done..|lia|done|lia|].
        exists b'. done.
      * match goal with |- context [zadd_loop k ver eff count added ?b1 s] =>
          destruct (IH Hnd HF count added b1 (<[m := sc]> z) Hput Hz') as (b' & Hl & Hb' & He');
            [done|right; apply insert_non_empty|lia..|] end.
        exists b'. rewrite Hl. split; [|done]. do 4 f_equal; lia.
    + rewrite wrap_u32_small, wrap_i64_small by (unfold in_u32, in_i64; lia).
      match goal with |- context [zadd_loop k ver eff _ _ ?b1 s] =>
        destruct (IH Hnd HF (count + 1) (added + 1) b1 (<[m := sc]> z) Hput Hz') as (b' & Hl & Hb' & He');
          [done|right; apply insert_non_empty|lia..|] end.
      exists b'. rewrite Hl. split; [|done]. do 4 f_equal; lia.
Qed.

Lemma field_count_zset z ver ex :
  in_u32 (Z.of_nat (size z)) -> field_count (meta_of ver (mk_Obj (ZSetV z) ex)) = Z.of_nat (size z).
Proof. intros. by apply (field_count_set (mk_Meta TYPE_ZSET ver ex [])). Qed.

(** An empty batch left the scores alone. *)
Lemma batch_to_empty s k ver b z z' :
  ops b = [] -> key_open s k ver (ZSetV z) -> batch_to s k ver b (ZSetV z') ->
  scores_num z -> scores_num z' -> z' = z.
Proof.
  intros Hb (_ & _ & Hrec) [_ Hto] Hz Hz'. apply map_eq. intros m.
  pose proof (Hto SUBKEY_PREFIX m family_sub) as H1. unfold apply_batch in H1. rewrite Hb in H1.
  cbn [fold_left] in H1. rewrite Hrec, !record_member in H1 by auto with gs.
  destruct (z !! m) as [x|] eqn:Hx, (z' !! m) as [y|] eqn:Hy;
    cbn [fmap option_fmap option_map] in H1; try done.
  apply (inj Some) in H1. apply encode_score_inj in H1 as ->; [done|by apply (Hz m x)|by apply (Hz' m y)].
Qed.

Lemma zadd_refines B s d k pairs :
  Inv_at B s d -> valid_key k -> clock_left s -> room (Z.of_nat (length pairs)) (d !! k) ->
  Forall (fun sm => f64_num sm.1) pairs ->
  refines (zadd k pairs) s (spec_zadd (peek_ms s) k pairs d).
Proof.
  intros HI Hk Hc [Hlen Hroom] Hnum.
  refine (load_or_new_refines B s d k TYPE_ZSET (ZSetV ∅) _ (fun d o =>
    let '(z, ex) := zset_of (Some o) in
    let z' := zadd_scores z pairs in
    (if decide (z' = z) then d else <[k := mk_Obj (ZSetV z') ex]> d,
     Ok (Z.of_nat (size z') - Z.of_nat (size z))))
    HI Hk Hc _ _ _ _ _); [done|done| |done|].
  { intros p r [-> | ->]; unfold record; [by rewrite decide_True|rewrite decide_False by done].
    destruct (split_score_suffix r) as [[? ?]|]; [|done]. by rewrite decide_False. }
  intros s1 B1 d1 ver o HI1 _ _ Hdo Hty Hop Hwf Ho. destruct o as [[| | |z|] ex]; try done.
  cbn [zset_of value] in *.
  destruct (effective_pairs_spec pairs) as (Hnd & _ & Hlen' & Hfe). specialize (Hfe Hnum).
  assert (Hcr : in_u64 ex /\ Z.of_nat (size z) + Z.of_nat (length pairs) < 2 ^ 32 /\ scores_num z).
  { split; [destruct Hwf as [[? ?]|[= -> ->]]; [done|unfold in_u64; lia]|]. split.
    - destruct Ho as [Ho|[= -> ->]]; [by rewrite Ho in Hroom|]. rewrite map_size_empty. lia.
    - destruct Hwf as [[[? ?] ?]|[= -> ->]]; [done|apply map_Forall_empty]. }
  destruct Hcr as (Hex & Hlt & Hz).
  rewrite field_count_zset by (unfold in_u32; lia).
  destruct (zadd_loop_ok s1 k ver z (effective_pairs pairs) (inv_reliable _ _ _ HI1) Hop Hz Hnd Hfe
    (Z.of_nat (size z)) 0 WriteBatch_new z) as (b & Hl & Hb & He);
    [by apply batch_to_new|done|done|by left|lia..|].
  pose proof (zsteps_size (effective_pairs pairs) z) as Hsz.
  pose proof (zsteps_num (effective_pairs pairs) z Hz Hfe) as Hz'.
  rewrite zsteps_effective in Hl, Hb, He, Hsz, Hz'.
  set (z' := zadd_scores z pairs) in *.
  eapply refines_later; [done|by rewrite (bind_ok _ _ _ _ _ Hl)|]. cbv beta iota.
  rewrite Z.add_0_l. eapply refines_then; [|intros s2 B2 HI2 _; by eapply refines_ret].
  replace (Z.of_nat (size z) + (Z.of_nat (size z') - Z.of_nat (size z))) with (Z.of_nat (size z')) by lia.
  change (set_field_count (meta_of ver (mk_Obj (ZSetV z) ex)) (Z.of_nat (size z')))
    with (meta_of ver (mk_Obj (ZSetV z') ex)).
  unfold batch_is_empty. destruct (ops b) as [|op l] eqn:Hops; cbn [negb].
  - rewrite decide_True by by apply (batch_to_empty s1 k ver b). by eapply refines_ret.
  - assert (Hd : (if decide (z' = z) then d1 else <[k := mk_Obj (ZSetV z') ex]> d1) =
      <[k := mk_Obj (ZSetV z') ex]> d1).
    { case_decide as Hzz; [|done]. symmetry. apply insert_id. rewrite Hzz in *.
      destruct (d1 !! k) as [o|] eqn:Hdk; cbn in Hdo; [congruence|].
      injection Hdo as <- <-. destruct He as [?|He]; [done|]. by destruct He. }
    rewrite Hd. eapply commit_ok; [done..|split; [|done]].
    cbn. split; [unfold in_u32; lia|done].
Qed.

(** ** zrem *)

Lemma zrem_loop_ok s k ver z0 members :
  reliable (engine s) -> key_open s k ver (ZSetV z0) -> scores_num z0 ->
  forall seen count removed b z,
  batch_to s k ver b (ZSetV z) -> scores_num z ->
  (forall m, m ∉ seen -> z !! m = z0 !! m) -> (forall m, m ∈ seen -> z !! m = None) ->
  0 <= removed -> removed + Z.of_nat (length members) < 2 ^ 32 ->
  let z' := delete_fields z members in
  let n := Z.of_nat (size z) - Z.of_nat (size z') in
  exists b',
    zrem_loop k ver members seen count removed b s =
      (s, Ok (if decide (n = 0) then count else saturating_sub count n, removed + n, b')) /\
    batch_to s k ver b' (ZSetV z') /\ 0 <= n.
Proof.
  intros Hr Hop Hz0. induction members as [|m members IH];
    intros seen count removed b z Hto Hz Hsame Hseen Hr1 Hr2; cbv zeta.
  - exists b. rewrite delete_fields_nil, Z.sub_diag, Z.add_0_r. by rewrite decide_True.
  - cbn [length] in Hr2. cbn [zrem_loop]. rewrite delete_fields_cons.
    destruct (decide (m ∈ seen)) as [Hin|Hin].
    + rewrite delete_id by by apply Hseen.
      destruct (IH seen count removed b z Hto Hz Hsame Hseen) as (b' & Hl & Hb'); [lia..|]. by exists b'.
    + rewrite (bind_ok _ _ _ _ _ (get_field s k ver _ m Hr Hop)), record_member.
      rewrite <- Hsame by done. destruct (z !! m) as [sc|] eqn:Hm; cbn [fmap option_fmap option_map].
      * pose proof (Hz m sc Hm) as [Hsc _].
        unfold lift. unfold mbind at 1, M_bind at 1. rewrite decode_stored_encode by done.
        rewrite wrap_i64_small by (unfold in_i64; lia).
        pose proof (batch_to_zdelete s k ver b z m sc Hto Hz Hm) as Hto'.
        destruct (IH ({[m]} ∪ seen) (saturating_sub count 1) (removed + 1) _ (delete m z) Hto')
          as (b' & Hl & Hb' & Hn); [by apply map_Forall_delete| | |lia..|].
        { intros x Hx. rewrite lookup_delete_ne by set_solver. apply Hsame. set_solver. }
        { intros x Hx. destruct (decide (x = m)) as [->|]; [apply lookup_delete_eq|].
          rewrite lookup_delete_ne by done. apply Hseen. set_solver. }
        exists b'. rewrite Hl.
        assert (Hsz : Z.of_nat (size z) = Z.of_nat (size (delete m z)) + 1).
        { rewrite map_size_delete_Some by eauto.
          assert (size z <> 0)%nat; [|lia]. intros Hs%map_size_empty_inv. by rewrite Hs in Hm. }
        rewrite Hsz. split; [|split; [done|lia]].
        rewrite (decide_False (P := _ + 1 - _ = 0)) by lia. do 4 f_equal; [|lia].
        case_decide; unfold saturating_sub; lia.
      * rewrite delete_id by done.
        destruct (IH ({[m]} ∪ seen) count removed b z Hto Hz) as (b' & Hl & Hb'); [| |lia..|by exists b'].
        { intros x Hx. apply Hsame. set_solver. }
        { intros x Hx. destruct (decide (x = m)) as [->|]; [done|]. apply Hseen. set_solver. }
Qed.

Lemma zrem_refines B s d k members :
  Inv_at B s d -> valid_key k -> Z.of_nat (length members) < 2 ^ 32 ->
  refines (zrem k members) s (spec_zrem (peek_ms s) k members d).
Proof.
  intros HI Hk Hlen. apply (load_typed_refines B); [done..| |].
  - intros s1 d1 HI1 _ _ _ _. by eapply refines_ret.
  - intros s1 d1 ver o HI1 _ _ _ Hty Hat _. destruct o as [[| | |z|] ex]; try done.
    destruct (at_wf _ _ _ _ _ Hat) as [[Hsz Hz] Hex]. cbn [value value_wf expiry] in *.
    assert (Hop : key_open s1 k ver (ZSetV z))
      by by apply (key_at_open s1 k ver (mk_Obj (ZSetV z) ex)).
    destruct (zrem_loop_ok s1 k ver z members (inv_reliable _ _ _ HI1) Hop Hz ∅
      (Z.of_nat (size z)) 0 WriteBatch_new z) as (b & Hl & Hb & Hn);
      [by apply batch_to_new|done|done|set_solver|lia..|].
    cbn [zset_of]. rewrite field_count_zset by done. cbn [version meta_of].
    eapply refines_later; [done|by rewrite (bind_ok _ _ _ _ _ Hl)|]. cbv beta iota.
    unfold in_u32 in Hsz. set (z' := delete_fields z members) in *. rewrite Z.add_0_l.
    replace (if decide (Z.of_nat (size z) - Z.of_nat (size z') = 0) then Z.of_nat (size z)
      else saturating_sub (Z.of_nat (size z)) (Z.of_nat (size z) - Z.of_nat (size z')))
      with (Z.of_nat (size z')) by (case_decide; unfold saturating_sub; lia).
    eapply refines_then; [|intros s2 B2 HI2 _; by eapply refines_ret].
    replace (if decide (z' = ∅) then delete k d1 else <[k := mk_Obj (ZSetV z') ex]> d1)
      with (if decide (Z.of_nat (size z') = 0) then delete k d1 else <[k := mk_Obj (ZSetV z') ex]> d1).
    + eapply (finish_removal_ok B s1 d1 k ver (ZSetV z)); [done..|lia|done|].
      split; [|done]. cbn. split; [unfold in_u32; lia|]. unfold z', delete_fields.
      by apply map_Forall_filter_2 || (intros ? ? [? _]%map_lookup_filter_Some; by eapply Hz).
    + destruct (decide (z' = ∅)) as [->|Hne]; [by rewrite decide_True by (by rewrite map_size_empty)|].
      rewrite decide_False; [done|]. intros Hs. apply Hne. apply map_size_empty_inv. lia.
Qed.

(** ** Reading *)

Lemma zscore_refines B s d k m :
  Inv_at B s d -> valid_key k -> refines (zscore k m) s (spec_zscore (peek_ms s) k m d).
Proof.
  intros HI Hk. apply (load_typed_refines B); [done..| |].
  - intros s1 d1 HI1 _ _ _ _. by eapply refines_ret.
  - intros s1 d1 ver o HI1 _ _ _ Hty Hat _. destruct o as [[| | |z|] ex]; try done.
    cbn [version meta_of zset_of fst]. destruct (at_wf _ _ _ _ _ Hat) as [[_ Hz] _].
    eapply refines_later; [done|erewrite bind_ok; [done|]|].
    + apply (get_field s1 k ver (ZSetV z)); [apply HI1|].
      by apply (key_at_open s1 k ver (mk_Obj (ZSetV z) ex)).
    + rewrite record_member. destruct (z !! m) as [sc|] eqn:Hm; cbn [fmap option_fmap option_map].
      * unfold lift. eapply refines_later; [done|erewrite bind_ok; [done|]|by eapply refines_ret].
        rewrite decode_stored_encode; [done|]. by apply (Hz m sc).
      * by eapply refines_ret.
Qed.

Lemma zcard_refines B s d k :
  Inv_at B s d -> valid_key k -> refines (zcard k) s (spec_zcard (peek_ms s) k d).
Proof.
  intros HI Hk. apply (load_typed_refines B); [done..| |].
  - intros s1 d1 HI1 _ _ _ _. by eapply refines_ret.
  - intros s1 d1 ver o HI1 _ _ _ Hty Hat _. destruct o as [[| | |z|] ex]; try done.
    destruct (at_wf _ _ _ _ _ Hat) as [[Hc _] _]. cbn in Hc. unfold in_u32 in Hc. cbn [zset_of fst].
    rewrite field_count_zset, wrap_i64_small by (unfold in_u32, in_i64; lia).
    by eapply refines_ret.
Qed.

(** The items of a scan of the index. *)
Definition index_item (k : bytes) (ver : Z) (ms : bytes * f64) : bytes * bytes :=
  (zscore_prefix k ver ++ suffix_of ms, []).

Lemma scan_index s k ver z ex :
  key_at (records s) (versions s) k ver (mk_Obj (ZSetV z) ex) ->
  scan_entries (zscore_prefix k ver) (records s) = index_item k ver <$> ranked z.
Proof.
  intros Hat. destruct (at_wf _ _ _ _ _ Hat) as [[_ Hz] _].
  set (p := zscore_prefix k ver).
  destruct (scan_suffixes p (records s)) as [ix Hix].
  assert (Hrec : forall r, ix !! r = record (ZSetV z) ZSCORE_PREFIX r).
  { intros r. rewrite <- Hix. unfold p.
    by rewrite zscore_prefix_versioned, (at_records _ _ _ _ _ Hat) by auto with gs. }
  rewrite scan_entries_prepend, (scan_entries_strip p (records s) ix) by done.
  rewrite (index_sorted z ix Hz Hrec), <- list_fmap_compose. done.
Qed.

Lemma split_item k ver ms :
  in_u64 ms.2 ->
  split_score_suffix (drop (length (zscore_prefix k ver)) (index_item k ver ms).1) = Some (ms.2, ms.1).
Proof. intros Hm. unfold index_item, suffix_of. cbn [fst]. rewrite drop_app_length. by apply split_score_suffix_encode. Qed.

Lemma zrange_loop_ok k ver lo hi s l :
  Forall (fun ms => f64_num ms.2) l -> lo <= hi ->
  forall rank out, 0 <= rank ->
  zrange_loop (length (zscore_prefix k ver)) lo hi rank (Ok <$> (index_item k ver <$> l)) out s =
  (s, Ok (out ++ take (Z.to_nat (hi + 1 - Z.max lo rank)) (drop (Z.to_nat (lo - rank)) l))).
Proof.
  intros HF Hlo. induction HF as [|ms l [Hms _] HF IH]; intros rank out Hrank.
  - cbn. by rewrite drop_nil, take_nil, app_nil_r.
  - cbn [fmap list_fmap zrange_loop]. unfold lift. unfold mbind at 1, M_bind at 1.
    cbn [index_item]. fold (index_item k ver ms).
    destruct (Z.ltb_spec rank lo) as [Hl|Hl].
    + rewrite IH by lia. replace (Z.to_nat (lo - rank)) with (S (Z.to_nat (lo - (rank + 1)))) by lia.
      cbn [drop]. do 5 f_equal. lia.
    + replace (Z.to_nat (lo - rank)) with O by lia. rewrite drop_0.
      destruct (Z.ltb_spec hi rank) as [Hh|Hh].
      * replace (Z.to_nat _) with O by lia. by rewrite take_0, app_nil_r.
      * unfold some_or, lift. change (zscore_prefix k ver ++ suffix_of ms) with (index_item k ver ms).1.
        rewrite split_item by done. cbn [ok_or]. unfold mbind at 1, M_bind at 1.
        rewrite IH by lia. replace (Z.to_nat (lo - (rank + 1))) with O by lia. rewrite drop_0.
        replace (Z.to_nat (hi + 1 - Z.max lo rank))
          with (S (Z.to_nat (hi + 1 - Z.max lo (rank + 1)))) by lia.
        cbn [take]. rewrite <- (assoc_L (++)). by destruct ms.
Qed.

Lemma zrange_refines B s d k start stop :
  Inv_at B s d -> valid_key k ->
  refines (zrange k start stop) s (spec_zrange (peek_ms s) k start stop d).
Proof.
  intros HI Hk. apply (load_typed_refines B); [done..| |].
  - intros s1 d1 HI1 _ _ _ _. by eapply refines_ret.
  - intros s1 d1 ver o HI1 _ _ _ Hty Hat _. destruct o as [[| | |z|] ex]; try done.
    destruct (at_wf _ _ _ _ _ Hat) as [[Hc Hz] _]. cbn in Hc, Hz. cbn [zset_of fst].
    pose proof Hc as Hc'. unfold in_u32 in Hc'.
    rewrite field_count_zset, wrap_i64_small by (unfold in_i64; first [done|lia]).
    destruct (normalize_range start stop (Z.of_nat (size z))) as [[lo hi]|] eqn:Hn;
      [|by eapply refines_ret].
    assert (Hb : 0 <= lo <= hi).
    { unfold normalize_range in Hn. destruct (_ <=? 0); [done|].
      destruct (Z.ltb_spec (Z.min (if stop <? 0 then stop + Z.of_nat (size z) else stop) (Z.of_nat (size z) - 1))
        (Z.max (if start <? 0 then start + Z.of_nat (size z) else start) 0)); [done|].
      injection Hn as <- <-. lia. }
    exists s1. cbn [version meta_of sublist].
    rewrite (bind_ok _ _ _ _ _ (engine_scan_ok s1 _ (inv_reliable _ _ _ HI1))).
    rewrite (scan_index s1 k ver z ex) by done.
    rewrite zrange_loop_ok by (first [by apply ranked_num|lia]).
    split_and!; [|by exists B|done]. cbn [app snd]. do 3 f_equal; [lia|f_equal; lia].
Qed.

(** ZRANGEBYSCORE stops at the first score above the range: the scan is in
    score order, so nothing after it can match. *)
Lemma zrange_by_score_loop_ok k ver min min_ex max max_ex s l :
  f64_num min -> f64_num max -> StronglySorted z_le l -> Forall (fun ms => f64_num ms.2) l ->
  forall out,
  zrange_by_score_loop (length (zscore_prefix k ver)) min min_ex max max_ex
    (Ok <$> (index_item k ver <$> l)) out s =
  (s, Ok (out ++ filter (fun ms => score_in min min_ex max max_ex ms.2 = true) l)).
Proof.
  intros Hmin Hmax Hs. induction Hs as [|ms l Hs IH Hms]; intros HF out.
  - cbn. by rewrite app_nil_r.
  - apply Forall_cons in HF as [Hn HF].
    cbn [fmap list_fmap zrange_by_score_loop]. unfold lift. unfold mbind at 1, M_bind at 1.
    cbn [index_item]. unfold some_or, lift.
    change (zscore_prefix k ver ++ suffix_of ms) with (index_item k ver ms).1.
    rewrite split_item by apply Hn. cbn [ok_or]. unfold mbind at 1, M_bind at 1.
    destruct (f64_gtb ms.2 max || (max_ex && f64_eqb ms.2 max)) eqn:Hgt.
    + assert (Hnone : filter (fun ms => score_in min min_ex max max_ex ms.2 = true) (ms :: l) = []).
      { rewrite filter_cons_False by (unfold score_in; by rewrite Hgt).
        clear IH Hs. induction Hms as [|y l Hy Hl IHl]; [done|]. apply Forall_cons in HF as [Hny HF].
        rewrite filter_cons_False; [by apply IHl|].
        unfold score_in. assert (Hge : f64_key ms.2 <= f64_key y.2)
          by (eapply score_suffix_le; [apply Hn|apply Hny|exact Hy]).
        unfold f64_gtb in *. rewrite !f64_ltb_key, !f64_eqb_key in * by done.
        assert (Hgy : (f64_key max <? f64_key y.2) || (max_ex && (f64_key y.2 =? f64_key max)) = true);
          [|by rewrite Hgy].
        apply orb_true_iff in Hgt as [Hgt|Hgt].
        - apply Z.ltb_lt in Hgt. apply orb_true_iff. left. apply Z.ltb_lt. lia.
        - apply andb_true_iff in Hgt as [-> Hgt%Z.eqb_eq]. cbn.
          destruct (decide (f64_key y.2 = f64_key max)) as [->|]; [rewrite Z.eqb_refl; apply orb_true_r|].
          apply orb_true_iff. left. apply Z.ltb_lt. lia. }
      by rewrite Hnone, app_nil_r.
    + destruct (f64_ltb ms.2 min || (min_ex && f64_eqb ms.2 min)) eqn:Hlt.
      * rewrite filter_cons_False by (unfold score_in; by rewrite Hgt, Hlt). by apply IH.
      * rewrite filter_cons_True by (unfold score_in; by rewrite Hgt, Hlt).
        rewrite IH by done. rewrite <- (assoc_L (++)). by destruct ms.
Qed.

Lemma zrange_by_score_refines B s d k min min_ex max max_ex :
  Inv_at B s d -> valid_key k -> f64_num min -> f64_num max ->
  refines (zrange_by_score k min min_ex max max_ex) s
    (spec_zrange_by_score (peek_ms s) k min min_ex max max_ex d).
Proof.
  intros HI Hk Hmin Hmax. apply (load_typed_refines B); [done..| |].
  - intros s1 d1 HI1 _ _ _ _. by eapply refines_ret.
  - intros s1 d1 ver o HI1 _ _ _ Hty Hat _. destruct o as [[| | |z|] ex]; try done.
    destruct (at_wf _ _ _ _ _ Hat) as [[_ Hz] _]. cbn in Hz.
    exists s1. cbn [version meta_of zset_of fst].
    rewrite (bind_ok _ _ _ _ _ (engine_scan_ok s1 _ (inv_reliable _ _ _ HI1))).
    rewrite (scan_index s1 k ver z ex) by done.
    rewrite zrange_by_score_loop_ok by (first [done|apply ranked_sorted|by apply ranked_num]).
    split_and!; [done|by exists B|done].
Qed.

End ZSets.
