(* ===== verification/StoreAdmin.v ===== *)
(** * Administration: counting, compaction, flushing and reopening

    [dbsize], [raw_subkey_count], [compact], [flush_all] and [with_engine] of
    store.rs.  Compaction leaves the abstract database alone and every record
    it leaves belongs to a live version ([clean]), so that the raw count is
    then exactly the number of entries of the database; reopening rebuilds a
    version table under which the same records represent the same database. *)

From S2P Require Import Prelude F64 Encoding Engine Gc Store StoreSpec StoreRep StoreInv StoreZSet.

Section Admin.
Context {E : Type} `{EngineLaws E}.

Abbreviation St := (State E).
Abbreviation records s := (contents (engine s)).
Implicit Types (k raw : bytes) (d : Db) (s : St) (B now ver : Z) (o : Obj) (m : gmap bytes bytes)
  (vm : version_table).

(** ** DBSIZE *)

Lemma count_items_ok (l : list (bytes * bytes)) n s :
  0 <= n -> n + Z.of_nat (length l) < 2 ^ 63 ->
  count_items (Ok <$> l) n s = (s, Ok (n + Z.of_nat (length l))).
Proof.
  revert n. induction l as [|kv l IH]; intros n Hn Hlen; cbn [fmap list_fmap length count_items] in *.
  - by rewrite Z.add_0_r.
  - unfold lift. unfold mbind at 1, M_bind at 1.
    rewrite wrap_i64_small by (unfold in_i64; lia). rewrite IH by lia. do 2 f_equal. lia.
Qed.

(** The keys under a one-byte prefix. *)
Lemma scan_prefix1_keys (p : byte) m raw :
  raw ∈ (scan_entries [p] m).*1 <-> head raw = Some p /\ is_Some (m !! raw).
Proof.
  rewrite list_elem_of_fmap. split.
  - intros ([k v] & -> & ([f ->] & Hm)%scan_entries_elem). eauto.
  - intros [Hp [v Hv]]. exists (raw, v). split; [done|]. apply scan_entries_elem.
    split; [|done]. destruct raw as [|b raw]; [done|]. injection Hp as ->. by exists raw.
Qed.

Lemma scan_entries_nodup (p : bytes) m : NoDup (scan_entries p m).*1.
Proof. apply sorted_entries_nodup. Qed.

Lemma meta_scan_keys B s d :
  Inv_at B s d -> (scan_entries [META_PREFIX] (records s)).*1 ≡ₚ meta_key <$> (map_to_list d).*1.
Proof.
  intros HI. apply NoDup_Permutation.
  - apply scan_entries_nodup.
  - apply (NoDup_fmap_2 _), NoDup_fst_map_to_list.
  - intros raw. rewrite scan_prefix1_keys, list_elem_of_fmap. split.
    + intros [Hp Hm]. destruct (rep_raw _ _ _ _ (inv_rep _ _ _ HI) raw Hm)
        as [(k & Hk & ->)|(p & k & v & rest & [-> | ->] & _ & _ & ->)]; [|done..].
      exists k. split; [done|].
      pose proof (kr_obj _ _ _ _ _ (rep_key _ _ _ _ (inv_rep _ _ _ HI) k Hk)) as Ho.
      destruct (d !! k) as [o|] eqn:Hd; [|rewrite Ho in Hm; by destruct Hm].
      apply list_elem_of_fmap. exists (k, o). split; [done|]. by apply elem_of_map_to_list.
    + intros (k & -> & ([k' o] & -> & Hd%elem_of_map_to_list)%list_elem_of_fmap). split; [done|].
      cbn. assert (Hk : valid_key k') by (apply (rep_valid _ _ _ _ (inv_rep _ _ _ HI)); eauto).
      pose proof (kr_obj _ _ _ _ _ (rep_key _ _ _ _ (inv_rep _ _ _ HI) k' Hk)) as Ho.
      rewrite Hd in Ho. destruct Ho as (ver & Hat & _). rewrite (at_meta _ _ _ _ _ Hat). eauto.
Qed.

Lemma dbsize_refines B s d :
  Inv_at B s d -> Z.of_nat (size d) < 2 ^ 63 -> refines dbsize s (spec_dbsize d).
Proof.
  intros HI Hsz. exists s. unfold dbsize.
  rewrite (bind_ok _ _ _ _ _ (engine_scan_ok s _ (inv_reliable _ _ _ HI))).
  assert (Hlen : length (scan_entries [META_PREFIX] (records s)) = size d).
  { rewrite <- (length_fmap fst), (meta_scan_keys B s d HI), !length_fmap. apply length_map_to_list. }
  rewrite count_items_ok by lia. rewrite Hlen. split_and!; [done|by exists B|done].
Qed.

(** ** Compaction *)

(** No garbage: every versioned record belongs to its key's object. *)
Definition clean (s : St) (d : Db) : Prop :=
  forall p k v rest, family p -> valid_key k -> in_u64 v ->
    is_Some (records s !! versioned_key p k v rest) ->
    exists o, d !! k = Some o /\ key_at (records s) (versions s) k v o.

Lemma should_keep_versioned vm p k v rest :
  family p -> valid_key k -> in_u64 v ->
  VersionMap_should_keep vm (versioned_key p k v rest) = true <-> vm !! k = Some v.
Proof.
  intros Hp Hk Hv. unfold VersionMap_should_keep, VersionMap_get.
  rewrite parse_owner_versioned by done. destruct (vm !! k) as [c|]; [|done].
  destruct (Z.eqb_spec v c); naive_solver.
Qed.

(** Dropping records the predicate rejects keeps the representation. *)
Lemma rep_compact m m' vm B d :
  rep m vm B d ->
  (forall raw x, m' !! raw = Some x -> m !! raw = Some x) ->
  (forall raw x, m !! raw = Some x -> VersionMap_should_keep vm raw = true -> m' !! raw = Some x) ->
  rep m' vm B d.
Proof.
  intros [Hkey Hvalid Hraw] Hsafe Hkeep.
  assert (Hmeta : forall k, m' !! meta_key k = m !! meta_key k).
  { intros k. destruct (m !! meta_key k) as [x|] eqn:Hm; [by apply Hkeep|].
    apply eq_None_not_Some. intros [x Hx]. apply Hsafe in Hx. congruence. }
  assert (Hrec : forall p k v rest, family p -> valid_key k -> in_u64 v -> vm !! k = Some v ->
    m' !! versioned_key p k v rest = m !! versioned_key p k v rest).
  { intros p k v rest Hp Hk Hv Hvm. destruct (m !! versioned_key p k v rest) as [x|] eqn:Hm.
    - apply Hkeep; [done|]. by apply should_keep_versioned.
    - apply eq_None_not_Some. intros [x Hx]. apply Hsafe in Hx. congruence. }
  assert (Hno : forall k v, no_records m k v -> no_records m' k v).
  { intros k v Hn p rest Hp. apply eq_None_not_Some. intros [x Hx]. apply Hsafe in Hx.
    rewrite Hn in Hx; done. }
  assert (Hat : forall k ver o, valid_key k -> key_at m vm k ver o -> key_at m' vm k ver o).
  { intros k ver o Hk []. split; [done|done|by rewrite Hmeta| |done].
    intros p rest Hp. destruct (decide (value_type (value o) = TYPE_STRING)) as [Ht|Ht].
    - assert (Hn : record (value o) p rest = None).
      { destruct (value o); try done. unfold record. by repeat case_decide. }
      rewrite Hn. apply eq_None_not_Some. intros [x Hx]. apply Hsafe in Hx.
      rewrite at_records in Hx by done. congruence.
    - rewrite Hrec; [by apply at_records|done..|]. by apply at_tracked. }
  split.
  - intros k Hk. destruct (Hkey k Hk) as [Ho Ht Hb]. split.
    + destruct (d !! k) as [o|]; [|by rewrite Hmeta].
      destruct Ho as (ver & ? & ?). exists ver. auto.
    + intros v Hv. destruct (Ht v Hv) as (? & ? & [Hn|(o & ? & ?)]); split_and!; eauto 10.
    + intros p v rest Hp Hv [x Hx]. apply Hsafe in Hx. eapply Hb; eauto.
  - done.
  - intros raw [x Hx]. apply Hraw. exists x. by apply Hsafe.
Qed.

Lemma compact_ok B s d :
  Inv_at B s d ->
  exists s', compact s = (s', Ok tt) /\ Inv_at B s' d /\ later s s' /\ clean s' d.
Proof.
  intros HI. pose proof (inv_installed _ _ _ HI) as Hi.
  destruct (reliable_compact (versions s) (engine s) (Some Range_default) (inv_reliable _ _ _ HI))
    as (e & He & Hr).
  pose proof (compact_installed (versions s) (engine s) (Some Range_default)) as Hin.
  pose proof (compact_safe (versions s) (engine s) (Some Range_default)) as Hs.
  pose proof (compact_keeps (versions s) (engine s) (Some Range_default)) as Hk.
  rewrite He in Hin, Hs, Hk. cbn [fst] in *.
  exists (with_engine_state s e).
  assert (HI' : Inv_at B (with_engine_state s e) d).
  { apply (Inv_step B s _ d); try done. apply (rep_compact (records s)); [apply HI|exact Hs|].
    intros raw x Hx Hkeep. apply Hk; [done|]. by rewrite Hi. }
  split; [unfold compact, engine_compact_range; by rewrite He|]. split; [done|]. split; [done|].
  intros p k v rest Hp Hval Hv [x Hx]. cbn in Hx.
  assert (Hfull : gc_keeps (installed (engine s)) (versions s) (versioned_key p k v rest) x = true)
    by (by eapply (compact_full _ _ (Some Range_default)); [|exact He|]).
  rewrite Hi in Hfull. cbn in Hfull. unfold VersionMap_predicate in Hfull.
  apply should_keep_versioned in Hfull; [|done..].
  destruct (kr_tracked _ _ _ _ _ (rep_key _ _ _ _ (inv_rep _ _ _ HI') k Hval) v Hfull)
    as (_ & _ & [Hn|(o & Ho & Hat)]); [|by eauto].
  cbn in Hn. by rewrite (Hn p rest Hp) in Hx.
Qed.

Lemma compact_refines B s d : Inv_at B s d -> refines compact s (spec_compact d).
Proof.
  intros HI. destruct (compact_ok B s d HI) as (s' & Hc & HI' & Hl & _).
  exists s'. split_and!; [done|by exists B|done].
Qed.

(** ** FLUSHALL *)

Lemma delete_items_ok (l : list (bytes * bytes)) b s :
  exists b', delete_items (Ok <$> l) b s = (s, Ok b') /\
    forall m raw, apply_batch b' m !! raw = if decide (raw ∈ l.*1) then None else apply_batch b m !! raw.
Proof.
  revert b. induction l as [|[k v] l IH]; intros b; cbn [fmap list_fmap delete_items fst].
  - exists b. split; [done|]. intros m raw. by rewrite decide_False by set_solver.
  - destruct (IH (batch_delete b k)) as (b' & Hb' & Hl). exists b'. split; [exact Hb'|].
    intros m raw. rewrite Hl, apply_batch_delete.
    destruct (decide (raw ∈ l.*1)); [by rewrite decide_True by by right|].
    destruct (decide (raw = k)) as [->|Hne].
    + rewrite lookup_delete_eq. by rewrite decide_True by left.
    + rewrite lookup_delete_ne by done. by rewrite decide_False by set_solver.
Qed.

Lemma flush_all_refines B s d : Inv_at B s d -> refines flush_all s (spec_flush_all d).
Proof.
  intros HI. pose proof (inv_reliable _ _ _ HI) as Hr. unfold flush_all.
  set (l1 := scan_entries [META_PREFIX] (records s)).
  set (l2 := scan_entries [SUBKEY_PREFIX] (records s)).
  set (l3 := scan_entries [ZSCORE_PREFIX] (records s)).
  destruct (delete_items_ok l1 WriteBatch_new s) as (b1 & Hd1 & Hb1).
  destruct (delete_items_ok l2 b1 s) as (b2 & Hd2 & Hb2).
  destruct (delete_items_ok l3 b2 s) as (b3 & Hd3 & Hb3).
  destruct (engine_write_ok s b3 Hr) as (e & Hw & Hc & He & Hi).
  exists (with_versions (with_engine_state s e) ∅). split_and!; [| |done].
  - rewrite (bind_ok _ _ _ _ _ (engine_scan_ok s _ Hr)), (bind_ok _ _ _ _ _ Hd1).
    rewrite (bind_ok _ _ _ _ _ (engine_scan_ok s _ Hr)), (bind_ok _ _ _ _ _ Hd2).
    rewrite (bind_ok _ _ _ _ _ (engine_scan_ok s _ Hr)), (bind_ok _ _ _ _ _ Hd3).
    by rewrite (bind_ok _ _ _ _ _ Hw).
  - exists B. apply (Inv_step B s _ d); try done. cbn.
    assert (Hemp : contents e = ∅); [|rewrite Hemp; apply rep_empty].
    apply map_empty. intros raw. rewrite Hc, Hb3, Hb2, Hb1, apply_batch_new.
    unfold l1, l2, l3. do 3 (case_decide; [done|]). apply eq_None_not_Some. intros Hx.
    destruct (rep_raw _ _ _ _ (inv_rep _ _ _ HI) raw Hx)
      as [(k & Hk & ->)|(p & k & v & rest & [-> | ->] & _ & _ & ->)];
      match goal with Hn : ?r ∉ (scan_entries [?p] _).*1 |- _ =>
        apply Hn, scan_prefix1_keys; by split end.
Qed.

(** ** RAWCOUNT of a clean store *)

(** The number of records a value keeps in a family. *)
Definition family_count (p : byte) (v : Value) : nat :=
  match v with
  | StringV _ => 0
  | HashV _ h => if decide (p = SUBKEY_PREFIX) then size h else 0
  | SetV u => if decide (p = SUBKEY_PREFIX) then size u else 0
  | ZSetV z => size z
  | ListV _ l => if decide (p = SUBKEY_PREFIX) then length l else 0
  end%nat.

Lemma record_list_size (h : Z) (l : list bytes) (ix : gmap bytes bytes) :
  0 <= h -> h + Z.of_nat (length l) < 2 ^ 64 ->
  (forall r, ix !! r = record (ListV h l) SUBKEY_PREFIX r) -> size ix = length l.
Proof.
  intros Hh Ht Hix.
  assert (Hperm : (map_to_list ix).*1 ≡ₚ (fun i => list_index_field (h + Z.of_nat i)) <$> seq 0 (length l)).
  { apply NoDup_Permutation; [apply NoDup_fst_map_to_list| |].
    - apply (NoDup_fmap_2_strong _ _); [|apply NoDup_seq].
      intros i j Hi%elem_of_seq Hj%elem_of_seq Heq. unfold list_index_field in Heq.
      apply u64_be_inj in Heq; [lia|unfold in_u64; lia..].
    - intros r. rewrite !list_elem_of_fmap. split.
      + intros ([r' x] & -> & Hx%elem_of_map_to_list). cbn. rewrite Hix in Hx.
        unfold record in Hx. rewrite decide_True in Hx by done.
        destruct (decide _) as [[Hlen Hle]|]; [|done]. apply lookup_lt_Some in Hx.
        exists (Z.to_nat (of_be_bytes r' - h)). rewrite elem_of_seq. split; [|lia].
        rewrite Z2Nat.id by lia. replace (h + (of_be_bytes r' - h)) with (of_be_bytes r') by lia.
        unfold list_index_field. by rewrite be_bytes_of_be'.
      + intros (i & -> & Hi%elem_of_seq). destruct (lookup_lt_is_Some_2 l i) as [x Hx]; [lia|].
        exists (list_index_field (h + Z.of_nat i), x). split; [done|]. apply elem_of_map_to_list.
        rewrite Hix. unfold record, list_index_field.
        rewrite decide_True, length_be_bytes, of_be_u64, decide_True by (unfold in_u64; first [done|lia]).
        by replace (Z.to_nat (h + Z.of_nat i - h)) with i by lia. }
  rewrite <- length_map_to_list, <- (length_fmap fst), Hperm, length_fmap. apply length_seq.
Qed.

Lemma record_count (v : Value) (p : byte) (ix : gmap bytes bytes) :
  value_wf v -> family p -> (forall r, ix !! r = record v p r) -> size ix = family_count p v.
Proof.
  intros Hwf Hp Hix.
  assert (Hempty : (forall r, record v p r = None) -> size ix = 0%nat).
  { intros Hn. apply map_size_empty_iff, map_empty. intros r. by rewrite Hix. }
  destruct Hp as [-> | ->], v as [x|c h|u|z|h l]; cbn [family_count];
    try (apply Hempty; intros r; unfold record; by repeat case_decide);
    rewrite ?decide_True by done.
  - f_equal. by apply map_eq.
  - assert (Hg : ix = gset_to_gmap [] u).
    { apply map_eq. intros r. rewrite Hix. unfold record. rewrite decide_True by done.
      case_decide; symmetry; [by apply lookup_gset_to_gmap_Some|by apply lookup_gset_to_gmap_None]. }
    rewrite <- (dom_gset_to_gmap u ([] : bytes)), <- Hg. by rewrite size_dom.
  - rewrite <- (map_size_fmap encode_score z). f_equal. apply map_eq. intros r.
    rewrite Hix, lookup_fmap. done.
  - destruct Hwf as (? & ? & _). by apply (record_list_size h).
  - rewrite <- (length_ranked z), <- (length_sorted_entries ix), (index_sorted z); [|by destruct Hwf|done].
    apply length_fmap.
Qed.

(** The version a key's metadata gives. *)
Definition stored_version (m : gmap bytes bytes) (k : bytes) : Z :=
  match m !! meta_key k ≫= Meta_decode with Some x => version x | None => 0 end.

Lemma stored_version_at m vm k ver o : key_at m vm k ver o -> stored_version m k = ver.
Proof.
  intros Hat. unfold stored_version. rewrite (at_meta _ _ _ _ _ Hat). cbn [mbind option_bind].
  by rewrite Meta_decode_of by apply Hat.
Qed.

Definition family_records (p : byte) (d : Db) : Z :=
  foldr (fun kv n => Z.of_nat (family_count p (value kv.2)) + n) 0 (map_to_list d).

Lemma family_scan_count B s d p :
  Inv_at B s d -> clean s d -> family p ->
  Z.of_nat (length (scan_entries [p] (records s))) = family_records p d.
Proof.
  intros HI Hclean Hp. set (m := records s).
  set (part := fun kv : bytes * Obj =>
    (scan_entries (versioned_key p kv.1 (stored_version m kv.1) []) m).*1).
  assert (Hat : forall k o, d !! k = Some o -> valid_key k /\ key_at m (versions s) k (stored_version m k) o).
  { intros k o Hd. assert (Hk : valid_key k) by (apply (rep_valid _ _ _ _ (inv_rep _ _ _ HI)); eauto).
    pose proof (kr_obj _ _ _ _ _ (rep_key _ _ _ _ (inv_rep _ _ _ HI) k Hk)) as Ho.
    rewrite Hd in Ho. destruct Ho as (ver & Ha & _). unfold m; by rewrite (stored_version_at _ _ _ _ _ Ha). }
  assert (Hvk : forall k v rest, versioned_key p k v [] ++ rest = versioned_key p k v rest).
  { intros. unfold versioned_key. cbn. by rewrite <- !(assoc_L (++)). }
  assert (Hpart : forall k o raw, d !! k = Some o -> raw ∈ part (k, o) <->
    exists rest, raw = versioned_key p k (stored_version m k) rest /\ is_Some (m !! raw)).
  { intros k o raw Hd. unfold part. cbn [fst]. rewrite list_elem_of_fmap. split.
    - intros ([k' x] & -> & ([rest ->] & Hx)%scan_entries_elem). exists rest.
      rewrite Hvk in *. eauto.
    - intros (rest & -> & [x Hx]). exists (versioned_key p k (stored_version m k) rest, x).
      split; [done|]. apply scan_entries_elem. split; [|done]. exists rest. by rewrite Hvk. }
  assert (Hperm : (scan_entries [p] m).*1 ≡ₚ map_to_list d ≫= part).
  { apply NoDup_Permutation; [apply scan_entries_nodup| |].
    - apply NoDup_bind.
      + intros [k1 o1] [k2 o2] raw Hd1%elem_of_map_to_list Hd2%elem_of_map_to_list.
        rewrite (Hpart k1 o1 raw Hd1), (Hpart k2 o2 raw Hd2).
        intros (r1 & -> & _) (r2 & Heq & _).
        destruct (Hat k1 o1 Hd1) as [Hk1 [Hv1 _ _ _ _]], (Hat k2 o2 Hd2) as [Hk2 [Hv2 _ _ _ _]].
        apply versioned_key_inj in Heq as (_ & -> & _); [|done..]. congruence.
      + intros. apply scan_entries_nodup.
      + apply NoDup_map_to_list.
    - intros raw. rewrite scan_prefix1_keys, list_elem_of_bind. split.
      + intros [Hhd Hx]. destruct (rep_raw _ _ _ _ (inv_rep _ _ _ HI) raw Hx)
          as [(k & Hk & ->)|(p' & k & v & rest & Hp' & Hk & Hv & ->)].
        { cbn in Hhd. destruct Hp as [-> | ->]; done. }
        assert (p' = p) as -> by (by injection Hhd).
        destruct (Hclean p k v rest Hp Hk Hv Hx) as (o & Hd & Ha).
        exists (k, o). split; [|by apply elem_of_map_to_list].
        rewrite (Hpart k o _ Hd). unfold m. rewrite (stored_version_at _ _ _ _ _ Ha). eauto.
      + intros ([k o] & Hraw & Hd%elem_of_map_to_list). apply (Hpart k o raw Hd) in Hraw as (rest & -> & Hx).
        done. }
  rewrite <- (length_fmap fst), Hperm. unfold family_records.
  assert (Hin : forall kv, kv ∈ map_to_list d -> d !! kv.1 = Some kv.2)
    by (intros [k o]; apply elem_of_map_to_list).
  clear Hperm Hclean. induction (map_to_list d) as [|[k o] l IH]; [done|].
  cbn [mbind list_bind foldr]. rewrite length_app, Nat2Z.inj_add, IH by (intros; apply Hin; by right).
  f_equal. f_equal. specialize (Hin (k, o) ltac:(left)). cbn [fst snd] in Hin |- *.
  destruct (Hat k o Hin) as [Hk Ha]. unfold part. cbn [fst]. rewrite length_fmap.
  destruct (scan_suffixes (versioned_key p k (stored_version m k) []) m) as [ix Hix].
  rewrite <- (length_fmap (strip (versioned_key p k (stored_version m k) []))).
  rewrite (scan_entries_strip _ _ ix) by done. rewrite length_sorted_entries.
  apply record_count; [apply Ha|done|]. intros r. rewrite <- Hix, Hvk. by apply Ha.
Qed.

(** The records of the database: what RAWCOUNT should answer. *)
Definition total_records (d : Db) : Z :=
  foldr (fun kv n => value_records (value kv.2) + n) 0 (map_to_list d).

Lemma total_families d :
  family_records SUBKEY_PREFIX d + family_records ZSCORE_PREFIX d = total_records d.
Proof.
  unfold family_records, total_records. induction (map_to_list d) as [|[k o] l IH]; [done|].
  cbn [foldr snd]. assert (Hv : value_records (value o) =
    Z.of_nat (family_count SUBKEY_PREFIX (value o)) + Z.of_nat (family_count ZSCORE_PREFIX (value o))).
  { destruct (value o); cbn [value_records family_count]; rewrite ?(decide_True (P := SUBKEY_PREFIX = SUBKEY_PREFIX)), ?(decide_False (P := ZSCORE_PREFIX = SUBKEY_PREFIX)) by done; lia. }
  lia.
Qed.

Lemma raw_count_ok B s d :
  Inv_at B s d -> clean s d -> total_records d < 2 ^ 63 ->
  raw_subkey_count s = (s, Ok (total_records d)).
Proof.
  intros HI Hclean Hlt. unfold raw_subkey_count.
  pose proof (family_scan_count B s d _ HI Hclean family_sub) as H1.
  pose proof (family_scan_count B s d _ HI Hclean family_zscore) as H2.
  pose proof (total_families d) as Ht.
  rewrite (bind_ok _ _ _ _ _ (engine_scan_ok s _ (inv_reliable _ _ _ HI))).
  erewrite bind_ok by (apply count_items_ok; lia).
  rewrite (bind_ok _ _ _ _ _ (engine_scan_ok s _ (inv_reliable _ _ _ HI))).
  rewrite count_items_ok by lia. do 2 f_equal. lia.
Qed.

(** ** Reopening *)

(** What one metadata record contributes to the rebuilt table. *)
Definition rebuild_entry (kv : bytes * bytes) : option (bytes * Z) :=
  match Meta_decode kv.2 with
  | Some x => if decide (type_id x = TYPE_HASH \/ type_id x = TYPE_SET \/ type_id x = TYPE_ZSET \/
                type_id x = TYPE_LIST) then Some (drop 1 kv.1, version x) else None
  | None => None
  end.

Definition add_entry (vm : version_table) (e : bytes * Z) : version_table := <[e.1 := e.2]> vm.

Lemma rebuild_loop_ok (l : list (bytes * bytes)) s :
  Forall (fun kv => head kv.1 = Some META_PREFIX) l ->
  rebuild_loop (Ok <$> l) s =
    (with_versions s (fold_left add_entry (omap rebuild_entry l) (versions s)), Ok tt).
Proof.
  revert s. induction l as [|[k v] l IH]; intros s HF; [by destruct s|].
  apply Forall_cons in HF as [Hk HF]. cbn [fst] in Hk.
  cbn [fmap list_fmap rebuild_loop]. unfold lift. unfold mbind at 1, M_bind at 1.
  rewrite Hk, bool_decide_eq_true_2 by done. cbn [negb].
  assert (Homap : omap rebuild_entry ((k, v) :: l) =
    match rebuild_entry (k, v) with Some e => e :: omap rebuild_entry l | None => omap rebuild_entry l end) by done.
  rewrite Homap. unfold rebuild_entry at 1. cbn [fst snd].
  destruct (Meta_decode v) as [x|]; [|by apply IH].
  destruct (decide _) as [Ht|Ht].
  - assert (Hb : bool_decide (type_id x = TYPE_HASH) || bool_decide (type_id x = TYPE_SET) ||
      bool_decide (type_id x = TYPE_ZSET) || bool_decide (type_id x = TYPE_LIST) = true)
      by (rewrite !orb_true_iff, !bool_decide_eq_true; tauto).
    rewrite Hb. unfold mbind, M_bind. cbn [versions_set]. unfold versions_set. rewrite IH by done. done.
  - assert (Hb : bool_decide (type_id x = TYPE_HASH) || bool_decide (type_id x = TYPE_SET) ||
      bool_decide (type_id x = TYPE_ZSET) || bool_decide (type_id x = TYPE_LIST) = false)
      by (rewrite !orb_false_iff, !bool_decide_eq_false; tauto).
    rewrite Hb. by apply IH.
Qed.

Lemma fold_insert_lookup (l : list (bytes * Z)) vm k (v : Z) :
  NoDup l.*1 ->
  (fold_left add_entry l vm) !! k = Some v <->
  (k, v) ∈ l \/ (~ (k ∈ l.*1) /\ vm !! k = Some v).
Proof.
  revert vm. induction l as [|[k' v'] l IH]; intros vm; cbn; [set_solver|].
  intros [Hin Hnd]%list.NoDup_cons. rewrite IH by done.
  destruct (decide (k = k')) as [->|Hne].
  - rewrite lookup_insert_eq. split.
    + intros [Hl|[_ [= ->]]]; [left; by right|left; by left].
    + intros [[[= ->]|Hl]%elem_of_cons|[Hn _]]; [by right|by left|]. destruct Hn. left.
  - rewrite lookup_insert_ne by done. set_solver.
Qed.

(** The rebuilt table tracks exactly the composites, at their stored version. *)
Lemma rebuilt_lookup m vm B d k v :
  rep m vm B d ->
  (fold_left add_entry (omap rebuild_entry (scan_entries [META_PREFIX] m)) ∅) !! k = Some v <->
  valid_key k /\ exists o, d !! k = Some o /\ composite (value o) /\ key_at m vm k v o.
Proof.
  intros Hrep.
  assert (Hitem : forall raw x, (raw, x) ∈ scan_entries [META_PREFIX] m ->
    exists k o ver, raw = meta_key k /\ valid_key k /\ d !! k = Some o /\ key_at m vm k ver o /\
      x = Meta_encode (meta_of ver o)).
  { intros raw x ([rest ->] & Hx)%scan_entries_elem. cbn in Hx.
    destruct (rep_raw _ _ _ _ Hrep (META_PREFIX :: rest) ltac:(eauto))
      as [(k' & Hk & [= ->])|(p & k' & v' & r & [-> | ->] & _ & _ & [=])].
    pose proof (kr_obj _ _ _ _ _ (rep_key _ _ _ _ Hrep k' Hk)) as Ho.
    change (META_PREFIX :: k') with (meta_key k') in Hx.
    destruct (d !! k') as [o|] eqn:Hd; [|congruence]. destruct Ho as (ver & Hat & _).
    exists k', o, ver. rewrite (at_meta _ _ _ _ _ Hat) in Hx. injection Hx as <-. done. }
  assert (Hentry : forall k o ver, key_at m vm k ver o ->
    rebuild_entry (meta_key k, Meta_encode (meta_of ver o)) =
    if decide (composite (value o)) then Some (k, ver) else None).
  { intros k' o ver Hat. unfold rebuild_entry. cbn [fst snd].
    rewrite Meta_decode_of by apply Hat. unfold composite. cbn [type_id meta_of version].
    destruct (value o); cbn [value_type]; repeat case_decide; try done; exfalso; naive_solver. }
  rewrite fold_insert_lookup.
  - rewrite lookup_empty. split.
    + intros [([raw x] & Hin & He)%list_elem_of_omap|[_ [=]]].
      destruct (Hitem raw x Hin) as (k' & o & ver & -> & Hk & Hd & Hat & ->).
      rewrite (Hentry _ _ _ Hat) in He. case_decide as Hc; [|done]. injection He as -> ->. eauto.
    + intros (Hk & o & Hd & Hc & Hat). left. apply list_elem_of_omap.
      exists (meta_key k, Meta_encode (meta_of v o)). split.
      * apply scan_entries_elem. split; [by exists k|]. apply Hat.
      * rewrite (Hentry _ _ _ Hat). by rewrite decide_True.
  - assert (Hnd : NoDup (scan_entries [META_PREFIX] m).*1) by apply scan_entries_nodup.
    revert Hnd Hitem. generalize (scan_entries [META_PREFIX] m). induction l as [|[raw x] l IH]; [constructor|].
    intros [Hin Hnd]%list.NoDup_cons Hitem. cbn [fst] in Hin.
    assert (IH' : NoDup (omap rebuild_entry l).*1) by (apply IH; [done|]; intros; apply Hitem; by right).
    destruct (Hitem raw x ltac:(left)) as (k' & o & ver & -> & Hk & Hd & Hat & ->).
    cbn [omap list_omap]. rewrite (Hentry _ _ _ Hat). case_decide; [|done].
    cbn. apply list.NoDup_cons. split; [|done].
    intros ([k2 v2] & Heq & ([raw2 x2] & Hin2 & He2)%list_elem_of_omap)%list_elem_of_fmap. cbn in Heq. subst k2.
    destruct (Hitem raw2 x2 ltac:(by right)) as (k3 & o3 & ver3 & -> & _ & _ & Hat3 & ->).
    rewrite (Hentry _ _ _ Hat3) in He2. case_decide; [|done]. injection He2 as -> ->.
    apply Hin. by apply (list_elem_of_fmap_2 fst) in Hin2.
Qed.

(** A table that tracks exactly the composites represents the same database. *)
Lemma rep_rebuilt m vm vm' B d :
  rep m vm B d ->
  (forall k v, vm' !! k = Some v <->
     valid_key k /\ exists o, d !! k = Some o /\ composite (value o) /\ key_at m vm k v o) ->
  rep m vm' B d.
Proof.
  intros Hrep Hvm'.
  assert (Hat : forall k ver o, valid_key k -> d !! k = Some o -> key_at m vm k ver o -> key_at m vm' k ver o).
  { intros k ver o Hk Hd Ha. pose proof Ha as []. split; [done..|]. intros Hc. apply Hvm'. eauto. }
  split; [|apply Hrep|apply Hrep]. intros k Hk. destruct (rep_key _ _ _ _ Hrep k Hk) as [Ho Ht Hb]. split.
  - destruct (d !! k) as [o|] eqn:Hd; [|done]. destruct Ho as (ver & ? & ?). exists ver. auto.
  - intros v (_ & o & Hd & Hc & Ha)%Hvm'. split; [apply Ha|].
    rewrite Hd in Ho. destruct Ho as (ver & Ha' & Hle).
    assert (v = ver) as ->.
    { rewrite <- (stored_version_at _ _ _ _ _ Ha). by rewrite (stored_version_at _ _ _ _ _ Ha'). }
    split; [done|]. right. exists o. auto.
  - done.
Qed.

(** Every version in the stored records is at most [B]. *)
Record versions_below (B : Z) (m : gmap bytes bytes) : Prop := {
  below_records raw x u v : m !! raw = Some x -> parse_owner_version raw = Some (u, v) -> v <= B;
  below_metadata k x me : m !! meta_key k = Some x -> Meta_decode x = Some me -> version me <= B;
}.

(** Any bound on the versions in use serves. *)
Lemma rep_bound m vm B B' d :
  rep m vm B d -> (forall k v, vm !! k = Some v -> v <= B') -> versions_below B' m -> rep m vm B' d.
Proof.
  intros Hrep Hvm [Hraw Hmeta]. split; [|apply Hrep|apply Hrep].
  intros k Hk. destruct (rep_key _ _ _ _ Hrep k Hk) as [Ho Ht Hb]. split.
  - destruct (d !! k) as [o|]; [|done]. destruct Ho as (ver & Hat & _). exists ver. split; [done|].
    apply (Hmeta k _ (meta_of ver o) (at_meta _ _ _ _ _ Hat)). apply Meta_decode_of; apply Hat.
  - intros v Hv. destruct (Ht v Hv) as (? & _ & ?). eauto.
  - intros p v rest Hp Hv [x Hx]. eapply Hraw; [exact Hx|]. by apply parse_owner_versioned.
Qed.

(** The state a process starts in over an engine whose records represent [d]:
    an empty version clock, but a wall clock past the stored versions. *)
Lemma with_engine_ok B s vm d :
  rep (records s) vm B d -> 0 <= B <= u64_max -> in_u64 (VERSION_CLOCK s) -> fresh_above s B ->
  reliable (engine s) ->
  exists s', with_engine s = (s', Ok tt) /\ Inv_at B s' d /\ later s s'.
Proof.
  intros Hrep HB Hc Hf Hr.
  set (s0 := with_engine_state (with_versions s ∅) (eng_install_gc (engine s) VersionMap_predicate)).
  assert (Hrec : records s0 = records s) by (cbn; apply install_contents).
  assert (Hr0 : reliable (engine s0)) by (cbn; by apply install_reliable).
  assert (Hscan : Forall (fun kv => head kv.1 = Some META_PREFIX) (scan_entries [META_PREFIX] (records s0))).
  { apply list.Forall_forall. intros [k v] ([f ->] & _)%scan_entries_elem. done. }
  pose proof (rebuild_loop_ok (scan_entries [META_PREFIX] (records s0)) (with_versions s0 ∅) Hscan) as Hloop.
  eexists. split_and!.
  - unfold with_engine. rewrite (bind_ok (engine_install_gc VersionMap_predicate) _ _ s0 tt eq_refl).
    unfold rebuild_version_map. rewrite (bind_ok versions_clear _ _ (with_versions s0 ∅) tt eq_refl).
    rewrite (bind_ok _ _ _ _ _ (engine_scan_ok (with_versions s0 ∅) _ Hr0)). exact Hloop.
  - split; [|done|done|exact Hf|done|apply install_installed].
    change (records (with_versions _ _)) with (records s0). cbn [versions with_versions]. rewrite Hrec.
    eapply rep_rebuilt; [done|]. intros k v. by eapply rebuilt_lookup.
  - done.
Qed.

End Admin.
