(* ===== verification/StoreRefine.v ===== *)
(** * The store implements the abstract database

    [Op] names the operations of store.rs, [exec] runs one on the store and
    [spec] is its specification.  [exec_refines] collects the refinement lemmas
    of the preceding files, [run_refines] extends it to whole sequences of
    operations, the replies included. *)

From S2P Require Import Prelude F64 Encoding Engine Gc Rocks Store StoreSpec StoreRep StoreInv StoreGeneric StoreHash StoreSet StoreZSet StoreList StoreAdmin.

Inductive Op : Type :=
  | OSet (k v : bytes) (expire : Z) | OGet (k : bytes) | OExists (k : bytes) | OType (k : bytes)
  | ODel (k : bytes) | OExpireAt (k : bytes) (at_ms : Z) | OPttl (k : bytes)
  | OHset (k : bytes) (pairs : list (bytes * bytes)) | OHget (k f : bytes) | OHgetall (k : bytes)
  | OHdel (k : bytes) (fields : list bytes) | OHlen (k : bytes) | OHexists (k f : bytes)
  | OSadd (k : bytes) (members : list bytes) | OSrem (k : bytes) (members : list bytes)
  | OSismember (k m : bytes) | OSmembers (k : bytes) | OScard (k : bytes)
  | OZadd (k : bytes) (pairs : list (f64 * bytes)) | OZscore (k m : bytes)
  | OZrem (k : bytes) (members : list bytes) | OZcard (k : bytes) | OZrange (k : bytes) (start stop : Z)
  | OZrangeByScore (k : bytes) (min : f64) (min_ex : bool) (max : f64) (max_ex : bool)
  | OPush (k : bytes) (values : list bytes) (left : bool) | OPop (k : bytes) (count : Z) (left : bool)
  | OLrange (k : bytes) (start stop : Z) | OLlen (k : bytes)
  | ODbsize | OCompact | OFlushAll.

Inductive Reply : Type :=
  | RUnit | RInt (n : Z) | RBool (b : bool) | RText (t : bytes) | RValue (v : option bytes)
  | RScore (s : option f64) | RList (l : list bytes) | RPairs (l : list (bytes * bytes))
  | RScored (l : list (bytes * f64)).

Section Refine.
Context {E : Type} `{EngineLaws E}.

Abbreviation St := (State E).
Implicit Types (k : bytes) (d : Db) (s : St) (op : Op).

Definition exec (op : Op) : M E Reply :=
  match op with
  | OSet k v e => (fun _ => RUnit) <$> set k v e
  | OGet k => RValue <$> get k
  | OExists k => RBool <$> exists_ k
  | OType k => RText <$> type_of k
  | ODel k => RBool <$> del k
  | OExpireAt k t => RBool <$> expire_at k t
  | OPttl k => RInt <$> pttl k
  | OHset k p => RInt <$> hset k p
  | OHget k f => RValue <$> hget k f
  | OHgetall k => RPairs <$> hgetall k
  | OHdel k f => RInt <$> hdel k f
  | OHlen k => RInt <$> hlen k
  | OHexists k f => RBool <$> hexists k f
  | OSadd k m => RInt <$> sadd k m
  | OSrem k m => RInt <$> srem k m
  | OSismember k m => RBool <$> sismember k m
  | OSmembers k => RList <$> smembers k
  | OScard k => RInt <$> scard k
  | OZadd k p => RInt <$> zadd k p
  | OZscore k m => RScore <$> zscore k m
  | OZrem k m => RInt <$> zrem k m
  | OZcard k => RInt <$> zcard k
  | OZrange k a z => RScored <$> zrange k a z
  | OZrangeByScore k mn mne mx mxe => RScored <$> zrange_by_score k mn mne mx mxe
  | OPush k v l => RInt <$> push k v l
  | OPop k c l => RList <$> pop k c l
  | OLrange k a z => RList <$> lrange k a z
  | OLlen k => RInt <$> llen k
  | ODbsize => RInt <$> dbsize
  | OCompact => (fun _ => RUnit) <$> compact
  | OFlushAll => (fun _ => RUnit) <$> flush_all
  end.

Definition reply_as {A} (f : A -> Reply) (a : Ans A) : Ans Reply := (a.1, f <$> a.2).

Definition spec (now now' : Z) (op : Op) (d : Db) : Ans Reply :=
  match op with
  | OSet k v e => reply_as (fun _ => RUnit) (spec_set k v e d)
  | OGet k => reply_as RValue (spec_get now k d)
  | OExists k => reply_as RBool (spec_exists now k d)
  | OType k => reply_as RText (spec_type_of now k d)
  | ODel k => reply_as RBool (spec_del now k d)
  | OExpireAt k t => reply_as RBool (spec_expire_at now k t d)
  | OPttl k => reply_as RInt (spec_pttl now now' k d)
  | OHset k p => reply_as RInt (spec_hset now k p d)
  | OHget k f => reply_as RValue (spec_hget now k f d)
  | OHgetall k => reply_as RPairs (spec_hgetall now k d)
  | OHdel k f => reply_as RInt (spec_hdel now k f d)
  | OHlen k => reply_as RInt (spec_hlen now k d)
  | OHexists k f => reply_as RBool (spec_hexists now k f d)
  | OSadd k m => reply_as RInt (spec_sadd now k m d)
  | OSrem k m => reply_as RInt (spec_srem now k m d)
  | OSismember k m => reply_as RBool (spec_sismember now k m d)
  | OSmembers k => reply_as RList (spec_smembers now k d)
  | OScard k => reply_as RInt (spec_scard now k d)
  | OZadd k p => reply_as RInt (spec_zadd now k p d)
  | OZscore k m => reply_as RScore (spec_zscore now k m d)
  | OZrem k m => reply_as RInt (spec_zrem now k m d)
  | OZcard k => reply_as RInt (spec_zcard now k d)
  | OZrange k a z => reply_as RScored (spec_zrange now k a z d)
  | OZrangeByScore k mn mne mx mxe => reply_as RScored (spec_zrange_by_score now k mn mne mx mxe d)
  | OPush k v l => reply_as RInt (spec_push now k v l d)
  | OPop k c l => reply_as RList (spec_pop now k c l d)
  | OLrange k a z => reply_as RList (spec_lrange now k a z d)
  | OLlen k => reply_as RInt (spec_llen now k d)
  | ODbsize => reply_as RInt (spec_dbsize d)
  | OCompact => reply_as (fun _ => RUnit) (spec_compact d)
  | OFlushAll => reply_as (fun _ => RUnit) (spec_flush_all d)
  end.

(** What an operation asks of its arguments and of the state: keys of at most
    4 GiB, argument lists and collections that fit the counters, times and
    scores that are times and numbers, a version clock that has not run out. *)
Definition op_pre (s : St) (d : Db) (op : Op) : Prop :=
  match op with
  | OSet k _ e => valid_key k /\ clock_left s /\ in_u64 e
  | OGet k | OExists k | OType k | ODel k | OPttl k | OHget k _ | OHgetall k | OHlen k
  | OHexists k _ | OSismember k _ | OSmembers k | OScard k | OZscore k _ | OZcard k
  | OZrange k _ _ | OLrange k _ _ | OLlen k => valid_key k
  | OExpireAt k t => valid_key k /\ in_u64 t
  | OHset k p => valid_key k /\ clock_left s /\ room (Z.of_nat (length p)) (d !! k)
  | OHdel k l | OSrem k l | OZrem k l => valid_key k /\ Z.of_nat (length l) < 2 ^ 32
  | OSadd k m => valid_key k /\ clock_left s /\ room (Z.of_nat (length m)) (d !! k)
  | OZadd k p => valid_key k /\ clock_left s /\ room (Z.of_nat (length p)) (d !! k) /\
      Forall (fun sm => f64_num sm.1) p
  | OZrangeByScore k mn _ mx _ => valid_key k /\ f64_num mn /\ f64_num mx
  | OPush k v _ => valid_key k /\ clock_left s /\ room (Z.of_nat (length v)) (d !! k)
  | OPop k c _ => valid_key k /\ 0 <= c
  | ODbsize => Z.of_nat (size d) < 2 ^ 63
  | OCompact | OFlushAll => True
  end.

Lemma refines_fmap {A} (f : A -> Reply) (m : M E A) s a :
  refines m s a -> refines (f <$> m) s (reply_as f a).
Proof.
  intros (s' & Hm & HI & Hl). exists s'. unfold reply_as, fmap, M_fmap. rewrite Hm.
  destruct a as [d [x|e]]; done.
Qed.

Lemma exec_refines s d op :
  Inv s d -> op_pre s d op -> refines (exec op) s (spec (peek_ms s) (peek_ms2 s) op d).
Proof.
  intros [B HI] Hpre. destruct op; cbn [exec spec op_pre] in *;
    repeat match goal with Hc : _ /\ _ |- _ => destruct Hc end; apply refines_fmap.
  - by eapply set_refines.
  - by eapply get_refines.
  - by eapply exists_refines.
  - by eapply type_of_refines.
  - by eapply del_refines.
  - by eapply expire_at_refines.
  - by eapply pttl_refines.
  - by eapply hset_refines.
  - by eapply hget_refines.
  - by eapply hgetall_refines.
  - by eapply hdel_refines.
  - by eapply hlen_refines.
  - by eapply hexists_refines.
  - by eapply sadd_refines.
  - by eapply srem_refines.
  - by eapply sismember_refines.
  - by eapply smembers_refines.
  - by eapply scard_refines.
  - by eapply zadd_refines.
  - by eapply zscore_refines.
  - by eapply zrem_refines.
  - by eapply zcard_refines.
  - by eapply zrange_refines.
  - by eapply zrange_by_score_refines.
  - by eapply push_refines.
  - by eapply pop_refines.
  - by eapply lrange_refines.
  - by eapply llen_refines.
  - by eapply dbsize_refines.
  - by eapply compact_refines.
  - by eapply flush_all_refines.
Qed.

(** ** Sequences of operations *)

Fixpoint run (ops : list Op) (s : St) : St * list (result EngineError Reply) :=
  match ops with
  | [] => (s, [])
  | op :: rest =>
      let '(s1, r) := exec op s in
      let '(s2, rs) := run rest s1 in
      (s2, r :: rs)
  end.

(** The specification of a sequence; each operation comes with the two times it
    observes. *)
Fixpoint spec_run (ops : list (Op * (Z * Z))) (d : Db) : Db * list (result EngineError Reply) :=
  match ops with
  | [] => (d, [])
  | (op, (now, now')) :: rest =>
      let '(d1, r) := spec now now' op d in
      let '(d2, rs) := spec_run rest d1 in
      (d2, r :: rs)
  end.

(** The preconditions along a run. *)
Fixpoint run_pre (ops : list Op) (s : St) (d : Db) : Prop :=
  match ops with
  | [] => True
  | op :: rest =>
      op_pre s d op /\ run_pre rest (exec op s).1 (spec (peek_ms s) (peek_ms2 s) op d).1
  end.

(** The times the operations of a run observe: the clock readings at its steps. *)
Fixpoint run_times (ops : list Op) (s : St) : list (Z * Z) :=
  match ops with
  | [] => []
  | op :: rest => (peek_ms s, peek_ms2 s) :: run_times rest (exec op s).1
  end.

Definition timed (ops : list Op) (s : St) : list (Op * (Z * Z)) := zip ops (run_times ops s).

(** Any sequence of operations whose preconditions hold along the way answers as
    the abstract database does at the times it observes. *)
Lemma run_refines (ops : list Op) (s : St) (d : Db) :
  Inv s d -> run_pre ops s d ->
  (run ops s).2 = (spec_run (timed ops s) d).2 /\
  Inv (run ops s).1 (spec_run (timed ops s) d).1.
Proof.
  unfold timed. revert s d. induction ops as [|op ops IH]; intros s d HI Hpre; [done|].
  destruct Hpre as [Hop Hrest]. destruct (exec_refines s d op HI Hop) as (s1 & Hx & HI1 & _).
  cbn [run run_times zip zip_with spec_run]. rewrite Hx in Hrest |- *. cbn [fst] in Hrest |- *.
  destruct (IH s1 _ HI1 Hrest) as (Hrs & HI2).
  destruct (spec (peek_ms s) (peek_ms2 s) op d) as [d1 r]. cbn [fst snd] in *.
  destruct (run ops s1) as [s2 rs], (spec_run (zip ops (run_times ops s1)) d1) as [d2 rs']. cbn in *.
  split; [congruence|done].
Qed.

End Refine.

(** ** A running store on the in-memory engine *)

(** A wall clock that advances one millisecond a reading. *)
Definition demo_clock (n : nat) : Z := 1700000000000000000 + Z.of_nat n * 1000000.

Definition demo_state : State (RocksEngine MemDb) :=
  mk_State (eng_install_gc mem_engine VersionMap_predicate) ∅ 0 demo_clock 0.

Lemma demo_inv : Inv_at 0 demo_state ∅.
Proof.
  split; [apply rep_empty|unfold u64_max; lia|cbn; unfold in_u64; lia|left; cbn; lia| |done].
  cbn. split; [constructor|done].
Qed.

(** The demonstration store after some operations. *)
Definition demo_after (ops : list Op) : State (RocksEngine MemDb) := (run ops demo_state).1.
Definition demo_db (ops : list Op) : Db := (spec_run (timed ops demo_state) ∅).1.

Lemma demo_after_inv ops : run_pre ops demo_state ∅ -> Inv (demo_after ops) (demo_db ops).
Proof. intros Hp. apply run_refines; [exists 0; exact demo_inv|exact Hp]. Qed.

Ltac solve_pre :=
  cbn [run_pre op_pre];
  repeat match goal with |- _ /\ _ => split end;
  repeat match goal with |- Forall _ _ => constructor end;
  vm_compute; repeat first [exact I | discriminate | split].
