(* ===== verification/Ideal.v ===== *)
(** * The engine that never fails

    The contract of an engine, executed: a map and the installed predicate, every
    call of which succeeds.  [ideal s] is a store's state over it, with the
    records the store has.  An operation over any engine that keeps the contract
    [mirrors] the same operation over the ideal one: unless a call of the engine
    fails and its fault is the answer, it answers the same and goes to the same
    records, versions and clocks.  What is proved of the operations over an
    engine that does not fail thus holds, over an engine that may, of each run
    that ends without a fault. *)

From S2P Require Import Prelude F64 Encoding Engine Gc Store StoreSpec StoreRep StoreInv StoreRefine.

(** ** The ideal engine *)

Record IdealEngine : Type := mk_Ideal {
  ideal_map : gmap bytes bytes;
  ideal_gc : option GcPredicate;
}.

#[export] Instance IdealEngine_engine : GeneralEngine IdealEngine := {
  eng_get e k := Ok (ideal_map e !! k);
  eng_write e b := (mk_Ideal (apply_batch b (ideal_map e)) (ideal_gc e), Ok tt);
  eng_scan_prefix e p := Ok <$> scan_entries p (ideal_map e);
  eng_compact_range vt e r :=
    (mk_Ideal (filter (fun kv => gc_keeps (ideal_gc e) vt kv.1 kv.2 = true) (ideal_map e)) (ideal_gc e), Ok tt);
  eng_install_gc e p := mk_Ideal (ideal_map e) (Some p);
}.

#[export] Program Instance IdealEngine_laws : EngineLaws IdealEngine := {
  contents := ideal_map;
  installed := ideal_gc;
  reliable _ := True;
  fault _ := False;
}.
Next Obligation. by intros e k v [= <-]. Qed.
Next Obligation. done. Qed.
Next Obligation. by intros e b e' [= <-]. Qed.
Next Obligation. done. Qed.
Next Obligation. done. Qed.
Next Obligation. done. Qed.
Next Obligation. intros e p. apply cut_all. Qed.
Next Obligation. intros vt e r k v. cbn. by intros [? _]%map_lookup_filter_Some. Qed.
Next Obligation. intros vt e r k v Hk Hg. cbn. by apply map_lookup_filter_Some. Qed.
Next Obligation. intros vt e r e' k v _ [= <-]. cbn. by intros [_ ?]%map_lookup_filter_Some. Qed.
Next Obligation. done. Qed.
Next Obligation. done. Qed.
Next Obligation. done. Qed.
Next Obligation. done. Qed.
Next Obligation. done. Qed.
Next Obligation. done. Qed.
Next Obligation. intros e b _. by eexists. Qed.
Next Obligation. done. Qed.
Next Obligation. intros vt e r _. by eexists. Qed.

Section Ideal.
Context {E : Type} `{EngineLaws E}.

Abbreviation St := (State E).
Implicit Types (s : St).

Definition ideal (s : St) : State IdealEngine :=
  mk_State (mk_Ideal (contents (engine s)) (installed (engine s))) (versions s) (VERSION_CLOCK s)
    (clock s) (tick s).

(** ** Mirroring *)

(** The computation answered with a fault of the engine. *)
Definition faulted {A} (r : result EngineError A) : Prop := exists e, r = Err e /\ fault e.

Definition mirrors {A} (m : M E A) (m' : M IdealEngine A) : Prop :=
  forall s, faulted (m s).2 \/ m' (ideal s) = (ideal (m s).1, (m s).2).

Lemma mirrors_ret {A} (a : A) : mirrors (mret a) (mret a).
Proof. by right. Qed.

Lemma mirrors_lift {A} (r : result EngineError A) : mirrors (lift r) (lift r).
Proof. by right. Qed.

Lemma mirrors_throw {A} e : mirrors (throw (A := A) e) (throw e).
Proof. by right. Qed.

Lemma mirrors_bind {A C} (m : M E A) m' (f : A -> M E C) f' :
  mirrors m m' -> (forall a, mirrors (f a) (f' a)) -> mirrors (m ≫= f) (m' ≫= f').
Proof.
  intros Hm Hf s. unfold mbind, M_bind. destruct (Hm s) as [(e & He & Hx)|Hs].
  - left. destruct (m s) as [s1 r]. cbn in He. subst r. by exists e.
  - rewrite Hs. destruct (m s) as [s1 [a|e]]; [apply Hf|by right].
Qed.

Lemma mirrors_fmap {A C} (g : A -> C) (m : M E A) m' : mirrors m m' -> mirrors (g <$> m) (g <$> m').
Proof.
  intros Hm s. unfold fmap, M_fmap. destruct (Hm s) as [(e & He & Hx)|Hs].
  - left. destruct (m s) as [s1 r]. cbn in He. subst r. by exists e.
  - right. rewrite Hs. by destruct (m s) as [s1 [a|e]].
Qed.

Lemma mirrors_get k : mirrors (engine_get k) (engine_get k).
Proof.
  intros s. unfold engine_get. cbn. destruct (eng_get (engine s) k) as [v|e] eqn:Hg.
  - right. by rewrite (get_ok _ _ _ Hg).
  - left. exists e. split; [done|]. by eapply get_fault.
Qed.

Lemma mirrors_write b : mirrors (engine_write b) (engine_write b).
Proof.
  intros s. unfold engine_write. pose proof (write_installed (engine s) b) as Hi.
  destruct (eng_write (engine s) b) as [e [[]|x]] eqn:Hw; cbn in *.
  - right. unfold ideal, with_engine_state. cbn. by rewrite (write_ok _ _ _ Hw), Hi.
  - left. exists x. split; [done|]. by eapply write_fault.
Qed.

(** A scan and what reads its items: the items that come before a fault are
    those of the ideal scan. *)
Lemma mirrors_scan {C} p (f : list (result EngineError (bytes * bytes)) -> M E C) f' :
  (forall items l, cut fault items l -> mirrors (f items) (f' (Ok <$> l))) ->
  mirrors (engine_scan_prefix p ≫= f) (engine_scan_prefix p ≫= f').
Proof. intros Hf s. apply Hf, scan_cut. Qed.

Lemma mirrors_compact : mirrors compact compact.
Proof.
  intros s. unfold compact, engine_compact_range. pose proof (compact_installed (versions s) (engine s) (Some Range_default)) as Hi.
  destruct (eng_compact_range _ _ _) as [e [[]|x]] eqn:Hc; cbn in *.
  - right. unfold ideal, with_engine_state. cbn. rewrite Hi. do 3 f_equal.
    apply map_eq. intros k. apply option_eq. intros v. rewrite map_lookup_filter_Some.
    pose proof (compact_safe (versions s) (engine s) (Some Range_default) k v) as Hs.
    pose proof (compact_keeps (versions s) (engine s) (Some Range_default) k v) as Hk.
    pose proof (compact_full (versions s) (engine s) (Some Range_default) e k v I Hc) as Hf.
    rewrite Hc in Hs, Hk. cbn in *. naive_solver.
  - left. exists x. split; [done|]. by eapply compact_fault.
Qed.

Lemma mirrors_versions_set k v : mirrors (versions_set k v) (versions_set k v).
Proof. by right. Qed.
Lemma mirrors_versions_remove k : mirrors (versions_remove k) (versions_remove k).
Proof. by right. Qed.
Lemma mirrors_versions_clear : mirrors versions_clear versions_clear.
Proof. by right. Qed.
Lemma mirrors_now_ms : mirrors now_ms now_ms.
Proof. by right. Qed.
Lemma mirrors_next_version : mirrors next_version next_version.
Proof. by right. Qed.

(** ** The operations *)

(** Follows the text of the two computations. *)
Ltac mirror :=
  repeat first
    [ done
    | apply mirrors_ret | apply mirrors_lift | apply mirrors_throw | apply mirrors_get
    | apply mirrors_write | apply mirrors_versions_set | apply mirrors_versions_remove
    | apply mirrors_versions_clear | apply mirrors_now_ms | apply mirrors_next_version
    | progress auto with mirror
    | apply mirrors_scan; intros ? ? ?
    | apply mirrors_bind; [|intros ?]
    | case_match ].

Create HintDb mirror discriminated.

Lemma mirrors_load_live k : mirrors (load_live_meta k) (load_live_meta k).
Proof. unfold load_live_meta, load_meta, expired, logical_delete, some_or. mirror. Qed.
#[local] Hint Resolve mirrors_load_live : mirror.

Lemma mirrors_load_typed k ty : mirrors (load_typed k ty) (load_typed k ty).
Proof. unfold load_typed. mirror. Qed.
#[local] Hint Resolve mirrors_load_typed : mirror.

Lemma mirrors_new_composite k ty : mirrors (new_composite_meta k ty) (new_composite_meta k ty).
Proof. unfold new_composite_meta. mirror. Qed.
#[local] Hint Resolve mirrors_new_composite : mirror.

Lemma mirrors_load_or_new k ty : mirrors (load_or_new_counted k ty) (load_or_new_counted k ty).
Proof. unfold load_or_new_counted. mirror. Qed.
#[local] Hint Resolve mirrors_load_or_new : mirror.

Lemma mirrors_logical_delete k : mirrors (logical_delete k) (logical_delete k).
Proof. unfold logical_delete. mirror. Qed.
#[local] Hint Resolve mirrors_logical_delete : mirror.

Lemma mirrors_finish k m c r b : mirrors (finish_removal k m c r b) (finish_removal k m c r b).
Proof. unfold finish_removal. mirror. Qed.
#[local] Hint Resolve mirrors_finish : mirror.

(** Loops over the keys of the arguments. *)

Lemma mirrors_hset_loop k ver pairs fc c b : mirrors (hset_loop k ver pairs fc c b) (hset_loop k ver pairs fc c b).
Proof. revert fc c b. induction pairs as [|[f v] pairs IH]; intros fc c b; cbn [hset_loop]; mirror; apply IH. Qed.

Lemma mirrors_hdel_loop k ver l fc c b : mirrors (hdel_loop k ver l fc c b) (hdel_loop k ver l fc c b).
Proof. revert fc c b. induction l as [|f l IH]; intros fc c b; cbn [hdel_loop]; mirror; apply IH. Qed.

Lemma mirrors_sadd_loop k ver l seen n c b : mirrors (sadd_loop k ver l seen n c b) (sadd_loop k ver l seen n c b).
Proof. revert seen n c b. induction l as [|m l IH]; intros seen n c b; cbn [sadd_loop]; mirror; apply IH. Qed.

Lemma mirrors_srem_loop k ver l seen n c b : mirrors (srem_loop k ver l seen n c b) (srem_loop k ver l seen n c b).
Proof. revert seen n c b. induction l as [|m l IH]; intros seen n c b; cbn [srem_loop]; mirror; apply IH. Qed.

Lemma mirrors_zadd_loop k ver l n c b : mirrors (zadd_loop k ver l n c b) (zadd_loop k ver l n c b).
Proof. revert n c b. induction l as [|[m x] l IH]; intros n c b; cbn [zadd_loop]; mirror; apply IH. Qed.

Lemma mirrors_zrem_loop k ver l seen n c b : mirrors (zrem_loop k ver l seen n c b) (zrem_loop k ver l seen n c b).
Proof. revert seen n c b. induction l as [|m l IH]; intros seen n c b; cbn [zrem_loop]; mirror; apply IH. Qed.

Lemma mirrors_pop_loop fuel k ver n left h t out b :
  mirrors (pop_loop fuel k ver n left h t out b) (pop_loop fuel k ver n left h t out b).
Proof.
  revert h t out b. induction fuel as [|fuel IH]; intros h t out b; cbn [pop_loop]; unfold some_or; mirror; apply IH.
Qed.

Lemma mirrors_lrange_loop k ver h l out : mirrors (lrange_loop k ver h l out) (lrange_loop k ver h l out).
Proof. revert out. induction l as [|x l IH]; intros out; cbn [lrange_loop]; unfold some_or; mirror; apply IH. Qed.

(** Loops over the items of a scan: at the first fault, if they come to it, they
    answer with it. *)

Lemma mirrors_item {A C} (r : result EngineError A) x (f : A -> M E C) m' :
  r = Err x -> fault x -> mirrors (lift r ≫= f) m'.
Proof. intros -> Hx s. left. by exists x. Qed.

Ltac mirror_items loop :=
  let Hc := fresh in intros Hc;
  induction Hc as [|[? ?] ? ? ? IH|? ? ? ?]; intros; cbn [loop fmap list_fmap]; unfold some_or;
  [mirror | mirror; apply IH | by eapply mirrors_item].

Lemma mirrors_collect {A} (f : bytes -> bytes -> A) items l out :
  cut fault items l -> mirrors (collect_items f items out) (collect_items f (Ok <$> l) out).
Proof. intros Hc. revert out. revert Hc. mirror_items (@collect_items). Qed.

Lemma mirrors_count items l n : cut fault items l -> mirrors (count_items items n) (count_items (Ok <$> l) n).
Proof. intros Hc. revert n. revert Hc. mirror_items (@count_items). Qed.

Lemma mirrors_delete items l b : cut fault items l -> mirrors (delete_items items b) (delete_items (Ok <$> l) b).
Proof. intros Hc. revert b. revert Hc. mirror_items (@delete_items). Qed.

Lemma mirrors_zrange_loop n lo hi rank items l out :
  cut fault items l -> mirrors (zrange_loop n lo hi rank items out) (zrange_loop n lo hi rank (Ok <$> l) out).
Proof. intros Hc. revert rank out. revert Hc. mirror_items (@zrange_loop). Qed.

Lemma mirrors_by_score_loop n mn mne mx mxe items l out :
  cut fault items l ->
  mirrors (zrange_by_score_loop n mn mne mx mxe items out) (zrange_by_score_loop n mn mne mx mxe (Ok <$> l) out).
Proof. intros Hc. revert out. revert Hc. mirror_items (@zrange_by_score_loop). Qed.

#[local] Hint Resolve mirrors_hset_loop mirrors_hdel_loop mirrors_sadd_loop mirrors_srem_loop mirrors_zadd_loop
  mirrors_zrem_loop mirrors_pop_loop mirrors_lrange_loop mirrors_collect mirrors_count mirrors_delete
  mirrors_zrange_loop mirrors_by_score_loop mirrors_compact : mirror.

(** Every operation of the store over any engine mirrors itself over the ideal
    one. *)
Lemma exec_mirrors op : mirrors (exec op) (exec op).
Proof.
  destruct op; cbn [exec]; apply mirrors_fmap; unfold set, put_meta, get, exists_, type_of, del, expire_at, pttl, hset,
    hexists, hget, hgetall, hdel, hlen, sadd, srem, sismember, smembers, scard, zadd, zscore, zrem, zcard, zrange,
    zrange_by_score, push, pop, lrange, llen, dbsize, flush_all, some_or; mirror.
Qed.

End Ideal.
