(* ===== verification/StoreProps.v ===== *)
(** * What clients of the store can rely on

    Consequences of the refinement, stated on the operations of store.rs
    themselves: reads after writes, exact counts, order and range of sorted sets,
    lists as double-ended queues, expiry, type errors, reclamation by
    compaction, reopening.  Two theorems show what a repeated field does to
    the count of a hash, and two what a failed write leaves behind. *)

From S2P Require Import Prelude F64 Encoding Engine Gc Rocks Store StoreSpec StoreRep StoreInv StoreGeneric StoreHash StoreSet StoreZSet StoreList StoreAdmin StoreRefine.

Implicit Types (k f : bytes) (now : Z) (v : Value).

(** ** Expiry in the specification *)

Lemma live_no_expiry now k (d : Db) o : d !! k = Some o -> expiry o = 0 -> live now k d = Some o.
Proof.
  intros Hd He. unfold live, purge. rewrite Hd, decide_False; [done|]. unfold obj_expired. lia.
Qed.

Lemma live_missing now k (d : Db) : d !! k = None -> live now k d = None.
Proof. intros Hd. unfold live, purge. by rewrite Hd. Qed.

Lemma purge_missing now k (d : Db) : d !! k = None -> purge now k d = d.
Proof. intros Hd. unfold purge. by rewrite Hd. Qed.

Lemma purge_no_expiry now k (d : Db) o : d !! k = Some o -> expiry o = 0 -> purge now k d = d.
Proof.
  intros Hd He. unfold purge. rewrite Hd, decide_False; [done|]. unfold obj_expired. lia.
Qed.

(** Key [k] is missing or holds [v] without an expiry. *)
Definition holds (d : Db) (k : bytes) (v0 v : Value) : Prop :=
  (d !! k = None /\ v = v0) \/ d !! k = Some (mk_Obj v 0).

Lemma on_type_holds {A : Type} now k (d : Db) v0 v (missing : Db -> Ans A) (present : Db -> Obj -> Ans A) :
  holds d k v0 v ->
  on_type now (value_type v) k d missing present =
  match d !! k with None => missing d | Some o => present d o end.
Proof.
  intros Hh. unfold on_type. destruct Hh as [[Hd _]|Hd].
  - by rewrite (purge_missing _ _ _ Hd), Hd.
  - rewrite (purge_no_expiry _ _ _ _ Hd) by done. rewrite Hd. by rewrite decide_True.
Qed.

Lemma on_type_insert {A : Type} now k (d : Db) v (missing : Db -> Ans A) (present : Db -> Obj -> Ans A) :
  on_type now (value_type v) k (<[k := mk_Obj v 0]> d) missing present =
  present (<[k := mk_Obj v 0]> d) (mk_Obj v 0).
Proof.
  unfold on_type. assert (Hl : <[k := mk_Obj v 0]> d !! k = Some (mk_Obj v 0)) by apply lookup_insert_eq.
  rewrite (purge_no_expiry _ _ _ _ Hl), Hl by done. by rewrite decide_True.
Qed.

(** The state after an operation, and its answer. *)
Abbreviation after m s := (fst (m s)) (only parsing).
Abbreviation answer m s := (snd (m s)) (only parsing).

Section Props.
Context {E : Type} `{EngineLaws E}.

Abbreviation St := (State E).
Implicit Types (d : Db) (s : St) (ty : byte) (o : Obj) (op : Op) (c ex : Z) (h : gmap bytes bytes).

Lemma refines_answer {A} (m : M E A) s a : refines m s a -> answer m s = a.2 /\ Inv (after m s) a.1.
Proof. intros (s' & -> & HI & _). done. Qed.

(** ** Hashes *)

(** The last value a call gives a field. *)
Lemma insert_pairs_lookup (h : gmap bytes bytes) pairs f :
  insert_pairs h pairs !! f =
  match last (filter (fun fv => fv.1 = f) pairs) with Some fv => Some fv.2 | None => h !! f end.
Proof.
  unfold insert_pairs. induction pairs as [|[g x] pairs IH] using rev_ind; [done|].
  rewrite fold_left_app, filter_app. cbn [fold_left fst snd].
  destruct (decide (g = f)) as [->|Hne].
  - rewrite lookup_insert_eq, filter_cons_True by done. by rewrite filter_nil, last_snoc.
  - rewrite lookup_insert_ne by done. rewrite filter_cons_False by done.
    by rewrite filter_nil, app_nil_r.
Qed.

Lemma spec_hset_holds now k pairs d c h :
  holds d k (HashV 0 ∅) (HashV c h) ->
  spec_hset now k pairs d =
    (<[k := mk_Obj (HashV (c + new_fields h pairs) (insert_pairs h pairs)) 0]> d, Ok (new_fields h pairs)).
Proof.
  intros Hh. unfold spec_hset. rewrite (on_type_holds now k d (HashV 0 ∅) (HashV c h)) by done.
  by destruct Hh as [[-> [= -> ->]]| ->].
Qed.

(** HGET after HSET: a field set by the call has the last value the call
    gave it, every other field the value it had. *)
Theorem hset_then_hget s d k pairs f c h :
  Inv s d -> op_pre s d (OHset k pairs) -> holds d k (HashV 0 ∅) (HashV c h) ->
  answer (hget k f) (after (hset k pairs) s) =
    Ok (match last (filter (fun fv => fv.1 = f) pairs) with Some fv => Some fv.2 | None => h !! f end).
Proof.
  intros [B HI] (Hk & Hc & Hroom) Hh.
  destruct (refines_answer _ _ _ (hset_refines B s d k pairs HI Hk Hc Hroom)) as [_ [B1 HI1]].
  destruct (refines_answer _ _ _ (hget_refines B1 _ _ k f HI1 Hk)) as [-> _].
  rewrite (spec_hset_holds _ _ _ _ _ _ Hh). cbn [fst]. unfold spec_hget.
  set (v := HashV (c + new_fields h pairs) (insert_pairs h pairs)).
  rewrite (on_type_insert _ k d v). cbn. by rewrite insert_pairs_lookup.
Qed.

(** Hash counts are exact. *)
Definition exact (d : Db) : Prop :=
  map_Forall (fun _ o => match value o with HashV c h => c = Z.of_nat (size h) | _ => True end) d.

(** No call lists a field twice. *)
Definition distinct_fields (op : Op) : Prop :=
  match op with
  | OHset _ pairs => NoDup pairs.*1
  | OHdel _ fields => NoDup fields
  | _ => True
  end.

Lemma size_insert_pairs (h : gmap bytes bytes) pairs :
  NoDup pairs.*1 -> Z.of_nat (size (insert_pairs h pairs)) = Z.of_nat (size h) + new_fields h pairs.
Proof.
  unfold insert_pairs, new_fields. revert h.
  induction pairs as [|[f x] pairs IH]; intros h; cbn [fmap list_fmap fold_left fst snd]; [cbn; lia|].
  intros [Hin Hnd]%list.NoDup_cons. rewrite IH by done.
  assert (Hf : filter (fun fv : bytes * bytes => <[f := x]> h !! fv.1 = None) pairs =
    filter (fun fv : bytes * bytes => h !! fv.1 = None) pairs).
  { apply filter_ext_Forall. clear -Hin. induction pairs as [|[g y] pairs IH]; constructor.
    - cbn. rewrite lookup_insert_ne; [done|]. intros ->. apply Hin. left.
    - apply IH. intros ?. apply Hin. by right. }
  rewrite Hf. destruct (h !! f) as [y|] eqn:Hhf.
  - rewrite map_size_insert_Some by eauto. rewrite filter_cons_False by (cbn; by rewrite Hhf). done.
  - rewrite map_size_insert_None by done. rewrite filter_cons_True by done. cbn [length]. lia.
Qed.

Lemma size_delete_list (h : gmap bytes bytes) fields :
  NoDup fields -> Z.of_nat (size (delete_fields h fields)) = Z.of_nat (size h) - old_fields h fields.
Proof.
  unfold old_fields. revert h. induction fields as [|f fields IH]; intros h.
  - intros _. rewrite delete_fields_nil. cbn. lia.
  - intros [Hin Hnd]%list.NoDup_cons. rewrite delete_fields_cons, IH by done.
    assert (Hf : filter (fun g => is_Some (delete f h !! g)) fields = filter (fun g => is_Some (h !! g)) fields).
    { apply filter_ext_Forall. clear -Hin. induction fields as [|g fields IH]; constructor.
      - rewrite lookup_delete_ne; [done|]. intros ->. apply Hin. left.
      - apply IH. intros ?. apply Hin. by right. }
    rewrite Hf. destruct (h !! f) as [y|] eqn:Hhf.
    + rewrite filter_cons_True by (rewrite Hhf; eauto). cbn [length].
      rewrite map_size_delete_Some by eauto.
      assert (size h <> 0)%nat; [|lia]. intros Hs%map_size_empty_inv. by rewrite Hs in Hhf.
    + rewrite filter_cons_False by (rewrite Hhf; by intros [? [=]]). by rewrite delete_id.
Qed.

Lemma exact_delete d k : exact d -> exact (delete k d).
Proof. apply map_Forall_delete. Qed.

Lemma exact_purge now d k : exact d -> exact (purge now k d).
Proof. intros Hd. unfold purge. destruct (d !! k); [case_decide|]; auto using exact_delete. Qed.

Lemma exact_insert d k o :
  exact d -> match value o with HashV c h => c = Z.of_nat (size h) | _ => True end ->
  exact (<[k := o]> d).
Proof. intros Hd Ho. by apply map_Forall_insert_2. Qed.

Lemma exact_on_type {A : Type} now ty k d (missing : Db -> Ans A) (present : Db -> Obj -> Ans A) :
  exact d ->
  (forall d, exact d -> exact (missing d).1) ->
  (forall d o, exact d -> d !! k = Some o -> exact (present d o).1) ->
  exact (on_type now ty k d missing present).1.
Proof.
  intros Hd Hm Hp. pose proof (exact_purge now d k Hd) as Hpu. unfold on_type.
  destruct (purge now k d !! k) as [o|] eqn:Ho; [case_decide|]; eauto.
Qed.

Lemma exact_hash d k c h ex : exact d -> d !! k = Some (mk_Obj (HashV c h) ex) -> c = Z.of_nat (size h).
Proof. intros Hd Hk. by apply (Hd _ _ Hk). Qed.

Lemma exact_hash_of d k o c h ex :
  exact d -> d !! k = Some o -> hash_of (Some o) = (c, h, ex) -> c = Z.of_nat (size h).
Proof.
  intros Hd Hk Ho. destruct o as [[|c' h'| | |] ex']; cbn in Ho; injection Ho as <- <- <-;
    try by rewrite map_size_empty. by eapply exact_hash.
Qed.

Lemma exact_hset_upd d k c h ex pairs :
  exact d -> c = Z.of_nat (size h) -> NoDup pairs.*1 ->
  exact (<[k := mk_Obj (HashV (c + new_fields h pairs) (insert_pairs h pairs)) ex]> d).
Proof. intros Hd Hc Hnd. apply exact_insert; [done|]. cbn. rewrite size_insert_pairs by done. lia. Qed.

Lemma exact_hdel_upd d k c h ex fields :
  exact d -> c = Z.of_nat (size h) -> NoDup fields ->
  exact (<[k := mk_Obj (HashV (saturating_sub c (old_fields h fields)) (delete_fields h fields)) ex]> d).
Proof.
  intros Hd Hc Hnd. apply exact_insert; [done|]. cbn. pose proof (size_delete_list h fields Hnd) as Hs.
  rewrite Hs. unfold saturating_sub. lia.
Qed.

Lemma exact_spec now now' op d : exact d -> distinct_fields op -> exact (spec now now' op d).1.
Proof.
  intros Hd Hop. pose proof (exact_purge now d) as Hp.
  destruct op; cbn [spec reply_as fst distinct_fields] in *;
    try (apply exact_on_type; [done| |]); try done; auto using exact_delete.
  - by apply exact_insert.
  - by apply Hp.
  - by apply Hp.
  - by apply exact_delete.
  - unfold spec_expire_at, live. destruct (purge now k d !! k) as [o|] eqn:Ho; cbn [fst]; [|auto].
    apply exact_insert; [done|]. cbn. by apply (Hp k Hd k o).
  - by apply Hp.
  - intros d1 Hd1. cbn. by apply (exact_hset_upd d1 k 0 ∅ 0).
  - intros d1 o Hd1 Ho. destruct (hash_of (Some o)) as [[c h] ex] eqn:Hh. cbn [fst].
    apply exact_hset_upd; [done|by eapply exact_hash_of|done].
  - intros d1 o Hd1 Ho. by destruct (hash_of (Some o)) as [[c h] ex].
  - intros d1 o Hd1 Ho. by destruct (hash_of (Some o)) as [[c h] ex].
  - intros d1 o Hd1 Ho. destruct (hash_of (Some o)) as [[c h] ex] eqn:Hh. cbn [fst].
    repeat case_decide; auto using exact_delete.
    apply exact_hdel_upd; [done|by eapply exact_hash_of|done].
  - intros d1 o Hd1 Ho. by destruct (hash_of (Some o)) as [[c h] ex].
  - unfold spec_hexists. destruct (spec_hget now k f d) as [d1 r] eqn:Hg. cbn [fst].
    assert (Hx : exact (spec_hget now k f d).1); [|by rewrite Hg in Hx].
    apply exact_on_type; [done|done|]. intros d2 o Hd2 Ho. by destruct (hash_of (Some o)) as [[c h] ex].
  - intros d1 Hd1. cbn. case_decide; [done|]. by apply exact_insert.
  - intros d1 o Hd1 Ho. destruct (set_of (Some o)) as [u ex]. cbn. case_decide; [done|]. by apply exact_insert.
  - intros d1 o Hd1 Ho. destruct (set_of (Some o)) as [u ex]. cbn.
    repeat case_decide; auto using exact_delete. by apply exact_insert.
  - intros d1 Hd1. cbn. case_decide; [done|]. by apply exact_insert.
  - intros d1 o Hd1 Ho. destruct (zset_of (Some o)) as [z ex]. cbn. case_decide; [done|]. by apply exact_insert.
  - intros d1 o Hd1 Ho. destruct (zset_of (Some o)) as [z ex]. cbn.
    repeat case_decide; auto using exact_delete. by apply exact_insert.
  - intros d1 Hd1. cbn. apply exact_insert; [done|]. unfold push_list. by destruct left.
  - intros d1 o Hd1 Ho. destruct (list_of (Some o)) as [[h l] ex]. cbn. apply exact_insert; [done|].
    unfold push_list. by destruct left.
  - intros d1 o Hd1 Ho. destruct (list_of (Some o)) as [[h l] ex]. cbn.
    repeat case_decide; auto using exact_delete. apply exact_insert; [done|].
    unfold pop_rest. by destruct left.
  - intros d1 o Hd1 Ho. by destruct (list_of (Some o)) as [[h l] ex].
  - intros d1 o Hd1 Ho. by destruct (list_of (Some o)) as [[h l] ex].
Qed.

(** C30. As long as no call lists a field twice, the stored field counts stay
    exact: after any operation every hash's count is its number of fields, and
    HLEN reports it. *)
Theorem hash_counts_exact s d op k :
  Inv s d -> exact d -> op_pre s d op -> distinct_fields op -> valid_key k ->
  exists d', Inv (after (exec op) s) d' /\ exact d' /\
    answer (hlen k) (after (exec op) s) =
      match live (peek_ms (after (exec op) s)) k d' with
      | Some (mk_Obj (HashV _ h) _) => Ok (Z.of_nat (size h))
      | Some _ => Err WrongType
      | None => Ok 0
      end.
Proof.
  intros HI Hd Hop Hdis Hk.
  destruct (refines_answer _ _ _ (exec_refines s d op HI Hop)) as [_ HI1].
  exists (spec (peek_ms s) (peek_ms2 s) op d).1. split; [done|].
  pose proof (exact_spec (peek_ms s) (peek_ms2 s) op d Hd Hdis) as Hd1. split; [done|].
  destruct HI1 as [B1 HI1].
  destruct (refines_answer _ _ _ (hlen_refines B1 _ _ k HI1 Hk)) as [-> _].
  unfold spec_hlen, on_type, live.
  set (now := peek_ms (after (exec op) s)). set (d1 := (spec (peek_ms s) (peek_ms2 s) op d).1) in *.
  pose proof (exact_purge now d1 k Hd1) as Hp.
  destruct (purge now k d1 !! k) as [[v ex]|] eqn:Ho; [|done]. cbn [value].
  destruct v as [|c h| | |]; cbn [value_type]; try by rewrite decide_False by done.
  rewrite decide_True by done. cbn. by rewrite (exact_hash _ _ _ _ _ Hp Ho).
Qed.

(** C31. A repeated field is counted each time it is new: an HSET of one new
    field [n] times stores one field, yet answers [n] and leaves HLEN at [n]. *)
Theorem hset_repeated_field_overcounts s d k f (values : list bytes) :
  Inv s d -> d !! k = None -> op_pre s d (OHset k ((fun x => (f, x)) <$> values)) -> values <> [] ->
  let m := hset k ((fun x => (f, x)) <$> values) in
  answer m s = Ok (Z.of_nat (length values)) /\
  answer (hlen k) (after m s) = Ok (Z.of_nat (length values)) /\
  exists x, answer (hgetall k) (after m s) = Ok [(f, x)].
Proof.
  intros [B HI] Hd (Hk & Hc & Hroom) Hne. cbv zeta. set (pairs := (fun x => (f, x)) <$> values) in *.
  assert (Hh : holds d k (HashV 0 ∅) (HashV 0 ∅)) by by left.
  assert (Hn : new_fields ∅ pairs = Z.of_nat (length values)).
  { unfold new_fields, pairs. rewrite <- (length_fmap (fun x => (f, x)) values). do 2 f_equal.
    generalize ((fun x : bytes => (f, x)) <$> values). clear. induction l as [|p l IH]; [done|].
    rewrite filter_cons_True by exact (lookup_empty (M := gmap bytes) p.1). by rewrite IH. }
  assert (Hi : exists x : bytes, insert_pairs ∅ pairs = {[ f := x ]}).
  { unfold insert_pairs, pairs. destruct values as [|v values] using rev_ind; [done|]. exists v.
    rewrite fmap_app, fold_left_app. cbn. clear. induction values as [|x values IH] using rev_ind; [done|].
    rewrite fmap_app, fold_left_app. cbn. by rewrite insert_insert_eq. }
  destruct Hi as [v Hi].
  destruct (refines_answer _ _ _ (hset_refines B s d k pairs HI Hk Hc Hroom)) as [-> [B1 HI1]].
  rewrite (spec_hset_holds _ _ _ _ _ _ Hh), Hn, Hi, Z.add_0_l in HI1 |- *. cbn [fst snd] in HI1 |- *.
  destruct (refines_answer _ _ _ (hlen_refines B1 _ _ k HI1 Hk)) as [-> _].
  destruct (refines_answer _ _ _ (hgetall_refines B1 _ _ k HI1 Hk)) as [-> _].
  unfold spec_hlen, spec_hgetall.
  rewrite (on_type_insert _ k d (HashV (Z.of_nat (length values)) {[f := v]})).
  rewrite (on_type_insert _ k d (HashV (Z.of_nat (length values)) {[f := v]})). cbn [hash_of snd].
  split_and!; [done|done|]. exists v. do 2 f_equal. symmetry. apply sorted_entries_unique.
  - repeat constructor.
  - apply NoDup_singleton.
  - intros g x. rewrite list_elem_of_singleton, lookup_singleton_Some. naive_solver.
Qed.

(** C32. HDEL of one field repeated as often as the hash has fields removes the
    whole key, the other fields with it. *)
Theorem hdel_repeated_field_loses_key s d k f (n : nat) (h : gmap bytes bytes) :
  Inv s d -> op_pre s d (OHdel k (replicate n f)) ->
  d !! k = Some (mk_Obj (HashV (Z.of_nat (size h)) h) 0) ->
  is_Some (h !! f) -> (size h <= n)%nat ->
  let m := hdel k (replicate n f) in
  answer m s = Ok (Z.of_nat n) /\
  answer (hgetall k) (after m s) = Ok [] /\
  answer (exists_ k) (after m s) = Ok false.
Proof.
  intros [B HI] (Hk & Hlen) Hd Hf Hn. cbv zeta.
  assert (Ho : old_fields h (replicate n f) = Z.of_nat n).
  { unfold old_fields. clear Hlen Hn. induction n as [|n IH]; [done|]. cbn [replicate].
    rewrite filter_cons_True by done. cbn [length]. lia. }
  assert (Hs : size h <> 0%nat).
  { intros He%map_size_empty_inv. rewrite He in Hf. by destruct Hf. }
  assert (Hspec : spec_hdel (peek_ms s) k (replicate n f) d = (delete k d, Ok (Z.of_nat n))).
  { unfold spec_hdel. rewrite (on_type_holds _ k d (HashV 0 ∅) (HashV (Z.of_nat (size h)) h)) by by right.
    rewrite Hd. cbn [hash_of]. rewrite Ho. rewrite decide_False by lia.
    by rewrite decide_True by (unfold saturating_sub; lia). }
  destruct (refines_answer _ _ _ (hdel_refines B s d k _ HI Hk Hlen)) as [-> [B1 HI1]].
  rewrite Hspec in HI1 |- *. cbn [fst snd] in HI1 |- *.
  destruct (refines_answer _ _ _ (hgetall_refines B1 _ _ k HI1 Hk)) as [-> _].
  destruct (refines_answer _ _ _ (exists_refines B1 _ _ k HI1 Hk)) as [-> _].
  split; [done|]. unfold spec_hgetall, spec_exists, on_type, live.
  rewrite (purge_missing _ k) by apply lookup_delete_eq. by rewrite lookup_delete_eq.
Qed.

End Props.

(** ** Witnesses *)

Definition demo_hash : list Op := [OHset (B "h") [(B "f", B "1"); (B "g", B "2")]].

Lemma demo_hash_inv : Inv (demo_after demo_hash) (demo_db demo_hash).
Proof. apply demo_after_inv. unfold demo_hash. solve_pre. Qed.

Lemma hset_then_hget_witness :
  let s := demo_after demo_hash in
  let pairs := [(B "f", B "3"); (B "k", B "4"); (B "f", B "5")] in
  op_pre s (demo_db demo_hash) (OHset (B "h") pairs) /\
  answer (hget (B "h") (B "f")) (after (hset (B "h") pairs) s) = Ok (Some (B "5")).
Proof.
  cbv zeta.
  assert (Hp : op_pre (demo_after demo_hash) (demo_db demo_hash)
    (OHset (B "h") [(B "f", B "3"); (B "k", B "4"); (B "f", B "5")])) by solve_pre.
  split; [exact Hp|].
  refine (hset_then_hget (demo_after demo_hash) (demo_db demo_hash) (B "h") _ (B "f") 2
    (<[B "f" := B "1"]> (<[B "g" := B "2"]> ∅)) demo_hash_inv Hp _).
  right. vm_compute. reflexivity.
Defined.

Lemma hash_counts_exact_witness :
  let s := demo_after demo_hash in
  let op := OHdel (B "h") [B "f"; B "x"] in
  op_pre s (demo_db demo_hash) op /\ distinct_fields op /\
  exists d', Inv (after (exec op) s) d' /\ exact d'.
Proof.
  cbv zeta.
  assert (Hp : op_pre (demo_after demo_hash) (demo_db demo_hash) (OHdel (B "h") [B "f"; B "x"]))
    by solve_pre.
  assert (Hd : distinct_fields (OHdel (B "h") [B "f"; B "x"])).
  { cbn. apply (bool_decide_unpack _). vm_compute. exact I. }
  split; [exact Hp|]. split; [exact Hd|].
  assert (Hx : exact (demo_db demo_hash)).
  { intros k o Ho. assert (Hs : demo_db demo_hash = {[ B "h" := mk_Obj (HashV 2 (<[B "f" := B "1"]> (<[B "g" := B "2"]> ∅))) 0 ]})
      by (vm_compute; reflexivity).
    rewrite Hs in Ho. apply lookup_singleton_Some in Ho as [_ <-]. reflexivity. }
  assert (Hk : valid_key (B "h")) by (vm_compute; split; congruence).
  destruct (hash_counts_exact (demo_after demo_hash) (demo_db demo_hash) (OHdel (B "h") [B "f"; B "x"])
    (B "h") demo_hash_inv Hx Hp Hd Hk) as (d' & HI & He & _).
  exists d'. split; [exact HI|exact He].
Defined.

Lemma hset_repeated_field_overcounts_witness :
  let m := hset (B "h") ((fun x => (B "f", x)) <$> [B "1"; B "2"; B "3"]) in
  op_pre demo_state ∅ (OHset (B "h") ((fun x => (B "f", x)) <$> [B "1"; B "2"; B "3"])) /\
  answer m demo_state = Ok 3 /\ answer (hlen (B "h")) (after m demo_state) = Ok 3.
Proof.
  cbv zeta.
  assert (Hp : op_pre demo_state ∅ (OHset (B "h") ((fun x => (B "f", x)) <$> [B "1"; B "2"; B "3"])))
    by solve_pre.
  split; [exact Hp|].
  assert (HI : Inv demo_state ∅) by (exists 0; exact demo_inv).
  destruct (hset_repeated_field_overcounts demo_state ∅ (B "h") (B "f") [B "1"; B "2"; B "3"]
    HI eq_refl Hp ltac:(discriminate)) as (H1 & H2 & _).
  split; [exact H1|exact H2].
Defined.

Lemma hdel_repeated_field_loses_key_witness :
  let s := demo_after demo_hash in
  op_pre s (demo_db demo_hash) (OHdel (B "h") (replicate 2 (B "f"))) /\
  answer (hgetall (B "h")) (after (hdel (B "h") (replicate 2 (B "f"))) s) = Ok [].
Proof.
  cbv zeta.
  assert (Hp : op_pre (demo_after demo_hash) (demo_db demo_hash) (OHdel (B "h") (replicate 2 (B "f"))))
    by solve_pre.
  split; [exact Hp|].
  destruct (hdel_repeated_field_loses_key (demo_after demo_hash) (demo_db demo_hash) (B "h") (B "f") 2
    (<[B "f" := B "1"]> (<[B "g" := B "2"]> ∅)) demo_hash_inv Hp) as (_ & H2 & _).
  - vm_compute. reflexivity.
  - exists (B "1"). vm_compute. reflexivity.
  - vm_compute. repeat constructor.
  - exact H2.
Defined.
