(* ===== verification/StoreCollections.v ===== *)
(** * What clients can rely on: sets, sorted sets and lists

    Consequences of the refinement for the collection operations of store.rs. *)

From S2P Require Import Prelude F64 Encoding Engine Gc Rocks Store StoreSpec StoreRep StoreInv StoreGeneric StoreHash StoreSet StoreZSet StoreList StoreAdmin StoreRefine StoreProps.

Implicit Types (k f m : bytes) (now : Z) (v : Value) (z : gmap bytes f64) (u : gset bytes).

Section Collections.
Context {E : Type} `{EngineLaws E}.

Abbreviation St := (State E).
Implicit Types (d : Db) (s : St) (o : Obj).

(** ** Sets *)

Lemma spec_sadd_holds now k members d u :
  holds d k (SetV ∅) (SetV u) -> members <> [] ->
  let u' := u ∪ list_to_set members in
  exists d', spec_sadd now k members d = (d', Ok (Z.of_nat (size u') - Z.of_nat (size u))) /\
    d' !! k = Some (mk_Obj (SetV u') 0).
Proof.
  intros Hh Hne. cbv zeta. unfold spec_sadd.
  rewrite (on_type_holds now k d (SetV ∅) (SetV u)) by done.
  set (u' := u ∪ list_to_set members).
  assert (Hsame : Z.of_nat (size u') - Z.of_nat (size u) = 0 -> u' = u).
  { intros Hs. symmetry. apply (set_subseteq_size_eq u u'); [set_solver|lia]. }
  destruct Hh as [[-> [= ->]]|Hd].
  - cbn [set_of fst snd]. eexists. split; [done|]. fold u'. case_decide as Hs; [|apply lookup_insert_eq].
    specialize (Hsame Hs). destruct members as [|x members]; [done|]. exfalso. unfold u' in Hsame. set_solver.
  - rewrite Hd. cbn [set_of fst snd]. fold u'. eexists. split; [done|].
    case_decide as Hs; [by rewrite (Hsame Hs)|apply lookup_insert_eq].
Qed.

(** SADD adds exactly the listed members, answers how many were new,
    repeats and members already present counting zero, and SCARD and SMEMBERS
    (in ascending byte order) report the resulting set. *)
Theorem sadd_exact s d k members u :
  Inv s d -> op_pre s d (OSadd k members) -> holds d k (SetV ∅) (SetV u) -> members <> [] ->
  let u' := u ∪ list_to_set members in
  let s' := after (sadd k members) s in
  answer (sadd k members) s = Ok (Z.of_nat (size u') - Z.of_nat (size u)) /\
  answer (scard k) s' = Ok (Z.of_nat (size u')) /\
  exists l, answer (smembers k) s' = Ok l /\ StronglySorted bytes_le l /\ NoDup l /\
    forall m, m ∈ l <-> m ∈ u'.
Proof.
  intros [B HI] (Hk & Hc & Hroom) Hh Hne. cbv zeta.
  destruct (spec_sadd_holds (peek_ms s) k members d u Hh Hne) as (d' & Hs & Hd').
  destruct (refines_answer _ _ _ (sadd_refines B s d k members HI Hk Hc Hroom)) as [-> [B1 HI1]].
  rewrite Hs in HI1 |- *. cbn [fst snd] in *. set (u' := u ∪ list_to_set members) in *.
  destruct (refines_answer _ _ _ (scard_refines B1 _ _ k HI1 Hk)) as [-> _].
  destruct (refines_answer _ _ _ (smembers_refines B1 _ _ k HI1 Hk)) as [-> _].
  assert (Hh' : holds d' k (SetV ∅) (SetV u')) by by right.
  unfold spec_scard, spec_smembers.
  rewrite !(on_type_holds _ k d' (SetV ∅) (SetV u')) by done. rewrite Hd'. cbn [set_of snd fst].
  split_and!; [done..|]. exists (sorted_elements u'). split_and!; [done|..].
  - apply (StronglySorted_merge_sort bytes_le).
  - unfold sorted_elements. rewrite merge_sort_Permutation. apply NoDup_elements.
  - intros m. unfold sorted_elements. by rewrite merge_sort_Permutation, elem_of_elements.
Qed.

(** SREM removes exactly the listed members and answers how many were
    there; when none is left the key is gone. *)
Theorem srem_exact s d k members u :
  Inv s d -> op_pre s d (OSrem k members) -> d !! k = Some (mk_Obj (SetV u) 0) -> u <> ∅ ->
  let u' := u ∖ list_to_set members in
  let s' := after (srem k members) s in
  answer (srem k members) s = Ok (Z.of_nat (size u) - Z.of_nat (size u')) /\
  (forall m, answer (sismember k m) s' = Ok (bool_decide (m ∈ u'))) /\
  answer (exists_ k) s' = Ok (bool_decide (u' <> ∅)).
Proof.
  intros [B HI] (Hk & Hlen) Hd Hu. cbv zeta. set (u' := u ∖ list_to_set members).
  destruct (refines_answer _ _ _ (srem_refines B s d k members HI Hk Hlen)) as [-> [B1 HI1]].
  assert (Hs : exists d', spec_srem (peek_ms s) k members d = (d', Ok (Z.of_nat (size u) - Z.of_nat (size u'))) /\
    d' !! k = if decide (u' = ∅) then None else Some (mk_Obj (SetV u') 0)).
  { unfold spec_srem. rewrite (on_type_holds _ k d (SetV ∅) (SetV u)) by by right.
    rewrite Hd. cbn [set_of]. fold u'. eexists. split; [done|]. case_decide as H0'.
    - assert (u' = u) as Heq by (apply (set_subseteq_size_eq u' u); [set_solver|lia]).
      rewrite Heq, decide_False by done. done.
    - case_decide; [apply lookup_delete_eq|apply lookup_insert_eq]. }
  destruct Hs as (d' & Hs & Hd'). rewrite Hs in HI1 |- *. cbn [fst snd] in *. split; [done|]. split.
  - intros m. destruct (refines_answer _ _ _ (sismember_refines B1 _ _ k m HI1 Hk)) as [-> _].
    unfold spec_sismember. case_decide as He.
    + unfold on_type. rewrite (purge_missing _ k d') by done. rewrite Hd'. cbn.
      by rewrite He, bool_decide_eq_false_2 by set_solver.
    + rewrite (on_type_holds _ k d' (SetV ∅) (SetV u')) by by right. by rewrite Hd'.
  - destruct (refines_answer _ _ _ (exists_refines B1 _ _ k HI1 Hk)) as [-> _].
    unfold spec_exists. cbn [snd]. case_decide as He.
    + rewrite live_missing by done. by rewrite He, bool_decide_eq_false_2 by naive_solver.
    + rewrite (live_no_expiry _ _ _ _ Hd') by done. by rewrite bool_decide_eq_true_2.
Qed.

(** ** Sorted sets *)

(** ascending (score, member): a sorted set's order, in terms of the numeric
    order of scores. *)
Definition z_before (a b : bytes * f64) : Prop :=
  f64_ltb a.2 b.2 = true \/ (a.2 = 2 ^ 63 /\ b.2 = 0) \/ (a.2 = b.2 /\ bytes_lt a.1 b.1).

Lemma z_le_before a b : f64_num a.2 -> f64_num b.2 -> z_le a b -> a <> b -> z_before a b.
Proof.
  destruct a as [m1 s1], b as [m2 s2]. unfold z_before. cbn. intros H1 H2 Hle Hne.
  unfold z_le in Hle. cbn in Hle. apply bytes_le_lteq in Hle as [Hlt|Heq].
  - by apply score_suffix_lt_iff.
  - exfalso. apply Hne. apply encode_score_app_inj in Heq as [-> ->]; [done|apply H1|apply H2].
Qed.

Lemma ranked_strict z : scores_num z -> StronglySorted z_before (ranked z).
Proof.
  intros Hz. pose proof (ranked_sorted z) as Hs. pose proof (ranked_num z Hz) as Hn.
  assert (Hnd : NoDup (ranked z)) by (rewrite ranked_perm; apply NoDup_map_to_list).
  induction Hs as [|a l Hs IH Ha]; [constructor|].
  apply Forall_cons in Hn as [Hna Hn]. apply list.NoDup_cons in Hnd as [Hin Hnd].
  constructor; [by apply IH|]. rewrite list.Forall_forall in Ha, Hn |- *. intros b Hb.
  apply z_le_before; auto. by intros ->.
Qed.

Lemma sublist_all {A} (l : list A) : sublist (normalize_range 0 (-1) (Z.of_nat (length l))) l = l.
Proof.
  destruct l as [|x l]; [done|]. unfold normalize_range, sublist.
  rewrite (proj2 (Z.leb_gt _ _)) by (cbn; lia). cbn [Z.ltb Z.compare].
  rewrite (proj2 (Z.ltb_ge _ _)) by (cbn [length]; lia).
  replace (Z.to_nat (Z.max 0 0)) with 0%nat by lia. rewrite drop_0.
  apply take_ge. cbn [length]. lia.
Qed.


(** C27. ZRANGEBYSCORE returns exactly the members whose score lies between the
    bounds, each bound inclusive or exclusive as asked, in ascending order: the
    early exit of the scan loses nothing. *)
Theorem zrangebyscore_exact s d k z mn mne mx mxe :
  Inv s d -> op_pre s d (OZrangeByScore k mn mne mx mxe) -> d !! k = Some (mk_Obj (ZSetV z) 0) ->
  exists l, answer (zrange_by_score k mn mne mx mxe) s = Ok l /\ StronglySorted z_before l /\
    forall m sc, (m, sc) ∈ l <->
      z !! m = Some sc /\
      (f64_ltb mn sc = true \/ (mne = false /\ f64_eqb sc mn = true)) /\
      (f64_ltb sc mx = true \/ (mxe = false /\ f64_eqb sc mx = true)).
Proof.
  intros [B HI] (Hk & Hmn & Hmx) Hd.
  assert (Hz : scores_num z).
  { pose proof (kr_obj _ _ _ _ _ (rep_key _ _ _ _ (inv_rep _ _ _ HI) k Hk)) as Ho.
    rewrite Hd in Ho. destruct Ho as (ver & Hat & _). by destruct (at_wf _ _ _ _ _ Hat) as [[_ ?] _]. }
  destruct (refines_answer _ _ _ (zrange_by_score_refines B s d k mn mne mx mxe HI Hk Hmn Hmx)) as [-> _].
  unfold spec_zrange_by_score. rewrite (on_type_holds _ k d (ZSetV ∅) (ZSetV z)) by by right.
  rewrite Hd. cbn [zset_of fst snd]. eexists. split; [done|].
  split; [by apply StronglySorted_filter, ranked_strict|].
  intros m sc. rewrite list_elem_of_filter, ranked_elem. cbn [snd].
  assert (Hin : z !! m = Some sc -> score_in mn mne mx mxe sc = true <->
    (f64_ltb mn sc = true \/ (mne = false /\ f64_eqb sc mn = true)) /\
    (f64_ltb sc mx = true \/ (mxe = false /\ f64_eqb sc mx = true))).
  { intros Hm. pose proof (Hz m sc Hm) as Hsc. unfold score_in, f64_gtb.
    rewrite !f64_ltb_key, !f64_eqb_key by done.
    rewrite andb_true_iff, !negb_true_iff, !orb_false_iff, !andb_false_iff.
    rewrite !Z.ltb_lt, !Z.ltb_ge, !Z.eqb_eq, !Z.eqb_neq. destruct mne, mxe; cbn; naive_solver lia. }
  split; [intros [Hs Hm]; split; [done|by apply Hin]|intros [Hm Hs]; split; [by apply Hin|done]].
Qed.

(** ** Lists *)

(** C28. A push then LRANGE 0 -1: RPUSH appends the values in order, LPUSH
    prepends them one by one, so the last one listed comes first; the answer and
    LLEN are the new length. *)
Theorem push_then_lrange s d k values left h l :
  Inv s d -> op_pre s d (OPush k values left) -> holds d k (ListV LIST_INITIAL_INDEX []) (ListV h l) ->
  let l' := if left then reverse values ++ l else l ++ values in
  let s' := after (push k values left) s in
  answer (push k values left) s = Ok (Z.of_nat (length l')) /\
  answer (llen k) s' = Ok (Z.of_nat (length l')) /\
  answer (lrange k 0 (-1)) s' = Ok l'.
Proof.
  intros [B HI] (Hk & Hc & Hroom) Hh. cbv zeta.
  set (l' := if left then reverse values ++ l else l ++ values).
  destruct (refines_answer _ _ _ (push_refines B s d k values left HI Hk Hc Hroom)) as [-> [B1 HI1]].
  assert (Hs : exists h', spec_push (peek_ms s) k values left d =
    (<[k := mk_Obj (ListV h' l') 0]> d, Ok (Z.of_nat (length l')))).
  { unfold spec_push. rewrite (on_type_holds _ k d (ListV LIST_INITIAL_INDEX []) (ListV h l)) by done.
    exists (if left then h - Z.of_nat (length values) else h).
    assert (Hl' : push_list left values h l = ListV (if left then h - Z.of_nat (length values) else h) l' /\
      Z.of_nat (length l + length values) = Z.of_nat (length l')).
    { unfold push_list, l'. destruct left; rewrite length_app, ?length_reverse; split; [done|lia|done|lia]. }
    destruct Hl' as [Hp Hlen]. rewrite <- Hp, <- Hlen. by destruct Hh as [[-> [= -> ->]]| ->]. }
  destruct Hs as (h' & Hs). rewrite Hs in HI1 |- *. cbn [fst snd] in *. split; [done|].
  destruct (refines_answer _ _ _ (llen_refines B1 _ _ k HI1 Hk)) as [-> _].
  destruct (refines_answer _ _ _ (lrange_refines B1 _ _ k 0 (-1) HI1 Hk)) as [-> _].
  unfold spec_llen, spec_lrange. rewrite !(on_type_insert _ k d (ListV h' l')). cbn [list_of snd].
  by rewrite sublist_all.
Qed.

(** A pop takes up to [count] elements from its end, in the order they
    leave the list, and LRANGE sees the rest; a list popped empty is gone. *)
Theorem pop_takes_end s d k count left h l :
  Inv s d -> op_pre s d (OPop k count left) -> d !! k = Some (mk_Obj (ListV h l) 0) -> l <> [] ->
  let n := Z.to_nat (Z.min count (Z.of_nat (length l))) in
  let out := if left then take n l else take n (reverse l) in
  let l' := if left then drop n l else take (length l - n) l in
  let s' := after (pop k count left) s in
  answer (pop k count left) s = Ok out /\
  answer (lrange k 0 (-1)) s' = Ok l' /\
  answer (exists_ k) s' = Ok (bool_decide (l' <> [])).
Proof.
  intros [B HI] (Hk & Hcount) Hd Hl. cbv zeta.
  set (n := Z.to_nat (Z.min count (Z.of_nat (length l)))).
  set (l' := if left then drop n l else take (length l - n) l).
  assert (Hn : (n <= length l)%nat) by lia.
  destruct (refines_answer _ _ _ (pop_refines B s d k count left HI Hk Hcount)) as [-> [B1 HI1]].
  assert (Hout : popped left n l = if left then take n l else take n (reverse l)).
  { unfold popped. destruct left; [done|].
    transitivity (take n (reverse (take (length l - n) l ++ drop (length l - n) l))); [|by rewrite take_drop].
    rewrite reverse_app, take_app_length'; [done|]. rewrite length_reverse, length_drop. lia. }
  assert (Hlen : length l' = (length l - n)%nat)
    by (unfold l'; destruct left; rewrite ?length_drop, ?length_take; lia).
  assert (Hs : exists d', spec_pop (peek_ms s) k count left d = (d', Ok (popped left n l)) /\
    ((l' = [] /\ d' !! k = None) \/ exists h', l' <> [] /\ d' !! k = Some (mk_Obj (ListV h' l') 0))).
  { unfold spec_pop. rewrite (on_type_holds _ k d (ListV LIST_INITIAL_INDEX []) (ListV h l)) by by right.
    rewrite Hd. cbn [list_of]. fold n. eexists. split; [done|]. repeat case_decide.
    - right. exists h. assert (l' = l) as ->; [|done]. unfold l'. destruct left.
      + by replace n with 0%nat.
      + replace (length l - n)%nat with (length l) by lia. apply firstn_all.
    - left. split; [|apply lookup_delete_eq]. apply nil_length_inv. lia.
    - right. exists (if left then h + Z.of_nat (Nat.min n (length l)) else h). split.
      + intros He. rewrite He in Hlen. cbn in Hlen. lia.
      + rewrite lookup_insert_eq. unfold pop_rest, l'. by destruct left. }
  destruct Hs as (d' & Hs & Hd'). rewrite Hs in HI1 |- *. cbn [fst snd] in *. split; [by rewrite Hout|].
  destruct (refines_answer _ _ _ (lrange_refines B1 _ _ k 0 (-1) HI1 Hk)) as [-> _].
  destruct (refines_answer _ _ _ (exists_refines B1 _ _ k HI1 Hk)) as [-> _].
  unfold spec_lrange, spec_exists. cbn [snd]. destruct Hd' as [[-> Hd']|(h' & Hne & Hd')].
  - unfold on_type. rewrite (purge_missing _ k d'), Hd', live_missing by done.
    rewrite bool_decide_eq_false_2 by naive_solver. done.
  - rewrite (on_type_holds _ k d' (ListV LIST_INITIAL_INDEX []) (ListV h' l')) by by right.
    rewrite Hd', (live_no_expiry _ _ _ _ Hd') by done. cbn [list_of snd is_some].
    by rewrite sublist_all, bool_decide_eq_true_2.
Qed.

End Collections.

(** ** Witnesses *)

Definition f64_1 : f64 := 1023 * 2 ^ 52.
Definition f64_2 : f64 := 1024 * 2 ^ 52.

Definition demo_ops : list Op :=
  [OSadd (B "s") [B "a"; B "b"]; OZadd (B "z") [(f64_2, B "x"); (f64_1, B "y")];
   OPush (B "l") [B "1"; B "2"; B "3"] false].

Lemma demo_ops_inv : Inv (demo_after demo_ops) (demo_db demo_ops).
Proof.
  apply demo_after_inv. unfold demo_ops. solve_pre.
Qed.

Lemma sadd_exact_witness :
  let s := demo_after demo_ops in
  op_pre s (demo_db demo_ops) (OSadd (B "s") [B "b"; B "c"; B "c"]) /\
  answer (sadd (B "s") [B "b"; B "c"; B "c"]) s =
    Ok (Z.of_nat (size ({[B "a"; B "b"]} ∪ list_to_set [B "b"; B "c"; B "c"] : gset bytes)) -
        Z.of_nat (size ({[B "a"; B "b"]} : gset bytes))).
Proof.
  cbv zeta.
  assert (Hp : op_pre (demo_after demo_ops) (demo_db demo_ops) (OSadd (B "s") [B "b"; B "c"; B "c"]))
    by solve_pre.
  split; [exact Hp|].
  refine (proj1 (sadd_exact (demo_after demo_ops) (demo_db demo_ops) (B "s") [B "b"; B "c"; B "c"]
    {[B "a"; B "b"]} demo_ops_inv Hp _ ltac:(discriminate))).
  right. vm_compute. reflexivity.
Defined.

Lemma srem_exact_witness :
  let s := demo_after demo_ops in
  op_pre s (demo_db demo_ops) (OSrem (B "s") [B "b"; B "q"]) /\
  answer (exists_ (B "s")) (after (srem (B "s") [B "b"; B "q"]) s) =
    Ok (bool_decide (({[B "a"; B "b"]} ∖ list_to_set [B "b"; B "q"] : gset bytes) <> ∅)).
Proof.
  cbv zeta.
  assert (Hp : op_pre (demo_after demo_ops) (demo_db demo_ops) (OSrem (B "s") [B "b"; B "q"]))
    by solve_pre.
  split; [exact Hp|].
  refine (proj2 (proj2 (srem_exact (demo_after demo_ops) (demo_db demo_ops) (B "s") [B "b"; B "q"]
    {[B "a"; B "b"]} demo_ops_inv Hp _ _))).
  - vm_compute. reflexivity.
  - discriminate.
Defined.


Lemma zrangebyscore_exact_witness :
  let s := demo_after demo_ops in
  op_pre s (demo_db demo_ops) (OZrangeByScore (B "z") f64_1 true f64_inf false) /\
  exists l, answer (zrange_by_score (B "z") f64_1 true f64_inf false) s = Ok l.
Proof.
  cbv zeta.
  assert (Hp : op_pre (demo_after demo_ops) (demo_db demo_ops) (OZrangeByScore (B "z") f64_1 true f64_inf false)) by solve_pre.
  split; [exact Hp|].
  destruct (zrangebyscore_exact (demo_after demo_ops) (demo_db demo_ops) (B "z")
    (<[B "x" := f64_2]> (<[B "y" := f64_1]> ∅)) f64_1 true f64_inf false demo_ops_inv Hp) as (l & H1 & _).
  - vm_compute. reflexivity.
  - exists l. exact H1.
Defined.

Lemma push_then_lrange_witness :
  let s := demo_after demo_ops in
  op_pre s (demo_db demo_ops) (OPush (B "l") [B "4"; B "5"] true) /\
  answer (lrange (B "l") 0 (-1)) (after (push (B "l") [B "4"; B "5"] true) s) =
    Ok [B "5"; B "4"; B "1"; B "2"; B "3"].
Proof.
  cbv zeta.
  assert (Hp : op_pre (demo_after demo_ops) (demo_db demo_ops) (OPush (B "l") [B "4"; B "5"] true))
    by solve_pre.
  split; [exact Hp|].
  refine (proj2 (proj2 (push_then_lrange (demo_after demo_ops) (demo_db demo_ops) (B "l") [B "4"; B "5"] true
    (2 ^ 63) [B "1"; B "2"; B "3"] demo_ops_inv Hp _))).
  right. vm_compute. reflexivity.
Defined.

Lemma pop_takes_end_witness :
  let s := demo_after demo_ops in
  op_pre s (demo_db demo_ops) (OPop (B "l") 2 false) /\
  answer (pop (B "l") 2 false) s = Ok [B "3"; B "2"] /\
  answer (lrange (B "l") 0 (-1)) (after (pop (B "l") 2 false) s) = Ok [B "1"].
Proof.
  cbv zeta.
  assert (Hp : op_pre (demo_after demo_ops) (demo_db demo_ops) (OPop (B "l") 2 false))
    by solve_pre.
  split; [exact Hp|].
  destruct (pop_takes_end (demo_after demo_ops) (demo_db demo_ops) (B "l") 2 false (2 ^ 63)
    [B "1"; B "2"; B "3"] demo_ops_inv Hp) as (H1 & H2 & _).
  - vm_compute. reflexivity.
  - discriminate.
  - split; [exact H1|exact H2].
Defined.
