(* ===== verification/StoreDurability.v ===== *)
(** * What clients can rely on: expiry, types, versions, garbage and restarts

    Consequences of the refinement for the life cycle of a key, and what the
    store is left with when a write fails. *)

From S2P Require Import Prelude F64 Encoding Engine Gc Rocks Store StoreSpec StoreRep StoreInv StoreGeneric StoreHash StoreSet StoreZSet StoreList StoreAdmin StoreRefine StoreProps.

Implicit Types (k f m : bytes) (now : Z) (v : Value) (d : Db) (o : Obj) (op : Op).

(** The key an operation is about. *)
Definition op_target (op : Op) : option bytes :=
  match op with
  | OSet k _ _ | OGet k | OExists k | OType k | ODel k | OExpireAt k _ | OPttl k
  | OHset k _ | OHget k _ | OHgetall k | OHdel k _ | OHlen k | OHexists k _
  | OSadd k _ | OSrem k _ | OSismember k _ | OSmembers k | OScard k
  | OZadd k _ | OZscore k _ | OZrem k _ | OZcard k | OZrange k _ _ | OZrangeByScore k _ _ _ _
  | OPush k _ _ | OPop k _ _ | OLrange k _ _ | OLlen k => Some k
  | ODbsize | OCompact | OFlushAll => None
  end.

(** The type an operation requires of its key. *)
Definition op_type (op : Op) : option byte :=
  match op with
  | OGet _ => Some TYPE_STRING
  | OHset _ _ | OHget _ _ | OHgetall _ | OHdel _ _ | OHlen _ | OHexists _ _ => Some TYPE_HASH
  | OSadd _ _ | OSrem _ _ | OSismember _ _ | OSmembers _ | OScard _ => Some TYPE_SET
  | OZadd _ _ | OZscore _ _ | OZrem _ _ | OZcard _ | OZrange _ _ _ | OZrangeByScore _ _ _ _ _ => Some TYPE_ZSET
  | OPush _ _ _ | OPop _ _ _ | OLrange _ _ _ | OLlen _ => Some TYPE_LIST
  | _ => None
  end.

(** The specification looks at its key through the purge alone. *)
Lemma on_type_purged {A : Type} now (ty : byte) k d (missing : Db -> Ans A) (present : Db -> Obj -> Ans A) :
  purge now k d = delete k d ->
  on_type now ty k d missing present = on_type now ty k (delete k d) missing present.
Proof.
  intros Hp. unfold on_type. rewrite Hp, (purge_missing _ _ (delete k d)); [done|apply lookup_delete_eq].
Qed.

Lemma spec_expired now now' op d k :
  op_target op = Some k -> purge now k d = delete k d ->
  spec now now' op d = spec now now' op (delete k d).
Proof.
  intros Hk Hp.
  assert (Hd : purge now k (delete k d) = delete k d) by (apply purge_missing, lookup_delete_eq).
  destruct op; try done; injection Hk as ->; unfold spec; f_equal;
    try (by apply on_type_purged).
  - unfold spec_set. by rewrite insert_delete_eq.
  - unfold spec_exists, live. by rewrite Hp, Hd.
  - unfold spec_type_of, live. by rewrite Hp, Hd.
  - unfold spec_del, live. by rewrite Hp, Hd, delete_delete_eq.
  - unfold spec_expire_at, live. rewrite Hp, Hd, lookup_delete_eq. done.
  - unfold spec_pttl, live. by rewrite Hp, Hd.
  - unfold spec_hexists, spec_hget. by rewrite on_type_purged.
Qed.

Section Durability.
Context {E : Type} `{EngineLaws E}.

Abbreviation St := (State E).
Implicit Types (s : St).

(** C21. An expired key is a deleted key: every operation on it answers, and
    leaves the database, as if the key had been deleted before. *)
Theorem expiry_is_deletion s d op k o :
  Inv s d -> op_pre s d op -> op_target op = Some k ->
  d !! k = Some o -> obj_expired (peek_ms s) o ->
  answer (exec op) s = (spec (peek_ms s) (peek_ms2 s) op (delete k d)).2 /\
  Inv (after (exec op) s) (spec (peek_ms s) (peek_ms2 s) op (delete k d)).1.
Proof.
  intros HI Hop Hk Hd He.
  destruct (refines_answer _ _ _ (exec_refines s d op HI Hop)) as [Ha HI'].
  rewrite <- (spec_expired _ _ op d k); [done|done|].
  unfold purge. by rewrite Hd, decide_True.
Qed.

(** An operation on a live key of another type answers WRONGTYPE and
    changes nothing. *)
Theorem wrong_type_no_effect s d op k ty o :
  Inv s d -> op_pre s d op -> op_target op = Some k -> op_type op = Some ty ->
  live (peek_ms s) k d = Some o -> value_type (value o) <> ty ->
  answer (exec op) s = Err WrongType /\ Inv (after (exec op) s) d.
Proof.
  intros HI Hop Hk Hty Ho Hne.
  destruct (refines_answer _ _ _ (exec_refines s d op HI Hop)) as [-> HI'].
  assert (Hs : spec (peek_ms s) (peek_ms2 s) op d = (d, Err WrongType)); [|by rewrite Hs in HI' |- *].
  pose proof (purge_live_some _ _ _ _ Ho) as Hp. unfold live in Ho.
  assert (Hon : forall (A : Type) (missing : Db -> Ans A) present,
    on_type (peek_ms s) ty k d missing present = (d, Err WrongType)).
  { intros. unfold on_type. by rewrite Ho, decide_False, Hp. }
  destruct op; try done; injection Hk as ->; injection Hty as <-; cbn [spec];
    unfold spec_get, spec_hset, spec_hget, spec_hgetall, spec_hdel, spec_hlen, spec_hexists, spec_hget,
      spec_sadd, spec_srem, spec_sismember, spec_smembers, spec_scard, spec_zadd, spec_zscore, spec_zrem,
      spec_zcard, spec_zrange, spec_zrange_by_score, spec_push, spec_pop, spec_lrange, spec_llen, reply_as;
    by rewrite !Hon.
Qed.

(** A key rebuilt after DEL shows none of its former fields, although no
    record of the old structure was removed: the new version hides them. *)
Theorem rebuilt_key_is_fresh s d k pairs :
  Inv s d -> valid_key k ->
  op_pre (after (del k) s) (delete k d) (OHset k pairs) ->
  answer (hgetall k) (after (hset k pairs) (after (del k) s)) =
    Ok (sorted_entries (insert_pairs ∅ pairs)).
Proof.
  intros [B HI] Hk (_ & Hc & Hroom).
  destruct (refines_answer _ _ _ (del_refines B s d k HI Hk)) as [_ [B1 HI1]]. cbn [spec_del fst] in HI1.
  destruct (refines_answer _ _ _ (hset_refines B1 _ _ k pairs HI1 Hk Hc Hroom)) as [_ [B2 HI2]].
  assert (Hh : holds (delete k d) k (HashV 0 ∅) (HashV 0 ∅)) by (left; split; [apply lookup_delete_eq|done]).
  rewrite (spec_hset_holds _ _ _ _ _ _ Hh) in HI2. cbn [fst] in HI2.
  destruct (refines_answer _ _ _ (hgetall_refines B2 _ _ k HI2 Hk)) as [-> _].
  unfold spec_hgetall.
  by rewrite (on_type_insert _ k (delete k d) (HashV (0 + new_fields ∅ pairs) (insert_pairs ∅ pairs))).
Qed.


(** Reopening: over an engine with the records a store left, in a new
    process whose version clock starts at zero, [with_engine] rebuilds a state
    that represents the same database, provided the wall clock has passed the
    versions in use. *)
Theorem reopen_preserves B s d (e : E) (clk : nat -> Z) :
  Inv_at B s d -> contents e = contents (engine s) -> reliable e ->
  (forall i, B < as_micros (Z.max 0 (clk i))) ->
  let s0 := mk_State e ∅ 0 clk 0 in
  answer with_engine s0 = Ok tt /\ Inv (after with_engine s0) d.
Proof.
  intros HI Hcon Hr Hclk. cbv zeta.
  destruct (with_engine_ok B (mk_State e ∅ 0 clk 0) (versions s) d) as (s' & -> & HI' & _).
  - cbn. rewrite Hcon. apply HI.
  - apply HI.
  - cbn. unfold in_u64. lia.
  - right. intros i _. apply Hclk.
  - done.
  - split; [done|by exists B].
Qed.

(** Versions strictly increase, whatever the wall clock does: each new one
    is above the version clock and becomes it. *)
Theorem next_version_increases s :
  in_u64 (VERSION_CLOCK s) -> clock_left s ->
  exists ver, answer next_version s = Ok ver /\ VERSION_CLOCK s < ver /\ in_u64 ver /\
    VERSION_CLOCK (after next_version s) = ver /\ now_micros_at s <= ver.
Proof.
  intros Hc Hl. unfold clock_left, u64_max, in_u64 in *.
  pose proof (as_micros_range (Z.max 0 (clock s (tick s)))) as Hm. unfold in_u64 in Hm.
  exists (Z.max (VERSION_CLOCK s + 1) (as_micros (Z.max 0 (clock s (tick s))))).
  assert (Hw : wrap_u64 (VERSION_CLOCK s + 1) = VERSION_CLOCK s + 1)
    by (apply wrap_u64_small; unfold in_u64; lia).
  unfold now_micros_at, next_version, now_micros, bump_version_clock, mbind, M_bind, read_clock.
  cbn -[as_micros wrap_u64 Z.max]. rewrite Hw. split_and!; try done; lia.
Qed.

(** ** Failed writes *)

(** C33. A SET whose write fails has already untracked the old structure: the
    key still holds the composite it held, but the compaction filter now rejects
    every one of its records. *)
Theorem failed_set_untracks s B d k ver o (x : bytes) expire err :
  rep (contents (engine s)) (versions s) B d -> valid_key k ->
  key_at (contents (engine s)) (versions s) k ver o -> composite (value o) ->
  answer (set k x expire) s = Err err ->
  contents (engine (after (set k x expire) s)) = contents (engine s) /\
  forall p rest, family p ->
    VersionMap_should_keep (versions (after (set k x expire) s)) (versioned_key p k ver rest) = false.
Proof.
  intros Hrep Hk Hat Hcomp.
  assert (Hrun : exists s1 b, engine s1 = engine s /\ versions s1 = delete k (versions s) /\
    set k x expire s = engine_write b s1).
  { eexists _, _. split; [|split; [|reflexivity]]; reflexivity. }
  destruct Hrun as (s1 & b & He & Hv & ->). unfold engine_write. rewrite He.
  destruct (eng_write (engine s) b) as [e r] eqn:Hw. cbn. intros ->.
  split; [by eapply write_err|]. intros p rest Hp. rewrite Hv.
  unfold VersionMap_should_keep, VersionMap_get.
  rewrite parse_owner_versioned by (first [done|apply Hat]). by rewrite lookup_delete_eq.
Qed.

End Durability.

(** The removing operations write twice when they empty a key.  If the
    second write fails, the key stays behind with its old count and no fields:
    HLEN answers 1 while HGETALL answers nothing. *)
Theorem failed_removal_leaves_empty_key :
  let s0 := after (hset (B "h") [(B "f", B "1")]) demo_state in
  let faulty := with_engine_state s0
    (mk_RocksEngine (mk_MemDb (mem (db (engine s0))) [false; true] None) (gc (engine s0))) in
  let s1 := after (hdel (B "h") [B "f"]) faulty in
  answer (hdel (B "h") [B "f"]) faulty = Err (Backend (B "injected write fault")) /\
  answer (hlen (B "h")) s1 = Ok 1 /\ answer (hgetall (B "h")) s1 = Ok [].
Proof. vm_compute. split_and!; reflexivity. Qed.

(** ** Witnesses *)

Lemma expiry_is_deletion_witness :
  let s := demo_after [OSet (B "k") (B "v") 1] in
  let d := demo_db [OSet (B "k") (B "v") 1] in
  op_pre s d (OGet (B "k")) /\ answer (exec (OGet (B "k"))) s = Ok (RValue None).
Proof.
  cbv zeta. set (s := demo_after [OSet (B "k") (B "v") 1]). set (d := demo_db [OSet (B "k") (B "v") 1]).
  assert (HI : Inv s d) by (apply demo_after_inv; solve_pre).
  assert (Hp : op_pre s d (OGet (B "k"))) by solve_pre.
  split; [exact Hp|].
  refine (proj1 (expiry_is_deletion s d (OGet (B "k")) (B "k") (mk_Obj (StringV (B "v")) 1) HI Hp eq_refl _ _)).
  - vm_compute. reflexivity.
  - vm_compute. split; discriminate.
Defined.

Lemma wrong_type_no_effect_witness :
  let s := demo_after demo_hash in
  op_pre s (demo_db demo_hash) (OSadd (B "h") [B "m"]) /\
  answer (exec (OSadd (B "h") [B "m"])) s = Err WrongType.
Proof.
  cbv zeta.
  assert (Hp : op_pre (demo_after demo_hash) (demo_db demo_hash) (OSadd (B "h") [B "m"])) by solve_pre.
  split; [exact Hp|].
  refine (proj1 (wrong_type_no_effect (demo_after demo_hash) (demo_db demo_hash) (OSadd (B "h") [B "m"])
    (B "h") TYPE_SET (mk_Obj (HashV 2 (<[B "f" := B "1"]> (<[B "g" := B "2"]> ∅))) 0)
    demo_hash_inv Hp eq_refl eq_refl _ ltac:(discriminate))).
  vm_compute. reflexivity.
Defined.

Lemma rebuilt_key_is_fresh_witness :
  let s := demo_after demo_hash in
  valid_key (B "h") /\
  answer (hgetall (B "h")) (after (hset (B "h") [(B "z", B "9")]) (after (del (B "h")) s)) =
    Ok (sorted_entries (insert_pairs ∅ [(B "z", B "9")])).
Proof.
  cbv zeta. assert (Hk : valid_key (B "h")) by (vm_compute; split; congruence).
  split; [exact Hk|].
  apply (rebuilt_key_is_fresh (demo_after demo_hash) (demo_db demo_hash) (B "h") [(B "z", B "9")]
    demo_hash_inv Hk).
  solve_pre.
Defined.


(** The versions of the demonstration store are at most its version clock. *)
Lemma demo_hash_below : versions_below (VERSION_CLOCK (demo_after demo_hash)) (contents (engine (demo_after demo_hash))).
Proof.
  destruct demo_hash_inv as [b0 HI]. set (s := demo_after demo_hash) in *. split.
  - assert (Hall : map_fold (fun raw (_ : bytes) b => match parse_owner_version raw with
      | Some (_, v) => (v <=? VERSION_CLOCK s) && b | None => b end) true (contents (engine s)) = true)
      by (vm_compute; reflexivity).
    revert Hall. apply (map_fold_weak_ind (fun b (m : gmap bytes bytes) => b = true -> forall raw x u (v : Z), m !! raw = Some x ->
      parse_owner_version raw = Some (u, v) -> v <= VERSION_CLOCK s)).
    + intros _ raw x u v Hx. by rewrite lookup_empty in Hx.
    + intros raw x m b Hm IH Hb raw' x' u v Hx Hp.
      destruct (decide (raw' = raw)) as [->|Hne].
      * rewrite Hp in Hb. apply andb_true_iff in Hb as [Hb _]. by apply Z.leb_le.
      * rewrite lookup_insert_ne in Hx by done.
        eapply IH; [|exact Hx|exact Hp]. destruct (parse_owner_version raw) as [[??]|]; [|done].
        by apply andb_true_iff in Hb as [_ ?].
  - assert (Hm : forall k x, contents (engine s) !! meta_key k = Some x -> k = B "h").
    { intros k x Hx.
      assert (Hin : meta_key k ∈ (scan_entries [META_PREFIX] (contents (engine s))).*1)
        by (apply scan_prefix1_keys; eauto).
      assert (Hs : (scan_entries [META_PREFIX] (contents (engine s))).*1 = [meta_key (B "h")])
        by (vm_compute; reflexivity).
      rewrite Hs in Hin. apply list_elem_of_singleton in Hin. by apply meta_key_inj in Hin. }
    intros k x me Hx Hd. rewrite (Hm k x Hx) in Hx.
    assert (Hme : (contents (engine s) !! meta_key (B "h") ≫= Meta_decode) =
      Some (mk_Meta TYPE_HASH (VERSION_CLOCK s) 0 (u32_be 2))) by (vm_compute; reflexivity).
    rewrite Hx in Hme. cbn in Hme. rewrite Hd in Hme. injection Hme as ->. done.
Qed.

Lemma demo_hash_bound :
  Inv_at (VERSION_CLOCK (demo_after demo_hash)) (demo_after demo_hash) (demo_db demo_hash).
Proof.
  pose proof demo_hash_below as Hbelow. destruct demo_hash_inv as [b0 HI]. set (s := demo_after demo_hash) in *. split.
  - apply (rep_bound _ _ b0); [apply HI| |done].
    assert (Hv : versions s = {[ B "h" := VERSION_CLOCK s ]}) by (vm_compute; reflexivity).
    intros k ver Hk. rewrite Hv in Hk. apply lookup_singleton_Some in Hk as [_ <-]. done.
  - vm_compute. split; discriminate.
  - vm_compute. split; [discriminate|reflexivity].
  - left. done.
  - apply HI.
  - apply HI.
Qed.

Lemma reopen_preserves_witness :
  let s := demo_after demo_hash in
  let e := mk_RocksEngine (db (engine s)) None in
  let s0 := mk_State e ∅ 0 (fun _ => 1700000001000000000) 0 in
  answer with_engine s0 = Ok tt /\ Inv (after with_engine s0) (demo_db demo_hash).
Proof.
  cbv zeta.
  apply (reopen_preserves (VERSION_CLOCK (demo_after demo_hash)) (demo_after demo_hash) (demo_db demo_hash)
    (mk_RocksEngine (db (engine (demo_after demo_hash))) None) (fun _ => 1700000001000000000) demo_hash_bound).
  - reflexivity.
  - vm_compute. split; [constructor|reflexivity].
  - intros _. vm_compute. reflexivity.
Defined.

Lemma next_version_increases_witness :
  in_u64 (VERSION_CLOCK demo_state) /\ clock_left demo_state /\
  exists ver, answer next_version demo_state = Ok ver /\ VERSION_CLOCK demo_state < ver.
Proof.
  assert (H1 : in_u64 (VERSION_CLOCK demo_state)) by (vm_compute; split; [discriminate|reflexivity]).
  assert (H2 : clock_left demo_state) by (vm_compute; reflexivity).
  split; [exact H1|]. split; [exact H2|].
  destruct (next_version_increases demo_state H1 H2) as (ver & Ha & Hlt & _).
  exists ver. split; [exact Ha|exact Hlt].
Defined.

Lemma failed_set_untracks_witness :
  let s := demo_after demo_hash in
  let faulty := with_engine_state s
    (mk_RocksEngine (mk_MemDb (mem (db (engine s))) [true] None) (gc (engine s))) in
  answer (set (B "h") (B "x") 0) faulty = Err (Backend (B "injected write fault")) /\
  VersionMap_should_keep (versions (after (set (B "h") (B "x") 0) faulty))
    (subkey (B "h") (VERSION_CLOCK s) (B "f")) = false.
Proof.
  cbv zeta. set (s := demo_after demo_hash).
  set (faulty := with_engine_state s
    (mk_RocksEngine (mk_MemDb (mem (db (engine s))) [true] None) (gc (engine s)))).
  assert (He : answer (set (B "h") (B "x") 0) faulty = Err (Backend (B "injected write fault")))
    by (vm_compute; reflexivity).
  split; [exact He|].
  assert (Hk : valid_key (B "h")) by (vm_compute; split; congruence).
  assert (Hrep : rep (contents (engine faulty)) (versions faulty) (VERSION_CLOCK s) (demo_db demo_hash))
    by (exact (inv_rep _ _ _ demo_hash_bound)).
  set (o := mk_Obj (HashV 2 (<[B "f" := B "1"]> (<[B "g" := B "2"]> ∅))) 0).
  assert (Hat : key_at (contents (engine faulty)) (versions faulty) (B "h") (VERSION_CLOCK s) o).
  { pose proof (kr_obj _ _ _ _ _ (rep_key _ _ _ _ Hrep (B "h") Hk)) as Ho.
    assert (Hd : demo_db demo_hash !! B "h" = Some o) by (vm_compute; reflexivity).
    rewrite Hd in Ho. destruct Ho as (ver & Ha & _).
    assert (Hv : versions faulty !! B "h" = Some (VERSION_CLOCK s)) by (vm_compute; reflexivity).
    rewrite (at_tracked _ _ _ _ _ Ha) in Hv by discriminate. injection Hv as <-. exact Ha. }
  rewrite subkey_versioned.
  apply (proj2 (failed_set_untracks faulty (VERSION_CLOCK s) (demo_db demo_hash) (B "h") (VERSION_CLOCK s)
    o (B "x") 0 _ Hrep Hk Hat ltac:(discriminate) He)).
  exact family_sub.
Defined.
