(* ===== verification/VersionClock.v ===== *)
(** * The version clock under concurrency

    [next_version] of store.rs as the threads of the server run it: each call
    loops over an atomic load, a clock reading and a compare-exchange of the one
    [VERSION_CLOCK].  The atomic accesses are sequentially consistent, so an
    execution is an interleaving of the steps below.  [Store.next_version] is
    the same loop run by one thread ([solo_run]). *)

From S2P Require Import Prelude Encoding Engine Gc Store.

(** Where a thread's call is. *)
Inductive Pc : Type :=
  | Idle
  | Loaded (prev : Z)
  | Trying (prev candidate : Z)
  | Returned (v : Z).

(** [history] lists the versions handed out, in the order of the exchanges. *)
Record Shared : Type := mk_Shared {
  atomic : Z;
  threads : gmap nat Pc;
  history : list Z;
}.

Definition pc_of (s : Shared) (t : nat) : Pc := default Idle (threads s !! t).
Definition set_pc (s : Shared) (t : nat) (p : Pc) : Shared :=
  mk_Shared (atomic s) (<[t := p]> (threads s)) (history s).

Definition candidate (prev micros : Z) : Z := Z.max (wrap_u64 (prev + 1)) micros.

Inductive step : Shared -> Shared -> Prop :=
  | step_load s t :
      pc_of s t = Idle -> step s (set_pc s t (Loaded (atomic s)))
  | step_read s t prev micros :
      pc_of s t = Loaded prev -> in_u64 micros ->
      step s (set_pc s t (Trying prev (candidate prev micros)))
  | step_exchange s t prev cand :
      pc_of s t = Trying prev cand -> atomic s = prev ->
      step s (mk_Shared cand (<[t := Returned cand]> (threads s)) (history s ++ [cand]))
  | step_retry s t prev cand :
      pc_of s t = Trying prev cand -> atomic s <> prev -> step s (set_pc s t Idle)
  | step_again s t v :
      pc_of s t = Returned v -> step s (set_pc s t Idle).

(** [static VERSION_CLOCK: AtomicU64 = AtomicU64::new(0)]. *)
Definition initial : Shared := mk_Shared 0 ∅ [].

Inductive reachable : Shared -> Prop :=
  | reach_initial : reachable initial
  | reach_step s s' : reachable s -> step s s' -> reachable s'.

Definition pc_ok (p : Pc) : Prop :=
  match p with
  | Idle | Returned _ => True
  | Loaded prev => 0 <= prev < u64_max
  | Trying prev cand => prev < cand <= u64_max
  end.

Definition increasing (s : Shared) : Prop :=
  StronglySorted Z.lt (history s) /\ Forall (fun v => v <= atomic s) (history s) /\
  0 <= atomic s < u64_max /\ forall t, pc_ok (pc_of s t).

Lemma pc_of_set s t p t' : pc_of (set_pc s t p) t' = if decide (t' = t) then p else pc_of s t'.
Proof.
  unfold pc_of, set_pc; cbn. case_decide as Ht; [subst; by rewrite lookup_insert_eq|].
  by rewrite lookup_insert_ne.
Qed.

Lemma increasing_set_pc s t p : increasing s -> pc_ok p -> increasing (set_pc s t p).
Proof.
  intros (Hs & Hle & Ha & Hpc) Hp. split_and!; [done|done|apply Ha|apply Ha|].
  intros t'. rewrite pc_of_set. by case_decide.
Qed.

Lemma candidate_above prev micros :
  0 <= prev < u64_max -> in_u64 micros -> prev < candidate prev micros <= u64_max.
Proof.
  unfold candidate, in_u64, u64_max. intros Hp Hm.
  rewrite wrap_u64_small by (unfold in_u64; lia). lia.
Qed.

Lemma sorted_snoc (l : list Z) x :
  StronglySorted Z.lt l -> Forall (fun v => v < x) l -> StronglySorted Z.lt (l ++ [x]).
Proof.
  intros Hs HF. induction Hs as [|y l Hs IH Hy]; [repeat constructor|].
  apply Forall_cons in HF as [Hyx HF]. cbn. constructor; [by apply IH|].
  apply Forall_app. split; [done|]. by constructor.
Qed.

Lemma reachable_increasing s : reachable s -> u64_max ∈ history s \/ increasing s.
Proof.
  induction 1 as [|s s' Hr IH Hstep].
  { right. split_and!; [constructor|constructor|cbn; lia|cbn; unfold u64_max; lia|]. intros t.
    unfold pc_of, initial; cbn. by rewrite lookup_empty. }
  destruct IH as [IH|IH].
  { left. destruct Hstep; cbn; try done. apply elem_of_app. by left. }
  pose proof IH as (Hs & Hle & Ha & Hpc).
  destruct Hstep as [s t Ht|s t prev micros Ht Hm|s t prev cand Ht Heq|s t prev cand Ht Hne|s t v Ht].
  - right. by apply increasing_set_pc.
  - right. apply increasing_set_pc; [done|]. specialize (Hpc t). rewrite Ht in Hpc.
    by apply candidate_above.
  - specialize (Hpc t) as Hok. rewrite Ht in Hok. cbn in Hok.
    destruct (decide (cand = u64_max)) as [->|Hmax].
    { left. cbn. apply elem_of_app. right. by left. }
    right. split_and!; cbn; [| |lia|lia|].
    + apply sorted_snoc; [done|]. eapply List.Forall_impl; [|exact Hle]. cbn. lia.
    + apply Forall_app. split; [|by repeat constructor].
      eapply List.Forall_impl; [|exact Hle]. cbn. lia.
    + intros t'. unfold pc_of; cbn. destruct (decide (t' = t)) as [->|Hn].
      * by rewrite lookup_insert_eq.
      * rewrite lookup_insert_ne by done. apply Hpc.
  - right. by apply increasing_set_pc.
  - right. by apply increasing_set_pc.
Qed.

(** C25. In every interleaving of calls, until the clock has reached its last
    value, the versions handed out are strictly increasing in the order of the
    exchanges: no two calls ever get the same one. *)
Theorem versions_strictly_increasing (s : Shared) :
  reachable s -> u64_max ∈ history s \/ StronglySorted Z.lt (history s).
Proof. intros [Hm|(Hs & _)]%reachable_increasing; auto. Qed.

(** One thread alone goes through load, reading and exchange as
    [bump_version_clock] does. *)
Lemma solo_run {E} (st : State E) (micros : Z) (t : nat) (h : list Z) (ths : gmap nat Pc) :
  in_u64 micros -> ths !! t = Some Idle ->
  let c := candidate (VERSION_CLOCK st) micros in
  rtc step (mk_Shared (VERSION_CLOCK st) ths h)
    (mk_Shared (VERSION_CLOCK (fst (bump_version_clock micros st)))
       (<[t := Returned c]> (<[t := Trying (VERSION_CLOCK st) c]> (<[t := Loaded (VERSION_CLOCK st)]> ths)))
       (h ++ [c])) /\
  snd (bump_version_clock micros st) = Ok c.
Proof.
  intros Hm Ht c. split; [|done].
  eapply rtc_l; [apply (step_load _ t); unfold pc_of; cbn; by rewrite Ht|].
  eapply rtc_l; [apply (step_read _ t (VERSION_CLOCK st) micros); [|done]; rewrite pc_of_set; by rewrite decide_True|].
  eapply rtc_l; [apply (step_exchange _ t (VERSION_CLOCK st) c); [|done]; rewrite pc_of_set; by rewrite decide_True|].
  apply rtc_refl.
Qed.

Lemma versions_strictly_increasing_witness :
  reachable (mk_Shared 7 (<[1%nat := Returned 7]> (<[1%nat := Trying 0 7]> (<[1%nat := Loaded 0]> ∅))) [7]) /\
  (u64_max ∈ [7] \/ StronglySorted Z.lt [7]).
Proof.

  assert (Hr : reachable (mk_Shared 7 (<[1%nat := Returned 7]> (<[1%nat := Trying 0 7]> (<[1%nat := Loaded 0]> ∅))) [7])).
  { eapply reach_step; [eapply reach_step; [eapply reach_step; [exact reach_initial|]|]|].
    - apply (step_load _ 1%nat). reflexivity.
    - apply (step_read _ 1%nat 0 7); [reflexivity|vm_compute; split; congruence].
    - exact (step_exchange (set_pc (set_pc initial 1 (Loaded 0)) 1 (Trying 0 7)) 1%nat 0 7 eq_refl eq_refl). }
  split; [exact Hr|].
  exact (versions_strictly_increasing _ Hr).
Defined.
