(* ===== verification/Programs.v ===== *)
(** * Operations step by step

    The connections of the server run on several threads over one store, and no
    operation of store.rs takes a lock: between two engine calls of one operation
    any call of another may come.  A [Prog] is an operation as a sequence of
    atomic steps, one per engine call, clock reading or version-map access (a scan
    is one step: RocksDB's iterators read a snapshot).  Module [Steps] has the
    operations in this form, the text that of Store.v; [solo] runs one
    alone, and then it is the operation of Store.v.  A [Pool] runs several in the
    order a schedule gives.  Taking a version is one step: by VersionClock.v
    concurrent calls of [next_version] behave as if in sequence. *)

From S2P Require Import Prelude F64 Encoding Engine Gc Store StoreRefine.

(** ** Programs *)

Inductive Prog (E A : Type) : Type :=
  | Ret (r : result EngineError A)
  | Step (C : Type) (m : M E C) (k : result EngineError C -> Prog E A).
Arguments Ret {E A} r.
Arguments Step {E A} C m k.

(** One atomic step. *)
Definition atom {E A} (m : M E A) : Prog E A := Step A m Ret.

#[export] Instance Prog_ret {E} : MRet (Prog E) := fun A a => Ret (Ok a).
#[export] Instance Prog_bind {E} : MBind (Prog E) := fun A C f =>
  fix go (p : Prog E A) : Prog E C :=
    match p with
    | Ret (Ok a) => f a
    | Ret (Err e) => Ret (Err e)
    | Step D m k => Step D m (fun r => go (k r))
    end.

Fixpoint solo {E A} (p : Prog E A) : M E A :=
  match p with
  | Ret r => fun s => (s, r)
  | Step C m k => fun s => let '(s', r) := m s in solo (k r) s'
  end.

Lemma solo_bind {E A C} (p : Prog E A) (f : A -> Prog E C) s :
  solo (p ≫= f) s = (solo p ≫= fun a => solo (f a)) s.
Proof.
  revert s. induction p as [[a|e]|D m k IH]; intros s; [done..|].
  change (solo (Step D m k ≫= f) s) with (let '(s', r) := m s in solo (k r ≫= f) s').
  change ((solo (Step D m k) ≫= fun a => solo (f a)) s) with
    (match (let '(s', r) := m s in solo (k r) s') with
     | (s', Ok a) => solo (f a) s' | (s', Err e) => (s', Err e) end).
  destruct (m s) as [s' r]. apply IH.
Qed.

Lemma solo_atom {E A} (m : M E A) s : solo (atom m) s = m s.
Proof. cbn. by destruct (m s). Qed.

(** ** The operations *)

Module Steps.
Section Steps.
Context {E : Type} `{GeneralEngine E}.

Definition throw {A} (e : EngineError) : Prog E A := Ret (Err e).
Definition lift {A} (r : result EngineError A) : Prog E A := Ret r.
Definition some_or {A} (o : option A) (e : EngineError) : Prog E A := lift (ok_or o e).

Definition engine_get (k : bytes) : Prog E (option bytes) := atom (Store.engine_get k).
Definition engine_write (b : WriteBatch) : Prog E unit := atom (Store.engine_write b).
Definition engine_scan_prefix (p : bytes) : Prog E (list (result EngineError (bytes * bytes))) :=
  atom (Store.engine_scan_prefix p).
Definition versions_set (k : bytes) (v : Z) : Prog E unit := atom (Store.versions_set k v).
Definition versions_remove (k : bytes) : Prog E unit := atom (Store.versions_remove k).
Definition engine_compact_range (r : option Range) : Prog E unit := atom (Store.engine_compact_range r).
Definition versions_clear : Prog E unit := atom Store.versions_clear.
Definition now_ms : Prog E Z := atom Store.now_ms.
Definition next_version : Prog E Z := atom Store.next_version.

(** The loops over the items of a scan make no call: one step each. *)
Definition count_items items (n : Z) : Prog E Z := atom (Store.count_items items n).
Definition delete_items items (b : WriteBatch) : Prog E WriteBatch := atom (Store.delete_items items b).
Definition collect_items {A} (f : bytes -> bytes -> A) items (out : list A) : Prog E (list A) :=
  atom (Store.collect_items f items out).
Definition zrange_loop (plen : nat) (lo hi rank : Z) items out : Prog E (list (bytes * f64)) :=
  atom (Store.zrange_loop plen lo hi rank items out).
Definition zrange_by_score_loop (plen : nat) (min : f64) (min_ex : bool) (max : f64) (max_ex : bool) items out :
  Prog E (list (bytes * f64)) :=
  atom (Store.zrange_by_score_loop plen min min_ex max max_ex items out).

(** Metadata. *)

Definition load_meta (user_key : bytes) : Prog E (option Meta) :=
  r ← engine_get (meta_key user_key);
  match r with
  | Some raw =>
      m ← some_or (Meta_decode raw) (Corruption (B "undecodable metadata record"));
      mret (Some m)
  | None => mret None
  end.

Definition put_meta (user_key : bytes) (meta : Meta) : Prog E unit :=
  engine_write (batch_put WriteBatch_new (meta_key user_key) (Meta_encode meta)).

Definition logical_delete (user_key : bytes) : Prog E unit :=
  _ ← engine_write (batch_delete WriteBatch_new (meta_key user_key));
  versions_remove user_key.

Definition expired (meta : Meta) : Prog E bool :=
  if negb (expire_ms meta =? 0)
  then now ← now_ms; mret (expire_ms meta <=? now)
  else mret false.

Definition load_live_meta (user_key : bytes) : Prog E (option Meta) :=
  o ← load_meta user_key;
  match o with
  | None => mret None
  | Some meta =>
      x ← expired meta;
      if (x : bool) then _ ← logical_delete user_key; mret None
      else mret (Some meta)
  end.

Definition load_typed (user_key : bytes) (ty : byte) : Prog E (option Meta) :=
  o ← load_live_meta user_key;
  match o with
  | Some m => if decide (type_id m = ty) then mret (Some m) else throw WrongType
  | None => mret None
  end.

Definition new_composite_meta (user_key : bytes) (ty : byte) : Prog E Meta :=
  v ← next_version;
  _ ← versions_set user_key v;
  mret (mk_Meta ty v 0 []).

Definition load_or_new_counted (key : bytes) (ty : byte) : Prog E Meta :=
  o ← load_typed key ty;
  match o with
  | Some m => mret m
  | None => m ← new_composite_meta key ty; mret (set_field_count m 0)
  end.

(** Strings and generic operations. *)

Definition set (key value : bytes) (expire : Z) : Prog E unit :=
  _ ← versions_remove key;
  v ← next_version;
  put_meta key (mk_Meta TYPE_STRING v expire value).

Definition get (key : bytes) : Prog E (option bytes) :=
  o ← load_live_meta key;
  match o with
  | None => mret None
  | Some meta =>
      if negb (bool_decide (type_id meta = TYPE_STRING)) then throw WrongType
      else mret (Some (payload meta))
  end.

Definition exists_ (key : bytes) : Prog E bool :=
  o ← load_live_meta key; mret (is_some o).

Definition type_of (key : bytes) : Prog E bytes :=
  o ← load_live_meta key;
  mret (match o with
  | Some m =>
      if decide (type_id m = TYPE_STRING) then B "string"
      else if decide (type_id m = TYPE_HASH) then B "hash"
      else if decide (type_id m = TYPE_SET) then B "set"
      else if decide (type_id m = TYPE_ZSET) then B "zset"
      else if decide (type_id m = TYPE_LIST) then B "list"
      else B "none"
  | None => B "none"
  end).

Definition del (key : bytes) : Prog E bool :=
  o ← load_live_meta key;
  if is_some o then _ ← logical_delete key; mret true else mret false.

Definition expire_at (key : bytes) (expire_at_ms : Z) : Prog E bool :=
  o ← load_live_meta key;
  match o with
  | Some meta => _ ← put_meta key (with_expire meta expire_at_ms); mret true
  | None => mret false
  end.

Definition pttl (key : bytes) : Prog E Z :=
  o ← load_live_meta key;
  match o with
  | None => mret (-2)
  | Some meta =>
      if expire_ms meta =? 0 then mret (-1)
      else now ← now_ms; mret (wrap_i64 (saturating_sub (expire_ms meta) now))
  end.

(** Hashes. *)

Fixpoint hset_loop (key : bytes) (ver : Z) (pairs : list (bytes * bytes))
  (fc created : Z) (batch : WriteBatch) : Prog E (Z * Z * WriteBatch) :=
  match pairs with
  | [] => mret (fc, created, batch)
  | (field, value) :: rest =>
      let sk := subkey key ver field in
      existed ← engine_get sk;
      let '(fc, created) :=
        if negb (is_some existed) then (wrap_u32 (fc + 1), wrap_i64 (created + 1))
        else (fc, created) in
      hset_loop key ver rest fc created (batch_put batch sk value)
  end.

Definition hset (key : bytes) (pairs : list (bytes * bytes)) : Prog E Z :=
  meta ← load_or_new_counted key TYPE_HASH;
  '(fc, created, batch) ← hset_loop key (version meta) pairs (field_count meta) 0 WriteBatch_new;
  let meta := set_field_count meta fc in
  _ ← engine_write (batch_put batch (meta_key key) (Meta_encode meta));
  mret created.

Definition hget (key field : bytes) : Prog E (option bytes) :=
  o ← load_typed key TYPE_HASH;
  match o with
  | None => mret None
  | Some meta => engine_get (subkey key (version meta) field)
  end.

Definition hgetall (key : bytes) : Prog E (list (bytes * bytes)) :=
  o ← load_typed key TYPE_HASH;
  match o with
  | None => mret []
  | Some meta =>
      let prefix := subkey_prefix key (version meta) in
      items ← engine_scan_prefix prefix;
      collect_items (fun k v => (drop (length prefix) k, v)) items []
  end.

Fixpoint hdel_loop (key : bytes) (ver : Z) (fields : list bytes)
  (fc removed : Z) (batch : WriteBatch) : Prog E (Z * Z * WriteBatch) :=
  match fields with
  | [] => mret (fc, removed, batch)
  | field :: rest =>
      let sk := subkey key ver field in
      existed ← engine_get sk;
      if is_some existed
      then hdel_loop key ver rest (saturating_sub fc 1) (wrap_i64 (removed + 1)) (batch_delete batch sk)
      else hdel_loop key ver rest fc removed batch
  end.

Definition finish_removal (key : bytes) (meta : Meta) (count removed : Z) (batch : WriteBatch) :
  Prog E unit :=
  if 0 <? removed then
    if count =? 0 then
      _ ← engine_write batch;
      logical_delete key
    else
      engine_write (batch_put batch (meta_key key) (Meta_encode (set_field_count meta count)))
  else mret tt.

Definition hdel (key : bytes) (fields : list bytes) : Prog E Z :=
  o ← load_typed key TYPE_HASH;
  match o with
  | None => mret 0
  | Some meta =>
      '(fc, removed, batch) ←
        hdel_loop key (version meta) fields (field_count meta) 0 WriteBatch_new;
      _ ← finish_removal key meta fc removed batch;
      mret removed
  end.

Definition hlen (key : bytes) : Prog E Z :=
  o ← load_typed key TYPE_HASH;
  mret (match o with Some m => wrap_i64 (field_count m) | None => 0 end).

Definition hexists (key field : bytes) : Prog E bool :=
  o ← hget key field; mret (is_some o).

(** Sets. *)

Fixpoint sadd_loop (key : bytes) (ver : Z) (members : list bytes)
  (seen : gset bytes) (count added : Z) (batch : WriteBatch) : Prog E (Z * Z * WriteBatch) :=
  match members with
  | [] => mret (count, added, batch)
  | member :: rest =>
      if decide (member ∈ seen) then sadd_loop key ver rest seen count added batch
      else
        let seen := {[ member ]} ∪ seen in
        let sk := subkey key ver member in
        existed ← engine_get sk;
        if negb (is_some existed)
        then sadd_loop key ver rest seen (wrap_u32 (count + 1)) (wrap_i64 (added + 1))
               (batch_put batch sk [])
        else sadd_loop key ver rest seen count added batch
  end.

Definition sadd (key : bytes) (members : list bytes) : Prog E Z :=
  meta ← load_or_new_counted key TYPE_SET;
  '(count, added, batch) ←
    sadd_loop key (version meta) members ∅ (field_count meta) 0 WriteBatch_new;
  _ ← (if 0 <? added
       then engine_write (batch_put batch (meta_key key) (Meta_encode (set_field_count meta count)))
       else mret tt);
  mret added.

Fixpoint srem_loop (key : bytes) (ver : Z) (members : list bytes)
  (seen : gset bytes) (count removed : Z) (batch : WriteBatch) : Prog E (Z * Z * WriteBatch) :=
  match members with
  | [] => mret (count, removed, batch)
  | member :: rest =>
      if decide (member ∈ seen) then srem_loop key ver rest seen count removed batch
      else
        let seen := {[ member ]} ∪ seen in
        let sk := subkey key ver member in
        existed ← engine_get sk;
        if is_some existed
        then srem_loop key ver rest seen (saturating_sub count 1) (wrap_i64 (removed + 1))
               (batch_delete batch sk)
        else srem_loop key ver rest seen count removed batch
  end.

Definition srem (key : bytes) (members : list bytes) : Prog E Z :=
  o ← load_typed key TYPE_SET;
  match o with
  | None => mret 0
  | Some meta =>
      '(count, removed, batch) ←
        srem_loop key (version meta) members ∅ (field_count meta) 0 WriteBatch_new;
      _ ← finish_removal key meta count removed batch;
      mret removed
  end.

Definition sismember (key member : bytes) : Prog E bool :=
  o ← load_typed key TYPE_SET;
  match o with
  | None => mret false
  | Some meta => r ← engine_get (subkey key (version meta) member); mret (is_some r)
  end.

Definition smembers (key : bytes) : Prog E (list bytes) :=
  o ← load_typed key TYPE_SET;
  match o with
  | None => mret []
  | Some meta =>
      let prefix := subkey_prefix key (version meta) in
      items ← engine_scan_prefix prefix;
      collect_items (fun k _ => drop (length prefix) k) items []
  end.

Definition scard (key : bytes) : Prog E Z :=
  o ← load_typed key TYPE_SET;
  mret (match o with Some m => wrap_i64 (field_count m) | None => 0 end).

(** Sorted sets. *)

Fixpoint zadd_loop (key : bytes) (ver : Z) (effective : list (bytes * f64))
  (count added : Z) (batch : WriteBatch) : Prog E (Z * Z * WriteBatch) :=
  match effective with
  | [] => mret (count, added, batch)
  | (member, score) :: rest =>
      let member_sk := subkey key ver member in
      let puts b :=
        batch_put (batch_put b member_sk (encode_score score)) (zscore_key key ver score member) [] in
      r ← engine_get member_sk;
      match r with
      | Some old_raw =>
          old_score ← lift (decode_stored_score old_raw);
          if f64_eqb old_score score then zadd_loop key ver rest count added batch
          else
            zadd_loop key ver rest count added
              (puts (batch_delete batch (zscore_key key ver old_score member)))
      | None =>
          zadd_loop key ver rest (wrap_u32 (count + 1)) (wrap_i64 (added + 1)) (puts batch)
      end
  end.

Definition zadd (key : bytes) (pairs : list (f64 * bytes)) : Prog E Z :=
  meta ← load_or_new_counted key TYPE_ZSET;
  '(count, added, batch) ←
    zadd_loop key (version meta) (effective_pairs pairs) (field_count meta) 0 WriteBatch_new;
  _ ← (if negb (batch_is_empty batch)
       then engine_write (batch_put batch (meta_key key) (Meta_encode (set_field_count meta count)))
       else mret tt);
  mret added.

Definition zscore (key member : bytes) : Prog E (option f64) :=
  o ← load_typed key TYPE_ZSET;
  match o with
  | None => mret None
  | Some meta =>
      r ← engine_get (subkey key (version meta) member);
      match r with
      | Some raw => s ← lift (decode_stored_score raw); mret (Some s)
      | None => mret None
      end
  end.

Fixpoint zrem_loop (key : bytes) (ver : Z) (members : list bytes)
  (seen : gset bytes) (count removed : Z) (batch : WriteBatch) : Prog E (Z * Z * WriteBatch) :=
  match members with
  | [] => mret (count, removed, batch)
  | member :: rest =>
      if decide (member ∈ seen) then zrem_loop key ver rest seen count removed batch
      else
        let seen := {[ member ]} ∪ seen in
        let sk := subkey key ver member in
        r ← engine_get sk;
        match r with
        | Some raw =>
            score ← lift (decode_stored_score raw);
            zrem_loop key ver rest seen (saturating_sub count 1) (wrap_i64 (removed + 1))
              (batch_delete (batch_delete batch sk) (zscore_key key ver score member))
        | None => zrem_loop key ver rest seen count removed batch
        end
  end.

Definition zrem (key : bytes) (members : list bytes) : Prog E Z :=
  o ← load_typed key TYPE_ZSET;
  match o with
  | None => mret 0
  | Some meta =>
      '(count, removed, batch) ←
        zrem_loop key (version meta) members ∅ (field_count meta) 0 WriteBatch_new;
      _ ← finish_removal key meta count removed batch;
      mret removed
  end.

Definition zcard (key : bytes) : Prog E Z :=
  o ← load_typed key TYPE_ZSET;
  mret (match o with Some m => wrap_i64 (field_count m) | None => 0 end).

Definition zrange (key : bytes) (start stop : Z) : Prog E (list (bytes * f64)) :=
  o ← load_typed key TYPE_ZSET;
  match o with
  | None => mret []
  | Some meta =>
      let len := wrap_i64 (field_count meta) in
      match normalize_range start stop len with
      | None => mret []
      | Some (lo, hi) =>
          let prefix := zscore_prefix key (version meta) in
          items ← engine_scan_prefix prefix;
          zrange_loop (length prefix) lo hi 0 items []
      end
  end.

Definition zrange_by_score (key : bytes) (min : f64) (min_exclusive : bool)
  (max : f64) (max_exclusive : bool) : Prog E (list (bytes * f64)) :=
  o ← load_typed key TYPE_ZSET;
  match o with
  | None => mret []
  | Some meta =>
      let prefix := zscore_prefix key (version meta) in
      items ← engine_scan_prefix prefix;
      zrange_by_score_loop (length prefix) min min_exclusive max max_exclusive items []
  end.

(** Lists. *)

Definition push (key : bytes) (values : list bytes) (left : bool) : Prog E Z :=
  o ← load_typed key TYPE_LIST;
  meta ←
    match o with
    | Some m => mret m
    | None =>
        m ← new_composite_meta key TYPE_LIST;
        mret (set_list_bounds m LIST_INITIAL_INDEX LIST_INITIAL_INDEX)
    end;
  '(head, tail) ← some_or (list_bounds meta) undecodable_bounds;
  let '(head, tail, batch) := push_loop key (version meta) left values head tail WriteBatch_new in
  _ ← engine_write
        (batch_put batch (meta_key key) (Meta_encode (set_list_bounds meta head tail)));
  mret (wrap_i64 (wrap_u64 (tail - head))).

Fixpoint pop_loop (fuel : nat) (key : bytes) (ver count : Z) (left : bool)
  (head tail : Z) (out : list bytes) (batch : WriteBatch) :
  Prog E (Z * Z * list bytes * WriteBatch) :=
  match fuel with
  | O => mret (head, tail, out, batch)
  | S fuel' =>
      if (Z.of_nat (length out) <? count) && (head <? tail) then
        let '(index, head, tail) :=
          if left then (head, wrap_u64 (head + 1), tail)
          else let t := wrap_u64 (tail - 1) in (t, head, t) in
        let sk := subkey key ver (list_index_field index) in
        r ← engine_get sk;
        value ← some_or r missing_element;
        pop_loop fuel' key ver count left head tail (out ++ [value]) (batch_delete batch sk)
      else mret (head, tail, out, batch)
  end.

Definition pop (key : bytes) (count : Z) (left : bool) : Prog E (list bytes) :=
  o ← load_typed key TYPE_LIST;
  match o with
  | None => mret []
  | Some meta =>
      '(head, tail) ← some_or (list_bounds meta) undecodable_bounds;
      '(head, tail, out, batch) ←
        pop_loop (Z.to_nat (tail - head)) key (version meta) count left head tail [] WriteBatch_new;
      _ ← match out with
          | [] => mret tt
          | _ :: _ =>
              if head =? tail then
                _ ← engine_write batch;
                logical_delete key
              else
                engine_write
                  (batch_put batch (meta_key key) (Meta_encode (set_list_bounds meta head tail)))
          end;
      mret out
  end.

Fixpoint lrange_loop (key : bytes) (ver head : Z) (offsets : list Z) (out : list bytes) :
  Prog E (list bytes) :=
  match offsets with
  | [] => mret out
  | offset :: rest =>
      let index := wrap_u64 (head + offset) in
      r ← engine_get (subkey key ver (list_index_field index));
      value ← some_or r missing_element;
      lrange_loop key ver head rest (out ++ [value])
  end.

Definition lrange (key : bytes) (start stop : Z) : Prog E (list bytes) :=
  o ← load_typed key TYPE_LIST;
  match o with
  | None => mret []
  | Some meta =>
      '(head, tail) ← some_or (list_bounds meta) undecodable_bounds;
      let len := wrap_i64 (wrap_u64 (tail - head)) in
      match normalize_range start stop len with
      | None => mret []
      | Some (lo, hi) => lrange_loop key (version meta) head (seqZ lo (hi - lo + 1)) []
      end
  end.

Definition llen (key : bytes) : Prog E Z :=
  o ← load_typed key TYPE_LIST;
  mret (match o with
  | Some m =>
      match list_bounds m with
      | Some (head, tail) => wrap_i64 (wrap_u64 (tail - head))
      | None => 0
      end
  | None => 0
  end).

(** The whole store. *)

Definition dbsize : Prog E Z :=
  items ← engine_scan_prefix [META_PREFIX]; count_items items 0.

Definition raw_subkey_count : Prog E Z :=
  items ← engine_scan_prefix [SUBKEY_PREFIX];
  n ← count_items items 0;
  items ← engine_scan_prefix [ZSCORE_PREFIX];
  count_items items n.

Definition compact : Prog E unit := engine_compact_range (Some Range_default).

Definition flush_all : Prog E unit :=
  items ← engine_scan_prefix [META_PREFIX];
  b ← delete_items items WriteBatch_new;
  items ← engine_scan_prefix [SUBKEY_PREFIX];
  b ← delete_items items b;
  items ← engine_scan_prefix [ZSCORE_PREFIX];
  b ← delete_items items b;
  _ ← engine_write b;
  versions_clear.

End Steps.
End Steps.

(** ** Run alone, they are the operations of Store.v *)

Section Same.
Context {E : Type} `{GeneralEngine E}.

Definition same {A} (p : Prog E A) (m : M E A) : Prop := forall s, solo p s = m s.

Lemma same_atom {A} (m : M E A) : same (atom m) m.
Proof. intros s. apply solo_atom. Qed.

Lemma same_ret {A} (a : A) : same (mret a) (mret a).
Proof. done. Qed.

Lemma same_throw {A} e : same (Steps.throw (A := A) e) (throw e).
Proof. done. Qed.

Lemma same_lift {A} (r : result EngineError A) : same (Steps.lift r) (lift r).
Proof. done. Qed.

Lemma same_some_or {A} (o : option A) e : same (Steps.some_or o e) (some_or o e).
Proof. done. Qed.

Lemma same_bind {A C} (p : Prog E A) (m : M E A) (f : A -> Prog E C) (g : A -> M E C) :
  same p m -> (forall a, same (f a) (g a)) -> same (p ≫= f) (m ≫= g).
Proof.
  intros Hp Hf s. rewrite solo_bind. unfold mbind, M_bind. rewrite Hp.
  destruct (m s) as [s' [a|e]]; [apply Hf|done].
Qed.
End Same.

Create HintDb steps discriminated.
#[export] Hint Resolve same_ret same_throw same_lift same_some_or : steps.
#[export] Hint Extern 1 (same (Steps.engine_get _) _) => apply same_atom : steps.
#[export] Hint Extern 1 (same (Steps.engine_write _) _) => apply same_atom : steps.
#[export] Hint Extern 1 (same (Steps.engine_scan_prefix _) _) => apply same_atom : steps.
#[export] Hint Extern 1 (same (Steps.versions_set _ _) _) => apply same_atom : steps.
#[export] Hint Extern 1 (same (Steps.versions_remove _) _) => apply same_atom : steps.
#[export] Hint Extern 1 (same (Steps.engine_compact_range _) _) => apply same_atom : steps.
#[export] Hint Extern 1 (same Steps.versions_clear _) => apply same_atom : steps.
#[export] Hint Extern 1 (same (Steps.count_items _ _) _) => apply same_atom : steps.
#[export] Hint Extern 1 (same (Steps.delete_items _ _) _) => apply same_atom : steps.
#[export] Hint Extern 1 (same Steps.now_ms _) => apply same_atom : steps.
#[export] Hint Extern 1 (same Steps.next_version _) => apply same_atom : steps.
#[export] Hint Extern 1 (same (Steps.collect_items _ _ _) _) => apply same_atom : steps.
#[export] Hint Extern 1 (same (Steps.zrange_loop _ _ _ _ _ _) _) => apply same_atom : steps.
#[export] Hint Extern 1 (same (Steps.zrange_by_score_loop _ _ _ _ _ _ _) _) => apply same_atom : steps.

(** Follow the text of the operation. *)
Ltac same_text :=
  repeat first
  [ solve [auto 2 with steps]
  | progress cbv beta zeta
  | apply same_bind; [|intros ?]
  | case_match ].

Section Operations.
Context {E : Type} `{GeneralEngine E}.

Lemma same_load_meta k : same (Steps.load_meta k) (Store.load_meta (E := E) k).
Proof. unfold Steps.load_meta, Store.load_meta. same_text. Qed.
#[local] Hint Resolve same_load_meta : steps.

Lemma same_put_meta k m : same (Steps.put_meta k m) (Store.put_meta (E := E) k m).
Proof. unfold Steps.put_meta, Store.put_meta. same_text. Qed.
#[local] Hint Resolve same_put_meta : steps.

Lemma same_logical_delete k : same (Steps.logical_delete k) (Store.logical_delete (E := E) k).
Proof. unfold Steps.logical_delete, Store.logical_delete. same_text. Qed.
#[local] Hint Resolve same_logical_delete : steps.

Lemma same_expired m : same (Steps.expired m) (Store.expired (E := E) m).
Proof. unfold Steps.expired, Store.expired. same_text. Qed.
#[local] Hint Resolve same_expired : steps.

Lemma same_load_live_meta k : same (Steps.load_live_meta k) (Store.load_live_meta (E := E) k).
Proof. unfold Steps.load_live_meta, Store.load_live_meta. same_text. Qed.
#[local] Hint Resolve same_load_live_meta : steps.

Lemma same_load_typed k ty : same (Steps.load_typed k ty) (Store.load_typed (E := E) k ty).
Proof. unfold Steps.load_typed, Store.load_typed. same_text. Qed.
#[local] Hint Resolve same_load_typed : steps.

Lemma same_new_composite_meta k ty :
  same (Steps.new_composite_meta k ty) (Store.new_composite_meta (E := E) k ty).
Proof. unfold Steps.new_composite_meta, Store.new_composite_meta. same_text. Qed.
#[local] Hint Resolve same_new_composite_meta : steps.

Lemma same_load_or_new_counted k ty :
  same (Steps.load_or_new_counted k ty) (Store.load_or_new_counted (E := E) k ty).
Proof. unfold Steps.load_or_new_counted, Store.load_or_new_counted. same_text. Qed.
#[local] Hint Resolve same_load_or_new_counted : steps.

Lemma same_set k v e : same (Steps.set k v e) (Store.set (E := E) k v e).
Proof. unfold Steps.set, Store.set. same_text. Qed.
#[local] Hint Resolve same_set : steps.

Lemma same_get k : same (Steps.get k) (Store.get (E := E) k).
Proof. unfold Steps.get, Store.get. same_text. Qed.
#[local] Hint Resolve same_get : steps.

Lemma same_exists k : same (Steps.exists_ k) (Store.exists_ (E := E) k).
Proof. unfold Steps.exists_, Store.exists_. same_text. Qed.
#[local] Hint Resolve same_exists : steps.

Lemma same_type_of k : same (Steps.type_of k) (Store.type_of (E := E) k).
Proof. unfold Steps.type_of, Store.type_of. same_text. Qed.
#[local] Hint Resolve same_type_of : steps.

Lemma same_del k : same (Steps.del k) (Store.del (E := E) k).
Proof. unfold Steps.del, Store.del. same_text. Qed.
#[local] Hint Resolve same_del : steps.

Lemma same_expire_at k t : same (Steps.expire_at k t) (Store.expire_at (E := E) k t).
Proof. unfold Steps.expire_at, Store.expire_at. same_text. Qed.
#[local] Hint Resolve same_expire_at : steps.

Lemma same_pttl k : same (Steps.pttl k) (Store.pttl (E := E) k).
Proof. unfold Steps.pttl, Store.pttl. same_text. Qed.
#[local] Hint Resolve same_pttl : steps.

Lemma same_hset_loop k ver l c n b :
  same (Steps.hset_loop k ver l c n b) (Store.hset_loop (E := E) k ver l c n b).
Proof.
  revert c n b. induction l as [|x l IH];
    intros c n b; cbn [Steps.hset_loop Store.hset_loop]; same_text; apply IH.
Qed.
#[local] Hint Resolve same_hset_loop : steps.

Lemma same_hset k l : same (Steps.hset k l) (Store.hset (E := E) k l).
Proof. unfold Steps.hset, Store.hset. same_text. Qed.
#[local] Hint Resolve same_hset : steps.

Lemma same_hget k f : same (Steps.hget k f) (Store.hget (E := E) k f).
Proof. unfold Steps.hget, Store.hget. same_text. Qed.
#[local] Hint Resolve same_hget : steps.

Lemma same_hgetall k : same (Steps.hgetall k) (Store.hgetall (E := E) k).
Proof. unfold Steps.hgetall, Store.hgetall. same_text. Qed.
#[local] Hint Resolve same_hgetall : steps.

Lemma same_hdel_loop k ver l c n b :
  same (Steps.hdel_loop k ver l c n b) (Store.hdel_loop (E := E) k ver l c n b).
Proof.
  revert c n b. induction l as [|x l IH];
    intros c n b; cbn [Steps.hdel_loop Store.hdel_loop]; same_text; apply IH.
Qed.
#[local] Hint Resolve same_hdel_loop : steps.

Lemma same_finish_removal k m c n b :
  same (Steps.finish_removal k m c n b) (Store.finish_removal (E := E) k m c n b).
Proof. unfold Steps.finish_removal, Store.finish_removal. same_text. Qed.
#[local] Hint Resolve same_finish_removal : steps.

Lemma same_hdel k l : same (Steps.hdel k l) (Store.hdel (E := E) k l).
Proof. unfold Steps.hdel, Store.hdel. same_text. Qed.
#[local] Hint Resolve same_hdel : steps.

Lemma same_hlen k : same (Steps.hlen k) (Store.hlen (E := E) k).
Proof. unfold Steps.hlen, Store.hlen. same_text. Qed.
#[local] Hint Resolve same_hlen : steps.

Lemma same_hexists k f : same (Steps.hexists k f) (Store.hexists (E := E) k f).
Proof. unfold Steps.hexists, Store.hexists. same_text. Qed.
#[local] Hint Resolve same_hexists : steps.

Lemma same_sadd_loop k ver l seen c n b :
  same (Steps.sadd_loop k ver l seen c n b) (Store.sadd_loop (E := E) k ver l seen c n b).
Proof.
  revert seen c n b. induction l as [|x l IH];
    intros seen c n b; cbn [Steps.sadd_loop Store.sadd_loop]; same_text; apply IH.
Qed.
#[local] Hint Resolve same_sadd_loop : steps.

Lemma same_sadd k l : same (Steps.sadd k l) (Store.sadd (E := E) k l).
Proof. unfold Steps.sadd, Store.sadd. same_text. Qed.
#[local] Hint Resolve same_sadd : steps.

Lemma same_srem_loop k ver l seen c n b :
  same (Steps.srem_loop k ver l seen c n b) (Store.srem_loop (E := E) k ver l seen c n b).
Proof.
  revert seen c n b. induction l as [|x l IH];
    intros seen c n b; cbn [Steps.srem_loop Store.srem_loop]; same_text; apply IH.
Qed.
#[local] Hint Resolve same_srem_loop : steps.

Lemma same_srem k l : same (Steps.srem k l) (Store.srem (E := E) k l).
Proof. unfold Steps.srem, Store.srem. same_text. Qed.
#[local] Hint Resolve same_srem : steps.

Lemma same_sismember k f : same (Steps.sismember k f) (Store.sismember (E := E) k f).
Proof. unfold Steps.sismember, Store.sismember. same_text. Qed.
#[local] Hint Resolve same_sismember : steps.

Lemma same_smembers k : same (Steps.smembers k) (Store.smembers (E := E) k).
Proof. unfold Steps.smembers, Store.smembers. same_text. Qed.
#[local] Hint Resolve same_smembers : steps.

Lemma same_scard k : same (Steps.scard k) (Store.scard (E := E) k).
Proof. unfold Steps.scard, Store.scard. same_text. Qed.
#[local] Hint Resolve same_scard : steps.

Lemma same_zadd_loop k ver l c n b :
  same (Steps.zadd_loop k ver l c n b) (Store.zadd_loop (E := E) k ver l c n b).
Proof.
  revert c n b. induction l as [|x l IH];
    intros c n b; cbn [Steps.zadd_loop Store.zadd_loop]; same_text; apply IH.
Qed.
#[local] Hint Resolve same_zadd_loop : steps.

Lemma same_zadd k l : same (Steps.zadd k l) (Store.zadd (E := E) k l).
Proof. unfold Steps.zadd, Store.zadd. same_text. Qed.
#[local] Hint Resolve same_zadd : steps.

Lemma same_zscore k f : same (Steps.zscore k f) (Store.zscore (E := E) k f).
Proof. unfold Steps.zscore, Store.zscore. same_text. Qed.
#[local] Hint Resolve same_zscore : steps.

Lemma same_zrem_loop k ver l seen c n b :
  same (Steps.zrem_loop k ver l seen c n b) (Store.zrem_loop (E := E) k ver l seen c n b).
Proof.
  revert seen c n b. induction l as [|x l IH];
    intros seen c n b; cbn [Steps.zrem_loop Store.zrem_loop]; same_text; apply IH.
Qed.
#[local] Hint Resolve same_zrem_loop : steps.

Lemma same_zrem k l : same (Steps.zrem k l) (Store.zrem (E := E) k l).
Proof. unfold Steps.zrem, Store.zrem. same_text. Qed.
#[local] Hint Resolve same_zrem : steps.

Lemma same_zcard k : same (Steps.zcard k) (Store.zcard (E := E) k).
Proof. unfold Steps.zcard, Store.zcard. same_text. Qed.
#[local] Hint Resolve same_zcard : steps.

Lemma same_zrange k a z : same (Steps.zrange k a z) (Store.zrange (E := E) k a z).
Proof. unfold Steps.zrange, Store.zrange. same_text. Qed.
#[local] Hint Resolve same_zrange : steps.

Lemma same_zrange_by_score k mn mne mx mxe :
  same (Steps.zrange_by_score k mn mne mx mxe) (Store.zrange_by_score (E := E) k mn mne mx mxe).
Proof. unfold Steps.zrange_by_score, Store.zrange_by_score. same_text. Qed.
#[local] Hint Resolve same_zrange_by_score : steps.

Lemma same_push k l left : same (Steps.push k l left) (Store.push (E := E) k l left).
Proof. unfold Steps.push, Store.push. same_text. Qed.
#[local] Hint Resolve same_push : steps.

Lemma same_pop_loop fuel k ver c left h t out b :
  same (Steps.pop_loop fuel k ver c left h t out b) (Store.pop_loop (E := E) fuel k ver c left h t out b).
Proof.
  revert h t out b. induction fuel as [|fuel IH];
    intros h t out b; cbn [Steps.pop_loop Store.pop_loop]; same_text; apply IH.
Qed.
#[local] Hint Resolve same_pop_loop : steps.

Lemma same_pop k c left : same (Steps.pop k c left) (Store.pop (E := E) k c left).
Proof. unfold Steps.pop, Store.pop. same_text. Qed.
#[local] Hint Resolve same_pop : steps.

Lemma same_lrange_loop k ver h l out :
  same (Steps.lrange_loop k ver h l out) (Store.lrange_loop (E := E) k ver h l out).
Proof.
  revert out. induction l as [|x l IH];
    intros out; cbn [Steps.lrange_loop Store.lrange_loop]; same_text; apply IH.
Qed.
#[local] Hint Resolve same_lrange_loop : steps.

Lemma same_lrange k a z : same (Steps.lrange k a z) (Store.lrange (E := E) k a z).
Proof. unfold Steps.lrange, Store.lrange. same_text. Qed.
#[local] Hint Resolve same_lrange : steps.

Lemma same_llen k : same (Steps.llen k) (Store.llen (E := E) k).
Proof. unfold Steps.llen, Store.llen. same_text. Qed.
#[local] Hint Resolve same_llen : steps.
Lemma same_dbsize : same Steps.dbsize (Store.dbsize (E := E)).
Proof. unfold Steps.dbsize, Store.dbsize. same_text. Qed.

Lemma same_raw_subkey_count : same Steps.raw_subkey_count (Store.raw_subkey_count (E := E)).
Proof. unfold Steps.raw_subkey_count, Store.raw_subkey_count. same_text. Qed.

Lemma same_compact : same Steps.compact (Store.compact (E := E)).
Proof. unfold Steps.compact, Store.compact. same_text. Qed.

Lemma same_flush_all : same Steps.flush_all (Store.flush_all (E := E)).
Proof. unfold Steps.flush_all, Store.flush_all. same_text. Qed.
End Operations.

#[export] Hint Resolve same_load_meta same_put_meta same_logical_delete same_expired same_load_live_meta
  same_load_typed same_new_composite_meta same_load_or_new_counted same_set same_get same_exists same_type_of
  same_del same_expire_at same_pttl same_hset_loop same_hset same_hget same_hgetall same_hdel_loop
  same_finish_removal same_hdel same_hlen same_hexists same_sadd_loop same_sadd same_srem_loop same_srem
  same_sismember same_smembers same_scard same_zadd_loop same_zadd same_zscore same_zrem_loop same_zrem
  same_zcard same_zrange same_zrange_by_score same_push same_pop_loop same_pop same_lrange_loop same_lrange same_llen same_dbsize same_compact same_flush_all : steps.

(** ** Operations as programs *)

Section Program.
Context {E : Type} `{GeneralEngine E}.

(** A call whose answer is kept as a [Reply]. *)
Definition call {A} (f : A -> Reply) (p : Prog E A) : Prog E Reply := p ≫= fun a => mret (f a).

Definition program (op : Op) : Prog E Reply :=
  match op with
  | OSet k v e => call (fun _ => RUnit) (Steps.set k v e)
  | OGet k => call RValue (Steps.get k)
  | OExists k => call RBool (Steps.exists_ k)
  | OType k => call RText (Steps.type_of k)
  | ODel k => call RBool (Steps.del k)
  | OExpireAt k t => call RBool (Steps.expire_at k t)
  | OPttl k => call RInt (Steps.pttl k)
  | OHset k p => call RInt (Steps.hset k p)
  | OHget k f => call RValue (Steps.hget k f)
  | OHgetall k => call RPairs (Steps.hgetall k)
  | OHdel k f => call RInt (Steps.hdel k f)
  | OHlen k => call RInt (Steps.hlen k)
  | OHexists k f => call RBool (Steps.hexists k f)
  | OSadd k m => call RInt (Steps.sadd k m)
  | OSrem k m => call RInt (Steps.srem k m)
  | OSismember k m => call RBool (Steps.sismember k m)
  | OSmembers k => call RList (Steps.smembers k)
  | OScard k => call RInt (Steps.scard k)
  | OZadd k p => call RInt (Steps.zadd k p)
  | OZscore k m => call RScore (Steps.zscore k m)
  | OZrem k m => call RInt (Steps.zrem k m)
  | OZcard k => call RInt (Steps.zcard k)
  | OZrange k a z => call RScored (Steps.zrange k a z)
  | OZrangeByScore k mn mne mx mxe => call RScored (Steps.zrange_by_score k mn mne mx mxe)
  | OPush k v l => call RInt (Steps.push k v l)
  | OPop k c l => call RList (Steps.pop k c l)
  | OLrange k a z => call RList (Steps.lrange k a z)
  | OLlen k => call RInt (Steps.llen k)
  | ODbsize => call RInt Steps.dbsize
  | OCompact => call (fun _ => RUnit) Steps.compact
  | OFlushAll => call (fun _ => RUnit) Steps.flush_all
  end.

Lemma same_call {A} (f : A -> Reply) p m : same p m -> same (call f p) (f <$> m).
Proof.
  intros Hp s. unfold call. rewrite solo_bind. unfold mbind, M_bind, fmap, M_fmap. rewrite Hp.
  by destruct (m s) as [s' [a|e]].
Qed.

Lemma same_program op : same (program op) (exec op).
Proof. destruct op; cbn [program exec]; apply same_call; auto with steps. Qed.
End Program.

(** ** Pools *)

Section Pools.
Context {E : Type} `{GeneralEngine E}.

Record Pool : Type := mk_Pool { shared : State E; running : list (Prog E Reply) }.

(** Thread [i] makes a step, if it has one to make. *)
Definition advance (p : Pool) (i : nat) : Pool :=
  match running p !! i with
  | Some (Step C m k) => let '(s', r) := m (shared p) in mk_Pool s' (<[i := k r]> (running p))
  | _ => p
  end.

Definition interleave (schedule : list nat) (p : Pool) : Pool := fold_left advance schedule p.

(** Thread [i] has ended with [r]. *)
Definition ended (p : Pool) (i : nat) (r : result EngineError Reply) : Prop := running p !! i = Some (Ret r).
End Pools.

Lemma advance_step {E} (p : Pool (E := E)) i C m (k : result EngineError C -> Prog E Reply) s' r :
  running p !! i = Some (Step C m k) -> m (shared p) = (s', r) ->
  advance p i = mk_Pool s' (<[i := k r]> (running p)).
Proof. unfold advance. by intros -> ->. Qed.

(** The next turn of a concrete schedule. *)
Ltac turn H :=
  match goal with
  | |- context [advance (mk_Pool ?s ?l) ?i] =>
      erewrite (advance_step (mk_Pool s l) i); [|reflexivity|exact H]; cbn [running shared insert list_insert]
  end.
