(* ===== verification/Interleaving.v ===== *)
(** * What interleaving loses

    Three schedules of the operations of Programs.v show what the absence of a
    lock costs: concurrent pushes to one list lose an element, the lazy expiry of a
    GET deletes the value a concurrent SET has just stored, and a key created
    during FLUSHALL is left without its records. *)

From S2P Require Import Prelude F64 Encoding Engine Gc Rocks Store StoreSpec StoreRep StoreInv StoreGeneric StoreList.
From S2P Require Import StoreRefine StoreProps StoreCollections Programs.

Section Races.
Context {E : Type} `{EngineLaws E}.

Abbreviation St := (State E).
Implicit Types (s : St) (d : Db) (k v x : bytes).

Lemma next_version_some s : exists s' ver, next_version s = (s', Ok ver).
Proof. by eexists _, _. Qed.

(** The invariant depends on what the engine holds, not on how it came there. *)
Lemma Inv_same_contents s d e1 e2 :
  Inv (with_engine_state s e1) d -> contents e2 = contents e1 -> reliable e2 ->
  installed e2 = installed e1 -> Inv (with_engine_state s e2) d.
Proof.
  intros [B [Hrep Hb Hc Hf Hr Hi]] Hcon Hr2 Hi2. exists B. split; try done.
  - change (rep (contents e2) (versions s) B d). by rewrite Hcon.
  - cbn in *. congruence.
Qed.

(** The two engine calls of RPUSH of one value on a live list: what it writes,
    and its steps. *)
Definition push_batch (k : bytes) (ver h : Z) (l : list bytes) (x : bytes) : WriteBatch :=
  batch_put (batch_put WriteBatch_new (subkey k ver (list_index_field (h + Z.of_nat (length l)))) x)
    (meta_key k) (Meta_encode (meta_of ver (mk_Obj (ListV h (l ++ [x])) 0))).

Lemma push_steps k x ver h l :
  in_u64 ver -> obj_wf (mk_Obj (ListV h l) 0) -> value_room 1 (ListV h l) ->
  exists K K2, call (E := E) RInt (Steps.push k [x] false) = Step _ (engine_get (meta_key k)) K /\
    K (Ok (Some (Meta_encode (meta_of ver (mk_Obj (ListV h l) 0))))) =
      Step _ (engine_write (push_batch k ver h l x)) K2 /\
    K2 (Ok tt) = Ret (Ok (RInt (Z.of_nat (length (l ++ [x]))))).
Proof.
  intros Hver Hwf (_ & Hr2 & Hr3). pose proof Hwf as [(Hh & Ht & Hl) _]. cbn [value] in *.
  eexists _, _. split; [reflexivity|]. cbv beta iota.
  set (meta := meta_of ver (mk_Obj (ListV h l) 0)).
  assert (Hdec : Meta_decode (Meta_encode meta) = Some meta) by by apply Meta_decode_of.
  rewrite Hdec. cbv beta iota delta [Steps.some_or Steps.lift ok_or mret Prog_ret mbind Prog_bind].
  unfold Steps.expired. change (expire_ms meta) with 0. cbn [negb Z.eqb].
  cbv beta iota delta [mret Prog_ret]. change (type_id meta) with TYPE_LIST. rewrite decide_True by done.
  unfold meta. rewrite list_bounds_of by lia.
  cbv beta iota delta [mret Prog_ret mbind Prog_bind Steps.some_or Steps.lift ok_or Steps.engine_write]. cbn [push_loop].
  assert (Hw : wrap_u64 (h + Z.of_nat (length l) + 1) = h + Z.of_nat (length l) + 1)
    by (apply wrap_u64_small; unfold in_u64; lia).
  assert (Hn : wrap_i64 (wrap_u64 (h + Z.of_nat (length l) + 1 - h)) = Z.of_nat (length (l ++ [x]))).
  { rewrite wrap_u64_small, wrap_i64_small by (unfold in_u64, in_i64; lia). rewrite length_app. cbn. lia. }
  rewrite Hw, Hn, (set_bounds_of ver h l 0 h (l ++ [x])) by (rewrite length_app; cbn; lia).
  unfold push_batch. cbv beta iota delta [Steps.engine_write atom]. split; reflexivity.
Qed.

(** The writes of two pushes on the same list are the second write. *)
Lemma push_batch_twice k ver h l x y m :
  apply_batch (push_batch k ver h l y) (apply_batch (push_batch k ver h l x) m) =
  apply_batch (push_batch k ver h l y) m.
Proof.
  unfold push_batch. rewrite !apply_batch_put, !apply_batch_new. apply map_eq. intros i.
  destruct (decide (i = meta_key k)) as [->|Hm]; [by rewrite !lookup_insert_eq|].
  rewrite !(lookup_insert_ne _ (meta_key k)) by done.
  destruct (decide (i = subkey k ver (list_index_field (h + Z.of_nat (length l))))) as [->|Hs].
  - by rewrite !lookup_insert_eq.
  - by rewrite !lookup_insert_ne.
Qed.

(** C14. Concurrent pushes lose elements: when two connections RPUSH to the same
    list and both read it before either writes, both are told the same new length
    and only the value written last is in the list; the other, although
    acknowledged, is gone. *)
Theorem concurrent_push_loses_element s d k x y h l :
  Inv s d -> op_pre s d (OPush k [x] false) -> d !! k = Some (mk_Obj (ListV h l) 0) ->
  let p := interleave [0; 1; 0; 1]%nat
    (mk_Pool s [call RInt (Steps.push k [x] false); call RInt (Steps.push k [y] false)]) in
  let n := Ok (RInt (Z.of_nat (length l) + 1)) in
  ended p 0 n /\ ended p 1 n /\ answer (lrange k 0 (-1)) (shared p) = Ok (l ++ [y]).
Proof.
  intros [B HI] (Hk & Hc & Hroom) Hd p n. rewrite Hd in Hroom. destruct Hroom as [_ Hroom].
  pose proof (load_meta_ok B s d k HI Hk) as Hload. rewrite Hd in Hload.
  destruct Hload as (ver & _ & Hat & _). pose proof (at_ver _ _ _ _ _ Hat) as Hver.
  pose proof (at_wf _ _ _ _ _ Hat) as Hwf. pose proof (inv_reliable _ _ _ HI) as Hrel.
  assert (Hget : engine_get (meta_key k) s = (s, Ok (Some (Meta_encode (meta_of ver (mk_Obj (ListV h l) 0))))))
    by (rewrite engine_get_ok by done; by rewrite (at_meta _ _ _ _ _ Hat)).
  destruct (push_steps k x ver h l Hver Hwf Hroom) as (Kx & Kx2 & Ex & Ex1 & Ex2).
  destruct (push_steps k y ver h l Hver Hwf Hroom) as (Ky & Ky2 & Ey & Ey1 & Ey2).
  destruct (engine_write_ok s (push_batch k ver h l x) Hrel) as (e1 & Hw1 & Hc1 & Hr1 & Hi1).
  destruct (engine_write_ok (with_engine_state s e1) (push_batch k ver h l y) Hr1) as (e2 & Hw2 & Hc2 & Hr2 & Hi2).
  destruct (engine_write_ok s (push_batch k ver h l y) Hrel) as (e3 & Hw3 & Hc3 & Hr3 & Hi3).
  assert (Hlen : forall z, Z.of_nat (length (l ++ [z])) = Z.of_nat (length l) + 1)
    by (intros z; rewrite length_app; cbn; lia).
  rewrite Hlen in Ex2, Ey2.
  assert (Hp : p = mk_Pool (with_engine_state s e2) [Ret n; Ret n]).
  { unfold p, interleave. cbn [fold_left]. rewrite Ex, Ey.
    do 2 turn Hget. rewrite Ex1. turn Hw1. rewrite Ey1. turn Hw2. by rewrite Ex2, Ey2. }
  rewrite Hp. split; [done|]. split; [done|]. cbn [shared].
  (* the store is as after the second push alone *)
  assert (Hsolo : push k [y] false s = (with_engine_state s e3, Ok (Z.of_nat (length l) + 1))).
  { assert (Hcall : solo (call RInt (Steps.push k [y] false)) s = (with_engine_state s e3, n)).
    { rewrite Ey. cbn [solo]. rewrite Hget, Ey1. cbn [solo]. rewrite Hw3, Ey2. done. }
    unfold call in Hcall. rewrite solo_bind in Hcall. unfold mbind, M_bind in Hcall. rewrite same_push in Hcall.
    destruct (push k [y] false s) as [s' [a|err]]; [|done]. cbn in Hcall. unfold n in Hcall. congruence. }
  destruct (push_refines B s d k [y] false HI Hk Hc) as (s' & Hs' & HI' & _); [by rewrite Hd|].
  rewrite Hsolo in Hs'. injection Hs' as <- _. unfold spec_push in HI'.
  rewrite (on_type_holds _ k d (ListV LIST_INITIAL_INDEX []) (ListV h l)) in HI' by by right.
  rewrite Hd in HI'. cbn [list_of fst push_list] in HI'.
  assert (Hsame : contents e2 = contents e3).
  { rewrite Hc2, Hc3. change (contents (engine (with_engine_state s e1))) with (contents e1).
    by rewrite Hc1, push_batch_twice. }
  apply (Inv_same_contents s _ e3 e2) in HI' as [B2 HI2]; [|done|done|cbn in *; congruence].
  destruct (refines_answer _ _ _ (lrange_refines B2 _ _ k 0 (-1) HI2 Hk)) as [-> _].
  unfold spec_lrange. rewrite (on_type_insert _ k d (ListV h (l ++ [y]))). cbn [list_of snd].
  by rewrite sublist_all.
Qed.
(** The steps of a GET that finds its key expired, and those of a SET. *)
Lemma get_expired_steps k meta now :
  Meta_decode (Meta_encode meta) = Some meta -> expire_ms meta <> 0 -> expire_ms meta <= now ->
  exists K K2 K3 K4, call (E := E) RValue (Steps.get k) = Step _ (engine_get (meta_key k)) K /\
    K (Ok (Some (Meta_encode meta))) = Step _ now_ms K2 /\
    K2 (Ok now) = Step _ (engine_write (batch_delete WriteBatch_new (meta_key k))) K3 /\
    K3 (Ok tt) = Step _ (versions_remove k) K4 /\ K4 (Ok tt) = Ret (Ok (RValue None)).
Proof.
  intros Hdec Hne Hle. eexists _, _, _, _. split; [reflexivity|]. cbv beta iota. rewrite Hdec.
  cbv beta iota delta [Steps.some_or Steps.lift ok_or mret Prog_ret mbind Prog_bind]. unfold Steps.expired.
  rewrite (proj2 (Z.eqb_neq _ _)) by done. cbn [negb]. split; [reflexivity|].
  cbv beta iota. rewrite (proj2 (Z.leb_le _ _)) by done. by repeat split.
Qed.

Lemma set_steps k v e :
  exists K K2 K3, call (E := E) (fun _ => RUnit) (Steps.set k v e) = Step _ (versions_remove k) K /\
    K (Ok tt) = Step _ next_version K2 /\
    (forall ver, K2 (Ok ver) = Step _ (put_meta k (mk_Meta TYPE_STRING ver e v)) (K3 ver)) /\
    (forall ver, K3 ver (Ok tt) = Ret (Ok RUnit)).
Proof. eexists _, _, (fun ver => _). by repeat split. Qed.

(** C15. Expiry races with SET: a GET that finds its key expired deletes the key
    some steps later, whatever it has become; a SET that comes in between is
    acknowledged, yet its value is deleted and the key is gone. *)
Theorem lazy_expiry_deletes_fresh_value s d k v o :
  Inv s d -> op_pre s d (OSet k v 0) -> d !! k = Some o -> obj_expired (peek_ms s) o ->
  let p := interleave [0; 0; 1; 1; 1; 0; 0]%nat
    (mk_Pool s [call RValue (Steps.get k); call (fun _ => RUnit) (Steps.set k v 0)]) in
  ended p 0 (Ok (RValue None)) /\ ended p 1 (Ok RUnit) /\
  answer (get k) (shared p) = Ok None.
Proof.
  intros [B HI] (Hk & Hc & He) Hd [Hne Hle] p.
  pose proof (load_meta_ok B s d k HI Hk) as Hload. rewrite Hd in Hload.
  destruct Hload as (ver & _ & Hat & _).
  assert (Hget : engine_get (meta_key k) s = (s, Ok (Some (Meta_encode (meta_of ver o)))))
    by (rewrite engine_get_ok by apply HI; by rewrite (at_meta _ _ _ _ _ Hat)).
  destruct (get_expired_steps k (meta_of ver o) (peek_ms s)) as (K & K2 & K3 & K4 & E1 & E2 & E3 & E4 & E5);
    [by apply Meta_decode_of; apply Hat|done|done|].
  destruct (set_steps k v 0) as (J & J2 & J3 & F1 & F2 & F3 & F4).
  pose proof (now_ms_eq s) as Hnow.
  destruct (set_refines B (ticked s) d k v 0 (Inv_ticked _ _ _ HI) Hk Hc He) as (s2 & Hset & [B2 HI2] & _).
  cbn [fst snd spec_set] in Hset, HI2.
  destruct (next_version_some (with_versions (ticked s) (VersionMap_remove (versions s) k))) as (s3 & ver' & Hnext).
  assert (Hrem : versions_remove k (ticked s) =
    (with_versions (ticked s) (VersionMap_remove (versions s) k), Ok tt)) by done.
  assert (Hput : put_meta k (mk_Meta TYPE_STRING ver' 0 v) s3 = (s2, Ok tt)).
  { rewrite <- Hset. unfold set. by rewrite (bind_ok _ _ _ _ _ Hrem), (bind_ok _ _ _ _ _ Hnext). }
  destruct (engine_write_ok s2 (batch_delete WriteBatch_new (meta_key k)) (inv_reliable _ _ _ HI2))
    as (e & Hdel & _).
  destruct (logical_delete_ok B2 s2 _ k HI2 Hk) as (s4 & Hlog & HI4 & _).
  unfold logical_delete in Hlog. rewrite (bind_ok _ _ _ _ _ Hdel) in Hlog.
  assert (Hp : p = mk_Pool s4 [Ret (Ok (RValue None)); Ret (Ok RUnit)]).
  { unfold p, interleave. cbn [fold_left]. rewrite E1, F1.
    turn Hget. rewrite E2. turn Hnow. rewrite E3. turn Hrem. rewrite F2. turn Hnext. rewrite F3.
    turn Hput. rewrite F4. turn Hdel. rewrite E4. turn Hlog. by rewrite E5. }
  rewrite Hp. split; [done|]. split; [done|]. cbn [shared].
  destruct (refines_answer _ _ _ (get_refines B2 s4 _ k HI4 Hk)) as [-> _].
  unfold spec_get, on_type. rewrite purge_missing by apply lookup_delete_eq. by rewrite lookup_delete_eq.
Qed.
End Races.

(** ** Witnesses *)

Lemma concurrent_push_loses_element_witness :
  let p := interleave [0; 1; 0; 1]%nat (mk_Pool (demo_after demo_ops)
    [call RInt (Steps.push (B "l") [B "x"] false); call RInt (Steps.push (B "l") [B "y"] false)]) in
  ended p 0 (Ok (RInt 4)) /\ ended p 1 (Ok (RInt 4)) /\
  answer (lrange (B "l") 0 (-1)) (shared p) = Ok [B "1"; B "2"; B "3"; B "y"].
Proof.
  assert (Hp : op_pre (demo_after demo_ops) (demo_db demo_ops) (OPush (B "l") [B "x"] false)) by solve_pre.
  apply (concurrent_push_loses_element (demo_after demo_ops) (demo_db demo_ops) (B "l") (B "x") (B "y")
    (2 ^ 63) [B "1"; B "2"; B "3"] demo_ops_inv Hp).
  vm_compute. reflexivity.
Defined.

Lemma lazy_expiry_deletes_fresh_value_witness :
  let s := demo_after [OSet (B "k") (B "old") 1] in
  let p := interleave [0; 0; 1; 1; 1; 0; 0]%nat
    (mk_Pool s [call RValue (Steps.get (B "k")); call (fun _ => RUnit) (Steps.set (B "k") (B "new") 0)]) in
  ended p 0 (Ok (RValue None)) /\ ended p 1 (Ok RUnit) /\ answer (get (B "k")) (shared p) = Ok None.
Proof.
  intros s p.
  assert (HI : Inv s (demo_db [OSet (B "k") (B "old") 1])) by (apply demo_after_inv; solve_pre).
  assert (Hp : op_pre s (demo_db [OSet (B "k") (B "old") 1]) (OSet (B "k") (B "new") 0)) by solve_pre.
  apply (lazy_expiry_deletes_fresh_value s (demo_db [OSet (B "k") (B "old") 1]) (B "k") (B "new")
    (mk_Obj (StringV (B "old")) 1) HI Hp).
  - vm_compute. reflexivity.
  - vm_compute. split; discriminate.
Defined.

(** FLUSHALL races with a write that creates a key: the scan for metadata misses
    the new key, the scan for its records does not.  The acknowledged hash keeps
    its metadata and its count but no field, and is no longer tracked. *)
Example flush_leaves_hollow_hash :
  let p := interleave ([0; 1; 1; 1; 1; 1] ++ repeat 0 8)%nat (mk_Pool demo_state
    [program OFlushAll; program (OHset (B "h") [(B "f", B "1")])]) in
  ended p 0 (Ok RUnit) /\ ended p 1 (Ok (RInt 1)) /\
  answer (hlen (B "h")) (shared p) = Ok 1 /\ answer (hgetall (B "h")) (shared p) = Ok [] /\
  versions (shared p) !! B "h" = None.
Proof. vm_compute. auto. Qed.
