(* ===== verification/Locality.v ===== *)
(** * Operations touch only their key

    Every step of an operation on one key sees and changes the records and the
    version of that key only, whatever it has read before, and at most one step
    takes a version ([local]).  The lemmas follow the text of the operations of
    Programs.v. *)

From S2P Require Import Prelude F64 Encoding Engine Gc Rocks Store StoreSpec StoreRep StoreInv StoreGeneric StoreRefine.
From S2P Require Import StoreDurability Programs.

(** ** The records of a key *)

(** Its metadata, and the records of both families under any version. *)
Definition owned (k raw : bytes) : Prop :=
  raw = meta_key k \/
  exists p suffix, family p /\ raw = p :: u32_be (Z.of_nat (length k)) ++ k ++ suffix.

Lemma owned_meta k : owned k (meta_key k).
Proof. by left. Qed.

Lemma owned_versioned k p ver rest : family p -> owned k (versioned_key p k ver rest).
Proof. intros Hp. right. by exists p, (u64_be ver ++ rest). Qed.

Lemma owned_subkey k ver f : owned k (subkey k ver f).
Proof. unfold subkey. rewrite subkey_prefix_versioned. apply owned_versioned, family_sub. Qed.

Lemma owned_zscore_key k ver x m : owned k (zscore_key k ver x m).
Proof. unfold zscore_key. rewrite zscore_prefix_versioned. apply owned_versioned, family_zscore. Qed.

Lemma owned_disjoint k1 k2 raw :
  valid_key k1 -> valid_key k2 -> owned k1 raw -> owned k2 raw -> k1 = k2.
Proof.
  intros H1 H2 [->|(p1 & s1 & Hp1 & ->)] [Hr|(p2 & s2 & Hp2 & Hr)].
  - by injection Hr.
  - injection Hr as <- _. by destruct Hp2.
  - injection Hr as -> _. by destruct Hp1.
  - apply (f_equal tail) in Hr. cbn [tail] in Hr. apply app_inj_1 in Hr as [Hlen Hr]; [|by rewrite !length_be_bytes].
    apply (f_equal of_be_bytes) in Hlen. rewrite !of_be_u32 in Hlen by done.
    apply app_inj_1 in Hr as [Hk _]; [done|lia].
Qed.

(** A batch of a key's records, and a scan of them. *)
Definition batch_of (k : bytes) (b : WriteBatch) : Prop := Forall (fun o => owned k (op_key o)) (ops b).

Lemma batch_of_new k : batch_of k WriteBatch_new.
Proof. constructor. Qed.

Lemma batch_of_put k b raw x : owned k raw -> batch_of k b -> batch_of k (batch_put b raw x).
Proof. intros Hr Hb. apply Forall_app_2; [done|]. by constructor. Qed.

Lemma batch_of_delete k b raw : owned k raw -> batch_of k b -> batch_of k (batch_delete b raw).
Proof. intros Hr Hb. apply Forall_app_2; [done|]. by constructor. Qed.

Create HintDb local discriminated.
#[export] Hint Resolve owned_meta owned_subkey owned_zscore_key batch_of_new batch_of_put batch_of_delete : local.

Lemma apply_batch_cong b m1 m2 raw : m1 !! raw = m2 !! raw -> apply_batch b m1 !! raw = apply_batch b m2 !! raw.
Proof.
  unfold apply_batch. revert m1 m2. induction (ops b) as [|o l IH]; intros m1 m2 Hm; [done|].
  cbn [fold_left]. apply IH. destruct o as [raw' x|raw']; cbn [apply_op];
    (destruct (decide (raw' = raw)) as [->|Hne];
     [by rewrite ?lookup_insert_eq, ?lookup_delete_eq|by rewrite ?lookup_insert_ne, ?lookup_delete_ne]).
Qed.

Lemma scan_entries_cong (p : bytes) (m1 m2 : gmap bytes bytes) :
  (forall raw, p `prefix_of` raw -> m1 !! raw = m2 !! raw) -> scan_entries p m1 = scan_entries p m2.
Proof.
  intros Hm. unfold scan_entries. f_equal. apply map_eq. intros raw. apply option_eq. intros x.
  rewrite !map_lookup_filter_Some. cbn [fst]. split; intros [Hx Hp]; (split; [|done]); [rewrite <- Hm|rewrite Hm]; done.
Qed.

(** ** Local steps *)

Section Isolation.
Context {E : Type} `{EngineLaws E}.

Abbreviation St := (State E).
Abbreviation records s := (contents (engine s)).
Implicit Types (k raw : bytes) (s t : St) (d : Db).

(** Two stores agree on a key: its records and its version are the same. *)
Record agree (k : bytes) (s t : St) : Prop := {
  agree_left : reliable (engine s);
  agree_right : reliable (engine t);
  agree_records raw : owned k raw -> records s !! raw = records t !! raw;
  agree_version : versions s !! k = versions t !! k;
}.

Lemma agree_refl k s : reliable (engine s) -> agree k s s.
Proof. by split. Qed.

Lemma agree_sym k s t : agree k s t -> agree k t s.
Proof. intros [H1 H2 H3 H4]. split; [done..| |done]. intros raw Hr. by rewrite H3. Qed.

Lemma agree_trans k s1 s2 s3 : agree k s1 s2 -> agree k s2 s3 -> agree k s1 s3.
Proof.
  intros [H1' H2' H3' H4'] [_ H6' H7' H8']. split; [done..| |congruence].
  intros raw Hr. rewrite H3' by done. by apply H7'.
Qed.

(** A step on the engine and the version table, without the clocks. *)
Definition on_tables {C} (f : E -> version_table -> E * version_table * result EngineError C) : M E C := fun s =>
  let '(e, vt, r) := f (engine s) (versions s) in
  (mk_State e vt (VERSION_CLOCK s) (clock s) (tick s), r).

(** ... that sees and changes only key [k]. *)
Definition touches {C} (k : bytes) (f : E -> version_table -> E * version_table * result EngineError C) : Prop :=
  forall s, reliable (engine s) ->
    (forall k', valid_key k' -> k' <> k -> agree k' s (on_tables f s).1) /\
    (forall t, agree k s t -> agree k (on_tables f s).1 (on_tables f t).1 /\ (on_tables f s).2 = (on_tables f t).2).

Definition plain {C} (k : bytes) (m : M E C) : Prop :=
  exists f, (forall s, m s = on_tables f s) /\ touches k f.

(** A step that reads the wall clock, and one that takes a version. *)
Definition reads_clock {C} (m : M E C) : Prop :=
  exists g : Z -> result EngineError C, forall s, m s = (ticked s, g (Z.max 0 (clock s (tick s)))).

Definition bump (prev ns : Z) : Z := Z.max (wrap_u64 (prev + 1)) (as_micros ns).

Definition takes_version {C} (m : M E C) : Prop :=
  exists g : Z -> result EngineError C, forall s,
    let v := bump (VERSION_CLOCK s) (Z.max 0 (clock s (tick s))) in
    m s = (mk_State (engine s) (versions s) v (clock s) (S (tick s)), g v).

(** A program on key [k] that takes at most one version when [b], and none
    otherwise; a value it ends with satisfies [Q]. *)
Fixpoint local {A} (k : bytes) (Q : A -> Prop) (b : bool) (p : Prog E A) : Prop :=
  match p with
  | Ret (Ok a) => Q a
  | Ret (Err _) => True
  | Step C m K =>
      plain k m /\ (forall r, local k Q b (K r)) \/
      reads_clock m /\ (forall r, local k Q b (K r)) \/
      b = true /\ takes_version m /\ (forall r, local k Q false (K r))
  end.

Lemma local_weaken {A} k (Q R : A -> Prop) b p :
  local k Q b p -> (forall a, Q a -> R a) -> local k R b p.
Proof.
  intros Hp HQ. revert b Hp. induction p as [[a|e]|C m K IH]; intros b; cbn [local]; [auto|done|].
  intros [[? ?]|[[? ?]|(? & ? & ?)]]; [left|right; left|right; right]; eauto.
Qed.

Lemma local_more {A} k (Q : A -> Prop) b p : local k Q false p -> local k Q b p.
Proof.
  induction p as [[a|e]|C m K IH]; cbn [local]; [done..|].
  intros [[? ?]|[[? ?]|(? & ? & ?)]]; [left|right; left|done]; eauto.
Qed.

Lemma local_bind {A C} k (Q : A -> Prop) (R : C -> Prop) p f :
  local k Q false p -> forall b, (forall a, Q a -> local k R b (f a)) -> local k R b (p ≫= f).
Proof.
  intros Hp b Hf. induction p as [[a|e]|D m K IH]; cbn [local] in *; [by apply Hf|done|].
  change (local k R b (Step D m (fun r => K r ≫= f))). cbn [local].
  destruct Hp as [[? ?]|[[? ?]|(? & ? & ?)]]; [left|right; left|done]; eauto.
Qed.

Lemma local_bind_version {A C} k (Q : A -> Prop) (R : C -> Prop) p f :
  local k Q true p -> (forall a, Q a -> local k R false (f a)) -> local k R true (p ≫= f).
Proof.
  intros Hp Hf. revert Hp. induction p as [[a|e]|D m K IH]; cbn [local]; [|done|].
  - intros Ha. by apply (local_more (A := C)), Hf.
  - intros Hp. change (local k R true (Step D m (fun r => K r ≫= f))). cbn [local].
    destruct Hp as [[? ?]|[[? ?]|(? & ? & ?)]]; [left|right; left|right; right]; eauto using local_bind.
Qed.

Lemma local_ret {A} k (Q : A -> Prop) b a : Q a -> local k Q b (mret a).
Proof. done. Qed.

Lemma local_lift {A} k b (r : result EngineError A) : local k (fun _ => True) b (Steps.lift r).
Proof. by destruct r. Qed.

Lemma local_some_or {A} k b (o : option A) e : local k (fun _ => True) b (Steps.some_or o e).
Proof. apply local_lift. Qed.

Lemma local_throw {A} k (Q : A -> Prop) b e : local k Q b (Steps.throw e).
Proof. done. Qed.

Lemma local_atom {C} k b (m : M E C) : plain k m -> local k (fun _ => True) b (atom m).
Proof. intros Hm. left. split; [done|]. by intros [a|e]. Qed.

(** ** The calls of the operations are local *)

(** A computation that makes no call. *)
Definition constant {C} (m : M E C) : Prop := exists r, forall s, m s = (s, r).

Lemma constant_ret {C} (a : C) : constant (mret a).
Proof. by eexists. Qed.

Lemma constant_lift {C} (r : result EngineError C) : constant (lift r).
Proof. by eexists. Qed.

Lemma constant_bind {C D} (m : M E C) (f : C -> M E D) :
  constant m -> (forall a, constant (f a)) -> constant (m ≫= f).
Proof.
  intros [[a|e] Hm] Hf; [|exists (Err e); intros s; unfold mbind, M_bind; by rewrite Hm].
  destruct (Hf a) as [r Hr]. exists r. intros s. unfold mbind, M_bind. by rewrite Hm.
Qed.

Lemma plain_constant {C} k (m : M E C) : constant m -> plain k m.
Proof.
  intros [r Hm]. exists (fun e vt => (e, vt, r)). split; [intros s; rewrite Hm; by destruct s|].
  intros s Hr. split; [by split|]. intros t [Ha1 Ha2 Ha3 Ha4]. by split; [split|].
Qed.

Lemma plain_get k raw : owned k raw -> plain k (engine_get raw).
Proof.
  intros Ho. exists (fun e vt => (e, vt, eng_get e raw)). split; [by intros []|].
  intros s Hr. split; [by split|]. intros t [_ Ht Hrec Hv]. split; [by split|]. cbn.
  by rewrite !reliable_get, Hrec by done.
Qed.

Lemma plain_write k b : valid_key k -> batch_of k b -> plain k (engine_write b).
Proof.
  intros Hk Hb. exists (fun e vt => let '(e', r) := eng_write e b in (e', vt, r)).
  split; [intros s; unfold engine_write, on_tables; by destruct (eng_write (engine s) b)|].
  intros s Hr. unfold on_tables. destruct (reliable_write (engine s) b Hr) as (e1 & Hw1 & Hr1).
  rewrite Hw1. pose proof (write_ok _ _ _ Hw1) as Hc1. cbn [fst snd]. split.
  - intros k' Hk' Hne. split; [done..| |done]. intros raw Ho. cbn [engine]. rewrite Hc1, apply_batch_other; [done|].
    eapply List.Forall_impl; [|exact Hb]. intros o Hown Heq. cbv beta in Hown. rewrite Heq in Hown.
    by apply Hne, (owned_disjoint _ _ raw).
  - intros t [_ Ht Hrec Hv]. destruct (reliable_write (engine t) b Ht) as (e2 & Hw2 & Hr2).
    rewrite Hw2. pose proof (write_ok _ _ _ Hw2) as Hc2. split; [|done]. split; [done..| |done].
    intros raw Ho. cbn [engine fst]. rewrite Hc1, Hc2. by apply apply_batch_cong, Hrec.
Qed.

Lemma plain_scan k (p : bytes) : (forall raw, p `prefix_of` raw -> owned k raw) -> plain k (engine_scan_prefix p).
Proof.
  intros Ho. exists (fun e vt => (e, vt, Ok (eng_scan_prefix e p))). split; [by intros []|].
  intros s Hr. split; [by split|]. intros t [_ Ht Hrec Hv]. split; [by split|]. cbn.
  rewrite !reliable_scan by done. do 2 f_equal. apply scan_entries_cong. auto.
Qed.

Lemma plain_versions_set k v : plain k (versions_set k v).
Proof.
  exists (fun e vt => (e, VersionMap_set vt k v, Ok tt)). split; [by intros []|].
  intros s Hr. split.
  - intros k' _ Hne. split; [done..|]. cbn. unfold VersionMap_set. by rewrite lookup_insert_ne by done.
  - intros t [H1' H2' H3' H4']. split; [|done]. split; [done..|]. cbn.
    unfold VersionMap_set. by rewrite !lookup_insert_eq.
Qed.

Lemma plain_versions_remove k : plain k (versions_remove k).
Proof.
  exists (fun e vt => (e, VersionMap_remove vt k, Ok tt)). split; [by intros []|].
  intros s Hr. split.
  - intros k' _ Hne. split; [done..|]. cbn. unfold VersionMap_remove. by rewrite lookup_delete_ne by done.
  - intros t [H1' H2' H3' H4']. split; [|done]. split; [done..|]. cbn. unfold VersionMap_remove.
    by rewrite !lookup_delete_eq.
Qed.

Lemma local_engine_get k b raw : owned k raw -> local k (fun _ => True) b (Steps.engine_get raw).
Proof. intros Ho. by apply local_atom, plain_get. Qed.

Lemma local_engine_write k b batch :
  valid_key k -> batch_of k batch -> local k (fun _ => True) b (Steps.engine_write batch).
Proof. intros Hk Hb. by apply local_atom, plain_write. Qed.

Lemma local_scan_sub k ver b : local k (fun _ => True) b (Steps.engine_scan_prefix (subkey_prefix k ver)).
Proof. apply local_atom, plain_scan. intros raw [rest ->]. apply owned_subkey. Qed.

Lemma local_scan_zscore k ver b : local k (fun _ => True) b (Steps.engine_scan_prefix (zscore_prefix k ver)).
Proof.
  apply local_atom, plain_scan. intros raw [rest ->]. rewrite zscore_prefix_versioned.
  apply owned_versioned, family_zscore.
Qed.

Lemma local_versions_set k v b : local k (fun _ => True) b (Steps.versions_set k v).
Proof. apply local_atom, plain_versions_set. Qed.

Lemma local_versions_remove k b : local k (fun _ => True) b (Steps.versions_remove k).
Proof. apply local_atom, plain_versions_remove. Qed.

Lemma local_now k b : local k (fun _ => True) b Steps.now_ms.
Proof.
  right. left. split; [|by intros [a|e]]. by exists (fun ns => Ok (as_millis ns)).
Qed.

Lemma local_version k : local k (fun _ => True) true Steps.next_version.
Proof.
  right. right. split; [done|]. split; [|by intros [a|e]]. by exists Ok.
Qed.

Lemma local_constant {C} k b (m : M E C) : constant m -> local k (fun _ => True) b (atom m).
Proof. intros Hm. by apply local_atom, plain_constant. Qed.

Lemma local_collect {A} k b (f : bytes -> bytes -> A) items out :
  local k (fun _ => True) b (Steps.collect_items f items out).
Proof.
  apply local_constant. revert out. induction items as [|item items IH]; intros out; [apply constant_ret|].
  apply constant_bind; [apply constant_lift|]. intros [k' v]. apply IH.
Qed.

Lemma local_zrange_loop k b plen lo hi rank items out :
  local k (fun _ => True) b (Steps.zrange_loop plen lo hi rank items out).
Proof.
  apply local_constant. revert rank out. induction items as [|item items IH]; intros rank out; [apply constant_ret|].
  apply constant_bind; [apply constant_lift|]. intros [k' v].
  destruct (rank <? lo); [apply IH|]. destruct (hi <? rank); [apply constant_ret|].
  apply constant_bind; [apply constant_lift|]. intros [x m]. apply IH.
Qed.

Lemma local_zrange_by_score_loop k b plen mn mne mx mxe items out :
  local k (fun _ => True) b (Steps.zrange_by_score_loop plen mn mne mx mxe items out).
Proof.
  apply local_constant. revert out. induction items as [|item items IH]; intros out; [apply constant_ret|].
  apply constant_bind; [apply constant_lift|]. intros [k' v].
  apply constant_bind; [apply constant_lift|]. intros [x m].
  destruct (_ || _); [apply constant_ret|]. destruct (_ || _); apply IH.
Qed.
End Isolation.

#[export] Hint Resolve local_engine_get local_engine_write local_scan_sub local_scan_zscore local_versions_set
  local_versions_remove local_now local_version local_throw local_lift local_some_or local_collect local_zrange_loop
  local_zrange_by_score_loop : local.
#[export] Hint Extern 1 (local _ _ _ (mret _)) => apply local_ret : local.

(** ** The operations are local *)

(** Follow the text of the operation; a version is taken at most once. *)
Ltac local_text :=
  repeat first
  [ solve [auto with local]
  | progress cbv beta zeta
  | eapply local_bind; [solve [auto with local]|intros ? ?]
  | eapply local_bind_version; [solve [auto with local]|intros ? ?]
  | match goal with
    | Hw : batch_of _ (_).2 |- _ => progress cbn [snd] in Hw
    | |- local ?k _ _ ((_ ≫= _) ≫= _) => apply (local_bind k (fun _ => True)); [|intros ? _]
    end
  | case_match ].

Section Operations.
Context {E : Type} `{EngineLaws E} (k : bytes) (Hk : valid_key k).

Abbreviation stays b p := (local (E := E) k (fun _ => True) b p).

Lemma local_load_meta b : stays b (Steps.load_meta k).
Proof using Hk. unfold Steps.load_meta. local_text. Qed.
#[local] Hint Resolve local_load_meta : local.

Lemma local_put_meta m b : stays b (Steps.put_meta k m).
Proof using Hk. unfold Steps.put_meta. local_text. Qed.
#[local] Hint Resolve local_put_meta : local.

Lemma local_logical_delete b : stays b (Steps.logical_delete k).
Proof using Hk. unfold Steps.logical_delete. local_text. Qed.
#[local] Hint Resolve local_logical_delete : local.

Lemma local_expired m b : stays b (Steps.expired m).
Proof using Hk. unfold Steps.expired. local_text. Qed.
#[local] Hint Resolve local_expired : local.

Lemma local_load_live_meta b : stays b (Steps.load_live_meta k).
Proof using Hk. unfold Steps.load_live_meta. local_text. Qed.
#[local] Hint Resolve local_load_live_meta : local.

Lemma local_load_typed ty b : stays b (Steps.load_typed k ty).
Proof using Hk. unfold Steps.load_typed. local_text. Qed.
#[local] Hint Resolve local_load_typed : local.

Lemma local_new_composite_meta ty : stays true (Steps.new_composite_meta k ty).
Proof using Hk. unfold Steps.new_composite_meta. local_text. Qed.
#[local] Hint Resolve local_new_composite_meta : local.

Lemma local_load_or_new_counted ty : stays true (Steps.load_or_new_counted k ty).
Proof using Hk. unfold Steps.load_or_new_counted. local_text. Qed.
#[local] Hint Resolve local_load_or_new_counted : local.

Lemma local_set x t : stays true (Steps.set k x t).
Proof using Hk. unfold Steps.set. local_text. Qed.
#[local] Hint Resolve local_set : local.

Lemma local_get b : stays b (Steps.get k).
Proof using Hk. unfold Steps.get. local_text. Qed.
#[local] Hint Resolve local_get : local.

Lemma local_exists b : stays b (Steps.exists_ k).
Proof using Hk. unfold Steps.exists_. local_text. Qed.
#[local] Hint Resolve local_exists : local.

Lemma local_type_of b : stays b (Steps.type_of k).
Proof using Hk. unfold Steps.type_of. local_text. Qed.
#[local] Hint Resolve local_type_of : local.

Lemma local_del b : stays b (Steps.del k).
Proof using Hk. unfold Steps.del. local_text. Qed.
#[local] Hint Resolve local_del : local.

Lemma local_expire_at t b : stays b (Steps.expire_at k t).
Proof using Hk. unfold Steps.expire_at. local_text. Qed.
#[local] Hint Resolve local_expire_at : local.

Lemma local_pttl b : stays b (Steps.pttl k).
Proof using Hk. unfold Steps.pttl. local_text. Qed.
#[local] Hint Resolve local_pttl : local.

Lemma local_hset_loop ver l c n w b :
  batch_of k w -> local (E := E) k (fun r => batch_of k r.2) b (Steps.hset_loop k ver l c n w).
Proof using Hk.
  revert c n w. induction l as [|x l IH];
    intros c n w Hw; cbn [Steps.hset_loop]; local_text; apply IH; auto with local.
Qed.
#[local] Hint Resolve local_hset_loop : local.

Lemma local_hset l : stays true (Steps.hset k l).
Proof using Hk. unfold Steps.hset. local_text. Qed.
#[local] Hint Resolve local_hset : local.

Lemma local_hget f b : stays b (Steps.hget k f).
Proof using Hk. unfold Steps.hget. local_text. Qed.
#[local] Hint Resolve local_hget : local.

Lemma local_hgetall b : stays b (Steps.hgetall k).
Proof using Hk. unfold Steps.hgetall. local_text. Qed.
#[local] Hint Resolve local_hgetall : local.

Lemma local_hdel_loop ver l c n w b :
  batch_of k w -> local (E := E) k (fun r => batch_of k r.2) b (Steps.hdel_loop k ver l c n w).
Proof using Hk.
  revert c n w. induction l as [|x l IH];
    intros c n w Hw; cbn [Steps.hdel_loop]; local_text; apply IH; auto with local.
Qed.
#[local] Hint Resolve local_hdel_loop : local.

Lemma local_finish_removal m c n w b : batch_of k w -> stays b (Steps.finish_removal k m c n w).
Proof using Hk. intros Hw. unfold Steps.finish_removal. local_text. Qed.
#[local] Hint Resolve local_finish_removal : local.

Lemma local_hdel l b : stays b (Steps.hdel k l).
Proof using Hk. unfold Steps.hdel. local_text. Qed.
#[local] Hint Resolve local_hdel : local.

Lemma local_hlen b : stays b (Steps.hlen k).
Proof using Hk. unfold Steps.hlen. local_text. Qed.
#[local] Hint Resolve local_hlen : local.

Lemma local_hexists f b : stays b (Steps.hexists k f).
Proof using Hk. unfold Steps.hexists. local_text. Qed.
#[local] Hint Resolve local_hexists : local.

Lemma local_sadd_loop ver l seen c n w b :
  batch_of k w -> local (E := E) k (fun r => batch_of k r.2) b (Steps.sadd_loop k ver l seen c n w).
Proof using Hk.
  revert seen c n w. induction l as [|x l IH];
    intros seen c n w Hw; cbn [Steps.sadd_loop]; local_text; apply IH; auto with local.
Qed.
#[local] Hint Resolve local_sadd_loop : local.

Lemma local_sadd l : stays true (Steps.sadd k l).
Proof using Hk. unfold Steps.sadd. local_text. Qed.
#[local] Hint Resolve local_sadd : local.

Lemma local_srem_loop ver l seen c n w b :
  batch_of k w -> local (E := E) k (fun r => batch_of k r.2) b (Steps.srem_loop k ver l seen c n w).
Proof using Hk.
  revert seen c n w. induction l as [|x l IH];
    intros seen c n w Hw; cbn [Steps.srem_loop]; local_text; apply IH; auto with local.
Qed.
#[local] Hint Resolve local_srem_loop : local.

Lemma local_srem l b : stays b (Steps.srem k l).
Proof using Hk. unfold Steps.srem. local_text. Qed.
#[local] Hint Resolve local_srem : local.

Lemma local_sismember f b : stays b (Steps.sismember k f).
Proof using Hk. unfold Steps.sismember. local_text. Qed.
#[local] Hint Resolve local_sismember : local.

Lemma local_smembers b : stays b (Steps.smembers k).
Proof using Hk. unfold Steps.smembers. local_text. Qed.
#[local] Hint Resolve local_smembers : local.

Lemma local_scard b : stays b (Steps.scard k).
Proof using Hk. unfold Steps.scard. local_text. Qed.
#[local] Hint Resolve local_scard : local.

Lemma local_zadd_loop ver l c n w b :
  batch_of k w -> local (E := E) k (fun r => batch_of k r.2) b (Steps.zadd_loop k ver l c n w).
Proof using Hk.
  revert c n w. induction l as [|x l IH];
    intros c n w Hw; cbn [Steps.zadd_loop]; local_text; apply IH; auto with local.
Qed.
#[local] Hint Resolve local_zadd_loop : local.

Lemma local_zadd l : stays true (Steps.zadd k l).
Proof using Hk. unfold Steps.zadd. local_text. Qed.
#[local] Hint Resolve local_zadd : local.

Lemma local_zscore f b : stays b (Steps.zscore k f).
Proof using Hk. unfold Steps.zscore. local_text. Qed.
#[local] Hint Resolve local_zscore : local.

Lemma local_zrem_loop ver l seen c n w b :
  batch_of k w -> local (E := E) k (fun r => batch_of k r.2) b (Steps.zrem_loop k ver l seen c n w).
Proof using Hk.
  revert seen c n w. induction l as [|x l IH];
    intros seen c n w Hw; cbn [Steps.zrem_loop]; local_text; apply IH; auto with local.
Qed.
#[local] Hint Resolve local_zrem_loop : local.

Lemma local_zrem l b : stays b (Steps.zrem k l).
Proof using Hk. unfold Steps.zrem. local_text. Qed.
#[local] Hint Resolve local_zrem : local.

Lemma local_zcard b : stays b (Steps.zcard k).
Proof using Hk. unfold Steps.zcard. local_text. Qed.
#[local] Hint Resolve local_zcard : local.

Lemma local_zrange i j b : stays b (Steps.zrange k i j).
Proof using Hk. unfold Steps.zrange. local_text. Qed.
#[local] Hint Resolve local_zrange : local.

Lemma local_zrange_by_score mn mne mx mxe b : stays b (Steps.zrange_by_score k mn mne mx mxe).
Proof using Hk. unfold Steps.zrange_by_score. local_text. Qed.
#[local] Hint Resolve local_zrange_by_score : local.

Lemma push_loop_batch ver left l h t w : batch_of k w -> batch_of k (push_loop k ver left l h t w).2.
Proof using Type.
  revert h t w. induction l as [|x l IH]; intros h t w Hw; [done|]. cbn [push_loop].
  destruct left; cbv zeta; apply IH; auto with local.
Qed.

Lemma local_push l left : stays true (Steps.push k l left).
Proof using Hk.
  unfold Steps.push. eapply local_bind; [solve [auto with local]|]. intros o _.
  apply (local_bind_version k (fun _ => True)); [destruct o; local_text|]. intros meta _.
  eapply local_bind; [solve [auto with local]|]. intros [h t] _.
  pose proof (push_loop_batch (version meta) left l h t WriteBatch_new (batch_of_new k)) as Hw.
  destruct (push_loop _ _ _ _ _ _ _) as [[h' t'] w]. cbn [snd] in Hw. local_text.
Qed.
#[local] Hint Resolve local_push : local.

Lemma local_pop_loop fuel ver c left h t out w b :
  batch_of k w -> local (E := E) k (fun r => batch_of k r.2) b (Steps.pop_loop fuel k ver c left h t out w).
Proof using Hk.
  revert h t out w. induction fuel as [|fuel IH];
    intros h t out w Hw; cbn [Steps.pop_loop]; local_text; apply IH; auto with local.
Qed.
#[local] Hint Resolve local_pop_loop : local.

Lemma local_pop c left b : stays b (Steps.pop k c left).
Proof using Hk. unfold Steps.pop. local_text. Qed.
#[local] Hint Resolve local_pop : local.

Lemma local_lrange_loop ver h l out b : stays b (Steps.lrange_loop k ver h l out).
Proof using Hk.
  revert out. induction l as [|x l IH];
    intros out; cbn [Steps.lrange_loop]; local_text; apply IH.
Qed.
#[local] Hint Resolve local_lrange_loop : local.

Lemma local_lrange i j b : stays b (Steps.lrange k i j).
Proof using Hk. unfold Steps.lrange. local_text. Qed.
#[local] Hint Resolve local_lrange : local.

Lemma local_llen b : stays b (Steps.llen k).
Proof using Hk. unfold Steps.llen. local_text. Qed.
#[local] Hint Resolve local_llen : local.

Lemma local_program op : op_target op = Some k -> stays true (program op).
Proof using Hk.
  intros Ht. destruct op; try done; injection Ht as ->; cbn [program]; unfold call;
    first
    [ eapply local_bind; [solve [auto with local]|done]
    | eapply local_bind_version; [solve [auto with local]|done] ].
Qed.
End Operations.
