(* ===== verification/Scheduling.v ===== *)
(** * Parties that take turns at a shared state

    A pool of parties around one shared state, each a machine that makes one step
    when it gets a turn.  The store's clients and the server's connections are such
    pools.  Parties whose steps come to an end one by one all do under a schedule
    that keeps giving each its turn ([fair_ends]). *)

From S2P Require Import Prelude.

(** What is known of all parties is known of each. *)
Lemma fmap_at {A C} (f : A -> C) (l : list A) (l' : list C) (i : nat) (x : A) :
  f <$> l = l' -> l !! i = Some x -> l' !! i = Some (f x).
Proof. intros <- Hx. by rewrite list_lookup_fmap, Hx. Qed.

Section Pool.
Context {S P : Type} (turn : S -> P -> S * P).

Record Pool : Type := mk_Pool { common : S; parties : list P }.

(** Party [i] gets a turn; nothing happens when there is none. *)
Definition pool_advance (p : Pool) (i : nat) : Pool :=
  match parties p !! i with
  | Some c => let '(s', c') := turn (common p) c in mk_Pool s' (<[i := c']> (parties p))
  | None => p
  end.

Definition pool_run (schedule : list nat) (p : Pool) : Pool := fold_left pool_advance schedule p.

Lemma pool_advance_at p i c s' c' :
  parties p !! i = Some c -> turn (common p) c = (s', c') ->
  pool_advance p i = mk_Pool s' (<[i := c']> (parties p)).
Proof. intros Hc Ht. unfold pool_advance. by rewrite Hc, Ht. Qed.

Lemma pool_run_length schedule p : length (parties (pool_run schedule p)) = length (parties p).
Proof.
  unfold pool_run. revert p. induction schedule as [|i schedule IH]; intros p; [done|]. cbn [fold_left]. rewrite IH.
  unfold pool_advance. destruct (parties p !! i); [|done]. destruct (turn _ _). apply length_insert.
Qed.

(** ** Steps of one party *)

Definition party_step (c c' : P) : Prop := exists s, c' = (turn s c).2.

(** The steps of a party that has not ended. *)
Definition goes_on (final : P -> Prop) (c' c : P) : Prop := ~ final c /\ party_step c c'.

(** ** Fair schedules *)

Section Fair.
Context (turns : nat -> nat) (p0 : Pool).

(** The pool after [n] turns of an endless schedule. *)
Definition after_turns (n : nat) : Pool := pool_run (turns <$> seq 0 n) p0.

Lemma after_turns_S n : after_turns (Datatypes.S n) = pool_advance (after_turns n) (turns n).
Proof using Type. unfold after_turns, pool_run. by rewrite seq_S, fmap_app, fold_left_app. Qed.

Lemma party_turn n c :
  parties (after_turns n) !! turns n = Some c ->
  parties (after_turns (Datatypes.S n)) !! turns n = Some (turn (common (after_turns n)) c).2.
Proof using Type.
  intros Hc. rewrite after_turns_S. unfold pool_advance. rewrite Hc.
  destruct (turn _ c) as [s' c']. cbn [parties snd]. apply list_lookup_insert_eq. by eapply lookup_lt_Some.
Qed.

Lemma party_waits n i c :
  parties (after_turns n) !! i = Some c -> turns n <> i -> parties (after_turns (Datatypes.S n)) !! i = Some c.
Proof using Type.
  intros Hc Hi. rewrite after_turns_S. unfold pool_advance. destruct (parties _ !! turns n) as [c'|]; [|done].
  destruct (turn _ c') as [s' c2]. cbn [parties]. by rewrite list_lookup_insert_ne.
Qed.

Context (final : P -> Prop) (final_stays : forall s c, final c -> (turn s c).2 = c).

Lemma final_forever n m i c :
  parties (after_turns n) !! i = Some c -> final c -> (n <= m)%nat -> parties (after_turns m) !! i = Some c.
Proof using final_stays.
  intros Hc Hf. induction 1 as [|m _ IH]; [done|].
  destruct (decide (turns m = i)) as [<-|Hne]; [|by apply party_waits].
  rewrite (party_turn m c IH). by rewrite final_stays.
Qed.

(** Party [i] gets a turn again and again. *)
Definition fair_to (i : nat) : Prop := forall n, exists m, (n <= m)%nat /\ turns m = i.

Lemma next_turn i n c :
  fair_to i -> parties (after_turns n) !! i = Some c ->
  exists m c', (n < m)%nat /\ parties (after_turns m) !! i = Some c' /\ party_step c c'.
Proof using Type.
  intros Hfair Hc. destruct (Hfair n) as (m & Hm & Hturn).
  remember (m - n)%nat as wait eqn:Hw. revert n Hc Hm Hw. induction wait as [|wait IH]; intros n Hc Hm Hw;
    (destruct (decide (turns n = i)) as [<-|Hi];
     [exists (Datatypes.S n), (turn (common (after_turns n)) c).2;
      split; [lia|]; split; [by apply party_turn|by eexists]|]).
  - by replace m with n in Hturn by lia.
  - destruct (IH (Datatypes.S n)) as (m' & c' & Hm' & Hc'); [by apply party_waits|lia..|].
    exists m', c'. split; [lia|done].
Qed.

Context `{forall c, Decision (final c)}.

Lemma party_ends i n c :
  fair_to i -> Acc (goes_on final) c -> parties (after_turns n) !! i = Some c ->
  exists m c', (n <= m)%nat /\ parties (after_turns m) !! i = Some c' /\ final c' /\ rtc party_step c c'.
Proof using Type*.
  intros Hfair Hacc. revert n. induction Hacc as [c _ IH]; intros n Hc.
  destruct (decide (final c)) as [Hf|Hf]; [by exists n, c|].
  destruct (next_turn i n c Hfair Hc) as (m & c1 & Hm & Hc1 & Hs).
  destruct (IH c1 (conj Hf Hs) m Hc1) as (m' & c' & Hm' & Hc' & Hf' & Hr). exists m', c'.
  split; [lia|]. split; [done|]. split; [done|]. by eapply rtc_l.
Qed.

(** Under a fair schedule all parties have ended from some turn on. *)
Lemma fair_ends :
  (forall i, (i < length (parties p0))%nat -> fair_to i) ->
  (forall c, c ∈ parties p0 -> Acc (goes_on final) c) ->
  exists n, forall m i c0, (n <= m)%nat -> parties p0 !! i = Some c0 ->
    exists c, parties (after_turns m) !! i = Some c /\ final c /\ rtc party_step c0 c.
Proof using Type*.
  intros Hfair Hacc.
  assert (Hsome : forall j, exists n, forall m i c0, (n <= m)%nat -> (i < j)%nat -> parties p0 !! i = Some c0 ->
    exists c, parties (after_turns m) !! i = Some c /\ final c /\ rtc party_step c0 c).
  { induction j as [|j [n IH]]; [exists 0%nat; lia|]. destruct (parties p0 !! j) as [c0|] eqn:Hj.
    - destruct (party_ends j 0 c0) as (m & c & _ & Hc & Hf & Hr);
        [apply Hfair; by eapply lookup_lt_Some|apply Hacc; by eapply list_elem_of_lookup_2|done|].
      exists (n `max` m)%nat. intros m' i c1 Hmax Hi Hc1. destruct (decide (i = j)) as [->|Hne].
      + replace c1 with c0 by congruence. exists c. split; [|done]. eapply final_forever; [done..|lia].
      + apply IH; [lia..|done].
    - exists n. intros m i c1 Hm Hi Hc1. destruct (decide (i = j)) as [->|Hne]; [congruence|]. apply IH; [lia..|done]. }
  destruct (Hsome (length (parties p0))) as [n Hn]. exists n. intros m i c0 Hm Hc0.
  apply Hn; [done|by eapply lookup_lt_Some|done].
Qed.
End Fair.
End Pool.

Arguments mk_Pool {S P}.
Arguments common {S P}.
Arguments parties {S P}.
