(* ===== verification/KeyFrame.v ===== *)
(** * Operations see and change one key of the database

    On the abstract database an operation on a key depends on what the key holds
    and leaves the other keys as they are ([spec_on_key]).  Databases that agree on
    the keys a client uses are thus the same to it. *)

From S2P Require Import Prelude F64 Encoding Engine Store StoreSpec StoreRefine StoreDurability.

Implicit Types (k : bytes) (d : Db) (now : Z) (ty : byte).

(** [f] answers, and changes key [k], according to what the database holds for
    [k], and leaves the other keys alone. *)
Record on_key {A} (k : bytes) (f : Db -> Ans A) : Prop := {
  on_key_same d1 d2 : d1 !! k = d2 !! k -> (f d1).1 !! k = (f d2).1 !! k /\ (f d1).2 = (f d2).2;
  on_key_other d k' : k' <> k -> (f d).1 !! k' = d !! k';
}.

Lemma purge_same now k d1 d2 : d1 !! k = d2 !! k -> purge now k d1 !! k = purge now k d2 !! k.
Proof.
  intros Hd. unfold purge. rewrite <- Hd. destruct (d1 !! k) as [o|] eqn:Ho; [|by rewrite Ho, Hd].
  case_decide; [by rewrite !lookup_delete_eq|by rewrite Ho, Hd].
Qed.

Lemma purge_other now k k' d : k' <> k -> purge now k d !! k' = d !! k'.
Proof. intros Hne. unfold purge. repeat case_match; [by rewrite lookup_delete_ne|done..]. Qed.

(** Keeping, replacing or dropping the object. *)
Ltac keyed :=
  split; [intros d1 d2 Hd|intros d k' Hne]; repeat case_match; simplify_eq; cbn [fst snd];
  repeat case_decide; cbn [fst snd];
  rewrite ?lookup_insert_eq, ?lookup_delete_eq, ?lookup_insert_ne, ?lookup_delete_ne by done; done.

Lemma on_key_type {A} now ty k (missing : Db -> Ans A) (present : Db -> Obj -> Ans A) :
  on_key k missing -> (forall o, on_key k (fun d => present d o)) ->
  on_key k (fun d => on_type now ty k d missing present).
Proof.
  intros [Hm1 Hm2] Hp. unfold on_type. split.
  - intros d1 d2 Hd. apply (purge_same now) in Hd. rewrite <- Hd.
    destruct (purge now k d1 !! k) as [o|] eqn:Ho; [|apply Hm1; congruence].
    case_decide; [apply Hp; congruence|]. cbn [fst snd]. split; [congruence|done].
  - intros d k' Hne. rewrite <- (purge_other now k k' d Hne).
    destruct (purge now k d !! k) as [o|]; [|by apply Hm2]. case_decide; [|done]. by apply (on_key_other _ _ (Hp o)).
Qed.

Lemma on_key_reply {A} k (g : A -> Reply) (f : Db -> Ans A) : on_key k f -> on_key k (fun d => reply_as g (f d)).
Proof.
  intros [H1 H2]. unfold reply_as. split; cbn [fst snd]; [|done].
  intros d1 d2 Hd. destruct (H1 d1 d2 Hd) as [-> ->]. done.
Qed.

(** An answer about the object the key holds. *)
Lemma on_key_look {A} now k (r : option Obj -> result EngineError A) :
  on_key k (fun d => (purge now k d, r (live now k d))).
Proof.
  split; cbn [fst snd].
  - intros d1 d2 Hd. apply (purge_same now) in Hd. unfold live. by rewrite Hd.
  - intros d k' Hne. by apply purge_other.
Qed.

Lemma on_key_expire_at now k t : on_key k (spec_expire_at now k t).
Proof.
  unfold spec_expire_at, live. split.
  - intros d1 d2 Hd. apply (purge_same now) in Hd. rewrite <- Hd.
    destruct (purge now k d1 !! k) eqn:Ho; cbn [fst snd]; [by rewrite !lookup_insert_eq|].
    split; [congruence|done].
  - intros d k' Hne. destruct (purge now k d !! k); cbn [fst]; [by rewrite lookup_insert_ne|by apply purge_other].
Qed.

Lemma on_key_del now k : on_key k (spec_del now k).
Proof.
  unfold spec_del, live. split; cbn [fst snd].
  - intros d1 d2 Hd. apply (purge_same now) in Hd. by rewrite !lookup_delete_eq, Hd.
  - intros d k' Hne. by rewrite lookup_delete_ne.
Qed.

Lemma on_key_hexists now k f : on_key k (spec_hexists now k f).
Proof.
  assert (Hg : on_key k (spec_hget now k f)) by (apply on_key_type; [keyed|intros o; keyed]).
  destruct Hg as [H1 H2]. unfold spec_hexists. split.
  - intros d1 d2 Hd. destruct (H1 d1 d2 Hd) as [He Hr].
    destruct (spec_hget now k f d1), (spec_hget now k f d2). cbn in *. by subst.
  - intros d k' Hne. specialize (H2 d k' Hne). by destruct (spec_hget now k f d).
Qed.

Lemma spec_on_key now now' op k : op_target op = Some k -> on_key k (spec now now' op).
Proof.
  intros Hk. destruct op; try done; injection Hk as ->; cbn [spec]; apply on_key_reply;
    try (apply on_key_type; [keyed|intros o; keyed]).
  - unfold spec_set. keyed.
  - apply (on_key_look now k (fun o => Ok (is_some o))).
  - apply (on_key_look now k (fun o => Ok (match o with Some o => type_name (value o) | None => B "none" end))).
  - apply on_key_del.
  - apply on_key_expire_at.
  - apply (on_key_look now k (fun o => Ok (match o with
      | None => -2
      | Some o => if decide (expiry o = 0) then -1 else wrap_i64 (saturating_sub (expiry o) now')
      end))).
  - apply on_key_hexists.
Qed.
