(* ===== verification/Budget.v ===== *)
(** * What a run of operations may cost

    The store counts versions, keys and collection entries in machine integers,
    and some of its operations would wrap a counter that is full.  [op_cost]
    bounds what one operation adds to each of them, [budget w s d] says that the
    state can afford [w] more: a state with a budget affords any operation that
    costs no more ([op_afforded]), and is left with the rest ([exec_spends]).
    Room at every step of a run is thus a condition on where it starts and on
    how much it asks for. *)

From S2P Require Import Prelude F64 Encoding Engine Gc Rocks Store StoreSpec StoreRep StoreInv StoreGeneric StoreHash.
From S2P Require Import StoreSet StoreZSet StoreAdmin StoreRefine StoreDurability Programs Locality Scheduling.

Implicit Types (k : bytes) (d : Db) (w now : Z) (ty : byte) (op : Op).

(** ** Costs *)

(** The arguments a list-taking operation adds or removes, and one for the
    version it may take and the key it may create. *)
Definition op_cost (op : Op) : Z :=
  1 + match op with
      | OHset _ p => Z.of_nat (length p)
      | OZadd _ p => Z.of_nat (length p)
      | OHdel _ l | OSadd _ l | OSrem _ l | OZrem _ l | OPush _ l _ => Z.of_nat (length l)
      | _ => 0
      end.

(** The part of an operation's precondition that is about its arguments. *)
Definition op_ok (op : Op) : Prop :=
  match op with
  | OSet k _ t | OExpireAt k t => valid_key k /\ in_u64 t
  | OGet k | OExists k | OType k | ODel k | OPttl k | OHset k _ | OHget k _ | OHgetall k | OHdel k _
  | OHlen k | OHexists k _ | OSadd k _ | OSrem k _ | OSismember k _ | OSmembers k | OScard k
  | OZscore k _ | OZrem k _ | OZcard k | OZrange k _ _ | OPush k _ _ | OLrange k _ _ | OLlen k => valid_key k
  | OZadd k p => valid_key k /\ Forall (fun sm => f64_num sm.1) p
  | OZrangeByScore k mn _ mx _ => valid_key k /\ f64_num mn /\ f64_num mx
  | OPop k c _ => valid_key k /\ 0 <= c
  | ODbsize | OCompact | OFlushAll => True
  end.

Lemma op_cost_pos op : 1 <= op_cost op.
Proof. unfold op_cost. destruct op; lia. Qed.

Lemma op_ok_key op k : op_ok op -> op_target op = Some k -> valid_key k.
Proof. destruct op; cbn; intros Hok [= <-]; naive_solver. Qed.

(** What several parties cost together. *)
Fixpoint total (ns : list Z) : Z := match ns with [] => 0 | n :: ns => n + total ns end.

Lemma total_insert ns j n n' : ns !! j = Some n -> total (<[j := n']> ns) = total ns - n + n'.
Proof.
  revert j. induction ns as [|x ns IH]; intros [|j] Hj; cbn in *; [done..|injection Hj as ->; lia|].
  rewrite IH by done. lia.
Qed.

(** ** Room in the database *)

(** Room for [w] more keys, and for [w] more entries in every collection. *)
Definition spare (w : Z) (d : Db) : Prop :=
  Z.of_nat (size d) + w < 2 ^ 63 /\ map_Forall (fun _ o => value_room w (value o)) d.

Lemma value_room_mono n m v : m <= n -> value_room n v -> value_room m v.
Proof. destruct v; cbn; lia. Qed.

Lemma spare_mono w w' d : w' <= w -> spare w d -> spare w' d.
Proof.
  intros Hw [Hs Hr]. split; [lia|]. intros k o Ho. eapply value_room_mono; [done|]. by apply (Hr k).
Qed.

Lemma spare_delete w k d : spare w d -> spare w (delete k d).
Proof.
  intros [Hs Hr]. split; [|by apply map_Forall_delete].
  rewrite map_size_delete. destruct (d !! k); cbn [id]; lia.
Qed.

Lemma spare_purge w now k d : spare w d -> spare w (purge now k d).
Proof. intros Hs. unfold purge. repeat case_match; [by apply spare_delete|done..]. Qed.

Lemma spare_room w k d o : spare w d -> d !! k = Some o -> value_room w (value o).
Proof. intros [_ Hr]. apply Hr. Qed.

Lemma spare_insert w w' k v ex d : w' < w -> spare w d -> value_room w' v -> spare w' (<[k := mk_Obj v ex]> d).
Proof.
  intros Hw Hs Hv. destruct (spare_mono w w' d ltac:(lia) Hs) as [_ Hr]. destruct Hs as [Hs _]. split.
  - rewrite map_size_insert. destruct (d !! k); cbn [id]; lia.
  - by apply map_Forall_insert_2.
Qed.

Lemma spare_empty w : w < 2 ^ 63 -> spare w ∅.
Proof. intros Hw. split; [by rewrite map_size_empty|apply map_Forall_empty]. Qed.

Create HintDb budget discriminated.
#[export] Hint Resolve spare_delete spare_purge : budget.

Lemma spare_on_type {A} w w' now ty k d (missing : Db -> Ans A) (present : Db -> Obj -> Ans A) :
  spare w d -> (forall d', spare w d' -> spare w' (missing d').1) ->
  (forall d' o, spare w d' -> value_room w (value o) -> spare w' (present d' o).1) ->
  w' <= w -> spare w' (on_type now ty k d missing present).1.
Proof.
  intros Hs Hm Hp Hw. unfold on_type. pose proof (spare_purge w now k d Hs) as Hpu.
  destruct (purge now k d !! k) as [o|] eqn:Ho; [|by apply Hm].
  case_decide; [|by eapply spare_mono]. apply Hp; [done|]. by eapply spare_room.
Qed.

(** A value an operation makes from the value it finds has room for what is left. *)
Lemma hash_room w c h h' pairs :
  value_room w (HashV c h) -> value_room (w - (1 + Z.of_nat (length pairs))) (HashV (c + new_fields h pairs) h').
Proof. pose proof (new_fields_bound h pairs). cbn. lia. Qed.

Lemma set_room w (u : gset bytes) l :
  value_room w (SetV u) -> value_room (w - (1 + Z.of_nat (length l))) (SetV (u ∪ list_to_set l)).
Proof. pose proof (size_add_list u l). cbn. lia. Qed.

Lemma zset_room w (z : gmap bytes f64) pairs :
  value_room w (ZSetV z) -> value_room (w - (1 + Z.of_nat (length pairs))) (ZSetV (zadd_scores z pairs)).
Proof.
  pose proof (zsteps_size (effective_pairs pairs) z) as Hs. rewrite zsteps_effective in Hs.
  destruct (effective_pairs_spec pairs) as (_ & _ & Hl & _). cbn. lia.
Qed.

Lemma list_room w h l values left :
  value_room w (ListV h l) -> value_room (w - (1 + Z.of_nat (length values))) (push_list left values h l).
Proof. unfold push_list. destruct left; cbn; rewrite length_app, ?length_reverse; lia. Qed.

Lemma pop_room w h l n left : value_room w (ListV h l) -> value_room (w - 1) (pop_rest left n h l).
Proof. unfold pop_rest. destruct left; cbn; [rewrite length_drop|rewrite length_take]; lia. Qed.

(** The collection an operation updates, the empty one of a key without an object
    included, has room. *)
Definition room_in (w : Z) (o : option Obj) : Prop :=
  match o with Some o => value_room w (value o) | None => w < 2 ^ 32 end.

Lemma room_in_hash w o : w < 2 ^ 32 -> room_in w o -> value_room w (HashV (hash_of o).1.1 (hash_of o).1.2).
Proof. destruct o as [[[] ex]|]; cbn; lia. Qed.
Lemma room_in_set w o : w < 2 ^ 32 -> room_in w o -> value_room w (SetV (set_of o).1).
Proof. intros Hw Ho. destruct o as [[[] ex]|]; cbn [set_of fst value_room room_in value] in *; rewrite ?size_empty; lia. Qed.
Lemma room_in_zset w o : w < 2 ^ 32 -> room_in w o -> value_room w (ZSetV (zset_of o).1).
Proof. intros Hw Ho. destruct o as [[[] ex]|]; cbn [zset_of fst value_room room_in value] in *; rewrite ?map_size_empty; lia. Qed.
Lemma room_in_list w o : w < 2 ^ 32 -> room_in w o -> value_room w (ListV (list_of o).1.1 (list_of o).1.2).
Proof. destruct o as [[[] ex]|]; cbn; unfold LIST_INITIAL_INDEX; lia. Qed.

Lemma spare_update {A} w w' now ty k d (upd : Db -> option Obj -> Ans A) :
  w < 2 ^ 32 -> w' <= w -> spare w d ->
  (forall d' o, spare w d' -> room_in w o -> spare w' (upd d' o).1) ->
  spare w' (on_type now ty k d (fun d => upd d None) (fun d o => upd d (Some o))).1.
Proof. intros Hw Hle Hs Hu. apply spare_on_type with w; [done| | |done]; intros; by apply Hu. Qed.

Section Spends.
Context (w now : Z) (k : bytes) (d : Db) (Hw : w < 2 ^ 32) (Hs : spare w d).

Lemma hset_spends pairs :
  1 + Z.of_nat (length pairs) <= w -> spare (w - (1 + Z.of_nat (length pairs))) (spec_hset now k pairs d).1.
Proof using Hw Hs.
  intros Hc. apply spare_update with w; [done|lia|done|]. intros d' o Hd Ho.
  apply (room_in_hash w o Hw) in Ho. destruct (hash_of o) as [[c h] ex]. cbn [fst snd] in *.
  apply spare_insert with w; [lia|done|]. by eapply hash_room.
Qed.

Lemma sadd_spends members :
  1 + Z.of_nat (length members) <= w -> spare (w - (1 + Z.of_nat (length members))) (spec_sadd now k members d).1.
Proof using Hw Hs.
  intros Hc. apply spare_update with w; [done|lia|done|]. intros d' o Hd Ho.
  apply (room_in_set w o Hw) in Ho. destruct (set_of o) as [u ex]. cbn [fst snd] in *.
  case_decide; [eapply spare_mono; [|done]; lia|]. apply spare_insert with w; [lia|done|]. by apply set_room.
Qed.

Lemma zadd_spends pairs :
  1 + Z.of_nat (length pairs) <= w -> spare (w - (1 + Z.of_nat (length pairs))) (spec_zadd now k pairs d).1.
Proof using Hw Hs.
  intros Hc. apply spare_update with w; [done|lia|done|]. intros d' o Hd Ho.
  apply (room_in_zset w o Hw) in Ho. destruct (zset_of o) as [z ex]. cbn [fst snd] in *.
  case_decide; [eapply spare_mono; [|done]; lia|]. apply spare_insert with w; [lia|done|]. by apply zset_room.
Qed.

Lemma push_spends values left :
  1 + Z.of_nat (length values) <= w -> spare (w - (1 + Z.of_nat (length values))) (spec_push now k values left d).1.
Proof using Hw Hs.
  intros Hc. apply spare_update with w; [done|lia|done|]. intros d' o Hd Ho.
  apply (room_in_list w o Hw) in Ho. destruct (list_of o) as [[h l] ex]. cbn [fst snd] in *.
  apply spare_insert with w; [lia|done|]. by apply list_room.
Qed.

(** Removing from a collection: the object that is left has no more entries. *)
Lemma removal_spends {A} ty w' (present : Db -> Obj -> Ans A) (none : result EngineError A) :
  w' < w -> (forall d' o, spare w d' -> value_room w (value o) ->
    (present d' o).1 = d' \/ (present d' o).1 = delete k d' \/
    exists v ex, (present d' o).1 = <[k := mk_Obj v ex]> d' /\ value_room w' v) ->
  spare w' (on_type now ty k d (fun d => (d, none)) present).1.
Proof using Hw Hs.
  intros Hw' Hp. apply spare_on_type with w; [done| | |lia]; [intros; cbn; eapply spare_mono; [|done]; lia|].
  intros d' o Hd Ho. destruct (Hp d' o Hd Ho) as [->|[->|(v & ex & -> & Hv)]].
  - eapply spare_mono; [|done]. lia.
  - apply spare_delete. eapply spare_mono; [|done]. lia.
  - by apply spare_insert with w.
Qed.

Lemma hdel_spends fields c : 1 <= c -> spare (w - c) (spec_hdel now k fields d).1.
Proof using Hw Hs.
  intros Hc. apply removal_spends; [lia|]. intros d' o Hd Ho. apply (room_in_hash w (Some o) Hw) in Ho.
  destruct (hash_of (Some o)) as [[n h] ex]. cbn [fst snd] in *. repeat case_decide; [by left|by right; left|].
  right; right. do 2 eexists. split; [done|]. unfold old_fields, saturating_sub. cbn in *. lia.
Qed.

Lemma srem_spends members c : 1 <= c -> spare (w - c) (spec_srem now k members d).1.
Proof using Hw Hs.
  intros Hc. apply removal_spends; [lia|]. intros d' o Hd Ho. apply (room_in_set w (Some o) Hw) in Ho.
  destruct (set_of (Some o)) as [u ex]. cbn [fst snd] in *. repeat case_decide; [by left|by right; left|].
  right; right. do 2 eexists. split; [done|]. pose proof (size_remove_list u members). cbn in *. lia.
Qed.

Lemma zrem_spends members c : 1 <= c -> spare (w - c) (spec_zrem now k members d).1.
Proof using Hw Hs.
  intros Hc. apply removal_spends; [lia|]. intros d' o Hd Ho. apply (room_in_zset w (Some o) Hw) in Ho.
  destruct (zset_of (Some o)) as [z ex]. cbn [fst snd] in *. repeat case_decide; [by left|by right; left|].
  right; right. do 2 eexists. split; [done|].
  assert (size (delete_fields z members) <= size z)%nat by apply map_size_filter. cbn in *. lia.
Qed.

Lemma pop_spends count left : spare (w - 1) (spec_pop now k count left d).1.
Proof using Hw Hs.
  apply removal_spends; [lia|]. intros d' o Hd Ho. apply (room_in_list w (Some o) Hw) in Ho.
  destruct (list_of (Some o)) as [[h l] ex]. cbn [fst snd] in *. repeat case_decide; [by left|by right; left|].
  right; right. do 2 eexists. split; [done|]. by apply pop_room.
Qed.

Lemma expire_at_spends at_ms : spare (w - 1) (spec_expire_at now k at_ms d).1.
Proof using Hw Hs.
  unfold spec_expire_at. pose proof (spare_purge w now k d Hs) as Hp. unfold live.
  destruct (purge now k d !! k) as [o|] eqn:Ho; cbn [fst].
  - apply spare_insert with w; [lia|done|]. eapply value_room_mono; [|by eapply spare_room]. lia.
  - eapply spare_mono; [|done]. lia.
Qed.
End Spends.

(** Reading leaves the room as it is. *)
Ltac reads_only w :=
  apply spare_mono with w; [lia|]; apply spare_on_type with w; [done|done| |done];
  intros; unfold hash_of, list_of; repeat case_match; done.

(** An operation uses up no more of the room than it costs. *)
Lemma spec_spends w now now' op d : w < 2 ^ 32 -> op_cost op <= w -> spare w d -> spare (w - op_cost op) (spec now now' op d).1.
Proof.
  intros Hw Hc Hs. pose proof (op_cost_pos op) as Hp.
  destruct op; cbn [spec reply_as fst snd].
  all: try (apply spare_mono with w; [lia|]; cbn; auto with budget; fail).
  all: try (reads_only w; fail).
  all: try first [by apply hset_spends|by apply hdel_spends|by apply sadd_spends|by apply srem_spends
    |by apply zadd_spends|by apply zrem_spends|by apply push_spends|by apply pop_spends|by apply expire_at_spends].
  - by apply spare_insert with w; [lia| |].
  - unfold spec_hexists. assert (Hr : spare (w - op_cost (OHexists k f)) (spec_hget now k f d).1) by reads_only w.
    by destruct (spec_hget now k f d).
  - apply spare_empty. lia.
Qed.

(** ** The version clock *)

Section Clock.
Context {E : Type} `{EngineLaws E}.

Abbreviation St := (State E).
Implicit Types (s : St).

(** [w] more versions can be taken: neither the version clock nor the wall clock,
    in microseconds, is that close to the end of its range. *)
Definition ticks_left (w : Z) (s : St) : Prop :=
  VERSION_CLOCK s + w <= u64_max /\
  forall i, (tick s <= i)%nat -> as_micros (Z.max 0 (clock s i)) + w <= u64_max.

(** What a step does to the clocks: the version clock stays, or is where one
    version puts it. *)
Definition one_version (b : bool) (s s' : St) : Prop :=
  later s s' /\
  (VERSION_CLOCK s' = VERSION_CLOCK s \/
   b = true /\ exists i, (tick s <= i)%nat /\
     VERSION_CLOCK s' <= Z.max (VERSION_CLOCK s + 1) (as_micros (Z.max 0 (clock s i)))).

Lemma one_version_refl b s : one_version b s s.
Proof. split; [done|by left]. Qed.

Lemma one_version_ticks b w s s' : 1 <= w -> ticks_left w s -> one_version b s s' -> ticks_left (w - 1) s'.
Proof.
  intros Hw [Hv Hm] [[Hc Ht] Hs]. split.
  - destruct Hs as [->|(_ & i & Hi & Hs)]; [lia|]. specialize (Hm i Hi). lia.
  - intros i Hi. rewrite Hc. specialize (Hm i). lia.
Qed.

Lemma ticks_left_mono w w' s : w' <= w -> ticks_left w s -> ticks_left w' s.
Proof. intros Hw [Hv Hm]. split; [lia|]. intros i Hi. specialize (Hm i Hi). lia. Qed.

Lemma ticks_left_clock w s : 1 <= w -> ticks_left w s -> clock_left s.
Proof. intros Hw [Hv _]. unfold clock_left. lia. Qed.

Lemma bump_bound prev ns : 0 <= prev -> bump prev ns <= Z.max (prev + 1) (as_micros ns).
Proof.
  intros Hp. unfold bump, wrap_u64. pose proof (Z.mod_le (prev + 1) (2 ^ 64)). lia.
Qed.

(** A program on one key takes at most one version. *)
Lemma solo_one_version {A} k (Q : A -> Prop) b (p : Prog E A) s :
  local k Q b p -> 0 <= VERSION_CLOCK s -> one_version b s (solo p s).1.
Proof.
  revert b s. induction p as [r|C m K IH]; intros b s Hl Hv; [apply one_version_refl|].
  cbn [solo]. cbn [local] in Hl. destruct Hl as [[(f & Hf & _) Hl]|[[(g & Hg) Hl]|(-> & (g & Hg) & Hl)]].
  - rewrite Hf. unfold on_tables. destruct (f _ _) as [[e vt] r]. by apply (IH r b (mk_State _ _ _ _ _)).
  - rewrite Hg. destruct (IH (g (Z.max 0 (clock s (tick s)))) b (ticked s)) as [Hlat Hs]; [done..|].
    split; [etransitivity; [apply later_ticked|done]|].
    destruct Hs as [Hs|(Hb & i & Hi & Hs)]; [by left|]. right. split; [done|]. exists i. cbn in *. split; [lia|done].
  - cbv zeta in Hg. rewrite Hg. set (v := bump _ _).
    pose proof (bump_bound (VERSION_CLOCK s) (Z.max 0 (clock s (tick s))) Hv) as Hb. fold v in Hb.
    destruct (IH (g v) false (mk_State (engine s) (versions s) v (clock s) (S (tick s)))) as [[Hc Ht] Hs];
      [done|cbn; unfold v, bump, wrap_u64; pose proof (as_micros_range (Z.max 0 (clock s (tick s)))); unfold in_u64 in *; lia|].
    cbn in Hc, Ht, Hs. split; [split; [done|lia]|]. right. split; [done|]. exists (tick s). split; [done|].
    destruct Hs as [->|[? _]]; [exact Hb|done].
Qed.

(** One step of it, with what is left to take before and after. *)
Lemma step_takes {A} k (Q : A -> Prop) b C (m : M E C) K s s' r :
  local k Q b (Step C m K) -> m s = (s', r) -> 0 <= VERSION_CLOCK s ->
  exists b', local k Q b' (K r) /\ Z.b2z b' <= Z.b2z b /\ one_version (bool_decide (Z.b2z b' < Z.b2z b)) s s'.
Proof.
  intros Hl Hm Hv. cbn [local] in Hl. destruct Hl as [[(f & Hf & _) Hl]|[[(g & Hg) Hl]|(-> & (g & Hg) & Hl)]].
  - exists b. split; [done|]. split; [done|]. rewrite Hf in Hm. unfold on_tables in Hm.
    destruct (f _ _) as [[e vt] x]. injection Hm as <- _. split; [done|by left].
  - exists b. split; [done|]. split; [done|]. rewrite Hg in Hm. injection Hm as <- _.
    split; [apply later_ticked|by left].
  - exists false. split; [done|]. split; [done|]. cbv zeta in Hg. rewrite Hg in Hm. injection Hm as <- _.
    split; [split; [done|cbn; lia]|]. right. split; [done|]. exists (tick s). split; [done|]. by apply bump_bound.
Qed.

(** The operations on the whole keyspace take none. *)
Definition keeps_clocks {A} (m : M E A) : Prop := forall s, one_version false s (m s).1.

Lemma keeps_bind {A C} (m : M E A) (f : A -> M E C) :
  keeps_clocks m -> (forall a, keeps_clocks (f a)) -> keeps_clocks (m ≫= f).
Proof.
  intros Hm Hf s. unfold mbind, M_bind. specialize (Hm s). destruct (m s) as [s1 [a|e]]; [|done].
  specialize (Hf a s1). destruct Hm as [Hl [Hv|[? _]]], Hf as [Hl' [Hv'|[? _]]]; try done.
  split; [by etransitivity|left; cbn in *; congruence].
Qed.

Lemma keeps_ret {A} (a : A) : keeps_clocks (mret a).
Proof. intros s. apply one_version_refl. Qed.
Lemma keeps_lift {A} (r : result EngineError A) : keeps_clocks (lift r).
Proof. intros s. apply one_version_refl. Qed.
Lemma keeps_scan p : keeps_clocks (engine_scan_prefix p).
Proof. intros s. apply one_version_refl. Qed.
Lemma keeps_write b : keeps_clocks (engine_write b).
Proof. intros s. unfold engine_write. destruct (eng_write _ _). split; [done|by left]. Qed.
Lemma keeps_compact_range r : keeps_clocks (engine_compact_range r).
Proof. intros s. unfold engine_compact_range. destruct (eng_compact_range _ _ _). split; [done|by left]. Qed.
Lemma keeps_versions_clear : keeps_clocks versions_clear.
Proof. intros s. split; [done|by left]. Qed.

Lemma keeps_count items n : keeps_clocks (count_items items n).
Proof.
  revert n. induction items as [|item items IH]; intros n; [apply keeps_ret|].
  cbn [count_items]. apply keeps_bind; [apply keeps_lift|]. intros _. apply IH.
Qed.

Lemma keeps_delete items b : keeps_clocks (delete_items items b).
Proof.
  revert b. induction items as [|item items IH]; intros b; [apply keeps_ret|].
  cbn [delete_items]. apply keeps_bind; [apply keeps_lift|]. intros [k v]. apply IH.
Qed.

#[local] Hint Resolve keeps_bind keeps_ret keeps_lift keeps_scan keeps_write keeps_compact_range keeps_versions_clear
  keeps_count keeps_delete : budget.

Lemma keeps_fmap {A C} (f : A -> C) (m : M E A) : keeps_clocks m -> keeps_clocks (f <$> m).
Proof. intros Hm s. unfold fmap, M_fmap. specialize (Hm s). by destruct (m s) as [s1 [a|e]]. Qed.

Lemma keeps_raw_count : keeps_clocks raw_subkey_count.
Proof. unfold raw_subkey_count. auto 6 with budget. Qed.

Lemma exec_one_version op s : op_ok op -> 0 <= VERSION_CLOCK s -> one_version true s (exec op s).1.
Proof using Type*.
  intros Hok Hv. destruct (op_target op) as [k|] eqn:Hk.
  - pose proof (op_ok_key op k Hok Hk) as Hkey. rewrite <- same_program. apply (solo_one_version k (fun _ => True)); [by apply local_program|done].
  - assert (Hkeep : keeps_clocks (exec op)).
    { destruct op; try done; cbn [exec]; apply keeps_fmap; unfold dbsize, compact, flush_all; auto 10 with budget. }
    destruct (Hkeep s) as [Hl [Hs|[? _]]]; [|done]. split; [done|by left].
Qed.

(** ** Time for what several parties take *)

Section InTime.
Context {P : Type} (turn : St -> P -> St * P) (takes : P -> Z -> Prop).
Context (takes_nonneg : forall c n, takes c n -> 0 <= n).

(** There is time for the versions the parties may still take, and for one more. *)
Definition in_time (p : Pool (S := St) (P := P)) : Prop :=
  exists ns, Forall2 takes (parties p) ns /\ ticks_left (1 + total ns) (common p).

Lemma takes_total l ns : Forall2 takes l ns -> 0 <= total ns.
Proof using takes_nonneg. induction 1 as [|c n l ns Hc _ IH]; cbn; [done|]. apply takes_nonneg in Hc. lia. Qed.

Lemma in_time_left p : in_time p -> clock_left (common p).
Proof using takes_nonneg.
  intros (ns & Hn & Ht). eapply ticks_left_clock; [|done]. apply takes_total in Hn. lia.
Qed.

Lemma in_time_advance p j :
  (forall c s' c' n, parties p !! j = Some c -> takes c n -> turn (common p) c = (s', c') ->
     exists n', takes c' n' /\ n' <= n /\ one_version (bool_decide (n' < n)) (common p) s') ->
  in_time p -> in_time (pool_advance turn p j).
Proof using takes_nonneg.
  intros Hturn (ns & Hn & Ht). unfold pool_advance. destruct (parties p !! j) as [c|] eqn:Hc; [|by exists ns].
  destruct (turn (common p) c) as [s' c'] eqn:Hs.
  destruct (Forall2_lookup_l _ _ _ _ _ Hn Hc) as (n & Hj & Hcn).
  destruct (Hturn c s' c' n eq_refl Hcn Hs) as (n' & Hc' & Hle & Hone).
  assert (Hn' : Forall2 takes (<[j := c']> (parties p)) (<[j := n']> ns)) by by apply Forall2_insert.
  exists (<[j := n']> ns). split; [done|]. cbn [common].
  pose proof (takes_total _ _ Hn) as Hpos. pose proof (takes_total _ _ Hn') as Hpos'.
  rewrite (total_insert _ _ _ _ Hj) in *. destruct (decide (n' < n)) as [Hlt|Hge].
  - eapply (ticks_left_mono (1 + total ns - 1)); [lia|]. eapply one_version_ticks; [lia|done|done].
  - rewrite bool_decide_eq_false_2 in Hone by done. destruct Hone as [[Hck Htk] [Hv|[? _]]]; [|done].
    replace (1 + (total ns - n + n')) with (1 + total ns) by lia. destruct Ht as [Ht1 Ht2]. split; [lia|].
    intros i Hi. rewrite Hck. apply Ht2. lia.
Qed.
End InTime.

(** ** Budgets *)

(** The state [s], representing [d], affords operations that cost [w] in all. *)
Record budget (w : Z) (s : St) (d : Db) : Prop := {
  budget_counts : w < 2 ^ 32;
  budget_ticks : ticks_left w s;
  budget_spare : spare w d;
}.

Lemma budget_mono w w' s d : w' <= w -> budget w s d -> budget w' s d.
Proof.
  intros Hw [Hc Ht Hs]. split; [lia|by eapply ticks_left_mono|by eapply spare_mono].
Qed.

Lemma budget_ticked w s d : budget w s d -> budget w (ticked s) d.
Proof.
  intros [Hc [Hv Hm] Hs]. split; [done| |done]. split; [done|]. intros i Hi. apply Hm. cbn in Hi. lia.
Qed.

(** What a budget covers can be done ... *)
Lemma spare_afforded w s d op :
  clock_left s -> w < 2 ^ 32 -> spare w d -> op_cost op <= w -> op_ok op -> op_pre s d op.
Proof.
  intros Hclock Hc [Hs Hr] Hw Hok. pose proof (op_cost_pos op) as Hp.
  assert (Hroom : forall k n, n <= w -> room n (d !! k)).
  { intros k n Hn. split; [lia|]. destruct (d !! k) as [o|] eqn:Ho; [|done].
    eapply value_room_mono; [done|]. by apply (Hr k). }
  unfold op_cost in *. destruct op; cbn [op_ok op_pre] in *; try done;
    repeat match goal with Hx : _ /\ _ |- _ => destruct Hx end; split_and?; auto;
    try match goal with |- room _ _ => apply Hroom end; lia.
Qed.

Lemma op_afforded w s d op : budget w s d -> op_cost op <= w -> op_ok op -> op_pre s d op.
Proof.
  intros [Hc Ht Hs] Hw Hok. apply (spare_afforded w); [|done..].
  pose proof (op_cost_pos op). eapply ticks_left_clock; [|done]. lia.
Qed.

(** ... and leaves the rest. *)
Lemma exec_spends w s d op :
  0 <= VERSION_CLOCK s -> budget w s d -> op_ok op -> op_cost op <= w ->
  budget (w - op_cost op) (exec op s).1 (spec (peek_ms s) (peek_ms2 s) op d).1.
Proof using Type*.
  intros Hv [Hc Ht Hs] Hok Hw. pose proof (op_cost_pos op) as Hp. split; [lia| |by apply spec_spends].
  eapply (ticks_left_mono (w - 1)); [lia|]. eapply one_version_ticks; [lia|done|by apply exec_one_version].
Qed.

(** ** Runs *)

Fixpoint run_cost (l : list Op) : Z :=
  match l with [] => 0 | op :: l => op_cost op + run_cost l end.

Lemma run_cost_nonneg l : 0 <= run_cost l.
Proof. induction l as [|op l IH]; cbn; [done|]. pose proof (op_cost_pos op). lia. Qed.

(** A budget for a run is room at each of its steps. *)
Lemma run_afforded r l s d :
  0 <= r -> Inv s d -> Forall op_ok l -> budget (run_cost l + r) s d ->
  run_pre l s d /\ budget r (run l s).1 (spec_run (timed l s) d).1.
Proof.
  intros Hr HI Hl. revert s d HI. induction Hl as [|op l Hop Hl IH]; intros s d HI Hb;
    [by rewrite Z.add_0_l in Hb|].
  cbn [run_cost] in Hb. pose proof (run_cost_nonneg l) as Hn.
  assert (Hpre : op_pre s d op) by (eapply op_afforded; [done|lia|done]).
  destruct (exec_refines s d op HI Hpre) as (s1 & Hx & HI1 & _).
  assert (Hv : 0 <= VERSION_CLOCK s) by (destruct HI as [B HI]; apply (inv_clock _ _ _ HI)).
  pose proof (exec_spends _ s d op Hv Hb Hop ltac:(lia)) as Hb1.
  replace (op_cost op + run_cost l + r - op_cost op) with (run_cost l + r) in Hb1 by lia.
  unfold timed in *. cbn [run_pre run run_times zip zip_with spec_run]. rewrite Hx in *. cbn [fst] in *.
  destruct (IH s1 _ HI1 Hb1) as [Hp Hend]. split; [done|].
  destruct (spec _ _ op d) as [d1 x]. cbn [fst snd] in *.
  by destruct (run l s1) as [s2 rs], (spec_run (zip l (run_times l s1)) d1) as [d2 rs'].
Qed.

(** C1. Any sequence of operations answers as the abstract database does at
    the times it observes, and ends in a state that represents the abstract
    database: metadata, versions, batches and scans implement typed values with
    expiry, on every branch, type errors included.  All it asks of the state it
    starts in is to represent a database and to have room for what the whole
    sequence adds, and it leaves the room that is over. *)
Theorem store_simulates (l : list Op) (r : Z) (s : St) (d : Db) :
  0 <= r -> Inv s d -> Forall op_ok l -> budget (run_cost l + r) s d ->
  (run l s).2 = (spec_run (timed l s) d).2 /\
  Inv (run l s).1 (spec_run (timed l s) d).1 /\ budget r (run l s).1 (spec_run (timed l s) d).1.
Proof.
  intros Hr HI Hl Hb. destruct (run_afforded r l s d Hr HI Hl Hb) as [Hp Hend].
  destruct (run_refines l s d HI Hp) as [Hans HI']. done.
Qed.
End Clock.

(** ** A store to run *)

(** The empty store on the in-memory engine, under a wall clock that stands
    still. *)
Definition steady_state : State (RocksEngine MemDb) :=
  mk_State (engine demo_state) ∅ 0 (fun _ => 1700000000000000000) 0.

Lemma steady_inv : Inv steady_state ∅.
Proof. exists 0. destruct demo_inv as [H1 H2 H3 _ H5 H6]. split; [done..| |done|done]. left. cbn. lia. Qed.

Lemma steady_budget w : w < 2 ^ 32 -> budget w steady_state ∅.
Proof.
  intros Hw. split; [done| |apply spare_empty; lia]. split; [cbn; unfold u64_max; lia|].
  intros i _. cbn [clock steady_state]. assert (as_micros (Z.max 0 1700000000000000000) = 1700000000000000) as ->
    by reflexivity. unfold u64_max. lia.
Qed.

Lemma store_simulates_witness :
  let l := [OHset (B "h") [(B "f", B "1"); (B "g", B "2")]; OHdel (B "h") [B "f"];
            OGet (B "h"); OHgetall (B "h"); OCompact; ODel (B "h"); OExists (B "h")] in
  run_cost l = 10 /\ (run l steady_state).2 = (spec_run (timed l steady_state) ∅).2.
Proof.
  set (l := [OHset (B "h") [(B "f", B "1"); (B "g", B "2")]; OHdel (B "h") [B "f"];
            OGet (B "h"); OHgetall (B "h"); OCompact; ODel (B "h"); OExists (B "h")]).
  assert (Hok : Forall op_ok l) by (repeat constructor; vm_compute; first [reflexivity|discriminate]).
  split; [reflexivity|].
  assert (Hb : budget (run_cost l + 0) steady_state ∅) by (apply steady_budget; vm_compute; reflexivity).
  exact (proj1 (store_simulates l 0 steady_state ∅ (Z.le_refl 0) steady_inv Hok Hb)).
Defined.
