(* ===== verification/Faults.v ===== *)
(** * The store under engine faults

    What an operation leaves behind when a call of the engine fails under it.
    [Rep s d] is the store's invariant without the engine's reliability.  An
    operation either does what its specification says or answers with the
    engine's fault, and then the database is the one before, up to the lazy
    deletion of its own key if that had expired ([faulty_step]).  The exceptions
    are a [set] over a collection and a removal that empties its key, the
    [hazard]s: they change the store before their last write. *)

From S2P Require Import Prelude F64 Encoding Engine Gc Rocks Store StoreSpec StoreRep StoreInv StoreGeneric StoreRefine.
From S2P Require Import StoreHash StoreSet StoreZSet StoreList StoreAdmin StoreDurability Budget Ideal.

Section Faults.
Context {E : Type} `{EngineLaws E}.

Abbreviation St := (State E).
Abbreviation records s := (contents (engine s)).
Implicit Types (k : bytes) (ty : byte) (s : St) (d : Db) (op : Op).

(** The state represents the database, whether or not the engine may fail. *)
Definition Rep (s : St) (d : Db) : Prop := Inv (ideal s) d.

Lemma Rep_of_Inv s d : Inv s d -> Rep s d.
Proof. intros [B []]. exists B. by split. Qed.

(** ** Where an error leaves the store *)

(** An error of the computation leaves a state that satisfies [P]. *)
Definition errs {A} (P : St -> Prop) (m : M E A) (s : St) : Prop :=
  forall s' e, m s = (s', Err e) -> P s'.

Lemma errs_bind {A C} (P : St -> Prop) (m : M E A) (f : A -> M E C) s :
  errs P m s -> (forall s1 a, m s = (s1, Ok a) -> errs P (f a) s1) -> errs P (m ≫= f) s.
Proof.
  intros Hm Hf s' e. unfold mbind, M_bind. destruct (m s) as [s1 [a|x]] eqn:Hs; [by apply Hf|].
  intros [= <- <-]. by apply (Hm s1 x).
Qed.

Lemma errs_ret {A} (P : St -> Prop) (a : A) s : errs P (mret a) s.
Proof. by intros s' e. Qed.

Lemma errs_fmap {A C} (g : A -> C) (P : St -> Prop) (m : M E A) s : errs P m s -> errs P (g <$> m) s.
Proof.
  intros Hm s' e. unfold fmap, M_fmap. destruct (m s) as [s1 [a|x]] eqn:Hs; [done|].
  intros [= <- <-]. by apply (Hm s1 x).
Qed.

Lemma errs_weaken {A} (P Q : St -> Prop) (m : M E A) s :
  errs P m s -> (forall s', P s' -> Q s') -> errs Q m s.
Proof. intros Hm HQ s' e Hs. by eapply HQ, Hm. Qed.

(** Nothing but the clock was read. *)
Record idle (s s' : St) : Prop := {
  idle_records : records s' = records s;
  idle_installed : installed (engine s') = installed (engine s);
  idle_versions : versions s' = versions s;
  idle_version_clock : VERSION_CLOCK s' = VERSION_CLOCK s;
  idle_later : later s s';
}.

#[export] Instance idle_preorder : PreOrder idle.
Proof.
  split; [done|]. intros s1 s2 s3 [] []. split; [congruence..|]. by transitivity s2.
Qed.

Lemma idle_ideal B s s' d : Inv_at B (ideal s) d -> idle s s' -> Inv_at B (ideal s') d.
Proof.
  intros HI [Hr Hi Hv Hc Hl]. apply (Inv_step B (ideal s) _ d); cbn; [done..| |done|done].
  rewrite Hr, Hv. apply HI.
Qed.

(** ... without a call that writes. *)
Record frozen (s s' : St) : Prop := {
  frozen_engine : engine s' = engine s;
  frozen_versions : versions s' = versions s;
  frozen_version_clock : VERSION_CLOCK s' = VERSION_CLOCK s;
  frozen_later : later s s';
}.

#[export] Instance frozen_preorder : PreOrder frozen.
Proof.
  split; [done|]. intros s1 s2 s3 [] []. split; [congruence..|]. by transitivity s2.
Qed.

Lemma frozen_idle s s' : frozen s s' -> idle s s'.
Proof. intros [He Hv Hc Hl]. split; [by rewrite He|by rewrite He|done..]. Qed.

(** Computations that change nothing, and computations that change nothing if
    they fail. *)
Definition calm {A} (m : M E A) : Prop := forall s, frozen s (m s).1.
Definition atomic {A} (m : M E A) : Prop := forall s, errs (idle s) m s.

Lemma calm_ret {A} (a : A) : calm (mret a). Proof. by intros s. Qed.
Lemma calm_lift {A} (r : result EngineError A) : calm (lift r). Proof. by intros s. Qed.
Lemma calm_throw {A} e : calm (throw (A := A) e). Proof. by intros s. Qed.
Lemma calm_get k : calm (engine_get k). Proof. by intros s. Qed.
Lemma calm_scan p : calm (engine_scan_prefix p). Proof. by intros s. Qed.
Lemma calm_now_ms : calm now_ms. Proof. intros s. split; [done..|]. apply later_ticked. Qed.

Lemma calm_bind {A C} (m : M E A) (f : A -> M E C) : calm m -> (forall a, calm (f a)) -> calm (m ≫= f).
Proof.
  intros Hm Hf s. unfold mbind, M_bind. specialize (Hm s). destruct (m s) as [s1 [a|e]]; [|done].
  etransitivity; [done|apply Hf].
Qed.

Lemma calm_atomic {A} (m : M E A) : calm m -> atomic m.
Proof. intros Hm s s' e Hs. specialize (Hm s). rewrite Hs in Hm. by apply frozen_idle. Qed.

Lemma atomic_write b : atomic (engine_write b).
Proof.
  intros s s' e. unfold engine_write. pose proof (write_installed (engine s) b) as Hi.
  destruct (eng_write (engine s) b) as [x r] eqn:Hw. intros [= <- ->].
  split; cbn in *; [by eapply write_err|done..].
Qed.

Lemma atomic_bind {A C} (m : M E A) (f : A -> M E C) : calm m -> (forall a, atomic (f a)) -> atomic (m ≫= f).
Proof.
  intros Hm Hf s. apply errs_bind; [by apply calm_atomic|]. intros s1 a Hs.
  eapply errs_weaken; [apply Hf|]. intros s' Hi. specialize (Hm s). rewrite Hs in Hm. apply frozen_idle in Hm. by transitivity s1.
Qed.

(** A last step that cannot fail. *)
Lemma atomic_last {A C} (m : M E A) (f : A -> M E C) : atomic m -> (forall a s P, errs P (f a) s) -> atomic (m ≫= f).
Proof. intros Hm Hf s. apply errs_bind; [apply Hm|]. intros s1 a _. apply Hf. Qed.

Lemma atomic_delete k : atomic (logical_delete k).
Proof. apply atomic_last; [apply atomic_write|]. intros [] s P. by intros s' e. Qed.

Create HintDb calm discriminated.
#[local] Hint Resolve calm_ret calm_lift calm_throw calm_get calm_scan calm_now_ms atomic_write atomic_delete : calm.

Ltac settle :=
  repeat first
    [ done
    | progress auto with calm
    | apply calm_bind; [|intros ?]
    | apply errs_ret
    | apply atomic_bind; [by settle_calm|intros ?]
    | apply atomic_last; [|intros ? ? ?]
    | case_match
    | apply calm_atomic ]
with settle_calm :=
  repeat first [ done | progress auto with calm | apply calm_bind; [|intros ?] | case_match ].

(** ** Loading a key *)

Lemma mirror_ok {A} (m : M E A) m' s s1 a :
  mirrors m m' -> m s = (s1, Ok a) -> m' (ideal s) = (ideal s1, Ok a).
Proof. intros Hm Hs. specialize (Hm s). rewrite Hs in Hm. by destruct Hm as [(? & ? & _)|]. Qed.

Lemma calm_load_meta k : calm (load_meta k).
Proof. unfold load_meta, some_or. settle. Qed.
#[local] Hint Resolve calm_load_meta : calm.

Lemma calm_expired m : calm (expired m).
Proof. unfold expired. settle. Qed.
#[local] Hint Resolve calm_expired : calm.

Lemma atomic_load_live k : atomic (load_live_meta k).
Proof. unfold load_live_meta. settle. Qed.

(** A key that is found alive has not been purged. *)
Lemma load_live_found k s s1 m : load_live_meta k s = (s1, Ok (Some m)) -> idle s s1.
Proof.
  intros Hs. apply frozen_idle. revert Hs.
  unfold load_live_meta, mbind, M_bind. pose proof (calm_load_meta k s) as Hm.
  destruct (load_meta k s) as [s2 [[m2|]|e]]; [|done..]. pose proof (calm_expired m2 s2) as Hx.
  destruct (expired m2 s2) as [s3 [[]|e]]; [|intros [= <- _]; by transitivity s2|done].
  by destruct (logical_delete k s3) as [s4 [[]|e]].
Qed.

Section Load.
Context (B : Z) (s : St) (d : Db) (k : bytes) (HI : Inv_at B (ideal s) d) (Hk : valid_key k).

(** What the store may be left with: the database, or the database without its
    expired key. *)
Definition unharmed (s' : St) : Prop := Rep s' d \/ Rep s' (purge (peek_ms s) k d).

Lemma unharmed_idle s' : idle s s' -> unharmed s'.
Proof using HI. intros Hi. left. exists B. by eapply idle_ideal. Qed.

Lemma unharmed_loaded s1 s' : Inv_at B (ideal s1) (purge (peek_ms s) k d) -> idle s1 s' -> unharmed s'.
Proof. intros HI1 Hi. right. exists B. by eapply idle_ideal. Qed.

Lemma load_live_kept s1 o : load_live_meta k s = (s1, Ok o) ->
  Inv_at B (ideal s1) (purge (peek_ms s) k d) /\ VERSION_CLOCK s1 = VERSION_CLOCK s /\
  (o = None -> purge (peek_ms s) k d !! k = None).
Proof using HI Hk.
  intros Hs. apply (mirror_ok _ _ _ _ _ (mirrors_load_live k)) in Hs.
  destruct (load_live_ok B (ideal s) d k HI Hk) as (s2 & HI2 & _ & Hvc & Hcase).
  change (peek_ms (ideal s)) with (peek_ms s) in *. fold (live (peek_ms s) k d).
  destruct (live (peek_ms s) k d) as [x|].
  - destruct Hcase as (ver & Hl & _). rewrite Hs in Hl. by injection Hl as <- ->.
  - rewrite Hs in Hcase. by injection Hcase as <- ->.
Qed.

Lemma load_live_errs {A} (f : option Meta -> M E A) :
  (forall o, atomic (f o)) -> errs unharmed (load_live_meta k ≫= f) s.
Proof using HI Hk.
  intros Hf. apply errs_bind.
  - eapply errs_weaken; [apply atomic_load_live|apply unharmed_idle].
  - intros s1 o Hs. apply load_live_kept in Hs as (HI1 & _). eapply errs_weaken; [apply Hf|].
    intros s'. by apply unharmed_loaded.
Qed.

Lemma load_typed_atomic ty : errs (idle s) (load_typed k ty) s.
Proof.
  apply errs_bind; [apply atomic_load_live|]. intros s1 [m|] Hs s' e; [|done].
  apply load_live_found in Hs. case_decide; [done|]. by intros [= <- _].
Qed.

Lemma load_typed_kept ty s1 o : load_typed k ty s = (s1, Ok o) ->
  Inv_at B (ideal s1) (purge (peek_ms s) k d) /\ VERSION_CLOCK s1 = VERSION_CLOCK s /\
  (o = None -> purge (peek_ms s) k d !! k = None).
Proof using HI Hk.
  unfold load_typed, mbind, M_bind. destruct (load_live_meta k s) as [s2 [[m|]|e]] eqn:Hs; [|intros [= <- <-]|done].
  - case_decide; intros [= <- <-]. by apply load_live_kept in Hs.
  - by apply load_live_kept in Hs.
Qed.

Lemma load_typed_errs {A} ty (f : option Meta -> M E A) :
  (forall o, atomic (f o)) -> errs unharmed (load_typed k ty ≫= f) s.
Proof using HI Hk.
  intros Hf. apply errs_bind.
  - eapply errs_weaken; [apply load_typed_atomic|apply unharmed_idle].
  - intros s1 o Hs. apply load_typed_kept in Hs as (HI1 & _). eapply errs_weaken; [apply Hf|].
    intros s'. by apply unharmed_loaded.
Qed.

(** Loading a key or registering a new one. *)
Lemma load_or_new_errs {A} ty (g : Meta -> Meta) (f : Meta -> M E A) :
  clock_left s -> (forall m, atomic (f m)) ->
  errs unharmed (load_typed k ty ≫= fun o =>
    match o with Some m => f m | None => new_composite_meta k ty ≫= fun m => f (g m) end) s.
Proof using HI Hk.
  intros Hc Hf. apply errs_bind; [eapply errs_weaken; [apply load_typed_atomic|apply unharmed_idle]|].
  intros s1 o Hs. apply load_typed_kept in Hs as (HI1 & Hvc & Hnone). destruct o as [m|].
  - eapply errs_weaken; [apply Hf|]. intros s'. by apply unharmed_loaded.
  - destruct (new_composite_ok B (ideal s1) _ k ty (HashV 0 ∅) HI1 Hk) as (s2 & B2 & ver & Hn & HI2 & _).
    { unfold clock_left in *. cbn. by rewrite Hvc. }
    { by apply Hnone. }
    { by intros p rest [-> | ->]. }
    apply errs_bind; [by intros s' e|]. intros s3 m Hs. eapply errs_weaken; [apply Hf|]. intros s' Hi.
    assert (Hm : mirrors (new_composite_meta k ty) (new_composite_meta k ty)) by apply mirrors_new_composite.
    apply (mirror_ok _ _ _ _ _ Hm) in Hs. rewrite Hn in Hs. injection Hs as -> _.
    right. exists B2. by eapply idle_ideal.
Qed.
End Load.

(** ** Loops read only *)

Lemma calm_hset_loop k ver pairs fc c b : calm (hset_loop k ver pairs fc c b).
Proof. revert fc c b. induction pairs as [|[f v] pairs IH]; intros fc c b; cbn [hset_loop]; settle_calm; apply IH. Qed.
Lemma calm_hdel_loop k ver l fc c b : calm (hdel_loop k ver l fc c b).
Proof. revert fc c b. induction l as [|f l IH]; intros fc c b; cbn [hdel_loop]; settle_calm; apply IH. Qed.
Lemma calm_sadd_loop k ver l seen n c b : calm (sadd_loop k ver l seen n c b).
Proof. revert seen n c b. induction l as [|m l IH]; intros seen n c b; cbn [sadd_loop]; settle_calm; apply IH. Qed.
Lemma calm_srem_loop k ver l seen n c b : calm (srem_loop k ver l seen n c b).
Proof. revert seen n c b. induction l as [|m l IH]; intros seen n c b; cbn [srem_loop]; settle_calm; apply IH. Qed.
Lemma calm_zadd_loop k ver l n c b : calm (zadd_loop k ver l n c b).
Proof. revert n c b. induction l as [|[m x] l IH]; intros n c b; cbn [zadd_loop]; settle_calm; apply IH. Qed.
Lemma calm_zrem_loop k ver l seen n c b : calm (zrem_loop k ver l seen n c b).
Proof. revert seen n c b. induction l as [|m l IH]; intros seen n c b; cbn [zrem_loop]; settle_calm; apply IH. Qed.
Lemma calm_pop_loop fuel k ver n left h t out b : calm (pop_loop fuel k ver n left h t out b).
Proof. revert h t out b. induction fuel as [|fuel IH]; intros h t out b; cbn [pop_loop]; unfold some_or; settle_calm; apply IH. Qed.
Lemma calm_lrange_loop k ver h l out : calm (lrange_loop k ver h l out).
Proof. revert out. induction l as [|x l IH]; intros out; cbn [lrange_loop]; unfold some_or; settle_calm; apply IH. Qed.

Lemma calm_collect {A} (f : bytes -> bytes -> A) items out : calm (collect_items f items out).
Proof. revert out. induction items as [|x l IH]; intros out; cbn [collect_items]; settle_calm; apply IH. Qed.
Lemma calm_count items n : calm (count_items items n).
Proof. revert n. induction items as [|x l IH]; intros n; cbn [count_items]; settle_calm; apply IH. Qed.
Lemma calm_delete_items items b : calm (delete_items items b).
Proof. revert b. induction items as [|x l IH]; intros b; cbn [delete_items]; settle_calm; apply IH. Qed.
Lemma calm_zrange_loop n lo hi rank items out : calm (zrange_loop n lo hi rank items out).
Proof. revert rank out. induction items as [|x l IH]; intros rank out; cbn [zrange_loop]; unfold some_or; settle_calm; apply IH. Qed.
Lemma calm_by_score_loop n mn mne mx mxe items out : calm (zrange_by_score_loop n mn mne mx mxe items out).
Proof. revert out. induction items as [|x l IH]; intros out; cbn [zrange_by_score_loop]; unfold some_or; settle_calm; apply IH. Qed.

#[local] Hint Resolve calm_hset_loop calm_hdel_loop calm_sadd_loop calm_srem_loop calm_zadd_loop calm_zrem_loop
  calm_pop_loop calm_lrange_loop calm_collect calm_count calm_delete_items calm_zrange_loop calm_by_score_loop : calm.

(** ** The operations *)

Lemma errs_ext {A} (P : St -> Prop) (m m' : M E A) s : m s = m' s -> errs P m' s -> errs P m s.
Proof. intros Hm He s' e. rewrite Hm. apply He. Qed.

Lemma bind_assoc {A C D} (m : M E A) (f : A -> M E C) (g : C -> M E D) s :
  ((m ≫= f) ≫= g) s = (m ≫= fun a => f a ≫= g) s.
Proof. unfold mbind, M_bind. by destruct (m s) as [s1 [a|e]]. Qed.

Lemma counted_errs {A} B s d k ty (f : Meta -> M E A) :
  Inv_at B (ideal s) d -> valid_key k -> clock_left s -> (forall m, atomic (f m)) ->
  errs (unharmed s d k) (load_or_new_counted k ty ≫= f) s.
Proof.
  intros HI Hk Hc Hf. eapply errs_ext; [|apply (load_or_new_errs B s d k HI Hk ty (fun m => set_field_count m 0) f Hc Hf)].
  unfold load_or_new_counted. rewrite bind_assoc. unfold mbind, M_bind.
  destruct (load_typed k ty s) as [s1 [[m|]|e]]; [done| |done].
  by destruct (new_composite_meta k ty s1) as [s2 [m|e]].
Qed.

Lemma push_errs B s d k values left :
  Inv_at B (ideal s) d -> valid_key k -> clock_left s -> errs (unharmed s d k) (push k values left) s.
Proof.
  intros HI Hk Hc.
  set (f := fun meta => '(head, tail) ← some_or (list_bounds meta) undecodable_bounds;
    let '(head, tail, batch) := push_loop k (version meta) left values head tail WriteBatch_new in
    _ ← engine_write (batch_put batch (meta_key k) (Meta_encode (set_list_bounds meta head tail)));
    mret (wrap_i64 (wrap_u64 (tail - head))) : M E Z).
  eapply errs_ext; [|apply (load_or_new_errs B s d k HI Hk TYPE_LIST
    (fun m => set_list_bounds m LIST_INITIAL_INDEX LIST_INITIAL_INDEX) f Hc)].
  - unfold push. fold f. unfold mbind, M_bind. destruct (load_typed k TYPE_LIST s) as [s1 [[m|]|e]]; [done| |done].
    by destruct (new_composite_meta k TYPE_LIST s1) as [s2 [m|e]].
  - intros m. unfold f, some_or. settle.
Qed.

(** ** Removals *)

(** How a removal ends: nothing to write, the key is empty, or a batch that
    leaves it with fewer entries. *)
Inductive Ending : Type :=
  | Untouched
  | Emptied (b : WriteBatch)
  | Reduced (b : WriteBatch).

Definition conclude {F : Type} `{GeneralEngine F} (k : bytes) (x : Ending) : M F unit :=
  match x with
  | Untouched => mret tt
  | Emptied b => _ ← engine_write b; logical_delete k
  | Reduced b => engine_write b
  end.

Lemma finish_removal_conclude {F : Type} `{GeneralEngine F} k m count removed b :
  finish_removal (E := F) k m count removed b =
  conclude k (if 0 <? removed then
    if count =? 0 then Emptied b
    else Reduced (batch_put b (meta_key k) (Meta_encode (set_field_count m count))) else Untouched).
Proof. unfold finish_removal. by repeat case_match. Qed.

(** A removal: load the key, collect what goes, and conclude. *)
Definition removal {F : Type} `{GeneralEngine F} {X A : Type} (k : bytes) (ty : byte) (loop : Meta -> M F X)
    (act : Meta -> X -> Ending) (none : A) (res : X -> A) : M F A :=
  o ← load_typed k ty;
  match o with
  | None => mret none
  | Some meta => x ← loop meta; _ ← conclude k (act meta x); mret (res x)
  end.

(** Emptying a key deletes its metadata. *)
Lemma conclude_emptied k b (t : State IdealEngine) :
  exists t', conclude k (Emptied b) t = (t', Ok tt) /\ ideal_map (engine t') !! meta_key k = None.
Proof.
  eexists. split; [reflexivity|]. cbn. apply lookup_delete_eq.
Qed.

Lemma removal_errs {X A : Type} B s d k ty (loop : Meta -> M E X) loop' act (none : A) res (a : Ans A) :
  Inv_at B (ideal s) d -> valid_key k -> (forall m, calm (loop m)) -> (forall m, mirrors (loop m) (loop' m)) ->
  refines (removal k ty loop' act none res) (ideal s) a ->
  ~ (is_Some (live (peek_ms s) k d) /\ a.1 !! k = None) ->
  errs (unharmed s d k) (removal k ty loop act none res) s.
Proof.
  intros HI Hk Hcalm Hmir (t & Ht & [B' HI'] & _) Hsafe. unfold removal. apply errs_bind.
  { eapply errs_weaken; [apply load_typed_atomic|]. by eapply unharmed_idle. }
  intros s1 [m|] Hl; [|apply errs_ret].
  pose proof (load_typed_kept B s d k HI Hk ty s1 _ Hl) as (HI1 & _).
  pose proof (mirror_ok _ _ _ _ _ (mirrors_load_typed k ty) Hl) as Hl'.
  apply errs_bind.
  { eapply errs_weaken; [apply calm_atomic, Hcalm|]. intros s'. by apply (unharmed_loaded B). }
  intros s2 x Hx. pose proof (frozen_idle _ _ (Hcalm m s1)) as Hi. rewrite Hx in Hi. cbn in Hi.
  pose proof (mirror_ok _ _ _ _ _ (Hmir m) Hx) as Hx'.
  apply errs_bind; [|intros; apply errs_ret].
  assert (Hend : errs (idle s2) (conclude k (act m x)) s2).
  { destruct (act m x) as [|b|b] eqn:Hact; [apply errs_ret| |apply atomic_write].
    destruct Hsafe. destruct (conclude_emptied k b (ideal s2)) as (t' & Hc & Hnone).
    unfold removal in Ht. rewrite (bind_ok _ _ _ _ _ Hl'), (bind_ok _ _ _ _ _ Hx'), Hact,
      (bind_ok _ _ _ _ _ Hc) in Ht. injection Ht as <- Hr. split.
    - destruct (load_live_ok B (ideal s) d k HI Hk) as (t1 & _ & _ & _ & Hcase).
      change (peek_ms (ideal s)) with (peek_ms s) in Hcase. destruct (live (peek_ms s) k d); [done|].
      unfold load_typed in Hl'. by rewrite (bind_ok _ _ _ _ _ Hcase) in Hl'.
    - destruct (a.1 !! k) as [o|] eqn:Ho; [|done].
      pose proof (kr_obj _ _ _ _ _ (rep_key _ _ _ _ (inv_rep _ _ _ HI') k Hk)) as Hko. rewrite Ho in Hko.
      destruct Hko as (ver & Hat & _). apply at_meta in Hat. cbn in Hat. congruence. }
  eapply errs_weaken; [exact Hend|]. intros s' Hi'. apply (unharmed_loaded B s d k s1); [done|]. by transitivity s2.
Qed.

(** The four removals. *)
Definition counted_ending (k : bytes) (m : Meta) (x : Z * Z * WriteBatch) : Ending :=
  let '(count, removed, b) := x in
  if 0 <? removed then
    if count =? 0 then Emptied b
    else Reduced (batch_put b (meta_key k) (Meta_encode (set_field_count m count))) else Untouched.

Definition popped_ending (k : bytes) (m : Meta) (x : Z * Z * list bytes * WriteBatch) : Ending :=
  let '(head, tail, out, b) := x in
  match out with
  | [] => Untouched
  | _ :: _ =>
      if head =? tail then Emptied b
      else Reduced (batch_put b (meta_key k) (Meta_encode (set_list_bounds m head tail)))
  end.

(** The removals of the store are of this form, over any engine. *)
Section Removals.
Context {F : Type} `{GeneralEngine F}.

Ltac by_conclude :=
  unfold removal, mbind, M_bind;
  destruct (load_typed _ _ _) as [? [[?|]|?]]; [|done..];
  destruct (_ : State F * result EngineError (Z * Z * WriteBatch)) as [? [[[? ?] ?]|?]]; [|done];
  by rewrite finish_removal_conclude.

Lemma hdel_removal k l (t : State F) :
  hdel k l t = removal k TYPE_HASH (fun m => hdel_loop k (version m) l (field_count m) 0 WriteBatch_new)
    (counted_ending k) 0 (fun x => x.1.2) t.
Proof. unfold hdel. by_conclude. Qed.

Lemma srem_removal k l (t : State F) :
  srem k l t = removal k TYPE_SET (fun m => srem_loop k (version m) l ∅ (field_count m) 0 WriteBatch_new)
    (counted_ending k) 0 (fun x => x.1.2) t.
Proof. unfold srem. by_conclude. Qed.

Lemma zrem_removal k l (t : State F) :
  zrem k l t = removal k TYPE_ZSET (fun m => zrem_loop k (version m) l ∅ (field_count m) 0 WriteBatch_new)
    (counted_ending k) 0 (fun x => x.1.2) t.
Proof. unfold zrem. by_conclude. Qed.

Definition pop_items (k : bytes) (n : Z) (left : bool) (m : Meta) : M F (Z * Z * list bytes * WriteBatch) :=
  '(head, tail) ← some_or (list_bounds m) undecodable_bounds;
  pop_loop (Z.to_nat (tail - head)) k (version m) n left head tail [] WriteBatch_new.

Lemma pop_removal k n left (t : State F) :
  pop k n left t = removal k TYPE_LIST (pop_items k n left) (popped_ending k) [] (fun x => x.1.2) t.
Proof.
  unfold pop, pop_items, removal, mbind, M_bind. destruct (load_typed _ _ _) as [s1 [[m|]|?]]; [|done..].
  unfold some_or, lift. destruct (list_bounds m) as [[h t1]|]; [|done]. cbn.
  destruct (pop_loop _ _ _ _ _ _ _ _ _ s1) as [s2 [[[[h2 t2] out] b]|?]]; [|done].
  cbn [popped_ending fst snd]. destruct out; [done|]. by destruct (h2 =? t2).
Qed.
End Removals.

Lemma calm_pop_items k n left m : calm (pop_items k n left m).
Proof. unfold pop_items, some_or. settle_calm. Qed.
#[local] Hint Resolve calm_pop_items : calm.

Lemma mirrors_pop_items k n left m : mirrors (pop_items k n left m) (pop_items k n left m).
Proof.
  unfold pop_items. apply mirrors_bind; [apply mirrors_lift|]. intros [h t]. apply mirrors_pop_loop.
Qed.

(** ** SET, COMPACT and FLUSHALL *)

(** Untracking a key that holds no collection changes nothing. *)
Lemma rep_untrack m vm B d k :
  rep m vm B d -> valid_key k -> (forall o, d !! k = Some o -> ~ composite (value o)) -> rep m (delete k vm) B d.
Proof.
  intros Hrep Hk Hno. destruct (rep_key _ _ _ _ Hrep k Hk) as [Ho _ Hb].
  assert (Hd : partial_alter (fun _ => d !! k) k d = d) by by rewrite partial_alter_self.
  rewrite <- Hd. apply (rep_change m vm B d); [done|done|lia| |apply (rep_raw _ _ _ _ Hrep)|].
  - intros k' _ Hne. split; [done|]. split; [by rewrite lookup_delete_ne|done].
  - split; [|intros v; by rewrite lookup_delete_eq|done].
    destruct (d !! k) as [o|] eqn:Hko; [|done]. destruct Ho as (ver & [] & Hle). exists ver. split; [|done].
    split; [done..|]. intros Hc. by destruct (Hno o).
Qed.

Lemma set_errs B s d k v expire :
  Inv_at B (ideal s) d -> valid_key k -> clock_left s -> (forall o, d !! k = Some o -> ~ composite (value o)) ->
  errs (unharmed s d k) (set k v expire) s.
Proof.
  intros HI Hk Hc Hno. unfold set. apply errs_bind; [by intros s' e|]. intros s1 [] [= <-].
  apply errs_bind; [by intros s' e|]. intros s2 ver Hn.
  eapply errs_weaken; [apply atomic_write|]. intros s' Hi. left. exists B. apply (idle_ideal B s2); [|done].
  destruct (next_version_ok B (ideal s) d HI Hc) as (t & ver' & Hn' & HB & Hv & _ & Hvc & _ & _ & Hl).
  unfold next_version, now_micros, bump_version_clock, read_clock, mbind, M_bind in *.
  cbn in Hn, Hn'. injection Hn as <- <-. injection Hn' as <- <-. destruct HI as [Hrep Hb Hcl _ _ Hinst].
  split; cbn; [by apply rep_untrack|done|done| |done|done]. left. cbn in HB |- *. lia.
Qed.

Lemma compact_errs B s d : Inv_at B (ideal s) d -> errs (fun s' => Rep s' d) compact s.
Proof.
  intros HI s' e. unfold compact, engine_compact_range.
  pose proof (compact_installed (versions s) (engine s) (Some Range_default)) as Hi.
  pose proof (compact_safe (versions s) (engine s) (Some Range_default)) as Hs.
  pose proof (compact_keeps (versions s) (engine s) (Some Range_default)) as Hkeep.
  destruct (eng_compact_range _ _ _) as [x r]. cbn in *. intros [= <- ->]. exists B.
  pose proof (inv_installed _ _ _ HI) as Hinst. cbn in Hinst.
  apply (Inv_step B (ideal s) _ d); cbn; [done..| |done|done].
  eapply rep_compact; [apply HI|done|]. intros raw v Hraw Hk. apply Hkeep; [done|]. by rewrite Hinst.
Qed.

Lemma atomic_flush : atomic flush_all.
Proof.
  unfold flush_all. apply atomic_bind; [settle_calm|intros items1]. apply atomic_bind; [settle_calm|intros b1].
  apply atomic_bind; [settle_calm|intros items2]. apply atomic_bind; [settle_calm|intros b2].
  apply atomic_bind; [settle_calm|intros items3]. apply atomic_bind; [settle_calm|intros b3].
  apply atomic_last; [apply atomic_write|]. intros [] s P. by intros s' e.
Qed.

Lemma calm_dbsize : calm dbsize.
Proof. unfold dbsize. settle_calm. Qed.

(** ** Every operation *)

(** A removal that takes the last entries of its key writes twice. *)
Definition empties (now now' : Z) (op : Op) (d : Db) : Prop :=
  match op with
  | OHdel k _ | OSrem k _ | OZrem k _ | OPop k _ _ =>
      is_Some (live now k d) /\ (spec now now' op d).1 !! k = None
  | _ => False
  end.

(** The operations that change the store before their last write: these, and a
    SET over a collection. *)
Definition hazard (now now' : Z) (op : Op) (d : Db) : Prop :=
  match op with
  | OSet k _ _ => exists o, d !! k = Some o /\ composite (value o)
  | _ => empties now now' op d
  end.

(** What an operation that fails leaves. *)
Definition kept (s : St) (d : Db) (op : Op) (s' : St) : Prop :=
  Rep s' d \/ exists k, op_target op = Some k /\ Rep s' (purge (peek_ms s) k d).

Ltac by_load B s d :=
  match goal with
  | Hk : valid_key ?k |- _ =>
      apply errs_fmap; eapply (errs_weaken (unharmed s d k));
        [|intros s' [?|?]; [by left|right; by eexists]]
  end.

Lemma refines_ext {F : Type} `{EngineLaws F} {A} (m m' : M F A) t a :
  (forall t, m t = m' t) -> refines m t a -> refines m' t a.
Proof. unfold refines. by intros ->. Qed.

Ltac mirrors_loop :=
  intros m; first [apply mirrors_hdel_loop|apply mirrors_srem_loop|apply mirrors_zrem_loop|apply mirrors_pop_items].

Ltac by_removal B Heq Href :=
  eapply errs_ext; [apply Heq|];
  eapply (removal_errs B);
    [done|done|intros; unfold some_or; settle_calm|mirrors_loop
    |eapply refines_ext; [intros t; apply Heq|by eapply Href]|done].

Lemma exec_errs s d op :
  Rep s d -> op_pre s d op -> ~ hazard (peek_ms s) (peek_ms2 s) op d -> errs (kept s d op) (exec op) s.
Proof.
  intros [B HI] Hpre Hsafe. destruct op; cbn [exec op_pre hazard empties] in *;
    repeat match goal with Hc : _ /\ _ |- _ => destruct Hc end; try by_load B s d.
  all: try (apply (load_live_errs B); [done..|]; intros o; unfold put_meta; settle; fail).
  all: try (apply (counted_errs B); [done..|]; intros m; settle; fail).
  all: try (apply (load_typed_errs B); [done..|]; intros o; unfold some_or; settle; fail).
  - apply (set_errs B); [done..|]. intros o Ho Hcomp. apply Hsafe. eauto.
  - by_removal B @hdel_removal @hdel_refines.
  - unfold hexists. apply errs_bind; [|intros; apply errs_ret].
    apply (load_typed_errs B); [done..|]. intros o. settle.
  - by_removal B @srem_removal @srem_refines.
  - by_removal B @zrem_removal @zrem_refines.
  - by apply (push_errs B).
  - by_removal B @pop_removal @pop_refines.
  - apply errs_fmap. eapply errs_weaken; [apply calm_atomic, calm_dbsize|].
    intros s' Hi. left. exists B. by eapply idle_ideal.
  - apply errs_fmap. eapply errs_weaken; [by apply (compact_errs B)|]. by left.
  - apply errs_fmap. eapply errs_weaken; [apply atomic_flush|].
    intros s' Hi. left. exists B. by eapply idle_ideal.
Qed.

(** ** What may happen to the database *)

(** One operation under faults: it does what its specification says, or fails
    and leaves the database, its own expired key apart. *)
Inductive faulty_step (now now' : Z) (op : Op) (d : Db) : Db -> result EngineError Reply -> Prop :=
  | performed : faulty_step now now' op d (spec now now' op d).1 (spec now now' op d).2
  | failed e : fault e -> faulty_step now now' op d d (Err e)
  | failed_purged k e :
      op_target op = Some k -> fault e -> faulty_step now now' op d (purge now k d) (Err e).

(** A sequence of operations; [None] once a hazardous operation has failed. *)
Inductive faulty_run : list (Op * (Z * Z)) -> Db -> list (result EngineError Reply) -> option Db -> Prop :=
  | run_done d : faulty_run [] d [] (Some d)
  | run_more op now now' l d d1 r rs x :
      faulty_step now now' op d d1 r -> faulty_run l d1 rs x ->
      faulty_run ((op, (now, now')) :: l) d (r :: rs) x
  | run_hazard op now now' l d e rs :
      hazard now now' op d -> fault e -> length rs = length l ->
      faulty_run ((op, (now, now')) :: l) d (Err e :: rs) None.

#[export] Instance hazard_dec now now' op d : Decision (hazard now now' op d).
Proof.
  destruct op; cbn [hazard empties]; try apply _.
  destruct (d !! k) as [o|] eqn:Ho; [|right; naive_solver].
  destruct (decide (composite (value o))); [left; eauto|right; naive_solver].
Defined.

(** The replies of a run, as many as its operations. *)
Lemma run_length l s : length (run l s).2 = length l.
Proof.
  revert s. induction l as [|op l IH]; intros s; [done|]. cbn [run].
  destruct (exec op s) as [s1 r]. specialize (IH s1). destruct (run l s1) as [s2 rs]. cbn in *. by rewrite IH.
Qed.

Lemma timed_length l s : length (timed l s) = length l.
Proof.
  unfold timed. revert s. induction l as [|op l IH]; intros s; [done|]. cbn. by rewrite IH.
Qed.

Lemma exec_survives s d op :
  Rep s d -> op_pre s d op ->
  (exists d', faulty_step (peek_ms s) (peek_ms2 s) op d d' (exec op s).2 /\ Rep (exec op s).1 d' /\
     (d' = (spec (peek_ms s) (peek_ms2 s) op d).1 \/ d' = d \/ exists k, d' = purge (peek_ms s) k d)) \/
  hazard (peek_ms s) (peek_ms2 s) op d /\ faulted (exec op s).2.
Proof.
  intros HR Hpre. destruct (exec_mirrors op s) as [(e & He & Hf)|Hs].
  - destruct (decide (hazard (peek_ms s) (peek_ms2 s) op d)) as [Hh|Hh]; [right; split; [done|by exists e]|left].
    pose proof (exec_errs s d op HR Hpre Hh) as Hend. destruct (exec op s) as [s1 r] eqn:Hx. cbn in He |- *. subst r.
    destruct (Hend s1 e Hx) as [HR1|(k & Hk & HR1)].
    + exists d. split; [by apply failed|]. eauto.
    + exists (purge (peek_ms s) k d). split; [by eapply failed_purged|]. eauto.
  - left. destruct (exec_refines (ideal s) d op HR) as (t & Ht & HI & _); [by destruct op|].
    rewrite Hs in Ht. injection Ht as Ht ->.
    eexists. split; [constructor|]. split; [|by left]. unfold Rep. by rewrite Ht.
Qed.

(** The budget an operation leaves, whatever it did. *)
Lemma survives_spends w s d op d' :
  0 <= VERSION_CLOCK s -> budget w s d -> op_ok op -> op_cost op <= w ->
  (d' = (spec (peek_ms s) (peek_ms2 s) op d).1 \/ d' = d \/ exists k, d' = purge (peek_ms s) k d) ->
  budget (w - op_cost op) (exec op s).1 d'.
Proof using Type*.
  intros Hv Hb Hok Hw Hd. destruct (exec_spends w s d op Hv Hb Hok Hw) as [Hc Ht Hs].
  destruct Hb as [_ _ Hsp]. pose proof (op_cost_pos op). split; [done|done|].
  destruct Hd as [->|[->|(k & ->)]]; [done| |apply spare_purge]; (eapply spare_mono; [|done]; lia).
Qed.

(** C5. Whatever calls of the engine fail during a sequence of operations, each
    operation does exactly what its specification says or answers with the
    engine's fault and leaves the database as it was, up to the lazy deletion of
    its own expired key, and the store goes on from there; no fault makes a
    wrong answer, and only a failing SET over a collection or a failing removal
    of a key's last entries voids this for what follows. *)
Theorem survives_faults (l : list Op) (r : Z) (s : St) (d : Db) :
  0 <= r -> Rep s d -> Forall op_ok l -> budget (run_cost l + r) s d ->
  exists x, faulty_run (timed l s) d (run l s).2 x /\
    forall d', x = Some d' -> Rep (run l s).1 d' /\ budget r (run l s).1 d'.
Proof.
  intros Hr HR Hl. revert s d HR. induction Hl as [|op l Hop Hl IH]; intros s d HR Hb.
  { exists (Some d). rewrite Z.add_0_l in Hb. split; [constructor|]. by intros d' [= <-]. }
  cbn [run_cost] in Hb. pose proof (run_cost_nonneg l) as Hn.
  assert (Hpre : op_pre s d op) by (eapply op_afforded; [done|lia|done]).
  assert (Hv : 0 <= VERSION_CLOCK s) by (destruct HR as [B HI]; apply (inv_clock _ _ _ HI)).
  pose proof (run_length l (exec op s).1) as Hlen. pose proof (timed_length l (exec op s).1) as Htl.
  unfold timed in *. cbn [run run_times zip zip_with].
  destruct (exec_survives s d op HR Hpre) as [(d1 & Hstep & HR1 & Hd1)|[Hh (e & He & Hf)]].
  - pose proof (survives_spends _ s d op d1 Hv Hb Hop ltac:(lia) Hd1) as Hb1.
    replace (op_cost op + run_cost l + r - op_cost op) with (run_cost l + r) in Hb1 by lia.
    destruct (IH _ _ HR1 Hb1) as (x & Hrun & Hend). destruct (exec op s) as [s1 y]. cbn [fst snd] in *.
    exists x. destruct (run l s1) as [s2 rs]. split; [by econstructor|done].
  - exists None. destruct (exec op s) as [s1 y]. cbn [fst snd] in *. subst y.
    destruct (run l s1) as [s2 rs]. cbn [fst snd] in *. split; [|done]. apply run_hazard; [done..|]. lia.
Qed.

End Faults.

(** ** A run with a failing write *)

(** The empty store over an engine whose second write fails. *)
Definition flaky_state : State (RocksEngine MemDb) :=
  with_engine_state steady_state (mk_RocksEngine (mk_MemDb ∅ [false; true] None) (gc (engine steady_state))).

Lemma flaky_rep : Rep flaky_state ∅.
Proof. exact (Rep_of_Inv _ _ steady_inv). Qed.

Lemma flaky_budget w : w < 2 ^ 32 -> budget w flaky_state ∅.
Proof. intros Hw. by destruct (steady_budget w Hw) as [? [? ?] ?]. Qed.

Lemma survives_faults_witness :
  let l := [OHset (B "h") [(B "f", B "1")]; OHset (B "h") [(B "g", B "2")]; OHgetall (B "h")] in
  (run l flaky_state).2 =
    [Ok (RInt 1); Err (Backend (B "injected write fault")); Ok (RPairs [(B "f", B "1")])] /\
  exists x, faulty_run (E := RocksEngine MemDb) (timed l flaky_state) ∅ (run l flaky_state).2 x.
Proof.
  set (l := [OHset (B "h") [(B "f", B "1")]; OHset (B "h") [(B "g", B "2")]; OHgetall (B "h")]).
  assert (Hok : Forall op_ok l) by (repeat constructor; vm_compute; first [reflexivity|discriminate]).
  assert (Hb : budget (run_cost l + 0) flaky_state ∅) by (apply flaky_budget; vm_compute; reflexivity).
  split; [vm_compute; reflexivity|].
  destruct (survives_faults l 0 flaky_state ∅ (Z.le_refl 0) flaky_rep Hok Hb) as (x & Hx & _).
  exists x. exact Hx.
Defined.
