(* ===== verification/Crash.v ===== *)
(** * A process that dies in the middle of an operation

    The process may be killed between any two steps of an operation.  [halted n]
    is an operation cut after [n] steps; what survives is the records the engine
    holds then, and the next process opens them with an empty version map and
    version clock.  Those records are the ones before the operation, the ones
    after it, or the ones after the lazy deletion of its expired key: a key's
    metadata and its other records go out in one batch ([single]), and nothing
    else a restart reads has changed ([still]).  The exception is a removal that
    empties its key, which writes twice. *)

From S2P Require Import Prelude F64 Encoding Engine Gc Rocks Store StoreSpec StoreRep StoreInv StoreGeneric StoreRefine.
From S2P Require Import StoreHash StoreSet StoreZSet StoreList StoreAdmin StoreProps StoreDurability Programs Budget Faults.

(** ** The states on the way *)

(** The first [n] steps of a program: the state, and the result if it has one. *)
Fixpoint halted {E A} (n : nat) (p : Prog E A) (s : State E) : State E * option (result EngineError A) :=
  match p, n with
  | Ret r, _ => (s, Some r)
  | Step C m k, S n => let '(s', r) := m s in halted n (k r) s'
  | Step C m k, O => (s, None)
  end.

Section Crash.
Context {E : Type} `{EngineLaws E}.

Abbreviation St := (State E).
Abbreviation records s := (contents (engine s)).
Implicit Types (k : bytes) (ty : byte) (s : St) (d : Db) (op : Op).

(** Every state the program passes through satisfies [P]. *)
Fixpoint along {A} (P : St -> Prop) (p : Prog E A) (s : St) : Prop :=
  P s /\ match p with
         | Ret _ => True
         | Step C m k => along P (k (m s).2) (m s).1
         end.

Lemma along_halted {A} (P : St -> Prop) (p : Prog E A) n s : along P p s -> P (halted n p s).1.
Proof.
  revert n s. induction p as [r|C m k IH]; intros n s [HP Ha]; [by destruct n|].
  destruct n as [|n]; [done|]. cbn [halted]. destruct (m s) as [s' r]. by apply IH.
Qed.

Lemma halted_result {A} (p : Prog E A) n s r : (halted n p s).2 = Some r -> solo p s = ((halted n p s).1, r).
Proof.
  revert n s. induction p as [x|C m k IH]; intros n s; [by destruct n; intros [= ->]|].
  destruct n as [|n]; [done|]. cbn [halted solo]. destruct (m s) as [s' y]. apply IH.
Qed.

Lemma halted_now {A} (p : Prog E A) s : (halted 0 p s).1 = s.
Proof. by destruct p. Qed.

Lemma halted_step {A C} n (m : M E C) (k : _ -> Prog E A) s :
  halted (S n) (Step C m k) s = halted n (k (m s).2) (m s).1.
Proof. cbn [halted]. by destruct (m s). Qed.

Lemma along_start {A} (P : St -> Prop) (p : Prog E A) s : along P p s -> P s.
Proof. destruct p; by intros [? _]. Qed.

Lemma along_weaken {A} (P Q : St -> Prop) (p : Prog E A) s :
  along P p s -> (forall s', P s' -> Q s') -> along Q p s.
Proof.
  intros Ha HQ. revert s Ha. induction p as [r|C m k IH]; intros s [HP Ha]; split; [by apply HQ|done|by apply HQ|].
  by apply IH.
Qed.

Lemma along_bind {A C} (P : St -> Prop) (p : Prog E A) (f : A -> Prog E C) s :
  along P p s -> (forall s1 a, solo p s = (s1, Ok a) -> along P (f a) s1) -> along P (p ≫= f) s.
Proof.
  revert s. induction p as [[a|e]|D m k IH]; intros s Ha Hf; [by apply Hf|by split; [apply Ha|]|].
  change (along P (Step D m (fun r => k r ≫= f)) s). destruct Ha as [HP Ha]. split; [done|].
  apply IH; [done|]. intros s1 a Hs. apply Hf. cbn [solo]. by destruct (m s).
Qed.

(** The engine holds the same records. *)
Definition same_records (s s' : St) : Prop := records s' = records s.

#[export] Instance same_records_equiv : Equivalence same_records.
Proof. split; [done|by intros s1 s2|]. intros s1 s2 s3 H1' H2'. by transitivity (records s2). Qed.

(** A program that writes nothing, and one that writes at most once. *)
Definition still {A} (p : Prog E A) : Prop := forall s, along (fun s' => engine s' = engine s) p s.
Definition single_at {A} (p : Prog E A) (s : St) : Prop :=
  along (fun s' => same_records s s' \/ same_records (solo p s).1 s') p s.
Definition single {A} (p : Prog E A) : Prop := forall s, single_at p s.

Lemma along_end {A} (P : St -> Prop) (p : Prog E A) s : along P p s -> P (solo p s).1.
Proof.
  revert s. induction p as [r|C m k IH]; intros s [HP Ha]; [done|]. cbn [solo]. specialize (IH _ _ Ha). by destruct (m s).
Qed.

Lemma still_end {A} (p : Prog E A) s : still p -> engine (solo p s).1 = engine s.
Proof. intros Hp. by apply (along_end (fun s' => engine s' = engine s)). Qed.

Lemma same_engine s s' : engine s' = engine s -> same_records s s'.
Proof. unfold same_records. by intros ->. Qed.

Lemma still_ret {A} (r : result EngineError A) : still (Ret r).
Proof. intros s. by split. Qed.

Lemma still_atom {A} (m : M E A) : (forall s, engine (m s).1 = engine s) -> still (atom m).
Proof. intros Hm s. split; [done|]. split; [apply Hm|done]. Qed.

Lemma still_bind {A C} (p : Prog E A) (f : A -> Prog E C) : still p -> (forall a, still (f a)) -> still (p ≫= f).
Proof.
  intros Hp Hf s. apply along_bind; [apply Hp|]. intros s1 a Hs. pose proof (still_end p s Hp) as He.
  rewrite Hs in He. eapply along_weaken; [apply Hf|]. intros s' Hs'. by rewrite Hs'.
Qed.

Lemma single_still {A} (p : Prog E A) : still p -> single p.
Proof. intros Hp s. eapply along_weaken; [apply Hp|]. left. by apply same_engine. Qed.

Lemma single_atom {A} (m : M E A) : single (atom m).
Proof. intros s. split; [by left|]. split; [right|done]. cbn. by destruct (m s). Qed.

Lemma solo_then {A C} (p : Prog E A) (f : A -> Prog E C) s s1 a :
  solo p s = (s1, Ok a) -> solo (p ≫= f) s = solo (f a) s1.
Proof. intros Hs. rewrite solo_bind. exact (bind_ok (solo p) (fun a => solo (f a)) s s1 a Hs). Qed.

(** Reading, then a single write; a single write, then reading. *)
Lemma single_bind_at {A C} (p : Prog E A) (f : A -> Prog E C) s :
  still p -> (forall s1 a, solo p s = (s1, Ok a) -> single_at (f a) s1) -> single_at (p ≫= f) s.
Proof.
  intros Hp Hf. apply along_bind; [eapply along_weaken; [apply Hp|left; by apply same_engine]|]. intros s1 a Hs.
  pose proof (same_engine _ _ (still_end p s Hp)) as He. rewrite Hs in He. rewrite (solo_then p f s s1 a Hs).
  eapply along_weaken; [by apply Hf|]. intros s' [?|?]; [left; by transitivity s1|by right].
Qed.

Lemma single_bind {A C} (p : Prog E A) (f : A -> Prog E C) : still p -> (forall a, single (f a)) -> single (p ≫= f).
Proof. intros Hp Hf s. apply single_bind_at; [done|]. intros s1 a _. apply Hf. Qed.

Lemma solo_still {A C} (p : Prog E A) (f : A -> Prog E C) s :
  (forall a, still (f a)) -> same_records (solo p s).1 (solo (p ≫= f) s).1.
Proof.
  intros Hf. rewrite solo_bind. unfold mbind, M_bind. destruct (solo p s) as [s1 [a|e]]; [|done].
  by apply same_engine, still_end.
Qed.

Lemma along_still {A C} (P : St -> Prop) (p : Prog E A) (f : A -> Prog E C) s :
  (forall s1 s2, same_records s1 s2 -> P s1 -> P s2) ->
  along P p s -> P (solo p s).1 -> (forall a, still (f a)) -> along P (p ≫= f) s.
Proof.
  intros HP Hp Hend Hf. apply along_bind; [done|]. intros s1 a Hs. rewrite Hs in Hend.
  eapply along_weaken; [apply Hf|]. intros s' Hs'. eapply HP; [|done]. by apply same_engine.
Qed.

Lemma single_last_at {A C} (p : Prog E A) (f : A -> Prog E C) s :
  single_at p s -> (forall a, still (f a)) -> single_at (p ≫= f) s.
Proof.
  intros Hp Hf. pose proof (solo_still p f s Hf) as He. apply along_still; [| |by right|done].
  - intros s1 s2 H12 [?|?]; [left|right]; by transitivity s1.
  - eapply along_weaken; [apply Hp|]. intros s' [?|Hs]; [by left|right]. by rewrite <- He.
Qed.

Lemma single_last {A C} (p : Prog E A) (f : A -> Prog E C) : single p -> (forall a, still (f a)) -> single (p ≫= f).
Proof. intros Hp Hf s. by apply single_last_at. Qed.

(** ** The steps of an operation *)

Lemma still_throw {A} e : still (Steps.throw (A := A) e). Proof. apply still_ret. Qed.
Lemma still_lift {A} (r : result EngineError A) : still (Steps.lift r). Proof. apply still_ret. Qed.
Lemma still_get k : still (Steps.engine_get k). Proof. by apply still_atom. Qed.
Lemma still_scan p : still (Steps.engine_scan_prefix p). Proof. by apply still_atom. Qed.
Lemma still_versions_set k v : still (Steps.versions_set k v). Proof. by apply still_atom. Qed.
Lemma still_versions_remove k : still (Steps.versions_remove k). Proof. by apply still_atom. Qed.
Lemma still_versions_clear : still Steps.versions_clear. Proof. by apply still_atom. Qed.
Lemma still_now_ms : still Steps.now_ms. Proof. by apply still_atom. Qed.
Lemma still_next_version : still Steps.next_version. Proof. by apply still_atom. Qed.
Lemma single_write b : single (Steps.engine_write b). Proof. apply single_atom. Qed.

(** The loops over the items of a scan make no call. *)
Lemma still_calm {A} (m : M E A) : calm m -> still (atom m).
Proof. intros Hm. apply still_atom. intros s. apply Hm. Qed.

Lemma still_count items n : still (Steps.count_items items n).
Proof. apply still_calm, calm_count. Qed.
Lemma still_delete items b : still (Steps.delete_items items b).
Proof. apply still_calm, calm_delete_items. Qed.
Lemma still_collect {A} (f : bytes -> bytes -> A) items out : still (Steps.collect_items f items out).
Proof. apply still_calm, calm_collect. Qed.
Lemma still_zrange_loop n lo hi rank items out : still (Steps.zrange_loop n lo hi rank items out).
Proof. apply still_calm, calm_zrange_loop. Qed.
Lemma still_by_score_loop n mn mne mx mxe items out : still (Steps.zrange_by_score_loop n mn mne mx mxe items out).
Proof. apply still_calm, calm_by_score_loop. Qed.

Create HintDb crash discriminated.
#[local] Hint Resolve still_throw still_lift still_get still_scan still_versions_set still_versions_remove
  still_versions_clear still_now_ms still_next_version single_write still_count still_delete still_collect
  still_zrange_loop still_by_score_loop : crash.
#[local] Hint Extern 1 (still (mret _)) => apply still_ret : crash.

(** Follow the text of the program. *)
Ltac still_text :=
  repeat first
    [ solve [auto 2 with crash] | progress unfold Steps.some_or | progress cbv beta zeta
    | match goal with
      | |- still (_ ≫= _) => apply still_bind; [|intros ?]
      | |- still (match _ with _ => _ end) => case_match
      end ].

Ltac single_text :=
  repeat first
    [ solve [auto 2 with crash] | progress unfold Steps.some_or | progress cbv beta zeta
    | match goal with
      | |- single (_ ≫= _) => first
          [ apply single_bind; [solve [still_text]|intros ?]
          | apply single_last; [|intros ?; solve [still_text]] ]
      | |- single (match _ with _ => _ end) => case_match
      end
    | apply single_still; solve [still_text] ].

Lemma still_load_meta k : still (Steps.load_meta k).
Proof. unfold Steps.load_meta. still_text. Qed.
#[local] Hint Resolve still_load_meta : crash.

Lemma still_expired m : still (Steps.expired m).
Proof. unfold Steps.expired. still_text. Qed.
#[local] Hint Resolve still_expired : crash.

Lemma still_new_composite k ty : still (Steps.new_composite_meta k ty).
Proof. unfold Steps.new_composite_meta. still_text. Qed.
#[local] Hint Resolve still_new_composite : crash.

Lemma single_delete k : single (Steps.logical_delete k).
Proof. unfold Steps.logical_delete. single_text. Qed.
#[local] Hint Resolve single_delete : crash.

Lemma single_load_live k : single (Steps.load_live_meta k).
Proof. unfold Steps.load_live_meta. single_text. Qed.
#[local] Hint Resolve single_load_live : crash.

Lemma still_hset_loop k ver pairs fc c b : still (Steps.hset_loop k ver pairs fc c b).
Proof. revert fc c b. induction pairs as [|[f v] pairs IH]; intros fc c b; cbn [Steps.hset_loop]; still_text. Qed.
Lemma still_hdel_loop k ver l fc c b : still (Steps.hdel_loop k ver l fc c b).
Proof. revert fc c b. induction l as [|f l IH]; intros fc c b; cbn [Steps.hdel_loop]; still_text. Qed.
Lemma still_sadd_loop k ver l seen n c b : still (Steps.sadd_loop k ver l seen n c b).
Proof. revert seen n c b. induction l as [|m l IH]; intros seen n c b; cbn [Steps.sadd_loop]; still_text. Qed.
Lemma still_srem_loop k ver l seen n c b : still (Steps.srem_loop k ver l seen n c b).
Proof. revert seen n c b. induction l as [|m l IH]; intros seen n c b; cbn [Steps.srem_loop]; still_text. Qed.
Lemma still_zadd_loop k ver l n c b : still (Steps.zadd_loop k ver l n c b).
Proof. revert n c b. induction l as [|[m x] l IH]; intros n c b; cbn [Steps.zadd_loop]; still_text. Qed.
Lemma still_zrem_loop k ver l seen n c b : still (Steps.zrem_loop k ver l seen n c b).
Proof. revert seen n c b. induction l as [|m l IH]; intros seen n c b; cbn [Steps.zrem_loop]; still_text. Qed.
Lemma still_pop_loop fuel k ver n left h t out b : still (Steps.pop_loop fuel k ver n left h t out b).
Proof. revert h t out b. induction fuel as [|fuel IH]; intros h t out b; cbn [Steps.pop_loop]; still_text. Qed.
Lemma still_lrange_loop k ver h l out : still (Steps.lrange_loop k ver h l out).
Proof. revert out. induction l as [|x l IH]; intros out; cbn [Steps.lrange_loop]; still_text. Qed.

#[local] Hint Resolve still_hset_loop still_hdel_loop still_sadd_loop still_srem_loop still_zadd_loop still_zrem_loop
  still_pop_loop still_lrange_loop : crash.

(** ** Operations on a key *)

(** The records along an operation on [k] are those of its start, those it finds
    once its expired key is gone, or those of its end. *)
Definition keyed {A} (k : bytes) (p : Prog E A) (s : St) : Prop :=
  along (fun s' => same_records s s' \/ same_records (Store.load_live_meta k s).1 s' \/
                   same_records (solo p s).1 s') p s.

(** A program that loads the key, and writes nothing more. *)
Definition loads {A} (k : bytes) (p : Prog E A) : Prop :=
  forall s, single_at p s /\ same_records (Store.load_live_meta k s).1 (solo p s).1.

Lemma loads_live k : loads k (Steps.load_live_meta k).
Proof. intros s. split; [apply single_load_live|]. by rewrite (same_load_live_meta k s). Qed.

Lemma loads_bind {A C} k (p : Prog E A) (f : A -> Prog E C) : loads k p -> (forall a, still (f a)) -> loads k (p ≫= f).
Proof.
  intros Hp Hf s. destruct (Hp s) as [Hs He].
  split; [by apply single_last_at|]. etransitivity; [done|by apply solo_still].
Qed.

Lemma loads_typed k ty : loads k (Steps.load_typed k ty).
Proof. apply loads_bind; [apply loads_live|]. intros o. still_text. Qed.

Lemma loads_or_new k ty : loads k (Steps.load_or_new_counted k ty).
Proof. apply loads_bind; [apply loads_typed|]. intros o. still_text. Qed.

Lemma keyed_bind {A C} k (p : Prog E A) (f : A -> Prog E C) s :
  loads k p -> (forall s1 a, solo p s = (s1, Ok a) -> single_at (f a) s1) -> keyed k (p ≫= f) s.
Proof.
  intros Hp Hf. destruct (Hp s) as [Hs He]. apply along_bind.
  - eapply along_weaken; [apply Hs|]. intros s' [?|?]; [by left|right; left]. by transitivity (solo p s).1.
  - intros s1 a Ha. rewrite (solo_then p f s s1 a Ha). rewrite Ha in He.
    eapply along_weaken; [by apply Hf|]. intros s' [?|?]; [right; left; by transitivity s1|by right; right].
Qed.

Lemma keyed_still {A C} k (p : Prog E A) (f : A -> Prog E C) s :
  keyed k p s -> (forall a, still (f a)) -> keyed k (p ≫= f) s.
Proof.
  intros Hp Hf. pose proof (solo_still p f s Hf) as He. apply along_still; [| |by right; right|done].
  - intros s1 s2 H12 [?|[?|?]]; [left|right; left|right; right]; by transitivity s1.
  - eapply along_weaken; [apply Hp|]. intros s' [?|[?|Hs]]; [by left|by right; left|right; right]. by rewrite <- He.
Qed.

Lemma keyed_load {A C} k (p : Prog E A) (f : A -> Prog E C) s :
  loads k p -> (forall a, single (f a)) -> keyed k (p ≫= f) s.
Proof. intros Hp Hf. apply keyed_bind; [done|]. intros s1 a _. apply Hf. Qed.

(** ** Removals *)

(** What a removal does with the key it finds: nothing, or it reads and then
    writes once, or deletes the key after its last entries. *)
Definition removes {A} (k : bytes) (p : Prog E A) : Prop :=
  still p \/ exists X (loop : Prog E X) rest, p = loop ≫= rest /\ still loop /\
    forall x s, single_at (rest x) s \/
      (reliable (engine s) -> contents (engine (solo (rest x) s).1) !! meta_key k = None).

Lemma solo_emptied {A} k b (a : A) s : reliable (engine s) ->
  contents (engine (solo (_ ← (_ ← Steps.engine_write b; Steps.logical_delete k); mret a) s).1) !! meta_key k = None.
Proof.
  intros Hr. destruct (engine_write_ok s b Hr) as (e1 & Hw1 & _ & Hr1 & _).
  destruct (engine_write_ok (with_engine_state s e1) (batch_delete WriteBatch_new (meta_key k)) Hr1)
    as (e2 & Hw2 & Hc2 & _ & _).
  cbn -[engine_write batch_delete]. rewrite Hw1. cbn -[engine_write batch_delete]. rewrite Hw2. cbn -[batch_delete].
  rewrite Hc2, apply_batch_delete. apply lookup_delete_eq.
Qed.

Lemma single_finish {A} (p : Prog E unit) (a : A) : single p -> single (_ ← p; mret a).
Proof. intros Hp. apply single_last; [done|]. intros u. apply still_ret. Qed.

Lemma removes_finish {A} k m count removed b (a : A) s :
  let p := _ ← Steps.finish_removal k m count removed b; mret a in
  single_at p s \/ (reliable (engine s) -> contents (engine (solo p s).1) !! meta_key k = None).
Proof.
  cbv zeta. unfold Steps.finish_removal. destruct (0 <? removed).
  - destruct (count =? 0); [right; apply solo_emptied|left]. by apply single_finish, single_write.
  - left. by apply single_finish, single_still, still_ret.
Qed.

Lemma keyed_removal {A} B s d k ty (body : Meta -> Prog E A) none s' r d' :
  let p := o ← Steps.load_typed k ty; match o with None => mret none | Some m => body m end in
  Inv_at B s d -> valid_key k -> (forall m, removes k (body m)) ->
  solo p s = (s', r) -> Inv s' d' -> ~ (is_Some (live (peek_ms s) k d) /\ d' !! k = None) -> keyed k p s.
Proof.
  intros p HI Hk Hbody Hs [B' HI'] Hsafe. apply keyed_bind; [apply loads_typed|].
  intros s1 [m|] Hl; [|by apply single_still, still_ret]. unfold p in Hs. rewrite (solo_then _ _ _ _ _ Hl) in Hs.
  destruct (Hbody m) as [Hstill|(X & loop & rest & Hbm & Hloop & Hrest)]; [by apply single_still|].
  rewrite Hbm in Hs |- *. apply single_bind_at; [done|]. intros s2 x Hx.
  destruct (Hrest x s2) as [?|Hnone]; [done|]. destruct Hsafe.
  rewrite (same_load_typed k ty s) in Hl. rewrite (solo_then loop rest s1 s2 x Hx) in Hs. rewrite Hs in Hnone.
  destruct (load_live_ok B s d k HI Hk) as (s3 & HI3 & _ & _ & Hcase). unfold load_typed in Hl. split.
  - destruct (live (peek_ms s) k d); [done|]. by rewrite (bind_ok _ _ _ _ _ Hcase) in Hl.
  - assert (Hr : reliable (engine s2)).
    { pose proof (still_end loop s1 Hloop) as He. rewrite Hx in He. cbn in He. rewrite He.
      destruct (live (peek_ms s) k d) as [o|].
      - destruct Hcase as (ver & Hc & _). rewrite (bind_ok _ _ _ _ _ Hc) in Hl. case_decide; [|done].
        injection Hl as <- _. apply (inv_reliable _ _ _ HI3).
      - by rewrite (bind_ok _ _ _ _ _ Hcase) in Hl. }
    specialize (Hnone Hr). destruct (d' !! k) as [o|] eqn:Ho; [|done].
    pose proof (kr_obj _ _ _ _ _ (rep_key _ _ _ _ (inv_rep _ _ _ HI') k Hk)) as Hko. rewrite Ho in Hko.
    destruct Hko as (ver & Hat & _). apply at_meta in Hat. cbn in Hnone. congruence.
Qed.

(** ** Every operation *)

Lemma removes_hdel k l m :
  removes k ('(fc, removed, batch) ← Steps.hdel_loop k (version m) l (field_count m) 0 WriteBatch_new;
             _ ← Steps.finish_removal k m fc removed batch; mret removed).
Proof.
  right. do 3 eexists. split; [reflexivity|]. split; [apply still_hdel_loop|]. intros [[fc removed] batch] s. apply removes_finish.
Qed.

Lemma removes_srem k l m :
  removes k ('(count, removed, batch) ← Steps.srem_loop k (version m) l ∅ (field_count m) 0 WriteBatch_new;
             _ ← Steps.finish_removal k m count removed batch; mret removed).
Proof.
  right. do 3 eexists. split; [reflexivity|]. split; [apply still_srem_loop|]. intros [[n removed] batch] s. apply removes_finish.
Qed.

Lemma removes_zrem k l m :
  removes k ('(count, removed, batch) ← Steps.zrem_loop k (version m) l ∅ (field_count m) 0 WriteBatch_new;
             _ ← Steps.finish_removal k m count removed batch; mret removed).
Proof.
  right. do 3 eexists. split; [reflexivity|]. split; [apply still_zrem_loop|]. intros [[n removed] batch] s. apply removes_finish.
Qed.

Lemma removes_pop k n left m :
  removes k ('(head, tail) ← Steps.some_or (list_bounds m) undecodable_bounds;
             '(head, tail, out, batch) ←
               Steps.pop_loop (Z.to_nat (tail - head)) k (version m) n left head tail [] WriteBatch_new;
             _ ← match out with
                 | [] => mret tt
                 | _ :: _ =>
                     if head =? tail then _ ← Steps.engine_write batch; Steps.logical_delete k
                     else Steps.engine_write
                            (batch_put batch (meta_key k) (Meta_encode (set_list_bounds m head tail)))
                 end;
             mret out).
Proof.
  destruct (list_bounds m) as [[h t]|]; [|left; apply still_ret].
  right. exists _, (Steps.pop_loop (Z.to_nat (t - h)) k (version m) n left h t [] WriteBatch_new).
  eexists. split; [reflexivity|]. split; [apply still_pop_loop|]. intros [[[h2 t2] out] b] s.
  destruct out as [|x out]; [left; by apply single_finish, single_still, still_ret|].
  destruct (h2 =? t2); [right; apply solo_emptied|left]. by apply single_finish, single_write.
Qed.

(** The states an operation passes through hold its first records, those its load
    leaves, or its last. *)
Definition waypoint (s : St) (op : Op) (s' : St) : Prop :=
  same_records s s' \/
  (exists k, op_target op = Some k /\ same_records (Store.load_live_meta k s).1 s') \/
  same_records (exec op s).1 s'.

Lemma waypoint_keyed {A} (f : A -> Reply) k (p : Prog E A) op s :
  op_target op = Some k -> program op = call f p -> keyed k p s -> along (waypoint s op) (call f p) s.
Proof.
  intros Hk Hprog Hp. assert (Hc : keyed k (call f p) s) by (apply keyed_still; [done|intros a; apply still_ret]).
  eapply along_weaken; [exact Hc|]. intros s' [?|[?|Hs]]; [by left|right; left; eauto|right; right].
  by rewrite <- (same_program op s), Hprog.
Qed.

Lemma waypoint_single {A} (f : A -> Reply) (p : Prog E A) op s :
  program op = call f p -> single p -> along (waypoint s op) (call f p) s.
Proof.
  intros Hprog Hp. eapply along_weaken; [apply single_last; [exact Hp|intros a; apply still_ret]|].
  intros s' [?|Hs]; [by left|right; right]. by rewrite <- (same_program op s), Hprog.
Qed.

Ltac by_load :=
  match goal with
  | |- along (waypoint ?s ?op) _ _ =>
      let k := eval cbn in (op_target op) in
      match k with Some ?k => apply (waypoint_keyed _ k); [done|reflexivity|] end
  end;
  lazymatch goal with
  | |- keyed ?k ?p ?s =>
      let q := eval red in p in
      lazymatch q with
      | Steps.load_live_meta _ ≫= _ => apply (keyed_load k _ _ s (loads_live k))
      | Steps.load_typed _ ?ty ≫= _ => apply (keyed_load k _ _ s (loads_typed k ty))
      | Steps.load_or_new_counted _ ?ty ≫= _ => apply (keyed_load k _ _ s (loads_or_new k ty))
      end
  end; intros ?; unfold Steps.put_meta; single_text.

Ltac by_removal B lem same_lem refines_lem :=
  let s' := fresh in let Hs := fresh in let HI' := fresh in
  edestruct refines_lem as (s' & Hs & HI' & _); [eassumption..|];
  eapply waypoint_keyed; [done|reflexivity|];
  eapply keyed_removal; [eassumption|eassumption|intros m; apply lem|etransitivity; [apply same_lem|exact Hs]|exact HI'|assumption].

Lemma program_waypoints s d op :
  Inv s d -> op_pre s d op -> ~ empties (peek_ms s) (peek_ms2 s) op d -> along (waypoint s op) (program op) s.
Proof.
  intros [B HI] Hpre Hsafe. destruct op; cbn [op_pre empties program] in *;
    repeat match goal with Hc : _ /\ _ |- _ => destruct Hc end.
  all: try (by_load; fail).
  all: try (apply waypoint_single; [reflexivity|]; unfold Steps.set, Steps.put_meta, Steps.dbsize, Steps.compact, Steps.flush_all; single_text; fail).
  - by_removal B removes_hdel same_hdel hdel_refines.
  - apply (waypoint_keyed _ k); [done..|]. apply keyed_still; [|intros; apply still_ret].
    apply keyed_load; [apply loads_typed|]. intros o. single_text.
  - by_removal B removes_srem same_srem srem_refines.
  - by_removal B removes_zrem same_zrem zrem_refines.
  - by_removal B removes_pop same_pop pop_refines.
  - apply waypoint_single; [done|]. apply single_atom.
Qed.

(** ** The restart *)

(** The databases a crash during an operation may leave. *)
Definition crash_outcome (s : St) (d : Db) (op : Op) (d' : Db) : Prop :=
  d' = d \/ (exists k, op_target op = Some k /\ d' = purge (peek_ms s) k d) \/
  d' = (spec (peek_ms s) (peek_ms2 s) op d).1.

Lemma waypoint_stored s d op s' :
  Inv s d -> op_pre s d op -> waypoint s op s' ->
  exists d' vm B, crash_outcome s d op d' /\ rep (records s') vm B d'.
Proof.
  intros HI Hpre [Hs|[(k & Hk & Hs)|Hs]]; rewrite Hs.
  - destruct HI as [B HI]. exists d, (versions s), B. split; [by left|apply HI].
  - destruct HI as [B HI].
    assert (Hvalid : valid_key k) by (destruct op; cbn in *; try done; injection Hk as ->; tauto).
    destruct (load_live_ok B s d k HI Hvalid) as (t & HI' & _ & _ & Hcase).
    assert ((Store.load_live_meta k s).1 = t) as ->.
    { destruct (live (peek_ms s) k d); [|by rewrite Hcase]. destruct Hcase as (ver & -> & _). done. }
    exists (purge (peek_ms s) k d), (versions t), B. split; [right; left; eauto|apply HI'].
  - destruct (refines_answer _ _ _ (exec_refines s d op HI Hpre)) as [_ [B HI']].
    exists (spec (peek_ms s) (peek_ms2 s) op d).1, (versions (exec op s).1), B. split; [by right; right|apply HI'].
Qed.

Lemma rep_restart m vm B B' d : rep m vm B d -> versions_below B' m -> exists vm', rep m vm' B' d.
Proof.
  intros Hrep Hm. eexists. eapply rep_bound; [|intros k v Hv|done].
  - eapply rep_rebuilt; [done|]. intros k v. by eapply rebuilt_lookup.
  - apply (rebuilt_lookup m vm B d) in Hv as (Hk & o & _ & _ & Hat); [|done].
    apply (below_metadata _ _ Hm k _ (meta_of v o) (at_meta _ _ _ _ _ Hat)). apply Meta_decode_of; apply Hat.
Qed.


End Crash.

(** ** The exception, and a witness *)

(** A removal that empties its key, cut between its two writes: after the restart
    the key is still there with its old count and no fields. *)
Lemma crash_leaves_empty_key :
  let s := after (hset (B "h") [(B "f", B "1")]) steady_state in
  let s' := (halted 3 (program (OHdel (B "h") [B "f"])) s).1 in
  let s1 := after with_engine (mk_State (mk_RocksEngine (db (engine s')) None) ∅ 0 (clock s) (tick s)) in
  answer (hlen (B "h")) s1 = Ok 1 /\ answer (hgetall (B "h")) s1 = Ok [].
Proof. vm_compute. split; reflexivity. Qed.

