(* ===== verification/Isolation.v ===== *)
(** * Operations on different keys do not interfere

    What interleaving cannot do.  An operation whose steps come among steps that
    spare its key ([among]) ends as if it had run alone, with the version clock
    and the clock readings it found ([among_solo]); so it answers as the abstract
    database does at times read during the run ([operation_isolated]).  Clients.v
    draws the conclusion for whole connections. *)

From S2P Require Import Prelude F64 Encoding Engine Gc Rocks Store StoreSpec StoreRep StoreInv StoreGeneric StoreRefine.
From S2P Require Import StoreDurability Programs Locality.

Section Isolation.
Context {E : Type} `{EngineLaws E}.

Abbreviation St := (State E).
Implicit Types (k : bytes) (s t : St) (d : Db).

(** ** A program among the steps of others *)

(** What others may do while a program on [k] waits: anything to other keys; the
    clocks only advance. *)
Definition others (k : bytes) (s s' : St) : Prop :=
  agree k s s' /\ later s s' /\ VERSION_CLOCK s <= VERSION_CLOCK s'.

Lemma others_refl k s : reliable (engine s) -> others k s s.
Proof. intros Hr. split; [by apply agree_refl|]. split; [done|lia]. Qed.

Lemma others_trans k s1 s2 s3 : others k s1 s2 -> others k s2 s3 -> others k s1 s3.
Proof.
  intros (Ha1 & Hl1 & Hv1) (Ha2 & Hl2 & Hv2).
  split; [by eapply agree_trans|]. split; [by etransitivity|lia].
Qed.

(** The program's own steps, as long as the version clock does not overflow, in
    between those of others. *)
Inductive among {A} (k : bytes) : Prog E A -> St -> Prog E A -> St -> Prop :=
  | among_wait p s s' : others k s s' -> among k p s p s'
  | among_step C (m : M E C) K s s1 s2 r p' s' :
      others k s s1 -> m s1 = (s2, r) -> VERSION_CLOCK s1 <= VERSION_CLOCK s2 ->
      among k (K r) s2 p' s' -> among k (Step C m K) s p' s'.

Lemma among_others {A} k (p p' : Prog E A) s s1 s2 :
  among k p s p' s1 -> others k s1 s2 -> among k p s p' s2.
Proof.
  induction 1 as [p s s' Ho|C m K s s1' s2' r p' s' Ho Hm Hv _ IH]; intros Ho2.
  - apply among_wait. by eapply others_trans.
  - eapply among_step; eauto.
Qed.

Lemma among_own {A} k (p : Prog E A) C (m : M E C) K s s1 s2 r :
  among k p s (Step C m K) s1 -> m s1 = (s2, r) -> VERSION_CLOCK s1 <= VERSION_CLOCK s2 ->
  reliable (engine s2) -> among k p s (K r) s2.
Proof.
  intros Ha Hm Hv Hr. remember (Step C m K) as q eqn:Hq.
  revert Hm Hv. induction Ha as [p s s' Ho|C' m' K' s s1' s2' r' p' s' Ho Hm' Hv' _ IH]; intros Hm Hv; subst.
  - eapply among_step; [done..|]. by apply among_wait, others_refl.
  - eapply among_step; [done..|]. by apply IH.
Qed.

(** The program with its own view of the key's tables, a version clock [v] and a
    wall clock [clk]. *)
Definition with_clocks (t : St) (v : Z) (clk : nat -> Z) : St :=
  mk_State (engine t) (versions t) v clk (tick t).

Lemma agree_with_clocks k s t v clk : agree k s t -> agree k s (with_clocks t v clk).
Proof. by intros []. Qed.

(** The run alone that a run among others amounts to: its [i]-th clock reading is
    the [f i]-th of the shared clock, its version clock starts at [vc], and it has
    made the readings before [n] when the program ends. *)
Definition equals_solo {A} (k : bytes) (b : bool) (p : Prog E A) (s s' : St) (r : result EngineError A) (t : St)
  (f : nat -> nat) (vc : Z) (n : nat) : Prop :=
  (forall i, (tick t <= i)%nat -> (tick s <= f i <= f (S i))%nat) /\
  VERSION_CLOCK s <= vc <= VERSION_CLOCK s' /\ (tick t <= n)%nat /\ (forall j, f (n + j) = tick s' + j)%nat /\
  forall clk v, (forall i, (tick t <= i)%nat -> clk i = clock s (f i)) -> (b = true -> v = vc) ->
    exists t', solo p (with_clocks t v clk) = (t', r) /\ agree k s' t' /\ clock t' = clk /\ tick t' = n /\
      (VERSION_CLOCK t' = v \/ VERSION_CLOCK t' <= VERSION_CLOCK s').

Lemma equals_solo_end {A} k b s s' (r : result EngineError A) t :
  others k s s' -> agree k s t ->
  equals_solo k b (Ret r) s s' r t (fun i => (tick s' + (i - tick t))%nat) (VERSION_CLOCK s) (tick t).
Proof.
  intros (Ha & [Hclk Htick] & Hv) Ht. unfold equals_solo. split_and!; [|lia|lia|lia|intros j; lia|].
  - intros i Hi. lia.
  - intros clk v _ _. exists (with_clocks t v clk). split; [done|]. split; [|by auto].
    apply agree_with_clocks. eapply agree_trans; [by apply agree_sym|done].
Qed.

(** One step of each kind, before a run that amounts to a run alone. *)
Section Steps.
Context {A C : Type} (k : bytes) (m : M E C) (K : result EngineError C -> Prog E A) (s s1 s2 s' : St).
Context (r0 : result EngineError C) (r : result EngineError A) (t : St).
Hypotheses (Ho : others k s s1) (Hm : m s1 = (s2, r0)) (Ht : agree k s t).

Lemma agree_before : agree k s1 t.
Proof using Ho Ht. eapply agree_trans; [apply agree_sym, Ho|exact Ht]. Qed.

Lemma equals_solo_plain b :
  plain k m -> (forall t1, agree k s2 t1 -> exists f vc n, equals_solo k b (K r0) s2 s' r t1 f vc n) ->
  exists f vc n, equals_solo k b (Step C m K) s s' r t f vc n.
Proof using Ho Hm Ht.
  intros (g & Hg & Htouch) IH. pose proof agree_before as Ha1. destruct Ho as (_ & [Hclk Htick] & Hv).
  rewrite Hg in Hm. destruct (Htouch s1 (agree_left _ _ _ Ha1)) as [_ Hother].
  assert (Hsame : clock s2 = clock s1 /\ tick s2 = tick s1 /\ VERSION_CLOCK s2 = VERSION_CLOCK s1).
  { revert Hm. unfold on_tables. destruct (g _ _) as [[e vt] r']. by intros [= <- _]. }
  destruct Hsame as (Hs1 & Hs2 & Hs3).
  destruct (IH (on_tables g t).1) as (f & vc & n & Hf & Hvc & Hn & Hend & Hrun).
  { destruct (Hother t Ha1) as [Ha2 _]. by rewrite Hm in Ha2. }
  assert (Htk : tick (on_tables g t).1 = tick t) by (unfold on_tables; by destruct (g _ _) as [[e vt] r']).
  rewrite Htk in Hf, Hn, Hrun. exists f, vc, n. split_and!; [|lia|lia|lia|done|].
  - intros i Hi. specialize (Hf i Hi). lia.
  - intros clk v Hclk' Hv'. cbn [solo]. rewrite Hg.
    destruct (Hother (with_clocks t v clk)) as [_ Hr]; [by apply agree_with_clocks|]. rewrite Hm in Hr. cbn [snd] in Hr.
    destruct (Hrun clk v) as (t' & Hsolo & Hres); [intros i Hi; rewrite Hs1, Hclk; by apply Hclk'|done|].
    exists t'. split; [|exact Hres]. rewrite <- Hsolo, Hr. clear -t.
    unfold on_tables, with_clocks. cbn [engine versions VERSION_CLOCK clock tick]. by destruct (g _ _) as [[e vt] r'].
Qed.

(** The clock's reading, put in front of the readings of the rest. *)
Definition reading (i : nat) (f : nat -> nat) (j : nat) : nat := if decide (j = tick t) then i else f j.

Lemma reading_spec f :
  (forall i, (S (tick t) <= i)%nat -> (S (tick s1) <= f i <= f (S i))%nat) ->
  let g := reading (tick s1) f in
  (forall i, (tick t <= i)%nat -> (tick s <= g i <= g (S i))%nat) /\ g (tick t) = tick s1 /\
  (forall i, (S (tick t) <= i)%nat -> g i = f i).
Proof using Ho.
  intros Hf g. destruct Ho as (_ & [_ Htick] & _).
  assert (Hlater : forall i, (S (tick t) <= i)%nat -> g i = f i)
    by (intros i Hi; unfold g, reading; by rewrite decide_False by lia).
  assert (Hhere : g (tick t) = tick s1) by (unfold g, reading; by rewrite decide_True).
  split_and!; [|done|done]. intros i Hi. destruct (decide (i = tick t)) as [->|Hne].
  - rewrite Hhere, Hlater by lia. specialize (Hf (S (tick t))). lia.
  - rewrite !Hlater by lia. specialize (Hf i). lia.
Qed.

Lemma equals_solo_clock b :
  reads_clock m -> (forall t1, agree k s2 t1 -> exists f vc n, equals_solo k b (K r0) s2 s' r t1 f vc n) ->
  exists f vc n, equals_solo k b (Step C m K) s s' r t f vc n.
Proof using Ho Hm Ht.
  intros (g & Hg) IH. pose proof agree_before as Ha1. rewrite Hg in Hm. injection Hm as <- <-.
  destruct (IH (ticked t)) as (f & vc & n & Hf & Hvc & Hn & Hend & Hrun); [by destruct Ha1|].
  cbn [ticked tick VERSION_CLOCK clock] in *. pose proof (reading_spec f Hf) as (Hmono & Hhere & Hlater).
  destruct Ho as (_ & [Hclk Htick] & Hv).
  exists (reading (tick s1) f), vc, n. split_and!; [done|lia|lia|lia| |].
  - intros j. rewrite Hlater by lia. apply Hend.
  - intros clk v Hclk' Hv'. cbn [solo]. rewrite Hg.
    change (clock (with_clocks t v clk) (tick (with_clocks t v clk))) with (clk (tick t)).
    rewrite Hclk', Hhere, <- Hclk by lia. apply (Hrun clk v); [|done].
    intros i Hi. rewrite Hclk, Hclk', Hlater by lia. done.
Qed.

Lemma equals_solo_version :
  takes_version m -> VERSION_CLOCK s1 <= VERSION_CLOCK s2 ->
  (forall t1, agree k s2 t1 -> exists f vc n, equals_solo k false (K r0) s2 s' r t1 f vc n) ->
  exists f vc n, equals_solo k true (Step C m K) s s' r t f vc n.
Proof using Ho Hm Ht.
  intros (g & Hg) Hle IH. pose proof agree_before as Ha1. cbv zeta in Hg. rewrite Hg in Hm. injection Hm as <- <-.
  destruct (IH (ticked t)) as (f & vc & n & Hf & Hvc & Hn & Hend & Hrun); [by destruct Ha1|].
  cbn [ticked tick VERSION_CLOCK clock] in *. pose proof (reading_spec f Hf) as (Hmono & Hhere & Hlater).
  destruct Ho as (_ & [Hclk Htick] & Hv).
  exists (reading (tick s1) f), (VERSION_CLOCK s1), n. split_and!; [done|lia|lia|lia| |].
  - intros j. rewrite Hlater by lia. apply Hend.
  - intros clk v Hclk' Hv'. cbn [solo]. rewrite Hg.
    change (clock (with_clocks t v clk) (tick (with_clocks t v clk))) with (clk (tick t)).
    cbn [with_clocks VERSION_CLOCK engine versions clock tick].
    rewrite Hclk', Hhere, <- Hclk, (Hv' eq_refl) by lia.
    set (v2 := bump (VERSION_CLOCK s1) _) in *.
    destruct (Hrun clk v2) as (t' & Hsolo & Ha' & Hc' & Ht' & Hv''); [|done|].
    + intros i Hi. rewrite Hclk, Hclk', Hlater by lia. done.
    + exists t'. split; [exact Hsolo|]. split; [done|]. split; [done|]. split; [done|]. right.
      destruct Hv'' as [->|?]; lia.
Qed.
End Steps.

(** A run among others amounts to a run alone. *)
Lemma among_solo {A} k (Q : A -> Prop) b (p : Prog E A) s s' r t :
  among k p s (Ret r) s' -> local k Q b p -> agree k s t ->
  exists f vc n, equals_solo k b p s s' r t f vc n.
Proof.
  intros Ha. remember (Ret r) as q eqn:Hq. revert b t Hq.
  induction Ha as [p s s' Ho|C m K s s1 s2 r0 p' s' Ho Hm Hv _ IH]; intros b t -> Hl Ht.
  - eexists _, _, _. by apply equals_solo_end.
  - cbn [local] in Hl. destruct Hl as [[Hp Hl]|[[Hp Hl]|(-> & Hp & Hl)]].
    + eapply equals_solo_plain; eauto.
    + eapply equals_solo_clock; eauto.
    + eapply equals_solo_version; eauto.
Qed.

(** ** One operation among operations on other keys *)

(** The store holds key [k] as the database [d] does; what it holds for other
    keys does not matter. *)
Definition holds (k : bytes) (s : St) (d : Db) : Prop :=
  exists B t, agree k s t /\ Inv_at B t d /\ fresh_above s B /\ in_u64 (VERSION_CLOCK s).

Lemma Inv_holds k s d : Inv s d -> holds k s d.
Proof. intros [B HI]. exists B, s. split; [apply agree_refl, HI|]. split; [done|]. split; apply HI. Qed.

(** The [i]-th reading of the wall clock, as a time. *)
Definition time_at (s : St) (i : nat) : Z := as_millis (Z.max 0 (clock s i)).

Lemma operation_isolated op k s s' r d :
  op_target op = Some k -> valid_key k -> holds k s d -> clock_left s' -> op_pre s' d op ->
  clock s' = clock s -> VERSION_CLOCK s <= VERSION_CLOCK s' -> among k (program op) s (Ret r) s' ->
  exists i j, (tick s <= i <= j)%nat /\ (i <= tick s')%nat /\ (j <= S (tick s'))%nat /\
    r = (spec (time_at s i) (time_at s j) op d).2 /\
    holds k s' (spec (time_at s i) (time_at s j) op d).1.
Proof.
  intros Hop Hk (B & t & Ha & HI & Hf & Hu) Hleft Hpre Hck Hle Hrun.
  destruct (among_solo k (fun _ => True) true _ s s' r t Hrun) as (f & vc & n & Hmono & Hvc & Hn & Hend & Hsolo);
    [by apply local_program|done|].
  set (clk := fun i => clock s (f i)). set (t0 := with_clocks t vc clk).
  destruct (Hsolo clk vc) as (t' & Hx & Ha' & Hclk' & Htick' & Hv'); [done|done|].
  rewrite same_program in Hx. fold t0 in Hx.
  assert (HI0 : Inv_at B t0 d).
  { destruct HI as [H1' H2' H3' H4' H5' H6']. split; [done..| | |done|done].
    - unfold clock_left, in_u64, u64_max in *. cbn. lia.
    - destruct Hf as [Hf|Hf]; [left; cbn; lia|]. right. intros i Hi. apply Hf, Hmono. done. }
  assert (Hleft0 : clock_left t0) by (unfold clock_left in *; cbn; lia).
  destruct (exec_refines t0 d op) as (t1 & Hx1 & [B' HI'] & _);
    [by exists B|by destruct op; cbn [op_pre] in *; tauto|].
  rewrite Hx in Hx1. injection Hx1 as <- Hr.
  pose proof (Hmono (tick t) ltac:(lia)) as Hm1. pose proof (Hmono (S (tick t)) ltac:(lia)) as Hm2.
  assert (Hupto : forall i j, (tick t <= i <= j)%nat -> (f i <= f j)%nat).
  { intros i j [Hi Hj]. induction Hj as [|j Hj IH]; [done|]. specialize (Hmono j). lia. }
  exists (f (tick t)), (f (S (tick t))). split; [lia|]. split; [|split; [|split]].
  - pose proof (Hupto (tick t) n) as Hfirst. specialize (Hend 0%nat). rewrite !Nat.add_0_r in Hend. lia.
  - pose proof (Hupto (S (tick t)) (n + 1)%nat) as Hlast. rewrite Hend in Hlast. lia.
  - exact Hr.
  - exists B', t'. split; [done|]. split; [exact HI'|]. split; [|unfold clock_left, in_u64, u64_max in *; lia].
    destruct (inv_fresh _ _ _ HI') as [Hb|Hb].
    + left. change (VERSION_CLOCK t0) with vc in *. destruct Hv' as [Hv'|Hv']; lia.
    + right. intros i Hi. specialize (Hb (n + (i - tick s'))%nat). rewrite Hclk', Htick' in Hb.
      unfold clk in Hb. rewrite Hend in Hb.
      replace (tick s' + (i - tick s'))%nat with i in Hb by lia. rewrite Hck. apply Hb. lia.
Qed.

(** ** Steps spare the other keys *)

Lemma step_spares {A C} k (Q : A -> Prop) b (m : M E C) K s s' r :
  local k Q b (Step C m K) -> m s = (s', r) -> 0 <= VERSION_CLOCK s -> (b = true -> clock_left s) -> reliable (engine s) ->
  (forall k', valid_key k' -> k' <> k -> others k' s s') /\ reliable (engine s') /\ later s s' /\
  VERSION_CLOCK s <= VERSION_CLOCK s' /\
  exists b', local k Q b' (K r) /\ (b' = true -> b = true /\ VERSION_CLOCK s' = VERSION_CLOCK s).
Proof.
  intros Hl Hm Hpos Hc Hr. cbn [local] in Hl. destruct Hl as [[(f & Hf & Ht) Hl]|[[(g & Hg) Hl]|(-> & (g & Hg) & Hl)]].
  - rewrite Hf in Hm. destruct (Ht s Hr) as [Hother Hself].
    destruct (Hself s) as [[Hrel _ _ _] _]; [by apply agree_refl|]. rewrite Hm in Hother, Hrel. cbn [fst] in *.
    assert (Hclk : later s s' /\ VERSION_CLOCK s' = VERSION_CLOCK s).
    { revert Hm. unfold on_tables. destruct (f _ _) as [[e vt] r']. by intros [= <- _]. }
    destruct Hclk as [Hlat Hv]. split_and!; [|done|done|lia|by exists b].
    intros k' Hk' Hne. split; [by apply Hother|]. split; [done|lia].
  - rewrite Hg in Hm. injection Hm as <- <-. assert (later s (ticked s)) by apply later_ticked.
    split_and!; [|done|done|cbn; lia|by exists b]. intros k' _ _. split; [by split|]. split; [done|cbn; lia].
  - cbv zeta in Hg. rewrite Hg in Hm. injection Hm as <- <-.
    set (s2 := mk_State _ _ _ _ _).
    assert (Hv : VERSION_CLOCK s <= VERSION_CLOCK s2).
    { specialize (Hc eq_refl). unfold s2, bump, wrap_u64, clock_left, u64_max in *. cbn [VERSION_CLOCK]. rewrite Z.mod_small by lia. lia. }
    assert (Hlat : later s s2) by (split; [done|cbn; lia]).
    split_and!; [|done|done|done|by exists false]. intros k' _ _. split; [by split|done].
Qed.

(** Run alone, a program is among others that do nothing. *)
Lemma solo_among {A} k (Q : A -> Prop) b (p : Prog E A) s s' r :
  local k Q b p -> solo p s = (s', r) -> 0 <= VERSION_CLOCK s -> (b = true -> clock_left s) ->
  reliable (engine s) -> among k p s (Ret r) s' /\ later s s' /\ VERSION_CLOCK s <= VERSION_CLOCK s'.
Proof.
  revert b s. induction p as [r'|C m K IH]; intros b s Hl Hs Hv Hc Hr.
  - injection Hs as <- <-. split; [by apply among_wait, others_refl|]. split; [done|lia].
  - cbn [solo] in Hs. destruct (m s) as [s1 r1] eqn:Hm.
    destruct (step_spares k Q b m K s s1 r1 Hl Hm Hv Hc Hr) as (_ & Hr1 & Hlat & Hv1 & b1 & Hl1 & Hb1).
    destruct (IH r1 b1 s1 Hl1 Hs) as (Ha & Hlat' & Hv'); [lia| |done|].
    + intros Hb. destruct (Hb1 Hb) as [Hb' Heq]. unfold clock_left. rewrite Heq. by apply Hc.
    + split; [|split; [by etransitivity|lia]]. eapply among_step; [by apply others_refl|done..].
Qed.

(** What [holds] is for: an operation on the key answers as on the database. *)
Lemma holds_answers op k s d :
  op_target op = Some k -> valid_key k -> holds k s d -> clock_left s -> clock_left (exec op s).1 ->
  op_pre s d op ->
  exists i j, (tick s <= i <= j)%nat /\ (i <= tick (exec op s).1)%nat /\ (j <= S (tick (exec op s).1))%nat /\
    (exec op s).2 = (spec (time_at s i) (time_at s j) op d).2 /\
    holds k (exec op s).1 (spec (time_at s i) (time_at s j) op d).1.
Proof.
  intros Hop Hk Hh Hc Hc' Hpre. destruct (exec op s) as [s' r] eqn:Hx. rewrite <- same_program in Hx.
  cbn [fst snd] in *. assert (Hb := Hh). destruct Hb as (B & t & Ha & _ & _ & Hu). unfold in_u64 in Hu.
  destruct (solo_among k (fun _ => True) true (program op) s s' r) as (Hrun & [Hclk _] & Hv);
    [by apply local_program|done|lia|done|by destruct Ha|].
  eapply operation_isolated; eauto. by destruct op; cbn [op_pre] in *; tauto.
Qed.

(** What others do leaves what the store holds for the key. *)
Lemma holds_others k s s' d : holds k s d -> others k s s' -> clock_left s' -> holds k s' d.
Proof.
  intros (B & t & Ha & HI & Hf & Hu) (Ho & [Hck Htick] & Hv) Hc. exists B, t.
  split; [eapply agree_trans; [by apply agree_sym|done]|]. split; [done|].
  unfold clock_left, in_u64, u64_max in *. split; [|lia].
  destruct Hf as [Hf|Hf]; [left; lia|right]. intros i Hi. rewrite Hck. apply Hf. lia.
Qed.

(** The operations that work on one key. *)
Definition has_key (op : Op) : Prop := exists k, op_target op = Some k /\ valid_key k.

Lemma op_pre_clock s s' d op : clock_left s' -> op_pre s d op -> op_pre s' d op.
Proof. intros Hc. destruct op; cbn [op_pre]; tauto. Qed.
End Isolation.
