(* ===== verification/Clients.v ===== *)
(** * Clients that share the store

    The connections of the server at the level of the store: each runs its
    operations one after the other, and the steps of the operations of different
    connections come in any order.  A key that only one connection uses is
    [sequential]: the operations on it are answered as the abstract database does
    one after the other, whatever the other connections do to other keys, races
    between them included. *)

From S2P Require Import Prelude F64 Encoding Engine Gc Rocks Store StoreSpec StoreRep StoreInv StoreGeneric StoreRefine.
From S2P Require Import StoreDurability Programs Locality Budget Scheduling Isolation.

Section Clients.
Context {E : Type} `{EngineLaws E}.

Abbreviation St := (State E).
Implicit Types (k : bytes) (s : St) (d : Db).

(** ** Connections *)

(** The operations answered, the one in progress and those to come. *)
Record Client : Type := mk_Client {
  past : list (Op * result EngineError Reply);
  current : option (Op * Prog E Reply);
  todo : list Op;
}.

(** One turn: begin the next operation, make a step, or take the answer. *)
Definition client_turn (s : St) (c : Client) : St * Client :=
  match current c with
  | Some (op, Ret r) => (s, mk_Client (past c ++ [(op, r)]) None (todo c))
  | Some (op, Step C m K) =>
      let '(s', r) := m s in (s', mk_Client (past c) (Some (op, K r)) (todo c))
  | None =>
      match todo c with
      | [] => (s, c)
      | op :: todo' => (s, mk_Client (past c) (Some (op, program op)) todo')
      end
  end.

Abbreviation Clients := (Pool (S := St) (P := Client)).
Abbreviation base := (common (S := St) (P := Client)).
Abbreviation clients := (parties (S := St) (P := Client)).
Abbreviation client_advance := (pool_advance client_turn).
Abbreviation run_clients := (pool_run client_turn).

Definition connect (s : St) (threads : list (list Op)) : Clients :=
  mk_Pool s (mk_Client [] None <$> threads).

(** All the operations of a client, and the key its current one works on. *)
Definition script (c : Client) : list Op := (past c).*1 ++ option_list (fst <$> current c) ++ todo c.
Definition busy_on (c : Client) : option bytes := op ← fst <$> current c; op_target op.

(** ** What its operations on one key are answered *)

Definition on (k : bytes) (op : Op) : Prop := op_target op = Some k.
#[export] Instance on_dec k op : Decision (on k op) := decide (op_target op = Some k).

Definition answered_on (k : bytes) (c : Client) : list (Op * result EngineError Reply) :=
  filter (fun x => on k x.1) (past c).

(** Answers one after the other as on the abstract database, each at times read
    after those of the one before; positions are in the sequence of readings. *)
Inductive sequential (s : St) (lo : nat) (d : Db) : list (Op * result EngineError Reply) -> nat -> Db -> Prop :=
  | sequential_nil : sequential s lo d [] lo d
  | sequential_snoc h mid hi d1 op a b :
      sequential s lo d h mid d1 ->
      (mid <= a <= b)%nat -> (a <= hi)%nat -> (b <= S hi)%nat ->
      let ans := spec (time_at s a) (time_at s b) op d1 in
      sequential s lo d (h ++ [(op, ans.2)]) hi ans.1.

(** Operations within their preconditions in sequence, whatever the times. *)
Fixpoint possible (ops : list Op) (d : Db) : Prop :=
  match ops with
  | [] => True
  | op :: ops' =>
      (forall s : St, clock_left s -> op_pre s d op) /\
      (forall now now', possible ops' (spec now now' op d).1)
  end.

(** Room for all of them is room for each in its turn. *)
Lemma spare_possible w ops d : w < 2 ^ 32 -> Forall op_ok ops -> run_cost ops <= w -> spare w d -> possible ops d.
Proof.
  intros Hw Hok. revert w d Hw. induction Hok as [|op ops Hop Hok IH]; intros w d Hw Hc Hs; [done|].
  cbn [run_cost] in Hc. pose proof (run_cost_nonneg ops). pose proof (op_cost_pos op). split.
  - intros s Hclock. apply (spare_afforded w); [done..|lia|done].
  - intros now now'. apply (IH (w - op_cost op)); [lia..|]. apply spec_spends; [done|lia|done].
Qed.

(** ** A turn of a client spares the keys it is not working on *)

Definition client_ok (c : Client) : Prop :=
  Forall has_key (todo c) /\
  match current c with
  | Some (op, q) => exists k b, op_target op = Some k /\ valid_key k /\ local k (fun _ => True) b q
  | None => True
  end.

Lemma client_turn_spares s c s' c' :
  client_ok c -> client_turn s c = (s', c') -> 0 <= VERSION_CLOCK s -> clock_left s -> reliable (engine s) ->
  client_ok c' /\ script c' = script c /\ reliable (engine s') /\ later s s' /\ VERSION_CLOCK s <= VERSION_CLOCK s' /\
  (forall k, valid_key k -> busy_on c <> Some k -> others k s s').
Proof.
  intros [Htodo Hcur] Ht Hpos Hc Hr. unfold client_turn in Ht. unfold script, busy_on.
  assert (Hidle : forall k, others k s s) by by intros; apply others_refl.
  destruct c as [h [[op [r|C m K]]|] rest]; cbn [past current todo fmap option_fmap option_map fst option_list] in *.
  - injection Ht as <- <-. cbn. rewrite fmap_app, <- app_assoc. cbn. by split_and!.
  - destruct Hcur as (k & b & Hk & Hval & Hl). destruct (m s) as [s1 r] eqn:Hm. injection Ht as <- <-.
    destruct (step_spares k _ b m K s s1 r Hl Hm Hpos) as (Hsp & Hr1 & Hlat & Hv & b' & Hl' & _); [done..|].
    split; [split; [done|cbn; eauto]|]. cbn. split_and!; [done..|]. intros k' Hk' Hne. apply Hsp; [done|].
    intros ->. apply Hne. exact Hk.
  - destruct rest as [|op rest]; injection Ht as <- <-; [by split_and!|].
    apply Forall_cons in Htodo as [(k & Hk & Hval) Htodo].
    split; [split; [done|]|by split_and!]. exists k, true. split_and!; [done..|]. by apply local_program.
Qed.
(** ** Versions to take *)

(** The versions a client may still take: one for each operation to come, and one
    for the current operation unless it has taken it. *)
Definition takes (c : Client) (n : Z) : Prop :=
  match current c with
  | Some (op, q) => exists k b, local k (fun _ => True) b q /\ n = Z.b2z b + Z.of_nat (length (todo c))
  | None => n = Z.of_nat (length (todo c))
  end.

Lemma takes_nonneg c n : takes c n -> 0 <= n.
Proof.
  unfold takes. destruct (current c) as [[op q]|]; [|lia]. intros (k & b & _ & ->). destruct b; cbn; lia.
Qed.

Lemma turn_takes s c s' c' n :
  Forall has_key (todo c) -> takes c n -> client_turn s c = (s', c') -> 0 <= VERSION_CLOCK s ->
  exists n', takes c' n' /\ n' <= n /\ one_version (bool_decide (n' < n)) s s'.
Proof.
  intros Htodo Hn Ht Hv. unfold client_turn in Ht.
  destruct c as [h [[op [r|C m K]]|] rest]; cbn [takes past current todo] in *.
  - injection Ht as <- <-. exists (Z.of_nat (length rest)). destruct Hn as (k & b & _ & ->).
    split; [done|]. split; [destruct b; cbn; lia|apply one_version_refl].
  - destruct Hn as (k & b & Hl & ->). destruct (m s) as [s1 r] eqn:Hm. injection Ht as <- <-.
    destruct (step_takes k _ b C m K s s1 r Hl Hm Hv) as (b' & Hl' & Hb & Hone).
    exists (Z.b2z b' + Z.of_nat (length rest)). split; [by exists k, b'|]. split; [lia|].
    rewrite (bool_decide_ext _ (Z.b2z b' < Z.b2z b)) by lia. done.
  - subst n. destruct rest as [|op rest]; injection Ht as <- <-.
    + exists 0. split; [done|]. split; [done|apply one_version_refl].
    + apply Forall_cons in Htodo as [(k & Hk & Hval) _]. exists (Z.of_nat (length (op :: rest))).
      split; [|split; [done|apply one_version_refl]].
      exists k, true. split; [by apply local_program|cbn; lia].
Qed.

(** There is time for every version the clients may still take, and one more. *)
Abbreviation in_time := (in_time takes).

Lemma in_time_client p j :
  (forall c, clients p !! j = Some c -> Forall has_key (todo c)) -> 0 <= VERSION_CLOCK (base p) ->
  in_time p -> in_time (client_advance p j).
Proof.
  intros Hkeys Hv. apply in_time_advance; [exact takes_nonneg|]. intros c s' c' n Hc Hn Ht.
  eapply turn_takes; eauto.
Qed.

Lemma total_lengths (threads : list (list Op)) :
  total ((fun ops => Z.of_nat (length ops)) <$> threads) = Z.of_nat (length (concat threads)).
Proof. induction threads as [|ops threads IH]; cbn; [done|]. rewrite length_app. lia. Qed.

Lemma in_time_start s threads : ticks_left (1 + Z.of_nat (length (concat threads))) s -> in_time (connect s threads).
Proof.
  intros Ht. exists ((fun ops => Z.of_nat (length ops)) <$> threads). split.
  - cbn [parties connect]. apply Forall2_fmap, Forall_Forall2_diag. by apply list.Forall_true.
  - cbn [common connect]. by rewrite total_lengths.
Qed.

(** ** The key of one client *)

Section Key.
Context (k : bytes) (Hk : valid_key k) (s0 : St) (d0 : Db).

(** Between operations on the key the store holds it as the answers say; during
    one, it did when the operation began. *)
Definition keeps (s : St) (c : Client) : Prop :=
  exists mid d, sequential s0 (tick s0) d0 (answered_on k c) mid d /\
    match current c with
    | Some (op, q) =>
        if decide (on k op) then
          exists s1 b, (mid <= tick s1)%nat /\ holds k s1 d /\ clock s1 = clock s0 /\ later s1 s /\
            VERSION_CLOCK s1 <= VERSION_CLOCK s /\ local k (fun _ => True) b q /\ among k (program op) s1 q s /\
            possible (op :: filter (on k) (todo c)) d
        else (mid <= tick s)%nat /\ holds k s d /\ possible (filter (on k) (todo c)) d
    | None => (mid <= tick s)%nat /\ holds k s d /\ possible (filter (on k) (todo c)) d
    end.

Lemma keeps_others s s' c :
  keeps s c -> others k s s' -> clock_left s' -> keeps s' c.
Proof using Type.
  intros (mid & d & Hseq & Hcur) Ho Hc. assert (Ho' := Ho). destruct Ho' as (_ & Hlat & Hv).
  assert (Htick : (tick s <= tick s')%nat) by apply Hlat.
  assert (Hidle : (mid <= tick s)%nat /\ holds k s d /\ possible (filter (on k) (todo c)) d ->
    (mid <= tick s')%nat /\ holds k s' d /\ possible (filter (on k) (todo c)) d).
  { intros (Hm & Hh & Hp). split; [lia|]. split; [by eapply holds_others|done]. }
  exists mid, d. split; [done|]. destruct (current c) as [[op q]|]; [|by apply Hidle].
  destruct (decide (on k op)); [|by apply Hidle].
  destruct Hcur as (s1 & b & Hm & Hh & Hck & Hl & Hv1 & Hloc & Ha & Hp). exists s1, b.
  split_and!; try done; [by etransitivity|lia|by eapply among_others].
Qed.

Lemma answered_on_snoc h cur rest op r :
  answered_on k (mk_Client (h ++ [(op, r)]) cur rest) =
  answered_on k (mk_Client h cur rest) ++ (if decide (on k op) then [(op, r)] else []).
Proof using Type. unfold answered_on. cbn [past]. rewrite filter_app. f_equal. Qed.

(** The client that uses the key takes an answer, ... *)
Lemma keeps_end s h op r rest :
  keeps s (mk_Client h (Some (op, Ret r)) rest) -> clock_left s ->
  keeps s (mk_Client (h ++ [(op, r)]) None rest).
Proof using Hk.
  intros (mid & d & Hseq & Hcur) Hc. unfold keeps. cbn [current todo] in *. rewrite answered_on_snoc.
  destruct (decide (on k op)) as [Hop|Hop]; [|rewrite app_nil_r; by exists mid, d].
  destruct Hcur as (s1 & b & Hm & Hh & Hck & [Hck1 Htick] & Hv & _ & Ha & Hpre & Hp).
  destruct (operation_isolated op k s1 s r d) as (i & j & Hij & Hi & Hj & -> & Hh'); [by auto..|].
  exists (tick s), (spec (time_at s1 i) (time_at s1 j) op d).1.
  assert (Htime : forall n, time_at s1 n = time_at s0 n) by (intros n; unfold time_at; by rewrite Hck).
  rewrite !Htime in *. split; [|by split_and!]. apply (sequential_snoc s0 _ _ _ mid); [done|lia..].
Qed.

(** ... makes a step, ... *)
Lemma keeps_step s s' h op C (m : M E C) K r rest :
  client_ok (mk_Client h (Some (op, Step C m K)) rest) ->
  keeps s (mk_Client h (Some (op, Step C m K)) rest) -> m s = (s', r) ->
  0 <= VERSION_CLOCK s -> clock_left s -> clock_left s' -> reliable (engine s) ->
  keeps s' (mk_Client h (Some (op, K r)) rest).
Proof using Hk.
  intros Hok Hkeep Hm Hpos Hc Hc' Hr. destruct (decide (on k op)) as [Hop|Hop] eqn:Hdec.
  - destruct Hkeep as (mid & d & Hseq & Hcur). exists mid, d. split; [done|]. cbn [current todo] in *.
    rewrite Hdec in *. destruct Hcur as (s1 & b & Hmid & Hh & Hck & Hlat & Hv & Hl & Ha & Hp).
    destruct (step_spares k _ b m K s s' r Hl Hm Hpos) as (_ & Hr' & Hlat' & Hv' & b' & Hl' & _); [done..|].
    exists s1, b'. split_and!; try done; [by etransitivity|lia|by eapply among_own].
  - assert (Ho : others k s s').
    { destruct (client_turn_spares s _ s' (mk_Client h (Some (op, K r)) rest) Hok) as (_ & _ & _ & _ & _ & Hsp);
        [unfold client_turn; cbn; by rewrite Hm|done..|]. apply Hsp; [done|exact Hop]. }
    destruct (keeps_others s s' _ Hkeep Ho Hc') as (mid & d & Hseq & Hcur). exists mid, d.
    split; [done|]. cbn [current todo] in *. by rewrite Hdec in *.
Qed.

(** ... or begins its next operation. *)
Lemma keeps_begin s h op rest :
  keeps s (mk_Client h None (op :: rest)) -> clock s = clock s0 -> reliable (engine s) ->
  keeps s (mk_Client h (Some (op, program op)) rest).
Proof using Hk.
  intros (mid & d & Hseq & Hm & Hh & Hp) Hck Hr. exists mid, d. split; [done|]. cbn [current todo] in *.
  rewrite filter_cons in Hp. destruct (decide (on k op)) as [Hop|Hop]; [|done].
  exists s, true. split_and!; try done; [by apply local_program|by apply among_wait, others_refl].
Qed.

Lemma keeps_turn s c s' c' :
  client_ok c -> keeps s c -> clock s = clock s0 -> client_turn s c = (s', c') ->
  0 <= VERSION_CLOCK s -> clock_left s -> clock_left s' -> reliable (engine s) -> keeps s' c'.
Proof using Hk.
  intros Hok Hkeep Hck Ht Hpos Hc Hc' Hr. unfold client_turn in Ht.
  destruct c as [h [[op [r|C m K]]|] rest]; cbn [past current todo] in Ht.
  - injection Ht as <- <-. by apply keeps_end.
  - destruct (m s) as [s1 r] eqn:Hm. injection Ht as <- <-. by eapply keeps_step.
  - destruct rest as [|op rest]; injection Ht as <- <-; [done|by apply keeps_begin].
Qed.
End Key.

(** ** Any number of clients *)

(** Every client keeps to its script; client [i], the only one with operations on
    the key, keeps its answers sequential. *)
Record clients_keep (k : bytes) (i : nat) (s : St) (d : Db) (threads : list (list Op)) (p : Clients) : Prop := {
  keep_clients j c : clients p !! j = Some c ->
    client_ok c /\ threads !! j = Some (script c) /\ (j = i -> keeps k s d (base p) c);
  keep_length : length (clients p) = length threads;
  keep_reliable : reliable (engine (base p));
  keep_later : later s (base p);
  keep_clock : 0 <= VERSION_CLOCK (base p);
}.

Definition only_user (k : bytes) (i : nat) (threads : list (list Op)) : Prop :=
  forall j ops, threads !! j = Some ops -> j <> i -> Forall (fun op => ~ on k op) ops.

Lemma busy_in_script c k : busy_on c = Some k -> exists op, op ∈ script c /\ on k op.
Proof.
  unfold busy_on, script. destruct (current c) as [[op q]|]; [|done]. cbn. intros Hop.
  exists op. split; [set_solver|exact Hop].
Qed.

Lemma clients_start k i s d threads ops :
  Inv s d -> Forall (Forall has_key) threads -> threads !! i = Some ops -> possible (filter (on k) ops) d ->
  clients_keep k i s d threads (connect s threads).
Proof.
  intros HI Hops Hi Hp. assert (HI' := HI). destruct HI' as [B HB].
  assert (Hu := inv_clock _ _ _ HB). unfold in_u64 in Hu.
  split; cbn [parties common connect]; [|by rewrite length_fmap|apply HB|done|lia].
  intros j c Hj. rewrite list_lookup_fmap in Hj. apply fmap_Some in Hj as (ops' & Hj & ->).
  split; [|split; [done|]].
  - split; [|done]. rewrite list.Forall_forall in Hops. by eapply Hops, list_elem_of_lookup_2.
  - intros ->. replace ops' with ops in * by congruence. exists (tick s), d. split; [apply sequential_nil|].
    cbn. split_and!; [done|by apply Inv_holds|done].
Qed.

Lemma clients_advance k i s d threads p j :
  valid_key k -> only_user k i threads -> clock_left (base p) -> clock_left (base (client_advance p j)) ->
  clients_keep k i s d threads p -> clients_keep k i s d threads (client_advance p j).
Proof.
  intros Hk Honly Hc Hc' [Hcl Hlen Hr Hlat Hpos]. unfold pool_advance in *.
  destruct (clients p !! j) as [c|] eqn:Hj; [|by split]. destruct (client_turn (base p) c) as [s' c'] eqn:Ht.
  destruct (Hcl j c Hj) as (Hok & Hscript & Hkeep).
  destruct (client_turn_spares (base p) c s' c' Hok Ht Hpos Hc Hr) as (Hok' & Hsc & Hr' & Hlat' & Hv & Hspare).
  split; cbn [parties common] in *; [|by rewrite length_insert|done|by etransitivity|lia].
  intros j' c2 Hj'. destruct (decide (j' = j)) as [->|Hne].
  - rewrite list_lookup_insert_eq in Hj' by by eapply lookup_lt_Some. injection Hj' as <-.
    split; [done|]. split; [congruence|]. intros Hji.
    eapply (keeps_turn k Hk s d (base p) c); [done|by apply Hkeep|apply Hlat|done..].
  - rewrite list_lookup_insert_ne in Hj' by done. destruct (Hcl j' c2 Hj') as (Hok2 & Hscript2 & Hkeep2).
    split; [done|]. split; [done|]. intros ->. eapply keeps_others; [by apply Hkeep2| |done].
    apply Hspare; [done|]. intros (op & Hin & Hon)%busy_in_script.
    specialize (Honly j _ Hscript). rewrite list.Forall_forall in Honly. by eapply Honly.
Qed.

Lemma clients_run k i s d threads schedule p :
  valid_key k -> only_user k i threads -> in_time p ->
  clients_keep k i s d threads p -> clients_keep k i s d threads (run_clients schedule p).
Proof.
  intros Hk Honly. revert p. induction schedule as [|j schedule IH]; intros p Hc Hp; [done|].
  assert (Hc' : in_time (client_advance p j)).
  { apply in_time_client; [|by eapply keep_clock|done]. intros c Hj. by destruct (keep_clients _ _ _ _ _ _ Hp j c Hj) as [[] _]. }
  apply IH; [done|]. apply clients_advance; [done..|eapply in_time_left; [exact takes_nonneg|done]|eapply in_time_left; [exact takes_nonneg|done]|done].
Qed.

(** A key that one connection has to itself behaves as if the connection were
    alone: however the steps of any number of connections interleave, and whatever
    races the others run on other keys, the connection's operations on the key
    are answered in order as the abstract database answers them, at times read
    one after the other during the run, and between two of them the store holds
    the key as the answers so far say.  It asks for room for what the connection
    itself adds, and for time for the versions all of them take. *)
Theorem private_key_sequential (s : St) (d : Db) (threads : list (list Op)) (schedule : list nat)
  (k : bytes) (i : nat) (ops : list Op) :
  Inv s d -> valid_key k -> Forall (Forall has_key) threads ->
  threads !! i = Some ops -> only_user k i threads ->
  Forall op_ok (filter (on k) ops) -> run_cost (filter (on k) ops) < 2 ^ 32 -> spare (run_cost (filter (on k) ops)) d ->
  ticks_left (1 + Z.of_nat (length (concat threads))) s ->
  let p := run_clients schedule (connect s threads) in
  exists c n d', clients p !! i = Some c /\ script c = ops /\
    sequential s (tick s) d (answered_on k c) n d' /\ (n <= tick (base p))%nat /\
    (busy_on c <> Some k -> holds k (base p) d').
Proof.
  intros HI Hk Hops Hi Honly Hok Hcost Hspare Hticks p.
  destruct (clients_run k i s d threads schedule (connect s threads)) as [Hcl Hlen _ _ _];
    [done|done|by apply in_time_start| |].
  { eapply clients_start; [done..|]. by eapply spare_possible. }
  fold p in Hcl, Hlen. destruct (lookup_lt_is_Some_2 (clients p) i) as [c Hci].
  { rewrite Hlen. by eapply lookup_lt_Some. }
  destruct (Hcl i c Hci) as (_ & Hscript & Hkeep).
  destruct (Hkeep eq_refl) as (n & d' & Hseq & Hcur). exists c, n, d'.
  split; [done|]. split; [congruence|]. split; [done|].
  unfold busy_on. destruct (current c) as [[op q]|]; cbn; [|by destruct Hcur as (? & ? & _)].
  destruct (decide (on k op)) as [Hop|Hop]; [|by destruct Hcur as (? & ? & _)].
  destruct Hcur as (s1 & b & Hm & _ & _ & [_ Ht] & _). split; [lia|]. intros Hne. by destruct Hne.
Qed.
(** ** Every client is served *)

Definition client_done (c : Client) : Prop := current c = None /\ todo c = [].
#[export] Instance client_done_dec c : Decision (client_done c).
Proof. unfold client_done. destruct (current c) as [[]|], (todo c); first [left; done|right; by intros [? ?]]. Defined.

Lemma done_stays s c : client_done c -> (client_turn s c).2 = c.
Proof. intros [Hc Ht]. unfold client_turn. by rewrite Hc, Ht. Qed.

(** A client's operations are finitely many, and each is a finite tree of steps. *)
Lemma client_ends c : Acc (goes_on client_turn client_done) c.
Proof.
  assert (Hcur : forall rest, (forall h, Acc (goes_on client_turn client_done) (mk_Client h None rest)) ->
    forall op q h, Acc (goes_on client_turn client_done) (mk_Client h (Some (op, q)) rest)).
  { intros rest Hrest op q. induction q as [r|C m K IH]; intros h; constructor; intros c' [_ [s ->]];
      unfold client_turn; cbn [current todo past snd]; [apply Hrest|]. destruct (m s) as [s' r]. apply IH. }
  assert (Hidle : forall rest h, Acc (goes_on client_turn client_done) (mk_Client h None rest)).
  { induction rest as [|op rest IH]; intros h; constructor; intros c' [Hn [s ->]]; [by destruct Hn|].
    by apply Hcur. }
  destruct c as [h [[op q]|] rest]; [apply Hcur|]; by intros; apply Hidle.
Qed.

Lemma step_script c c' : party_step client_turn c c' -> script c' = script c.
Proof.
  intros [s ->]. unfold client_turn, script. destruct c as [h [[op [r|C m K]]|] [|op' rest]]; cbn; try done;
    try (destruct (m s) as [s' r]; done); by rewrite fmap_app, <- app_assoc.
Qed.

(** Nobody starves: no operation waits for another, so under any endless
    schedule that keeps giving every connection its turns there comes a time from
    which on every connection has its whole script answered, in order, whatever
    the operations and the answers of the engine are. *)
Theorem every_client_served (turns : nat -> nat) (s : St) (threads : list (list Op)) :
  (forall i, (i < length threads)%nat -> fair_to turns i) ->
  exists n, forall m i ops, (n <= m)%nat -> threads !! i = Some ops ->
    exists h, clients (after_turns client_turn turns (connect s threads) m) !! i = Some (mk_Client h None []) /\ h.*1 = ops.
Proof.
  intros Hfair. destruct (fair_ends client_turn turns (connect s threads) client_done done_stays) as [n Hn].
  - intros i Hi. apply Hfair. cbn [parties connect] in Hi. by rewrite length_fmap in Hi.
  - intros c _. apply client_ends.
  - exists n. intros m i ops Hm Hops. destruct (Hn m i (mk_Client [] None ops) Hm) as (c & Hc & [Hcur Htodo] & Hr).
    { cbn [parties connect]. by rewrite list_lookup_fmap, Hops. }
    destruct c as [h cur rest]. cbn [current todo] in *. subst. exists h. split; [done|].
    assert (Hs : script (mk_Client h None []) = script (mk_Client [] None ops)).
    { clear -Hr. induction Hr as [|c1 c2 c3 Hs _ IH]; [done|]. rewrite IH. by apply step_script. }
    unfold script in Hs. cbn in Hs. by rewrite app_nil_r in Hs.
Qed.
End Clients.

Abbreviation run_clients := (pool_run client_turn).

(** ** Witness *)

(** The first client has the list to itself; the others race on a string. *)
Definition mine_ops : list Op := [OPush (B "l") [B "x"; B "y"] false; OLrange (B "l") 0 (-1); OGet (B "k")].

Definition demo_clients : list (list Op) := [
  mine_ops;
  [OSet (B "k") (B "v") 0; ODel (B "k")];
  [OSet (B "k") (B "w") 0; OGet (B "k")]].

Definition demo_turns : list nat := concat (replicate 15 [0; 1; 2; 2]%nat).

Definition demo_list : list Op := [OPush (B "l") [B "1"] false].

Lemma demo_clients_keys : Forall (Forall has_key) demo_clients.
Proof.
  unfold demo_clients.
  repeat (apply List.Forall_cons; [repeat (apply List.Forall_cons;
    [eexists; split; [reflexivity|vm_compute; split; [discriminate|reflexivity]]|]); constructor|]).
  constructor.
Qed.

Lemma demo_clients_user : only_user (B "l") 0 demo_clients.
Proof.
  intros [|[|[|j]]] ops Hj Hne; [done|injection Hj as <-..|done];
    repeat (apply List.Forall_cons; [discriminate|]); constructor.
Qed.

(** The list as it is before the clients connect, under a wall clock that stands
    still. *)
Definition list_state : State (RocksEngine MemDb) := (run demo_list steady_state).1.
Definition list_db : Db := (spec_run (timed demo_list steady_state) ∅).1.

Lemma list_ready : Inv list_state list_db /\ budget 9 list_state list_db.
Proof.
  assert (Hok : Forall op_ok demo_list) by (repeat constructor; vm_compute; first [reflexivity|discriminate]).
  assert (Hb : budget (run_cost demo_list + 9) steady_state ∅) by (apply steady_budget; vm_compute; reflexivity).
  destruct (run_afforded 9 demo_list steady_state ∅ ltac:(lia) steady_inv Hok Hb) as [Hp Hb'].
  split; [apply (run_refines demo_list steady_state ∅ steady_inv Hp)|exact Hb'].
Qed.

Lemma private_key_sequential_witness :
  let s := list_state in
  let p := run_clients demo_turns (connect s demo_clients) in
  let mine := [(OPush (B "l") [B "x"; B "y"] false, Ok (RInt 3));
               (OLrange (B "l") 0 (-1), Ok (RList [B "1"; B "x"; B "y"]))] in
  past <$> parties p = [
    mine ++ [(OGet (B "k"), Ok (RValue None))];
    [(OSet (B "k") (B "v") 0, Ok RUnit); (ODel (B "k"), Ok (RBool true))];
    [(OSet (B "k") (B "w") 0, Ok RUnit); (OGet (B "k"), Ok (RValue (Some (B "v"))))]] /\
  exists n d', sequential s (tick s) (list_db) mine n d' /\ holds (B "l") (common p) d'.
Proof.
  intros s p mine.
  assert (Hpast : past <$> parties p = [
    mine ++ [(OGet (B "k"), Ok (RValue None))];
    [(OSet (B "k") (B "v") 0, Ok RUnit); (ODel (B "k"), Ok (RBool true))];
    [(OSet (B "k") (B "w") 0, Ok RUnit); (OGet (B "k"), Ok (RValue (Some (B "v"))))]])
    by (vm_compute; reflexivity).
  assert (Hidle : (fun c => bool_decide (busy_on c = None)) <$> parties p = [true; true; true])
    by (vm_compute; reflexivity).
  assert (Hval : valid_key (B "l")) by (vm_compute; split; [discriminate|reflexivity]).
  destruct list_ready as [HI [_ Hticks Hspare]].
  assert (Hok : Forall op_ok (filter (on (B "l")) mine_ops))
    by (repeat constructor; vm_compute; first [reflexivity|discriminate]).
  assert (Hcost : run_cost (filter (on (B "l")) mine_ops) = 4) by reflexivity.
  assert (Hs : spare (run_cost (filter (on (B "l")) mine_ops)) list_db) by (rewrite Hcost; by apply spare_mono with 9).
  assert (Ht : ticks_left (1 + Z.of_nat (length (concat demo_clients))) s) by (by apply ticks_left_mono with 9).
  assert (Hw : run_cost (filter (on (B "l")) mine_ops) < 2 ^ 32) by (rewrite Hcost; lia).
  pose proof (private_key_sequential s list_db demo_clients demo_turns (B "l") 0 mine_ops HI Hval demo_clients_keys
    eq_refl demo_clients_user Hok Hw Hs Ht) as Hthm.
  fold p in Hthm. clearbody p. split; [exact Hpast|]. destruct Hthm as (c & n & d' & Hc & _ & Hseq & _ & Hh).
  pose proof (fmap_at past _ _ _ _ Hpast Hc) as Hc1. pose proof (fmap_at _ _ _ _ _ Hidle Hc) as Hc2.
  injection Hc1 as Hc1. injection Hc2 as Hc2. apply eq_sym, bool_decide_eq_true in Hc2.
  unfold answered_on in Hseq. rewrite <- Hc1 in Hseq. exists n, d'.
  split; [exact Hseq|]. apply Hh. by rewrite Hc2.
Defined.

Lemma every_client_served_witness :
  exists n, forall m i ops, (n <= m)%nat -> demo_clients !! i = Some ops ->
    exists h, parties (after_turns client_turn (fun n => (n mod 3)%nat) (connect list_state demo_clients) m) !! i =
      Some (mk_Client h None []) /\ h.*1 = ops.
Proof.
  apply (every_client_served (fun n => (n mod 3)%nat) list_state demo_clients).
  intros i Hi n. exists (i + n * 3)%nat. split; [lia|].
  rewrite Nat.Div0.mod_add. apply Nat.mod_small. exact Hi.
Defined.
