(* ===== verification/Frame.v ===== *)
(** * RESP values, protocol versions and protocol errors

    Models crates/gamestore-protocol/src/frame.rs and error.rs.  A [String]
    is its UTF-8 bytes, a [Bytes] is a byte string; the constructor [Set] of the
    source is [Set_] here. *)

From S2P Require Import Prelude F64 Text.

Inductive RespVersion : Type := V2 | V3.

#[export] Instance RespVersion_eq_dec : EqDecision RespVersion.
Proof. solve_decision. Defined.

Definition as_i64 (v : RespVersion) : Z := match v with V2 => 2 | V3 => 3 end.
Definition from_i64 (v : Z) : option RespVersion :=
  if v =? 2 then Some V2 else if v =? 3 then Some V3 else None.

#[local] Unset Elimination Schemes.

Inductive Frame : Type :=
  | Simple (s : bytes)
  | Error (s : bytes)
  | Integer (n : Z)
  | Bulk (b : bytes)
  | Array (items : list Frame)
  | Null
  | Boolean (v : bool)
  | Double (d : f64)
  | BigNumber (s : bytes)
  | BulkError (s : bytes)
  | Verbatim (format : byte * byte * byte) (data : bytes)
  | Map (pairs : list (Frame * Frame))
  | Set_ (items : list Frame)
  | Push (items : list Frame).

#[local] Set Elimination Schemes.

Definition Frame_ok : Frame := Simple (B "OK").
Definition Frame_simple (s : bytes) : Frame := Simple s.
Definition Frame_error (s : bytes) : Frame := Error s.
Definition Frame_bulk (b : bytes) : Frame := Bulk b.
Definition Frame_null : Frame := Null.
Definition as_bulk (f : Frame) : option bytes := match f with Bulk b => Some b | _ => None end.
Definition Frame_from_str (s : bytes) : Frame := Bulk s.
Definition Frame_from_i64 (n : Z) : Frame := Integer n.

Inductive ProtocolError : Type :=
  | Malformed (msg : bytes)
  | LimitExceeded (msg : bytes)
  | InlineSyntax (msg : bytes).

#[export] Instance ProtocolError_eq_dec : EqDecision ProtocolError.
Proof. solve_decision. Defined.

(** The error's [Display]. *)
Definition ProtocolError_to_string (e : ProtocolError) : bytes :=
  match e with
  | Malformed msg => B "protocol error: " ++ msg
  | LimitExceeded msg => B "value exceeds configured limit: " ++ msg
  | InlineSyntax msg => B "invalid inline command: " ++ msg
  end.

(** ** Induction over nested frames *)

Section FrameInd.
Variable P : Frame -> Prop.
Hypothesis HSimple : forall s, P (Simple s).
Hypothesis HError : forall s, P (Error s).
Hypothesis HInteger : forall n, P (Integer n).
Hypothesis HBulk : forall b, P (Bulk b).
Hypothesis HArray : forall items, Forall P items -> P (Array items).
Hypothesis HNull : P Null.
Hypothesis HBoolean : forall v, P (Boolean v).
Hypothesis HDouble : forall d, P (Double d).
Hypothesis HBigNumber : forall s, P (BigNumber s).
Hypothesis HBulkError : forall s, P (BulkError s).
Hypothesis HVerbatim : forall format data, P (Verbatim format data).
Hypothesis HMap : forall pairs, Forall (fun kv => P kv.1 /\ P kv.2) pairs -> P (Map pairs).
Hypothesis HSet : forall items, Forall P items -> P (Set_ items).
Hypothesis HPush : forall items, Forall P items -> P (Push items).

Fixpoint Frame_ind (f : Frame) : P f :=
  let items := fix go (l : list Frame) : Forall P l :=
    match l with
    | [] => List.Forall_nil _
    | x :: l' => @List.Forall_cons _ P x l' (Frame_ind x) (go l')
    end in
  match f with
  | Simple s => HSimple s
  | Error s => HError s
  | Integer n => HInteger n
  | Bulk b => HBulk b
  | Array l => HArray l (items l)
  | Null => HNull
  | Boolean v => HBoolean v
  | Double d => HDouble d
  | BigNumber s => HBigNumber s
  | BulkError s => HBulkError s
  | Verbatim fmt data => HVerbatim fmt data
  | Map l => HMap l
      ((fix go (l : list (Frame * Frame)) : Forall (fun kv => P kv.1 /\ P kv.2) l :=
        match l with
        | [] => List.Forall_nil _
        | (k, v) :: l' => @List.Forall_cons _ (fun kv => P kv.1 /\ P kv.2) (k, v) l' (conj (Frame_ind k) (Frame_ind v)) (go l')
        end) l)
  | Set_ l => HSet l (items l)
  | Push l => HPush l (items l)
  end.
End FrameInd.

(** The depth of nesting: zero for a scalar. *)
Fixpoint frame_depth (f : Frame) : nat :=
  let items l := fold_right (fun x n => Nat.max (frame_depth x) n) 0%nat l in
  match f with
  | Array l | Set_ l | Push l => S (items l)
  | Map l => S (fold_right (fun kv n => Nat.max (Nat.max (frame_depth kv.1) (frame_depth kv.2)) n) 0%nat l)
  | _ => 0%nat
  end.
