(* ===== verification/Encode.v ===== *)
(** * The RESP encoder

    Models crates/gamestore-protocol/src/encode.rs.  Like the source, every
    function appends to the output buffer it is given. *)

From S2P Require Import Prelude F64 Text F64Text Frame.

Definition put_u8 (out : bytes) (b : byte) : bytes := out ++ [b].
Definition put_slice (out s : bytes) : bytes := out ++ s.
Definition put_crlf (out : bytes) : bytes := put_slice out CRLF.

(** [format_i64]: the twenty-byte buffer always suffices ([int_display_fits]). *)
Definition format_i64 (n : Z) : bytes := int_display n.
Definition put_int (out : bytes) (n : Z) : bytes := put_slice out (format_i64 n).

Definition put_double (out : bytes) (d : f64) : bytes :=
  if f64_is_nan d then put_slice out (B "nan")
  else if f64_is_infinite d then put_slice out (if f64_gtb d 0 then B "inf" else B "-inf")
  else put_slice out (f64_display d).

(** [x.len() as i64]. *)
Definition len_i64 {A} (l : list A) : Z := wrap_i64 (Z.of_nat (length l)).

Fixpoint encode (frame : Frame) (version : RespVersion) (out : bytes) : bytes :=
  let aggregate (marker : byte) (items : list Frame) :=
    fold_left (fun out item => encode item version out) items
      (put_crlf (put_int (put_u8 out marker) (len_i64 items))) in
  match frame with
  | Simple s => put_crlf (put_slice (put_u8 out "+"%byte) s)
  | Error s => put_crlf (put_slice (put_u8 out "-"%byte) s)
  | Integer n => put_crlf (put_int (put_u8 out ":"%byte) n)
  | Bulk b =>
      let out := put_crlf (put_int (put_u8 out "$"%byte) (len_i64 b)) in
      put_crlf (put_slice out b)
  | Null =>
      match version with
      | V2 => put_slice out (B "$-1" ++ CRLF)
      | V3 => put_slice out (B "_" ++ CRLF)
      end
  | Array items => aggregate "*"%byte items
  | Boolean v => put_slice out (if v then B "#t" ++ CRLF else B "#f" ++ CRLF)
  | Double d => put_crlf (put_double (put_u8 out ","%byte) d)
  | BigNumber s => put_crlf (put_slice (put_u8 out "("%byte) s)
  | BulkError s =>
      let out := put_crlf (put_int (put_u8 out "!"%byte) (len_i64 s)) in
      put_crlf (put_slice out s)
  | Verbatim (f0, f1, f2) data =>
      let out := put_crlf (put_int (put_u8 out "="%byte) (wrap_i64 (3 + 1 + Z.of_nat (length data)))) in
      put_crlf (put_slice (put_u8 (put_slice out [f0; f1; f2]) ":"%byte) data)
  | Map pairs =>
      fold_left (fun out kv => encode kv.2 version (encode kv.1 version out)) pairs
        (put_crlf (put_int (put_u8 out "%"%byte) (len_i64 pairs)))
  | Set_ items => aggregate "~"%byte items
  | Push items => aggregate ">"%byte items
  end.

Definition encode_to_vec (frame : Frame) (version : RespVersion) : bytes := encode frame version [].

(** ** Appending *)

Lemma fold_append {A} (step : bytes -> A -> bytes) (l : list A) (out : bytes) :
  Forall (fun x => forall out, step out x = out ++ step [] x) l ->
  fold_left step l out = out ++ concat (step [] <$> l).
Proof.
  intros Hl. revert out. induction Hl as [|x l Hx Hl IH]; intros out; cbn [fold_left fmap list_fmap concat].
  - by rewrite app_nil_r.
  - by rewrite Hx, IH, <- app_assoc.
Qed.

Lemma encode_app frame version out : encode frame version out = out ++ encode_to_vec frame version.
Proof.
  unfold encode_to_vec. revert out.
  induction frame using Frame_ind; intros out; cbn [encode]; cbv zeta;
    unfold put_crlf, put_int, put_double, put_slice, put_u8;
    try (repeat case_match; rewrite <- ?app_assoc; done).
  - rewrite !fold_append by done. by rewrite <- !app_assoc.
  - assert (Hp : Forall (fun kv => forall out, encode kv.2 version (encode kv.1 version out) =
      out ++ encode kv.2 version (encode kv.1 version [])) pairs).
    { eapply List.Forall_impl; [|exact H]. intros [k v] [Hk Hv] o. cbn [fst snd] in *.
      rewrite Hv, Hk, (Hv (encode k version [])). by rewrite <- app_assoc. }
    rewrite !(fold_append (fun out kv => encode kv.2 version (encode kv.1 version out))) by done.
    by rewrite <- !app_assoc.
  - rewrite !fold_append by done. by rewrite <- !app_assoc.
  - rewrite !fold_append by done. by rewrite <- !app_assoc.
Qed.

(** The frames of a reply stream, one after the other. *)
Definition encode_all (version : RespVersion) (l : list Frame) : bytes :=
  concat ((fun f => encode_to_vec f version) <$> l).

Lemma encode_items version (items : list Frame) out :
  fold_left (fun out item => encode item version out) items out = out ++ encode_all version items.
Proof. apply fold_append. apply list.Forall_forall. intros. apply encode_app. Qed.

Lemma encode_pairs version (pairs : list (Frame * Frame)) out :
  fold_left (fun out kv => encode kv.2 version (encode kv.1 version out)) pairs out =
  out ++ concat ((fun kv => encode_to_vec kv.1 version ++ encode_to_vec kv.2 version) <$> pairs).
Proof.
  rewrite fold_append.
  - f_equal. f_equal. apply list_fmap_ext. intros i [k v] _. cbn. by rewrite encode_app.
  - apply list.Forall_forall. intros [k v] _ o. cbn [fst snd].
    by rewrite !encode_app, <- !app_assoc, app_nil_l.
Qed.

(** Every [i64] fits in the encoder's twenty-byte buffer. *)
Lemma int_display_fits n : in_i64 n -> (length (format_i64 n) <= 20)%nat.
Proof.
  intros Hn. unfold in_i64 in Hn.
  assert (H : forall m, 0 <= m <= 2 ^ 63 -> (length (dec_digits m) <= 19)%nat).
  { intros m Hm. destruct (dec_digits_spec m) as (Hd & Hv & Hne & Hf); [lia|].
    destruct (Z.eq_dec m 0) as [->|]; [change (length (dec_digits 0)) with 1%nat; lia|].
    destruct Hf as (b & l & E & Hb); [lia|].
    rewrite E in Hd, Hv |- *. rewrite digits_value_cons in Hv. cbn [length].
    assert (is_digits l) as Hl%digits_value_range by by inversion Hd.
    assert (10 ^ Z.of_nat (length l) <= m) by nia.
    destruct (le_lt_dec (length l) 18); [lia|].
    pose proof (Z.pow_le_mono_r 10 19 (Z.of_nat (length l))). lia. }
  unfold format_i64, int_display. destruct (Z.ltb_spec n 0); cbn [length].
  - specialize (H (- n)). lia.
  - specialize (H n). lia.
Qed.
