(* ===== verification/Decode.v ===== *)
(** * The incremental RESP decoder

    Models crates/gamestore-protocol/src/decode.rs.  Parsers take the whole
    input and a position, as in the source, and answer a value with the position
    after it, [None] when more bytes are needed, or an error.  Lengths and limits
    are compared as integers before a length is used as a position; [usize] is
    taken wide enough for every buffer length plus the limits. *)

From S2P Require Import Prelude F64 Text F64Text Frame.

Record Limits : Type := mk_Limits {
  max_bulk_len : Z;
  max_array_len : Z;
  max_inline_len : Z;
  max_depth : Z;
}.

Definition Limits_default : Limits :=
  mk_Limits (512 * 1024 * 1024) (1024 * 1024) (64 * 1024) 128.

(** [Parsed<T>]. *)
Definition Parsed (T : Type) : Type := result ProtocolError (option (T * nat)).

(** [match p? { Some((a, next)) => f a next, None => return Ok(None) }]. *)
Definition and_then {A C} (p : Parsed A) (f : A -> nat -> Parsed C) : Parsed C :=
  match p with
  | Ok (Some (a, next)) => f a next
  | Ok None => Ok None
  | Err e => Err e
  end.

Notation "'let?' ( x , y ) := p 'in' q" := (and_then p (fun x y => q))
  (at level 10, x name, y name, p at level 100, q at level 200) : gs_scope.

(** [r?] for a plain result. *)
Notation "'let!' x := r 'in' q" := (match r with Ok x => q | Err e => Err e end)
  (at level 10, x name, r at level 100, q at level 200) : gs_scope.

(** ** Lines and integers *)

(** [&l[a..b]]. *)
Definition sub (l : bytes) (a b : nat) : bytes := take (b - a) (drop a l).

(** The position of the first CR LF of [l], which starts at position [i]. *)
Fixpoint find_crlf (l : bytes) (i : nat) : option nat :=
  match l with
  | b0 :: ((b1 :: _) as l') =>
      if decide (b0 = CR /\ b1 = LF) then Some i else find_crlf l' (S i)
  | _ => None
  end.

Definition read_line (input : bytes) (from : nat) : Parsed bytes :=
  if decide (length input < from)%nat then Ok None
  else
    match find_crlf (drop from input) from with
    | Some i => Ok (Some (sub input from i, (i + 2)%nat))
    | None => Ok None
    end.

Definition str_from (b : bytes) : result ProtocolError bytes :=
  if utf8_valid b then Ok b else Err (Malformed (B "invalid UTF-8 in text line")).

Definition parse_i64 (b : bytes) : result ProtocolError Z :=
  let! s := str_from b in
  match i64_from_str s with
  | Some n => Ok n
  | None => Err (Malformed (B "invalid integer '" ++ s ++ B "'"))
  end.

(** ** Scalars *)

Definition text_line (input : bytes) (from : nat) (make : bytes -> Frame) : Parsed Frame :=
  let? (line, next) := read_line input from in
  let! s := str_from line in
  Ok (Some (make s, next)).

Definition parse_integer (input : bytes) (from : nat) : Parsed Frame :=
  let? (line, next) := read_line input from in
  let! n := parse_i64 line in
  Ok (Some (Integer n, next)).

Definition parse_null (input : bytes) (from : nat) : Parsed Frame :=
  let? (line, next) := read_line input from in
  if decide (line <> []) then Err (Malformed (B "null (_) must have empty body"))
  else Ok (Some (Null, next)).

Definition parse_boolean (input : bytes) (from : nat) : Parsed Frame :=
  let? (line, next) := read_line input from in
  if decide (line = B "t") then Ok (Some (Boolean true, next))
  else if decide (line = B "f") then Ok (Some (Boolean false, next))
  else Err (Malformed (B "boolean must be #t or #f")).

Definition double_of (s : bytes) : result ProtocolError f64 :=
  if decide (s = B "inf" \/ s = B "+inf") then Ok f64_inf
  else if decide (s = B "-inf") then Ok f64_neg_inf
  else if decide (s = B "nan" \/ s = B "-nan") then Ok f64_nan
  else
    match f64_from_str s with
    | Some d => Ok d
    | None => Err (Malformed (B "invalid double '" ++ s ++ B "'"))
    end.

Definition parse_double (input : bytes) (from : nat) : Parsed Frame :=
  let? (line, next) := read_line input from in
  let! s := str_from line in
  let! d := double_of s in
  Ok (Some (Double d, next)).

(** A length header: [match read_line(..)? { Some((line, next)) => (parse_i64(line)?, next), .. }]. *)
Definition parse_len (input : bytes) (from : nat) : Parsed Z :=
  let? (line, next) := read_line input from in
  let! n := parse_i64 line in
  Ok (Some (n, next)).

(** The payload of [len] bytes at [from] and the CR LF after it. *)
Definition parse_payload (input : bytes) (from : nat) (len : Z) (unterminated : bytes) : Parsed bytes :=
  if Z.of_nat (length input) <? Z.of_nat from + len + 2 then Ok None
  else
    let end_ := (from + Z.to_nat len)%nat in
    if decide (sub input end_ (end_ + 2) <> CRLF) then Err (Malformed unterminated)
    else Ok (Some (sub input from end_, (end_ + 2)%nat)).

Definition parse_bulk (input : bytes) (from : nat) (limits : Limits) (is_error : bool) : Parsed Frame :=
  let? (len, after_hdr) := parse_len input from in
  if (len =? -1) && negb is_error then Ok (Some (Null, after_hdr))
  else if len <? 0 then Err (Malformed (B "negative bulk length " ++ int_display len))
  else if max_bulk_len limits <? len then
    Err (LimitExceeded (B "bulk length " ++ int_display len ++ B " exceeds limit " ++
      int_display (max_bulk_len limits)))
  else
    let? (payload, next) := parse_payload input after_hdr len (B "bulk not terminated by CRLF") in
    if is_error then
      let! s := str_from payload in Ok (Some (BulkError s, next))
    else Ok (Some (Bulk payload, next)).

Definition parse_verbatim (input : bytes) (from : nat) (limits : Limits) : Parsed Frame :=
  let? (len, after_hdr) := parse_len input from in
  if len <? 4 then Err (Malformed (B "verbatim string too short (need 3-byte format + ':')"))
  else if max_bulk_len limits <? len then
    Err (LimitExceeded (B "verbatim length " ++ int_display len ++ B " exceeds limit " ++
      int_display (max_bulk_len limits)))
  else
    let? (body, next) := parse_payload input after_hdr len (B "verbatim not terminated by CRLF") in
    match body with
    | f0 :: f1 :: f2 :: sep :: data =>
        if decide (sep <> ":"%byte) then Err (Malformed (B "verbatim format not followed by ':'"))
        else Ok (Some (Verbatim (f0, f1, f2) data, next))
    | _ => Err (Malformed (B "verbatim format not followed by ':'"))
    end.

(** ** Aggregates *)

Inductive Aggregate : Type := AggArray | AggSet | AggPush.

#[export] Instance Aggregate_eq_dec : EqDecision Aggregate.
Proof. solve_decision. Defined.

Definition aggregate_frame (kind : Aggregate) (items : list Frame) : Frame :=
  match kind with AggArray => Array items | AggSet => Set_ items | AggPush => Push items end.

(** [for _ in 0..count], over the parser of one value. *)
Fixpoint parse_items {A} (parse : nat -> Parsed A) (count : nat) (pos : nat) (items : list A) :
  Parsed (list A) :=
  match count with
  | O => Ok (Some (items, pos))
  | S count' =>
      let? (frame, next) := parse pos in
      parse_items parse count' next (items ++ [frame])
  end.

Definition parse_aggregate (parse : nat -> Parsed Frame) (input : bytes) (from : nat) (limits : Limits)
  (kind : Aggregate) : Parsed Frame :=
  let? (count, pos) := parse_len input from in
  if count =? -1 then
    if decide (kind = AggArray) then Ok (Some (Null, pos))
    else Err (Malformed (B "negative aggregate length"))
  else if count <? 0 then Err (Malformed (B "negative aggregate length"))
  else if max_array_len limits <? count then
    Err (LimitExceeded (B "aggregate length " ++ int_display count ++ B " exceeds limit " ++
      int_display (max_array_len limits)))
  else
    let? (items, pos) := parse_items parse (Z.to_nat count) pos [] in
    Ok (Some (aggregate_frame kind items, pos)).

(** A key and a value. *)
Definition parse_pair (parse : nat -> Parsed Frame) (pos : nat) : Parsed (Frame * Frame) :=
  let? (key, pos) := parse pos in
  let? (val, pos) := parse pos in
  Ok (Some ((key, val), pos)).

Definition parse_map (parse : nat -> Parsed Frame) (input : bytes) (from : nat) (limits : Limits) :
  Parsed Frame :=
  let? (count, pos) := parse_len input from in
  if count <? 0 then Err (Malformed (B "negative map length"))
  else if max_array_len limits <? count then
    Err (LimitExceeded (B "map length " ++ int_display count ++ B " exceeds limit " ++
      int_display (max_array_len limits)))
  else
    let? (pairs, pos) := parse_items (parse_pair parse) (Z.to_nat count) pos [] in
    Ok (Some (Map pairs, pos)).

(** ** One value *)

Definition too_deep (limits : Limits) : ProtocolError :=
  Malformed (B "nesting deeper than " ++ int_display (max_depth limits) ++ B " levels").

(** The match on the type byte, over the parser for the next level. *)
Definition parse_by_type (inner : nat -> Parsed Frame) (type_byte : byte) (input : bytes) (body : nat)
  (limits : Limits) : Parsed Frame :=
  match type_byte with
  | "+"%byte => text_line input body Simple
  | "-"%byte => text_line input body Error
  | "("%byte => text_line input body BigNumber
  | ":"%byte => parse_integer input body
  | "_"%byte => parse_null input body
  | "#"%byte => parse_boolean input body
  | ","%byte => parse_double input body
  | "$"%byte => parse_bulk input body limits false
  | "!"%byte => parse_bulk input body limits true
  | "="%byte => parse_verbatim input body limits
  | "*"%byte => parse_aggregate inner input body limits AggArray
  | "~"%byte => parse_aggregate inner input body limits AggSet
  | ">"%byte => parse_aggregate inner input body limits AggPush
  | "%"%byte => parse_map inner input body limits
  | other => Err (Malformed (B "unknown RESP type byte 0x" ++ hex02 other))
  end.

(** The body of [parse_frame], over the parser for the next level. *)
Definition parse_frame_body (inner : nat -> Parsed Frame) (input : bytes) (from : nat)
  (limits : Limits) (depth : Z) : Parsed Frame :=
  if max_depth limits <? depth then Err (too_deep limits)
  else
    match drop from input with
    | [] => Ok None
    | type_byte :: _ => parse_by_type inner type_byte input (S from) limits
    end.

(** [fuel] bounds the levels still allowed; [parse_frame] gives one more than
    [depth] leaves before the limit, so it never runs out
    ([parse_frame_unfold]). *)
Fixpoint parse_frame_go (fuel : nat) (input : bytes) (from : nat) (limits : Limits) (depth : Z) :
  Parsed Frame :=
  match fuel with
  | O => Err (too_deep limits)
  | S fuel' =>
      parse_frame_body (fun pos => parse_frame_go fuel' input pos limits (depth + 1))
        input from limits depth
  end.

Definition parse_frame (input : bytes) (from : nat) (limits : Limits) (depth : Z) : Parsed Frame :=
  parse_frame_go (S (Z.to_nat (max_depth limits + 1 - depth))) input from limits depth.

(** [decode]: the buffer afterwards and the answer. *)
Definition decode (buf : bytes) (limits : Limits) : bytes * result ProtocolError (option Frame) :=
  match parse_frame buf 0 limits 0 with
  | Ok (Some (frame, consumed)) => (drop consumed buf, Ok (Some frame))
  | Ok None => (buf, Ok None)
  | Err e => (buf, Err e)
  end.

(** ** Requests *)

(** One element of a request: a bulk string that is not null. *)
Definition parse_arg (input : bytes) (limits : Limits) (pos : nat) : Parsed bytes :=
  match drop pos input with
  | [] => Ok None
  | b :: _ =>
      if decide (b <> "$"%byte) then
        Err (Malformed (B "expected '$' in multibulk, got 0x" ++ hex02 b))
      else
        let? (len, after_hdr) := parse_len input (S pos) in
        if len <? 0 then Err (Malformed (B "null bulk string not allowed in a request"))
        else if max_bulk_len limits <? len then
          Err (LimitExceeded (B "bulk length " ++ int_display len ++ B " exceeds limit " ++
            int_display (max_bulk_len limits)))
        else parse_payload input after_hdr len (B "bulk not terminated by CRLF")
  end.

Definition parse_multibulk (input : bytes) (limits : Limits) : Parsed (list bytes) :=
  let? (count, pos) := parse_len input 1 in
  if count <=? 0 then Ok (Some ([], pos))
  else if max_array_len limits <? count then
    Err (LimitExceeded (B "multibulk length " ++ int_display count ++ B " exceeds limit " ++
      int_display (max_array_len limits)))
  else parse_items (parse_arg input limits) (Z.to_nat count) pos [].

(** ** Inline commands *)

Definition is_space (b : byte) : bool :=
  bool_decide (b ∈ [x20; x09; x0d; x0a; x0b; x0c]%byte).

Definition is_hex (b : byte) : bool := in_range 48 57 b || in_range 65 70 b || in_range 97 102 b.

Definition hex_val (b : byte) : Z :=
  if in_range 48 57 b then byte_val b - 48
  else if in_range 97 102 b then byte_val b - 97 + 10
  else if in_range 65 70 b then byte_val b - 65 + 10
  else 0.

(** The decoded byte, and how many bytes after the backslash it took. *)
Definition unescape_double (first : byte) (rest : bytes) : byte * nat :=
  let simple :=
    match first with
    | "n"%byte => (LF, 1%nat)
    | "r"%byte => (CR, 1%nat)
    | "t"%byte => (x09%byte, 1%nat)
    | "b"%byte => (x08%byte, 1%nat)
    | "a"%byte => (x07%byte, 1%nat)
    | other => (other, 1%nat)
    end in
  match first, rest with
  | "x"%byte, h1 :: h2 :: _ =>
      if is_hex h1 && is_hex h2
      then (byte_of_Z (Z.lor (Z.shiftl (hex_val h1) 4) (hex_val h2)), 3%nat)
      else simple
  | _, _ => simple
  end.

Definition closing_quote (cur rest : bytes) : result ProtocolError (bytes * bytes) :=
  match rest with
  | b :: _ => if negb (is_space b) then Err (InlineSyntax (B "closing quote not followed by space"))
              else Ok (cur, rest)
  | [] => Ok (cur, rest)
  end.

(** The loops of the tokenizer run over the rest of the line; each step takes at
    least one byte, so the length of the line is fuel enough.  They answer the
    token and what follows it. *)
Fixpoint double_quoted (fuel : nat) (l cur : bytes) : result ProtocolError (bytes * bytes) :=
  match fuel with
  | O => Err (InlineSyntax (B "unbalanced double quotes"))
  | S fuel' =>
      match l with
      | [] => Err (InlineSyntax (B "unbalanced double quotes"))
      | c :: l' =>
          if decide (c = x22%byte) then closing_quote cur l'
          else
            match decide (c = "\"%byte), l' with
            | left _, first :: rest =>
                let '(b, adv) := unescape_double first rest in
                double_quoted fuel' (drop adv l') (cur ++ [b])
            | _, _ => double_quoted fuel' l' (cur ++ [c])
            end
      end
  end.

Fixpoint single_quoted (fuel : nat) (l cur : bytes) : result ProtocolError (bytes * bytes) :=
  match fuel with
  | O => Err (InlineSyntax (B "unbalanced single quotes"))
  | S fuel' =>
      match l with
      | [] => Err (InlineSyntax (B "unbalanced single quotes"))
      | c :: l' =>
          if decide (c = "'"%byte) then closing_quote cur l'
          else
            match decide (c = "\"%byte), l' with
            | left _, "'"%byte :: rest => single_quoted fuel' rest (cur ++ ["'"%byte])
            | _, _ => single_quoted fuel' l' (cur ++ [c])
            end
      end
  end.

Fixpoint bare_word (l cur : bytes) : bytes * bytes :=
  match l with
  | c :: l' => if is_space c then (cur, l) else bare_word l' (cur ++ [c])
  | [] => (cur, [])
  end.

Fixpoint skip_spaces (l : bytes) : bytes :=
  match l with c :: l' => if is_space c then skip_spaces l' else l | [] => [] end.

Fixpoint split_inline_go (fuel : nat) (l : bytes) (args : list bytes) :
  result ProtocolError (list bytes) :=
  match fuel with
  | O => Ok args
  | S fuel' =>
      match skip_spaces l with
      | [] => Ok args
      | c :: l' =>
          let! token :=
            (if decide (c = x22%byte) then double_quoted (S (length l')) l' []
             else if decide (c = "'"%byte) then single_quoted (S (length l')) l' []
             else Ok (bare_word (c :: l') [])) in
          split_inline_go fuel' token.2 (args ++ [token.1])
      end
  end.

Definition split_inline (line : bytes) : result ProtocolError (list bytes) :=
  split_inline_go (S (length line)) line [].

Definition decode_command (buf : bytes) (limits : Limits) :
  bytes * result ProtocolError (option (list bytes)) :=
  match buf with
  | [] => (buf, Ok None)
  | b :: _ =>
      if decide (b = "*"%byte) then
        match parse_multibulk buf limits with
        | Ok (Some (args, consumed)) => (drop consumed buf, Ok (Some args))
        | Ok None => (buf, Ok None)
        | Err e => (buf, Err e)
        end
      else
        match read_line buf 0 with
        | Ok (Some (line, consumed)) =>
            if max_inline_len limits <? Z.of_nat (length line) then
              (buf, Err (LimitExceeded (B "inline command of " ++ int_display (Z.of_nat (length line)) ++
                B " bytes exceeds limit " ++ int_display (max_inline_len limits))))
            else
              match split_inline line with
              | Ok args => (drop consumed buf, Ok (Some args))
              | Err e => (buf, Err e)
              end
        | Ok None =>
            if max_inline_len limits <? Z.of_nat (length buf) then
              (buf, Err (LimitExceeded (B "inline command exceeds limit " ++
                int_display (max_inline_len limits) ++ B " before end of line")))
            else (buf, Ok None)
        | Err e => (buf, Err e)
        end
  end.

Example decode_nested :
  decode (B "*2" ++ CRLF ++ B ":-7" ++ CRLF ++ B "%1" ++ CRLF ++ B "+k" ++ CRLF ++ B "#t" ++ CRLF ++ B "+rest")
    Limits_default = (B "+rest", Ok (Some (Array [Integer (-7); Map [(Simple (B "k"), Boolean true)]]))).
Proof. vm_compute. reflexivity. Qed.
Example decode_partial : decode (B "$5" ++ CRLF ++ B "hel") Limits_default = (B "$5" ++ CRLF ++ B "hel", Ok None).
Proof. vm_compute. reflexivity. Qed.
Example decode_inline :
  decode_command (B "SET k 'it\'s'  x\x" ++ CRLF) Limits_default =
  ([], Ok (Some [B "SET"; B "k"; B "it's"; B "x\x"])).
Proof. vm_compute. reflexivity. Qed.
