(* ===== verification/Streaming.v ===== *)
(** * Incremental decoding

    What decoding a growing buffer relies on, for every parser of Decode.v: a
    parser that has settled, on a value or on an error, settles the same way
    when more bytes follow ([extends]), and a value ends inside the buffer
    ([within]).  From these follow that [decode] is independent of how the bytes
    were fragmented. *)

From S2P Require Import Prelude F64 Text F64Text Frame Decode.

(** Either undecided, or decided and the same. *)
Definition extends {A} (p q : Parsed A) : Prop := p = Ok None \/ q = p.

(** A value answered at [from] ends after [from], inside the input. *)
Definition within {A} (input : bytes) (from : nat) (p : Parsed A) : Prop :=
  forall a n, p = Ok (Some (a, n)) -> (from < n <= length input)%nat.

Lemma extends_refl {A} (p : Parsed A) : extends p p.
Proof. by right. Qed.

Lemma extends_and_then {A C} (p q : Parsed A) (f g : A -> nat -> Parsed C) :
  extends p q -> (forall a n, p = Ok (Some (a, n)) -> extends (f a n) (g a n)) ->
  extends (and_then p f) (and_then q g).
Proof.
  intros [->| ->] Hf; [by left|]. destruct p as [[[a n]|]|e]; [by apply Hf|by left|by right].
Qed.

Lemma within_and_then {A C} input from (p : Parsed A) (f : A -> nat -> Parsed C) :
  within input from p ->
  (forall a n, (from < n <= length input)%nat -> forall c m, f a n = Ok (Some (c, m)) -> (n <= m <= length input)%nat) ->
  within input from (and_then p f).
Proof.
  intros Hp Hf c m. unfold and_then. destruct p as [[[a n]|]|e]; [|done..].
  intros H. specialize (Hp a n eq_refl). specialize (Hf a n Hp c m H). lia.
Qed.

#[export] Hint Resolve extends_refl : gs.

(** ** Lines, lengths and payloads *)

Lemma find_crlf_bound l i j : find_crlf l i = Some j -> (i <= j /\ j + 2 <= i + length l)%nat.
Proof.
  revert i. induction l as [|b0 l IH]; intros i; [done|].
  destruct l as [|b1 l]; [done|]. change (find_crlf (b0 :: b1 :: l) i) with
    (if decide (b0 = CR /\ b1 = LF) then Some i else find_crlf (b1 :: l) (S i)).
  case_decide; [intros [= ->]; cbn; lia|]. intros H1%IH. cbn in *. lia.
Qed.

Lemma find_crlf_app l x i j : find_crlf l i = Some j -> find_crlf (l ++ x) i = Some j.
Proof.
  revert i. induction l as [|b0 l IH]; intros i; [done|].
  destruct l as [|b1 l]; [done|]. cbn [app].
  change (find_crlf (b0 :: b1 :: l) i) with
    (if decide (b0 = CR /\ b1 = LF) then Some i else find_crlf (b1 :: l) (S i)).
  change (find_crlf (b0 :: b1 :: l ++ x) i) with
    (if decide (b0 = CR /\ b1 = LF) then Some i else find_crlf (b1 :: l ++ x) (S i)).
  case_decide; [done|]. apply IH.
Qed.

Lemma sub_app input x a b : (b <= length input)%nat -> sub (input ++ x) a b = sub input a b.
Proof.
  intros Hb. unfold sub. destruct (le_lt_dec a (length input)).
  - rewrite drop_app_le by lia. rewrite take_app_le; [done|]. rewrite length_drop. lia.
  - replace (b - a)%nat with 0%nat by lia. done.
Qed.

Lemma read_line_extends input x from : extends (read_line input from) (read_line (input ++ x) from).
Proof.
  unfold read_line. destruct (decide (length input < from)%nat); [by left|].
  rewrite decide_False by (rewrite length_app; lia). rewrite drop_app_le by lia.
  destruct (find_crlf (drop from input) from) as [j|] eqn:E; [|by left]. right.
  rewrite (find_crlf_app _ x _ _ E). apply find_crlf_bound in E as [? Hj]. rewrite length_drop in Hj.
  rewrite sub_app by lia. done.
Qed.

Lemma read_line_within input from : within input from (read_line input from).
Proof.
  unfold within, read_line. intros line n. case_decide; [done|].
  destruct (find_crlf _ _) as [j|] eqn:E; [|done]. intros [= <- <-].
  apply find_crlf_bound in E as [? Hj]. rewrite length_drop in Hj. lia.
Qed.

Lemma parse_len_extends input x from : extends (parse_len input from) (parse_len (input ++ x) from).
Proof. apply extends_and_then; [apply read_line_extends|auto with gs]. Qed.

Lemma parse_len_within input from : within input from (parse_len input from).
Proof.
  apply within_and_then; [apply read_line_within|]. intros line n Hn c m.
  destruct (parse_i64 line); [|done]. intros [= <- <-]. lia.
Qed.

Lemma parse_payload_extends input x from len msg :
  0 <= len -> extends (parse_payload input from len msg) (parse_payload (input ++ x) from len msg).
Proof.
  intros Hlen. unfold parse_payload.
  destruct (Z.ltb_spec (Z.of_nat (length input)) (Z.of_nat from + len + 2)); [by left|].
  rewrite length_app. destruct (Z.ltb_spec (Z.of_nat (length input + length x)) (Z.of_nat from + len + 2)); [lia|].
  rewrite !sub_app by lia. apply extends_refl.
Qed.

Lemma parse_payload_within input from len msg payload n :
  0 <= len -> parse_payload input from len msg = Ok (Some (payload, n)) ->
  (from < n <= length input)%nat /\ length payload = Z.to_nat len.
Proof.
  intros Hlen. unfold parse_payload.
  destruct (Z.ltb_spec (Z.of_nat (length input)) (Z.of_nat from + len + 2)); [done|].
  case_decide; [done|]. intros [= <- <-]. unfold sub. rewrite length_take, length_drop. lia.
Qed.

(** ** Scalars *)

Ltac by_line := apply extends_and_then; [apply read_line_extends|auto with gs].

Lemma text_line_extends input x from make :
  extends (text_line input from make) (text_line (input ++ x) from make).
Proof. by_line. Qed.

Lemma parse_integer_extends input x from : extends (parse_integer input from) (parse_integer (input ++ x) from).
Proof. by_line. Qed.

Lemma parse_null_extends input x from : extends (parse_null input from) (parse_null (input ++ x) from).
Proof. by_line. Qed.

Lemma parse_boolean_extends input x from : extends (parse_boolean input from) (parse_boolean (input ++ x) from).
Proof. by_line. Qed.

Lemma parse_double_extends input x from : extends (parse_double input from) (parse_double (input ++ x) from).
Proof. by_line. Qed.

Lemma parse_bulk_extends input x from limits is_error :
  extends (parse_bulk input from limits is_error) (parse_bulk (input ++ x) from limits is_error).
Proof.
  apply extends_and_then; [apply parse_len_extends|]. intros len n _.
  destruct (_ && _); [auto with gs|]. destruct (Z.ltb_spec len 0); [auto with gs|].
  destruct (max_bulk_len limits <? len); [auto with gs|].
  apply extends_and_then; [by apply parse_payload_extends|auto with gs].
Qed.

Lemma parse_verbatim_extends input x from limits :
  extends (parse_verbatim input from limits) (parse_verbatim (input ++ x) from limits).
Proof.
  apply extends_and_then; [apply parse_len_extends|]. intros len n _.
  destruct (Z.ltb_spec len 4); [auto with gs|]. destruct (max_bulk_len limits <? len); [auto with gs|].
  apply extends_and_then; [apply parse_payload_extends; lia|auto with gs].
Qed.

(** A line whose value is a plain result ends inside the input. *)
Ltac line_within := 
  apply within_and_then; [apply read_line_within|]; intros line n Hn c m;
  repeat (match goal with
  | |- context [match ?r with Ok _ => _ | Err _ => _ end] => destruct r
  | |- context [if decide ?P then _ else _] => destruct (decide P)
  end; try done); intros [= <- <-]; lia.

Lemma text_line_within input from make : within input from (text_line input from make).
Proof. line_within. Qed.

Lemma parse_integer_within input from : within input from (parse_integer input from).
Proof. line_within. Qed.

Lemma parse_null_within input from : within input from (parse_null input from).
Proof. line_within. Qed.

Lemma parse_boolean_within input from : within input from (parse_boolean input from).
Proof. line_within. Qed.

Lemma parse_double_within input from : within input from (parse_double input from).
Proof. line_within. Qed.

Lemma parse_bulk_within input from limits is_error : within input from (parse_bulk input from limits is_error).
Proof.
  apply within_and_then; [apply parse_len_within|]. intros len n Hn c m.
  destruct (_ && _); [intros [= <- <-]; lia|]. destruct (Z.ltb_spec len 0); [done|].
  destruct (max_bulk_len limits <? len); [done|]. unfold and_then.
  destruct (parse_payload _ _ _ _) as [[[payload k]|]|] eqn:E; [|done..].
  apply parse_payload_within in E as [? _]; [|done].
  destruct is_error; [destruct (str_from payload); [|done]|]; intros [= <- <-]; lia.
Qed.

Lemma parse_verbatim_within input from limits : within input from (parse_verbatim input from limits).
Proof.
  apply within_and_then; [apply parse_len_within|]. intros len n Hn c m.
  destruct (Z.ltb_spec len 4); [done|]. destruct (max_bulk_len limits <? len); [done|]. unfold and_then.
  destruct (parse_payload _ _ _ _) as [[[payload k]|]|] eqn:E; [|done..].
  apply parse_payload_within in E as [? _]; [|lia].
  destruct payload as [|f0 [|f1 [|f2 [|sep data]]]]; try done. case_decide; [done|].
  intros [= <- <-]. lia.
Qed.

(** ** Aggregates *)

Section Aggregates.
Context {A : Type} (parse parse' : nat -> Parsed A) (input : bytes).
Hypothesis parse_ext : forall pos, extends (parse pos) (parse' pos).
Hypothesis parse_within : forall pos, within input pos (parse pos).

Lemma parse_items_extends count pos items :
  extends (parse_items parse count pos items) (parse_items parse' count pos items).
Proof using parse_ext.
  revert pos items. induction count as [|count IH]; intros pos items; [auto with gs|].
  cbn [parse_items]. apply extends_and_then; [apply parse_ext|]. intros a n _. apply IH.
Qed.

Lemma parse_items_within count pos items l n :
  (pos <= length input)%nat -> parse_items parse count pos items = Ok (Some (l, n)) ->
  (pos <= n <= length input)%nat /\ length l = (length items + count)%nat.
Proof using parse_within.
  revert pos items. induction count as [|count IH]; intros pos items Hpos; cbn [parse_items].
  - intros [= <- <-]. lia.
  - unfold and_then. destruct (parse pos) as [[[a k]|]|] eqn:E; [|done..].
    specialize (parse_within pos a k E). intros [? Hl]%IH; [|lia].
    rewrite length_app in Hl. cbn in Hl. lia.
Qed.
End Aggregates.

Section Levels.
Context (parse parse' : nat -> Parsed Frame) (input x : bytes) (limits : Limits).
Hypothesis parse_ext : forall pos, extends (parse pos) (parse' pos).
Hypothesis parse_in : forall pos, within input pos (parse pos).

Lemma parse_pair_extends pos : extends (parse_pair parse pos) (parse_pair parse' pos).
Proof using parse_ext.
  apply extends_and_then; [done|]. intros key n _.
  apply extends_and_then; [done|auto with gs].
Qed.

Lemma parse_pair_within pos : within input pos (parse_pair parse pos).
Proof using parse_in.
  apply within_and_then; [done|]. intros key n Hn c m. unfold and_then.
  destruct (parse n) as [[[val k]|]|] eqn:E; [|done..]. specialize (parse_in n val k E).
  intros [= <- <-]. lia.
Qed.

Lemma parse_aggregate_extends from kind :
  extends (parse_aggregate parse input from limits kind) (parse_aggregate parse' (input ++ x) from limits kind).
Proof using parse_ext.
  apply extends_and_then; [apply parse_len_extends|]. intros count n _.
  destruct (_ =? _); [auto with gs|]. destruct (_ <? 0); [auto with gs|]. destruct (_ <? _); [auto with gs|].
  apply extends_and_then; [by apply parse_items_extends|auto with gs].
Qed.

Lemma parse_map_extends from :
  extends (parse_map parse input from limits) (parse_map parse' (input ++ x) from limits).
Proof using parse_ext.
  apply extends_and_then; [apply parse_len_extends|]. intros count n _.
  destruct (_ <? 0); [auto with gs|]. destruct (_ <? _); [auto with gs|].
  apply extends_and_then; [apply parse_items_extends, parse_pair_extends|auto with gs].
Qed.

Lemma parse_aggregate_within from kind : within input from (parse_aggregate parse input from limits kind).
Proof using parse_in.
  apply within_and_then; [apply parse_len_within|]. intros count n Hn c m.
  destruct (_ =? _); [destruct (decide _); [intros [= <- <-]; lia|done]|].
  destruct (_ <? 0); [done|]. destruct (_ <? _); [done|]. unfold and_then.
  destruct (parse_items _ _ _ _) as [[[items k]|]|] eqn:E; [|done..].
  apply (parse_items_within parse input parse_in) in E as [? _]; [|lia]. intros [= <- <-]. lia.
Qed.

Lemma parse_map_within from : within input from (parse_map parse input from limits).
Proof using parse_in.
  apply within_and_then; [apply parse_len_within|]. intros count n Hn c m.
  destruct (_ <? 0); [done|]. destruct (_ <? _); [done|]. unfold and_then.
  destruct (parse_items _ _ _ _) as [[[items k]|]|] eqn:E; [|done..].
  apply (parse_items_within _ input parse_pair_within) in E as [? _]; [|lia]. intros [= <- <-]. lia.
Qed.

Lemma drop_app_cons (from : nat) b r : drop from input = b :: r -> drop from (input ++ x) = b :: r ++ x.
Proof.
  intros E. destruct (le_lt_dec (length input) from).
  - by rewrite drop_ge in E.
  - by rewrite drop_app_le, E by lia.
Qed.

Lemma parse_frame_body_extends from depth :
  extends (parse_frame_body parse input from limits depth)
    (parse_frame_body parse' (input ++ x) from limits depth).
Proof using parse_ext.
  unfold parse_frame_body. destruct (_ <? _); [auto with gs|].
  destruct (drop from input) as [|b r] eqn:E; [by left|]. rewrite (drop_app_cons _ _ _ E).
  unfold parse_by_type. destruct b; auto using text_line_extends, parse_integer_extends, parse_null_extends,
    parse_boolean_extends, parse_double_extends, parse_bulk_extends, parse_verbatim_extends,
    parse_aggregate_extends, parse_map_extends, extends_refl.
Qed.

Lemma within_later {A} (from : nat) (p : Parsed A) : within input (S from) p -> within input from p.
Proof. intros H a n E. specialize (H a n E). lia. Qed.

Lemma parse_frame_body_within from depth :
  within input from (parse_frame_body parse input from limits depth).
Proof using parse_in.
  unfold parse_frame_body. destruct (_ <? _); [done|].
  destruct (drop from input) as [|b r] eqn:E; [done|]. apply within_later.
  unfold parse_by_type. destruct b; auto using text_line_within, parse_integer_within, parse_null_within,
    parse_boolean_within, parse_double_within, parse_bulk_within, parse_verbatim_within,
    parse_aggregate_within, parse_map_within; done.
Qed.
End Levels.

(** ** One value *)

Lemma parse_frame_go_within fuel input from limits depth :
  within input from (parse_frame_go fuel input from limits depth).
Proof.
  revert from depth. induction fuel as [|fuel IH]; intros from depth; [done|].
  apply parse_frame_body_within. intros pos. apply IH.
Qed.

Lemma parse_frame_go_extends fuel input x from limits depth :
  extends (parse_frame_go fuel input from limits depth) (parse_frame_go fuel (input ++ x) from limits depth).
Proof.
  revert from depth. induction fuel as [|fuel IH]; intros from depth; [auto with gs|].
  apply parse_frame_body_extends. intros pos. apply IH.
Qed.

Lemma parse_frame_within input from limits depth : within input from (parse_frame input from limits depth).
Proof. apply parse_frame_go_within. Qed.

Lemma parse_frame_extends input x from limits depth :
  extends (parse_frame input from limits depth) (parse_frame (input ++ x) from limits depth).
Proof. apply parse_frame_go_extends. Qed.

Lemma parse_items_ext {A} (p q : nat -> Parsed A) count pos items :
  (forall n, p n = q n) -> parse_items p count pos items = parse_items q count pos items.
Proof.
  intros Hpq. revert pos items. induction count as [|count IH]; intros pos items; [done|].
  cbn [parse_items]. rewrite Hpq. destruct (q pos) as [[[a n]|]|]; [apply IH|done..].
Qed.

Lemma parse_frame_body_ext (p q : nat -> Parsed Frame) input from limits depth :
  (forall n, p n = q n) -> parse_frame_body p input from limits depth = parse_frame_body q input from limits depth.
Proof.
  intros Hpq.
  assert (Ha : forall f kind, parse_aggregate p input f limits kind = parse_aggregate q input f limits kind).
  { intros f kind. unfold parse_aggregate, and_then. destruct (parse_len input f) as [[[n k]|]|]; [|done..].
    by rewrite (parse_items_ext p q) by done. }
  assert (Hm : forall f, parse_map p input f limits = parse_map q input f limits).
  { intros f. unfold parse_map, and_then. destruct (parse_len input f) as [[[n k]|]|]; [|done..].
    rewrite (parse_items_ext (parse_pair p) (parse_pair q)); [done|].
    intros j. unfold parse_pair, and_then. rewrite Hpq. destruct (q j) as [[[key i]|]|]; [|done..].
    by rewrite Hpq. }
  unfold parse_frame_body. destruct (_ <? _); [done|]. destruct (drop from input) as [|b r]; [done|].
  unfold parse_by_type. destruct b; auto.
Qed.

(** The source's recursive equation: the fuel is never short. *)
Lemma parse_frame_unfold input from limits depth :
  parse_frame input from limits depth =
  parse_frame_body (fun pos => parse_frame input pos limits (depth + 1)) input from limits depth.
Proof.
  unfold parse_frame at 1. cbn [parse_frame_go].
  destruct (Z.ltb_spec (max_depth limits) depth) as [Hd|Hd].
  - unfold parse_frame_body. rewrite (proj2 (Z.ltb_lt _ _) Hd). done.
  - apply parse_frame_body_ext. intros n. unfold parse_frame. f_equal. lia.
Qed.

(** ** Decoding a growing buffer *)

Lemma decode_none_buf buf limits b : decode buf limits = (b, Ok None) -> b = buf.
Proof. unfold decode. destruct (parse_frame _ _ _ _) as [[[f n]|]|]; congruence. Qed.

Lemma decode_some_app buf limits b f x :
  decode buf limits = (b, Ok (Some f)) ->
  decode (buf ++ x) limits = (b ++ x, Ok (Some f)) /\ (length b < length buf)%nat.
Proof.
  unfold decode. destruct (parse_frame_extends buf x 0 limits 0) as [->| ->]; [done|].
  pose proof (parse_frame_within buf 0 limits 0) as Hw.
  destruct (parse_frame _ _ _ _) as [[[f' n]|]|]; [|done..].
  specialize (Hw f' n eq_refl). intros [= <- <-].
  rewrite drop_app_le, length_drop by lia. split; [done|lia].
Qed.

Lemma decode_err_app buf limits b e x :
  decode buf limits = (b, Err e) -> decode (buf ++ x) limits = (buf ++ x, Err e).
Proof.
  unfold decode. destruct (parse_frame_extends buf x 0 limits 0) as [->| ->]; [done|].
  destruct (parse_frame _ _ _ _) as [[[f' n]|]|]; congruence.
Qed.

(** A connection's read loop over any decoder: take values off the buffer until
    none is complete; append what arrives next and go on.  An error ends it.
    Every value takes at least one byte. *)
Section Feed.
Context {A : Type} (dec : bytes -> bytes * result ProtocolError (option A)).

Fixpoint drain (fuel : nat) (buf : bytes) : list A * result ProtocolError bytes :=
  match fuel with
  | O => ([], Ok buf)
  | S fuel' =>
      match dec buf with
      | (rest, Ok (Some a)) => let '(l, r) := drain fuel' rest in (a :: l, r)
      | (rest, Ok None) => ([], Ok rest)
      | (_, Err e) => ([], Err e)
      end
  end.

Definition drain_all (buf : bytes) : list A * result ProtocolError bytes :=
  drain (S (length buf)) buf.

Fixpoint feed (buf : bytes) (chunks : list bytes) : list A * result ProtocolError bytes :=
  match chunks with
  | [] => ([], Ok buf)
  | c :: chunks' =>
      match drain_all (buf ++ c) with
      | (l, Ok rest) => let '(l', r) := feed rest chunks' in (l ++ l', r)
      | (l, Err e) => (l, Err e)
      end
  end.
End Feed.

Abbreviation decoder limits := (fun buf => decode buf limits).

Section Fragments.
Context (limits : Limits).

Lemma drain_fuel n m buf :
  (length buf < n)%nat -> (length buf < m)%nat ->
  drain (decoder limits) n buf = drain (decoder limits) m buf.
Proof.
  revert m buf. induction n as [|n IH]; intros [|m] buf; [lia..|]. intros Hn Hm. cbn [drain].
  destruct (decode buf limits) as [b [[f|]|e]] eqn:E; [|done..].
  destruct (decode_some_app _ _ _ _ [] E) as [_ Hb]. rewrite (IH m) by lia. done.
Qed.

Lemma drain_all_some buf b f :
  decode buf limits = (b, Ok (Some f)) ->
  drain_all (decoder limits) buf = (f :: (drain_all (decoder limits) b).1, (drain_all (decoder limits) b).2).
Proof.
  intros E. destruct (decode_some_app _ _ _ _ [] E) as [_ Hb].
  unfold drain_all at 1. cbn [drain]. rewrite E, (drain_fuel _ (S (length b))) by lia.
  fold (drain_all (decoder limits) b). by destruct (drain_all _ b).
Qed.

(** Draining a part of the stream and then the rest is draining it all. *)
Lemma drain_all_app buf x :
  drain_all (decoder limits) (buf ++ x) =
  match drain_all (decoder limits) buf with
  | (l, Ok rest) =>
      (l ++ (drain_all (decoder limits) (rest ++ x)).1, (drain_all (decoder limits) (rest ++ x)).2)
  | (l, Err e) => (l, Err e)
  end.
Proof.
  remember (length buf) as n eqn:Hn. assert (length buf <= n)%nat by lia. clear Hn.
  revert buf H. induction n as [|n IH]; intros buf Hlen.
  - destruct buf; [|cbn in Hlen; lia]. cbn [app]. unfold drain_all at 2. cbn [drain length].
    destruct (decode [] limits) as [b [[f|]|e]] eqn:E.
    + destruct (decode_some_app _ _ _ _ [] E) as [_ Hb]. cbn in Hb. lia.
    + apply decode_none_buf in E as ->. cbn [app]. by destruct (drain_all _ x).
    + unfold drain_all. cbn [drain]. pose proof (decode_err_app _ _ _ _ x E) as Ex. cbn [app] in Ex.
      by rewrite Ex.
  - destruct (decode buf limits) as [b [[f|]|e]] eqn:E.
    + destruct (decode_some_app _ _ _ _ x E) as [Ex Hb].
      rewrite (drain_all_some _ _ _ Ex), (drain_all_some _ _ _ E), (IH b) by lia. cbn [fst snd].
      destruct (drain_all _ b) as [l [rest|e]]; done.
    + apply decode_none_buf in E as E'. subst b. unfold drain_all at 2. cbn [drain]. rewrite E.
      by destruct (drain_all _ (buf ++ x)).
    + unfold drain_all at 1 2. cbn [drain]. by rewrite E, (decode_err_app _ _ _ _ x E).
Qed.

Lemma feed_drain buf chunks :
  drain_all (decoder limits) buf = ([], Ok buf) ->
  feed (decoder limits) buf chunks = drain_all (decoder limits) (buf ++ concat chunks).
Proof.
  revert buf. induction chunks as [|c chunks IH]; intros buf Hbuf; cbn [feed concat].
  - by rewrite app_nil_r.
  - rewrite app_assoc, (drain_all_app (buf ++ c)).
    destruct (drain_all (decoder limits) (buf ++ c)) as [l [rest|e]] eqn:E; [|done].
    rewrite IH; [by destruct (drain_all _ (rest ++ concat chunks))|].
    pose proof (drain_all_app (buf ++ c) []) as H. rewrite app_nil_r, E, app_nil_r in H.
    destruct (drain_all (decoder limits) rest) as [l' r']. cbn [fst snd] in H. injection H as Hl Hr.
    rewrite <- Hr. f_equal. apply (app_inv_head l). by rewrite app_nil_r.
Qed.
End Fragments.

(** C9. Fragmentation is invisible: feeding the decoder a byte stream in pieces,
    however it was cut, yields the same frames, the same remainder and the same
    error as decoding the whole stream at once. *)
Theorem decode_fragments (limits : Limits) (chunks : list bytes) :
  0 <= max_depth limits ->
  feed (decoder limits) [] chunks = drain_all (decoder limits) (concat chunks).
Proof.
  intros Hd. apply (feed_drain limits []). unfold drain_all. cbn [length drain].
  unfold decode. rewrite parse_frame_unfold. unfold parse_frame_body.
  destruct (Z.ltb_spec (max_depth limits) 0); [lia|done].
Qed.

Lemma decode_fragments_witness :
  feed (decoder Limits_default) [] [B "*1"; [CR]; [LF] ++ B ":4"; [CR]; [LF] ++ B "+a"; [CR; LF] ++ B "$3"] =
  ([Array [Integer 4]; Simple (B "a")], Ok (B "$3")).
Proof.
  rewrite (decode_fragments Limits_default) by done. vm_compute. reflexivity.
Defined.

(** ** Codecs *)

(** What an encoder and a decoder promise a client that exchanges [valid]
    messages over a byte stream. *)
Class StreamCodec {A : Type} (enc : A -> bytes)
  (dec : bytes -> bytes * result ProtocolError (option A)) (valid : A -> Prop) : Prop := {
  codec_nonempty a : valid a -> enc a <> [];
  codec_empty : dec [] = ([], Ok None);
  (** A proper prefix of a message is not decided. *)
  codec_partial a b y : valid a -> b ++ y = enc a -> y <> [] -> dec b = (b, Ok None);
  (** A message is decoded whatever follows it. *)
  codec_whole a y : valid a -> dec (enc a ++ y) = (y, Ok (Some a));
}.

Section Codec.
Context {A : Type} {enc : A -> bytes} {dec : bytes -> bytes * result ProtocolError (option A)}
  {valid : A -> Prop} `{!StreamCodec enc dec valid}.

Abbreviation stream l := (concat (enc <$> l)).

(** The part of a message stream that has arrived so far. *)
Lemma drain_prefix fuel l buf x :
  Forall valid l -> buf ++ x = stream l -> (length buf < fuel)%nat ->
  exists l1 l2 rest, l = l1 ++ l2 /\ drain dec fuel buf = (l1, Ok rest) /\ rest ++ x = stream l2 /\
    dec rest = (rest, Ok None).
Proof using Type*.
  intros Hl. revert fuel buf. induction Hl as [|a l Ha Hl IH]; intros [|fuel] buf Hb Hfuel; try lia.
  - apply app_eq_nil in Hb as [-> ->]. exists [], [], []. cbn [drain]. by rewrite codec_empty.
  - cbn [fmap list_fmap concat] in Hb. pose proof (codec_nonempty a Ha) as Hne.
    apply app_eq_app in Hb as (k & [[-> Ex]|[Ek ->]]).
    + assert (0 < length (enc a))%nat by (destruct (enc a); [done|cbn; lia]).
      rewrite length_app in Hfuel. destruct (IH fuel k (eq_sym Ex)) as (l1 & l2 & rest & -> & Hd & Hr & Hn); [lia|].
      exists (a :: l1), l2, rest. cbn [drain]. rewrite codec_whole, Hd by done. done.
    + destruct k as [|b k].
      * rewrite app_nil_r in Ek. subst buf.
        destruct (IH fuel []) as (l1 & l2 & rest & -> & Hd & Hr & Hn); [done|cbn; destruct (enc a); [done|cbn in Hfuel; lia]|].
        exists (a :: l1), l2, rest. cbn [drain]. rewrite <- (app_nil_r (enc a)), codec_whole, Hd by done. done.
      * exists [], (a :: l), buf. cbn [drain].
        rewrite (codec_partial a buf (b :: k)) by done. split; [done|]. split; [done|].
        split; [|done]. cbn [fmap list_fmap concat]. by rewrite Ek, <- app_assoc.
Qed.

Lemma feed_stream l chunks buf :
  Forall valid l -> buf ++ concat chunks = stream l -> dec buf = (buf, Ok None) ->
  feed dec buf chunks = (l, Ok []).
Proof using Type*.
  revert l buf. induction chunks as [|c chunks IH]; intros l buf Hl Hb Hn; cbn [feed concat] in *.
  - rewrite app_nil_r in Hb. destruct Hl as [|a l Ha Hl]; [by rewrite Hb|].
    cbn [fmap list_fmap concat] in Hb. rewrite Hb, codec_whole in Hn by done. done.
  - rewrite app_assoc in Hb.
    destruct (drain_prefix (S (length (buf ++ c))) l (buf ++ c) (concat chunks)) as (l1 & l2 & rest & -> & Hd & Hr & Hn');
      [done|done|lia|].
    unfold drain_all. rewrite Hd. apply Forall_app in Hl as [_ Hl2].
    by rewrite (IH l2 rest Hl2 Hr Hn').
Qed.
End Codec.
