(* ===== verification/RoundTrip.v ===== *)
(** * Encoding and decoding are inverse

    Every frame the encoder can write faithfully ([frame_ok]) decodes to itself,
    in both protocol versions, within the decoder's limits; the same for client
    requests.  Both pairs are instances of [StreamCodec], so a stream of messages
    cut anywhere is received message by message. *)

From S2P Require Import Prelude F64 Text F64Text Frame Encode Decode Streaming.

(** ** Frames that survive the wire *)

(** A text that fits on a line. *)
Definition line_ok (s : bytes) : bool := utf8_valid s && bool_decide (find_crlf s 0 = None).

(** Finite numbers, the two infinities and the one NaN the decoder makes. *)
Definition double_ok (d : f64) : bool :=
  bool_decide (in_u64 d) &&
  (f64_is_finite d || (d =? f64_inf) || (d =? f64_neg_inf) || (d =? f64_nan)).

Fixpoint frame_ok (limits : Limits) (f : Frame) : bool :=
  let bulk_ok (n : nat) := Z.of_nat n <=? max_bulk_len limits in
  let items_ok (l : list Frame) :=
    (Z.of_nat (length l) <=? max_array_len limits) && forallb (frame_ok limits) l in
  match f with
  | Simple s | Error s | BigNumber s => line_ok s
  | Integer n => bool_decide (in_i64 n)
  | Bulk b => bulk_ok (length b)
  | BulkError s => utf8_valid s && bulk_ok (length s)
  | Verbatim _ data => bulk_ok (4 + length data)%nat
  | Double d => double_ok d
  | Null | Boolean _ => true
  | Array l | Set_ l | Push l => items_ok l
  | Map l => (Z.of_nat (length l) <=? max_array_len limits) &&
      forallb (fun kv => frame_ok limits kv.1 && frame_ok limits kv.2) l
  end.

Definition limits_ok (limits : Limits) : Prop :=
  0 <= max_depth limits /\ max_bulk_len limits < 2 ^ 63 /\ max_array_len limits < 2 ^ 63.

Definition sendable (limits : Limits) (f : Frame) : Prop :=
  frame_ok limits f = true /\ Z.of_nat (frame_depth f) <= max_depth limits.

(** ** Reading back a line, a length and a payload *)

Lemma find_crlf_line line rest i :
  find_crlf line 0 = None -> find_crlf (line ++ CRLF ++ rest) i = Some (i + length line)%nat.
Proof.
  assert (Hshift : forall l a b, find_crlf l a = None -> find_crlf l b = None).
  { induction l as [|x l IH]; intros a b; [done|]. destruct l as [|y l]; [done|].
    change (find_crlf (x :: y :: l) a) with
      (if decide (x = CR /\ y = LF) then Some a else find_crlf (y :: l) (S a)).
    change (find_crlf (x :: y :: l) b) with
      (if decide (x = CR /\ y = LF) then Some b else find_crlf (y :: l) (S b)).
    case_decide; [done|]. apply IH. }
  revert i. induction line as [|x line IH]; intros i Hl.
  - cbn [app length]. change (find_crlf (CRLF ++ rest) i) with
      (if decide (CR = CR /\ LF = LF) then Some i else find_crlf (LF :: rest) (S i)).
    rewrite decide_True by done. f_equal. lia.
  - destruct line as [|y line].
    + change (find_crlf ([x] ++ CRLF ++ rest) i) with
        (if decide (x = CR /\ CR = LF) then Some i else find_crlf ([] ++ CRLF ++ rest) (S i)).
      rewrite decide_False by (intros [_ ?]; done). rewrite (IH (S i)) by done. cbn. f_equal. lia.
    + change (find_crlf (x :: y :: line) 0) with
        (if decide (x = CR /\ y = LF) then Some 0%nat else find_crlf (y :: line) 1) in Hl.
      change (find_crlf ((x :: y :: line) ++ CRLF ++ rest) i) with
        (if decide (x = CR /\ y = LF) then Some i else find_crlf ((y :: line) ++ CRLF ++ rest) (S i)).
      case_decide; [done|]. rewrite IH by (by apply (Hshift _ 1%nat)). cbn [length]. f_equal. lia.
Qed.

Lemma no_cr_no_crlf l : CR ∉ l -> find_crlf l 0 = None.
Proof.
  generalize 0%nat. induction l as [|x l IH]; intros i; [done|].
  rewrite not_elem_of_cons. intros [Hx Hl]. destruct l as [|y l]; [done|].
  change (find_crlf (x :: y :: l) i) with
    (if decide (x = CR /\ y = LF) then Some i else find_crlf (y :: l) (S i)).
  rewrite decide_False by (intros [-> _]; done). by apply IH.
Qed.

Lemma drop_at {A} (pre rest : list A) : drop (length pre) (pre ++ rest) = rest.
Proof. apply drop_app_length. Qed.

Lemma sub_at (pre mid rest : bytes) :
  sub (pre ++ mid ++ rest) (length pre) (length pre + length mid) = mid.
Proof.
  unfold sub. rewrite drop_at, Nat.add_comm, Nat.add_sub, take_app_length. done.
Qed.

Section At.
Context (input pre rest : bytes).

Lemma read_line_at line :
  input = pre ++ line ++ CRLF ++ rest -> find_crlf line 0 = None ->
  read_line input (length pre) = Ok (Some (line, (length pre + length line + 2)%nat)).
Proof.
  intros -> Hl. unfold read_line. rewrite decide_False by (rewrite length_app; lia).
  rewrite drop_at, find_crlf_line by done. by rewrite sub_at.
Qed.

Lemma parse_len_at n :
  input = pre ++ int_display n ++ CRLF ++ rest -> in_i64 n ->
  parse_len input (length pre) = Ok (Some (n, (length pre + length (int_display n) + 2)%nat)).
Proof.
  intros Hi Hn. unfold parse_len.
  rewrite (read_line_at _ Hi) by apply no_cr_no_crlf, int_display_no_cr. cbn [and_then].
  unfold parse_i64, str_from. rewrite int_display_utf8, i64_from_str_display by done. done.
Qed.

Lemma parse_payload_at payload msg :
  input = pre ++ payload ++ CRLF ++ rest ->
  parse_payload input (length pre) (Z.of_nat (length payload)) msg =
  Ok (Some (payload, (length pre + length payload + 2)%nat)).
Proof.
  intros ->. unfold parse_payload.
  destruct (Z.ltb_spec (Z.of_nat (length (pre ++ payload ++ CRLF ++ rest)))
    (Z.of_nat (length pre) + Z.of_nat (length payload) + 2)) as [H|H].
  { rewrite !length_app in H. cbn [CRLF length] in H. lia. }
  rewrite Nat2Z.id, sub_at.
  assert (E : sub (pre ++ payload ++ CRLF ++ rest) (length pre + length payload)
    (length pre + length payload + 2) = CRLF).
  { rewrite app_assoc, <- length_app. apply (sub_at (pre ++ payload) CRLF rest). }
  rewrite E, decide_False by (intros H'; by apply H'). done.
Qed.

(** A run of items, each of which [parse] reads back. *)
Lemma parse_items_at {A} (parse : nat -> Parsed A) (enc : A -> bytes) (items acc : list A) (p : bytes) :
  input = p ++ concat (enc <$> items) ++ rest ->
  (forall a p r, a ∈ items -> input = p ++ enc a ++ r ->
    parse (length p) = Ok (Some (a, (length p + length (enc a))%nat))) ->
  parse_items parse (length items) (length p) acc =
  Ok (Some (acc ++ items, (length p + length (concat (enc <$> items)))%nat)).
Proof.
  revert p acc. induction items as [|a items IH]; intros p acc Hi Hp; cbn [length parse_items].
  - cbn. by rewrite app_nil_r, Nat.add_0_r.
  - cbn [fmap list_fmap concat] in Hi |- *. rewrite <- app_assoc in Hi.
    rewrite (Hp a p (concat (enc <$> items) ++ rest)) by (first [by left|done]). cbn [and_then].
    rewrite <- length_app. rewrite IH.
    + rewrite <- app_assoc, !length_app, Nat.add_assoc. done.
    + by rewrite Hi, <- app_assoc.
    + intros b q r Hb. apply Hp. by right.
Qed.
End At.

(** ** What the encoder writes *)

Lemma encode_line (marker : byte) (s : bytes) :
  put_crlf (put_slice (put_u8 [] marker) s) = marker :: s ++ CRLF.
Proof. done. Qed.

Lemma len_i64_small {A} (l : list A) m : Z.of_nat (length l) <= m -> m < 2 ^ 63 -> len_i64 l = Z.of_nat (length l).
Proof. intros. apply wrap_i64_small. unfold in_i64. lia. Qed.

Definition put_double_text (d : f64) : bytes := put_double [] d.

Lemma put_double_app out d : put_double out d = out ++ put_double_text d.
Proof. unfold put_double_text, put_double, put_slice. by repeat case_match. Qed.

Lemma double_of_put d :
  double_ok d = true -> double_of (put_double_text d) = Ok d /\
  utf8_valid (put_double_text d) = true /\ CR ∉ put_double_text d.
Proof.
  unfold double_ok. rewrite andb_true_iff, bool_decide_eq_true, !orb_true_iff, !Z.eqb_eq.
  intros [Hd [[[Hf| ->]| ->]| ->]].
  - destruct (f64_finite_num d Hd Hf) as [[_ Hnan] Hinf].
    unfold put_double_text, put_double, put_slice. rewrite Hnan, Hinf. cbn [app].
    pose proof (f64_display_printable d) as Hp. pose proof (f64_from_str_display d Hd Hf) as Hr.
    split; [|split; [by apply utf8_valid_ascii, printable_ascii|by apply printable_no_cr]].
    assert (Hne : forall s x, f64_from_str s = Some x -> f64_is_finite x = false -> f64_display d <> s)
      by (intros s x Hs Hx E; rewrite E, Hs in Hr; congruence).
    assert (E1 : f64_display d <> B "inf") by (apply (Hne _ f64_inf); vm_compute; reflexivity).
    assert (E2 : f64_display d <> B "+inf") by (apply (Hne _ f64_inf); vm_compute; reflexivity).
    assert (E3 : f64_display d <> B "-inf") by (apply (Hne _ f64_neg_inf); vm_compute; reflexivity).
    assert (E4 : f64_display d <> B "nan") by (apply (Hne _ f64_nan); vm_compute; reflexivity).
    assert (E5 : f64_display d <> B "-nan") by (apply (Hne _ (f64_nan + 2 ^ 63)); vm_compute; reflexivity).
    unfold double_of. rewrite Hr, !decide_False by tauto. done.
  - split; [done|]. split; [done|]. apply printable_no_cr. by repeat constructor.
  - split; [done|]. split; [done|]. apply printable_no_cr. by repeat constructor.
  - split; [done|]. split; [done|]. apply printable_no_cr. by repeat constructor.
Qed.

(** ** Frames *)

Lemma encode_bulk_text (m : byte) (n : Z) (b : bytes) :
  put_crlf (put_slice (put_crlf (put_int (put_u8 [] m) n)) b) = m :: int_display n ++ CRLF ++ b ++ CRLF.
Proof.
  unfold put_crlf, put_slice, put_int, put_u8, put_slice, format_i64.
  rewrite <- !app_assoc. done.
Qed.

Lemma encode_aggregate_text (m : byte) (n : Z) :
  put_crlf (put_int (put_u8 [] m) n) = m :: int_display n ++ CRLF.
Proof. done. Qed.

Lemma encode_double_text v d : encode_to_vec (Double d) v = ","%byte :: put_double_text d ++ CRLF.
Proof.
  unfold encode_to_vec. cbn [encode]. rewrite put_double_app. done.
Qed.

Lemma encode_verbatim_text v f0 f1 f2 data :
  Z.of_nat (length data) + 4 < 2 ^ 63 ->
  encode_to_vec (Verbatim (f0, f1, f2) data) v =
  "="%byte :: int_display (Z.of_nat (length (f0 :: f1 :: f2 :: ":"%byte :: data))) ++ CRLF ++
    (f0 :: f1 :: f2 :: ":"%byte :: data) ++ CRLF.
Proof.
  intros Hl. unfold encode_to_vec. cbn [encode]. rewrite wrap_i64_small by (unfold in_i64; lia).
  replace (3 + 1 + Z.of_nat (length data)) with (Z.of_nat (length (f0 :: f1 :: f2 :: ":"%byte :: data)))
    by (cbn [length]; lia).
  unfold put_crlf, put_slice, put_int, put_u8, put_slice, format_i64. rewrite <- !app_assoc. done.
Qed.

(** What it takes for a parser to read one encoded value back at its place. *)
Definition reads {A} (parse : nat -> Parsed A) (input : bytes) (enc : A -> bytes) (a : A) : Prop :=
  forall p r, input = p ++ enc a ++ r -> parse (length p) = Ok (Some (a, (length p + length (enc a))%nat)).

Section Values.
Context (input p r : bytes) (limits : Limits) (inner : nat -> Parsed Frame).
Hypothesis Hlim : limits_ok limits.

Lemma parse_frame_marker (pre : bytes) (m : byte) (body : bytes) depth :
  input = pre ++ m :: body -> depth <= max_depth limits ->
  parse_frame input (length pre) limits depth =
  parse_by_type (fun pos => parse_frame input pos limits (depth + 1)) m input (length (pre ++ [m])) limits.
Proof using Type.
  intros -> Hd. rewrite parse_frame_unfold. unfold parse_frame_body.
  rewrite (proj2 (Z.ltb_ge _ _)), drop_at, length_app, Nat.add_1_r by done. done.
Qed.

Lemma text_line_at s make :
  input = p ++ s ++ CRLF ++ r -> line_ok s = true ->
  text_line input (length p) make = Ok (Some (make s, (length p + length s + 2)%nat)).
Proof using Type.
  unfold line_ok. rewrite andb_true_iff, bool_decide_eq_true. intros Hi [Hu Hn].
  unfold text_line. rewrite (read_line_at input p r s) by done. cbn [and_then].
  unfold str_from. by rewrite Hu.
Qed.

Lemma parsed_at {A} (a : A) (n m : nat) :
  n = m -> Ok (Some (a, n)) = (Ok (Some (a, m)) : Parsed A).
Proof using Type. by intros ->. Qed.

Lemma parse_bulk_at (b : bytes) is_error :
  input = p ++ int_display (Z.of_nat (length b)) ++ CRLF ++ b ++ CRLF ++ r ->
  Z.of_nat (length b) <= max_bulk_len limits -> (is_error = true -> utf8_valid b = true) ->
  parse_bulk input (length p) limits is_error =
  Ok (Some (if is_error then BulkError b else Bulk b,
    (length p + length (int_display (Z.of_nat (length b))) + length b + 4)%nat)).
Proof using Type*.
  intros Hi Hb He. destruct Hlim as (_ & Hmax & _). unfold parse_bulk.
  rewrite (parse_len_at input p (b ++ CRLF ++ r) (Z.of_nat (length b))) by (try done; unfold in_i64; lia). cbn [and_then].
  set (n := Z.of_nat (length b)) in *. assert (0 <= n) by lia.
  destruct (Z.eqb_spec n (-1)); [lia|]. cbn [andb].
  destruct (Z.ltb_spec n 0); [lia|]. destruct (Z.ltb_spec (max_bulk_len limits) n); [lia|].
  replace (length p + length (int_display n) + 2)%nat with (length (p ++ int_display n ++ CRLF))
    by (rewrite !length_app; cbn; lia).
  unfold n. rewrite (parse_payload_at input (p ++ int_display (Z.of_nat (length b)) ++ CRLF) r) by (by rewrite Hi, <- !app_assoc).
  cbn [and_then]. rewrite !length_app. cbn [CRLF length].
  destruct is_error; [unfold str_from; rewrite He by done|]; apply parsed_at; unfold n; lia.
Qed.

Lemma parse_verbatim_at f0 f1 f2 (data : bytes) :
  input = p ++ int_display (Z.of_nat (length (f0 :: f1 :: f2 :: ":"%byte :: data))) ++ CRLF ++
    (f0 :: f1 :: f2 :: ":"%byte :: data) ++ CRLF ++ r ->
  Z.of_nat (4 + length data) <= max_bulk_len limits ->
  parse_verbatim input (length p) limits =
  Ok (Some (Verbatim (f0, f1, f2) data,
    (length p + length (int_display (Z.of_nat (length (f0 :: f1 :: f2 :: ":"%byte :: data)))) +
     length (f0 :: f1 :: f2 :: ":"%byte :: data) + 4)%nat)).
Proof using Type*.
  destruct Hlim as (_ & Hmax & _). set (b := f0 :: f1 :: f2 :: ":"%byte :: data).
  assert (Hlen : length b = (4 + length data)%nat) by done. rewrite <- Hlen.
  intros Hi Hb. unfold parse_verbatim.
  rewrite (parse_len_at input p (b ++ CRLF ++ r) (Z.of_nat (length b))) by (try done; unfold in_i64; lia). cbn [and_then].
  destruct (Z.ltb_spec (Z.of_nat (length b)) 4); [lia|].
  destruct (Z.ltb_spec (max_bulk_len limits) (Z.of_nat (length b))); [lia|].
  set (n := Z.of_nat (length b)) in *.
  replace (length p + length (int_display n) + 2)%nat with (length (p ++ int_display n ++ CRLF))
    by (rewrite !length_app; cbn; lia).
  unfold n. rewrite (parse_payload_at input (p ++ int_display (Z.of_nat (length b)) ++ CRLF) r) by (by rewrite Hi, <- !app_assoc). cbn [and_then].
  unfold b at 1. rewrite decide_False by (intros H'; by apply H').
  rewrite !length_app. cbn [CRLF length]. apply parsed_at. unfold n. lia.
Qed.

Lemma parse_aggregate_at {A} (enc : A -> bytes) (parse : nat -> Parsed A) (items : list A) pos :
  input = p ++ int_display (Z.of_nat (length items)) ++ CRLF ++ concat (enc <$> items) ++ r ->
  (forall a, a ∈ items -> reads parse input enc a) ->
  pos = (length p + length (int_display (Z.of_nat (length items))) + 2)%nat ->
  parse_items parse (Z.to_nat (Z.of_nat (length items))) pos [] =
  Ok (Some (items, (pos + length (concat (enc <$> items)))%nat)).
Proof using Type.
  intros Hi Hr ->. rewrite Nat2Z.id.
  replace (length p + length (int_display (Z.of_nat (length items))) + 2)%nat
    with (length (p ++ int_display (Z.of_nat (length items)) ++ CRLF)) by (rewrite !length_app; cbn; lia).
  rewrite (parse_items_at input r parse enc items []); [done|by rewrite Hi, <- !app_assoc|].
  intros a q s Ha. by apply Hr.
Qed.

Lemma aggregate_at (enc : Frame -> bytes) (items : list Frame) kind :
  input = p ++ int_display (Z.of_nat (length items)) ++ CRLF ++ concat (enc <$> items) ++ r ->
  (forall a, a ∈ items -> reads inner input enc a) -> Z.of_nat (length items) <= max_array_len limits ->
  parse_aggregate inner input (length p) limits kind =
  Ok (Some (aggregate_frame kind items,
    (length p + length (int_display (Z.of_nat (length items))) + 2 + length (concat (enc <$> items)))%nat)).
Proof using Type*.
  intros Hi Hr Hn. destruct Hlim as (_ & _ & Hmax). unfold parse_aggregate.
  rewrite (parse_len_at input p (concat (enc <$> items) ++ r) (Z.of_nat (length items))) by (try done; unfold in_i64; lia).
  cbn [and_then]. destruct (Z.eqb_spec (Z.of_nat (length items)) (-1)); [lia|].
  destruct (Z.ltb_spec (Z.of_nat (length items)) 0); [lia|].
  destruct (Z.ltb_spec (max_array_len limits) (Z.of_nat (length items))); [lia|].
  by rewrite (parse_aggregate_at enc inner items _ Hi Hr eq_refl).
Qed.

Lemma map_at (enc : Frame -> bytes) (pairs : list (Frame * Frame)) :
  input = p ++ int_display (Z.of_nat (length pairs)) ++ CRLF ++
    concat ((fun kv => enc kv.1 ++ enc kv.2) <$> pairs) ++ r ->
  (forall kv, kv ∈ pairs -> reads inner input enc kv.1 /\ reads inner input enc kv.2) ->
  Z.of_nat (length pairs) <= max_array_len limits ->
  parse_map inner input (length p) limits =
  Ok (Some (Map pairs, (length p + length (int_display (Z.of_nat (length pairs))) + 2 +
    length (concat ((fun kv => enc kv.1 ++ enc kv.2) <$> pairs)))%nat)).
Proof using Type*.
  intros Hi Hr Hn. destruct Hlim as (_ & _ & Hmax). unfold parse_map.
  rewrite (parse_len_at input p (concat ((fun kv => enc kv.1 ++ enc kv.2) <$> pairs) ++ r) (Z.of_nat (length pairs)))
    by (try done; unfold in_i64; lia).
  cbn [and_then]. destruct (Z.ltb_spec (Z.of_nat (length pairs)) 0); [lia|].
  destruct (Z.ltb_spec (max_array_len limits) (Z.of_nat (length pairs))); [lia|].
  rewrite (parse_aggregate_at (fun kv => enc kv.1 ++ enc kv.2) (parse_pair inner) pairs _ Hi); [done| |done].
  intros [k v] [Hk Hv]%Hr q s Hq. cbn [fst snd] in *. unfold parse_pair. rewrite <- app_assoc in Hq.
  rewrite (Hk q (enc v ++ s)) by done. cbn [and_then].
  rewrite <- length_app, (Hv (q ++ enc k) s) by (by rewrite Hq, <- app_assoc). cbn [and_then].
  by rewrite !length_app, Nat.add_assoc.
Qed.
End Values.

Lemma items_depth (items : list Frame) a :
  a ∈ items -> (frame_depth a <= fold_right (fun x n => Nat.max (frame_depth x) n) 0%nat items)%nat.
Proof.
  induction items as [|x items IH]; [by intros ?%not_elem_of_nil|].
  rewrite elem_of_cons. cbn [fold_right]. intros [->|H%IH]; lia.
Qed.

Lemma pairs_depth (pairs : list (Frame * Frame)) kv :
  kv ∈ pairs ->
  (frame_depth kv.1 <= fold_right (fun kv n => Nat.max (Nat.max (frame_depth kv.1) (frame_depth kv.2)) n) 0%nat pairs)%nat /\
  (frame_depth kv.2 <= fold_right (fun kv n => Nat.max (Nat.max (frame_depth kv.1) (frame_depth kv.2)) n) 0%nat pairs)%nat.
Proof.
  induction pairs as [|x pairs IH]; [by intros ?%not_elem_of_nil|].
  rewrite elem_of_cons. cbn [fold_right]. intros [->|H%IH]; lia.
Qed.

Lemma length_positive_snoc (pre : bytes) (m : byte) : length (pre ++ [m]) = S (length pre).
Proof. rewrite length_app. cbn. lia. Qed.

(** At any place and depth, the parser reads the encoded frame back. *)
Definition reads_back (limits : Limits) (version : RespVersion) (f : Frame) : Prop :=
  forall input depth,
    frame_ok limits f = true -> depth + Z.of_nat (frame_depth f) <= max_depth limits ->
    reads (fun pos => parse_frame input pos limits depth) input (fun f => encode_to_vec f version) f.

Section ReadBack.
Context (limits : Limits) (version : RespVersion).
Hypothesis Hlim : limits_ok limits.

Lemma reads_line (m : byte) (make : bytes -> Frame) s :
  (forall s, encode_to_vec (make s) version = m :: s ++ CRLF) ->
  (forall inner input pos, parse_by_type inner m input pos limits = text_line input pos make) ->
  frame_ok limits (make s) = line_ok s -> frame_depth (make s) = 0%nat ->
  reads_back limits version (make s).
Proof using Type.
  intros Henc Hty Hok Hdep input depth Hf Hd q rest Hq. rewrite Hok in Hf. rewrite Hdep in Hd.
  rewrite Henc in Hq |- *. cbn [app] in Hq. rewrite <- app_assoc in Hq.
  rewrite (parse_frame_marker _ _ q _ _ _ Hq), Hty by lia.
  rewrite (text_line_at input (q ++ [m]) rest s make) by (first [done|by rewrite Hq, <- app_assoc]).
  apply parsed_at. rewrite length_positive_snoc. cbn [length]. rewrite length_app. cbn. lia.
Qed.

Lemma reads_bulk (m : byte) (make : bytes -> Frame) (b : bytes) is_error :
  (forall b, encode_to_vec (make b) version = m :: int_display (len_i64 b) ++ CRLF ++ b ++ CRLF) ->
  (forall inner input pos, parse_by_type inner m input pos limits = parse_bulk input pos limits is_error) ->
  Z.of_nat (length b) <= max_bulk_len limits -> (is_error = true -> utf8_valid b = true) ->
  make b = (if is_error then BulkError b else Bulk b) ->
  reads_back limits version (make b).
Proof using Hlim.
  intros Henc Hty Hb Hu Hmk input depth Hf Hd q rest Hq. destruct (Hlim) as (_ & Hmax & _).
  rewrite Henc, (len_i64_small b _ Hb Hmax) in Hq |- *. cbn [app] in Hq. rewrite <- !app_assoc in Hq.
  rewrite (parse_frame_marker _ _ q _ _ _ Hq), Hty by lia.
  rewrite (parse_bulk_at input (q ++ [m]) rest limits Hlim b is_error) by
    (first [done|by rewrite Hq, <- app_assoc]).
  rewrite Hmk. apply parsed_at. rewrite length_positive_snoc. cbn [length]. rewrite !length_app. cbn. lia.
Qed.

Lemma reads_aggregate (m : byte) (kind : Aggregate) (items : list Frame) :
  encode_to_vec (aggregate_frame kind items) version =
    m :: int_display (len_i64 items) ++ CRLF ++ encode_all version items ->
  (forall inner input pos, parse_by_type inner m input pos limits = parse_aggregate inner input pos limits kind) ->
  Forall (reads_back limits version) items ->
  reads_back limits version (aggregate_frame kind items).
Proof using Hlim.
  intros Henc Hty IH input depth Hf Hd q rest Hq. destruct (Hlim) as (_ & _ & Hmax).
  assert (Hn : Z.of_nat (length items) <= max_array_len limits /\ forallb (frame_ok limits) items = true).
  { destruct kind; cbn [aggregate_frame frame_ok] in Hf; rewrite andb_true_iff, Z.leb_le in Hf; done. }
  destruct Hn as [Hn Hall].
  assert (Hdi : forall a, a ∈ items -> depth + 1 + Z.of_nat (frame_depth a) <= max_depth limits).
  { intros a Ha%items_depth. destruct kind; cbn [aggregate_frame frame_depth] in Hd; lia. }
  rewrite Henc, (len_i64_small items _ Hn Hmax) in Hq |- *. cbn [app] in Hq. rewrite <- !app_assoc in Hq.
  rewrite (parse_frame_marker _ _ q _ _ _ Hq), Hty by lia.
  rewrite (aggregate_at input (q ++ [m]) rest limits _ Hlim (fun f => encode_to_vec f version) items kind).
  - apply parsed_at. rewrite length_positive_snoc. cbn [length]. rewrite !length_app. unfold encode_all. cbn. lia.
  - by rewrite Hq, <- app_assoc.
  - intros a Ha. rewrite list.Forall_forall in IH. apply (IH a Ha); [|by apply Hdi].
    rewrite forallb_forall in Hall. by apply Hall, list_elem_of_In.
  - done.
Qed.

Lemma reads_map (pairs : list (Frame * Frame)) :
  Forall (fun kv => reads_back limits version kv.1 /\ reads_back limits version kv.2) pairs ->
  reads_back limits version (Map pairs).
Proof using Hlim.
  intros IH input depth Hf Hd q rest Hq. destruct (Hlim) as (_ & _ & Hmax).
  cbn [frame_ok] in Hf. rewrite andb_true_iff, Z.leb_le in Hf. destruct Hf as [Hn Hall].
  cbn [frame_depth] in Hd.
  assert (Henc : encode_to_vec (Map pairs) version = "%"%byte :: int_display (Z.of_nat (length pairs)) ++ CRLF ++
    concat ((fun kv => encode_to_vec kv.1 version ++ encode_to_vec kv.2 version) <$> pairs)).
  { unfold encode_to_vec at 1. cbn [encode].
    rewrite encode_pairs, (len_i64_small pairs _ Hn Hmax), encode_aggregate_text.
    cbn [app]. by rewrite <- app_assoc. }
  rewrite Henc in Hq |- *. cbn [app] in Hq. rewrite <- !app_assoc in Hq.
  rewrite (parse_frame_marker _ _ q _ _ _ Hq) by lia. cbn [parse_by_type].
  rewrite (map_at input (q ++ ["%"%byte]) rest limits _ Hlim (fun f => encode_to_vec f version) pairs).
  - apply parsed_at. rewrite length_positive_snoc. cbn [length]. rewrite !length_app. cbn. lia.
  - by rewrite Hq, <- app_assoc.
  - intros kv Hkv. rewrite list.Forall_forall in IH. destruct (IH kv Hkv) as [Hk Hv].
    rewrite forallb_forall in Hall. assert (Hok := Hall kv (proj1 (list_elem_of_In _ _) Hkv)).
    apply andb_true_iff in Hok as [Ok1 Ok2]. destruct (pairs_depth pairs kv Hkv).
    split; [apply Hk|apply Hv]; (done || lia).
  - done.
Qed.

Lemma reads_double d : reads_back limits version (Double d).
Proof using Type.
  intros input depth Hf Hd q rest Hq. cbn [frame_ok] in Hf. destruct (double_of_put d Hf) as (Hof & Hu & Hcr).
  rewrite encode_double_text in Hq |- *. cbn [app frame_depth] in Hq, Hd. rewrite <- app_assoc in Hq.
  rewrite (parse_frame_marker _ _ q _ _ _ Hq) by lia. cbn [parse_by_type]. unfold parse_double.
  rewrite (read_line_at input (q ++ [","%byte]) rest (put_double_text d))
    by (first [by rewrite Hq, <- app_assoc|by apply no_cr_no_crlf]).
  cbn [and_then]. unfold str_from. rewrite Hu, Hof.
  apply parsed_at. rewrite length_positive_snoc. cbn [length]. rewrite length_app. cbn. lia.
Qed.

Lemma reads_integer n : reads_back limits version (Integer n).
Proof using Type.
  intros input depth Hf Hd q rest Hq. cbn [frame_ok frame_depth] in *. apply bool_decide_eq_true in Hf.
  change (encode_to_vec (Integer n) version) with (":"%byte :: int_display n ++ CRLF) in Hq |- *.
  cbn [app] in Hq. rewrite <- app_assoc in Hq.
  rewrite (parse_frame_marker _ _ q _ _ _ Hq) by lia. cbn [parse_by_type].
  replace (parse_integer input (length (q ++ [":"%byte])))
    with (let? (n, next) := parse_len input (length (q ++ [":"%byte])) in Ok (Some (Integer n, next))).
  - rewrite (parse_len_at input (q ++ [":"%byte]) rest n) by (first [by rewrite Hq, <- app_assoc|done]).
    cbn [and_then]. apply parsed_at. rewrite length_positive_snoc. cbn [length]. rewrite length_app. cbn. lia.
  - unfold parse_integer, parse_len. destruct (read_line _ _) as [[[l k]|]|]; [|done..].
    cbn [and_then]. by destruct (parse_i64 l).
Qed.
End ReadBack.

Lemma frame_reads_back limits version f : limits_ok limits -> reads_back limits version f.
Proof.
  intros Hlim. induction f as [s|s|n|b|items IH| |v|d|s|s|[[f0 f1] f2] data|pairs IH|items IH|items IH] using Frame_ind.
  - by apply (reads_line limits version "+"%byte Simple).
  - by apply (reads_line limits version "-"%byte Error).
  - apply reads_integer.
  - intros input depth Hf. apply (reads_bulk limits version Hlim "$"%byte Bulk b false); try done.
    + intros b'. apply encode_bulk_text.
    + cbn [frame_ok] in Hf. lia.
  - apply (reads_aggregate limits version Hlim "*"%byte AggArray items); [|done|done].
    unfold encode_to_vec. cbn [encode aggregate_frame].
    rewrite encode_items, encode_aggregate_text. cbn [app]. by rewrite <- app_assoc.
  - intros input depth _ Hd q rest Hq. cbn [frame_depth] in Hd. destruct version.
    + change (encode_to_vec Null V2) with ("$"%byte :: int_display (-1) ++ CRLF) in Hq |- *.
      cbn [app] in Hq. rewrite <- app_assoc in Hq.
      rewrite (parse_frame_marker _ _ q _ _ _ Hq) by lia. cbn [parse_by_type]. unfold parse_bulk.
      rewrite (parse_len_at input (q ++ ["$"%byte]) rest (-1)) by (first [by rewrite Hq, <- app_assoc|done]).
      cbn [and_then]. apply parsed_at. rewrite length_positive_snoc. cbn [length]. rewrite length_app.
      change (length CRLF) with 2%nat. lia.
    + change (encode_to_vec Null V3) with ("_"%byte :: [] ++ CRLF) in Hq |- *. cbn [app] in Hq.
      rewrite (parse_frame_marker _ _ q _ _ _ Hq) by lia. cbn [parse_by_type]. unfold parse_null.
      rewrite (read_line_at input (q ++ ["_"%byte]) rest []) by (first [by rewrite Hq, <- app_assoc|done]).
      cbn [and_then]. rewrite decide_False by (intros H; by apply H).
      apply parsed_at. rewrite length_positive_snoc. cbn. lia.
  - intros input depth _ Hd q rest Hq. cbn [frame_depth] in Hd.
    assert (E : encode_to_vec (Boolean v) version = "#"%byte :: (if v then B "t" else B "f") ++ CRLF) by by destruct v.
    rewrite E in Hq |- *. cbn [app] in Hq. rewrite <- app_assoc in Hq.
    rewrite (parse_frame_marker _ _ q _ _ _ Hq) by lia. cbn [parse_by_type]. unfold parse_boolean.
    rewrite (read_line_at input (q ++ ["#"%byte]) rest (if v then B "t" else B "f"))
      by (first [by rewrite Hq, <- app_assoc|by destruct v]).
    cbn [and_then]. destruct v; apply parsed_at; rewrite length_positive_snoc; cbn; lia.
  - apply reads_double.
  - by apply (reads_line limits version "("%byte BigNumber).
  - intros input depth Hf. cbn [frame_ok] in Hf. rewrite andb_true_iff, Z.leb_le in Hf. destruct Hf as [Hu Hl].
    apply (reads_bulk limits version Hlim "!"%byte BulkError s true); try done.
    + intros b'. apply encode_bulk_text.
    + cbn [frame_ok]. rewrite Hu. by apply Z.leb_le.
  - intros input depth Hf Hd q rest Hq. cbn [frame_ok frame_depth] in *. apply Z.leb_le in Hf.
    destruct (Hlim) as (_ & Hmax & _). rewrite encode_verbatim_text in Hq |- * by lia.
    set (b := f0 :: f1 :: f2 :: ":"%byte :: data) in *. cbn [app] in Hq. rewrite <- !app_assoc in Hq.
    rewrite (parse_frame_marker _ _ q _ _ _ Hq) by lia. cbn [parse_by_type].
    rewrite (parse_verbatim_at input (q ++ ["="%byte]) rest limits Hlim f0 f1 f2 data)
      by (first [by rewrite Hq, <- app_assoc|done]).
    apply parsed_at. fold b. rewrite length_positive_snoc. cbn [length]. rewrite !length_app. cbn [length CRLF]. lia.
  - by apply reads_map.
  - apply (reads_aggregate limits version Hlim "~"%byte AggSet items); [|done|done].
    unfold encode_to_vec. cbn [encode aggregate_frame].
    rewrite encode_items, encode_aggregate_text. cbn [app]. by rewrite <- app_assoc.
  - apply (reads_aggregate limits version Hlim ">"%byte AggPush items); [|done|done].
    unfold encode_to_vec. cbn [encode aggregate_frame].
    rewrite encode_items, encode_aggregate_text. cbn [app]. by rewrite <- app_assoc.
Qed.

Lemma decode_encoded limits version f rest :
  limits_ok limits -> sendable limits f ->
  decode (encode_to_vec f version ++ rest) limits = (rest, Ok (Some f)).
Proof.
  intros Hlim [Hf Hd]. unfold decode.
  pose proof (frame_reads_back limits version f Hlim (encode_to_vec f version ++ rest) 0 Hf Hd [] rest eq_refl) as H.
  cbn [length] in H. rewrite H, Nat.add_0_l. by rewrite drop_app_length.
Qed.

(** C8. Encode then decode is the identity: a frame of any kind and nesting
    within the decoder's limits, written for either protocol version, decodes to
    itself, and the bytes after it stay in the buffer. *)
Theorem decode_encode (limits : Limits) (version : RespVersion) (f : Frame) (rest : bytes) :
  limits_ok limits -> sendable limits f ->
  decode (encode_to_vec f version ++ rest) limits = (rest, Ok (Some f)).
Proof. apply decode_encoded. Qed.

(** ** Frames as a stream codec *)

#[export] Instance frame_codec limits version (Hlim : limits_ok limits) :
  StreamCodec (fun f => encode_to_vec f version) (decoder limits) (sendable limits).
Proof.
  split.
  - intros f Hf E. pose proof (decode_encoded limits version f [] Hlim Hf) as H. rewrite E in H.
    destruct (decode_some_app _ _ _ _ [] H) as [_ Hl]. cbn in Hl. lia.
  - destruct Hlim as [Hd _]. unfold decode. rewrite parse_frame_unfold. unfold parse_frame_body.
    by rewrite (proj2 (Z.ltb_ge _ _)) by done.
  - intros f b y Hf Hb Hy. pose proof (decode_encoded limits version f [] Hlim Hf) as H.
    rewrite app_nil_r, <- Hb in H.
    destruct (decode b limits) as [b' [[f'|]|e]] eqn:E.
    + destruct (decode_some_app _ _ _ _ y E) as [E' _]. rewrite H in E'. injection E' as Hnil _.
      by destruct b', y.
    + by rewrite (decode_none_buf _ _ _ E).
    + by rewrite (decode_err_app _ _ _ _ y E) in H.
  - intros f y Hf. by apply decode_encoded.
Qed.

(** ** Requests as a stream codec *)

(** A client's request, an array of bulk strings. *)
Definition encode_request (args : list bytes) : bytes := encode_to_vec (Array (Bulk <$> args)) V2.

Definition request_ok (limits : Limits) (args : list bytes) : Prop :=
  Z.of_nat (length args) <= max_array_len limits /\
  Forall (fun a => Z.of_nat (length a) <= max_bulk_len limits) args.

Lemma parse_arg_extends input x limits pos : extends (parse_arg input limits pos) (parse_arg (input ++ x) limits pos).
Proof.
  unfold parse_arg. destruct (drop pos input) as [|b r] eqn:E; [by left|].
  rewrite (drop_app_cons _ x _ _ _ E). destruct (decide _); [auto with gs|].
  apply extends_and_then; [apply parse_len_extends|]. intros len k _.
  destruct (Z.ltb_spec len 0); [auto with gs|]. destruct (_ <? _); [auto with gs|].
  by apply parse_payload_extends.
Qed.

Lemma parse_multibulk_extends input x limits :
  extends (parse_multibulk input limits) (parse_multibulk (input ++ x) limits).
Proof.
  apply extends_and_then; [apply parse_len_extends|]. intros count n _.
  destruct (_ <=? _); [auto with gs|]. destruct (_ <? _); [auto with gs|].
  apply parse_items_extends. intros pos. apply parse_arg_extends.
Qed.

Lemma parse_arg_within input limits pos : within input pos (parse_arg input limits pos).
Proof.
  intros a m. unfold parse_arg, and_then. destruct (drop pos input); [done|]. destruct (decide _); [done|].
  pose proof (parse_len_within input (S pos)) as Hw.
  destruct (parse_len _ (S pos)) as [[[len h]|]|]; [|done..]. specialize (Hw len h eq_refl).
  destruct (Z.ltb_spec len 0); [done|]. destruct (_ <? _); [done|].
  intros Ha%parse_payload_within; [lia|done].
Qed.

Lemma parse_multibulk_within input limits args n :
  parse_multibulk input limits = Ok (Some (args, n)) -> (1 < n <= length input)%nat.
Proof.
  unfold parse_multibulk, and_then. pose proof (parse_len_within input 1) as Hw.
  destruct (parse_len _ 1) as [[[k pos]|]|]; [|done..]. specialize (Hw k pos eq_refl).
  destruct (_ <=? _); [intros [= <- <-]; lia|]. destruct (_ <? _); [done|].
  intros Hp. apply (parse_items_within _ input) in Hp; [lia| |lia]. intros p. apply parse_arg_within.
Qed.

Lemma encode_request_text limits args :
  limits_ok limits -> request_ok limits args ->
  encode_request args = "*"%byte :: int_display (Z.of_nat (length args)) ++ CRLF ++
    concat ((fun a => encode_to_vec (Bulk a) V2) <$> args).
Proof.
  intros (_ & _ & Hmax) [Hn _]. unfold encode_request, encode_to_vec at 1. cbn [encode].
  rewrite encode_items, encode_aggregate_text. cbn [app]. rewrite <- app_assoc.
  rewrite (len_i64_small _ (max_array_len limits)) by (try done; by rewrite length_fmap).
  rewrite length_fmap. unfold encode_all. by rewrite <- list_fmap_compose.
Qed.

Lemma parse_multibulk_request limits args rest :
  limits_ok limits -> request_ok limits args ->
  parse_multibulk (encode_request args ++ rest) limits = Ok (Some (args, length (encode_request args))).
Proof.
  intros Hlim Hok. rewrite (encode_request_text limits) by done.
  destruct Hok as [Hn Hall]. destruct (Hlim) as (_ & Hmax & Hmax').
  set (items := concat ((fun a => encode_to_vec (Bulk a) V2) <$> args)).
  set (cnt := Z.of_nat (length args)). set (input := (_ :: _) ++ rest).
  assert (Hi : input = ["*"%byte] ++ int_display cnt ++ CRLF ++ items ++ rest)
    by (unfold input; cbn [app]; by rewrite <- !app_assoc).
  unfold parse_multibulk. change 1%nat with (length ["*"%byte]).
  rewrite (parse_len_at input ["*"%byte] (items ++ rest) cnt) by (try done; unfold in_i64; lia).
  cbn [and_then]. destruct (Z.leb_spec cnt 0).
  { destruct args; [|cbn in *; lia]. done. }
  destruct (Z.ltb_spec (max_array_len limits) cnt); [lia|].
  rewrite (parse_aggregate_at input ["*"%byte] rest (fun a => encode_to_vec (Bulk a) V2)
    (parse_arg input limits) args _ Hi); [| |done].
  - apply parsed_at. fold items. cbn [length]. rewrite !length_app. cbn. lia.
  - intros a Ha q r Hq. rewrite list.Forall_forall in Hall. specialize (Hall a Ha). cbn in Hall.
    unfold encode_to_vec in Hq |- *. cbn [encode] in Hq |- *. rewrite encode_bulk_text in Hq |- *.
    rewrite (len_i64_small a _ Hall Hmax) in Hq |- *. cbn [app] in Hq. rewrite <- !app_assoc in Hq.
    unfold parse_arg. rewrite Hq at 1. rewrite drop_at. rewrite decide_False by (intros H'; by apply H').
    rewrite <- length_positive_snoc with (m := "$"%byte).
    rewrite (parse_len_at input (q ++ ["$"%byte]) (a ++ CRLF ++ r) (Z.of_nat (length a)))
      by (try (by rewrite Hq, <- app_assoc); unfold in_i64; lia).
    cbn [and_then]. destruct (Z.ltb_spec (Z.of_nat (length a)) 0); [lia|].
    destruct (Z.ltb_spec (max_bulk_len limits) (Z.of_nat (length a))); [lia|].
    replace (length (q ++ ["$"%byte]) + length (int_display (Z.of_nat (length a))) + 2)%nat
      with (length ((q ++ ["$"%byte]) ++ int_display (Z.of_nat (length a)) ++ CRLF))
      by (rewrite !length_app; cbn; lia).
    rewrite (parse_payload_at input ((q ++ ["$"%byte]) ++ int_display (Z.of_nat (length a)) ++ CRLF) r)
      by (by rewrite Hq, <- !app_assoc).
    apply parsed_at. cbn [length]. rewrite !length_app. cbn [length CRLF]. lia.
Qed.

Abbreviation command_decoder limits := (fun buf => decode_command buf limits).

Lemma decode_command_request limits args rest :
  limits_ok limits -> request_ok limits args ->
  decode_command (encode_request args ++ rest) limits = (rest, Ok (Some args)).
Proof.
  intros Hlim Hok. pose proof (parse_multibulk_request limits args rest Hlim Hok) as H.
  unfold decode_command. destruct (encode_request args ++ rest) as [|b l] eqn:E.
  { rewrite (encode_request_text limits) in E by done. done. }
  assert (b = "*"%byte) as ->.
  { rewrite (encode_request_text limits) in E by done. by injection E as <- _. }
  rewrite decide_True by done. rewrite H, <- E. by rewrite drop_app_length.
Qed.

#[export] Instance request_codec limits (Hlim : limits_ok limits) :
  StreamCodec encode_request (command_decoder limits) (request_ok limits).
Proof.
  split; [|done| |].
  - intros args Hok. by rewrite (encode_request_text limits).
  - intros args b y Hok Hb Hy. pose proof (decode_command_request limits args [] Hlim Hok) as H.
    rewrite app_nil_r, <- Hb in H. destruct b as [|c b]; [done|].
    assert (c = "*"%byte) as ->.
    { rewrite (encode_request_text limits) in Hb by done. by injection Hb as -> _. }
    unfold decode_command in H |- *. cbn [app] in H. rewrite decide_True in H |- * by done.
    pose proof (parse_multibulk_extends ("*"%byte :: b) y limits) as [->|He]; [done|].
    cbn [app] in He. rewrite He in H. clear He.
    destruct (parse_multibulk ("*"%byte :: b) limits) as [[[l n]|]|e] eqn:E; [|done..].
    exfalso. injection H as Hn _.
    pose proof (parse_multibulk_within _ _ _ _ E) as Hw.
    assert (Hlen : length (drop n ("*"%byte :: b ++ y)) = 0%nat) by by rewrite Hn.
    rewrite length_drop in Hlen. cbn [length] in *. rewrite length_app in Hlen.
    assert (0 < length y)%nat by (destruct y; [done|cbn; lia]). lia.
  - intros args y Hok. by apply decode_command_request.
Qed.

(** However a client's pipelined requests are cut by the network, the
    server's decoder receives exactly those requests, in order, and nothing is
    left over. *)
Lemma requests_received (limits : Limits) (reqs : list (list bytes)) (chunks : list bytes) :
  limits_ok limits -> Forall (request_ok limits) reqs ->
  concat chunks = concat (encode_request <$> reqs) ->
  feed (command_decoder limits) [] chunks = (reqs, Ok []).
Proof.
  intros Hlim Hok Hc. pose proof (request_codec limits Hlim).
  by apply (feed_stream (valid := request_ok limits) (enc := encode_request)).
Qed.

Lemma line_ok_decode s rest limits (make : bytes -> Frame) :
  limits_ok limits -> line_ok s = true -> make = Simple \/ make = Error ->
  decode (encode_to_vec (make s) V2 ++ rest) limits = (rest, Ok (Some (make s))).
Proof.
  intros Hlim Hs [-> | ->]; apply decode_encoded; try done; split; try done; apply Hlim.
Qed.

(** An error text with CR LF in it is not one reply: the receiver reads the
    part before it as the error, and takes what the text says next for a reply
    of its own. *)
Lemma error_text_splits (limits : Limits) (version : RespVersion) (s t rest : bytes) :
  limits_ok limits -> line_ok s = true ->
  decode (encode_to_vec (Error (s ++ CRLF ++ t)) version ++ rest) limits =
  (t ++ CRLF ++ rest, Ok (Some (Error s))).
Proof.
  intros Hlim Hs. rewrite <- (line_ok_decode s (t ++ CRLF ++ rest) limits Error) by auto.
  f_equal. change (encode_to_vec (Error ?x) ?v) with ("-"%byte :: x ++ CRLF).
  cbn [app]. by rewrite <- !app_assoc.
Qed.

(** ** Witnesses *)

Definition demo_limits : Limits := mk_Limits 64 8 16 4.

Definition demo_frame : Frame :=
  Map [(Simple (B "k"), Array [Double (1023 * 2 ^ 52); Null; Bulk CRLF]);
       (Verbatim ("t", "x", "t")%byte (B "hi"), Set_ [Integer (-5); Boolean true; BulkError (B "E x")])].

Lemma decode_encode_witness :
  decode (encode_to_vec demo_frame V3 ++ B "+tail") demo_limits = (B "+tail", Ok (Some demo_frame)).
Proof.
  apply (decode_encode demo_limits V3 demo_frame (B "+tail")).
  - split; [done|]. split; done.
  - split; [vm_compute; reflexivity|done].
Defined.
