(* ===== verification/Inline.v ===== *)
(** * Inline commands

    Properties of the tokenizer of Decode.v and of the inline branch of
    [decode_command]: every argument list can be sent inline when its arguments
    are quoted, and the early rejection of an unfinished line is off by one. *)

From S2P Require Import Prelude F64 Text F64Text Frame Encode Decode Streaming RoundTrip.

(** ** Quoting *)

Definition QUOTE : byte := x22%byte.
Definition BACKSLASH : byte := x5c%byte.

(** How a client quotes one byte: itself when it is printable and neither a
    quote nor a backslash, a hexadecimal escape otherwise. *)
Definition quote_byte (b : byte) : bytes :=
  if printable b && negb (bool_decide (b = QUOTE)) && negb (bool_decide (b = BACKSLASH)) then [b]
  else BACKSLASH :: "x"%byte :: hex02 b.

Definition quote_arg (a : bytes) : bytes := QUOTE :: concat (quote_byte <$> a) ++ [QUOTE].

(** The arguments, quoted, separated by spaces. *)
Fixpoint quote_line (args : list bytes) : bytes :=
  match args with
  | [] => []
  | [a] => quote_arg a
  | a :: args' => quote_arg a ++ " "%byte :: quote_line args'
  end.

Lemma hex02_decode b :
  exists h1 h2, hex02 b = [h1; h2] /\ is_hex h1 = true /\ is_hex h2 = true /\
    byte_of_Z (Z.lor (Z.shiftl (hex_val h1) 4) (hex_val h2)) = b.
Proof. destruct b; eexists _, _; (split; [reflexivity|]); vm_compute; done. Qed.

(** Reading back one quoted byte. *)
Lemma double_quoted_byte fuel b l cur :
  double_quoted (S fuel) (quote_byte b ++ l) cur = double_quoted fuel l (cur ++ [b]).
Proof.
  unfold quote_byte. destruct (printable b && _ && _) eqn:E.
  - rewrite !andb_true_iff, !negb_true_iff, !bool_decide_eq_false in E. destruct E as [[_ H1] H2].
    cbn [app double_quoted]. rewrite decide_False by done.
    destruct (decide (b = "\"%byte)) as [->|]; [done|]. by destruct l.
  - destruct (hex02_decode b) as (h1 & h2 & -> & Hh1 & Hh2 & Hb).
    cbn [app double_quoted]. rewrite decide_False by done.
    destruct (decide (BACKSLASH = "\"%byte)) as [_|]; [|done].
    cbn [unescape_double]. rewrite Hh1, Hh2, Hb. cbn [andb drop]. done.
Qed.

Lemma double_quoted_arg (a rest cur : bytes) fuel :
  (length a < fuel)%nat -> (rest = [] \/ exists r, rest = " "%byte :: r) ->
  double_quoted fuel (concat (quote_byte <$> a) ++ QUOTE :: rest) cur = Ok (cur ++ a, rest).
Proof.
  intros Hf Hrest. revert fuel cur Hf. induction a as [|b a IH]; intros [|fuel] cur Hf; cbn [length] in Hf; try lia.
  - cbn [fmap list_fmap concat app double_quoted]. rewrite decide_True by done. rewrite app_nil_r.
    destruct Hrest as [->|[r ->]]; done.
  - cbn [fmap list_fmap concat]. rewrite <- app_assoc, double_quoted_byte, IH by lia.
    by rewrite <- app_assoc.
Qed.

Lemma quote_byte_length b : (1 <= length (quote_byte b))%nat.
Proof. unfold quote_byte. destruct (_ && _); cbn; lia. Qed.

Lemma quote_arg_length a : (length a < length (quote_arg a))%nat.
Proof.
  unfold quote_arg. cbn [length]. rewrite length_app. cbn [length].
  enough (length a <= length (concat (quote_byte <$> a)))%nat by lia.
  induction a as [|b a IH]; [done|]. cbn [fmap list_fmap concat length]. rewrite length_app.
  pose proof (quote_byte_length b). lia.
Qed.

(** One token off a quoted line. *)
Lemma split_inline_token fuel (a rest : bytes) args :
  (rest = [] \/ exists r, rest = " "%byte :: r) ->
  split_inline_go (S fuel) (quote_arg a ++ rest) args = split_inline_go fuel rest (args ++ [a]).
Proof.
  intros Hrest. unfold quote_arg. cbn [split_inline_go app].
  cbn [skip_spaces]. change (is_space QUOTE) with false. cbv iota. rewrite decide_True by done.
  rewrite <- app_assoc. cbn [app]. rewrite double_quoted_arg; [done| |done].
  rewrite length_app. pose proof (quote_arg_length a) as H. unfold quote_arg in H. cbn [length] in *.
  rewrite length_app in H. cbn [length] in H. lia.
Qed.

Lemma split_inline_space fuel r args : split_inline_go fuel (" "%byte :: r) args = split_inline_go fuel r args.
Proof. by destruct fuel. Qed.

Lemma split_inline_quoted_go fuel args acc :
  (length args <= fuel)%nat -> split_inline_go (S fuel) (quote_line args) acc = Ok (acc ++ args).
Proof.
  revert fuel acc. induction args as [|a args IH]; intros fuel acc Hf.
  - cbn. by rewrite app_nil_r.
  - destruct fuel as [|fuel]; [cbn in Hf; lia|]. destruct args as [|a' args].
    + cbn [quote_line]. rewrite <- (app_nil_r (quote_arg a)), split_inline_token by auto. done.
    + change (quote_line (a :: a' :: args)) with (quote_arg a ++ " "%byte :: quote_line (a' :: args)).
      rewrite split_inline_token by eauto. rewrite split_inline_space, IH by (cbn in *; lia).
      by rewrite <- app_assoc.
Qed.

Lemma quote_line_length args : (length args <= length (quote_line args))%nat.
Proof.
  induction args as [|a args IH]; [done|]. destruct args as [|a' args].
  - cbn [quote_line length]. pose proof (quote_arg_length a). lia.
  - change (quote_line (a :: a' :: args)) with (quote_arg a ++ " "%byte :: quote_line (a' :: args)).
    rewrite length_app. cbn [length] in *. pose proof (quote_arg_length a). lia.
Qed.

Lemma split_inline_quoted args : split_inline (quote_line args) = Ok args.
Proof.
  unfold split_inline. rewrite split_inline_quoted_go by apply quote_line_length. done.
Qed.

Lemma quote_line_printable args : Forall (fun b => printable b = true) (quote_line args).
Proof.
  assert (Hb : forall b, Forall (fun c => printable c = true) (quote_byte b)).
  { intros b. unfold quote_byte. destruct (printable b && _ && _) eqn:E.
    - rewrite !andb_true_iff in E. constructor; [tauto|constructor].
    - repeat constructor; destruct b; done. }
  assert (Ha : forall a, Forall (fun c => printable c = true) (quote_arg a)).
  { intros a. unfold quote_arg. constructor; [done|]. apply Forall_app. split; [|by repeat constructor].
    induction a as [|b a IH]; [constructor|]. cbn. apply Forall_app. split; [apply Hb|done]. }
  induction args as [|a args IH]; [constructor|]. destruct args as [|a' args]; [apply Ha|].
  change (quote_line (a :: a' :: args)) with (quote_arg a ++ " "%byte :: quote_line (a' :: args)).
  apply Forall_app. split; [apply Ha|]. by constructor.
Qed.

(** A line, complete in the buffer, that is no multibulk request. *)
Lemma decode_command_line (line rest : bytes) limits :
  CR ∉ line -> head line <> Some "*"%byte -> Z.of_nat (length line) <= max_inline_len limits ->
  decode_command (line ++ CRLF ++ rest) limits =
  match split_inline line with
  | Ok args => (rest, Ok (Some args))
  | Err e => (line ++ CRLF ++ rest, Err e)
  end.
Proof.
  intros Hcr Hstar Hlen.
  assert (Hread : read_line (line ++ CRLF ++ rest) 0 = Ok (Some (line, (length line + 2)%nat))).
  { apply (read_line_at (line ++ CRLF ++ rest) [] rest line); [done|by apply no_cr_no_crlf]. }
  unfold decode_command. destruct (line ++ CRLF ++ rest) as [|b l] eqn:E; [by destruct line|].
  rewrite decide_False.
  - rewrite Hread. destruct (Z.ltb_spec (max_inline_len limits) (Z.of_nat (length line))); [lia|].
    rewrite <- E. replace (length line + 2)%nat with (length (line ++ CRLF)) by (rewrite length_app; done).
    by rewrite app_assoc, drop_app_length.
  - intros ->. destruct line; [done|]. by injection E as -> _.
Qed.

(** C37. Any list of arguments, of any bytes, can be sent as an inline command:
    quoted, the line decodes back to exactly those arguments. *)
Theorem inline_roundtrip (limits : Limits) (args : list bytes) (rest : bytes) :
  Z.of_nat (length (quote_line args)) <= max_inline_len limits ->
  decode_command (quote_line args ++ CRLF ++ rest) limits = (rest, Ok (Some args)).
Proof.
  intros Hlen. rewrite decode_command_line, split_inline_quoted; [done| | |done].
  - apply printable_no_cr, quote_line_printable.
  - by destruct args as [|a [|a' args]].
Qed.

Lemma inline_roundtrip_witness :
  decode_command (quote_line [B "SET"; B "k"; CRLF ++ [QUOTE]] ++ CRLF ++ B "x") Limits_default =
  (B "x", Ok (Some [B "SET"; B "k"; CRLF ++ [QUOTE]])).
Proof. apply (inline_roundtrip Limits_default [B "SET"; B "k"; CRLF ++ [QUOTE]] (B "x")). vm_compute. done. Defined.

(** ** The early rejection *)

(** C38. A line of exactly the permitted length is accepted when its CR LF
    arrives whole, and rejected when the buffer ends between CR and LF: the early
    check counts the CR as part of the line. *)
Theorem inline_limit_off_by_one (limits : Limits) (line : bytes) (args : list bytes) :
  CR ∉ line -> head line <> Some "*"%byte -> Z.of_nat (length line) = max_inline_len limits ->
  split_inline line = Ok args ->
  decode_command (line ++ CRLF) limits = ([], Ok (Some args)) /\
  exists msg, decode_command (line ++ [CR]) limits = (line ++ [CR], Err (LimitExceeded msg)).
Proof.
  intros Hcr Hstar Hlen Hsplit. split.
  - pose proof (decode_command_line line [] limits Hcr Hstar ltac:(lia)) as H.
    rewrite app_nil_r, Hsplit in H. exact H.
  - assert (Hnone : read_line (line ++ [CR]) 0 = Ok None).
    { unfold read_line. rewrite decide_False by lia. rewrite drop_0.
      assert (Hf : forall l i, CR ∉ l -> find_crlf (l ++ [CR]) i = None).
      { clear. induction l as [|x l IH]; intros i Hl; [done|].
        apply not_elem_of_cons in Hl as [Hx Hl]. destruct l as [|y l].
        - cbn. rewrite decide_False by (intros [? _]; by subst). done.
        - change (find_crlf ((x :: y :: l) ++ [CR]) i) with
            (if decide (x = CR /\ y = LF) then Some i else find_crlf ((y :: l) ++ [CR]) (S i)).
          rewrite decide_False by (intros [? _]; by subst). by apply IH. }
      by rewrite Hf. }
    unfold decode_command. destruct (line ++ [CR]) as [|b l] eqn:E; [by destruct line|].
    rewrite decide_False; [|intros ->; destruct line; [done|by injection E as -> _]].
    rewrite Hnone. destruct (Z.ltb_spec (max_inline_len limits) (Z.of_nat (length (b :: l)))) as [_|Hge].
    + eauto.
    + rewrite <- E, length_app in Hge. cbn in Hge. lia.
Qed.

Lemma inline_limit_off_by_one_witness :
  decode_command (B "PING" ++ CRLF) (mk_Limits 10 10 4 2) = ([], Ok (Some [B "PING"])) /\
  exists msg, decode_command (B "PING" ++ [CR]) (mk_Limits 10 10 4 2) = (B "PING" ++ [CR], Err (LimitExceeded msg)).
Proof.
  apply (inline_limit_off_by_one (mk_Limits 10 10 4 2) (B "PING") [B "PING"]).
  - apply printable_no_cr. by repeat constructor.
  - done.
  - done.
  - vm_compute. reflexivity.
Defined.
