(* ===== verification/Termination.v ===== *)
(** * Decoding terminates

    The loops of the protocol layer each take at least one byte a turn, so the
    fuel of the model's recursions is enough: the draining loop of the framed
    stream with either decoder, and the tokenizer of inline commands. *)

From S2P Require Import Prelude F64 Text Frame Decode Streaming RoundTrip.

(** ** Draining with a decoder that makes progress *)

(** An answer takes at least one byte; no answer takes none. *)
Definition progresses {A} (dec : bytes -> bytes * result ProtocolError (option A)) : Prop :=
  (forall buf b a, dec buf = (b, Ok (Some a)) -> (length b < length buf)%nat) /\
  (forall buf b, dec buf = (b, Ok None) -> b = buf).

Section Drain.
Context {A : Type} (dec : bytes -> bytes * result ProtocolError (option A)).
Hypothesis Hdec : progresses dec.

Lemma drain_enough n m buf :
  (length buf < n)%nat -> (length buf < m)%nat -> drain dec n buf = drain dec m buf.
Proof using Hdec.
  revert m buf. induction n as [|n IH]; intros [|m] buf; [lia..|]. intros Hn Hm. cbn [drain].
  destruct (dec buf) as [b [[a|]|e]] eqn:E; [|done..].
  apply Hdec in E. by rewrite (IH m) by lia.
Qed.

Lemma drain_settled n buf rest :
  (length buf < n)%nat -> (drain dec n buf).2 = Ok rest ->
  dec rest = (rest, Ok None) /\ (length rest <= length buf)%nat.
Proof using Hdec.
  revert buf. induction n as [|n IH]; intros buf Hn; [lia|]. cbn [drain].
  destruct (dec buf) as [b [[a|]|e]] eqn:E.
  - apply Hdec in E. specialize (IH b). destruct (drain dec n b) as [l r]. cbn [snd] in *.
    intros Hr. destruct IH as [? ?]; [lia|done|]. split; [done|lia].
  - apply Hdec in E as E'. subst b. intros [= <-]. by split.
  - done.
Qed.
End Drain.

(** ** Both decoders make progress *)

Lemma decode_progresses limits : progresses (decoder limits).
Proof.
  split.
  - intros buf b f E. by destruct (decode_some_app _ _ _ _ [] E).
  - intros buf b. apply decode_none_buf.
Qed.

Lemma decode_command_progresses limits : progresses (command_decoder limits).
Proof.
  assert (Hdrop : forall n (l : bytes), (0 < n <= length l)%nat -> (length (drop n l) < length l)%nat).
  { intros n l Hn. rewrite length_drop. lia. }
  split; intros [|c buf] b; unfold decode_command; try (by intros [= <-]); try done;
    (destruct (decide (c = "*"%byte));
     [destruct (parse_multibulk (c :: buf) limits) as [[[args used]|]|err] eqn:E
     |destruct (read_line (c :: buf) 0) as [[[line used]|]|err] eqn:E]); try done.
  - intros a [= <- <-]. apply Hdrop. pose proof (parse_multibulk_within _ _ _ _ E). lia.
  - destruct (_ <? _); [done|]. destruct (split_inline line); [|done]. intros tokens [= <- _].
    apply Hdrop. pose proof (read_line_within _ 0 _ _ E). lia.
  - by destruct (_ <? _).
  - by intros [= <-].
  - destruct (_ <? _); [done|]. by destruct (split_inline line).
  - destruct (_ <? _); [done|]. by intros [= <-].
Qed.

(** ** The tokenizer *)

Lemma drop_shorter {A} n (l : list A) : (length (drop n l) <= length l)%nat.
Proof. rewrite length_drop. lia. Qed.

Lemma double_quoted_enough n m l cur :
  (length l < n)%nat -> (length l < m)%nat -> double_quoted n l cur = double_quoted m l cur.
Proof.
  revert m l cur. induction n as [|n IH]; intros [|m] l cur; [lia..|]. intros Hn Hm. cbn [double_quoted].
  destruct l as [|c l]; [done|]. cbn [length] in *. destruct (decide (c = x22%byte)); [done|].
  destruct (decide (c = "\"%byte)); [|apply IH; lia]. destruct l as [|first rest]; [apply IH; cbn in *; lia|].
  destruct (unescape_double first rest) as [b adv]. pose proof (drop_shorter adv (first :: rest)). apply IH; lia.
Qed.

Lemma single_quoted_enough n m l cur :
  (length l < n)%nat -> (length l < m)%nat -> single_quoted n l cur = single_quoted m l cur.
Proof.
  revert m l cur. induction n as [|n IH]; intros [|m] l cur; [lia..|]. intros Hn Hm. cbn [single_quoted].
  destruct l as [|c l]; [done|]. cbn [length] in *. destruct (decide (c = "'"%byte)); [done|].
  destruct (decide (c = "\"%byte)); [|apply IH; lia]. destruct l as [|first rest]; [apply IH; cbn in *; lia|].
  cbn [length] in *. destruct first; apply IH; cbn [length]; lia.
Qed.

Lemma closing_quote_shorter cur rest t : closing_quote cur rest = Ok t -> t.2 = rest.
Proof. unfold closing_quote. destruct rest as [|b rest]; [by intros [= <-]|]. destruct (negb _); [done|by intros [= <-]]. Qed.

Lemma double_quoted_shorter n l cur t : double_quoted n l cur = Ok t -> (length t.2 <= length l)%nat.
Proof.
  revert l cur. induction n as [|n IH]; intros [|c l] cur; cbn [double_quoted]; try done.
  destruct (decide _) as [|]; [intros ->%closing_quote_shorter; cbn; lia|].
  destruct (decide (c = "\"%byte)); [|intros ?%IH; cbn; lia].
  destruct l as [|first rest]; [intros ?%IH; cbn in *; lia|].
  destruct (unescape_double first rest) as [b adv]. intros Ht%IH. pose proof (drop_shorter adv (first :: rest)).
  cbn [length] in *. lia.
Qed.

Lemma single_quoted_shorter n l cur t : single_quoted n l cur = Ok t -> (length t.2 <= length l)%nat.
Proof.
  revert l cur. induction n as [|n IH]; intros [|c l] cur; cbn [single_quoted]; try done.
  destruct (decide _) as [|]; [intros ->%closing_quote_shorter; cbn; lia|].
  destruct (decide (c = "\"%byte)); [|intros ?%IH; cbn; lia].
  destruct l as [|first rest]; [intros ?%IH; cbn in *; lia|].
  destruct first; intros ?%IH; cbn [length] in *; lia.
Qed.

Lemma bare_word_shorter l cur : (length (bare_word l cur).2 <= length l)%nat.
Proof.
  revert cur. induction l as [|c l IH]; intros cur; cbn [bare_word]; [done|].
  destruct (is_space c); [done|]. specialize (IH (cur ++ [c])). cbn [length]. lia.
Qed.

Lemma skip_spaces_head l : (length (skip_spaces l) <= length l)%nat /\
  match skip_spaces l with c :: _ => is_space c = false | [] => True end.
Proof.
  induction l as [|c l IH]; cbn [skip_spaces]; [done|]. destruct (is_space c) eqn:E; [|done].
  destruct IH. cbn [length]. split; [lia|done].
Qed.

Lemma split_inline_enough n m l args :
  (length l < n)%nat -> (length l < m)%nat -> split_inline_go n l args = split_inline_go m l args.
Proof.
  revert m l args. induction n as [|n IH]; intros [|m] l args; [lia..|]. intros Hn Hm. cbn [split_inline_go].
  destruct (skip_spaces_head l) as [Hlen Hhead]. destruct (skip_spaces l) as [|c l']; [done|].
  assert (Hgo : forall tok : bytes * bytes, (length tok.2 <= length l')%nat ->
    split_inline_go n tok.2 (args ++ [tok.1]) = split_inline_go m tok.2 (args ++ [tok.1])).
  { intros tok Ht. cbn [length] in *. apply IH; lia. }
  destruct (decide (c = x22%byte)); [|destruct (decide (c = "'"%byte))].
  - destruct (double_quoted _ _ _) as [t|err] eqn:E; [|done]. apply double_quoted_shorter in E. by apply Hgo.
  - destruct (single_quoted _ _ _) as [t|err] eqn:E; [|done]. apply single_quoted_shorter in E. by apply Hgo.
  - cbn [bare_word]. rewrite Hhead. apply Hgo, bare_word_shorter.
Qed.

(** C10. Decoding terminates and settles: draining a buffer with either decoder
    takes at most one turn per byte, whatever bound is put on the turns beyond
    that, and stops only at an error or at bytes the decoder cannot decide yet;
    the tokenizer of an inline command needs no more turns than the line has
    bytes. *)
Theorem decoding_terminates (limits : Limits) (buf : bytes) (n : nat) :
  (length buf < n)%nat ->
  (drain (decoder limits) n buf = drain_all (decoder limits) buf /\
   forall rest, (drain (decoder limits) n buf).2 = Ok rest -> decode rest limits = (rest, Ok None)) /\
  (drain (command_decoder limits) n buf = drain_all (command_decoder limits) buf /\
   forall rest, (drain (command_decoder limits) n buf).2 = Ok rest -> decode_command rest limits = (rest, Ok None)) /\
  split_inline_go n buf [] = split_inline buf.
Proof.
  intros Hn. pose proof (decode_progresses limits) as Hp. pose proof (decode_command_progresses limits) as Hc.
  split; [|split].
  - split; [apply (drain_enough _ Hp); lia|]. intros rest Hr. by apply (drain_settled _ Hp n buf).
  - split; [apply (drain_enough _ Hc); lia|]. intros rest Hr. by apply (drain_settled _ Hc n buf).
  - apply split_inline_enough; lia.
Qed.

Lemma decoding_terminates_witness :
  (drain (command_decoder demo_limits) 99 (B "GET a" ++ CRLF ++ CRLF ++ B "*1" ++ [CR])) =
  ([[B "GET"; B "a"]; []], Ok (B "*1" ++ [CR])).
Proof.
  destruct (decoding_terminates demo_limits (B "GET a" ++ CRLF ++ CRLF ++ B "*1" ++ [CR]) 99) as (_ & [-> _] & _).
  - cbn. lia.
  - vm_compute. reflexivity.
Defined.
