(* ===== verification/Registry.v ===== *)
(** * Command dispatch

    Models crates/gamestore-datamodel/src/registry.rs.  A handler runs over the
    state of the store and ends in one of three ways ([outcome]): it goes on with
    a value, it returns a reply early, or it panics on an index out of range.
    [dispatch] is the registry's only entry; that it never panics for the
    standard commands is proved in CommandProps.v.

    The context holds the protocol version; the store it refers to is the state
    the handlers thread.  The [debug_assert]s of [register] are not modelled. *)

From S2P Require Import Prelude F64 Text Frame Encoding Engine Gc Store.

(** ** Handlers *)

Inductive outcome (A : Type) : Type :=
  | Done (a : A)
  | Return (f : Frame)
  | Panicked.
Arguments Done {A} a.
Arguments Return {A} f.
Arguments Panicked {A}.

Definition Cmd (E A : Type) : Type := State E -> State E * outcome A.

#[export] Instance Cmd_ret {E} : MRet (Cmd E) := fun A a s => (s, Done a).
#[export] Instance Cmd_bind {E} : MBind (Cmd E) := fun A C f m s =>
  match m s with
  | (s', Done a) => f a s'
  | (s', Return r) => (s', Return r)
  | (s', Panicked) => (s', Panicked)
  end.

(** [return f]. *)
Definition return_ {E A} (f : Frame) : Cmd E A := fun s => (s, Return f).

(** [let Some(a) = o else { return f }]. *)
Definition or_return {E A} (o : option A) (f : Frame) : Cmd E A :=
  match o with Some a => mret a | None => return_ f end.

(** [args[i]]. *)
Definition arg {E} (args : list bytes) (i : nat) : Cmd E bytes := fun s =>
  match args !! i with Some a => (s, Done a) | None => (s, Panicked) end.

(** [&args[i..]], and [args.len() - i], which panics likewise. *)
Definition args_from {E} (args : list bytes) (i : nat) : Cmd E (list bytes) := fun s =>
  if decide (length args < i)%nat then (s, Panicked) else (s, Done (drop i args)).

(** ** Shared replies *)

Definition wrong_args (name : bytes) : Frame :=
  Frame_error (B "ERR wrong number of arguments for '" ++ name ++ B "' command").

Definition NOT_AN_INTEGER : bytes := B "ERR value is not an integer or out of range".

Definition engine_error (e : EngineError) : Frame :=
  match e with
  | WrongType => Frame_error (EngineError_to_string e)
  | other => Frame_error (B "ERR " ++ EngineError_to_string other)
  end.

Definition parse_i64 (b : bytes) : option Z := if utf8_valid b then i64_from_str b else None.

Definition bulk (v : bytes) : Frame := Bulk v.

Definition syntax_error : Frame := Frame_error (B "ERR syntax error").

(** [match ctx.store.op(..) { Ok(a) => .., Err(e) => return engine_error(e) }]. *)
Definition store_call {E A} (m : M E A) : Cmd E A := fun s =>
  match m s with
  | (s', Ok a) => (s', Done a)
  | (s', Err e) => (s', Return (engine_error e))
  end.

(** [now_ms() as i64]. *)
Definition now_i64 {E} : Cmd E Z := ms ← store_call now_ms; mret (wrap_i64 ms).

(** ** The registry *)

Record ExecCtx : Type := mk_ExecCtx { ctx_version : RespVersion }.

Definition CommandHandler (E : Type) : Type := ExecCtx -> list bytes -> Cmd E Frame.

Record CommandSpec (E : Type) : Type := mk_CommandSpec {
  name_lower : bytes;
  arity : Z;
  handler : CommandHandler E;
}.
Arguments mk_CommandSpec {E} _ _ _.
Arguments name_lower {E} _.
Arguments arity {E} _.
Arguments handler {E} _ _ _.

(** The commands, keyed by the uppercased name. *)
Record CommandRegistry (E : Type) : Type := mk_CommandRegistry {
  commands : gmap bytes (CommandSpec E);
}.
Arguments mk_CommandRegistry {E} _.
Arguments commands {E} _.

Definition CommandRegistry_new {E} : CommandRegistry E := mk_CommandRegistry ∅.

Definition register {E} (reg : CommandRegistry E) (name : bytes) (arity : Z) (h : CommandHandler E) :
  CommandRegistry E :=
  mk_CommandRegistry (<[name := mk_CommandSpec (to_ascii_lowercase name) arity h]> (commands reg)).

Definition contains {E} (reg : CommandRegistry E) (name : bytes) : bool :=
  let upper := to_ascii_uppercase (from_utf8_lossy name) in
  bool_decide (is_Some (commands reg !! upper)).

Definition arity_matches (arity : Z) (argc : nat) : bool :=
  if 0 <? arity then Z.of_nat argc =? arity else - arity <=? Z.of_nat argc.

Definition dispatch {E} (reg : CommandRegistry E) (ctx : ExecCtx) (args : list bytes) : Cmd E Frame :=
  match args with
  | [] => mret (Frame_error (B "ERR empty command"))
  | first :: _ =>
      let upper := to_ascii_uppercase (from_utf8_lossy first) in
      match commands reg !! upper with
      | None => mret (Frame_error (B "ERR unknown command '" ++ from_utf8_lossy first ++ B "'"))
      | Some spec =>
          if negb (arity_matches (arity spec) (length args)) then mret (wrong_args (name_lower spec))
          else handler spec ctx args
      end
  end.

(** What the caller of a handler receives. *)
Definition reply_of (o : outcome Frame) : option Frame :=
  match o with Done f | Return f => Some f | Panicked => None end.

(** A name that no command was registered under. *)
Lemma dispatch_unknown {E} (reg : CommandRegistry E) ctx name rest :
  utf8_valid name = true -> commands reg !! to_ascii_uppercase name = None ->
  dispatch reg ctx (name :: rest) = mret (Frame_error (B "ERR unknown command '" ++ name ++ B "'")).
Proof. intros Hu Hr. unfold dispatch. rewrite from_utf8_lossy_valid by done. by rewrite Hr. Qed.
