(* ===== verification/CmdConnectivity.v ===== *)
(** * Connectivity commands

    Models crates/gamestore-datamodel/src/commands/connectivity.rs. *)

From S2P Require Import Prelude F64 Text Frame Encoding Engine Gc Store Registry.

Section Connectivity.
Context {E : Type}.

Definition ping (_ctx : ExecCtx) (args : list bytes) : Cmd E Frame :=
  if decide (length args = 1%nat) then mret (Frame_simple (B "PONG"))
  else if decide (length args = 2%nat) then a ← arg args 1; mret (Bulk a)
  else mret (wrong_args (B "ping")).

Definition echo (_ctx : ExecCtx) (args : list bytes) : Cmd E Frame :=
  a ← arg args 1; mret (Bulk a).

Definition register_connectivity (reg : CommandRegistry E) : CommandRegistry E :=
  let reg := register reg (B "PING") (-1) ping in
  register reg (B "ECHO") 2 echo.

End Connectivity.
