(* ===== verification/CmdString.v ===== *)
(** * String and TTL commands

    Models crates/gamestore-datamodel/src/commands/string.rs. *)

From S2P Require Import Prelude F64 Text Frame Encoding Engine Gc Store Registry.

Definition invalid_expire (cmd : bytes) : Frame :=
  Frame_error (B "ERR invalid expire time in '" ++ cmd ++ B "' command").

Section Strings.
Context {E : Type} `{GeneralEngine E}.

(** The option loop of [set], over the arguments from [i] on. *)
Fixpoint set_options (opts : list bytes) (expire_ms : Z) : Cmd E Z :=
  match opts with
  | [] => mret expire_ms
  | opt :: opts1 =>
      unit_ms ← (if eq_ignore_ascii_case opt (B "EX") then mret 1000
                 else if eq_ignore_ascii_case opt (B "PX") then mret 1
                 else return_ syntax_error);
      if negb (expire_ms =? 0) then return_ syntax_error
      else
        match opts1 with
        | [] => return_ syntax_error
        | raw :: opts2 =>
            n ← or_return (parse_i64 raw) (Frame_error NOT_AN_INTEGER);
            if n <=? 0 then return_ (invalid_expire (B "set"))
            else
              delta ← or_return (i64_checked_mul n unit_ms) (invalid_expire (B "set"));
              now ← now_i64;
              deadline ← or_return (i64_checked_add delta now) (invalid_expire (B "set"));
              set_options opts2 (wrap_u64 deadline)
        end
  end.

Definition set (_ctx : ExecCtx) (args : list bytes) : Cmd E Frame :=
  expire_ms ← set_options (drop 3 args) 0;
  key ← arg args 1;
  value ← arg args 2;
  _ ← store_call (Store.set key value expire_ms);
  mret Frame_ok.

Definition get (_ctx : ExecCtx) (args : list bytes) : Cmd E Frame :=
  key ← arg args 1;
  v ← store_call (Store.get key);
  mret (match v with Some v => Bulk v | None => Null end).

(** The counting loops of [del] and [exists]. *)
Fixpoint count_keys (f : bytes -> M E bool) (keys : list bytes) (n : Z) : Cmd E Z :=
  match keys with
  | [] => mret n
  | key :: keys' =>
      found ← store_call (f key);
      count_keys f keys' (if found : bool then n + 1 else n)
  end.

Definition del (_ctx : ExecCtx) (args : list bytes) : Cmd E Frame :=
  keys ← args_from args 1;
  removed ← count_keys Store.del keys 0;
  mret (Integer removed).

Definition exists_ (_ctx : ExecCtx) (args : list bytes) : Cmd E Frame :=
  keys ← args_from args 1;
  n ← count_keys Store.exists_ keys 0;
  mret (Integer n).

Definition type_of (_ctx : ExecCtx) (args : list bytes) : Cmd E Frame :=
  key ← arg args 1;
  t ← store_call (Store.type_of key);
  mret (Frame_simple t).

Definition expire_generic (_ctx : ExecCtx) (args : list bytes) (unit_ms : Z) (cmd : bytes) : Cmd E Frame :=
  raw ← arg args 2;
  n ← or_return (parse_i64 raw) (Frame_error NOT_AN_INTEGER);
  delta ← or_return (i64_checked_mul n unit_ms) (invalid_expire cmd);
  now ← now_i64;
  let deadline := wrap_u64 (Z.max (i64_saturating_add now delta) 1) in
  key ← arg args 1;
  existed ← store_call (Store.expire_at key deadline);
  mret (Integer (Z.b2z existed)).

Definition expire (ctx : ExecCtx) (args : list bytes) : Cmd E Frame :=
  expire_generic ctx args 1000 (B "expire").

Definition pexpire (ctx : ExecCtx) (args : list bytes) : Cmd E Frame :=
  expire_generic ctx args 1 (B "pexpire").

Definition ttl (_ctx : ExecCtx) (args : list bytes) : Cmd E Frame :=
  key ← arg args 1;
  ms ← store_call (Store.pttl key);
  mret (if ms <? 0 then Integer ms else Integer (Z.quot (wrap_i64 (ms + 999)) 1000)).

Definition pttl (_ctx : ExecCtx) (args : list bytes) : Cmd E Frame :=
  key ← arg args 1;
  ms ← store_call (Store.pttl key);
  mret (Integer ms).

Definition register_string (reg : CommandRegistry E) : CommandRegistry E :=
  let reg := register reg (B "SET") (-3) set in
  let reg := register reg (B "GET") 2 get in
  let reg := register reg (B "DEL") (-2) del in
  let reg := register reg (B "EXISTS") (-2) exists_ in
  let reg := register reg (B "TYPE") 2 type_of in
  let reg := register reg (B "EXPIRE") 3 expire in
  let reg := register reg (B "PEXPIRE") 3 pexpire in
  let reg := register reg (B "TTL") 2 ttl in
  register reg (B "PTTL") 2 pttl.

End Strings.
