(* ===== verification/CmdHash.v ===== *)
(** * Hash commands

    Models crates/gamestore-datamodel/src/commands/hash.rs. *)

From S2P Require Import Prelude F64 Text Frame Encoding Engine Gc Store Registry.

(** [chunks_exact(2)]. *)
Fixpoint chunks_exact_2 {A} (l : list A) : list (A * A) :=
  match l with
  | a :: b :: l' => (a, b) :: chunks_exact_2 l'
  | _ => []
  end.

(** The loops that interleave the two parts of a list of pairs. *)
Definition flatten_pairs {A} (pairs : list (A * A)) : list A :=
  concat ((fun kv => [kv.1; kv.2]) <$> pairs).

Section Hashes.
Context {E : Type} `{GeneralEngine E}.

Definition hset (_ctx : ExecCtx) (args : list bytes) : Cmd E Frame :=
  name ← arg args 0;
  let is_hmset := eq_ignore_ascii_case name (B "HMSET") in
  tail ← args_from args 2;
  if negb (Nat.even (length tail)) then mret (wrong_args (if is_hmset then B "hmset" else B "hset"))
  else
    key ← arg args 1;
    created ← store_call (Store.hset key (chunks_exact_2 tail));
    mret (if is_hmset then Frame_ok else Integer created).

Definition hget (_ctx : ExecCtx) (args : list bytes) : Cmd E Frame :=
  key ← arg args 1;
  field ← arg args 2;
  v ← store_call (Store.hget key field);
  mret (match v with Some v => bulk v | None => Null end).

Fixpoint hmget_loop (key : bytes) (fields : list bytes) (items : list Frame) : Cmd E (list Frame) :=
  match fields with
  | [] => mret items
  | field :: fields' =>
      v ← store_call (Store.hget key field);
      hmget_loop key fields' (items ++ [match v with Some v => bulk v | None => Null end])
  end.

Definition hmget (_ctx : ExecCtx) (args : list bytes) : Cmd E Frame :=
  fields ← args_from args 2;
  key ← arg args 1;
  items ← hmget_loop key fields [];
  mret (Array items).

Definition hgetall (ctx : ExecCtx) (args : list bytes) : Cmd E Frame :=
  key ← arg args 1;
  pairs ← store_call (Store.hgetall key);
  let items := (fun kv : bytes * bytes => (bulk kv.1, bulk kv.2)) <$> pairs in
  mret (match ctx_version ctx with
        | V3 => Map items
        | V2 => Array (flatten_pairs items)
        end).

Definition hdel (_ctx : ExecCtx) (args : list bytes) : Cmd E Frame :=
  fields ← args_from args 2;
  key ← arg args 1;
  removed ← store_call (Store.hdel key fields);
  mret (Integer removed).

Definition hlen (_ctx : ExecCtx) (args : list bytes) : Cmd E Frame :=
  key ← arg args 1;
  n ← store_call (Store.hlen key);
  mret (Integer n).

Definition hexists (_ctx : ExecCtx) (args : list bytes) : Cmd E Frame :=
  key ← arg args 1;
  field ← arg args 2;
  found ← store_call (Store.hexists key field);
  mret (Integer (Z.b2z found)).

Definition register_hash (reg : CommandRegistry E) : CommandRegistry E :=
  let reg := register reg (B "HSET") (-4) hset in
  let reg := register reg (B "HMSET") (-4) hset in
  let reg := register reg (B "HGET") 3 hget in
  let reg := register reg (B "HMGET") (-3) hmget in
  let reg := register reg (B "HGETALL") 2 hgetall in
  let reg := register reg (B "HDEL") (-3) hdel in
  let reg := register reg (B "HLEN") 2 hlen in
  register reg (B "HEXISTS") 3 hexists.

End Hashes.
