(* ===== verification/CmdSet.v ===== *)
(** * Set commands

    Models crates/gamestore-datamodel/src/commands/set.rs. *)

From S2P Require Import Prelude F64 Text Frame Encoding Engine Gc Store Registry.

Section Sets.
Context {E : Type} `{GeneralEngine E}.

Definition sadd (_ctx : ExecCtx) (args : list bytes) : Cmd E Frame :=
  members ← args_from args 2;
  key ← arg args 1;
  added ← store_call (Store.sadd key members);
  mret (Integer added).

Definition srem (_ctx : ExecCtx) (args : list bytes) : Cmd E Frame :=
  members ← args_from args 2;
  key ← arg args 1;
  removed ← store_call (Store.srem key members);
  mret (Integer removed).

Definition sismember (_ctx : ExecCtx) (args : list bytes) : Cmd E Frame :=
  key ← arg args 1;
  member ← arg args 2;
  found ← store_call (Store.sismember key member);
  mret (Integer (Z.b2z found)).

Definition smembers (ctx : ExecCtx) (args : list bytes) : Cmd E Frame :=
  key ← arg args 1;
  members ← store_call (Store.smembers key);
  let items := bulk <$> members in
  mret (match ctx_version ctx with V3 => Set_ items | V2 => Array items end).

Definition scard (_ctx : ExecCtx) (args : list bytes) : Cmd E Frame :=
  key ← arg args 1;
  n ← store_call (Store.scard key);
  mret (Integer n).

Definition register_set (reg : CommandRegistry E) : CommandRegistry E :=
  let reg := register reg (B "SADD") (-3) sadd in
  let reg := register reg (B "SREM") (-3) srem in
  let reg := register reg (B "SISMEMBER") 3 sismember in
  let reg := register reg (B "SMEMBERS") 2 smembers in
  register reg (B "SCARD") 2 scard.

End Sets.
