(* ===== verification/CmdZSet.v ===== *)
(** * Sorted-set commands

    Models crates/gamestore-datamodel/src/commands/zset.rs. *)

From S2P Require Import Prelude F64 Text F64Text Frame Encoding Engine Gc Store Registry CmdHash.

Definition NOT_A_FLOAT : bytes := B "ERR value is not a valid float".
Definition BAD_RANGE_BOUND : bytes := B "ERR min or max is not a float".

(** ** Scores as text *)

Definition parse_score (raw : bytes) : option f64 :=
  if negb (utf8_valid raw) then None
  else if bool_decide (raw = []) || existsb is_whitespace (utf8_chars raw) then None
  else
    v ← f64_from_str raw;
    if f64_is_nan v then None else Some v.

Definition parse_score_bound (raw : bytes) : option (f64 * bool) :=
  match raw with
  | "("%byte :: rest => (fun v => (v, true)) <$> parse_score rest
  | _ => (fun v => (v, false)) <$> parse_score raw
  end.

(** [score == score.trunc() && score.is_finite() && score.abs() < 1e17]. *)
Definition f64_small_integer (score : f64) : bool :=
  let '(num, den) := f64_ratio score in
  f64_is_finite score && (num mod den =? 0) && (num <? 10 ^ 17 * den).

(** [score as i64], for a number that fits. *)
Definition f64_as_i64 (score : f64) : Z :=
  let '(num, den) := f64_ratio score in
  if f64_sign score then - (num / den) else num / den.

Definition format_score (score : f64) : bytes :=
  if f64_small_integer score then int_display (f64_as_i64 score) else f64_display score.

Definition score_frame (score : f64) (version : RespVersion) : Frame :=
  match version with V3 => Double score | V2 => Bulk (format_score score) end.

Definition range_reply (pairs : list (bytes * f64)) (withscores : bool) (version : RespVersion) : Frame :=
  if negb withscores then Array ((fun ms => bulk ms.1) <$> pairs)
  else
    match version with
    | V2 => Array (flatten_pairs ((fun ms : bytes * f64 => (bulk ms.1, Bulk (format_score ms.2))) <$> pairs))
    | V3 => Array ((fun ms : bytes * f64 => Array [bulk ms.1; Double ms.2]) <$> pairs)
    end.

(** [skip(n)] and [take(n)] for an [n] of any size. *)
Definition skip_z {A} (n : Z) (l : list A) : list A :=
  if Z.of_nat (length l) <=? n then [] else drop (Z.to_nat n) l.
Definition take_z {A} (n : Z) (l : list A) : list A :=
  if Z.of_nat (length l) <=? n then l else take (Z.to_nat n) l.

(** [LIMIT offset count]: a negative offset yields nothing, a negative count no
    limit. *)
Definition apply_limit {A} (limit : option (Z * Z)) (pairs : list A) : list A :=
  match limit with
  | Some (off, cnt) =>
      if off <? 0 then []
      else if cnt <? 0 then skip_z off pairs else take_z cnt (skip_z off pairs)
  | None => pairs
  end.

(** ** Handlers *)

Section ZSets.
Context {E : Type} `{GeneralEngine E}.

Definition FLAGS : list bytes := [B "NX"; B "XX"; B "GT"; B "LT"; B "CH"; B "INCR"].

(** The loop that parses the scores. *)
Fixpoint zadd_pairs (l : list (bytes * bytes)) (pairs : list (f64 * bytes)) : Cmd E (list (f64 * bytes)) :=
  match l with
  | [] => mret pairs
  | (raw, member) :: l' =>
      score ← or_return (parse_score raw) (Frame_error NOT_A_FLOAT);
      zadd_pairs l' (pairs ++ [(score, member)])
  end.

Definition zadd (_ctx : ExecCtx) (args : list bytes) : Cmd E Frame :=
  flag ← arg args 2;
  if existsb (eq_ignore_ascii_case flag) FLAGS then mret syntax_error
  else
    tail ← args_from args 2;
    if negb (Nat.even (length tail)) then mret syntax_error
    else
      pairs ← zadd_pairs (chunks_exact_2 tail) [];
      key ← arg args 1;
      added ← store_call (Store.zadd key pairs);
      mret (Integer added).

Definition zscore (ctx : ExecCtx) (args : list bytes) : Cmd E Frame :=
  key ← arg args 1;
  member ← arg args 2;
  score ← store_call (Store.zscore key member);
  mret (match score with Some score => score_frame score (ctx_version ctx) | None => Null end).

Definition zrange (ctx : ExecCtx) (args : list bytes) : Cmd E Frame :=
  raw_start ← arg args 2;
  raw_stop ← arg args 3;
  start ← or_return (parse_i64 raw_start) (Frame_error NOT_AN_INTEGER);
  stop ← or_return (parse_i64 raw_stop) (Frame_error NOT_AN_INTEGER);
  withscores ← (match args !! 4%nat with
                | None => mret false
                | Some opt => if eq_ignore_ascii_case opt (B "WITHSCORES") then mret true
                              else return_ syntax_error
                end);
  if decide (5 < length args)%nat then mret syntax_error
  else
    key ← arg args 1;
    pairs ← store_call (Store.zrange key start stop);
    mret (range_reply pairs withscores (ctx_version ctx)).

(** The option loop, over the arguments from [i] on.  [LIMIT] takes two more
    arguments and [WITHSCORES] none. *)
Fixpoint zrangebyscore_options (opts : list bytes) (withscores : bool) (limit : option (Z * Z)) :
  Cmd E (bool * option (Z * Z)) :=
  match opts with
  | [] => mret (withscores, limit)
  | opt :: opts1 =>
      if eq_ignore_ascii_case opt (B "WITHSCORES") then zrangebyscore_options opts1 true limit
      else if eq_ignore_ascii_case opt (B "LIMIT") then
        match opts1 with
        | raw_off :: raw_cnt :: opts2 =>
            off ← or_return (parse_i64 raw_off) syntax_error;
            cnt ← or_return (parse_i64 raw_cnt) syntax_error;
            zrangebyscore_options opts2 withscores (Some (off, cnt))
        | _ => return_ syntax_error
        end
      else return_ syntax_error
  end.

Definition zrangebyscore (ctx : ExecCtx) (args : list bytes) : Cmd E Frame :=
  raw_min ← arg args 2;
  min ← or_return (parse_score_bound raw_min) (Frame_error BAD_RANGE_BOUND);
  raw_max ← arg args 3;
  max ← or_return (parse_score_bound raw_max) (Frame_error BAD_RANGE_BOUND);
  opts ← zrangebyscore_options (drop 4 args) false None;
  key ← arg args 1;
  pairs ← store_call (Store.zrange_by_score key min.1 min.2 max.1 max.2);
  mret (range_reply (apply_limit opts.2 pairs) opts.1 (ctx_version ctx)).

Definition zrem (_ctx : ExecCtx) (args : list bytes) : Cmd E Frame :=
  members ← args_from args 2;
  key ← arg args 1;
  removed ← store_call (Store.zrem key members);
  mret (Integer removed).

Definition zcard (_ctx : ExecCtx) (args : list bytes) : Cmd E Frame :=
  key ← arg args 1;
  n ← store_call (Store.zcard key);
  mret (Integer n).

Definition register_zset (reg : CommandRegistry E) : CommandRegistry E :=
  let reg := register reg (B "ZADD") (-4) zadd in
  let reg := register reg (B "ZSCORE") 3 zscore in
  let reg := register reg (B "ZRANGE") (-4) zrange in
  let reg := register reg (B "ZRANGEBYSCORE") (-4) zrangebyscore in
  let reg := register reg (B "ZREM") (-3) zrem in
  register reg (B "ZCARD") 2 zcard.

End ZSets.

Example score_integral : format_score (1027 * 2 ^ 52 + 2 ^ 51 + 2 ^ 50) = B "28".
Proof. vm_compute. reflexivity. Qed.
Example score_negative_zero : format_score (2 ^ 63) = B "0".
Proof. vm_compute. reflexivity. Qed.
Example score_infinite : format_score f64_neg_inf = B "-inf".
Proof. vm_compute. reflexivity. Qed.
Example bound_exclusive : parse_score_bound (B "(1.5") = Some (1023 * 2 ^ 52 + 2 ^ 51, true).
Proof. vm_compute. reflexivity. Qed.
