(* ===== verification/CmdList.v ===== *)
(** * List commands

    Models crates/gamestore-datamodel/src/commands/list.rs. *)

From S2P Require Import Prelude F64 Text Frame Encoding Engine Gc Store Registry.

Section Lists.
Context {E : Type} `{GeneralEngine E}.

Definition push (_ctx : ExecCtx) (args : list bytes) : Cmd E Frame :=
  name ← arg args 0;
  let left := eq_ignore_ascii_case name (B "LPUSH") in
  values ← args_from args 2;
  key ← arg args 1;
  len ← store_call (Store.push key values left);
  mret (Integer len).

(** The optional count: absent, or a number that is not negative. *)
Definition pop_count (args : list bytes) : Cmd E (option Z) :=
  match args !! 2%nat with
  | None => mret None
  | Some raw =>
      match parse_i64 raw with
      | Some n => if 0 <=? n then mret (Some n)
                  else return_ (Frame_error (B "ERR value is out of range, must be positive"))
      | None => return_ (Frame_error NOT_AN_INTEGER)
      end
  end.

Definition pop (_ctx : ExecCtx) (args : list bytes) : Cmd E Frame :=
  name ← arg args 0;
  let left := eq_ignore_ascii_case name (B "LPOP") in
  count ← pop_count args;
  if decide (3 < length args)%nat then mret (wrong_args (if left then B "lpop" else B "rpop"))
  else
    key ← arg args 1;
    n ← store_call (Store.llen key);
    if negb (0 <? n) then mret Null
    else
      popped ← store_call (Store.pop key (default 1 count) left);
      mret (match count with
            | None => match head popped with Some v => bulk v | None => Null end
            | Some _ => Array (bulk <$> popped)
            end).

Definition lrange (_ctx : ExecCtx) (args : list bytes) : Cmd E Frame :=
  raw_start ← arg args 2;
  raw_stop ← arg args 3;
  start ← or_return (parse_i64 raw_start) (Frame_error NOT_AN_INTEGER);
  stop ← or_return (parse_i64 raw_stop) (Frame_error NOT_AN_INTEGER);
  key ← arg args 1;
  values ← store_call (Store.lrange key start stop);
  mret (Array (bulk <$> values)).

Definition llen (_ctx : ExecCtx) (args : list bytes) : Cmd E Frame :=
  key ← arg args 1;
  n ← store_call (Store.llen key);
  mret (Integer n).

Definition register_list (reg : CommandRegistry E) : CommandRegistry E :=
  let reg := register reg (B "LPUSH") (-3) push in
  let reg := register reg (B "RPUSH") (-3) push in
  let reg := register reg (B "LPOP") (-2) pop in
  let reg := register reg (B "RPOP") (-2) pop in
  let reg := register reg (B "LRANGE") 4 lrange in
  register reg (B "LLEN") 2 llen.

End Lists.
