(* ===== verification/CmdAdmin.v ===== *)
(** * Introspection commands

    Models crates/gamestore-datamodel/src/commands/admin.rs. *)

From S2P Require Import Prelude F64 Text Frame Encoding Engine Gc Store Registry.

Section Admin.
Context {E : Type} `{GeneralEngine E}.

Definition dbsize (_ctx : ExecCtx) (_args : list bytes) : Cmd E Frame :=
  n ← store_call Store.dbsize; mret (Integer n).

Definition rawcount (_ctx : ExecCtx) (_args : list bytes) : Cmd E Frame :=
  n ← store_call Store.raw_subkey_count; mret (Integer n).

Definition compact (_ctx : ExecCtx) (_args : list bytes) : Cmd E Frame :=
  _ ← store_call Store.compact; mret Frame_ok.

Definition register_admin (reg : CommandRegistry E) : CommandRegistry E :=
  let reg := register reg (B "DBSIZE") 1 dbsize in
  let reg := register reg (B "RAWCOUNT") 1 rawcount in
  register reg (B "COMPACT") 1 compact.

End Admin.
