(* ===== verification/Commands.v ===== *)
(** * The standard command set

    Models crates/gamestore-datamodel/src/commands/mod.rs and
    [CommandRegistry::standard]. *)

From S2P Require Import Prelude F64 Text Frame Encoding Engine Gc Store Registry.
From S2P Require Import CmdConnectivity CmdString CmdHash CmdSet CmdZSet CmdList CmdAdmin.

Section Commands.
Context {E : Type} `{GeneralEngine E}.

Definition register_all (reg : CommandRegistry E) : CommandRegistry E :=
  let reg := register_connectivity reg in
  let reg := register_string reg in
  let reg := register_hash reg in
  let reg := register_set reg in
  let reg := register_zset reg in
  let reg := register_list reg in
  register_admin reg.

Definition standard : CommandRegistry E := register_all CommandRegistry_new.

End Commands.
