(* ===== verification/Codec.v ===== *)
(** * The framed codecs

    Models crates/gamestore-protocol/src/codec.rs: the two codecs carry the
    encode-side protocol version and the decoder's limits.  The tokio framing that
    drives them is third-party: it appends what the socket delivers to a buffer
    and calls [decode] until it answers [None], which is [feed] of Streaming.v. *)

From S2P Require Import Prelude F64 Text Frame Encode Decode.

Inductive CodecError : Type :=
  | Protocol (e : ProtocolError)
  | Io (msg : bytes).

(** The error's [Display]. *)
Definition CodecError_to_string (e : CodecError) : bytes :=
  match e with
  | Protocol e => ProtocolError_to_string e
  | Io msg => B "i/o error: " ++ msg
  end.

Definition lift_protocol {A} (r : result ProtocolError A) : result CodecError A :=
  match r with Ok a => Ok a | Err e => Err (Protocol e) end.

Record RespCodec : Type := mk_RespCodec { resp_version : RespVersion; resp_limits : Limits }.

Definition RespCodec_new : RespCodec := mk_RespCodec V2 Limits_default.
Definition RespCodec_with_limits (c : RespCodec) (l : Limits) : RespCodec := mk_RespCodec (resp_version c) l.
Definition RespCodec_set_version (c : RespCodec) (v : RespVersion) : RespCodec := mk_RespCodec v (resp_limits c).
Definition RespCodec_decode (c : RespCodec) (src : bytes) : bytes * result CodecError (option Frame) :=
  let '(src', r) := decode src (resp_limits c) in (src', lift_protocol r).
Definition RespCodec_encode (c : RespCodec) (item : Frame) (dst : bytes) : bytes :=
  encode item (resp_version c) dst.

Record CommandCodec : Type := mk_CommandCodec { codec_version : RespVersion; codec_limits : Limits }.

Definition CommandCodec_new : CommandCodec := mk_CommandCodec V2 Limits_default.
Definition CommandCodec_with_limits (c : CommandCodec) (l : Limits) : CommandCodec :=
  mk_CommandCodec (codec_version c) l.
Definition CommandCodec_set_version (c : CommandCodec) (v : RespVersion) : CommandCodec :=
  mk_CommandCodec v (codec_limits c).
Definition CommandCodec_decode (c : CommandCodec) (src : bytes) :
  bytes * result CodecError (option (list bytes)) :=
  let '(src', r) := decode_command src (codec_limits c) in (src', lift_protocol r).
Definition CommandCodec_encode (c : CommandCodec) (item : Frame) (dst : bytes) : bytes :=
  encode item (codec_version c) dst.
