(* ===== verification/Server.v ===== *)
(** * The connection service

    Models the command path of crates/gamestore-datanode/src/server.rs: the
    dispatch of one command and the per-connection loop.  What the loop waits for
    is an [Event]: the shutdown signal, the end of the stream, or the next item
    of the framed stream together with how sending the reply to it ends.  What
    the loop reports to the metrics is in Observability.v, the accept loop that
    starts it in Service.v. *)

From S2P Require Import Prelude F64 Text Frame Encode Decode Codec Encoding Engine Gc Store Registry CmdHash.

Record Action : Type := mk_Action {
  reply : Frame;
  close : bool;
  set_version : option RespVersion;
}.

Definition Action_reply (f : Frame) : Action := mk_Action f false None.
Definition Action_close_with (f : Frame) : Action := mk_Action f true None.

Definition CONNECTION_VERBS : list bytes :=
  [B "HELLO"; B "QUIT"; B "CLIENT"; B "SELECT"; B "COMMAND"; B "FLUSHDB"; B "FLUSHALL"].

(** ** Connection-scoped commands *)

Definition client (args : list bytes) (conn_id : Z) : Frame :=
  match args !! 1%nat with
  | None => Frame_error (B "ERR wrong number of arguments for 'client' command")
  | Some sub =>
      let sub_upper := to_ascii_uppercase (from_utf8_lossy sub) in
      if bool_decide (sub_upper ∈ [B "SETINFO"; B "SETNAME"; B "NO-EVICT"; B "NO-TOUCH"]) then Frame_ok
      else if bool_decide (sub_upper = B "ID") then Integer conn_id
      else if bool_decide (sub_upper = B "GETNAME") then Bulk []
      else Frame_error (B "ERR Unknown subcommand or wrong number of arguments for '" ++ sub_upper ++
             B "'. Try CLIENT HELP.")
  end.

Definition select (args : list bytes) : Frame :=
  match args with
  | [_; index] =>
      match parse_i64 index with
      | Some n => if n =? 0 then Frame_ok else Frame_error (B "ERR DB index is out of range")
      | None => Frame_error (B "ERR value is not an integer or out of range")
      end
  | _ => Frame_error (B "ERR wrong number of arguments for 'select' command")
  end.

Section Server.
(** [env!(CARGO_PKG_VERSION)], set by the build. *)
Context (CARGO_PKG_VERSION : bytes).

Definition hello_reply (version : RespVersion) (conn_id : Z) : Frame :=
  let fields : list (Frame * Frame) :=
    [(Frame_from_str (B "server"), Frame_from_str (B "gamestore"));
     (Frame_from_str (B "version"), Frame_from_str CARGO_PKG_VERSION);
     (Frame_from_str (B "proto"), Integer (as_i64 version));
     (Frame_from_str (B "id"), Integer conn_id);
     (Frame_from_str (B "mode"), Frame_from_str (B "standalone"));
     (Frame_from_str (B "role"), Frame_from_str (B "master"));
     (Frame_from_str (B "modules"), Array [])] in
  match version with
  | V3 => Map fields
  | V2 => Array (flatten_pairs fields)
  end.

Definition hello (args : list bytes) (current : RespVersion) (conn_id : Z) : Action :=
  match args !! 1%nat with
  | None => mk_Action (hello_reply current conn_id) false None
  | Some raw =>
      match i64_from_str (trim (from_utf8_lossy raw)) ≫= from_i64 with
      | Some v => mk_Action (hello_reply v conn_id) false (Some v)
      | None => Action_reply (Frame_error (B "NOPROTO unsupported protocol version"))
      end
  end.

Context {E : Type} `{GeneralEngine E}.

(** The match on [store.flush_all()]. *)
Definition flush_store : Cmd E Frame := fun s =>
  match Store.flush_all s with
  | (s', Ok _) => (s', Done Frame_ok)
  | (s', Err e) => (s', Done (Frame_error (B "ERR " ++ EngineError_to_string e)))
  end.

Definition flush (args : list bytes) : Cmd E Frame :=
  verb ← arg args 0;
  let name := if eq_ignore_ascii_case verb (B "FLUSHALL") then B "flushall" else B "flushdb" in
  _ ← (match args with
       | [_] => mret tt
       | [_; mode] =>
           if eq_ignore_ascii_case mode (B "ASYNC") || eq_ignore_ascii_case mode (B "SYNC") then mret tt
           else return_ syntax_error
       | _ => return_ (Frame_error (B "ERR wrong number of arguments for '" ++ name ++ B "' command"))
       end);
  flush_store.

(** A reply, early or not, as the answer of a function that always replies. *)
Definition replying (c : Cmd E Frame) : Cmd E Action := fun s =>
  match c s with
  | (s', Done f) | (s', Return f) => (s', Done (Action_reply f))
  | (s', Panicked) => (s', Panicked)
  end.

Definition dispatch (args : list bytes) (version : RespVersion) (conn_id : Z)
  (registry : CommandRegistry E) : Cmd E Action :=
  first ← arg args 0;
  let name := to_ascii_uppercase (from_utf8_lossy first) in
  if bool_decide (name = B "HELLO") then mret (hello args version conn_id)
  else if bool_decide (name = B "QUIT") then mret (Action_close_with Frame_ok)
  else if bool_decide (name = B "CLIENT") then mret (Action_reply (client args conn_id))
  else if bool_decide (name = B "SELECT") then mret (Action_reply (select args))
  else if bool_decide (name = B "COMMAND") then mret (Action_reply (Array []))
  else if bool_decide (name = B "FLUSHDB" \/ name = B "FLUSHALL") then replying (flush args)
  else replying (Registry.dispatch registry (mk_ExecCtx version) args).

Definition command_label (raw : bytes) (registry : CommandRegistry E) : bytes :=
  let upper := to_ascii_uppercase (from_utf8_lossy raw) in
  if bool_decide (upper ∈ CONNECTION_VERBS) || contains registry raw then upper else B "UNKNOWN".

(** ** The connection loop *)

Inductive Event : Type :=
  | EvShutdown
  | EvClosed
  | EvItem (item : result CodecError (list bytes)) (sent : result CodecError unit).

(** How far the loop has come: waiting for the next event, or ended. *)
Inductive ConnEnd : Type :=
  | Waiting
  | Finished (r : result CodecError unit)
  | Crashed.

(** The codec, the store and the bytes sent so far. *)
Record Conn : Type := mk_Conn { codec : CommandCodec; store : State E; sent_bytes : bytes }.

(** [framed.send(f)]: a failed send delivers nothing more that counts. *)
Definition send (c : Conn) (f : Frame) (sent : result CodecError unit) : Conn :=
  match sent with
  | Ok _ => mk_Conn (codec c) (store c) (CommandCodec_encode (codec c) f (sent_bytes c))
  | Err _ => c
  end.

(** One turn of the loop: [None] when it goes on. *)
Definition handle_event (registry : CommandRegistry E) (conn_id : Z) (ev : Event) (c : Conn) :
  Conn * option ConnEnd :=
  match ev with
  | EvShutdown | EvClosed => (c, Some (Finished (Ok tt)))
  | EvItem (Err e) sent =>
      (send c (Frame_error (B "ERR Protocol error: " ++ CodecError_to_string e)) sent,
       Some (Finished (Err e)))
  | EvItem (Ok []) _ => (c, None)
  | EvItem (Ok args) sent =>
      match dispatch args (codec_version (codec c)) conn_id registry (store c) with
      | (s', Done action) =>
          let k := match set_version action with
                   | Some v => CommandCodec_set_version (codec c) v
                   | None => codec c
                   end in
          let c' := send (mk_Conn k s' (sent_bytes c)) (reply action) sent in
          match sent with
          | Err e => (c', Some (Finished (Err e)))
          | Ok _ => (c', if close action then Some (Finished (Ok tt)) else None)
          end
      | (s', _) => (mk_Conn (codec c) s' (sent_bytes c), Some Crashed)
      end
  end.

Fixpoint handle_connection (registry : CommandRegistry E) (conn_id : Z) (events : list Event) (c : Conn) :
  Conn * ConnEnd :=
  match events with
  | [] => (c, Waiting)
  | ev :: events' =>
      match handle_event registry conn_id ev c with
      | (c', None) => handle_connection registry conn_id events' c'
      | (c', Some e) => (c', e)
      end
  end.

(** A connection as it is accepted. *)
Definition accepted (s : State E) : Conn := mk_Conn CommandCodec_new s [].

End Server.
Arguments mk_Conn {E} _ _ _.
Arguments codec {E} _.
Arguments store {E} _.
Arguments sent_bytes {E} _.
