(* ===== verification/CommandProps.v ===== *)
(** * What every command promises

    A Hoare-style triple for handlers ([ends]): from any state the handler ends
    without a panic, with a value or an early reply as described.  Every standard
    command, called with an argument count its arity admits, answers a reply that
    the connection's protocol version can represent; the spelling of a command's
    name does not matter. *)

From S2P Require Import Prelude F64 Text F64Text Frame Encoding Engine Gc Rocks Store Registry.
From S2P Require Import CmdConnectivity CmdString CmdHash CmdSet CmdZSet CmdList CmdAdmin Commands.

(** ** Replies a version can represent *)

Fixpoint resp2_frame (f : Frame) : bool :=
  match f with
  | Simple _ | Error _ | Integer _ | Bulk _ | Null => true
  | Array l => forallb resp2_frame l
  | _ => false
  end.

(** A RESP2 connection carries no RESP3 type. *)
Definition fits (version : RespVersion) (f : Frame) : Prop :=
  match version with V2 => resp2_frame f = true | V3 => True end.

Lemma fits_scalar version f : resp2_frame f = true -> fits version f.
Proof. by destruct version. Qed.

Lemma fits_array version l : Forall (fits version) l -> fits version (Array l).
Proof.
  destruct version; [|done]. cbn. intros Hl. apply forallb_forall. intros f Hf%list_elem_of_In.
  rewrite list.Forall_forall in Hl. by apply Hl.
Qed.

Lemma fits_bulks version (l : list bytes) : fits version (Array (bulk <$> l)).
Proof. apply fits_array, Forall_fmap, list.Forall_forall. intros. by apply fits_scalar. Qed.

Lemma fits_flat version (l : list (Frame * Frame)) :
  Forall (fun kv => fits version kv.1 /\ fits version kv.2) l -> fits version (Array (flatten_pairs l)).
Proof.
  intros Hl. apply fits_array. unfold flatten_pairs.
  induction Hl as [|[k v] l [Hk Hv] Hl IH]; [constructor|]. cbn. by repeat constructor.
Qed.

Lemma fits_range_reply version pairs withscores : fits version (range_reply pairs withscores version).
Proof.
  unfold range_reply. destruct withscores; cbn [negb].
  - destruct version; [|done]. apply fits_flat, Forall_fmap, list.Forall_forall. done.
  - apply fits_array, Forall_fmap, list.Forall_forall. intros. by apply fits_scalar.
Qed.

Lemma fits_engine_error version e : fits version (engine_error e).
Proof. apply fits_scalar. by destruct e. Qed.

#[export] Hint Resolve fits_scalar fits_array fits_bulks fits_flat fits_range_reply fits_engine_error : gs.

(** ** Handler triples *)

(** From every state: a value with [Q], or an early reply with [P]; no panic. *)
Definition ends {E A} (c : Cmd E A) (Q : A -> Prop) (P : Frame -> Prop) : Prop :=
  forall s, match (c s).2 with Done a => Q a | Return f => P f | Panicked => False end.

Section Triples.
Context {E : Type} `{GeneralEngine E} (P : Frame -> Prop).

Lemma ends_ret {A} (a : A) (Q : A -> Prop) : Q a -> ends (E := E) (mret a) Q P.
Proof. by intros Ha s. Qed.

Lemma ends_bind {A C} (c : Cmd E A) (f : A -> Cmd E C) (R : A -> Prop) (Q : C -> Prop) :
  ends c R P -> (forall a, R a -> ends (f a) Q P) -> ends (c ≫= f) Q P.
Proof.
  intros Hc Hf s. specialize (Hc s). unfold mbind, Cmd_bind.
  destruct (c s) as [s' [a|r|]]; cbn in *; [by apply Hf|done|done].
Qed.

Lemma ends_return {A} (f : Frame) (Q : A -> Prop) : P f -> ends (E := E) (return_ f) Q P.
Proof. by intros Hf s. Qed.

Lemma ends_or_return {A} (o : option A) (f : Frame) :
  P f -> ends (E := E) (or_return o f) (fun a => o = Some a) P.
Proof. intros Hf s. by destruct o. Qed.

Lemma ends_arg (args : list bytes) i :
  (i < length args)%nat -> ends (E := E) (arg args i) (fun a => args !! i = Some a) P.
Proof. intros Hi s. unfold arg. destruct (lookup_lt_is_Some_2 args i Hi) as [a Ha]. by rewrite Ha. Qed.

Lemma ends_args_from (args : list bytes) i :
  (i <= length args)%nat -> ends (E := E) (args_from args i) (fun l => l = drop i args) P.
Proof. intros Hi s. unfold args_from. by rewrite decide_False by lia. Qed.

Lemma ends_store {A} (m : M E A) : (forall e, P (engine_error e)) -> ends (store_call m) (fun _ => True) P.
Proof. intros He s. unfold store_call. by destruct (m s) as [s' [a|e]]; cbn. Qed.

Lemma ends_weaken {A} (c : Cmd E A) (Q R : A -> Prop) : ends c R P -> (forall a, R a -> Q a) -> ends c Q P.
Proof. intros Hc HQ s. specialize (Hc s). destruct (c s) as [s' [a|f|]]; cbn in *; auto. Qed.

Lemma ends_now : (forall e, P (engine_error e)) -> ends (E := E) now_i64 (fun _ => True) P.
Proof.
  intros He. eapply ends_bind; [by apply ends_store|]. intros a _. by apply ends_ret.
Qed.
End Triples.

(** One step of a handler: its first action, whose result is then introduced. *)
Ltac ends_step :=
  match goal with
  | |- ends (_ ≫= _) _ _ =>
      eapply ends_bind;
      [first [ apply ends_arg; lia | apply ends_args_from; lia
             | apply ends_store; auto with gs | apply ends_now; auto with gs
             | apply ends_or_return; auto with gs ]
      |intros ? ?]
  | |- ends (mret _) _ _ => apply ends_ret
  | |- ends (return_ _) _ _ => apply ends_return; auto with gs
  | |- ends (if ?b then _ else _) _ _ => destruct b
  end.

Section Handlers.
Context {E : Type} `{GeneralEngine E} (ctx : ExecCtx).

Abbreviation version := (ctx_version ctx).
Abbreviation answers c := (ends (E := E) c (fits version) (fits version)).
Implicit Types args : list bytes.

(** The arguments, given how many there are. *)
Ltac handler := repeat ends_step; auto with gs; repeat case_match; auto with gs.

Lemma ping_ends args : (1 <= length args)%nat -> answers (ping ctx args).
Proof. intros. unfold ping. handler. Qed.
Lemma echo_ends args : length args = 2%nat -> answers (echo ctx args).
Proof. intros. unfold echo. handler. Qed.

(** Strings *)

Lemma set_options_ends opts ms : ends (E := E) (set_options opts ms) (fun _ => True) (fits version).
Proof.
  remember (length opts) as n eqn:Hn. assert (length opts <= n)%nat by lia. clear Hn.
  revert opts ms H0. induction n as [|n IH]; intros [|opt [|raw opts]] ms; cbn [length]; intros Hl;
    try lia; cbn [set_options]; repeat ends_step; auto with gs.
  - eapply (ends_bind _ _ _ (fun _ => True)); [by repeat ends_step; auto with gs|]. intros unit _.
    by repeat ends_step; auto with gs.
  - eapply (ends_bind _ _ _ (fun _ => True)); [by repeat ends_step; auto with gs|]. intros unit _.
    repeat ends_step; auto with gs. apply IH. lia.
Qed.

Lemma set_ends args : (3 <= length args)%nat -> answers (CmdString.set ctx args).
Proof.
  intros. unfold CmdString.set. eapply ends_bind; [apply set_options_ends|intros ms _]. handler.
Qed.
Lemma get_ends args : length args = 2%nat -> answers (CmdString.get ctx args).
Proof. intros. unfold CmdString.get. handler. Qed.

Lemma count_keys_ends f keys n : ends (E := E) (count_keys f keys n) (fun _ => True) (fits version).
Proof. revert n. induction keys as [|k keys IH]; intros n; cbn [count_keys]; repeat ends_step; auto with gs. Qed.

Lemma del_ends args : (2 <= length args)%nat -> answers (CmdString.del ctx args).
Proof.
  intros. unfold CmdString.del. ends_step. eapply ends_bind; [apply count_keys_ends|intros r _]. handler.
Qed.
Lemma exists_ends args : (2 <= length args)%nat -> answers (CmdString.exists_ ctx args).
Proof.
  intros. unfold CmdString.exists_. ends_step. eapply ends_bind; [apply count_keys_ends|intros r _]. handler.
Qed.
Lemma type_of_ends args : length args = 2%nat -> answers (CmdString.type_of ctx args).
Proof. intros. unfold CmdString.type_of. handler. Qed.
Lemma expire_generic_ends args unit cmd : length args = 3%nat -> answers (expire_generic ctx args unit cmd).
Proof. intros. unfold expire_generic. handler. Qed.
Lemma ttl_ends args : length args = 2%nat -> answers (ttl ctx args).
Proof. intros. unfold ttl. handler. Qed.
Lemma pttl_ends args : length args = 2%nat -> answers (CmdString.pttl ctx args).
Proof. intros. unfold CmdString.pttl. handler. Qed.

(** Hashes *)

Lemma hset_ends args : (4 <= length args)%nat -> answers (CmdHash.hset ctx args).
Proof. intros. unfold CmdHash.hset. handler. Qed.
Lemma hget_ends args : length args = 3%nat -> answers (CmdHash.hget ctx args).
Proof. intros. unfold CmdHash.hget. handler. Qed.

Lemma hmget_loop_ends key fields items :
  Forall (fits version) items -> ends (E := E) (hmget_loop key fields items) (Forall (fits version)) (fits version).
Proof.
  revert items. induction fields as [|f fields IH]; intros items Hi; cbn [hmget_loop]; repeat ends_step; [done|].
  apply IH, Forall_app. split; [done|]. constructor; [|constructor]. destruct a; auto with gs.
Qed.

Lemma hmget_ends args : (3 <= length args)%nat -> answers (hmget ctx args).
Proof.
  intros. unfold hmget. do 2 ends_step. eapply ends_bind; [apply hmget_loop_ends; constructor|intros items Hi].
  ends_step. by apply fits_array.
Qed.
Lemma hgetall_ends args : length args = 2%nat -> answers (CmdHash.hgetall ctx args).
Proof.
  intros. unfold CmdHash.hgetall. do 2 ends_step. cbv zeta. ends_step.
  destruct version eqn:Hv; [|done]. apply fits_flat, Forall_fmap, list.Forall_forall. done.
Qed.
Lemma hdel_ends args : (3 <= length args)%nat -> answers (CmdHash.hdel ctx args).
Proof. intros. unfold CmdHash.hdel. handler. Qed.
Lemma hlen_ends args : length args = 2%nat -> answers (CmdHash.hlen ctx args).
Proof. intros. unfold CmdHash.hlen. handler. Qed.
Lemma hexists_ends args : length args = 3%nat -> answers (CmdHash.hexists ctx args).
Proof. intros. unfold CmdHash.hexists. handler. Qed.

(** Sets *)

Lemma sadd_ends args : (3 <= length args)%nat -> answers (CmdSet.sadd ctx args).
Proof. intros. unfold CmdSet.sadd. handler. Qed.
Lemma srem_ends args : (3 <= length args)%nat -> answers (CmdSet.srem ctx args).
Proof. intros. unfold CmdSet.srem. handler. Qed.
Lemma sismember_ends args : length args = 3%nat -> answers (CmdSet.sismember ctx args).
Proof. intros. unfold CmdSet.sismember. handler. Qed.
Lemma smembers_ends args : length args = 2%nat -> answers (CmdSet.smembers ctx args).
Proof.
  intros. unfold CmdSet.smembers. do 2 ends_step. cbv zeta. ends_step.
  destruct version eqn:Hv; [|done]. apply (fits_bulks V2).
Qed.
Lemma scard_ends args : length args = 2%nat -> answers (CmdSet.scard ctx args).
Proof. intros. unfold CmdSet.scard. handler. Qed.

(** Sorted sets *)

Lemma zadd_pairs_ends l pairs : ends (E := E) (zadd_pairs l pairs) (fun _ => True) (fits version).
Proof. revert pairs. induction l as [|[raw m] l IH]; intros pairs; cbn [zadd_pairs]; repeat ends_step; auto with gs. Qed.

Lemma zadd_ends args : (4 <= length args)%nat -> answers (CmdZSet.zadd ctx args).
Proof.
  intros. unfold CmdZSet.zadd. repeat ends_step; auto with gs.
  eapply ends_bind; [apply zadd_pairs_ends|intros pairs _]. handler.
Qed.
Lemma zscore_ends args : length args = 3%nat -> answers (CmdZSet.zscore ctx args).
Proof.
  intros. unfold CmdZSet.zscore. repeat ends_step. unfold score_frame.
  destruct a1; [|auto with gs]. by destruct version.
Qed.
Lemma zrange_ends args : (4 <= length args)%nat -> answers (CmdZSet.zrange ctx args).
Proof.
  intros. unfold CmdZSet.zrange. do 4 ends_step.
  eapply (ends_bind _ _ _ (fun _ => True)); [case_match; repeat ends_step; auto with gs|intros ws _]. handler.
Qed.

Lemma zrangebyscore_options_ends opts ws limit :
  ends (E := E) (zrangebyscore_options opts ws limit) (fun _ => True) (fits version).
Proof.
  remember (length opts) as n eqn:Hn. assert (length opts <= n)%nat by lia. clear Hn.
  revert opts ws limit H0. induction n as [|n IH]; intros [|opt opts] ws limit; cbn [length]; intros Hl;
    try lia; cbn [zrangebyscore_options]; [by repeat ends_step..|].
  ends_step; [apply IH; lia|]. ends_step; [|by repeat ends_step; auto with gs].
  destruct opts as [|o [|c opts]]; repeat ends_step; auto with gs. apply IH. cbn in Hl. lia.
Qed.

Lemma zrangebyscore_ends args : (4 <= length args)%nat -> answers (zrangebyscore ctx args).
Proof.
  intros. unfold zrangebyscore. do 4 ends_step.
  eapply ends_bind; [apply zrangebyscore_options_ends|intros opts _]. handler.
Qed.
Lemma zrem_ends args : (3 <= length args)%nat -> answers (CmdZSet.zrem ctx args).
Proof. intros. unfold CmdZSet.zrem. handler. Qed.
Lemma zcard_ends args : length args = 2%nat -> answers (CmdZSet.zcard ctx args).
Proof. intros. unfold CmdZSet.zcard. handler. Qed.

(** Lists *)

Lemma push_ends args : (3 <= length args)%nat -> answers (CmdList.push ctx args).
Proof. intros. unfold CmdList.push. handler. Qed.

Lemma pop_count_ends args : ends (E := E) (pop_count args) (fun _ => True) (fits version).
Proof. unfold pop_count. repeat case_match; repeat ends_step; auto with gs. Qed.

Lemma pop_ends args : (2 <= length args)%nat -> answers (CmdList.pop ctx args).
Proof.
  intros. unfold CmdList.pop. ends_step. eapply ends_bind; [apply pop_count_ends|intros count _].
  repeat ends_step; auto with gs. destruct count; [apply fits_bulks|]. destruct (head a2); auto with gs.
Qed.
Lemma lrange_ends args : length args = 4%nat -> answers (CmdList.lrange ctx args).
Proof. intros. unfold CmdList.lrange. handler. Qed.
Lemma llen_ends args : length args = 2%nat -> answers (CmdList.llen ctx args).
Proof. intros. unfold CmdList.llen. handler. Qed.

(** Introspection *)

Lemma dbsize_ends args : answers (CmdAdmin.dbsize ctx args).
Proof. unfold CmdAdmin.dbsize. handler. Qed.
Lemma rawcount_ends args : answers (rawcount ctx args).
Proof. unfold rawcount. handler. Qed.
Lemma compact_ends args : answers (CmdAdmin.compact ctx args).
Proof. unfold CmdAdmin.compact. handler. Qed.
End Handlers.

(** ** The table of commands *)

Section Table.
Context {E : Type} `{GeneralEngine E}.

(** The standard registrations in one list: name, arity, handler. *)
Definition spec_table : list (bytes * (Z * CommandHandler E)) :=
  [(B "PING", (-1, ping)); (B "ECHO", (2, echo));
   (B "SET", (-3, CmdString.set)); (B "GET", (2, CmdString.get)); (B "DEL", (-2, CmdString.del));
   (B "EXISTS", (-2, CmdString.exists_)); (B "TYPE", (2, CmdString.type_of));
   (B "EXPIRE", (3, expire)); (B "PEXPIRE", (3, pexpire)); (B "TTL", (2, ttl));
   (B "PTTL", (2, CmdString.pttl));
   (B "HSET", (-4, CmdHash.hset)); (B "HMSET", (-4, CmdHash.hset)); (B "HGET", (3, CmdHash.hget));
   (B "HMGET", (-3, hmget)); (B "HGETALL", (2, CmdHash.hgetall)); (B "HDEL", (-3, CmdHash.hdel));
   (B "HLEN", (2, CmdHash.hlen)); (B "HEXISTS", (3, CmdHash.hexists));
   (B "SADD", (-3, CmdSet.sadd)); (B "SREM", (-3, CmdSet.srem)); (B "SISMEMBER", (3, CmdSet.sismember));
   (B "SMEMBERS", (2, CmdSet.smembers)); (B "SCARD", (2, CmdSet.scard));
   (B "ZADD", (-4, CmdZSet.zadd)); (B "ZSCORE", (3, CmdZSet.zscore)); (B "ZRANGE", (-4, CmdZSet.zrange));
   (B "ZRANGEBYSCORE", (-4, zrangebyscore)); (B "ZREM", (-3, CmdZSet.zrem)); (B "ZCARD", (2, CmdZSet.zcard));
   (B "LPUSH", (-3, CmdList.push)); (B "RPUSH", (-3, CmdList.push)); (B "LPOP", (-2, CmdList.pop));
   (B "RPOP", (-2, CmdList.pop)); (B "LRANGE", (4, CmdList.lrange)); (B "LLEN", (2, CmdList.llen));
   (B "DBSIZE", (1, CmdAdmin.dbsize)); (B "RAWCOUNT", (1, rawcount)); (B "COMPACT", (1, CmdAdmin.compact))].

Definition spec_of (e : bytes * (Z * CommandHandler E)) : CommandSpec E :=
  mk_CommandSpec (to_ascii_lowercase e.1) e.2.1 e.2.2.

Lemma standard_table :
  standard = fold_left (fun reg e => register reg e.1 e.2.1 e.2.2) spec_table CommandRegistry_new.
Proof. reflexivity. Qed.

(** Every registered command is an entry of the table. *)
Lemma standard_entry name spec :
  commands (standard (E := E)) !! name = Some spec -> exists e, e ∈ spec_table /\ name = e.1 /\ spec = spec_of e.
Proof.
  rewrite standard_table.
  assert (Hfold : forall l (reg : CommandRegistry E),
    commands (fold_left (fun reg e => register reg e.1 e.2.1 e.2.2) l reg) !! name = Some spec ->
    commands reg !! name = Some spec \/ exists e, e ∈ l /\ name = e.1 /\ spec = spec_of e).
  { induction l as [|e l IH]; intros reg; cbn [fold_left]; [by left|]. intros [Hr|(e' & He & ?)]%IH.
    - unfold register in Hr. cbn [commands] in Hr. destruct (decide (e.1 = name)) as [Hn|Hn].
      + subst name. rewrite lookup_insert_eq in Hr. injection Hr as <-. right. exists e. split; [by left|done].
      + rewrite lookup_insert_ne in Hr by done. by left.
    - right. exists e'. split; [by right|done]. }
  intros [Hn|?]%Hfold; [|done]. unfold CommandRegistry_new in Hn. cbn [commands] in Hn. by rewrite lookup_empty in Hn.
Qed.

(** Every entry of the table is registered. *)
Lemma standard_lookup (e : bytes * (Z * CommandHandler E)) :
  e ∈ spec_table -> commands (standard (E := E)) !! e.1 = Some (spec_of e).
Proof.
  intros He. assert (Hf : Forall (fun e => commands (standard (E := E)) !! e.1 = Some (spec_of e)) spec_table).
  { unfold spec_table. repeat (apply List.Forall_cons; [reflexivity|]). constructor. }
  rewrite list.Forall_forall in Hf. by apply Hf.
Qed.

(** What holds of every entry of the table holds of every registered command. *)
Lemma standard_forall (P : bytes * (Z * CommandHandler E) -> Prop) name spec :
  Forall P spec_table -> commands (standard (E := E)) !! name = Some spec -> exists e, P e /\ name = e.1 /\ spec = spec_of e.
Proof.
  intros HP (e & He & Hn & Hs)%standard_entry. rewrite list.Forall_forall in HP. eauto.
Qed.

(** A handler that ends well whenever its arity admits the arguments. *)
Definition entry_ends (e : bytes * (Z * CommandHandler E)) : Prop :=
  forall ctx args, arity_matches e.2.1 (length args) = true ->
    ends (e.2.2 ctx args) (fits (ctx_version ctx)) (fits (ctx_version ctx)).

Lemma arity_min n (args : list bytes) :
  (0 < n)%nat -> arity_matches (- Z.of_nat n) (length args) = true -> (n <= length args)%nat.
Proof. unfold arity_matches. destruct (Z.ltb_spec 0 (- Z.of_nat n)); lia. Qed.

Lemma arity_exact n (args : list bytes) :
  (0 < n)%nat -> arity_matches (Z.of_nat n) (length args) = true -> length args = n.
Proof. unfold arity_matches. destruct (Z.ltb_spec 0 (Z.of_nat n)); lia. Qed.

Lemma table_ends : Forall entry_ends spec_table.
Proof.
  unfold spec_table. repeat apply List.Forall_cons; [..|apply List.Forall_nil]; intros ctx args Ha;
    cbn [fst snd] in *; unfold expire, pexpire;
    first
    [ apply (arity_min 1) in Ha; [|lia] | apply (arity_min 2) in Ha; [|lia]
    | apply (arity_min 3) in Ha; [|lia] | apply (arity_min 4) in Ha; [|lia]
    | apply (arity_exact 1) in Ha; [|lia] | apply (arity_exact 2) in Ha; [|lia]
    | apply (arity_exact 3) in Ha; [|lia] | apply (arity_exact 4) in Ha; [|lia] ];
    auto using ping_ends, echo_ends, set_ends, get_ends, del_ends, exists_ends, type_of_ends,
      expire_generic_ends, ttl_ends, pttl_ends, hset_ends, hget_ends, hmget_ends, hgetall_ends,
      hdel_ends, hlen_ends, hexists_ends, sadd_ends, srem_ends, sismember_ends, smembers_ends,
      scard_ends, zadd_ends, zscore_ends, zrange_ends, zrangebyscore_ends, zrem_ends, zcard_ends,
      push_ends, pop_ends, lrange_ends, llen_ends, dbsize_ends, rawcount_ends, compact_ends.
Qed.

Lemma dispatch_ends ctx args :
  ends (Registry.dispatch (standard (E := E)) ctx args) (fits (ctx_version ctx)) (fits (ctx_version ctx)).
Proof.
  unfold Registry.dispatch. destruct args as [|first args]; [apply ends_ret, fits_scalar; done|].
  destruct (commands standard !! _) as [spec|] eqn:Hs; [|apply ends_ret, fits_scalar; done].
  destruct (standard_forall _ _ _ table_ends Hs) as (e & He & _ & ->). cbn [arity handler spec_of name_lower].
  destruct (arity_matches _ _) eqn:Ha; cbn [negb]; [by apply He|].
  apply ends_ret, fits_scalar. done.
Qed.

(** ** Names in any case *)

Lemma ascii_lower_upper b : ascii_lower (ascii_upper b) = ascii_lower b.
Proof. by destruct b. Qed.

Lemma ascii_upper_upper b : ascii_upper (ascii_upper b) = ascii_upper b.
Proof. by destruct b. Qed.

Lemma ascii_upper_ascii b : is_ascii (ascii_upper b) = true -> is_ascii b = true.
Proof. by destruct b. Qed.

Lemma uppercase_ascii n : Forall (fun b => is_ascii b = true) (to_ascii_uppercase n) ->
  Forall (fun b => is_ascii b = true) n.
Proof.
  unfold to_ascii_uppercase. rewrite Forall_fmap. apply List.Forall_impl. intros b. apply ascii_upper_ascii.
Qed.

Lemma uppercase_lossy n :
  Forall (fun b => is_ascii b = true) (to_ascii_uppercase n) -> from_utf8_lossy n = n.
Proof. intros Hn%uppercase_ascii. apply from_utf8_lossy_valid. by apply utf8_valid_ascii. Qed.

(** A name that decodes to ASCII is that ASCII. *)
Lemma lossy_ascii n : Forall (fun b => is_ascii b = true) (from_utf8_lossy n) -> from_utf8_lossy n = n.
Proof.
  revert n. apply (utf8_ind (fun n => Forall (fun b => is_ascii b = true) (from_utf8_lossy n) ->
    from_utf8_lossy n = n)); [done|].
  intros b l IH. rewrite from_utf8_lossy_cons. destruct (utf8_char_ok b l).
  - intros [_ Hr]%Forall_app. rewrite (IH Hr). cbn [app]. by rewrite take_drop.
  - intros [Hr _]%Forall_app. by inversion Hr.
Qed.

(** Two spellings of one name. *)
Lemma spelling_lower n1 n2 :
  to_ascii_uppercase n1 = to_ascii_uppercase n2 -> to_ascii_lowercase n1 = to_ascii_lowercase n2.
Proof.
  intros Hu. assert (Hl : forall n, to_ascii_lowercase n = to_ascii_lowercase (to_ascii_uppercase n)).
  { intros n. unfold to_ascii_lowercase, to_ascii_uppercase. rewrite <- list_fmap_compose.
    apply list_fmap_ext. intros. cbn. by rewrite ascii_lower_upper. }
  by rewrite (Hl n1), (Hl n2), Hu.
Qed.

(** A handler sees its own name only up to case. *)
Definition name_blind (e : bytes * (Z * CommandHandler E)) : Prop :=
  Forall (fun b => is_ascii b = true) e.1 /\
  forall ctx n1 n2 rest, to_ascii_lowercase n1 = to_ascii_lowercase n2 ->
    e.2.2 ctx (n1 :: rest) = e.2.2 ctx (n2 :: rest).

Lemma eq_ignore_case_spelling n1 n2 s :
  to_ascii_lowercase n1 = to_ascii_lowercase n2 -> eq_ignore_ascii_case n1 s = eq_ignore_ascii_case n2 s.
Proof. unfold eq_ignore_ascii_case. by intros ->. Qed.

Lemma arg_name {A} n rest (f : bytes -> Cmd E A) : (arg (n :: rest) 0 ≫= f) = f n.
Proof. reflexivity. Qed.

Lemma table_name_blind : Forall name_blind spec_table.
Proof.
  unfold spec_table. repeat apply List.Forall_cons; [..|apply List.Forall_nil];
    (split; [by repeat constructor|]); intros ctx n1 n2 rest Hl; cbn [fst snd]; try reflexivity;
    unfold CmdHash.hset, CmdList.push, CmdList.pop; rewrite !arg_name, (eq_ignore_case_spelling n1 n2) by done;
    reflexivity.
Qed.

(** Command names are case-insensitive: every spelling of a registered
    command does exactly what its canonical name does, from every state and with
    every argument list. *)
Theorem dispatch_case_insensitive (ctx : ExecCtx) (name spelling : bytes) (rest : list bytes) :
  is_Some (commands (standard (E := E)) !! name) -> to_ascii_uppercase spelling = name ->
  Registry.dispatch (standard (E := E)) ctx (spelling :: rest) =
  Registry.dispatch standard ctx (name :: rest).
Proof.
  intros [spec Hs] Hu. destruct (standard_forall _ _ _ table_name_blind Hs) as (e & [Hascii Hblind] & Hn & ->).
  rewrite <- Hn in Hascii.
  assert (Hup : to_ascii_uppercase name = name).
  { rewrite <- Hu. unfold to_ascii_uppercase. rewrite <- list_fmap_compose.
    apply list_fmap_ext. intros. apply ascii_upper_upper. }
  unfold Registry.dispatch. rewrite !uppercase_lossy by (rewrite ?Hu, ?Hup; done).
  rewrite Hu, Hup, Hs. cbn [arity handler spec_of name_lower]. destruct (negb _); [done|].
  apply Hblind, spelling_lower. by rewrite Hu, Hup.
Qed.
End Table.

Lemma dispatch_case_insensitive_witness :
  Registry.dispatch (standard (E := RocksEngine MemDb)) (mk_ExecCtx V2) [B "hSeT"; B "h"; B "f"; B "1"] =
  Registry.dispatch standard (mk_ExecCtx V2) [B "HSET"; B "h"; B "f"; B "1"].
Proof.
  apply (dispatch_case_insensitive (mk_ExecCtx V2) (B "HSET") (B "hSeT") [B "h"; B "f"; B "1"]).
  - by eexists.
  - reflexivity.
Defined.
