(* ===== verification/ServerProps.v ===== *)
(** * What a connection promises

    Theorems about Server.v over the standard command set: a connection never
    crashes, every reply is one its protocol version can carry, a pipelined
    session is answered in order whatever the network does to the bytes, and the
    one way a client can make the reply stream say more than the server meant. *)

From S2P Require Import Prelude F64 Text Frame Encode Decode Streaming RoundTrip Codec Encoding Engine Gc Store.
From S2P Require Import Registry Commands CommandProps Server Rocks StoreRefine.

(** ** One dispatch *)

(** The version in force when the reply of [a] is written. *)
Definition reply_version (v : RespVersion) (a : Action) : RespVersion := default v (set_version a).

Section ServerProps.
Context (CARGO_PKG_VERSION : bytes) {E : Type} `{GeneralEngine E}.

Abbreviation serve := (Server.dispatch (E := E) CARGO_PKG_VERSION).
Abbreviation run := (handle_connection (E := E) CARGO_PKG_VERSION).

Definition verb (args : list bytes) : bytes :=
  to_ascii_uppercase (from_utf8_lossy (default [] (head args))).

Lemma replying_ends (c : Cmd E Frame) v :
  ends c (fits v) (fits v) -> ends (replying c) (fun a => set_version a = None /\ fits v (reply a)) (fun _ => False).
Proof. intros Hc s. specialize (Hc s). unfold replying. by destruct (c s) as [s' [f|f|]]. Qed.

Lemma flush_store_ends v : ends (E := E) flush_store (fits v) (fits v).
Proof. intros s. unfold flush_store. destruct (Store.flush_all s) as [s' [u|e]]; by apply fits_scalar. Qed.

Lemma flush_ends args v : args <> [] -> ends (E := E) (flush args) (fits v) (fits v).
Proof.
  intros Ha. unfold flush. eapply ends_bind; [apply ends_arg; destruct args; [done|cbn; lia]|].
  intros a _. eapply (ends_bind _ _ _ (fun _ => True)); [|intros _ _; apply flush_store_ends].
  repeat case_match; first [by apply ends_ret|by apply ends_return, fits_scalar].
Qed.

Lemma hello_reply_fits v id : fits v (hello_reply CARGO_PKG_VERSION v id).
Proof. by destruct v. Qed.

Lemma hello_fits args v id : fits (reply_version v (hello CARGO_PKG_VERSION args v id)) (reply (hello CARGO_PKG_VERSION args v id)).
Proof.
  unfold hello. destruct (args !! 1%nat) as [raw|]; [|apply hello_reply_fits].
  destruct (i64_from_str _ ≫= from_i64) as [w|]; [apply hello_reply_fits|by apply fits_scalar].
Qed.

(** A scalar reply, whatever the arguments. *)
Lemma client_fits args v id : fits v (client args id).
Proof. unfold client. apply fits_scalar. by repeat case_match. Qed.

Lemma select_fits args v : fits v (select args).
Proof. unfold select. apply fits_scalar. by repeat case_match. Qed.

(** Every dispatch ends in an action: only HELLO switches the version, and the
    reply is one the version in force can carry. *)
Lemma serve_ends args v id :
  args <> [] ->
  ends (serve args v id standard)
    (fun a => fits (reply_version v a) (reply a) /\ (set_version a <> None -> verb args = B "HELLO"))
    (fun _ => False).
Proof.
  intros Ha. unfold Server.dispatch. eapply ends_bind; [apply ends_arg; destruct args; [done|cbn; lia]|].
  intros first Hfirst. assert (Hv : verb args = to_ascii_uppercase (from_utf8_lossy first)).
  { unfold verb. destruct args; [done|]. by injection Hfirst as ->. }
  assert (Hplain : forall c : Cmd E Frame, ends c (fits v) (fits v) ->
    ends (replying c) (fun a => fits (reply_version v a) (reply a) /\
      (set_version a <> None -> verb args = B "HELLO")) (fun _ => False)).
  { intros c Hc. eapply ends_weaken; [by apply replying_ends|]. intros a [Hs Hf].
    unfold reply_version. by rewrite Hs. }
  cbv zeta. rewrite <- Hv.
  repeat (case_bool_decide; [first [by apply Hplain, flush_ends|apply ends_ret; split; cbn [set_version]]|]).
  - apply hello_fits.
  - done.
  - by apply fits_scalar.
  - done.
  - apply client_fits.
  - done.
  - apply select_fits.
  - done.
  - by apply fits_array.
  - done.
  - apply Hplain, (dispatch_ends (mk_ExecCtx v)).
Qed.

Lemma serve_done args v id s :
  args <> [] -> exists s' a, serve args v id standard s = (s', Done a) /\
    fits (reply_version v a) (reply a) /\ (set_version a <> None -> verb args = B "HELLO").
Proof.
  intros Ha. pose proof (serve_ends args v id Ha s) as Hs.
  destruct (serve args v id standard s) as [s' [a|f|]]; cbn in Hs; [by eauto|done..].
Qed.

(** ** One turn of the loop *)

Lemma handle_event_step id ev c :
  (handle_event CARGO_PKG_VERSION standard id ev c).2 <> Some Crashed /\
  let c' := (handle_event CARGO_PKG_VERSION standard id ev c).1 in
  let v := codec_version (codec c') in
  (exists frames, (length frames <= 1)%nat /\ Forall (fits v) frames /\
    sent_bytes c' = sent_bytes c ++ encode_all v frames) /\
  (v <> codec_version (codec c) ->
    exists args sent, ev = EvItem (Ok args) sent /\ verb args = B "HELLO").
Proof.
  assert (Hnil : forall v, exists frames, (length frames <= 1)%nat /\ Forall (fits v) frames /\
    sent_bytes c = sent_bytes c ++ encode_all v frames).
  { intros v. exists []. split; [cbn; lia|]. split; [constructor|]. cbn. by rewrite app_nil_r. }
  assert (Hone : forall v f, fits v f -> exists frames, (length frames <= 1)%nat /\ Forall (fits v) frames /\
    encode f v (sent_bytes c) = sent_bytes c ++ encode_all v frames).
  { intros v f Hf. exists [f]. split; [cbn; lia|]. split; [by repeat constructor|].
    rewrite encode_app. unfold encode_all. cbn. by rewrite app_nil_r. }
  destruct ev as [| |[[|a0 args]|e] sent]; cbn [handle_event].
  1-3: by split; [done|split; [apply Hnil|]].
  - destruct (serve_done (a0 :: args) (codec_version (codec c)) id (store c)) as (s' & a & -> & Hf & Hs); [done|].
    unfold reply_version in Hf. destruct sent as [[]|e]; cbn [fst snd].
    + split; [by destruct (close a)|]. destruct (set_version a) as [w|]; cbn in *.
      * split; [by apply Hone|]. intros _. exists (a0 :: args), (Ok tt). auto.
      * split; [by apply Hone|done].
    + split; [done|]. destruct (set_version a) as [w|]; cbn in *; (split; [apply Hnil|]); [|done].
      intros _. exists (a0 :: args), (Err e). auto.
  - split; [done|]. destruct sent as [[]|e']; cbn [send fst codec]; (split; [|done]); [|apply Hnil].
    by apply Hone, fits_scalar.
Qed.


(** C7. Replies are typed by the protocol version: one turn of the loop writes
    at most one frame, encoded for the version then in force; on a RESP2
    connection it holds no RESP3 type; and only HELLO changes the version. *)
Theorem replies_fit_version (conn_id : Z) (ev : Event) (c : Conn) :
  let c' := (handle_event CARGO_PKG_VERSION standard conn_id ev c).1 in
  let v := codec_version (codec c') in
  (exists frames, (length frames <= 1)%nat /\ Forall (fits v) frames /\
    sent_bytes c' = sent_bytes c ++ encode_all v frames) /\
  (v <> codec_version (codec c) ->
    exists args sent, ev = EvItem (Ok args) sent /\ verb args = B "HELLO").
Proof. apply handle_event_step. Qed.

(** ** A pipelined session *)

(** What the requests of one connection are answered, one after the other: each
    runs on the store the previous one left, under the version it left, until one
    of them closes the connection.  An empty request is not answered. *)
Fixpoint session (conn_id : Z) (reqs : list (list bytes)) (v : RespVersion) (s : State E) : list Frame :=
  match reqs with
  | [] => []
  | [] :: reqs' => session conn_id reqs' v s
  | args :: reqs' =>
      match serve args v conn_id standard s with
      | (s', Done a) =>
          reply a :: (if close a then [] else session conn_id reqs' (reply_version v a) s')
      | _ => []
      end
  end.

(** The items of a stream whose replies are all delivered. *)
Definition deliver (reqs : list (list bytes)) : list Event :=
  (fun args => EvItem (Ok args) (Ok tt)) <$> reqs.

(** The loop writes the session's replies, each for the version in force. *)
Lemma session_written conn_id reqs (c : Conn) :
  exists tagged : list (RespVersion * Frame),
    tagged.*2 = session conn_id reqs (codec_version (codec c)) (store c) /\
    sent_bytes (run standard conn_id (deliver reqs) c).1 =
      sent_bytes c ++ concat ((fun vf => encode_to_vec vf.2 vf.1) <$> tagged).
Proof.
  revert c. induction reqs as [|[|a0 args] reqs IH]; intros c; unfold deliver;
    cbn [fmap list_fmap handle_connection handle_event session].
  - exists []. cbn. by rewrite app_nil_r.
  - apply IH.
  - destruct (serve_done (a0 :: args) (codec_version (codec c)) conn_id (store c)) as (s' & a & -> & _); [done|].
    set (k := match set_version a with Some w => _ | None => _ end).
    assert (Hk : codec_version k = reply_version (codec_version (codec c)) a)
      by by unfold k, reply_version; destruct (set_version a).
    cbn [send codec]. unfold CommandCodec_encode. cbn [codec sent_bytes store]. rewrite encode_app.
    destruct (close a).
    + exists [(codec_version k, reply a)]. split; [done|]. cbn. by rewrite app_nil_r.
    + destruct (IH (mk_Conn k s' (sent_bytes c ++ encode_to_vec (reply a) (codec_version k)))) as (l & Hl & Hb).
      exists ((codec_version k, reply a) :: l). cbn [fmap list_fmap fst snd concat codec store sent_bytes] in *.
      split; [by rewrite Hl, Hk|]. fold (deliver reqs). by rewrite Hb, <- app_assoc.
Qed.

(** A stream that mixes the two versions still reads back frame by frame. *)
Lemma drain_mixed limits (tagged : list (RespVersion * Frame)) :
  limits_ok limits -> Forall (sendable limits) tagged.*2 ->
  drain_all (decoder limits) (concat ((fun vf => encode_to_vec vf.2 vf.1) <$> tagged)) = (tagged.*2, Ok []).
Proof.
  intros Hlim. induction tagged as [|[v f] l IH]; intros Hl; cbn [fmap list_fmap concat fst snd] in *.
  - unfold drain_all. cbn [drain]. by rewrite (codec_empty (StreamCodec := frame_codec limits V2 Hlim)).
  - inversion_clear Hl as [|?? Hf Hl']. erewrite drain_all_some by by apply decode_encoded.
    by rewrite IH.
Qed.

Lemma session_received limits conn_id reqs chunks s :
  limits_ok limits -> Forall (sendable limits) (session conn_id reqs V2 s) ->
  concat chunks = sent_bytes (run standard conn_id (deliver reqs) (accepted s)).1 ->
  feed (decoder limits) [] chunks = (session conn_id reqs V2 s, Ok []).
Proof.
  intros Hlim Hs Hc. destruct (session_written conn_id reqs (accepted s)) as (l & Hl & Hb).
  cbn [accepted codec codec_version CommandCodec_new store sent_bytes app] in Hl, Hb.
  rewrite (feed_drain limits []).
  - cbn [app]. rewrite Hc, Hb, drain_mixed by (rewrite ?Hl; done). by rewrite Hl.
  - unfold drain_all. cbn [drain]. by rewrite (codec_empty (StreamCodec := frame_codec limits V2 Hlim)).
Qed.

(** A pipelined session is answered in order, whatever the network does: the
    client's requests may be cut anywhere on their way in, the replies anywhere on
    their way out, and the client still receives exactly the session's replies,
    one per non-empty request up to the one that closes the connection. *)
Theorem pipeline_in_order (server_limits client_limits : Limits) (conn_id : Z) (s : State E)
  (reqs : list (list bytes)) (inbound outbound : list bytes) :
  limits_ok server_limits -> limits_ok client_limits ->
  Forall (request_ok server_limits) reqs -> Forall (sendable client_limits) (session conn_id reqs V2 s) ->
  concat inbound = concat (encode_request <$> reqs) ->
  let received := (feed (command_decoder server_limits) [] inbound).1 in
  concat outbound = sent_bytes (run standard conn_id (deliver received) (accepted s)).1 ->
  feed (decoder client_limits) [] outbound = (session conn_id reqs V2 s, Ok []).
Proof.
  intros Hsl Hcl Hreqs Hreps Hin received Hout.
  assert (Hr : received = reqs).
  { unfold received. by rewrite (requests_received server_limits reqs inbound). }
  rewrite Hr in Hout. by apply session_received.
Qed.

(** ** Forged replies *)

Lemma upper_cr name : CR ∈ name -> CR ∈ to_ascii_uppercase name.
Proof. intros Hcr. apply (list_elem_of_fmap_2 ascii_upper _ _ Hcr). Qed.

(** No verb the server knows has a carriage return in it. *)
Lemma cr_unknown_verb name : CR ∈ name -> (name ∉ CONNECTION_VERBS) /\ commands (standard (E := E)) !! name = None.
Proof.
  intros Hcr. split.
  - assert (Hf : Forall (fun n => CR ∉ n) CONNECTION_VERBS).
    { unfold CONNECTION_VERBS.
      repeat (apply List.Forall_cons; [by apply (bool_decide_eq_false _)|]). constructor. }
    rewrite list.Forall_forall in Hf. intros Hn. by apply (Hf _ Hn).
  - destruct (commands standard !! name) as [spec|] eqn:Hs; [|done]. exfalso.
    destruct (standard_forall (fun e => CR ∉ e.1) name spec) as (e & He & -> & _); [|done..].
    unfold spec_table. repeat (apply List.Forall_cons; [by apply (bool_decide_eq_false _)|]). constructor.
Qed.

(** A command no one knows is answered with its own name. *)
Lemma serve_unknown args v conn_id s name :
  head args = Some name -> utf8_valid name = true -> CR ∈ name ->
  serve args v conn_id standard s =
    (s, Done (Action_reply (Frame_error (B "ERR unknown command '" ++ name ++ B "'")))).
Proof.
  intros Hh Hu Hcr. destruct args as [|n rest]; [done|]. injection Hh as ->.
  unfold Server.dispatch. rewrite arg_name. rewrite from_utf8_lossy_valid by done. cbv zeta.
  destruct (cr_unknown_verb _ (upper_cr _ Hcr)) as [Hv Hr]. unfold CONNECTION_VERBS in Hv.
  rewrite !not_elem_of_cons in Hv. destruct_and! Hv.
  rewrite !bool_decide_false by (clear Hr; naive_solver).
  unfold replying. by rewrite dispatch_unknown.
Qed.

(** C35. A client can forge replies: the name of an unknown command goes into the
    error reply as it came, so a name that holds a CR LF and the encoding of any
    frame makes one request produce an error reply and then that frame. *)
Theorem unknown_command_forges_reply (limits : Limits) (conn_id : Z) (s : State E) (p : bytes) (f : Frame) :
  limits_ok limits -> sendable limits f -> line_ok (B "ERR unknown command '" ++ p) = true ->
  let name := p ++ CRLF ++ encode_to_vec f V2 in
  utf8_valid name = true ->
  let c := (run standard conn_id (deliver [[name]]) (accepted s)).1 in
  store c = s /\
  drain (decoder limits) 2 (sent_bytes c) = ([Error (B "ERR unknown command '" ++ p); f], Ok (B "'" ++ CRLF)).
Proof.
  intros Hlim Hf Hline name Hu c.
  assert (Hc : c = mk_Conn CommandCodec_new s
    (encode_to_vec (Error ((B "ERR unknown command '" ++ p) ++ CRLF ++ encode_to_vec f V2 ++ B "'")) V2)).
  { unfold c, deliver. cbn [fmap list_fmap handle_connection handle_event accepted codec store].
    rewrite (serve_unknown _ _ _ _ name); [|done..|unfold name; rewrite !elem_of_app; right; left; by left].
    change (fst _) with
      (mk_Conn CommandCodec_new s (encode_to_vec (Error (B "ERR unknown command '" ++ name ++ B "'")) V2)).
    do 3 f_equal. unfold name. by rewrite <- !app_assoc. }
  rewrite Hc. cbn [store sent_bytes]. split; [done|].
  cbn [drain]. rewrite <- (app_nil_r (encode_to_vec (Error _) V2)), error_text_splits, app_nil_r by done.
  by rewrite <- app_assoc, decode_encoded.
Qed.
End ServerProps.

(** ** Witnesses *)

Lemma demo_limits_ok : limits_ok demo_limits.
Proof. split; [done|]. split; done. Qed.

Definition demo_reqs : list (list bytes) :=
  [[B "set"; B "k"; B "v"]; [B "GET"; B "k"]; []; [B "HELLO"; B "3"]; [B "GET"; B "x"]; [B "QUIT"]; [B "PING"]].

Definition demo_client : Limits := mk_Limits 64 64 64 4.

Lemma pipeline_in_order_witness :
  let written := sent_bytes (handle_connection (B "0.1") standard 7
    (deliver (feed (command_decoder demo_limits) [] [concat (encode_request <$> demo_reqs)]).1)
    (accepted demo_state)).1 in
  feed (decoder demo_client) [] [take 9 written; drop 9 written] =
  ([Simple (B "OK"); Bulk (B "v"); hello_reply (B "0.1") V3 7; Null; Simple (B "OK")], Ok []).
Proof.
  intros written.
  assert (Hs : session (B "0.1") 7 demo_reqs V2 demo_state =
    [Simple (B "OK"); Bulk (B "v"); hello_reply (B "0.1") V3 7; Null; Simple (B "OK")])
    by (vm_compute; reflexivity).
  rewrite <- Hs.
  apply (pipeline_in_order (B "0.1") demo_limits demo_client 7 demo_state demo_reqs
    [concat (encode_request <$> demo_reqs)]).
  - exact demo_limits_ok.
  - split; [done|]. split; done.
  - repeat constructor; vm_compute; discriminate.
  - rewrite Hs. repeat constructor; vm_compute; first [reflexivity|discriminate].
  - cbn [concat]. by rewrite app_nil_r.
  - cbn [concat]. by rewrite app_nil_r, take_drop.
Defined.

Lemma unknown_command_forges_reply_witness :
  let name := B "x" ++ CRLF ++ encode_to_vec (Bulk (B "paid")) V2 in
  let c := (handle_connection (B "0.1") standard 7 (deliver [[name]]) (accepted demo_state)).1 in
  store c = demo_state /\
  drain (decoder demo_limits) 2 (sent_bytes c) =
    ([Error (B "ERR unknown command 'x"); Bulk (B "paid")], Ok (B "'" ++ CRLF)).
Proof.
  apply (unknown_command_forges_reply (B "0.1") demo_limits 7 demo_state (B "x") (Bulk (B "paid"))).
  - exact demo_limits_ok.
  - split; [reflexivity|done].
  - vm_compute. reflexivity.
  - vm_compute. reflexivity.
Defined.
