(* ===== verification/Service.v ===== *)
(** * Serving connections

    Models [serve_with] of crates/gamestore-datanode/src/server.rs: the accept
    loop, the connection tasks it spawns over one shared store, and the graceful
    shutdown.  A step is one turn of one loop; the turns of different tasks come
    in any order, each on the store the previous one left (what happens when the
    engine calls of two turns overlap is the subject of Interleaving.v).  Sockets
    and logging are not modelled: an accept, an accept error and an item of a
    connection's stream come from outside, and so does the end of a reply's
    sending, which a client that does not read can put off for ever. *)

From S2P Require Import Prelude F64 Text Frame Encode Decode Codec Encoding Engine Gc Store.
From S2P Require Import Registry Commands CommandProps Server ServerProps Rocks StoreRefine.

(** [Draining] from the moment the shutdown signal is seen: the accept loop has
    ended, the watch channel says so to every connection, and [serve_with] waits
    for the tasks.  [Stopped] when it has returned. *)
Inductive Phase : Type := Accepting | Draining | Stopped.

#[export] Instance Phase_eq_dec : EqDecision Phase.
Proof. solve_decision. Defined.

(** A connection task: spawned but not yet run, in its loop, or ended. *)
Inductive Task : Type :=
  | Spawned
  | Live (conn_id : Z) (codec : CommandCodec) (sent : bytes)
  | Ended (end_ : ConnEnd).

(** What can happen next. *)
Inductive Happening : Type :=
  | Accepted
  | AcceptFailed
  | Signal
  | Started (i : nat)
  | Turn (i : nat) (ev : Event)
  | Joined.

Section Service.
Context (CARGO_PKG_VERSION : bytes) {E : Type} `{GeneralEngine E}.

Record Service : Type := mk_Service {
  phase : Phase;
  NEXT_CONN_ID : Z;
  data : State E;
  tasks : list Task;
}.

Definition with_task (s : Service) (i : nat) (t : Task) : Service :=
  mk_Service (phase s) (NEXT_CONN_ID s) (data s) (<[i := t]> (tasks s)).

(** The events a connection's biased select admits: the shutdown channel when it
    has changed, and nothing else then; otherwise the stream. *)
Definition admits (p : Phase) (ev : Event) : bool :=
  match p, ev with
  | Accepting, EvShutdown => false
  | Accepting, _ => true
  | _, EvShutdown => true
  | _, _ => false
  end.

Definition is_ended (t : Task) : bool := match t with Ended _ => true | _ => false end.

(** One step; [None] when it cannot happen now. *)
Definition serve_step (s : Service) (h : Happening) : option Service :=
  match h with
  | Accepted =>
      if decide (phase s = Accepting)
      then Some (mk_Service (phase s) (NEXT_CONN_ID s) (data s) (tasks s ++ [Spawned])) else None
  | AcceptFailed => if decide (phase s = Accepting) then Some s else None
  | Signal =>
      if decide (phase s = Accepting)
      then Some (mk_Service Draining (NEXT_CONN_ID s) (data s) (tasks s)) else None
  | Started i =>
      match tasks s !! i with
      | Some Spawned =>
          Some (mk_Service (phase s) (wrap_i64 (NEXT_CONN_ID s + 1)) (data s)
            (<[i := Live (NEXT_CONN_ID s) CommandCodec_new []]> (tasks s)))
      | _ => None
      end
  | Turn i ev =>
      match tasks s !! i with
      | Some (Live id k sent) =>
          if admits (phase s) ev then
            match handle_event CARGO_PKG_VERSION standard id ev (mk_Conn k (data s) sent) with
            | (c, None) => Some (mk_Service (phase s) (NEXT_CONN_ID s) (store c)
                (<[i := Live id (codec c) (sent_bytes c)]> (tasks s)))
            | (c, Some e) => Some (mk_Service (phase s) (NEXT_CONN_ID s) (store c) (<[i := Ended e]> (tasks s)))
            end
          else None
      | _ => None
      end
  | Joined =>
      if decide (phase s = Draining) then
        if forallb is_ended (tasks s)
        then Some (mk_Service Stopped (NEXT_CONN_ID s) (data s) (tasks s)) else None
      else None
  end.

Fixpoint serve_with (hs : list Happening) (s : Service) : option Service :=
  match hs with
  | [] => Some s
  | h :: hs' => match serve_step s h with Some s' => serve_with hs' s' | None => None end
  end.

Definition serving (s : State E) : Service := mk_Service Accepting 1 s [].

(** ** While connections are served *)

Definition task_id (t : Task) : option Z := match t with Live id _ _ => Some id | _ => None end.

(** Connection ids are below the next one and distinct, no task has crashed, and
    a service that has stopped has no task left. *)
Record sound (s : Service) : Prop := {
  ids_below i t id : tasks s !! i = Some t -> task_id t = Some id -> 1 <= id < NEXT_CONN_ID s;
  ids_distinct i j t t' id : tasks s !! i = Some t -> tasks s !! j = Some t' ->
    task_id t = Some id -> task_id t' = Some id -> i = j;
  next_positive : 1 <= NEXT_CONN_ID s;
  none_crashed : Ended Crashed ∉ tasks s;
  stopped_idle : phase s = Stopped -> forallb is_ended (tasks s) = true;
}.

(** Replacing a task by one that keeps its id, or has a fresh one, or none. *)
Lemma sound_update s i told tnew next p' (sd : State E) :
  sound s -> tasks s !! i = Some told -> NEXT_CONN_ID s <= next -> tnew <> Ended Crashed ->
  (phase s = Stopped -> is_ended told = true -> is_ended tnew = true) -> (p' = phase s) ->
  (forall id, task_id tnew = Some id -> task_id told = Some id \/ id = NEXT_CONN_ID s /\ 1 <= id < next) ->
  sound (mk_Service p' next sd (<[i := tnew]> (tasks s))).
Proof.
  intros [Hb Hd Hp Hc Hs] Hi Hn Hcr Hst -> Hid.
  assert (Hlk : forall j t, <[i := tnew]> (tasks s) !! j = Some t ->
    (j = i /\ t = tnew) \/ (j <> i /\ tasks s !! j = Some t)).
  { intros j t. destruct (decide (j = i)) as [->|Hne].
    - rewrite list_lookup_insert_eq by by eapply lookup_lt_Some. intros [= <-]. auto.
    - rewrite list_lookup_insert_ne by done. auto. }
  split; cbn [phase NEXT_CONN_ID tasks].
  - intros j t id [[-> ->]|[Hne Hj]]%Hlk Ht.
    + destruct (Hid _ Ht) as [Ho|[-> ?]]; [|lia]. specialize (Hb _ _ _ Hi Ho). lia.
    + specialize (Hb _ _ _ Hj Ht). lia.
  - intros j1 j2 t1 t2 id H1%Hlk H2%Hlk Ht1 Ht2.
    assert (Hfresh : forall j t, tasks s !! j = Some t -> task_id t = Some id -> j <> i -> task_id tnew = Some id -> False).
    { intros j t Hj Ht Hne Hnew. destruct (Hid _ Hnew) as [Ho|[Heq _]]; [by apply Hne, (Hd _ _ _ _ id Hj Hi)|].
      specialize (Hb _ _ _ Hj Ht). lia. }
    destruct H1 as [[-> ->]|[Hn1 H1]], H2 as [[-> ->]|[Hn2 H2]]; [done|exfalso; by eapply Hfresh..|by eapply Hd].
  - lia.
  - intros [j Hj]%list_elem_of_lookup. destruct (Hlk _ _ Hj) as [[-> Ht]|[_ Hj']]; [by rewrite Ht in Hcr|].
    apply Hc. apply list_elem_of_lookup. eauto.
  - intros Hph. specialize (Hs Hph). rewrite forallb_forall in Hs |- *. intros t Ht%list_elem_of_In.
    apply list_elem_of_lookup in Ht as [j Hj]. destruct (Hlk _ _ Hj) as [[-> ->]|[_ Hj']].
    + apply Hst; [done|]. apply Hs, list_elem_of_In, list_elem_of_lookup. eauto.
    + apply Hs, list_elem_of_In, list_elem_of_lookup. eauto.
Qed.

Lemma sound_step s h s' :
  sound s -> NEXT_CONN_ID s < i64_max -> serve_step s h = Some s' ->
  sound s' /\ NEXT_CONN_ID s <= NEXT_CONN_ID s' <= NEXT_CONN_ID s + 1.
Proof.
  intros Hs Hmax. pose proof (next_positive _ Hs) as Hp. destruct h as [| | |i|i ev|]; cbn [serve_step].
  - destruct (decide _) as [Ha|]; [|done]. intros [= <-]. split; [|cbn; lia].
    assert (Hlk : forall j t, (tasks s ++ [Spawned]) !! j = Some t -> tasks s !! j = Some t \/ t = Spawned).
    { intros j t [Hj|[_ Ht]]%lookup_app_Some; [by left|]. right.
      by destruct (j - length (tasks s))%nat as [|[|n]]; [injection Ht as <-|..]. }
    split; cbn [phase NEXT_CONN_ID tasks].
    + intros j t id [Hj| ->]%Hlk Ht; [by eapply ids_below|done].
    + intros j1 j2 t1 t2 id [H1| ->]%Hlk [H2| ->]%Hlk Ht1 Ht2; try done. by eapply (ids_distinct s).
    + done.
    + rewrite elem_of_app. intros [Hc|Hc]; [by apply (none_crashed _ Hs)|]. by apply list_elem_of_singleton in Hc.
    + by rewrite Ha.
  - destruct (decide _); [|done]. intros [= <-]. split; [done|lia].
  - destruct (decide _); [|done]. intros [= <-]. split; [|cbn; lia]. by destruct Hs.
  - destruct (tasks s !! i) as [[| |]|] eqn:Hi; try done. intros [= <-].
    assert (Hw : wrap_i64 (NEXT_CONN_ID s + 1) = NEXT_CONN_ID s + 1)
      by (apply wrap_i64_small; unfold in_i64, i64_max in *; lia).
    rewrite Hw. split; [|cbn; lia]. eapply (sound_update s i Spawned); try done; [lia|].
    intros id [= <-]. right. lia.
  - destruct (tasks s !! i) as [[|id k sent|]|] eqn:Hi; try done.
    destruct (admits _ ev); [|done].
    pose proof (handle_event_step CARGO_PKG_VERSION id ev (mk_Conn k (data s) sent)) as [Hcr _].
    destruct (handle_event _ _ _ ev _) as [c [e|]]; cbn [snd] in Hcr; intros [= <-]; (split; [|cbn; lia]).
    + eapply (sound_update s i (Live id k sent)); try done. congruence.
    + eapply (sound_update s i (Live id k sent)); try done. intros id' [= <-]. by left.
  - destruct (decide _); [|done]. destruct (forallb _ _) eqn:Hall; [|done]. intros [= <-].
    split; [|cbn; lia]. by destruct Hs.
Qed.

Lemma serve_with_sound hs s s' :
  sound s -> NEXT_CONN_ID s + Z.of_nat (length hs) <= i64_max -> serve_with hs s = Some s' -> sound s'.
Proof.
  revert s. induction hs as [|h hs IH]; intros s Hs Hn; cbn [serve_with length] in *; [by intros [= <-]|].
  destruct (serve_step s h) as [s1|] eqn:Hs1; [|done].
  destruct (sound_step s h s1 Hs) as [Hsd Hn1]; [lia|done|]. apply IH; [done|lia].
Qed.


(** ** Graceful shutdown *)

(** The steps left to a service that drains: two for a task that was only
    spawned, one for one in its loop, one to return. *)
Definition task_steps (t : Task) : nat := match t with Spawned => 2 | Live _ _ _ => 1 | Ended _ => 0 end.
Definition steps_left (s : Service) : nat :=
  sum_list_with task_steps (tasks s) + match phase s with Stopped => 0 | _ => 1 end.

Lemma sum_insert (l : list Task) i t t' :
  l !! i = Some t ->
  (sum_list_with task_steps (<[i := t']> l) + task_steps t = sum_list_with task_steps l + task_steps t')%nat.
Proof.
  revert i. induction l as [|x l IH]; intros [|i]; [done..| |].
  - intros [= ->]. change (<[0%nat := t']> (t :: l)) with (t' :: l). cbn [sum_list_with]. lia.
  - intros Hi. change (<[S i := t']> (x :: l)) with (x :: <[i := t']> l). cbn [sum_list_with].
    specialize (IH i Hi). lia.
Qed.

(** Draining, or done with it. *)
Definition closing (s : Service) : Prop :=
  phase s = Draining \/ phase s = Stopped /\ forallb is_ended (tasks s) = true.

Lemma all_ended_lookup (l : list Task) i t : forallb is_ended l = true -> l !! i = Some t -> is_ended t = true.
Proof.
  intros Hall Hi. rewrite forallb_forall in Hall. apply Hall, list_elem_of_In, list_elem_of_lookup. eauto.
Qed.

Lemma closing_step s h s' :
  closing s -> serve_step s h = Some s' ->
  closing s' /\ data s' = data s /\ steps_left s = S (steps_left s').
Proof.
  intros Hcl. destruct h as [| | |i|i ev|]; cbn [serve_step].
  1-3: destruct Hcl as [->|[-> _]]; by rewrite decide_False.
  - destruct (tasks s !! i) as [[| |]|] eqn:Hi; try done. intros [= <-].
    destruct Hcl as [Hp|[_ Hall]]; [|by pose proof (all_ended_lookup _ _ _ Hall Hi)].
    split; [by left|]. split; [done|]. unfold steps_left. cbn [tasks phase].
    pose proof (sum_insert _ i _ (Live (NEXT_CONN_ID s) CommandCodec_new []) Hi). cbn [task_steps] in *. lia.
  - destruct (tasks s !! i) as [[|id k sent|]|] eqn:Hi; try done.
    destruct Hcl as [Hp|[_ Hall]]; [|by pose proof (all_ended_lookup _ _ _ Hall Hi)].
    rewrite Hp. destruct ev; cbn [admits]; try done. cbn [handle_event]. intros [= <-].
    split; [by left|]. split; [done|]. unfold steps_left. cbn [tasks phase]. rewrite Hp.
    pose proof (sum_insert _ i _ (Ended (Finished (Ok tt))) Hi). cbn [task_steps] in *. lia.
  - destruct (decide _) as [Hp|]; [|done]. destruct (forallb _ _) eqn:Hall; [|done]. intros [= <-].
    split; [by right|]. split; [done|]. unfold steps_left. cbn [tasks phase]. rewrite Hp. lia.
Qed.

Lemma closing_progress s : closing s -> phase s = Stopped \/ exists h s', serve_step s h = Some s'.
Proof.
  intros [Hp|[Hp _]]; [|by left]. right. destruct (forallb is_ended (tasks s)) eqn:Hall.
  - exists Joined. cbn. rewrite decide_True by done. rewrite Hall. by eexists.
  - assert (Hex : exists i t, tasks s !! i = Some t /\ is_ended t = false).
    { clear Hp. revert Hall. generalize (tasks s). intros l. induction l as [|t l IH]; [done|]. cbn.
      destruct (is_ended t) eqn:Ht; cbn.
      - intros (i & t' & Hi & Ht')%IH. by exists (S i), t'.
      - intros _. by exists 0%nat, t. }
    destruct Hex as (i & [|id k sent|e] & Hi & Ht); [| |done].
    + exists (Started i). cbn. rewrite Hi. by eexists.
    + exists (Turn i EvShutdown). cbn. rewrite Hi, Hp. cbn. by eexists.
Qed.

End Service.

(** ** Witnesses *)

Definition demo_happenings : list Happening :=
  [Accepted; Started 0; Accepted; AcceptFailed; Turn 0 (EvItem (Ok [B "SET"; B "k"; B "v"]) (Ok tt)); Started 1;
   Turn 1 (EvItem (Ok [B "GET"; B "k"]) (Ok tt)); Turn 0 EvClosed; Accepted; Signal].

(** The service after a run that happens. *)
Definition run_to (hs : list Happening) (s : Service) : Service := default s (serve_with (B "0.1") hs s).
Definition happens (hs : list Happening) (s : Service) : bool :=
  match serve_with (B "0.1") hs s with Some _ => true | None => false end.

Lemma run_to_with hs (s : Service) : happens hs s = true -> serve_with (B "0.1") hs s = Some (run_to hs s).
Proof. unfold happens, run_to. by destruct (serve_with _ hs s). Qed.


