(* ===== verification/Config.v ===== *)
(** * Configuration and start-up

    Models crates/gamestore-common/src/config.rs and error.rs and the argument
    handling of crates/gamestore-datanode/src/main.rs: where each setting comes
    from.  TOML parsing (serde and toml), the file system and the process
    environment are parameters; a [PathBuf] is its bytes.  What main does with
    the configuration is in Boot.v. *)

From S2P Require Import Prelude Text.

(** ** The shared error type *)

Inductive CommonError : Type :=
  | Error_Config (msg : bytes)
  | Error_Io (msg : bytes)
  | Error_Protocol (msg : bytes)
  | Error_Engine (msg : bytes)
  | Error_Observability (msg : bytes)
  | Error_Other (msg : bytes).

(** The error's [Display]. *)
Definition CommonError_to_string (e : CommonError) : bytes :=
  match e with
  | Error_Config m => B "configuration error: " ++ m
  | Error_Io m => B "i/o error: " ++ m
  | Error_Protocol m => B "protocol error: " ++ m
  | Error_Engine m => B "engine error: " ++ m
  | Error_Observability m => B "observability error: " ++ m
  | Error_Other m => m
  end.

(** ** Settings *)

Record ServerConfig : Type := mk_ServerConfig { server_bind : bytes; server_port : Z }.
Record StorageConfig : Type := mk_StorageConfig { data_dir : bytes }.
Record LoggingConfig : Type := mk_LoggingConfig { level : bytes; slow_log_threshold_ms : Z }.
Record MetricsConfig : Type := mk_MetricsConfig { enabled : bool; metrics_bind : bytes; metrics_port : Z }.
Record Config : Type := mk_Config {
  server : ServerConfig;
  storage : StorageConfig;
  logging : LoggingConfig;
  metrics : MetricsConfig;
}.

Definition ServerConfig_default : ServerConfig := mk_ServerConfig (B "127.0.0.1") 6380.
Definition StorageConfig_default : StorageConfig := mk_StorageConfig (B "./data").
Definition LoggingConfig_default : LoggingConfig := mk_LoggingConfig (B "info") 10.
Definition MetricsConfig_default : MetricsConfig := mk_MetricsConfig true (B "127.0.0.1") 9600.
Definition Config_default : Config :=
  mk_Config ServerConfig_default StorageConfig_default LoggingConfig_default MetricsConfig_default.

(** [format!("{}:{}", bind, port)]. *)
Definition ServerConfig_addr (c : ServerConfig) : bytes := server_bind c ++ B ":" ++ int_display (server_port c).
Definition MetricsConfig_addr (c : MetricsConfig) : bytes := metrics_bind c ++ B ":" ++ int_display (metrics_port c).

(** ** Values in text *)

(** [str::parse] into an unsigned type with the given greatest value. *)
Definition uint_from_str (max : Z) (s : bytes) : option Z :=
  let digits := match s with "+"%byte :: rest => rest | _ => s end in
  if bool_decide (digits = []) then None
  else if forallb is_ascii_digit digits && (digits_value digits <=? max) then Some (digits_value digits)
  else None.

Definition u16_max : Z := 2 ^ 16 - 1.

(** [str::parse::<bool>]. *)
Definition bool_from_str (s : bytes) : option bool :=
  if bool_decide (s = B "true") then Some true
  else if bool_decide (s = B "false") then Some false else None.

(** ** Loading *)

Definition ENV_PREFIX : bytes := B "GAMESTORE_".

Section Loading.
(** The value of an environment variable that is set. *)
Context (env : bytes -> option bytes).
(** [fs::read_to_string] and [toml::from_str], failing with the text of their error. *)
Context (read_to_string : bytes -> result bytes bytes).
Context (toml_from_str : bytes -> result bytes Config).

(** A value that is not UTF-8 counts as unset. *)
Definition env_var (suffix : bytes) : option bytes :=
  match env (ENV_PREFIX ++ suffix) with
  | Some v => if utf8_valid v && negb (bool_decide (v = [])) then Some v else None
  | None => None
  end.

Definition set_server_bind (c : Config) (v : bytes) : Config :=
  mk_Config (mk_ServerConfig v (server_port (server c))) (storage c) (logging c) (metrics c).
Definition set_server_port (c : Config) (v : Z) : Config :=
  mk_Config (mk_ServerConfig (server_bind (server c)) v) (storage c) (logging c) (metrics c).
Definition set_data_dir (c : Config) (v : bytes) : Config :=
  mk_Config (server c) (mk_StorageConfig v) (logging c) (metrics c).
Definition set_level (c : Config) (v : bytes) : Config :=
  mk_Config (server c) (storage c) (mk_LoggingConfig v (slow_log_threshold_ms (logging c))) (metrics c).
Definition set_slow_log (c : Config) (v : Z) : Config :=
  mk_Config (server c) (storage c) (mk_LoggingConfig (level (logging c)) v) (metrics c).
Definition set_enabled (c : Config) (v : bool) : Config :=
  mk_Config (server c) (storage c) (logging c)
    (mk_MetricsConfig v (metrics_bind (metrics c)) (metrics_port (metrics c))).
Definition set_metrics_bind (c : Config) (v : bytes) : Config :=
  mk_Config (server c) (storage c) (logging c)
    (mk_MetricsConfig (enabled (metrics c)) v (metrics_port (metrics c))).
Definition set_metrics_port (c : Config) (v : Z) : Config :=
  mk_Config (server c) (storage c) (logging c)
    (mk_MetricsConfig (enabled (metrics c)) (metrics_bind (metrics c)) v).

(** [if let Some(v) = .. { self.x = v }]. *)
Definition override {A} (set : Config -> A -> Config) (o : option A) (c : Config) : Config :=
  match o with Some v => set c v | None => c end.

Definition apply_env_overrides (c : Config) : Config :=
  let c := override set_server_bind (env_var (B "SERVER__BIND")) c in
  let c := override set_server_port (env_var (B "SERVER__PORT") ≫= uint_from_str u16_max) c in
  let c := override set_data_dir (env_var (B "STORAGE__DATA_DIR")) c in
  let c := override set_level (env_var (B "LOGGING__LEVEL")) c in
  let c := override set_slow_log (env_var (B "LOGGING__SLOW_LOG_THRESHOLD_MS") ≫= uint_from_str u64_max) c in
  let c := override set_enabled (env_var (B "METRICS__ENABLED") ≫= bool_from_str) c in
  let c := override set_metrics_bind (env_var (B "METRICS__BIND")) c in
  override set_metrics_port (env_var (B "METRICS__PORT") ≫= uint_from_str u16_max) c.

Definition from_toml (text : bytes) : result CommonError Config :=
  match toml_from_str text with
  | Ok c => Ok c
  | Err e => Err (Error_Config (B "parsing TOML: " ++ e))
  end.

Definition from_file (path : bytes) : result CommonError Config :=
  match read_to_string path with
  | Ok text => from_toml text
  | Err e => Err (Error_Config (B "reading " ++ path ++ B ": " ++ e))
  end.

Definition load (path : option bytes) : result CommonError Config :=
  match match path with Some p => from_file p | None => Ok Config_default end with
  | Ok c => Ok (apply_env_overrides c)
  | Err e => Err e
  end.

(** ** The command line *)

Record Args : Type := mk_Args {
  arg_config : option bytes;
  arg_bind : option bytes;
  arg_port : option Z;
  arg_data_dir : option bytes;
}.

(** Parsed, the help text asked for (the process exits), or an error. *)
Inductive ArgsResult : Type :=
  | Parsed_args (a : Args)
  | Help
  | Bad_args (msg : bytes).

(** The arms that take no value. *)
Definition other_arg (flag : bytes) : ArgsResult :=
  if bool_decide (flag = B "-h" \/ flag = B "--help") then Help
  else Bad_args (B "unknown argument: " ++ flag).

(** The loop of [parse_args] over what is left of [argv]. *)
Fixpoint parse_args_go (argv : list bytes) (a : Args) : ArgsResult :=
  match argv with
  | [] => Parsed_args a
  | [flag] => other_arg flag
  | flag :: v :: rest =>
      if bool_decide (flag = B "--config") then
        parse_args_go rest (mk_Args (Some v) (arg_bind a) (arg_port a) (arg_data_dir a))
      else if bool_decide (flag = B "--bind") then
        parse_args_go rest (mk_Args (arg_config a) (Some v) (arg_port a) (arg_data_dir a))
      else if bool_decide (flag = B "--port") then
        match uint_from_str u16_max v with
        | Some p => parse_args_go rest (mk_Args (arg_config a) (arg_bind a) (Some p) (arg_data_dir a))
        | None => Bad_args (B "invalid --port")
        end
      else if bool_decide (flag = B "--data-dir") then
        parse_args_go rest (mk_Args (arg_config a) (arg_bind a) (arg_port a) (Some v))
      else other_arg flag
  end.

(** [argv] with the program's name first. *)
Definition parse_args (argv : list bytes) : ArgsResult :=
  parse_args_go (drop 1 argv) (mk_Args None None None None).

(** The start of [main]: command-line flags over environment over file. *)
Definition settle (a : Args) (c : Config) : Config :=
  let c := override set_server_bind (arg_bind a) c in
  let c := override set_server_port (arg_port a) c in
  override set_data_dir (arg_data_dir a) c.

(** Configured, gone after the help text, or refused, with the cause when it is
    an error of the shared type. *)
Inductive Startup : Type :=
  | Configured (c : Config)
  | Exited
  | Refused (context : bytes) (cause : option CommonError).

Definition startup (argv : list bytes) : Startup :=
  match parse_args argv with
  | Help => Exited
  | Bad_args msg => Refused msg None
  | Parsed_args a =>
      match load (arg_config a) with
      | Ok c => Configured (settle a c)
      | Err e => Refused (B "loading configuration") (Some e)
      end
  end.

(** ** Where a setting comes from *)

(** A command line as a user means it. *)
Inductive Flag : Type :=
  | FConfig (path : bytes)
  | FBind (addr : bytes)
  | FPort (raw : bytes) (port : Z)
  | FDataDir (dir : bytes).

Definition flag_words (f : Flag) : list bytes :=
  match f with
  | FConfig p => [B "--config"; p]
  | FBind b => [B "--bind"; b]
  | FPort raw _ => [B "--port"; raw]
  | FDataDir d => [B "--data-dir"; d]
  end.

Definition flag_ok (f : Flag) : Prop :=
  match f with FPort raw p => uint_from_str u16_max raw = Some p | _ => True end.

Definition as_config (f : Flag) : option bytes := match f with FConfig p => Some p | _ => None end.
Definition as_bind (f : Flag) : option bytes := match f with FBind b => Some b | _ => None end.
Definition as_port (f : Flag) : option Z := match f with FPort _ p => Some p | _ => None end.
Definition as_data_dir (f : Flag) : option bytes := match f with FDataDir d => Some d | _ => None end.

(** The last value given. *)
Definition last_of {A} (get : Flag -> option A) (flags : list Flag) : option A := last (omap get flags).

(** The first source that has a value, or the default. *)
Definition first_of {A} (sources : list (option A)) (d : A) : A := default d (head (omap id sources)).

Lemma first_of_two {A} (o1 o2 : option A) d : first_of [o1; o2] d = first_of [o1] (first_of [o2] d).
Proof. by destruct o1. Qed.

(** An override changes its own field. *)
Lemma override_server_bind o b p st lg mt :
  override set_server_bind o (mk_Config (mk_ServerConfig b p) st lg mt) =
  mk_Config (mk_ServerConfig (first_of [o] b) p) st lg mt.
Proof. by destruct o. Qed.
Lemma override_server_port o b p st lg mt :
  override set_server_port o (mk_Config (mk_ServerConfig b p) st lg mt) =
  mk_Config (mk_ServerConfig b (first_of [o] p)) st lg mt.
Proof. by destruct o. Qed.
Lemma override_data_dir o sv dir lg mt :
  override set_data_dir o (mk_Config sv (mk_StorageConfig dir) lg mt) =
  mk_Config sv (mk_StorageConfig (first_of [o] dir)) lg mt.
Proof. by destruct o. Qed.
Lemma override_level o sv st lv ms mt :
  override set_level o (mk_Config sv st (mk_LoggingConfig lv ms) mt) =
  mk_Config sv st (mk_LoggingConfig (first_of [o] lv) ms) mt.
Proof. by destruct o. Qed.
Lemma override_slow_log o sv st lv ms mt :
  override set_slow_log o (mk_Config sv st (mk_LoggingConfig lv ms) mt) =
  mk_Config sv st (mk_LoggingConfig lv (first_of [o] ms)) mt.
Proof. by destruct o. Qed.
Lemma override_enabled o sv st lg e b p :
  override set_enabled o (mk_Config sv st lg (mk_MetricsConfig e b p)) =
  mk_Config sv st lg (mk_MetricsConfig (first_of [o] e) b p).
Proof. by destruct o. Qed.
Lemma override_metrics_bind o sv st lg e b p :
  override set_metrics_bind o (mk_Config sv st lg (mk_MetricsConfig e b p)) =
  mk_Config sv st lg (mk_MetricsConfig e (first_of [o] b) p).
Proof. by destruct o. Qed.
Lemma override_metrics_port o sv st lg e b p :
  override set_metrics_port o (mk_Config sv st lg (mk_MetricsConfig e b p)) =
  mk_Config sv st lg (mk_MetricsConfig e b (first_of [o] p)).
Proof. by destruct o. Qed.

(** [o], or [d] when there is none. *)
Definition or_else {A} (o d : option A) : option A := match o with Some _ => o | None => d end.

Lemma last_of_cons {A} (get : Flag -> option A) f flags d :
  or_else (last_of get (f :: flags)) d = or_else (last_of get flags) (or_else (get f) d).
Proof.
  unfold last_of. cbn [omap list_omap]. destruct (get f) as [x|]; [|done].
  rewrite last_cons. by destruct (last (omap get flags)).
Qed.

Lemma parse_flags flags a :
  Forall flag_ok flags ->
  parse_args_go (concat (flag_words <$> flags)) a =
  Parsed_args (mk_Args (or_else (last_of as_config flags) (arg_config a))
    (or_else (last_of as_bind flags) (arg_bind a)) (or_else (last_of as_port flags) (arg_port a))
    (or_else (last_of as_data_dir flags) (arg_data_dir a))).
Proof.
  intros Hf. revert a. induction Hf as [|f flags Hf Hfs IH]; intros a; [by destruct a|].
  rewrite !last_of_cons.
  destruct f as [p|b|raw p|dir]; cbn [fmap list_fmap concat flag_words app flag_ok parse_args_go] in *.
  1,2,4: rewrite !IH; reflexivity.
  rewrite Hf, !IH. reflexivity.
Qed.

(** C40. Where each setting comes from: a command line of well-formed flags
    starts the node with, for each setting, the last flag that gives it, else the
    environment variable if it is set to a value that parses, else the file named
    by the last --config, else the default. *)
Theorem startup_precedence (prog : bytes) (flags : list Flag) (base : Config) :
  Forall flag_ok flags ->
  match last_of as_config flags with Some p => from_file p | None => Ok Config_default end = Ok base ->
  startup (prog :: concat (flag_words <$> flags)) = Configured (mk_Config
    (mk_ServerConfig
      (first_of [last_of as_bind flags; env_var (B "SERVER__BIND")] (server_bind (server base)))
      (first_of [last_of as_port flags; env_var (B "SERVER__PORT") ≫= uint_from_str u16_max]
        (server_port (server base))))
    (mk_StorageConfig
      (first_of [last_of as_data_dir flags; env_var (B "STORAGE__DATA_DIR")] (data_dir (storage base))))
    (mk_LoggingConfig
      (first_of [env_var (B "LOGGING__LEVEL")] (level (logging base)))
      (first_of [env_var (B "LOGGING__SLOW_LOG_THRESHOLD_MS") ≫= uint_from_str u64_max]
        (slow_log_threshold_ms (logging base))))
    (mk_MetricsConfig
      (first_of [env_var (B "METRICS__ENABLED") ≫= bool_from_str] (enabled (metrics base)))
      (first_of [env_var (B "METRICS__BIND")] (metrics_bind (metrics base)))
      (first_of [env_var (B "METRICS__PORT") ≫= uint_from_str u16_max] (metrics_port (metrics base))))).
Proof.
  intros Hf Hbase. unfold startup, parse_args.
  change (drop 1 (prog :: concat (flag_words <$> flags))) with (concat (flag_words <$> flags)).
  rewrite parse_flags by done. cbn [arg_config].
  assert (Hnone : forall A (o : option A), or_else o None = o) by by intros A [x|].
  rewrite !Hnone. unfold load. rewrite Hbase. f_equal.
  unfold settle, apply_env_overrides. cbv zeta.
  rewrite !first_of_two. destruct base as [[b p] [dir] [lv ms] [e mb mp]].
  rewrite override_server_bind, override_server_port, override_data_dir, override_level, override_slow_log,
    override_enabled, override_metrics_bind, override_metrics_port,
    override_server_bind, override_server_port, override_data_dir.
  reflexivity.
Qed.
End Loading.

(** ** Witnesses *)

Definition demo_env (name : bytes) : option bytes :=
  if bool_decide (name = B "GAMESTORE_SERVER__PORT") then Some (B "7000")
  else if bool_decide (name = B "GAMESTORE_METRICS__PORT") then Some (B "many")
  else if bool_decide (name = B "GAMESTORE_LOGGING__LEVEL") then Some (B "debug") else None.

Lemma startup_precedence_witness :
  startup demo_env (fun _ => Ok (B "x")) (fun _ => Ok Config_default)
    [B "datanode"; B "--port"; B "1"; B "--config"; B "f"; B "--port"; B "7001"] =
  Configured (mk_Config (mk_ServerConfig (B "127.0.0.1") 7001) (mk_StorageConfig (B "./data"))
    (mk_LoggingConfig (B "debug") 10) (mk_MetricsConfig true (B "127.0.0.1") 9600)).
Proof.
  etransitivity.
  - apply (startup_precedence demo_env (fun _ => Ok (B "x")) (fun _ => Ok Config_default) (B "datanode")
      [FPort (B "1") 1; FConfig (B "f"); FPort (B "7001") 7001] Config_default).
    + repeat constructor.
    + reflexivity.
  - vm_compute. reflexivity.
Defined.

Example port_overflow : uint_from_str u16_max (B "65536") = None.
Proof. reflexivity. Qed.
Example port_plus : uint_from_str u16_max (B "+80") = Some 80.
Proof. reflexivity. Qed.
Example missing_value : parse_args [B "datanode"; B "--port"] = Bad_args (B "unknown argument: --port").
Proof. reflexivity. Qed.
