(* ===== verification/Observability.v ===== *)
(** * Observability

    Models crates/gamestore-datanode/src/observability.rs as far as it decides
    something: what [record_command] reports, and how the /metrics responder reads
    a request and answers it.  The metrics and tracing crates are effects, logged
    in order; the rendering of the exposition from what was logged is a parameter. *)

From S2P Require Import Prelude F64 F64Text Text Frame Encoding Engine Gc Rocks RocksOpen Store Registry Commands.
From S2P Require Import CommandProps Server.

(** ** Command metrics *)

Inductive Effect : Type :=
  | Count (metric cmd : bytes)
  | Observe (metric cmd : bytes) (nanos : Z)
  | Gauge (metric : bytes) (value : f64)
  | DescribeCounter (metric help : bytes)
  | DescribeGauge (metric help : bytes)
  | DescribeHistogram (metric unit_ help : bytes)
  | SlowLog (cmd key : bytes) (argc : nat) (elapsed_ms : Z).

Definition describe_metrics : list Effect := [
  DescribeCounter (B "datanode_commands_total") (B "Commands executed, labelled by (known) command name");
  DescribeHistogram (B "datanode_command_latency_seconds") (B "seconds")
    (B "Command execution latency (dispatch to reply frame ready)");
  DescribeCounter (B "datanode_slow_commands_total") (B "Commands that exceeded the slow-log threshold");
  DescribeGauge (B "datanode_conn_active") (B "Open RESP connections")
].

(** Durations are in nanoseconds. *)
Definition record_command (cmd : bytes) (args : list bytes) (elapsed slow_threshold : Z) : list Effect :=
  [Count (B "datanode_commands_total") cmd; Observe (B "datanode_command_latency_seconds") cmd elapsed] ++
  if slow_threshold <=? elapsed then
    [Count (B "datanode_slow_commands_total") cmd;
     SlowLog cmd (match args !! 1%nat with Some k => from_utf8_lossy k | None => [] end)
       (length args) (wrap_u64 (elapsed / 1000000))]
  else [].

(** What the connection loop reports for a command. *)
Definition reported {E} (registry : CommandRegistry E) (args : list bytes) (elapsed slow_threshold : Z) : list Effect :=
  match args with
  | [] => []
  | first :: _ => record_command (command_label first registry) args elapsed slow_threshold
  end.

(** The command an effect is labelled with; gauges and descriptions carry none. *)
Definition effect_label (e : Effect) : option bytes :=
  match e with Count _ c | Observe _ c _ | SlowLog c _ _ _ => Some c | _ => None end.

Definition gauge_name (e : Effect) : option bytes := match e with Gauge n _ => Some n | _ => None end.

(** ** The /metrics endpoint *)

(** [windows(4).any(|w| w == b"\r\n\r\n")]. *)
Fixpoint head_ended (buf : bytes) : bool :=
  match buf with
  | [] => false
  | _ :: buf' => bool_decide (take 4 buf = CRLF ++ CRLF) || head_ended buf'
  end.

Definition HEAD_LIMIT : nat := Z.to_nat 4096.

(** The read loop: [reads] is what the reads that happen deliver, of which each
    takes what still fits; [None] while the loop waits for another. *)
Fixpoint read_head (reads : list (result bytes bytes)) (buf : bytes) : option (result bytes bytes) :=
  if (length buf <? HEAD_LIMIT)%nat && negb (head_ended buf) then
    match reads with
    | [] => None
    | Err e :: _ => Some (Err e)
    | Ok [] :: _ => Some (Ok buf)
    | Ok chunk :: reads' => read_head reads' (buf ++ take (HEAD_LIMIT - length buf) chunk)
    end
  else Some (Ok buf).

(** [str::split_whitespace], over the characters. *)
Fixpoint split_whitespace_go (chars : list bytes) (cur : bytes) : list bytes :=
  match chars with
  | [] => if bool_decide (cur = []) then [] else [cur]
  | c :: chars' =>
      if is_whitespace c then
        (if bool_decide (cur = []) then [] else [cur]) ++ split_whitespace_go chars' []
      else split_whitespace_go chars' (cur ++ c)
  end.
Definition split_whitespace (s : bytes) : list bytes := split_whitespace_go (utf8_chars s) [].

Fixpoint starts_with (p s : bytes) : bool :=
  match p, s with
  | [], _ => true
  | a :: p', b :: s' => bool_decide (a = b) && starts_with p' s'
  | _, [] => false
  end.

(** Whether the request's head asks for the exposition. *)
Definition is_scrape (buf : bytes) : bool :=
  let words := split_whitespace (from_utf8_lossy buf) in
  let method := default [] (words !! 0%nat) in
  let path := default [] (words !! 1%nat) in
  bool_decide (method = B "GET") && (bool_decide (path = B "/metrics") || starts_with (B "/metrics?") path).

Definition exposition (body : bytes) : bytes :=
  B "HTTP/1.1 200 OK" ++ CRLF ++ B "content-type: text/plain; version=0.0.4; charset=utf-8" ++ CRLF ++
  B "content-length: " ++ int_display (Z.of_nat (length body)) ++ CRLF ++ B "connection: close" ++ CRLF ++ CRLF ++
  body.

Definition not_found : bytes :=
  B "HTTP/1.1 404 Not Found" ++ CRLF ++ B "content-length: 0" ++ CRLF ++ B "connection: close" ++ CRLF ++ CRLF.

Section Scrape.
Context {DB : Type} `{RocksDb DB}.
Context (property_int_value : DB -> bytes -> result rocks_error (option Z)).
Context (render : list Effect -> bytes).

(** [gauge!(name).set(value as f64)] for every statistic. *)
Definition refresh_engine_gauges (e : RocksEngine DB) : list Effect :=
  (fun '(name, value) => Gauge name (f64_round false value 1)) <$> stats property_int_value e.

(** What has been logged after the answer, and what is written to the client:
    [None] while waiting, an error when a read failed. *)
Definition answer_http (e : RocksEngine DB) (log : list Effect) (reads : list (result bytes bytes)) :
  list Effect * option (result bytes bytes) :=
  match read_head reads [] with
  | Some (Ok buf) =>
      if is_scrape buf then
        let log := log ++ refresh_engine_gauges e in
        (log, Some (Ok (exposition (render log))))
      else (log, Some (Ok not_found))
  | Some (Err x) => (log, Some (Err x))
  | None => (log, None)
  end.

(** [serve_metrics]: the accept loop, and a task per connection, which goes on
    when the loop has returned.  A read of task [i] delivers bytes, their end or
    an error. *)
Inductive Scrape : Type :=
  | Reading (reads : list (result bytes bytes))
  | Answered (answer : result bytes bytes).

Record Endpoint : Type := mk_Endpoint { listening : bool; logged : list Effect; scrapes : list Scrape }.

Inductive EndpointEvent : Type :=
  | MetricsShutdown
  | MetricsAccepted
  | MetricsAcceptFailed
  | MetricsRead (i : nat) (r : result bytes bytes).

Definition serve_metrics_step (e : RocksEngine DB) (p : Endpoint) (ev : EndpointEvent) : Endpoint :=
  match ev with
  | MetricsShutdown => mk_Endpoint false (logged p) (scrapes p)
  | MetricsAccepted =>
      if listening p then mk_Endpoint true (logged p) (scrapes p ++ [Reading []]) else p
  | MetricsAcceptFailed => p
  | MetricsRead i r =>
      match scrapes p !! i with
      | Some (Reading reads) =>
          let '(log, out) := answer_http e (logged p) (reads ++ [r]) in
          mk_Endpoint (listening p) log
            (<[i := match out with Some a => Answered a | None => Reading (reads ++ [r]) end]> (scrapes p))
      | _ => p
      end
  end.

Definition serve_metrics (e : RocksEngine DB) (evs : list EndpointEvent) (log : list Effect) : Endpoint :=
  fold_left (serve_metrics_step e) evs (mk_Endpoint true log []).

(** A connection is told the exposition or that there is no such page, or its
    read failed; the log only grows, by gauges. *)
Definition answered_well (c : Scrape) : Prop :=
  match c with
  | Answered (Ok out) => out = not_found \/ exists log, out = exposition (render log)
  | _ => True
  end.

Lemma answer_http_cases e log reads :
  (exists gauges, (answer_http e log reads).1 = log ++ gauges /\ Forall (fun g => is_Some (gauge_name g)) gauges) /\
  match (answer_http e log reads).2 with Some a => answered_well (Answered a) | None => True end.
Proof.
  unfold answer_http. destruct (read_head reads []) as [[buf|x]|]; [destruct (is_scrape buf)|..];
    cbn [fst snd]; (split; [|cbn; by eauto]).
  2-4: exists []; split; [by rewrite app_nil_r|constructor].
  eexists. split; [done|]. unfold refresh_engine_gauges. apply Forall_fmap, list.Forall_true. intros [n v]. by eexists.
Qed.

Theorem serve_metrics_answers e evs log :
  let p := serve_metrics e evs log in
  Forall answered_well (scrapes p) /\
  exists gauges, logged p = log ++ gauges /\ Forall (fun g => is_Some (gauge_name g)) gauges.
Proof.
  unfold serve_metrics. cbv zeta.
  assert (Hstart : Forall answered_well (scrapes (mk_Endpoint true log [])) /\ exists gauges,
    logged (mk_Endpoint true log []) = log ++ gauges /\ Forall (fun g => is_Some (gauge_name g)) gauges).
  { split; [constructor|]. exists []. split; [cbn; by rewrite app_nil_r|constructor]. }
  revert Hstart. generalize (mk_Endpoint true log []). induction evs as [|ev evs IH]; intros p Hp; [done|].
  apply IH. destruct Hp as (Hs & gs & Hlog & Hgs), ev as [| | |i r]; cbn [serve_metrics_step];
    [by split; [|exists gs]| |by split; [|exists gs]|].
  - destruct (listening p); [|by split; [|exists gs]]. split; [|by exists gs].
    cbn [scrapes]. by apply Forall_app_2; [|constructor].
  - destruct (scrapes p !! i) as [[reads|a]|] eqn:Hi; [|by split; [|exists gs]..].
    destruct (answer_http_cases e (logged p) (reads ++ [r])) as ((gs' & Hg & Hgs') & Ha).
    destruct (answer_http e (logged p) (reads ++ [r])) as [log' out]. cbn [fst snd scrapes logged] in *.
    split; [apply Forall_insert; [done|by destruct out]|].
    exists (gs ++ gs'). split; [by rewrite Hg, Hlog, <- app_assoc|by apply Forall_app_2].
Qed.
End Scrape.

Example metrics_query :
  let counted log := int_display (Z.of_nat (length log)) in
  let answer path := (answer_http (fun _ _ => Ok (Some 7)) counted mem_engine []
    [Ok (B "GET "); Ok (path ++ B " HTTP/1.1" ++ CRLF ++ CRLF)]).2 in
  answer (B "/metrics?x=1") = Some (Ok (exposition (B "9"))) /\ answer (B "/metric") = Some (Ok not_found).
Proof. vm_compute. split; reflexivity. Qed.

(** ** Bounds *)

(** The head of a request never outgrows its buffer. *)
Lemma read_head_bound reads buf b :
  (length buf <= HEAD_LIMIT)%nat -> read_head reads buf = Some (Ok b) -> (length b <= HEAD_LIMIT)%nat.
Proof.
  revert buf. induction reads as [|[chunk|e] reads IH]; intros buf Hb; cbn [read_head];
    (destruct (_ && _); [|by intros [= <-]]); try done.
  destruct chunk as [|c chunk]; [by intros [= <-]|]. apply IH. rewrite length_app, length_take. lia.
Qed.

Section Labels.
Context {DB : Type} `{RocksDb DB}.

(** The labels there are. *)
Definition known_labels : list bytes := CONNECTION_VERBS ++ (spec_table (E := RocksEngine DB)).*1 ++ [B "UNKNOWN"].

Lemma command_label_known raw : command_label raw (standard (E := RocksEngine DB)) ∈ known_labels.
Proof.
  unfold command_label, known_labels. rewrite !elem_of_app.
  destruct (bool_decide (_ ∈ CONNECTION_VERBS)) eqn:Hv; cbn [orb].
  - left. by apply bool_decide_eq_true in Hv.
  - right. unfold contains. destruct (bool_decide (is_Some _)) eqn:Hr; [|right; by left].
    left. apply bool_decide_eq_true in Hr as [spec Hs]. apply standard_entry in Hs as (e & He & -> & _).
    by apply list_elem_of_fmap_2.
Qed.

Lemma gauge_names property_int_value (e : RocksEngine DB) :
  omap gauge_name (refresh_engine_gauges property_int_value e) = (stats property_int_value e).*1.
Proof. unfold refresh_engine_gauges. induction (stats _ e) as [|[n v] l IH]; [done|exact (f_equal (cons n) IH)]. Qed.

(** C39. What the server reports is bounded whatever clients send: every counter,
    histogram and slow-log entry of a command carries one of the 47 labels it
    knows, a scrape sets at most the nine gauges named in [PROPS], none of them
    twice, and a request's head never takes more than the 4096 bytes set aside
    for it. *)
Theorem labels_bounded (property_int_value : DB -> bytes -> result rocks_error (option Z)) (e : RocksEngine DB)
  (args : list bytes) (elapsed slow_threshold : Z) (reads : list (result bytes bytes)) :
  Forall (fun eff => exists label, effect_label eff = Some label /\ label ∈ known_labels)
    (reported (standard (E := RocksEngine DB)) args elapsed slow_threshold) /\
  length known_labels = 47%nat /\
  omap gauge_name (refresh_engine_gauges property_int_value e) `sublist_of` PROPS.*1 /\
  NoDup (omap gauge_name (refresh_engine_gauges property_int_value e)) /\
  (forall head, read_head reads [] = Some (Ok head) -> (length head <= HEAD_LIMIT)%nat).
Proof.
  rewrite gauge_names. split_and!; [|reflexivity|apply stats_names|apply stats_distinct|].
  - destruct args as [|first args]; [constructor|]. unfold reported, record_command.
    pose proof (command_label_known first) as Hl.
    destruct (_ <=? _); repeat (constructor; [by eexists|]); constructor.
  - intros head. apply read_head_bound. unfold HEAD_LIMIT. cbn. lia.
Qed.
End Labels.
