(* ===== verification/Boot.v ===== *)
(** * From the command line to a serving store

    Models [main] of crates/gamestore-datanode/src/main.rs after the settings are
    known, [Store::open] of crates/gamestore-engine/src/store.rs, and the two
    [init] functions of crates/gamestore-common (telemetry.rs and metrics.rs).
    Every call that leaves the program is logged as an [Action] and answered by a
    parameter: the file system, RocksDB, sockets, the tracing and metrics crates.
    A boot ends in a service ready to accept connections, after the help text, or
    with the context of the call that failed.

    The texts that go to the log are not modelled, nor is [shutdown_signal]: its
    signal is an event of Service.v, and when it cannot be awaited none comes. *)

From S2P Require Import Prelude F64 Encoding Engine Gc Rocks RocksOpen Store.
From S2P Require Import StoreSpec StoreRep StoreInv StoreAdmin StoreRefine StoreProps StoreDurability Service Config.

Inductive Action : Type :=
  | InitTelemetry (default_directive : bytes)
  | InstallRecorder
  | DescribeMetrics
  | CreateDirAll (dir : bytes)
  | OpenStore (dir : bytes) (options : list RocksOption)
  | Bind (addr : bytes)
  | ServeMetrics
  | ServeClients (slow_log_threshold_ms : Z).

(** Why [main] returned before serving: the help text, or an error's context. *)
Inductive Stop : Type :=
  | Gone
  | Failed (context : bytes).

(** The actions so far go in, the actions after go out. *)
Definition Booting (A : Type) : Type := list Action -> list Action * result Stop A.

#[export] Instance Booting_ret : MRet Booting := fun A a log => (log, Ok a).
#[export] Instance Booting_bind : MBind Booting := fun A C f m log =>
  match m log with
  | (log', Ok a) => f a log'
  | (log', Err e) => (log', Err e)
  end.

Definition act (a : Action) : Booting unit := fun log => (log ++ [a], Ok tt).

(** [call().with_context(|| context)?]. *)
Definition attempt {X A} (a : Action) (r : result X A) (context : bytes) : Booting A := fun log =>
  (log ++ [a], match r with Ok v => Ok v | Err _ => Err (Failed context) end).

(** [if let Err(e) = call() { warn }]: the outcome changes nothing. *)
Definition tolerate {X} (a : Action) (r : result X unit) : Booting unit := fun log =>
  match r with Ok _ | Err _ => (log ++ [a], Ok tt) end.

(** The addresses bound so far. *)
Definition bound (log : list Action) : list bytes :=
  omap (fun a => match a with Bind addr => Some addr | _ => None end) log.

Section Boot.
Context {DB : Type} `{RocksDb DB}.

(** The file system and the network. *)
Context (env : bytes -> option bytes) (read_to_string : bytes -> result bytes bytes).
Context (toml_from_str : bytes -> result bytes Config).
Context (create_dir_all : bytes -> result bytes unit).
Context (db_open : list RocksOption -> bytes -> result rocks_error DB).
(** Binding depends on the addresses that are taken. *)
Context (tcp_bind : list bytes -> bytes -> result bytes unit).

(** The tracing and metrics crates; errors are their texts. *)
Context {EnvFilter : Type} (try_from_default_env : result bytes EnvFilter).
Context (try_new : bytes -> result bytes EnvFilter) (try_init : EnvFilter -> result bytes unit).
Context (install_recorder : result bytes unit).

(** The wall clock the process reads. *)
Context (clk : nat -> Z).

(** ** Observability *)

Definition map_observability {A} (what : bytes) (r : result bytes A) : result CommonError A :=
  match r with Ok a => Ok a | Err e => Err (Error_Observability (what ++ e)) end.

Definition telemetry_init (default_directive : bytes) : result CommonError unit :=
  filter ← map_observability (B "invalid log filter: ")
    match try_from_default_env with Ok f => Ok f | Err _ => try_new default_directive end;
  map_observability (B "installing tracing subscriber: ") (try_init filter).

Definition metrics_init : result CommonError unit :=
  map_observability (B "installing prometheus recorder: ") install_recorder.

(** ** The store *)

(** [Store::open] in a process that has not used the store before. *)
Definition Store_open (path : bytes) (config : EngineConfig) : result EngineError (State (RocksEngine DB)) :=
  e ← open db_open path config;
  match with_engine (mk_State e VersionMap_new 0 clk 0) with
  | (s, Ok tt) => Ok s
  | (_, Err x) => Err x
  end.

(** ** Booting *)

Definition settled (argv : list bytes) : Booting Config := fun log =>
  (log, match startup env read_to_string toml_from_str argv with
        | Configured c => Ok c
        | Exited => Err Gone
        | Refused context _ => Err (Failed context)
        end).

(** Whether there is a handle to render metrics with; an error is only warned of. *)
Definition recorder (c : Config) : Booting bool :=
  if enabled (metrics c) then
    _ ← act InstallRecorder;
    match metrics_init with
    | Ok _ => _ ← act DescribeMetrics; mret true
    | Err _ => mret false
    end
  else mret false.

Definition bind_listener (name addr : bytes) : Booting unit := fun log =>
  attempt (Bind addr) (tcp_bind (bound log) addr) (B "binding " ++ name ++ B " listener on " ++ addr) log.

Definition main (argv : list bytes) : Booting (Service (E := RocksEngine DB)) :=
  c ← settled argv;
  _ ← tolerate (InitTelemetry (level (logging c))) (telemetry_init (level (logging c)));
  handle ← recorder c;
  let dir := data_dir (storage c) in
  _ ← attempt (CreateDirAll dir) (create_dir_all dir) (B "creating data directory " ++ dir);
  store ← attempt (OpenStore dir (open_options EngineConfig_default)) (Store_open dir EngineConfig_default)
    (B "opening store at " ++ dir);
  _ ← (if handle : bool then
         _ ← bind_listener (B "/metrics") (MetricsConfig_addr (metrics c)); act ServeMetrics
       else mret tt);
  _ ← bind_listener (B "RESP") (ServerConfig_addr (server c));
  _ ← act (ServeClients (slow_log_threshold_ms (logging c)));
  mret (serving store).

Definition boot (argv : list bytes) : list Action * result Stop (Service (E := RocksEngine DB)) := main argv [].

(** ** What a boot does *)

(** Runs the monad as far as the outcomes of the calls are known. *)
Ltac run_boot :=
  cbv beta iota zeta delta [mbind mret Booting_bind Booting_ret act attempt boot main settled].

Lemma tolerate_eq {X} a (r : result X unit) log : tolerate a r log = (log ++ [a], Ok tt).
Proof. by destruct r. Qed.

Definition has_recorder (c : Config) : bool :=
  enabled (metrics c) && match install_recorder with Ok _ => true | Err _ => false end.

Definition listeners (c : Config) : list bytes :=
  (if has_recorder c then [MetricsConfig_addr (metrics c)] else []) ++ [ServerConfig_addr (server c)].

Definition recorder_log (c : Config) : list Action :=
  (if enabled (metrics c) then [InstallRecorder] else []) ++ (if has_recorder c then [DescribeMetrics] else []).

(** Up to the store, and to the end. *)
Definition store_log (c : Config) : list Action :=
  let dir := data_dir (storage c) in
  [InitTelemetry (level (logging c))] ++ recorder_log c ++
  [CreateDirAll dir; OpenStore dir (open_options EngineConfig_default)].

Definition boot_log (c : Config) : list Action :=
  store_log c ++
  (if has_recorder c then [Bind (MetricsConfig_addr (metrics c)); ServeMetrics] else []) ++
  [Bind (ServerConfig_addr (server c)); ServeClients (slow_log_threshold_ms (logging c))].

Lemma bound_app l l' : bound (l ++ l') = bound l ++ bound l'.
Proof. apply omap_app. Qed.

Lemma bound_store_log c : bound (store_log c) = [].
Proof. unfold store_log, recorder_log. by destruct (enabled _), (has_recorder c). Qed.

(** The listeners are what a complete boot binds. *)
Lemma bound_boot_log c : bound (boot_log c) = listeners c.
Proof. unfold boot_log. rewrite bound_app, bound_store_log. unfold listeners. by destruct (has_recorder c). Qed.

Lemma recorder_eq c log : recorder c log = (log ++ recorder_log c, Ok (has_recorder c)).
Proof.
  unfold recorder, recorder_log, has_recorder, metrics_init.
  destruct (enabled (metrics c)), install_recorder; cbn; run_boot; rewrite <- ?app_assoc, ?app_nil_r; done.
Qed.

(** [main] from the settings on. *)
Lemma boot_configured argv c :
  startup env read_to_string toml_from_str argv = Configured c ->
  create_dir_all (data_dir (storage c)) = Ok tt ->
  boot argv =
    match Store_open (data_dir (storage c)) EngineConfig_default with
    | Err _ => (store_log c, Err (Failed (B "opening store at " ++ data_dir (storage c))))
    | Ok st =>
        (_ ← (if has_recorder c then
                _ ← bind_listener (B "/metrics") (MetricsConfig_addr (metrics c)); act ServeMetrics
              else mret tt);
         _ ← bind_listener (B "RESP") (ServerConfig_addr (server c));
         _ ← act (ServeClients (slow_log_threshold_ms (logging c)));
         mret (serving st)) (store_log c)
    end.
Proof.
  intros Hs Hd. run_boot. rewrite Hs, tolerate_eq, recorder_eq, Hd.
  unfold store_log. rewrite <- !app_assoc. by destruct (Store_open _ _).
Qed.

(** Nothing is bound before the store is open: a boot that took an address has
    settings, a data directory and an open store, and did everything up to the
    store first; when it serves, it serves that store. *)
Theorem boot_order argv log out :
  boot argv = (log, out) ->
  ((exists stop, out = Err stop) /\ bound log = []) \/
  exists c st, startup env read_to_string toml_from_str argv = Configured c /\
    create_dir_all (data_dir (storage c)) = Ok tt /\
    Store_open (data_dir (storage c)) EngineConfig_default = Ok st /\
    store_log c `prefix_of` log /\
    (forall sv, out = Ok sv -> sv = serving st /\ log = boot_log c).
Proof.
  intros Hb. destruct (startup env read_to_string toml_from_str argv) as [c| |context cause] eqn:Hs.
  2, 3: left; revert Hb; run_boot; rewrite Hs; intros [= <- <-]; split; [by eexists|done].
  destruct (create_dir_all (data_dir (storage c))) as [[]|x] eqn:Hd.
  2: { left. revert Hb. run_boot. rewrite Hs, tolerate_eq, recorder_eq, Hd. intros [= <- <-]. split; [by eexists|].
    unfold recorder_log. by destruct (enabled _), (has_recorder c). }
  rewrite (boot_configured argv c Hs Hd) in Hb.
  destruct (Store_open _ _) as [st|x] eqn:Ho.
  2: { left. injection Hb as <- <-. split; [by eexists|apply bound_store_log]. }
  right. exists c, st. do 3 (split; [done|]). revert Hb. unfold boot_log. generalize (store_log c). intros l.
  unfold bind_listener. destruct (has_recorder c); run_boot;
    repeat (match goal with |- context [tcp_bind ?t ?a] => destruct (tcp_bind t a) end);
    intros [= <- <-]; rewrite <- ?app_assoc; (split; [by eexists|]); by intros ? [= <-].
Qed.

(** A boot whose addresses are free and distinct binds them and serves. *)
Lemma boot_serves argv c st :
  startup env read_to_string toml_from_str argv = Configured c ->
  create_dir_all (data_dir (storage c)) = Ok tt ->
  Store_open (data_dir (storage c)) EngineConfig_default = Ok st ->
  NoDup (listeners c) ->
  (forall taken addr, addr ∈ listeners c -> addr ∉ taken -> tcp_bind taken addr = Ok tt) ->
  boot argv = (boot_log c, Ok (serving st)).
Proof.
  intros Hs Hd Ho Hnd Hfree. rewrite (boot_configured argv c Hs Hd), Ho. unfold boot_log, bind_listener.
  revert Hnd Hfree. pose proof (bound_store_log c) as Hnil. unfold listeners. intros Hnd Hfree.
  destruct (has_recorder c); run_boot; rewrite Hnil, Hfree by set_solver.
  - rewrite !bound_app, Hnil, Hfree; [by rewrite <- !app_assoc|set_solver|].
    apply NoDup_cons in Hnd as [Hne _]. cbn. set_solver.
  - by rewrite <- !app_assoc.
Qed.
End Boot.

(** ** A restart *)

Section Restart.
Context {DB : Type} `{RocksDbLaws DB}.
Context (env : bytes -> option bytes) (read_to_string : bytes -> result bytes bytes).
Context (toml_from_str : bytes -> result bytes Config).
Context (create_dir_all : bytes -> result bytes unit).
Context (db_open : list RocksOption -> bytes -> result rocks_error DB).
Context (tcp_bind : list bytes -> bytes -> result bytes unit) (install_recorder : result bytes unit).
Context {EnvFilter : Type} (try_from_default_env : result bytes EnvFilter).
Context (try_new : bytes -> result bytes EnvFilter) (try_init : EnvFilter -> result bytes unit).
Context (clk : nat -> Z).

End Restart.

(** ** Witness *)

(** A directory where an earlier process left its hash, a network where only an
    address in use is refused, and neither logging nor metrics. *)
Definition demo_boot (argv : list bytes) : list Action * result Stop Service :=
  boot (fun _ => None) (fun _ => Err []) (fun _ => Err []) (fun _ => Ok tt)
    (fun _ _ => Ok (db (engine (demo_after demo_hash))))
    (fun taken addr => if bool_decide (addr ∈ taken) then Err (B "in use") else Ok tt)
    (@Err bytes unit []) (fun _ => Err []) (fun _ => Err []) (Err (B "recorder set"))
    (fun _ => 1700000001000000000) argv.

