(* ===== verification/CommandSpec.v ===== *)
(** * What every command means on the abstract database

    [meaning] gives each command line a [Plan]: which operations of the store
    it asks for, in which order, what it makes of their answers, and what it
    replies; malformed command lines are answered at once.  [answered] says what a
    plan replies, and what it leaves, on the abstract database of StoreSpec.v.
    The table says in one place what the handlers of the datamodel crate are to do;
    CommandRefine.v proves that they do it. *)

From S2P Require Import Prelude F64 Text F64Text Frame Encoding Engine Gc Store StoreSpec StoreRep StoreInv StoreRefine Budget.
From S2P Require Import Registry CmdHash CmdZSet.

(** ** Plans *)

(** [Do] asks for an operation and goes on with its answer; when the operation
    fails the reply is its error.  [AtTime] reads the clock.  [RawCount] asks for
    the number of records, garbage included, which the database does not
    determine. *)
Inductive Plan : Type :=
  | Answer (f : Frame)
  | Do (op : Op) (next : Reply -> Plan)
  | AtTime (next : Z -> Plan)
  | RawCount (next : Z -> Plan).

(** On the abstract database, with the times each step observes. *)
Inductive answered : Plan -> list (Z * Z) -> Db -> Db -> Frame -> Prop :=
  | answered_now f d : answered (Answer f) [] d d f
  | answered_do op next t t' ts d d1 d2 r f :
      spec t t' op d = (d1, Ok r) -> answered (next r) ts d1 d2 f ->
      answered (Do op next) ((t, t') :: ts) d d2 f
  | answered_error op next t t' d d1 e :
      spec t t' op d = (d1, Err e) -> answered (Do op next) [(t, t')] d d1 (engine_error e)
  | answered_time next t t' ts d d' f :
      answered (next t) ts d d' f -> answered (AtTime next) ((t, t') :: ts) d d' f
  | answered_raw next n ts d d' f :
      answered (next n) ts d d' f -> answered (RawCount next) ts d d' f.

(** One operation, and its answer presented. *)
Definition ask (op : Op) (show : Reply -> Frame) : Plan := Do op (fun r => Answer (show r)).

(** ** How answers are presented *)

Definition ok_reply (_ : Reply) : Frame := Frame_ok.
Definition int_reply (r : Reply) : Frame := match r with RInt n => Integer n | _ => Null end.
Definition flag_reply (r : Reply) : Frame := match r with RBool b => Integer (Z.b2z b) | _ => Null end.
Definition text_reply (r : Reply) : Frame := match r with RText t => Frame_simple t | _ => Null end.
Definition value_reply (r : Reply) : Frame := match r with RValue (Some x) => Bulk x | _ => Null end.
Definition list_reply (r : Reply) : Frame := match r with RList l => Array (bulk <$> l) | _ => Null end.
(** Whole seconds, rounded up; the negative answers as they are. *)
Definition seconds_reply (r : Reply) : Frame :=
  match r with
  | RInt ms => Integer (if ms <? 0 then ms else Z.quot (wrap_i64 (ms + 999)) 1000)
  | _ => Null
  end.
(** The first element, or all of them when a count was given. *)
Definition popped_reply (counted : bool) (r : Reply) : Frame :=
  match r with
  | RList l => if counted then Array (bulk <$> l)
               else match head l with Some x => Bulk x | None => Null end
  | _ => Null
  end.

Definition members_reply (v : RespVersion) (r : Reply) : Frame :=
  match r, v with
  | RList l, V2 => Array (bulk <$> l)
  | RList l, V3 => Set_ (bulk <$> l)
  | _, _ => Null
  end.
Definition pairs_reply (v : RespVersion) (r : Reply) : Frame :=
  match r, v with
  | RPairs l, V2 => Array (bulk <$> flatten_pairs l)
  | RPairs l, V3 => Map ((fun kv => (bulk kv.1, bulk kv.2)) <$> l)
  | _, _ => Null
  end.
Definition score_reply (v : RespVersion) (r : Reply) : Frame :=
  match r with RScore (Some x) => score_frame x v | _ => Null end.
Definition scored_reply (withscores : bool) (limit : option (Z * Z)) (v : RespVersion) (r : Reply) : Frame :=
  match r with RScored l => range_reply (apply_limit limit l) withscores v | _ => Null end.

Definition NOT_POSITIVE : bytes := B "ERR value is out of range, must be positive".
Definition not_an_integer : Frame := Frame_error NOT_AN_INTEGER.
Definition invalid_expire_time (cmd : bytes) : Frame :=
  Frame_error (B "ERR invalid expire time in '" ++ cmd ++ B "' command").

(** ** The commands *)

(** Ask for one operation per key and count the positive answers. *)
Fixpoint count_plan (op : bytes -> Op) (keys : list bytes) (n : Z) : Plan :=
  match keys with
  | [] => Answer (Integer n)
  | k :: keys' =>
      Do (op k) (fun r => count_plan op keys' (match r with RBool true => n + 1 | _ => n end))
  end.

Fixpoint fields_plan (k : bytes) (fields : list bytes) (items : list Frame) : Plan :=
  match fields with
  | [] => Answer (Array items)
  | f :: fields' => Do (OHget k f) (fun r => fields_plan k fields' (items ++ [value_reply r]))
  end.

Definition time_unit (opt : bytes) : option Z :=
  if eq_ignore_ascii_case opt (B "EX") then Some 1000
  else if eq_ignore_ascii_case opt (B "PX") then Some 1 else None.

(** EX and PX with a positive number set the deadline, counted from now; a
    second one is an error. *)
Fixpoint set_plan (k x : bytes) (opts : list bytes) (deadline : Z) : Plan :=
  match opts with
  | [] => ask (OSet k x deadline) ok_reply
  | opt :: opts1 =>
      match time_unit opt, opts1 with
      | Some unit, raw :: opts2 =>
          if decide (deadline <> 0) then Answer syntax_error
          else
            match parse_i64 raw with
            | None => Answer not_an_integer
            | Some n =>
                match (if n <=? 0 then None else i64_checked_mul n unit) with
                | None => Answer (invalid_expire_time (B "set"))
                | Some delta =>
                    AtTime (fun now =>
                      match i64_checked_add delta (wrap_i64 now) with
                      | None => Answer (invalid_expire_time (B "set"))
                      | Some t => set_plan k x opts2 (wrap_u64 t)
                      end)
                end
            end
      | _, _ => Answer syntax_error
      end
  end.

Definition expire_plan (unit : Z) (cmd : bytes) (k raw : bytes) : Plan :=
  match parse_i64 raw with
  | None => Answer not_an_integer
  | Some n =>
      match i64_checked_mul n unit with
      | None => Answer (invalid_expire_time cmd)
      | Some delta =>
          AtTime (fun now =>
            ask (OExpireAt k (wrap_u64 (Z.max (i64_saturating_add (wrap_i64 now) delta) 1))) flag_reply)
      end
  end.

(** Scores are parsed before anything is written. *)
Fixpoint scored_members (l : list (bytes * bytes)) : option (list (f64 * bytes)) :=
  match l with
  | [] => Some []
  | (raw, m) :: l' =>
      match parse_score raw, scored_members l' with
      | Some x, Some r => Some ((x, m) :: r)
      | _, _ => None
      end
  end.

Definition zadd_plan (k raw : bytes) (l : list bytes) : Plan :=
  if existsb (eq_ignore_ascii_case raw) FLAGS || negb (Nat.even (length (raw :: l))) then Answer syntax_error
  else
    match scored_members (chunks_exact_2 (raw :: l)) with
    | Some pairs => ask (OZadd k pairs) int_reply
    | None => Answer (Frame_error NOT_A_FLOAT)
    end.

Definition zrange_plan (v : RespVersion) (k raw_a raw_z : bytes) (opts : list bytes) : Plan :=
  match parse_i64 raw_a, parse_i64 raw_z with
  | Some a, Some z =>
      match opts with
      | [] => ask (OZrange k a z) (scored_reply false None v)
      | [opt] => if eq_ignore_ascii_case opt (B "WITHSCORES")
                 then ask (OZrange k a z) (scored_reply true None v) else Answer syntax_error
      | _ => Answer syntax_error
      end
  | _, _ => Answer not_an_integer
  end.

(** WITHSCORES and LIMIT in any order, the last LIMIT counting. *)
Fixpoint score_options (opts : list bytes) (withscores : bool) (limit : option (Z * Z)) :
  option (bool * option (Z * Z)) :=
  match opts with
  | [] => Some (withscores, limit)
  | opt :: opts1 =>
      if eq_ignore_ascii_case opt (B "WITHSCORES") then score_options opts1 true limit
      else if eq_ignore_ascii_case opt (B "LIMIT") then
        match opts1 with
        | raw_off :: raw_cnt :: opts2 =>
            match parse_i64 raw_off, parse_i64 raw_cnt with
            | Some off, Some cnt => score_options opts2 withscores (Some (off, cnt))
            | _, _ => None
            end
        | _ => None
        end
      else None
  end.

Definition zrangebyscore_plan (v : RespVersion) (k raw_min raw_max : bytes) (opts : list bytes) : Plan :=
  match parse_score_bound raw_min, parse_score_bound raw_max with
  | Some mn, Some mx =>
      match score_options opts false None with
      | Some (withscores, limit) =>
          ask (OZrangeByScore k mn.1 mn.2 mx.1 mx.2) (scored_reply withscores limit v)
      | None => Answer syntax_error
      end
  | _, _ => Answer (Frame_error BAD_RANGE_BOUND)
  end.

(** A pop looks at the length first; an absent or empty list is Null. *)
Definition pop_plan (k : bytes) (count : option Z) (left : bool) : Plan :=
  Do (OLlen k) (fun r =>
    match r with
    | RInt n => if 0 <? n
                then ask (OPop k (default 1 count) left) (popped_reply (bool_decide (is_Some count)))
                else Answer Null
    | _ => Answer Null
    end).

Definition pop_args (cmd : bytes) (left : bool) (rest : list bytes) : Plan :=
  match rest with
  | [k] => pop_plan k None left
  | k :: raw :: more =>
      match parse_i64 raw with
      | None => Answer not_an_integer
      | Some n => if 0 <=? n
                  then match more with
                       | [] => pop_plan k (Some n) left
                       | _ => Answer (wrong_args cmd)
                       end
                  else Answer (Frame_error NOT_POSITIVE)
      end
  | [] => Answer (wrong_args cmd)
  end.

(** ** The table *)

Section Table.
Context (v : RespVersion).

Definition meanings : list (bytes * (list bytes -> Plan)) :=
  [(B "PING", fun rest => match rest with
      | [] => Answer (Frame_simple (B "PONG")) | [x] => Answer (Bulk x) | _ => Answer (wrong_args (B "ping")) end);
   (B "ECHO", fun rest => match rest with [x] => Answer (Bulk x) | _ => Answer (wrong_args (B "echo")) end);
   (B "SET", fun rest => match rest with
      | k :: x :: opts => set_plan k x opts 0 | _ => Answer (wrong_args (B "set")) end);
   (B "GET", fun rest => match rest with
      | [k] => ask (OGet k) value_reply | _ => Answer (wrong_args (B "get")) end);
   (B "DEL", fun rest => match rest with
      | [] => Answer (wrong_args (B "del")) | keys => count_plan ODel keys 0 end);
   (B "EXISTS", fun rest => match rest with
      | [] => Answer (wrong_args (B "exists")) | keys => count_plan OExists keys 0 end);
   (B "TYPE", fun rest => match rest with
      | [k] => ask (OType k) text_reply | _ => Answer (wrong_args (B "type")) end);
   (B "EXPIRE", fun rest => match rest with
      | [k; raw] => expire_plan 1000 (B "expire") k raw | _ => Answer (wrong_args (B "expire")) end);
   (B "PEXPIRE", fun rest => match rest with
      | [k; raw] => expire_plan 1 (B "pexpire") k raw | _ => Answer (wrong_args (B "pexpire")) end);
   (B "TTL", fun rest => match rest with
      | [k] => ask (OPttl k) seconds_reply | _ => Answer (wrong_args (B "ttl")) end);
   (B "PTTL", fun rest => match rest with
      | [k] => ask (OPttl k) int_reply | _ => Answer (wrong_args (B "pttl")) end);
   (B "HSET", fun rest => match rest with
      | k :: f :: x :: more =>
          if Nat.even (length more) then ask (OHset k (chunks_exact_2 (f :: x :: more))) int_reply
          else Answer (wrong_args (B "hset"))
      | _ => Answer (wrong_args (B "hset")) end);
   (B "HMSET", fun rest => match rest with
      | k :: f :: x :: more =>
          if Nat.even (length more) then ask (OHset k (chunks_exact_2 (f :: x :: more))) ok_reply
          else Answer (wrong_args (B "hmset"))
      | _ => Answer (wrong_args (B "hmset")) end);
   (B "HGET", fun rest => match rest with
      | [k; f] => ask (OHget k f) value_reply | _ => Answer (wrong_args (B "hget")) end);
   (B "HMGET", fun rest => match rest with
      | k :: f :: fs => fields_plan k (f :: fs) [] | _ => Answer (wrong_args (B "hmget")) end);
   (B "HGETALL", fun rest => match rest with
      | [k] => ask (OHgetall k) (pairs_reply v) | _ => Answer (wrong_args (B "hgetall")) end);
   (B "HDEL", fun rest => match rest with
      | k :: f :: fs => ask (OHdel k (f :: fs)) int_reply | _ => Answer (wrong_args (B "hdel")) end);
   (B "HLEN", fun rest => match rest with
      | [k] => ask (OHlen k) int_reply | _ => Answer (wrong_args (B "hlen")) end);
   (B "HEXISTS", fun rest => match rest with
      | [k; f] => ask (OHexists k f) flag_reply | _ => Answer (wrong_args (B "hexists")) end);
   (B "SADD", fun rest => match rest with
      | k :: m :: ms => ask (OSadd k (m :: ms)) int_reply | _ => Answer (wrong_args (B "sadd")) end);
   (B "SREM", fun rest => match rest with
      | k :: m :: ms => ask (OSrem k (m :: ms)) int_reply | _ => Answer (wrong_args (B "srem")) end);
   (B "SISMEMBER", fun rest => match rest with
      | [k; m] => ask (OSismember k m) flag_reply | _ => Answer (wrong_args (B "sismember")) end);
   (B "SMEMBERS", fun rest => match rest with
      | [k] => ask (OSmembers k) (members_reply v) | _ => Answer (wrong_args (B "smembers")) end);
   (B "SCARD", fun rest => match rest with
      | [k] => ask (OScard k) int_reply | _ => Answer (wrong_args (B "scard")) end);
   (B "ZADD", fun rest => match rest with
      | k :: raw :: m :: more => zadd_plan k raw (m :: more) | _ => Answer (wrong_args (B "zadd")) end);
   (B "ZSCORE", fun rest => match rest with
      | [k; m] => ask (OZscore k m) (score_reply v) | _ => Answer (wrong_args (B "zscore")) end);
   (B "ZRANGE", fun rest => match rest with
      | k :: a :: z :: opts => zrange_plan v k a z opts | _ => Answer (wrong_args (B "zrange")) end);
   (B "ZRANGEBYSCORE", fun rest => match rest with
      | k :: mn :: mx :: opts => zrangebyscore_plan v k mn mx opts
      | _ => Answer (wrong_args (B "zrangebyscore")) end);
   (B "ZREM", fun rest => match rest with
      | k :: m :: ms => ask (OZrem k (m :: ms)) int_reply | _ => Answer (wrong_args (B "zrem")) end);
   (B "ZCARD", fun rest => match rest with
      | [k] => ask (OZcard k) int_reply | _ => Answer (wrong_args (B "zcard")) end);
   (B "LPUSH", fun rest => match rest with
      | k :: x :: xs => ask (OPush k (x :: xs) true) int_reply | _ => Answer (wrong_args (B "lpush")) end);
   (B "RPUSH", fun rest => match rest with
      | k :: x :: xs => ask (OPush k (x :: xs) false) int_reply | _ => Answer (wrong_args (B "rpush")) end);
   (B "LPOP", pop_args (B "lpop") true);
   (B "RPOP", pop_args (B "rpop") false);
   (B "LRANGE", fun rest => match rest with
      | [k; raw_a; raw_z] =>
          match parse_i64 raw_a, parse_i64 raw_z with
          | Some a, Some z => ask (OLrange k a z) list_reply
          | _, _ => Answer not_an_integer
          end
      | _ => Answer (wrong_args (B "lrange")) end);
   (B "LLEN", fun rest => match rest with
      | [k] => ask (OLlen k) int_reply | _ => Answer (wrong_args (B "llen")) end);
   (B "DBSIZE", fun rest => match rest with
      | [] => ask ODbsize int_reply | _ => Answer (wrong_args (B "dbsize")) end);
   (B "RAWCOUNT", fun rest => match rest with
      | [] => RawCount (fun n => Answer (Integer n)) | _ => Answer (wrong_args (B "rawcount")) end);
   (B "COMPACT", fun rest => match rest with
      | [] => ask OCompact ok_reply | _ => Answer (wrong_args (B "compact")) end)].

Definition meaning_table : gmap bytes (list bytes -> Plan) := list_to_map meanings.

Definition meaning (args : list bytes) : Plan :=
  match args with
  | [] => Answer (Frame_error (B "ERR empty command"))
  | name :: rest =>
      match meaning_table !! to_ascii_uppercase (from_utf8_lossy name) with
      | Some m => m rest
      | None => Answer (Frame_error (B "ERR unknown command '" ++ from_utf8_lossy name ++ B "'"))
      end
  end.
End Table.

(** ** What a command costs *)

(** Every operation a plan asks for has arguments in range, and together they
    cost at most [w]. *)
Fixpoint plan_within (w : Z) (p : Plan) : Prop :=
  match p with
  | Answer _ => 0 <= w
  | Do op next => op_ok op /\ op_cost op <= w /\ forall r, plan_within (w - op_cost op) (next r)
  | AtTime next => forall t, plan_within w (next t)
  | RawCount next => forall m, plan_within w (next m)
  end.

Lemma plan_within_mono w w' p : plan_within w p -> w <= w' -> plan_within w' p.
Proof.
  revert w w'. induction p as [f|op next IH|next IH|next IH]; intros w w'; cbn; intros Hp Hw; [lia| |by eauto..].
  destruct Hp as (Hok & Hc & Hn). split; [done|]. split; [lia|]. intros r. eapply IH; [done|lia].
Qed.

Lemma ask_within w op show : op_ok op -> op_cost op <= w -> plan_within w (ask op show).
Proof. intros Hok Hc. split; [done|]. split; [done|]. intros r. cbn. lia. Qed.

Lemma count_plan_within w op keys m :
  (forall k, valid_key k -> op_ok (op k) /\ op_cost (op k) = 1) -> Forall valid_key keys ->
  Z.of_nat (length keys) <= w -> plan_within w (count_plan op keys m).
Proof.
  intros Hop Hk. revert w m. induction Hk as [|k keys Hk _ IH]; intros w m; cbn [count_plan plan_within length];
    intros Hw; [lia|].
  destruct (Hop k Hk) as [Hok ->]. split; [done|]. split; [lia|]. intros r. apply IH. lia.
Qed.

Lemma fields_plan_within w k fields items :
  valid_key k -> Z.of_nat (length fields) <= w -> plan_within w (fields_plan k fields items).
Proof.
  intros Hk. revert w items. induction fields as [|f fields IH]; intros w items; cbn [fields_plan plan_within length];
    intros Hw; [lia|].
  change (op_cost (OHget k f)) with 1. split; [done|]. split; [lia|]. intros r. apply IH. lia.
Qed.

Lemma set_plan_within w k x opts t : valid_key k -> in_u64 t -> 1 <= w -> plan_within w (set_plan k x opts t).
Proof.
  intros Hk Ht Hw. remember (length opts) as m eqn:Hm. assert (Hle : (length opts <= m)%nat) by lia. clear Hm.
  revert opts t Ht Hle. induction m as [|m IH]; intros [|opt [|raw opts]] t Ht; cbn [length]; intros Hl;
    try lia; cbn [set_plan]; try (by apply ask_within); [case_match; cbn; lia..|].
  destruct (time_unit opt) as [unit|]; [|cbn; lia]. destruct (decide _); [cbn; lia|].
  destruct (parse_i64 raw) as [i|]; [|cbn; lia]. destruct (if i <=? 0 then _ else _) as [delta|]; [|cbn; lia].
  intros now. destruct (i64_checked_add _ _); [|cbn; lia]. apply IH; [apply wrap_u64_range|lia].
Qed.

Lemma expire_plan_within w unit cmd k raw : valid_key k -> 1 <= w -> plan_within w (expire_plan unit cmd k raw).
Proof.
  intros Hk Hw. unfold expire_plan. destruct (parse_i64 raw) as [i|]; [|cbn; lia].
  destruct (i64_checked_mul i unit) as [delta|]; [|cbn; lia]. intros now. apply ask_within; [|done].
  split; [done|]. apply wrap_u64_range.
Qed.

Lemma parse_score_num raw x : parse_score raw = Some x -> f64_num x.
Proof.
  unfold parse_score. destruct (negb _); [done|]. destruct (_ || _); [done|].
  intros (y & Hy & Hx)%bind_Some. destruct (f64_is_nan y) eqn:Hn; [done|]. injection Hx as <-.
  split; [by eapply f64_from_str_range|done].
Qed.

Lemma parse_score_bound_num raw b : parse_score_bound raw = Some b -> f64_num b.1.
Proof.
  unfold parse_score_bound. intros Hb. repeat case_match;
    apply fmap_Some in Hb as (x & Hx & ->); by eapply parse_score_num.
Qed.

Lemma scored_members_fit l pairs :
  scored_members l = Some pairs -> length pairs = length l /\ Forall (fun sm => f64_num sm.1) pairs.
Proof.
  revert pairs. induction l as [|[raw m] l IH]; intros pairs; cbn [scored_members]; [by intros [= <-]|].
  destruct (parse_score raw) as [x|] eqn:Hx; [|done]. destruct (scored_members l) as [r|]; [|done].
  intros [= <-]. destruct (IH r eq_refl) as [Hl Hr]. split; [cbn; by rewrite Hl|].
  constructor; [by eapply parse_score_num|done].
Qed.

Lemma chunks_exact_2_length {A} (l : list A) : (2 * length (chunks_exact_2 l) <= length l)%nat.
Proof.
  remember (length l) as m eqn:Hm. assert (length l <= m)%nat by lia. rewrite Hm. clear Hm.
  revert l H. induction m as [|m IH]; intros [|a [|b l]]; cbn [length chunks_exact_2]; intros Hl; try lia.
  specialize (IH l). lia.
Qed.

Lemma zadd_plan_within w k raw l :
  valid_key k -> 1 + Z.of_nat (length (raw :: l)) <= w -> plan_within w (zadd_plan k raw l).
Proof.
  intros Hk Hl. unfold zadd_plan. destruct (_ || _); [cbn; lia|].
  destruct (scored_members _) as [pairs|] eqn:Hp; [|cbn; lia]. apply scored_members_fit in Hp as [Hlen Hnum].
  pose proof (chunks_exact_2_length (raw :: l)). apply ask_within; [done|]. unfold op_cost. lia.
Qed.

Lemma zrange_plan_within w v k a z opts : valid_key k -> 1 <= w -> plan_within w (zrange_plan v k a z opts).
Proof. intros Hk Hw. unfold zrange_plan. repeat case_match; first [by apply ask_within|cbn; lia]. Qed.

Lemma zrangebyscore_plan_within w v k mn mx opts :
  valid_key k -> 1 <= w -> plan_within w (zrangebyscore_plan v k mn mx opts).
Proof.
  intros Hk Hw. unfold zrangebyscore_plan.
  destruct (parse_score_bound mn) as [b1|] eqn:H1; [|cbn; lia].
  destruct (parse_score_bound mx) as [b2|] eqn:H2; [|cbn; lia].
  destruct (score_options _ _ _) as [[ws lim]|]; [|cbn; lia]. apply ask_within; [|done].
  split; [done|]. eauto using parse_score_bound_num.
Qed.

Lemma pop_args_within cmd left rest :
  Forall valid_key rest -> plan_within (1 + Z.of_nat (length rest)) (pop_args cmd left rest).
Proof.
  intros Hv. assert (Hp : forall w k count, valid_key k -> 0 <= default 1 count -> 2 <= w ->
    plan_within w (pop_plan k count left)).
  { intros w k count Hk Hc Hw. unfold pop_plan. cbn [plan_within]. change (op_cost (OLlen k)) with 1.
    split; [done|]. split; [lia|]. intros r. destruct r; try (cbn; lia). destruct (0 <? n); [|cbn; lia].
    apply ask_within; [done|]. unfold op_cost. lia. }
  unfold pop_args. destruct rest as [|k [|raw more]]; [done| |]; inversion_clear Hv; [by apply Hp|].
  destruct (parse_i64 raw) as [i|]; [|cbn; lia]. destruct (Z.leb_spec 0 i); [|cbn; lia].
  destruct more; [|cbn; lia]. apply Hp; [done..|cbn; lia].
Qed.

(** One entry of the table. *)
Ltac plan_costs :=
  match goal with
  | |- plan_within _ (Answer _) => cbn [plan_within]; lia
  | |- plan_within _ (RawCount _) => intros m; cbn [plan_within]; lia
  | |- plan_within _ (set_plan _ _ _ _) => apply set_plan_within; [done..|lia]
  | |- plan_within _ (count_plan _ _ _) =>
      apply count_plan_within;
        [intros ? ?; split; [assumption|reflexivity]|constructor; assumption|cbn [length]; lia]
  | |- plan_within _ (expire_plan _ _ _ _) => apply expire_plan_within; [done|lia]
  | |- plan_within _ (fields_plan _ _ _) => apply fields_plan_within; [done|cbn [length]; lia]
  | |- plan_within _ (zrange_plan _ _ _ _ _) => apply zrange_plan_within; [done|lia]
  | |- plan_within _ (zrangebyscore_plan _ _ _ _ _) => apply zrangebyscore_plan_within; [done|lia]
  | |- plan_within _ (zadd_plan _ _ _) => apply zadd_plan_within; [done|cbn [length]; lia]
  | |- plan_within _ (ask (OHset _ (chunks_exact_2 ?l)) _) =>
      pose proof (chunks_exact_2_length l); apply ask_within; [done|unfold op_cost; cbn [length] in *; lia]
  | |- plan_within _ (ask _ _) => apply ask_within; [done|unfold op_cost; cbn [length]; lia]
  end.

Lemma meanings_within v :
  Forall (fun e => forall rest, Forall valid_key rest -> plan_within (1 + Z.of_nat (length rest)) (e.2 rest))
    (meanings v).
Proof.
  unfold meanings. repeat apply List.Forall_cons; [..|apply List.Forall_nil]; cbn [snd]; intros rest Hv;
    try match goal with |- plan_within _ (pop_args _ _ _) => by apply pop_args_within end;
    repeat case_match; subst;
    repeat match goal with Hx : Forall valid_key (_ :: _) |- _ => apply list.Forall_cons in Hx as [? Hx] end;
    cbn [length] in *; plan_costs.
Qed.

(** A command line costs no more than it has words. *)
Lemma meaning_within v args :
  Forall valid_key args -> plan_within (Z.of_nat (length args)) (meaning v args).
Proof.
  intros Hv. destruct args as [|name rest]; [done|]. cbn [meaning].
  inversion_clear Hv as [|?? _ Hrest]. cbn [length]. rewrite Nat2Z.inj_succ, <- Z.add_1_l.
  destruct (meaning_table v !! _) as [m|] eqn:Hm; [|cbn; lia].
  apply elem_of_list_to_map_2 in Hm. pose proof (meanings_within v) as Hf. rewrite list.Forall_forall in Hf.
  by apply (Hf _ Hm).
Qed.
