(* ===== verification/CommandTime.v ===== *)
(** * Commands that deal with time

    SET with an expiry followed by TTL and GET, at the level of the command
    handlers: what a client that gives a key a lifetime can observe. *)

From S2P Require Import Prelude F64 Text Frame Encoding Engine Gc Store StoreSpec StoreRep StoreInv StoreGeneric.
From S2P Require Import StoreRefine StoreProps Registry CmdString Rocks.

(** Seconds, rounded up, of a positive number of milliseconds. *)
Definition ceil_seconds (ms : Z) : Z := (ms + 999) / 1000.

Section Time.
Context {E : Type} `{EngineLaws E}.

Abbreviation St := (State E).
Implicit Types (s : St) (d : Db) (k v raw opt : bytes) (ctx : ExecCtx).

Lemma peek_ms_range s : in_u64 (peek_ms s).
Proof. apply as_millis_range. Qed.

Lemma Inv_tick s d : Inv s d -> Inv (ticked s) d.
Proof. intros [B HI]. exists B. by apply Inv_ticked. Qed.

(** The option loop on one EX or PX option reads the clock once. *)
Lemma set_options_ex s opt raw n unit :
  eq_ignore_ascii_case opt (B "EX") = true /\ unit = 1000 \/
  eq_ignore_ascii_case opt (B "EX") = false /\ eq_ignore_ascii_case opt (B "PX") = true /\ unit = 1 ->
  parse_i64 raw = Some n -> 0 < n -> n * unit + peek_ms s <= i64_max ->
  set_options [opt; raw] 0 s = (ticked s, Done (n * unit + peek_ms s)).
Proof.
  intros Hopt Hraw Hn Hmax. pose proof (peek_ms_range s) as Hp.
  assert (Hunit : 0 < unit) by (destruct Hopt as [[_ ->]|(_ & _ & ->)]; lia).
  assert (0 < n * unit) by nia. unfold in_u64, i64_max in *.
  unfold set_options. cbn [negb Z.eqb].
  unfold mbind at 1, Cmd_bind at 1.
  assert (Hu : (if eq_ignore_ascii_case opt (B "EX") then mret 1000
    else if eq_ignore_ascii_case opt (B "PX") then mret 1 else return_ syntax_error) s = (s, Done unit)).
  { destruct Hopt as [[-> ->]|(-> & -> & ->)]; done. }
  rewrite Hu, Hraw. cbn [or_return]. unfold mbind at 1, Cmd_bind at 1. cbn [mret Cmd_ret].
  destruct (Z.leb_spec n 0); [lia|].
  unfold i64_checked_mul, i64_checked_add, i64_checked.
  rewrite decide_True by (unfold in_i64; lia). cbn [or_return].
  unfold mbind at 1, Cmd_bind at 1. cbn [mret Cmd_ret].
  unfold mbind at 1, Cmd_bind at 1. unfold now_i64 at 1, mbind at 1, Cmd_bind at 1, store_call at 1.
  rewrite now_ms_eq. cbn [mret Cmd_ret]. rewrite wrap_i64_small by (unfold in_i64; lia).
  rewrite decide_True by (unfold in_i64; lia). cbn [or_return].
  unfold mbind at 1, Cmd_bind at 1. cbn [mret Cmd_ret]. by rewrite wrap_u64_small by (unfold in_u64; lia).
Qed.

(** SET with such an option stores the value with the deadline. *)
Lemma set_ex_ok ctx s d name k v opt raw n unit :
  Inv s d -> valid_key k -> clock_left s ->
  eq_ignore_ascii_case opt (B "EX") = true /\ unit = 1000 \/
  eq_ignore_ascii_case opt (B "EX") = false /\ eq_ignore_ascii_case opt (B "PX") = true /\ unit = 1 ->
  parse_i64 raw = Some n -> 0 < n -> n * unit + peek_ms s <= i64_max ->
  exists s', CmdString.set ctx [name; k; v; opt; raw] s = (s', Done Frame_ok) /\
    Inv s' (<[k := mk_Obj (StringV v) (n * unit + peek_ms s)]> d).
Proof.
  intros [B HI] Hk Hc Hopt Hraw Hn Hmax. pose proof (peek_ms_range s) as Hp.
  assert (0 < unit) by (destruct Hopt as [[_ ->]|(_ & _ & ->)]; lia).
  assert (Hd : in_u64 (n * unit + peek_ms s)) by (unfold in_u64, i64_max in *; nia).
  destruct (set_refines B (ticked s) d k v _ (Inv_ticked _ _ _ HI) Hk Hc Hd) as (s' & Hs & HI' & _).
  exists s'. split; [|done]. unfold CmdString.set. cbn [drop].
  unfold mbind at 1, Cmd_bind at 1. rewrite (set_options_ex s opt raw n unit) by done.
  unfold mbind, Cmd_bind, arg, store_call. cbn [lookup list_lookup]. by rewrite Hs.
Qed.

Lemma live_deadline now k v deadline d :
  deadline <> 0 ->
  live now k (<[k := mk_Obj (StringV v) deadline]> d) =
  if now <? deadline then Some (mk_Obj (StringV v) deadline) else None.
Proof.
  intros Hd. unfold live, purge. rewrite lookup_insert_eq. unfold obj_expired. cbn [expiry].
  destruct (Z.ltb_spec now deadline).
  - rewrite decide_False by lia. apply lookup_insert_eq.
  - rewrite decide_True by lia. apply lookup_delete_eq.
Qed.

(** C11. A lifetime is kept: after SET with EX (seconds) or PX (milliseconds),
    until the deadline GET answers the value and TTL the seconds left, rounded up
    and never more than asked for if the clock does not run backwards; from the
    deadline on GET answers Null and TTL -2. *)
Theorem set_ex_then_ttl ctx s d name k v opt raw n unit :
  Inv s d -> valid_key k -> clock_left s ->
  eq_ignore_ascii_case opt (B "EX") = true /\ unit = 1000 \/
  eq_ignore_ascii_case opt (B "EX") = false /\ eq_ignore_ascii_case opt (B "PX") = true /\ unit = 1 ->
  parse_i64 raw = Some n -> 0 < n -> n * unit + peek_ms s + 999 <= i64_max ->
  let deadline := n * unit + peek_ms s in
  exists s', CmdString.set ctx [name; k; v; opt; raw] s = (s', Done Frame_ok) /\
    (CmdString.get ctx [name; k] s').2 = Done (if peek_ms s' <? deadline then Bulk v else Null) /\
    (ttl ctx [name; k] s').2 =
      Done (Integer (if peek_ms s' <? deadline then ceil_seconds (Z.max 0 (deadline - peek_ms2 s')) else -2)) /\
    (peek_ms s <= peek_ms2 s' -> ceil_seconds (Z.max 0 (deadline - peek_ms2 s')) <= ceil_seconds (n * unit)).
Proof.
  intros HI Hk Hc Hopt Hraw Hn Hmax deadline. pose proof (peek_ms_range s) as Hp.
  destruct (set_ex_ok ctx s d name k v opt raw n unit) as (s' & Hs & [B' HI']); [done..|lia|].
  assert (0 < unit) by (destruct Hopt as [[_ ->]|(_ & _ & ->)]; lia).
  assert (Hdl : 0 < deadline) by (unfold deadline, in_u64 in *; nia).
  exists s'. split; [done|].
  pose proof (peek_ms_range s') as Hp1. pose proof (peek_ms_range (ticked s')) as Hp2.
  fold (peek_ms2 s') in Hp2. unfold in_u64, i64_max in *.
  pose proof (live_deadline (peek_ms s') k v deadline d) as Hlive. fold deadline in HI'.
  assert (Hgo : deadline <> 0) by lia. specialize (Hlive Hgo).
  destruct (get_refines B' s' _ k HI' Hk) as (s1 & Hg & _).
  destruct (pttl_refines B' s' _ k HI' Hk) as (s2 & Ht & _). split_and!.
  - unfold CmdString.get, mbind, Cmd_bind, arg, store_call. cbn [lookup list_lookup]. rewrite Hg.
    unfold spec_get, on_type. fold (live (peek_ms s') k (<[k := mk_Obj (StringV v) deadline]> d)).
    rewrite Hlive. by destruct (peek_ms s' <? deadline).
  - unfold ttl, mbind, Cmd_bind, arg, store_call. cbn [lookup list_lookup]. rewrite Ht.
    unfold spec_pttl. cbn [snd]. rewrite Hlive. destruct (peek_ms s' <? deadline); [|done]. cbn [expiry].
    rewrite decide_False by done. unfold saturating_sub.
    rewrite wrap_i64_small by (unfold in_i64; lia).
    destruct (Z.ltb_spec (Z.max 0 (deadline - peek_ms2 s')) 0); [lia|]. cbn [mret Cmd_ret snd].
    rewrite wrap_i64_small by (unfold in_i64; lia). unfold ceil_seconds.
    by rewrite Z.quot_div_nonneg by lia.
  - intros Hm. unfold ceil_seconds. apply Z.div_le_mono; [lia|]. unfold deadline. lia.
Qed.
End Time.

(** ** Witnesses *)

Lemma set_ex_then_ttl_witness :
  exists s', CmdString.set (mk_ExecCtx V2) [B "SET"; B "k"; B "v"; B "px"; B "1500"] demo_state = (s', Done Frame_ok) /\
    (CmdString.get (mk_ExecCtx V2) [B "GET"; B "k"] s').2 = Done (Bulk (B "v")) /\
    (ttl (mk_ExecCtx V2) [B "TTL"; B "k"] s').2 = Done (Integer 2).
Proof.
  assert (Hopt : eq_ignore_ascii_case (B "px") (B "EX") = false /\ eq_ignore_ascii_case (B "px") (B "PX") = true /\ 1 = 1)
    by (vm_compute; auto).
  destruct (set_ex_then_ttl (mk_ExecCtx V2) demo_state ∅ (B "SET") (B "k") (B "v") (B "px") (B "1500") 1500 1)
    as (s' & Hs & Hget & Httl & _).
  - exists 0. exact demo_inv.
  - vm_compute. split; [discriminate|reflexivity].
  - vm_compute. reflexivity.
  - right. exact Hopt.
  - vm_compute. reflexivity.
  - lia.
  - vm_compute. discriminate.
  - exists s'. split; [exact Hs|].
    assert (Hclk : s' = (CmdString.set (mk_ExecCtx V2) [B "SET"; B "k"; B "v"; B "px"; B "1500"] demo_state).1)
      by by rewrite Hs.
    split.
    + etransitivity; [exact (Hget)|]. rewrite Hclk. vm_compute. reflexivity.
    + etransitivity; [exact (Httl)|]. rewrite Hclk. vm_compute. reflexivity.
Defined.
