(* ===== verification/CommandRefine.v ===== *)
(** * Commands implement the abstract database

    The registry's dispatch of any command line does what the line's [meaning]
    says: first on the store, whatever its state ([dispatch_performs]), and then,
    from a store that represents a database, on the database. *)

From S2P Require Import Prelude F64 Text Frame Encoding Engine Gc Store StoreSpec StoreRep StoreInv StoreGeneric StoreAdmin.
From S2P Require Import StoreRefine Budget Registry CmdConnectivity CmdString CmdHash CmdSet CmdZSet CmdList CmdAdmin.
From S2P Require Import Commands CommandProps CommandSpec Rocks.

(** ** Plans on the store *)

Section Perform.
Context {E : Type} `{EngineLaws E}.

Abbreviation St := (State E).

Fixpoint perform (p : Plan) (s : St) : St * Frame :=
  match p with
  | Answer f => (s, f)
  | Do op next =>
      match exec op s with
      | (s', Ok r) => perform (next r) s'
      | (s', Err e) => (s', engine_error e)
      end
  | AtTime next =>
      match now_ms s with
      | (s', Ok t) => perform (next t) s'
      | (s', Err e) => (s', engine_error e)
      end
  | RawCount next =>
      match raw_subkey_count s with
      | (s', Ok n) => perform (next n) s'
      | (s', Err e) => (s', engine_error e)
      end
  end.

(** The handler carries the plan out. *)
Definition runs (c : Cmd E Frame) (p : Plan) : Prop :=
  forall s, (c s).1 = (perform p s).1 /\ reply_of (c s).2 = Some (perform p s).2.

Lemma runs_answer f : runs (mret f) (Answer f).
Proof. done. Qed.

Lemma runs_return f : runs (return_ f) (Answer f).
Proof. done. Qed.

Lemma runs_ext (c c' : Cmd E Frame) p : (forall s, c s = c' s) -> runs c' p -> runs c p.
Proof. intros Hc Hr s. rewrite Hc. apply Hr. Qed.

Lemma runs_assoc {A C} (c : Cmd E A) (f : A -> Cmd E C) (g : C -> Cmd E Frame) p :
  runs (c ≫= fun a => f a ≫= g) p -> runs ((c ≫= f) ≫= g) p.
Proof. apply runs_ext. intros s. unfold mbind, Cmd_bind. by destruct (c s) as [s' [a|r|]]. Qed.

Lemma runs_early {A} f (g : A -> Cmd E Frame) : runs (return_ f ≫= g) (Answer f).
Proof. done. Qed.

Lemma runs_call {A} (m : M E A) (g : A -> Cmd E Frame) (con : A -> Reply) op next :
  exec op = con <$> m -> (forall a, runs (g a) (next (con a))) -> runs (store_call m ≫= g) (Do op next).
Proof.
  intros Hx Hg s. cbn [perform]. rewrite Hx. unfold mbind, Cmd_bind, store_call, fmap, M_fmap.
  destruct (m s) as [s' [a|e]]; [apply Hg|done].
Qed.

Lemma runs_now (g : Z -> Cmd E Frame) next :
  (forall t, runs (g (wrap_i64 t)) (next t)) -> runs (now_i64 ≫= g) (AtTime next).
Proof. intros Hg s. apply Hg. Qed.

Lemma runs_raw (g : Z -> Cmd E Frame) next :
  (forall n, runs (g n) (next n)) -> runs (store_call raw_subkey_count ≫= g) (RawCount next).
Proof.
  intros Hg s. cbn [perform]. unfold mbind, Cmd_bind, store_call.
  destruct (raw_subkey_count s) as [s' [n|e]]; [apply Hg|done].
Qed.

Lemma args_from_2 (a b : bytes) l : args_from (E := E) (a :: b :: l) 2 = mret l.
Proof. unfold args_from. destruct (decide _) as [Hl|]; [cbn in Hl; lia|done]. Qed.

Lemma args_from_1 (a : bytes) l : args_from (E := E) (a :: l) 1 = mret l.
Proof. unfold args_from. destruct (decide _) as [Hl|]; [cbn in Hl; lia|done]. Qed.

Lemma arg_nth {C} (args : list bytes) i a (f : bytes -> Cmd E C) :
  args !! i = Some a -> (arg args i ≫= f) = f a.
Proof. unfold arg. by intros ->. Qed.

Lemma arg_key {C} (n k : bytes) l (f : bytes -> Cmd E C) : (arg (n :: k :: l) 1 ≫= f) = f k.
Proof. reflexivity. Qed.

Lemma arg_field {C} (n k m : bytes) l (f : bytes -> Cmd E C) : (arg (n :: k :: m :: l) 2 ≫= f) = f m.
Proof. reflexivity. Qed.

Lemma ret_bind {A C} (a : A) (f : A -> Cmd E C) : (mret a ≫= f) = f a.
Proof. reflexivity. Qed.

(** ** The loops *)

Lemma count_keys_runs (f : bytes -> M E bool) op keys n :
  (forall k, exec (op k) = RBool <$> f k) ->
  runs (count_keys f keys n ≫= fun m => mret (Integer m)) (count_plan op keys n).
Proof.
  intros Hop. revert n. induction keys as [|k keys IH]; intros n; cbn [count_keys count_plan]; [done|].
  apply runs_assoc, runs_call with (con := RBool); [apply Hop|]. intros [|]; apply IH.
Qed.

Lemma hmget_loop_runs k fields items :
  runs (hmget_loop k fields items ≫= fun l => mret (Array l)) (fields_plan k fields items).
Proof.
  revert items. induction fields as [|f fields IH]; intros items; cbn [hmget_loop fields_plan]; [done|].
  apply runs_assoc, runs_call with (con := RValue); [done|]. intros o. destruct o; apply IH.
Qed.

Lemma set_option_unit opt :
  (if eq_ignore_ascii_case opt (B "EX") then mret 1000
   else if eq_ignore_ascii_case opt (B "PX") then mret 1 else return_ syntax_error) =
  or_return (E := E) (time_unit opt) syntax_error.
Proof. unfold time_unit. by repeat case_match. Qed.

Lemma set_options_runs k x opts t :
  runs (set_options opts t ≫= fun t => _ ← store_call (Store.set k x t); mret Frame_ok) (set_plan k x opts t).
Proof.
  remember (length opts) as m eqn:Hm. assert (length opts <= m)%nat by lia. clear Hm.
  revert opts t H1. induction m as [|m IH]; intros [|opt opts] t; cbn [length]; intros Hl; try lia;
    cbn [set_options set_plan].
  1-2: by apply runs_call with (con := fun _ => RUnit).
  apply runs_assoc. rewrite set_option_unit.
  destruct (time_unit opt) as [unit|]; cbn [or_return]; [|apply runs_early]. rewrite ret_bind.
  destruct (Z.eqb_spec t 0) as [->|Ht]; cbn [negb].
  - destruct opts as [|raw opts]; [apply runs_early|]. rewrite decide_False by (intros Hn; by apply Hn).
    apply runs_assoc. destruct (parse_i64 raw) as [n|]; cbn [or_return]; [|apply runs_early].
    rewrite ret_bind. destruct (n <=? 0); [apply runs_early|]. apply runs_assoc.
    destruct (i64_checked_mul n unit) as [delta|]; cbn [or_return]; [|apply runs_early].
    rewrite ret_bind. apply runs_assoc, runs_now. intros now. apply runs_assoc.
    destruct (i64_checked_add delta _) as [d|]; cbn [or_return]; [|apply runs_early].
    rewrite ret_bind. apply IH. cbn in Hl. lia.
  - destruct opts as [|raw opts]; [apply runs_early|]. rewrite decide_True by done. apply runs_early.
Qed.

Lemma expire_generic_runs ctx n k raw unit cmd :
  runs (expire_generic ctx [n; k; raw] unit cmd) (expire_plan unit cmd k raw).
Proof.
  unfold expire_generic, expire_plan. rewrite (arg_nth _ 2 raw) by done.
  destruct (parse_i64 raw) as [i|]; cbn [or_return]; [|apply runs_early]. rewrite ret_bind.
  destruct (i64_checked_mul i unit) as [delta|]; cbn [or_return]; [|apply runs_early]. rewrite ret_bind.
  apply runs_now. intros now. cbv zeta. rewrite (arg_nth _ 1 k) by done. by apply runs_call with (con := RBool).
Qed.

Lemma zadd_pairs_runs k l acc :
  runs (zadd_pairs l acc ≫= fun pairs => n ← store_call (Store.zadd k pairs); mret (Integer n))
    (match scored_members l with
     | Some pairs => ask (OZadd k (acc ++ pairs)) int_reply
     | None => Answer (Frame_error NOT_A_FLOAT)
     end).
Proof.
  revert acc. induction l as [|[raw m] l IH]; intros acc; cbn [zadd_pairs scored_members].
  - rewrite app_nil_r. by apply runs_call with (con := RInt).
  - apply runs_assoc. destruct (parse_score raw) as [x|]; cbn [or_return]; [|apply runs_early].
    rewrite ret_bind. specialize (IH (acc ++ [(x, m)])).
    destruct (scored_members l) as [r|]; [|done]. by rewrite <- app_assoc in IH.
Qed.

Lemma zadd_runs ctx n k raw l : runs (CmdZSet.zadd ctx (n :: k :: raw :: l)) (zadd_plan k raw l).
Proof.
  unfold CmdZSet.zadd, zadd_plan. rewrite (arg_nth _ 2 raw), args_from_2, ret_bind by done.
  destruct (existsb _ FLAGS); [done|]. cbn [orb]. destruct (negb _); [done|]. apply (zadd_pairs_runs k _ []).
Qed.

Lemma zrange_runs v n k a z opts :
  runs (CmdZSet.zrange (mk_ExecCtx v) (n :: k :: a :: z :: opts)) (zrange_plan v k a z opts).
Proof.
  unfold CmdZSet.zrange, zrange_plan. rewrite (arg_nth _ 2 a), (arg_nth _ 3 z) by done.
  destruct (parse_i64 a) as [i|]; cbn [or_return]; [|apply runs_early]. rewrite ret_bind.
  destruct (parse_i64 z) as [j|]; cbn [or_return]; [|apply runs_early]. rewrite ret_bind.
  destruct opts as [|opt [|more opts]]; cbn [lookup list_lookup].
  - by apply runs_call with (con := RScored).
  - destruct (eq_ignore_ascii_case opt _); [|apply runs_early]. by apply runs_call with (con := RScored).
  - by destruct (eq_ignore_ascii_case opt _).
Qed.

Lemma score_options_run opts ws limit :
  zrangebyscore_options (E := E) opts ws limit = or_return (score_options opts ws limit) syntax_error.
Proof.
  remember (length opts) as m eqn:Hm. assert (length opts <= m)%nat by lia. clear Hm.
  revert opts ws limit H1. induction m as [|m IH]; intros [|opt opts] ws limit; cbn [length]; intros Hl; try lia;
    cbn [zrangebyscore_options score_options]; [done..|].
  destruct (eq_ignore_ascii_case opt _); [apply IH; lia|].
  destruct (eq_ignore_ascii_case opt _); [|done]. destruct opts as [|o [|c opts]]; [done..|].
  destruct (parse_i64 o) as [i|]; [|done]. destruct (parse_i64 c) as [j|]; [|done]. cbn [or_return].
  rewrite !ret_bind. apply IH. cbn in Hl. lia.
Qed.

Lemma zrangebyscore_runs v n k mn mx opts :
  runs (zrangebyscore (mk_ExecCtx v) (n :: k :: mn :: mx :: opts)) (zrangebyscore_plan v k mn mx opts).
Proof.
  unfold zrangebyscore, zrangebyscore_plan. rewrite (arg_nth _ 2 mn) by done.
  destruct (parse_score_bound mn) as [b1|]; cbn [or_return]; [|apply runs_early].
  rewrite ret_bind, (arg_nth _ 3 mx) by done.
  destruct (parse_score_bound mx) as [b2|]; cbn [or_return drop]; [|apply runs_early].
  rewrite ret_bind, drop_0, score_options_run.
  destruct (score_options opts false None) as [[ws lim]|]; cbn [or_return]; [|apply runs_early].
  rewrite ret_bind. by apply runs_call with (con := RScored).
Qed.

Lemma pop_runs ctx cmd name left rest :
  eq_ignore_ascii_case name (B "LPOP") = left -> cmd = (if left then B "lpop" else B "rpop") -> rest <> [] ->
  runs (CmdList.pop ctx (name :: rest)) (pop_args cmd left rest).
Proof.
  intros Hleft -> Hne. unfold CmdList.pop, pop_args, pop_count. rewrite arg_name, Hleft. cbv zeta.
  destruct rest as [|k [|raw more]]; [done| |]; cbn [lookup list_lookup].
  - apply runs_call with (con := RInt); [done|]. intros n. destruct (0 <? n); cbn [negb]; [|done].
    by apply runs_call with (con := RList).
  - destruct (parse_i64 raw) as [n|]; [|apply runs_early]. destruct (0 <=? n); [|apply runs_early].
    rewrite ret_bind. destruct more as [|a more]; [|done]. rewrite decide_False by (cbn; lia).
    apply runs_call with (con := RInt); [done|]. intros m. destruct (0 <? m); cbn [negb]; [|done].
    by apply runs_call with (con := RList).
Qed.

Lemma lrange_runs ctx n k a z :
  runs (CmdList.lrange ctx [n; k; a; z])
    (match parse_i64 a, parse_i64 z with
     | Some i, Some j => ask (OLrange k i j) list_reply
     | _, _ => Answer not_an_integer
     end).
Proof.
  unfold CmdList.lrange. rewrite (arg_nth _ 2 a), (arg_nth _ 3 z) by done.
  destruct (parse_i64 a) as [i|]; cbn [or_return]; [|apply runs_early]. rewrite ret_bind.
  destruct (parse_i64 z) as [j|]; cbn [or_return]; [|apply runs_early]. rewrite ret_bind.
  by apply runs_call with (con := RList).
Qed.

Lemma hgetall_runs v n k : runs (CmdHash.hgetall (mk_ExecCtx v) [n; k]) (ask (OHgetall k) (pairs_reply v)).
Proof.
  unfold CmdHash.hgetall. rewrite arg_key. apply runs_call with (con := RPairs); [done|].
  intros l. cbn [ctx_version pairs_reply]. destruct v; [|done].
  assert (Hl : flatten_pairs ((fun kv => (bulk kv.1, bulk kv.2)) <$> l) = bulk <$> flatten_pairs l).
  { unfold flatten_pairs. induction l as [|[a b] l IH]; [done|]. cbn in *. by rewrite IH. }
  cbv zeta. rewrite Hl. done.
Qed.

Lemma hset_runs ctx name k f x more lower (show : Reply -> Frame) (is_hmset : bool) :
  eq_ignore_ascii_case name (B "HMSET") = is_hmset ->
  lower = (if is_hmset then B "hmset" else B "hset") -> show = (if is_hmset then ok_reply else int_reply) ->
  runs (CmdHash.hset ctx (name :: k :: f :: x :: more))
    (if Nat.even (length more) then ask (OHset k (chunks_exact_2 (f :: x :: more))) show
     else Answer (wrong_args lower)).
Proof.
  intros Hn -> ->. unfold CmdHash.hset. rewrite arg_name, Hn, args_from_2, ret_bind. cbv zeta.
  change (Nat.even (length (f :: x :: more))) with (Nat.even (length more)).
  destruct (Nat.even _); cbn [negb]; [|done]. rewrite arg_key.
  apply runs_call with (con := RInt); [done|]. by destruct is_hmset.
Qed.

(** ** The table *)

(** A registered handler, behind the arity check, and the meaning of its name. *)
Definition entry_runs (v : RespVersion) (e : bytes * (Z * CommandHandler E)) : Prop :=
  to_ascii_uppercase (e.1) = e.1 /\
  exists m, meaning_table v !! e.1 = Some m /\ forall rest : list bytes,
    runs (if negb (arity_matches e.2.1 (S (length rest))) then mret (wrong_args (to_ascii_lowercase e.1))
          else e.2.2 (mk_ExecCtx v) (e.1 :: rest)) (m rest).

Lemma entry_checked v name a (h : CommandHandler E) m :
  to_ascii_uppercase name = name -> meaning_table v !! name = Some m ->
  (forall rest, arity_matches a (S (length rest)) = false -> m rest = Answer (wrong_args (to_ascii_lowercase name))) ->
  (forall rest, arity_matches a (S (length rest)) = true -> runs (h (mk_ExecCtx v) (name :: rest)) (m rest)) ->
  entry_runs v (name, (a, h)).
Proof.
  intros Hn Hm Hbad Hgood. split; [done|]. exists m. split; [done|]. intros rest. cbn [fst snd].
  destruct (arity_matches a _) eqn:Ha; cbn [negb]; [by apply Hgood|]. by rewrite Hbad.
Qed.

(** The argument lists the arity admits, or those it refuses. *)
Ltac shapes rest Ha :=
  unfold arity_matches in Ha;
  match type of Ha with
  | (if ?b then _ else _) = _ => let b' := eval vm_compute in b in change b with b' in Ha
  end;
  cbv iota in Ha;
  first [apply Z.eqb_eq in Ha|apply Z.eqb_neq in Ha|apply Z.leb_le in Ha|apply Z.leb_gt in Ha];
  destruct rest as [|? [|? [|? [|? ?]]]]; cbn [length] in Ha; try (exfalso; lia).
Ltac entry :=
  apply List.Forall_cons;
  [eapply entry_checked;
    [vm_compute; reflexivity|reflexivity|intros rest Ha; by shapes rest Ha|intros rest Ha; shapes rest Ha]|].

(** A handler of one operation. *)
Ltac head_of c := match c with ?f _ => head_of f | _ => c end.
Ltac handler_call :=
  cbv beta;
  match goal with |- runs ?c _ => let h := head_of c in unfold h end;
  rewrite ?arg_name, ?args_from_2, ?args_from_1, ?ret_bind, ?arg_key, ?arg_field;
  eapply runs_call; [reflexivity|]; intros a;
  first [done|by destruct a|match goal with v : RespVersion |- _ => by destruct a, v end].

(** A handler that loops over its arguments. *)
Ltac handler_loop :=
  match goal with |- runs ?c _ => let h := head_of c in unfold h end;
  rewrite ?args_from_2, ?args_from_1, ?ret_bind, ?arg_key, ?arg_field; cbn [drop];
  first [apply set_options_runs|by apply count_keys_runs|apply hmget_loop_runs].

Lemma table_runs v : Forall (entry_runs v) spec_table.
Proof.
  unfold spec_table, expire, pexpire. repeat entry; cbn [snd].
  all: try first [done|apply expire_generic_runs|apply zrange_runs|apply zrangebyscore_runs|apply zadd_runs
    |apply lrange_runs|apply hgetall_runs|by apply hset_runs with (is_hmset := false)|by apply hset_runs with (is_hmset := true)
    |by apply pop_runs|by apply runs_raw|handler_loop|handler_call].
Qed.

(** Dispatching any command line carries out its meaning. *)
Lemma dispatch_performs v args : runs (Registry.dispatch standard (mk_ExecCtx v) args) (meaning v args).
Proof.
  destruct args as [|name rest]; [done|]. unfold Registry.dispatch. cbn [meaning].
  set (upper := to_ascii_uppercase (from_utf8_lossy name)).
  destruct (commands standard !! upper) as [spec|] eqn:Hs.
  - assert (Hf : Forall (fun e => entry_runs v e /\ name_blind e) (spec_table (E := E))).
    { rewrite list.Forall_forall. intros e He. pose proof (table_runs v) as Hr. pose proof table_name_blind as Hb.
      rewrite list.Forall_forall in Hr, Hb. auto. }
    destruct (standard_forall _ _ _ Hf Hs) as (e & [(Hup & m & Hm & Hr) [Hascii Hblind]] & Hn & ->).
    rewrite Hn, Hm. cbn [arity handler spec_of name_lower length].
    assert (Hname : to_ascii_uppercase name = e.1).
    { rewrite <- Hn. unfold upper. by rewrite lossy_ascii by (apply uppercase_ascii; fold upper; by rewrite Hn). }
    rewrite (Hblind (mk_ExecCtx v) name e.1 rest); [apply Hr|]. apply spelling_lower. by rewrite Hname, Hup.
  - destruct (meaning_table v !! upper) as [m|] eqn:Hm; [|done]. exfalso.
    apply elem_of_list_to_map_2 in Hm.
    assert (Hf : Forall (fun e => is_Some (commands (standard (E := E)) !! e.1)) (meanings v)).
    { unfold meanings. repeat (apply List.Forall_cons; [by eexists|]). constructor. }
    rewrite list.Forall_forall in Hf. destruct (Hf _ Hm) as [x Hx]. cbn [fst] in Hx. congruence.
Qed.

(** ** Plans on the database *)

(** The times the steps of a plan observe: the clock readings along its run. *)
Fixpoint observed (p : Plan) (s : St) : list (Z * Z) :=
  match p with
  | Answer _ => []
  | Do op next =>
      (peek_ms s, peek_ms2 s) ::
      match exec op s with (s', Ok r) => observed (next r) s' | (_, Err _) => [] end
  | AtTime next => (peek_ms s, peek_ms2 s) :: observed (next (peek_ms s)) (ticked s)
  | RawCount next =>
      match raw_subkey_count s with (s', Ok n) => observed (next n) s' | (_, Err _) => [] end
  end.

(** The database the steps of a plan leave. *)
Fixpoint database_after (p : Plan) (s : St) (d : Db) : Db :=
  match p with
  | Answer _ => d
  | Do op next =>
      let d1 := (spec (peek_ms s) (peek_ms2 s) op d).1 in
      match exec op s with (s', Ok r) => database_after (next r) s' d1 | (_, Err _) => d1 end
  | AtTime next => database_after (next (peek_ms s)) (ticked s) d
  | RawCount next =>
      match raw_subkey_count s with (s', Ok m) => database_after (next m) s' d | (_, Err _) => d end
  end.

Lemma raw_count_some s d : Inv s d -> exists n, raw_subkey_count s = (s, Ok n).
Proof.
  intros [B HI].
  assert (Hcount : forall l n, exists m, count_items (E := E) (Ok <$> l) n s = (s, Ok m)).
  { induction l as [|x l IH]; intros n; [by eexists|]. apply IH. }
  unfold raw_subkey_count. rewrite (bind_ok _ _ _ _ _ (engine_scan_ok s _ (inv_reliable _ _ _ HI))).
  destruct (Hcount (scan_entries [SUBKEY_PREFIX] (contents (engine s))) 0) as [n1 H1'].
  rewrite (bind_ok _ _ _ _ _ H1'). rewrite (bind_ok _ _ _ _ _ (engine_scan_ok s _ (inv_reliable _ _ _ HI))).
  apply Hcount.
Qed.

(** With a budget for a plan, and for [r] more, its steps answer as the database
    does, and the budget left is at least [r]. *)
Lemma perform_refines w r p s d :
  0 <= r -> Inv s d -> plan_within w p -> budget (w + r) s d ->
  answered p (observed p s) d (database_after p s d) (perform p s).2 /\
  Inv (perform p s).1 (database_after p s d) /\ budget r (perform p s).1 (database_after p s d).
Proof.
  intros Hr0. revert w s d. induction p as [f|op next IH|next IH|next IH]; intros w s d HI Hp Hb;
    cbn [plan_within observed perform database_after] in *.
  - split; [constructor|]. split; [done|]. eapply budget_mono; [|done]. lia.
  - destruct Hp as (Hok & Hc & Hp). pose proof (op_cost_pos op) as Hpos.
    assert (Hr : w + r - op_cost op = w - op_cost op + r) by lia.
    assert (Hle : op_cost op <= w + r) by lia.
    assert (Hv : 0 <= VERSION_CLOCK s) by (destruct HI as [B HI]; apply (inv_clock _ _ _ HI)).
    destruct (exec_refines s d op HI) as (s' & Hx & HI' & _); [by eapply op_afforded|].
    pose proof (exec_spends _ s d op Hv Hb Hok Hle) as Hb'. rewrite Hr in Hb'.
    destruct (spec (peek_ms s) (peek_ms2 s) op d) as [d1 [x|e]] eqn:Hspec; rewrite Hx in *; cbn [fst snd] in *.
    + destruct (IH x _ s' d1 HI' (Hp x) Hb') as (Ha & HI2 & Hb2). split; [by econstructor|done].
    + split; [by econstructor|]. split; [done|]. eapply budget_mono; [|done]. lia.
  - rewrite now_ms_eq. destruct (IH (peek_ms s) w (ticked s) d) as (Ha & HI2); [| |by apply budget_ticked|].
    + destruct HI as [B HI]. exists B. by apply Inv_ticked.
    + by apply Hp.
    + split; [by constructor|done].
  - destruct (raw_count_some s d HI) as [m Hm]. rewrite Hm.
    destruct (IH m w s d HI (Hp m) Hb) as (Ha & HI2). split; [by econstructor|done].
Qed.

(** C3. Every command answers as it means to: from a store that represents a
    database and has room for as many entries as the line has words, dispatching a
    command line, whatever its name, its spelling and its arguments, replies what
    the meaning of the line replies on the database at the times it observes, the
    errors of malformed lines and of wrong types included, and leaves a store that
    represents the database the meaning leaves. *)
Theorem commands_refine (v : RespVersion) (args : list bytes) (s : St) (d : Db) :
  Inv s d -> Forall valid_key args -> budget (Z.of_nat (length args)) s d ->
  exists s' o f d', Registry.dispatch standard (mk_ExecCtx v) args s = (s', o) /\ reply_of o = Some f /\
    answered (meaning v args) (observed (meaning v args) s) d d' f /\ Inv s' d'.
Proof.
  intros HI Ha Hb. destruct (dispatch_performs v args s) as [H1' H2'].
  destruct (perform_refines (Z.of_nat (length args)) 0 (meaning v args) s d ltac:(lia) HI) as (Hans & HI' & _);
    [by apply meaning_within|by rewrite Z.add_0_r|].
  destruct (Registry.dispatch standard (mk_ExecCtx v) args s) as [s' o]. cbn [fst snd] in *.
  exists s', o, (perform (meaning v args) s).2, (database_after (meaning v args) s d). by rewrite H1'.
Qed.
End Perform.

(** ** Witnesses *)

Lemma commands_refine_witness :
  let args := [B "set"; B "k"; B "v"; B "px"; B "1500"] in
  exists s' o d', Registry.dispatch standard (mk_ExecCtx V2) args steady_state = (s', o) /\
    reply_of o = Some Frame_ok /\
    answered (meaning V2 args) (observed (meaning V2 args) steady_state) ∅ d' Frame_ok /\ Inv s' d'.
Proof.
  intros args.
  assert (Hc : reply_of (Registry.dispatch standard (mk_ExecCtx V2) args steady_state).2 = Some Frame_ok)
    by (vm_compute; reflexivity).
  destruct (commands_refine V2 args steady_state ∅ steady_inv) as (s' & o & f & d' & Hd & Ho & Ha & HI).
  - repeat constructor; vm_compute; first [reflexivity|discriminate].
  - apply steady_budget. vm_compute. reflexivity.
  - exists s', o, d'. rewrite Hd in Hc. cbn [snd] in Hc. split; [exact Hd|].
    assert (Hf : f = Frame_ok) by congruence. subst f. auto.
Defined.
