(* ===== verification/Connections.v ===== *)
(** * Connections that share the store

    The server as the runtime schedules it: the loops of all connections run at
    once, and what they do to the store comes one call at a time, in any order.  A
    [Link] is one connection's loop between two such calls: it takes its next
    request, carries out the request's plan, an engine call or a clock reading at
    a turn, and answers.  A link that has the store to itself does what
    [handle_connection] does ([alone_serves]); under any fair schedule every link
    answers every request ([every_connection_served]). *)

From S2P Require Import Prelude F64 Text Frame Encoding Engine Gc Rocks Store StoreSpec StoreRep StoreInv StoreRefine.
From S2P Require Import Programs Budget Scheduling Registry Commands CommandProps CommandSpec CommandRefine Codec Server ServerProps.
From S2P Require Import SessionRefine.

Section Connections.
Context (CARGO_PKG_VERSION : bytes) {E : Type} `{EngineLaws E}.

Abbreviation St := (State E).
Implicit Types (s : St) (d : Db) (reqs : list (list bytes)).
Abbreviation react := (react CARGO_PKG_VERSION).

(** ** One connection *)

(** The plan of the current request: what is left of it, or the store operation
    it waits for. *)
Inductive Task : Type :=
  | Planned (p : Plan)
  | Calling (op : Op) (q : Prog E Reply) (next : Reply -> Plan)
  | Counting (q : Prog E Z) (next : Z -> Plan).

Record Link : Type := mk_Link {
  link_id : Z;
  speaks : RespVersion;
  task : option (Task * Reaction);
  requests : list (list bytes);
  replies : list Frame;
}.

Definition with_task (c : Link) (t : Task) (r : Reaction) : Link :=
  mk_Link (link_id c) (speaks c) (Some (t, r)) (requests c) (replies c).

(** The loop's next request; an empty one is passed over. *)
Definition take_request (c : Link) : Link :=
  match requests c with
  | [] => c
  | [] :: reqs => mk_Link (link_id c) (speaks c) None reqs (replies c)
  | args :: reqs =>
      let r := react (speaks c) (link_id c) args in
      mk_Link (link_id c) (speaks c) (Some (Planned (plan r), r)) reqs (replies c)
  end.

(** The reply is sent; HELLO switches the version, QUIT ends the loop. *)
Definition answer_request (c : Link) (f : Frame) (r : Reaction) : Link :=
  mk_Link (link_id c) (default (speaks c) (switches r)) None
    (if closes r then [] else requests c) (replies c ++ [f]).

(** A step of a program. *)
Definition program_turn {A} (s : St) (q : Prog E A) (again : Prog E A -> Task) (ok : A -> Plan) : St * Task :=
  match q with
  | Ret (Ok a) => (s, Planned (ok a))
  | Ret (Err e) => (s, Planned (Answer (engine_error e)))
  | Step C m K => let '(s', x) := m s in (s', again (K x))
  end.

Definition link_turn (s : St) (c : Link) : St * Link :=
  match task c with
  | None => (s, take_request c)
  | Some (Planned (Answer f), r) => (s, answer_request c f r)
  | Some (Planned (Do op next), r) => (s, with_task c (Calling op (program op) next) r)
  | Some (Planned (AtTime next), r) => (ticked s, with_task c (Planned (next (peek_ms s))) r)
  | Some (Planned (RawCount next), r) => (s, with_task c (Counting Steps.raw_subkey_count next) r)
  | Some (Calling op q next, r) =>
      let '(s', t) := program_turn s q (fun q' => Calling op q' next) next in (s', with_task c t r)
  | Some (Counting q next, r) =>
      let '(s', t) := program_turn s q (fun q' => Counting q' next) next in (s', with_task c t r)
  end.

(** ** All of them *)

Abbreviation Links := (Pool (S := St) (P := Link)).
Abbreviation run_links := (pool_run link_turn).

(** Connections are numbered from one as they are accepted. *)
Definition accept_link (i : nat) (reqs : list (list bytes)) : Link :=
  mk_Link (Z.of_nat i + 1) V2 None reqs [].
Definition accept_all (s : St) (scripts : list (list (list bytes))) : Links := mk_Pool s (imap accept_link scripts).

(** ** A connection alone *)

Fixpoint turns_alone (n : nat) (s : St) (c : Link) : St * Link :=
  match n with
  | O => (s, c)
  | S n => let '(s', c') := link_turn s c in turns_alone n s' c'
  end.

Lemma turns_alone_add n m s c :
  turns_alone (n + m) s c = turns_alone m (turns_alone n s c).1 (turns_alone n s c).2.
Proof. revert s c. induction n as [|n IH]; intros s c; [done|]. cbn. destruct (link_turn s c). apply IH. Qed.

(** Eventually, after some turns. *)
Definition gets_to (s : St) (c : Link) (s' : St) (c' : Link) : Prop := exists n, turns_alone n s c = (s', c').

Lemma gets_to_refl s c : gets_to s c s c.
Proof. by exists 0%nat. Qed.

Lemma gets_to_trans s1 c1 s2 c2 s3 c3 : gets_to s1 c1 s2 c2 -> gets_to s2 c2 s3 c3 -> gets_to s1 c1 s3 c3.
Proof. intros [n Hn] [m Hm]. exists (n + m)%nat. by rewrite turns_alone_add, Hn. Qed.

Lemma gets_to_turn s c s1 c1 s2 c2 : link_turn s c = (s1, c1) -> gets_to s1 c1 s2 c2 -> gets_to s c s2 c2.
Proof. intros Ht [n Hn]. exists (S n). cbn. by rewrite Ht. Qed.

Lemma with_task_again c t r t' r' : with_task (with_task c t r) t' r' = with_task c t' r'.
Proof. done. Qed.

(** A store operation whose steps come one after the other is the operation. *)
Lemma call_alone op q next s c r :
  gets_to s (with_task c (Calling op q next) r)
    (solo q s).1 (with_task c (Calling op (Ret (solo q s).2) next) r).
Proof.
  revert s. induction q as [x|C m K IH]; intros s; [apply gets_to_refl|]. cbn [solo].
  destruct (m s) as [s' x] eqn:Hm. eapply gets_to_turn; [|apply IH].
  unfold link_turn. cbn [with_task task program_turn]. by rewrite Hm.
Qed.

Lemma count_alone q next s c r :
  gets_to s (with_task c (Counting q next) r)
    (solo q s).1 (with_task c (Counting (Ret (solo q s).2) next) r).
Proof.
  revert s. induction q as [x|C m K IH]; intros s; [apply gets_to_refl|]. cbn [solo].
  destruct (m s) as [s' x] eqn:Hm. eapply gets_to_turn; [|apply IH].
  unfold link_turn. cbn [with_task task program_turn]. by rewrite Hm.
Qed.

Lemma plan_alone p s c r :
  gets_to s (with_task c (Planned p) r) (perform p s).1 (with_task c (Planned (Answer (perform p s).2)) r).
Proof.
  revert s. induction p as [f|op next IH|next IH|next IH]; intros s; cbn [perform].
  - apply gets_to_refl.
  - eapply gets_to_turn; [done|]. rewrite with_task_again.
    eapply gets_to_trans; [apply call_alone|]. rewrite same_program. destruct (exec op s) as [s' [x|e]]; cbn [fst snd].
    + eapply gets_to_turn; [done|]. apply IH.
    + eapply gets_to_turn; [done|]. apply gets_to_refl.
  - rewrite now_ms_eq. eapply gets_to_turn; [done|]. apply IH.
  - eapply gets_to_turn; [done|]. rewrite with_task_again.
    eapply gets_to_trans; [apply count_alone|]. rewrite same_raw_subkey_count.
    destruct (raw_subkey_count s) as [s' [x|e]]; cbn [fst snd].
    + eapply gets_to_turn; [done|]. apply IH.
    + eapply gets_to_turn; [done|]. apply gets_to_refl.
Qed.

(** C29. A connection that has the store to itself is the connection loop: turn
    after turn it comes to the store that [handle_connection] leaves, with the
    replies of the session, all requests answered. *)
Theorem alone_serves (conn_id : Z) (reqs : list (list bytes)) (c : Conn) (d : Db) (out : list Frame) :
  Inv (store c) d -> Forall (Forall valid_key) reqs -> budget (words reqs) (store c) d ->
  exists v, gets_to (store c) (mk_Link conn_id (codec_version (codec c)) None reqs out)
    (store (handle_connection CARGO_PKG_VERSION standard conn_id (deliver reqs) c).1)
    (mk_Link conn_id v None []
      (out ++ session CARGO_PKG_VERSION conn_id reqs (codec_version (codec c)) (store c))).
Proof.
  intros HI Hreqs. revert c d out HI. induction Hreqs as [|args reqs Hargs Hreqs IH]; intros c d out HI Hb.
  { eexists. cbn [session]. rewrite app_nil_r. apply gets_to_refl. }
  destruct args as [|a0 args].
  { destruct (IH c d out HI Hb) as [v Hv]. exists v. eapply gets_to_turn; [done|exact Hv]. }
  unfold deliver. cbn [session fmap list_fmap handle_connection handle_event].
  set (r := react (codec_version (codec c)) conn_id (a0 :: args)) in *.
  rewrite (serve_performs CARGO_PKG_VERSION (codec_version (codec c)) conn_id (a0 :: args) (store c) d) by done.
  fold r. cbv zeta.
  destruct (perform_refines (Z.of_nat (length (a0 :: args))) (words reqs) (plan r) (store c) d) as (_ & HI1 & Hrest);
    [apply words_nonneg|done|by apply react_within|done|].
  cbn [reply set_version close send codec sent_bytes store].
  set (l := mk_Link conn_id (codec_version (codec c)) None ((a0 :: args) :: reqs) out).
  assert (Hdone : gets_to (store c) l (perform (plan r) (store c)).1
    (answer_request (mk_Link conn_id (codec_version (codec c)) None reqs out) (perform (plan r) (store c)).2 r)).
  { eapply gets_to_turn; [done|]. eapply gets_to_trans; [apply (plan_alone (plan r) _ (mk_Link _ _ None reqs out) r)|].
    eapply gets_to_turn; [done|apply gets_to_refl]. }
  unfold answer_request in Hdone. cbn [link_id speaks requests replies] in Hdone.
  destruct (closes r) eqn:Hc; [by eexists|].
  match goal with |- context [handle_connection _ _ _ _ ?c'] =>
    destruct (IH c' (database_after (plan r) (store c) d) (out ++ [(perform (plan r) (store c)).2])) as [v Hv];
      [done|done|] end.
  cbn [codec store] in Hv.
  assert (Hver : codec_version (match switches r with Some w => CommandCodec_set_version (codec c) w | None => codec c end) =
    default (codec_version (codec c)) (switches r)) by (by destruct (switches r)).
  rewrite Hver in Hv. unfold reply_version. cbn [set_version]. exists v.
  eapply gets_to_trans; [exact Hdone|]. by rewrite <- app_assoc in Hv.
Qed.

(** ** Every connection is served *)

Definition link_done (c : Link) : Prop := task c = None /\ requests c = [].
#[export] Instance link_done_dec c : Decision (link_done c).
Proof. unfold link_done. destruct (task c) as [[]|], (requests c); first [left; done|right; by intros [? ?]]. Defined.

Lemma link_done_stays s c : link_done c -> (link_turn s c).2 = c.
Proof. intros [Ht Hr]. unfold link_turn. rewrite Ht. cbn. unfold take_request. by rewrite Hr. Qed.

(** The requests are finitely many, and a plan is a finite tree of operations,
    each a finite tree of steps. *)
Lemma task_ends id reqs r :
  (forall v out reqs', (length reqs' <= length reqs)%nat -> Acc (goes_on link_turn link_done) (mk_Link id v None reqs' out)) ->
  forall p v out, Acc (goes_on link_turn link_done) (mk_Link id v (Some (Planned p, r)) reqs out).
Proof.
  intros Hrest p v out.
  assert (Hanswer : forall f, Acc (goes_on link_turn link_done) (mk_Link id v (Some (Planned (Answer f), r)) reqs out)).
  { intros f. constructor. intros c' [_ [s ->]]. cbn. apply Hrest. destruct (closes r); cbn; lia. }
  induction p as [f|op next IH|next IH|next IH]; [apply Hanswer|..];
    constructor; intros c' [_ [s ->]]; cbn [link_turn task snd with_task link_id speaks requests replies].
  - generalize (program (E := E) op). intros q. induction q as [[x|e]|C m K IHq]; constructor; intros c' [_ [s' ->]];
      cbn [link_turn task snd program_turn with_task link_id speaks requests replies]; [apply IH|apply Hanswer|].
    destruct (m s') as [s2 x]. apply IHq.
  - apply IH.
  - generalize (Steps.raw_subkey_count (E := E)). intros q.
    induction q as [[x|e]|C m K IHq]; constructor; intros c' [_ [s' ->]];
      cbn [link_turn task snd program_turn with_task link_id speaks requests replies]; [apply IH|apply Hanswer|].
    destruct (m s') as [s2 x]. apply IHq.
Qed.

Lemma idle_link_ends id reqs v out : Acc (goes_on link_turn link_done) (mk_Link id v None reqs out).
Proof.
  remember (length reqs) as n eqn:Hn. assert (Hle : (length reqs <= n)%nat) by lia. clear Hn.
  revert reqs v out Hle. induction n as [|n IH]; intros reqs v out Hle; constructor; intros c' [Hnot [s ->]];
    (destruct reqs as [|[|a args] reqs]; [by destruct Hnot|..]); cbn [length] in Hle; try lia;
    cbn [link_turn task take_request requests snd link_id speaks replies].
  - apply IH. lia.
  - apply task_ends. intros v' out' reqs' Hl. apply IH. lia.
Qed.

(** The replies a sequence of requests is due: one for each, up to the one that
    closes the connection. *)
Fixpoint due (reqs : list (list bytes)) : nat :=
  match reqs with
  | [] => 0
  | [] :: reqs => due reqs
  | args :: reqs => S (if bool_decide (verb args = B "QUIT") then 0 else due reqs)
  end.

Definition owed (c : Link) : nat :=
  match task c with
  | None => due (requests c)
  | Some (_, r) => S (if closes r then 0 else due (requests c))
  end.

Lemma react_closes v id args : closes (react v id args) = bool_decide (verb args = B "QUIT").
Proof.
  unfold react, SessionRefine.react. cbv zeta.
  destruct (decide (verb args = B "QUIT")) as [Hq|Hq]; [by rewrite Hq|].
  rewrite (bool_decide_eq_false_2 (verb args = B "QUIT")) by done. by repeat case_bool_decide.
Qed.

(** A turn that answers is the only one that settles what is owed. *)
Lemma step_owes c c' : party_step link_turn c c' -> (length (replies c') + owed c' = length (replies c) + owed c)%nat.
Proof.
  intros [s ->]. destruct c as [id v [[t r]|] reqs out]; cbn [link_turn task].
  - destruct t as [[f|op next|next|next]|op [[x|e]|C m K] next|[[x|e]|C m K] next]; cbn;
      try (destruct (m s) as [s' x]); try done.
    rewrite length_app. cbn. destruct (closes r); cbn; lia.
  - destruct reqs as [|[|a args] reqs]; cbn [take_request requests snd owed task replies due]; try done.
    by rewrite react_closes.
Qed.

(** C17. Nobody starves: under any endless schedule that keeps giving every
    connection its turns there comes a time from which on every connection has
    answered every request it received, each with one reply, up to the one that
    closes it. *)
Theorem every_connection_served (turns : nat -> nat) (s : St) (scripts : list (list (list bytes))) :
  (forall i, (i < length scripts)%nat -> fair_to turns i) ->
  exists n, forall m i reqs, (n <= m)%nat -> scripts !! i = Some reqs ->
    exists c, parties (after_turns link_turn turns (accept_all s scripts) m) !! i = Some c /\
      task c = None /\ requests c = [] /\ length (replies c) = due reqs.
Proof.
  intros Hfair. destruct (fair_ends link_turn turns (accept_all s scripts) link_done link_done_stays) as [n Hn].
  - intros i Hi. apply Hfair. cbn [parties accept_all] in Hi. by rewrite length_imap in Hi.
  - intros c Hc. apply list_elem_of_lookup in Hc as [i Hi]. cbn [parties accept_all] in Hi.
    rewrite list_lookup_imap in Hi. apply fmap_Some in Hi as (reqs & _ & ->). apply idle_link_ends.
  - exists n. intros m i reqs Hm Hreqs. destruct (Hn m i (accept_link i reqs) Hm) as (c & Hc & [Ht Hq] & Hr).
    { cbn [parties accept_all]. by rewrite list_lookup_imap, Hreqs. }
    exists c. split; [done|]. split; [done|]. split; [done|].
    assert (Hs : (length (replies c) + owed c = length (replies (accept_link i reqs)) + owed (accept_link i reqs))%nat).
    { clear -Hr. induction Hr as [|c1 c2 c3 Hs _ IH]; [done|]. rewrite IH. by apply step_owes. }
    unfold owed in Hs at 1. rewrite Ht, Hq in Hs. cbn in Hs. lia.
Qed.
End Connections.

(** ** Witnesses *)

(** Words of less than a hundred bytes. *)
Lemma short_words (reqs : list (list bytes)) :
  Forall (Forall (fun k => (length k < 100)%nat)) reqs -> Forall (Forall valid_key) reqs.
Proof.
  intros Hshort. eapply List.Forall_impl; [|exact Hshort]. intros args Hargs.
  eapply List.Forall_impl; [|exact Hargs]. intros k Hk. cbv beta in Hk. unfold valid_key, in_u32. lia.
Qed.

(** Two clients on one list; the second one is closed before its last request. *)
Definition demo_two : list (list (list bytes)) :=
  [[[B "RPUSH"; B "l"; B "x"]; []; [B "LPOP"; B "l"]]; [[B "LLEN"; B "l"]; [B "QUIT"]; [B "PING"]]].

Lemma every_connection_served_witness :
  exists n, forall m, (n <= m)%nat ->
    let p := after_turns (link_turn (B "0.1")) (fun n => (n mod 2)%nat) (accept_all steady_state demo_two) m in
    (exists c, parties p !! 0%nat = Some c /\ task c = None /\ length (replies c) = 2%nat) /\
    (exists c, parties p !! 1%nat = Some c /\ task c = None /\ length (replies c) = 2%nat).
Proof.
  destruct (every_connection_served (B "0.1") (fun n => (n mod 2)%nat) steady_state demo_two) as [n Hn].
  - intros i Hi n. exists (i + n * 2)%nat. split; [lia|]. rewrite Nat.Div0.mod_add. apply Nat.mod_small. exact Hi.
  - exists n. intros m Hm. cbv zeta. split.
    + destruct (Hn m 0%nat _ Hm eq_refl) as (c & Hc & Ht & _ & Hl). exists c. auto.
    + destruct (Hn m 1%nat _ Hm eq_refl) as (c & Hc & Ht & _ & Hl). exists c. auto.
Defined.

Lemma alone_serves_witness :
  exists v s', gets_to (B "0.1") steady_state
    (mk_Link 7 V2 None [[B "RPUSH"; B "l"; B "x"]; []; [B "LPOP"; B "l"]] []) s'
    (mk_Link 7 v None [] [Integer 1; Bulk (B "x")]).
Proof.
  set (reqs := [[B "RPUSH"; B "l"; B "x"]; []; [B "LPOP"; B "l"]]).
  assert (Hs : session (B "0.1") 7 reqs V2 steady_state = [Integer 1; Bulk (B "x")]) by (vm_compute; reflexivity).
  assert (Hv : Forall (Forall valid_key) reqs)
    by (apply short_words, (bool_decide_unpack _); vm_compute; exact I).
  destruct (alone_serves (B "0.1") 7 reqs (accepted steady_state) ∅ [] steady_inv Hv) as [v Hg].
  - apply steady_budget. vm_compute. reflexivity.
  - exists v. eexists. change (codec_version (codec (accepted steady_state))) with V2 in Hg.
    change (store (accepted steady_state)) with steady_state in Hg. rewrite Hs in Hg. exact Hg.
Defined.
