(* ===== verification/Namespaces.v ===== *)
(** * Connections with keys of their own

    A connection whose keys no other connection uses is served as if the others
    were not there.  Whatever the others do to their keys, and however the runtime
    interleaves the calls on the store, the replies it receives are those of its
    session on the abstract database ([private_keys_session]): the server keeps
    the promise of [server_refines] to any number of connections at once, as long
    as their keys are apart. *)

From S2P Require Import Prelude F64 Text Frame Encoding Engine Gc Rocks Store StoreSpec StoreRep StoreInv StoreGeneric.
From S2P Require Import StoreRefine StoreDurability Programs Locality Scheduling KeyFrame Budget Isolation Registry Commands.
From S2P Require Import CommandProps CommandSpec CommandRefine Codec Server ServerProps SessionRefine Connections.

Section Namespaces.
Context (CARGO_PKG_VERSION : bytes) {E : Type} `{EngineLaws E}.

Abbreviation St := (State E).
Implicit Types (k : bytes) (s : St) (d : Db) (K : bytes -> Prop).
Abbreviation react := (react CARGO_PKG_VERSION).
Abbreviation Link := (Link (E := E)).
Abbreviation link_turn := (link_turn CARGO_PKG_VERSION (E := E)).
Abbreviation session_answered := (session_answered CARGO_PKG_VERSION).

(** ** The keys a connection uses *)

(** Every operation a plan asks for, whatever the answers to the ones before, is on
    a key in [K]. *)
Fixpoint plan_on (K : bytes -> Prop) (p : Plan) : Prop :=
  match p with
  | Answer _ => True
  | Do op next => (exists k, op_target op = Some k /\ valid_key k /\ K k) /\ forall r, plan_on K (next r)
  | AtTime next => forall t, plan_on K (next t)
  | RawCount _ => False
  end.

Lemma plan_on_ext (K1 K2 : bytes -> Prop) p : (forall k, K1 k -> K2 k) -> plan_on K1 p -> plan_on K2 p.
Proof using Type.
  intros HK. induction p as [f|op next IH|next IH|next _]; cbn; [done| |by eauto|done].
  intros [(k & Hop & Hk & HK1) Hn]. split; [exists k; auto|by eauto].
Qed.

Definition request_on (K : bytes -> Prop) (id : Z) (args : list bytes) : Prop :=
  forall v, plan_on K (plan (react v id args)).

Definition task_on (K : bytes -> Prop) (t : Task (E := E)) : Prop :=
  match t with
  | Planned p => plan_on K p
  | Calling op q next =>
      (exists k b, op_target op = Some k /\ valid_key k /\ K k /\ local k (fun _ => True) b q) /\
      forall r, plan_on K (next r)
  | Counting _ _ => False
  end.

Definition link_on (K : bytes -> Prop) (c : Link) : Prop :=
  Forall (request_on K (link_id c)) (requests c) /\
  match task c with Some (t, _) => task_on K t | None => True end.

(** The key of the operation in progress. *)
Definition busy_on (c : Link) : option bytes :=
  match task c with Some (Calling op _ _, _) => op_target op | _ => None end.

Lemma link_busy K c k : link_on K c -> busy_on c = Some k -> K k.
Proof.
  intros [_ Ht] Hb. unfold busy_on in Hb. destruct (task c) as [[[p|op q next|q next] r]|]; try done.
  destruct Ht as [(k' & b & Hk & _ & HK & _) _]. congruence.
Qed.

Lemma link_on_skip K c : link_on K c -> task c = None -> link_on K (take_request CARGO_PKG_VERSION c).
Proof.
  intros [Hr Ht] Hnone. unfold take_request. destruct (requests c) as [|[|a args] reqs] eqn:Hreqs.
  - split; [by rewrite Hreqs|done].
  - apply Forall_cons in Hr as [_ Hr]. by split.
  - apply Forall_cons in Hr as [Ha Hr]. split; [done|]. apply Ha.
Qed.

(** A turn keeps to the keys, and leaves all but the key it is working on alone. *)
Lemma link_turn_spares K s c s' c' :
  link_on K c -> link_turn s c = (s', c') -> 0 <= VERSION_CLOCK s -> clock_left s -> reliable (engine s) ->
  link_on K c' /\ reliable (engine s') /\ later s s' /\ VERSION_CLOCK s <= VERSION_CLOCK s' /\
  (forall k, valid_key k -> busy_on c <> Some k -> others k s s').
Proof.
  intros Hon Ht Hpos Hc Hr. assert (Hsame : forall k, others k s s) by by intros; apply others_refl.
  unfold Connections.link_turn in Ht. destruct (task c) as [[t r]|] eqn:Htask.
  - assert (Hon' := Hon). destruct Hon' as [Hreqs Ht']. rewrite Htask in Ht'.
    unfold busy_on. rewrite Htask. destruct t as [[f|op next|next|next]|op q next|q next]; cbn [task_on plan_on] in Ht'.
    + injection Ht as <- <-. split; [|by split_and!]. split; [|done]. cbn. by destruct (closes r).
    + injection Ht as <- <-. split; [|by split_and!]. split; [done|]. destruct Ht' as [(k & Hk & Hval & HK) Hn].
      split; [|done]. exists k, true. split_and!; [done..|]. by apply local_program.
    + injection Ht as <- <-. split; [split; [done|apply Ht']|].
      split; [done|]. split; [apply later_ticked|]. split; [cbn; lia|]. intros k _ _.
      split; [by split|]. split; [apply later_ticked|cbn; lia].
    + done.
    + destruct Ht' as [(k & b & Hk & Hval & HK & Hl) Hn]. destruct q as [[x|e]|C m K']; cbn [program_turn] in Ht.
      * injection Ht as <- <-. split; [split; [done|apply Hn]|by split_and!].
      * injection Ht as <- <-. split; [by split|by split_and!].
      * destruct (m s) as [s1 x] eqn:Hm. injection Ht as <- <-.
        destruct (step_spares k _ b m K' s s1 x Hl Hm Hpos) as (Hsp & Hr1 & Hlat & Hv & b' & Hl' & _); [done..|].
        split; [split; [done|]; split; [by exists k, b'|done]|]. split_and!; [done..|].
        intros k' Hk' Hne. apply Hsp; [done|]. intros ->. by destruct Hne.
    + done.
  - injection Ht as <- <-. split; [by apply link_on_skip|by split_and!].
Qed.

(** ** What a connection may still cost *)

Definition task_within (w : Z) (t : Task (E := E)) : Prop :=
  match t with
  | Planned p => plan_within w p
  | Calling op q next =>
      exists k b n, local k (fun _ => True) b q /\ Z.b2z b + n <= w /\ forall r, plan_within n (next r)
  | Counting _ _ => False
  end.

Definition link_within (c : Link) (w : Z) : Prop :=
  Forall (Forall valid_key) (requests c) /\
  exists n, 0 <= n /\ w = n + words (requests c) /\
    match task c with Some (t, _) => task_within n t | None => True end.

Lemma link_within_nonneg c w : link_within c w -> 0 <= w.
Proof. intros (_ & n & Hn & -> & _). pose proof (words_nonneg (requests c)). lia. Qed.

Lemma plan_within_nonneg w p : plan_within w p -> 0 <= w.
Proof.
  induction p as [f|op next _|next IH|next IH]; cbn; [done| |intros Hp; by apply (IH 0)..].
  intros (_ & Hc & _). pose proof (op_cost_pos op). lia.
Qed.

Lemma take_request_within c w :
  link_within c w -> task c = None -> link_within (take_request CARGO_PKG_VERSION c) w.
Proof.
  intros (Hv & n & Hn & -> & Ht) Hnone. rewrite Hnone in Ht. unfold take_request.
  destruct (requests c) as [|[|a args] reqs] eqn:Hreqs.
  - split; [by rewrite Hreqs|]. exists n. by rewrite Hreqs, Hnone.
  - apply Forall_cons in Hv as [_ Hv]. split; [done|]. by exists n.
  - apply Forall_cons in Hv as [Ha Hv]. split; [done|]. exists (n + Z.of_nat (length (a :: args))).
    cbn [requests task words]. split; [lia|]. split; [lia|]. cbn [task_within].
    eapply plan_within_mono; [by apply react_within|lia].
Qed.

(** A turn costs what the connection may cost less afterwards, a version at most. *)
Lemma link_turn_within K s c s' c' w :
  link_on K c -> link_within c w -> link_turn s c = (s', c') -> 0 <= VERSION_CLOCK s ->
  exists w', link_within c' w' /\ w' <= w /\ one_version (bool_decide (w' < w)) s s'.
Proof.
  intros [_ Hon] Hw Ht Hpos. unfold Connections.link_turn in Ht. destruct (task c) as [[t r]|] eqn:Htask.
  2: { injection Ht as <- <-. exists w. split; [by apply take_request_within|]. split; [done|apply one_version_refl]. }
  assert (Hkeep : forall t', task_within (w - words (requests c)) t' -> link_within (with_task c t' r) w).
  { intros t' Ht'. destruct Hw as (Hv & n & Hn & -> & _). split; [done|]. exists n.
    split; [done|]. split; [done|]. by replace (n + _ - _) with n in Ht' by (cbn; lia). }
  assert (Hw' := Hw). destruct Hw' as (Hv & n & Hn & Hwn & Htw). rewrite Htask in Htw.
  replace (w - words (requests c)) with n in Hkeep by lia.
  destruct t as [[f|op next|next|next]|op q next|q next]; cbn [task_within plan_within task_on plan_on] in *; try done.
  - injection Ht as <- <-. exists (words (if closes r then [] else requests c)).
    pose proof (words_nonneg (requests c)). split; [|split; [destruct (closes r); cbn; lia|apply one_version_refl]].
    split; [cbn; by destruct (closes r)|]. exists 0. by cbn.
  - injection Ht as <- <-. exists w. split; [|split; [done|apply one_version_refl]]. apply Hkeep.
    destruct Htw as (Hok & Hc & Hnext), Hon as [(k & Hk & Hval & _) _]. pose proof (op_cost_pos op).
    exists k, true, (n - op_cost op). split; [by apply local_program|]. split; [cbn; lia|done].
  - injection Ht as <- <-. exists w. split; [by apply Hkeep; cbn; apply Htw|]. split; [done|].
    split; [apply later_ticked|by left].
  - destruct Htw as (k & b & n0 & Hl & Hb & Hnext). pose proof (plan_within_nonneg _ _ (Hnext RUnit)) as Hn0.
    destruct q as [[x|e]|C m K']; cbn [program_turn] in Ht.
    + injection Ht as <- <-. exists w. split; [|split; [done|apply one_version_refl]]. apply Hkeep.
      eapply plan_within_mono; [apply Hnext|]. destruct b; cbn in *; lia.
    + injection Ht as <- <-. exists w. split; [|split; [done|apply one_version_refl]]. by apply Hkeep.
    + destruct (m s) as [s1 x] eqn:Hm. injection Ht as <- <-.
      destruct (step_takes k _ b C m K' s s1 x Hl Hm Hpos) as (b' & Hl' & Hb' & Hone).
      exists (w - (Z.b2z b - Z.b2z b')). split; [|split; [lia|]].
      * split; [done|]. exists (n - (Z.b2z b - Z.b2z b')). split; [destruct b, b'; cbn in *; lia|].
        split; [cbn; lia|]. exists k, b', n0. split; [done|]. split; [lia|done].
      * rewrite (bool_decide_ext _ (Z.b2z b' < Z.b2z b)) by lia. done.
Qed.

(** ** The store holds a set of keys *)

Definition holds_entry (k : bytes) (s : St) (o : option Obj) : Prop := exists d, holds k s d /\ d !! k = o.

(** ... as the database [d] does. *)
Definition holds_keys (K : bytes -> Prop) (s : St) (d : Db) : Prop :=
  forall k, K k -> valid_key k -> holds_entry k s (d !! k).

Lemma Inv_holds_keys K s d : Inv s d -> holds_keys K s d.
Proof. intros HI k _ _. exists d. split; [by apply Inv_holds|done]. Qed.

Lemma holds_entry_others k s s' o : holds_entry k s o -> others k s s' -> clock_left s' -> holds_entry k s' o.
Proof. intros (d & Hh & Hd) Ho Hc. exists d. split; [by eapply holds_others|done]. Qed.

Lemma op_pre_entry k op s d1 d2 : op_target op = Some k -> d1 !! k = d2 !! k -> op_pre s d1 op -> op_pre s d2 op.
Proof. intros Hk Hd. destruct op; try done; injection Hk as ->; cbn [op_pre]; by rewrite Hd. Qed.

(** The operation on one of the keys, in terms of the database of all of them. *)
Lemma entry_answered op k s s' r d :
  op_target op = Some k -> valid_key k -> holds_entry k s (d !! k) -> clock_left s' -> op_pre s' d op ->
  clock s' = clock s -> VERSION_CLOCK s <= VERSION_CLOCK s' -> among k (program op) s (Ret r) s' ->
  exists i j, (tick s <= i <= j)%nat /\ (i <= tick s')%nat /\ (j <= S (tick s'))%nat /\
    r = (spec (time_at s i) (time_at s j) op d).2 /\
    holds_entry k s' ((spec (time_at s i) (time_at s j) op d).1 !! k).
Proof.
  intros Hop Hk (dk & Hh & Hd) Hc Hpre Hck Hv Hrun.
  destruct (operation_isolated op k s s' r dk) as (i & j & Hij & Hi & Hj & -> & Hh'); try done.
  { by eapply (op_pre_entry k op s' d). }
  destruct (on_key_same _ _ (spec_on_key (time_at s i) (time_at s j) op k Hop) dk d Hd) as [He Hr].
  exists i, j. split_and!; try done; try lia. eexists. split; [exact Hh'|done].
Qed.

(** ** Times read one after the other *)

(** The times [ts] are clock readings of a run, each pair made after the one
    before; positions are in the sequence of readings. *)
Inductive readings (s : St) (lo : nat) : list (Z * Z) -> nat -> Prop :=
  | readings_nil : readings s lo [] lo
  | readings_snoc ts mid hi a b :
      readings s lo ts mid -> (mid <= a <= b)%nat -> (a <= hi)%nat -> (b <= S hi)%nat ->
      readings s lo (ts ++ [(time_at s a, time_at s b)]) hi.

Lemma readings_prefix s lo ts ts' hi : readings s lo (ts ++ ts') hi -> exists mid, readings s lo ts mid /\ (mid <= hi)%nat.
Proof.
  revert hi. induction ts' as [|t ts' IH] using rev_ind; intros hi Hr; [exists hi; by rewrite app_nil_r in Hr|].
  rewrite app_assoc in Hr. inversion Hr as [Hnil|l mid hi' a b Hl Hab Ha Hb Heq]; [by destruct (ts ++ ts')|].
  apply app_inj_tail in Heq as [-> _]. destruct (IH mid Hl) as (m & Hm & Hle). exists m. split; [done|lia].
Qed.

(** ** The private connection *)

Section Private.
Context (K : bytes -> Prop) (id : Z) (s0 : St) (d0 : Db) (reqs0 : list (list bytes)).
Context (reqs0_valid : Forall (Forall valid_key) reqs0).

(** The session so far: answered, and open to whatever follows. *)
Definition resumes (v : RespVersion) (done : list (list bytes)) (tss : list (list (Z * Z))) (d : Db) (sent : list Frame) : Prop :=
  forall reqs2 tss2 d2 fs2, session_answered id v reqs2 tss2 d d2 fs2 ->
    session_answered id V2 (done ++ reqs2) (tss ++ tss2) d0 d2 (sent ++ fs2).

(** The current request so far. *)
Definition carries (p0 p : Plan) (ts : list (Z * Z)) (d1 d : Db) : Prop :=
  forall ts2 d2 f, answered p ts2 d d2 f -> answered p0 (ts ++ ts2) d1 d2 f.

(** The request that ended the session. *)
Definition ended_by (done : list (list bytes)) : Prop := exists args, last done = Some args /\ verb args = B "QUIT".

(** Between requests. *)
Definition at_rest (s : St) (c : Link) (tss : list (list (Z * Z))) (mid : nat) (d : Db) (w : Z) : Prop :=
  readings s0 (tick s0) (concat tss) mid /\ (mid <= tick s)%nat /\ holds_keys K s d /\ words (requests c) <= w /\
  exists done,
    (reqs0 = done ++ requests c /\ resumes (speaks c) done tss d (replies c)) \/
    (exists rest, reqs0 = done ++ rest /\ requests c = [] /\ ended_by done /\
       session_answered id V2 done tss d0 d (replies c)).

(** The store while an operation is in progress: it held the operation's key when
    it began, in [s1]. *)
Definition in_call (s s1 : St) (op : Op) (q : Prog E Reply) (d : Db) : Prop :=
  exists k b, op_target op = Some k /\ valid_key k /\ local k (fun _ => True) b q /\
    holds_entry k s1 (d !! k) /\ among k (program op) s1 q s /\
    clock s1 = clock s0 /\ later s1 s /\ VERSION_CLOCK s1 <= VERSION_CLOCK s /\
    forall k', K k' -> valid_key k' -> k' <> k -> holds_entry k' s (d !! k').

(** During a request. *)
Definition at_work (s : St) (t : Task (E := E)) (ts : list (Z * Z)) (p0 : Plan) (mid : nat) (d1 d : Db) (w : Z) : Prop :=
  match t with
  | Planned p => (mid <= tick s)%nat /\ holds_keys K s d /\ plan_within w p /\ carries p0 p ts d1 d
  | Calling op q next =>
      op_ok op /\ op_cost op <= w /\ (forall r, plan_within (w - op_cost op) (next r)) /\
      carries p0 (Do op next) ts d1 d /\
      exists s1, (mid <= tick s1)%nat /\ in_call s s1 op q d
  | Counting _ _ => False
  end.

Definition private (s : St) (c : Link) : Prop :=
  link_id c = id /\ clock s = clock s0 /\
  exists tss mid d w, w < 2 ^ 32 /\ spare w d /\
    match task c with
    | None => at_rest s c tss mid d w
    | Some (t, r) =>
        exists done args ts d1, reqs0 = done ++ args :: requests c /\ args <> [] /\ Forall valid_key args /\
          r = react (speaks c) id args /\ resumes (speaks c) done tss d1 (replies c) /\
          readings s0 (tick s0) (concat tss ++ ts) mid /\
          exists n, n + words (requests c) <= w /\ at_work s t ts (plan r) mid d1 d n
    end.

(** *** What the others do *)

Definition spares_keys (s s' : St) : Prop := forall k, K k -> valid_key k -> others k s s'.

Lemma holds_keys_others s s' d : holds_keys K s d -> spares_keys s s' -> clock_left s' -> holds_keys K s' d.
Proof using Type. intros Hh Ho Hc k HK Hk. by eapply holds_entry_others; [apply Hh|apply Ho|]. Qed.

Lemma in_call_others s s1 s' op q d k :
  in_call s s1 op q d -> op_target op = Some k -> K k -> spares_keys s s' -> later s s' ->
  VERSION_CLOCK s <= VERSION_CLOCK s' -> clock_left s' -> in_call s' s1 op q d.
Proof using Type.
  intros (k1 & b & Hop & Hk & Hl & He & Ha & Hck & Hlat & Hv & Hkeys) Hop' HK Ho Hlat' Hv' Hc.
  replace k1 with k in * by congruence. exists k, b. split_and!; try done; [|by etransitivity|lia|].
  - eapply among_others; [done|by apply Ho].
  - intros k' HK' Hk' Hne. eapply holds_entry_others; [by apply Hkeys|by apply Ho|done].
Qed.

Lemma private_others s s' c :
  private s c -> link_on K c -> spares_keys s s' -> later s s' -> VERSION_CLOCK s <= VERSION_CLOCK s' ->
  clock_left s' -> private s' c.
Proof using Type.
  intros (Hid & Hck & tss & mid & d & w & Hw & Hs & Hcur) [_ Hon] Ho Hlat Hv Hc.
  assert (Htick : (tick s <= tick s')%nat) by apply Hlat.
  split; [done|]. split; [destruct Hlat; congruence|]. exists tss, mid, d, w. split; [done|]. split; [done|].
  destruct (task c) as [[t r]|].
  - destruct Hcur as (done & args & ts & d1 & Hreqs & Hne & Hval & Hr & Hres & Hread & n & Hn & Hwork).
    exists done, args, ts, d1. split_and!; try done. exists n. split; [done|].
    destruct t as [p|op q next|q next]; cbn [at_work task_on] in *; [..|done].
    + destruct Hwork as (Hm & Hh & Hp). split; [lia|]. split; [by eapply holds_keys_others|done].
    + destruct Hwork as (Hok & Hcost & Hnext & Hcar & s1 & Hm & Hcall). split_and!; try done.
      exists s1. split; [done|]. destruct Hon as [(k & b & Hop & Hk & HK & _) _]. by eapply in_call_others.
  - destruct Hcur as (Hread & Hm & Hh & Hcost & Hdone). split; [done|]. split; [lia|].
    split; [by eapply holds_keys_others|done].
Qed.

(** *** Its own turns *)

Lemma resumes_answered v done tss d sent :
  resumes v done tss d sent -> session_answered id V2 done tss d0 d sent.
Proof using Type. intros Hr. specialize (Hr [] [] d [] (session_over _ _ _ _)). by rewrite !app_nil_r in Hr. Qed.

(** It passes over an empty request or begins the next one. *)
Lemma private_rest s c :
  private s c -> task c = None -> private s (take_request CARGO_PKG_VERSION c).
Proof using reqs0_valid.
  intros Hp Ht. assert (Hp' := Hp). destruct Hp' as (Hid & Hck & tss & mid & d & w & Hw & Hs & Hcur).
  rewrite Ht in Hcur. destruct Hcur as (Hread & Hm & Hh & Hcost & done & Hdone).
  unfold take_request. destruct (requests c) as [|args reqs] eqn:Hreqs; [done|].
  destruct Hdone as [[Hreq Hres]|(rest & _ & Hnil & _)]; [|done].
  destruct args as [|a args].
  - split; [done|]. split; [done|]. exists tss, mid, d, w. split; [done|]. split; [done|].
    split; [done|]. split; [done|]. split; [done|]. split; [done|]. exists (done ++ [[]]). left.
    cbn [requests speaks replies]. split; [by rewrite <- app_assoc|].
    intros reqs2 tss2 d2 fs2 Hs2. rewrite <- app_assoc. apply Hres. by apply session_empty.
  - split; [done|]. split; [done|]. exists tss, mid, d, w. split; [done|]. split; [done|].
    cbn [task speaks requests replies].
    exists done, (a :: args), [], d. cbn [words] in Hcost.
    assert (Hval : Forall valid_key (a :: args)).
    { rewrite Hreq in reqs0_valid. apply Forall_app in reqs0_valid as [_ Hv]. by apply Forall_cons in Hv as [Hv _]. }
    split_and!; [done..|by rewrite Hid|done|by rewrite app_nil_r|].
    exists (Z.of_nat (length (a :: args))). split; [done|]. split; [done|]. split; [done|].
    split; [by apply react_within|]. by intros ts2 d2 f Hf.
Qed.

(** It answers. *)
Lemma private_answer s c f r :
  private s c -> task c = Some (Planned (Answer f), r) -> private s (answer_request c f r).
Proof using Type.
  intros (Hid & Hck & tss & mid & d & w & Hw & Hs & Hcur) Ht. rewrite Ht in Hcur.
  destruct Hcur as (done & args & ts & d1 & Hreqs & Hne & Hval & Hr & Hres & Hread & n & Hn & Hm & Hh & Hp & Hcar).
  cbn [plan_within] in Hp. split; [done|]. split; [done|]. exists (tss ++ [ts]), mid, d, w. split; [done|]. split; [done|].
  cbn [answer_request task]. unfold at_rest. rewrite concat_app. cbn [concat]. rewrite app_nil_r.
  split; [done|]. split; [done|]. split; [done|]. pose proof (words_nonneg (requests c)).
  split; [cbn [answer_request requests]; destruct (closes r); cbn; lia|].
  assert (Hans : answered (plan r) ts d1 d f).
  { specialize (Hcar [] d f (answered_now _ _)). by rewrite app_nil_r in Hcar. }
  subst r. exists (done ++ [args]). cbn [answer_request requests speaks replies].
  destruct (closes (react (speaks c) id args)) eqn:Hclose.
  - right. exists (requests c). split; [by rewrite <- app_assoc|]. split; [done|]. split.
    + exists args. split; [apply last_snoc|]. rewrite react_closes in Hclose. by apply bool_decide_eq_true in Hclose.
    + apply Hres. by apply session_closed.
  - left. split; [by rewrite <- app_assoc|]. intros reqs2 tss2 d2 fs2 Hs2. rewrite <- !app_assoc. apply Hres.
    by eapply session_next.
Qed.

(** It begins an operation of its plan. *)
Lemma private_begin s c op next r :
  private s c -> link_on K c -> task c = Some (Planned (Do op next), r) -> reliable (engine s) ->
  private s (with_task c (Calling op (program op) next) r).
Proof using Type.
  intros (Hid & Hck & tss & mid & d & w & Hw & Hs & Hcur) [_ Hon] Ht Hr. rewrite Ht in Hcur, Hon.
  destruct Hon as [(k & Hop & Hk & HK) _].
  destruct Hcur as (done & args & ts & d1 & Hreqs & Hne & Hval & Hreact & Hres & Hread & n & Hn & Hm & Hh & Hp & Hcar).
  destruct Hp as (Hok & Hcost & Hnext). split; [done|]. split; [done|]. exists tss, mid, d, w. split; [done|].
  split; [done|]. cbn [with_task task]. exists done, args, ts, d1. split_and!; try done. exists n. split; [done|].
  cbn [at_work]. split_and!; try done. exists s. split; [done|]. exists k, true.
  split_and!; try done; [by apply local_program|by apply Hh|by apply among_wait, others_refl|by auto].
Qed.

(** It reads the clock. *)
Lemma private_clock s c next r :
  private s c -> task c = Some (Planned (AtTime next), r) -> reliable (engine s) -> clock_left s ->
  private (ticked s) (with_task c (Planned (next (peek_ms s))) r).
Proof using Type.
  intros (Hid & Hck & tss & mid & d & w & Hw & Hs & Hcur) Ht Hr Hc. rewrite Ht in Hcur.
  destruct Hcur as (done & args & ts & d1 & Hreqs & Hne & Hval & Hreact & Hres & Hread & n & Hn & Hm & Hh & Hp & Hcar).
  split; [done|]. split; [done|].
  assert (Htime : peek_ms s = time_at s0 (tick s)) by (unfold peek_ms, time_at; by rewrite Hck).
  exists tss, (S (tick s)), d, w. split; [done|]. split; [done|]. cbn [with_task task].
  exists done, args, (ts ++ [(peek_ms s, peek_ms s)]), d1. split_and!; try done.
  { rewrite app_assoc, Htime. eapply readings_snoc; [done|lia..]. }
  exists n. split; [done|]. split; [cbn; lia|]. split; [|split; [apply Hp|]].
  - eapply holds_keys_others; [done| |done]. intros k _ _. split; [by split|]. split; [apply later_ticked|cbn; lia].
  - intros ts2 d2 f Hf. rewrite <- app_assoc. apply Hcar. by apply answered_time.
Qed.

(** What an operation's answer makes of the plan. *)
Definition after_call (x : result EngineError Reply) (next : Reply -> Plan) : Plan :=
  match x with Ok r => next r | Err e => Answer (engine_error e) end.

Lemma carries_call p0 op next ts d1 d t t' :
  carries p0 (Do op next) ts d1 d ->
  carries p0 (after_call (spec t t' op d).2 next) (ts ++ [(t, t')]) d1 (spec t t' op d).1.
Proof using Type.
  intros Hcar ts2 d2 f Hf. rewrite <- app_assoc. apply Hcar. cbn [app].
  destruct (spec t t' op d) as [d' [r|e]] eqn:Hs; cbn [fst snd after_call] in *; [by eapply answered_do|].
  inversion Hf; subst. by apply answered_error.
Qed.

(** It takes an operation's answer. *)
Lemma private_return s c op x next r :
  private s c -> link_on K c -> task c = Some (Calling op (Ret x) next, r) -> clock_left s ->
  private s (with_task c (Planned (after_call x next)) r).
Proof using Type.
  intros (Hid & Hck & tss & mid & d & w & Hw & Hs & Hcur) [_ Hon] Ht Hc. rewrite Ht in Hcur, Hon.
  destruct Hon as [(k0 & b0 & Hop0 & _ & HK & _) _].
  destruct Hcur as (done & args & ts & d1 & Hreqs & Hne & Hval & Hreact & Hres & Hread & n & Hn & Hwork).
  destruct Hwork as (Hok & Hcost & Hnext & Hcar & s1 & Hm & k & b & Hop & Hk & _ & He & Ha & Hck1 & [_ Hlat] & Hv & Hkeys).
  replace k0 with k in * by congruence. pose proof (words_nonneg (requests c)). pose proof (op_cost_pos op).
  destruct (entry_answered op k s1 s x d) as (i & j & Hij & Hi & Hj & -> & He'); try done.
  { apply (spare_afforded w); [done..|lia|done]. }
  { congruence. }
  assert (Htime : forall i, time_at s1 i = time_at s0 i) by (intros i0; unfold time_at; by rewrite Hck1).
  rewrite !Htime in *. set (t := time_at s0 i) in *. set (t' := time_at s0 j) in *.
  split; [done|]. split; [done|]. exists tss, (tick s), (spec t t' op d).1, (w - op_cost op).
  split; [lia|]. split; [apply spec_spends; [done|lia|done]|]. cbn [with_task task].
  exists done, args, (ts ++ [(t, t')]), d1. split_and!; try done.
  { rewrite app_assoc. eapply readings_snoc; [done|lia..]. }
  exists (n - op_cost op). split; [cbn; lia|]. split; [done|]. split; [|split; [|by apply carries_call]].
  - intros k' HK' Hk'. destruct (decide (k' = k)) as [->|Hother]; [done|].
    rewrite (on_key_other _ _ (spec_on_key t t' op k Hop)) by done. by apply Hkeys.
  - destruct (spec t t' op d).2; cbn [after_call plan_within]; [apply Hnext|lia].
Qed.

(** It makes a step of an operation. *)
Lemma private_step s s' c op C (m : M E C) G x next r :
  private s c -> link_on K c -> task c = Some (Calling op (Step C m G) next, r) -> m s = (s', x) ->
  0 <= VERSION_CLOCK s -> clock_left s -> clock_left s' -> reliable (engine s) ->
  private s' (with_task c (Calling op (G x) next) r).
Proof using Type.
  intros (Hid & Hck & tss & mid & d & w & Hw & Hs & Hcur) Hon Ht Hmx Hpos Hc Hc' Hr.
  rewrite Ht in Hcur. destruct Hcur as (done & args & ts & d1 & Hreqs & Hne & Hval & Hreact & Hres & Hread & n & Hn & Hwork).
  destruct Hwork as (Hok & Hcost & Hnext & Hcar & s1 & Hm & k & b & Hop & Hk & Hl & He & Ha & Hck1 & Hlat & Hv & Hkeys).
  destruct (step_spares k _ b m G s s' x Hl Hmx Hpos) as (Hsp & Hr' & Hlat' & Hv' & b' & Hl' & _); [done..|].
  split; [done|]. split; [destruct Hlat'; congruence|]. exists tss, mid, d, w. split; [done|]. split; [done|].
  cbn [with_task task]. exists done, args, ts, d1. split_and!; try done. exists n. split; [done|].
  cbn [at_work]. split_and!; try done. exists s1. split; [done|]. exists k, b'.
  split_and!; try done; [by eapply among_own|by etransitivity|lia|].
  intros k' HK' Hk' Hne'. eapply holds_entry_others; [by apply Hkeys|by apply Hsp|done].
Qed.

Lemma private_turn s c s' c' :
  private s c -> link_on K c -> link_turn s c = (s', c') -> 0 <= VERSION_CLOCK s -> clock_left s -> clock_left s' ->
  reliable (engine s) -> private s' c'.
Proof using reqs0_valid.
  intros Hp Hon Ht Hpos Hc Hc' Hr. unfold Connections.link_turn in Ht.
  destruct (task c) as [[t r]|] eqn:Htask; [|injection Ht as <- <-; by apply private_rest].
  destruct t as [[f|op next|next|next]|op q next|q next].
  - injection Ht as <- <-. by apply private_answer.
  - injection Ht as <- <-. by apply private_begin.
  - injection Ht as <- <-. by apply private_clock.
  - destruct Hon as [_ Hon]. by rewrite Htask in Hon.
  - destruct q as [x|C m G]; cbn [program_turn] in Ht.
    + assert (Hx : (s', c') = (s, with_task c (Planned (after_call x next)) r)) by by destruct x.
      injection Hx as -> ->. by eapply private_return.
    + destruct (m s) as [s1 x] eqn:Hm. injection Ht as <- <-. by eapply private_step.
  - destruct Hon as [_ Hon]. by rewrite Htask in Hon.
Qed.

(** What the invariant says of the replies so far. *)
Lemma private_so_far s c :
  private s c -> exists done rest tss d n,
    reqs0 = done ++ rest /\ session_answered id V2 done tss d0 d (replies c) /\
    readings s0 (tick s0) (concat tss) n /\ (n <= tick s)%nat /\
    (task c = None -> holds_keys K s d /\ (requests c = rest \/ requests c = [] /\ ended_by done)).
Proof using Type.
  intros (_ & _ & tss & mid & d & w & _ & _ & Hcur). destruct (task c) as [[t r]|].
  - destruct Hcur as (done & args & ts & d1 & Hreqs & _ & _ & _ & Hres & Hread & n & _ & Hwork).
    apply resumes_answered in Hres. apply readings_prefix in Hread as (m & Hread & Hm).
    exists done, (args :: requests c), tss, d1, m. split_and!; try done.
    destruct t as [p|op q next|q next]; cbn [at_work] in Hwork; [lia| |done].
    destruct Hwork as (_ & _ & _ & _ & s1 & Hs1 & k & b & _ & _ & _ & _ & _ & _ & [_ Ht] & _). lia.
  - destruct Hcur as (Hread & Hm & Hh & _ & done & [[Hreqs Hres]|(rest & Hreqs & Hnil & Hend & Hans)]).
    + exists done, (requests c), tss, d, mid. apply resumes_answered in Hres. split_and!; auto.
    + exists done, rest, tss, d, mid. split_and!; auto.
Qed.
End Private.

(** ** Any number of connections *)

Abbreviation accept_all := (accept_all (E := E)).
Abbreviation run_links := (pool_run link_turn).

Definition keys_of (K : bytes -> Prop) (i j : nat) (k : bytes) : Prop := if decide (j = i) then K k else ~ K k.

(** Every connection keeps to its keys, and connection [i] is served as if alone. *)
Record links_keep (K : bytes -> Prop) (i : nat) (s : St) (d : Db) (reqs : list (list bytes))
  (p : Pool (S := St) (P := Link)) : Prop := {
  keep_link j c : parties p !! j = Some c ->
    link_on (keys_of K i j) c /\ (j = i -> private K (Z.of_nat i + 1) s d reqs (common p) c);
  keep_engine : reliable (engine (common p));
  keep_ahead : later s (common p);
  keep_version : 0 <= VERSION_CLOCK (common p);
}.

Lemma link_on_ext (K1 K2 : bytes -> Prop) c : (forall k, K1 k -> K2 k) -> link_on K1 c -> link_on K2 c.
Proof.
  intros HK. assert (Hplan : forall p, plan_on K1 p -> plan_on K2 p) by by intros p; apply plan_on_ext.
  intros [Hr Ht]. split.
  - eapply List.Forall_impl; [|exact Hr]. intros args Ha v. by apply Hplan.
  - destruct (task c) as [[[p|op q next|q next] r]|]; [by apply Hplan| |done..].
    destruct Ht as [(k & b & Hop & Hk & HK1 & Hl) Hn]. split; [exists k, b; auto|by eauto].
Qed.

Lemma links_advance K i s d reqs p j :
  Forall (Forall valid_key) reqs -> in_time link_within p -> in_time link_within (pool_advance link_turn p j) ->
  links_keep K i s d reqs p -> links_keep K i s d reqs (pool_advance link_turn p j).
Proof.
  intros Hval Hc Hc' Hkeep. pose proof (in_time_left _ link_within_nonneg _ Hc) as Hl.
  pose proof (in_time_left _ link_within_nonneg _ Hc') as Hl'. unfold pool_advance in *.
  destruct (parties p !! j) as [c|] eqn:Hj; [|done]. destruct (link_turn (common p) c) as [s' c'] eqn:Ht.
  destruct (keep_link _ _ _ _ _ _ Hkeep j c Hj) as [Hon Hpriv].
  destruct (link_turn_spares _ _ c s' c' Hon Ht) as (Hon' & Hr' & Hlat & Hv & Hsp); [by apply Hkeep|done|by apply Hkeep|].
  split; cbn [parties common] in *; [|done|etransitivity; [by apply Hkeep|done]|destruct Hkeep; lia].
  intros j' c2 Hj'. destruct (decide (j' = j)) as [->|Hne].
  - rewrite list_lookup_insert_eq in Hj' by by eapply lookup_lt_Some. injection Hj' as <-.
    split; [done|]. intros ->. eapply private_turn; [done|by apply Hpriv| |done|by apply Hkeep|done..|by apply Hkeep].
    eapply link_on_ext; [|exact Hon]. intros k. unfold keys_of. by rewrite decide_True.
  - rewrite list_lookup_insert_ne in Hj' by done. destruct (keep_link _ _ _ _ _ _ Hkeep j' c2 Hj') as [Hon2 Hpriv2].
    split; [done|]. intros ->. eapply private_others; [by apply Hpriv2| | |done..].
    + eapply link_on_ext; [|exact Hon2]. intros k. unfold keys_of. by rewrite decide_True.
    + intros k HK Hk. apply Hsp; [done|]. intros Hb. pose proof (link_busy _ _ _ Hon Hb) as Hn.
      unfold keys_of in Hn. by rewrite decide_False in Hn.
Qed.

Lemma links_run K i s d reqs schedule p :
  Forall (Forall valid_key) reqs -> in_time link_within p -> links_keep K i s d reqs p ->
  links_keep K i s d reqs (run_links schedule p).
Proof.
  intros Hval. revert p. induction schedule as [|j schedule IH]; intros p Hc Hp; [done|].
  assert (Hc' : in_time link_within (pool_advance link_turn p j)).
  { apply in_time_advance; [exact link_within_nonneg| |done]. intros c s' c' n Hj Hn Ht.
    eapply link_turn_within; [|done..|by apply Hp]. by apply (keep_link _ _ _ _ _ _ Hp j c Hj). }
  apply IH; [done|]. by apply links_advance.
Qed.

Lemma links_start K i s d scripts reqs :
  Inv s d -> scripts !! i = Some reqs -> words reqs < 2 ^ 32 -> spare (words reqs) d ->
  (forall j reqs', scripts !! j = Some reqs' -> Forall (request_on (keys_of K i j) (Z.of_nat j + 1)) reqs') ->
  links_keep K i s d reqs (accept_all s scripts).
Proof.
  intros HI Hi Hw Hs Hon. assert (HI' := HI). destruct HI' as [B HB]. pose proof (inv_clock _ _ _ HB) as Hu.
  unfold in_u64 in Hu. split; cbn [parties common Connections.accept_all]; [|apply HB|done|lia].
  intros j c Hj. rewrite list_lookup_imap in Hj. apply fmap_Some in Hj as (reqs' & Hj & ->).
  split; [split; [by apply Hon|done]|]. intros ->. replace reqs' with reqs by congruence.
  split; [done|]. split; [done|]. exists [], (tick s), d, (words reqs). split; [done|]. split; [done|].
  split; [constructor|]. split; [done|]. split; [by apply Inv_holds_keys|]. split; [done|]. exists []. left.
  split; [done|]. by intros reqs2 tss2 d2 fs2 Hs2.
Qed.

Lemma accept_in_time s scripts :
  Forall (Forall (Forall valid_key)) scripts -> ticks_left (1 + total (words <$> scripts)) s ->
  in_time link_within (accept_all s scripts).
Proof.
  intros Hv Ht. exists (words <$> scripts). split; [|done]. cbn [parties Connections.accept_all]. clear Ht.
  apply Forall2_same_length_lookup. split; [by rewrite length_imap, length_fmap|].
  intros j c n Hc Hn. rewrite list_lookup_imap in Hc. rewrite list_lookup_fmap in Hn.
  apply fmap_Some in Hc as (reqs & Hj & ->). rewrite Hj in Hn. injection Hn as <-.
  split; [rewrite list.Forall_forall in Hv; by eapply Hv, list_elem_of_lookup_2|]. by exists 0.
Qed.

(** ** The keys of a request, read off its words *)

(** The verbs on the whole keyspace, and the ones on no key. *)
Definition wide_verbs : list bytes := B <$> ["FLUSHALL"; "FLUSHDB"; "DBSIZE"; "RAWCOUNT"; "COMPACT"].
Definition keyless_verbs : list bytes := B <$> ["PING"; "ECHO"; "HELLO"; "QUIT"; "CLIENT"; "SELECT"; "COMMAND"].

(** The keys of a command: every word after the verb for DEL and EXISTS, the first
    one for the others. *)
Definition verb_keys (name : bytes) (rest : list bytes) : list bytes :=
  if bool_decide (name ∈ [B "DEL"; B "EXISTS"]) then rest
  else if bool_decide (name ∈ keyless_verbs) then [] else take 1 rest.

Definition request_keys (args : list bytes) : list bytes := verb_keys (verb args) (tail args).
Definition keys_used (reqs : list (list bytes)) : gset bytes := list_to_set (reqs ≫= request_keys).

Definition keyed_request (args : list bytes) : Prop := verb args ∉ wide_verbs.

Lemma first_key name k rest :
  bool_decide (name ∈ [B "DEL"; B "EXISTS"]) = false -> bool_decide (name ∈ keyless_verbs) = false ->
  k ∈ verb_keys name (k :: rest).
Proof using Type. unfold verb_keys. intros -> ->. cbn. by left. Qed.

Lemma every_key name k rest : bool_decide (name ∈ [B "DEL"; B "EXISTS"]) = true -> k ∈ rest -> k ∈ verb_keys name rest.
Proof using Type. unfold verb_keys. by intros ->. Qed.

Section Plans.
Context (K : bytes -> Prop) (k : bytes) (Hk : valid_key k) (HK : K k).

Lemma ask_on op show : op_target op = Some k -> plan_on K (ask op show).
Proof using Hk HK. intros Hop. split; [by exists k|]. by intros r. Qed.

Lemma count_plan_on op keys m :
  (forall k', op_target (op k') = Some k') -> Forall valid_key keys -> Forall K keys -> plan_on K (count_plan op keys m).
Proof using Type.
  intros Hop Hv HK'. revert m. induction keys as [|k' keys IH]; intros m; [done|].
  apply Forall_cons in Hv as [Hk' Hv], HK' as [HKk HK']. split; [by exists k'|]. intros r. by apply IH.
Qed.

Lemma fields_plan_on fields items : plan_on K (fields_plan k fields items).
Proof using Hk HK. revert items. induction fields as [|f fields IH]; intros items; [done|]. split; [by exists k|]. by intros r. Qed.

Lemma set_plan_on x opts t : plan_on K (set_plan k x opts t).
Proof using Hk HK.
  remember (length opts) as m eqn:Hm. assert (Hle : (length opts <= m)%nat) by lia. clear Hm.
  revert opts t Hle. induction m as [|m IH]; intros [|opt [|raw opts]] t; cbn [length]; intros Hl;
    try lia; cbn [set_plan]; try (by apply ask_on); [by case_match..|].
  destruct (time_unit opt) as [unit|]; [|done]. destruct (decide _); [done|].
  destruct (parse_i64 raw) as [i|]; [|done]. destruct (if i <=? 0 then _ else _) as [delta|]; [|done].
  intros now. destruct (i64_checked_add _ _); [|done]. apply IH. lia.
Qed.

Lemma expire_plan_on unit cmd raw : plan_on K (expire_plan unit cmd k raw).
Proof using Hk HK.
  unfold expire_plan. destruct (parse_i64 raw) as [i|]; [|done].
  destruct (i64_checked_mul i unit) as [delta|]; [|done]. intros now. by apply ask_on.
Qed.

Lemma zadd_plan_on raw l : plan_on K (zadd_plan k raw l).
Proof using Hk HK. unfold zadd_plan. repeat case_match; first [by apply ask_on|done]. Qed.

Lemma zrange_plan_on v a z opts : plan_on K (zrange_plan v k a z opts).
Proof using Hk HK. unfold zrange_plan. repeat case_match; first [by apply ask_on|done]. Qed.

Lemma zrangebyscore_plan_on v mn mx opts : plan_on K (zrangebyscore_plan v k mn mx opts).
Proof using Hk HK. unfold zrangebyscore_plan. repeat case_match; first [by apply ask_on|done]. Qed.

Lemma pop_plan_on count left : plan_on K (pop_plan k count left).
Proof using Hk HK.
  split; [by exists k|]. intros r. repeat case_match; try done. by apply ask_on.
Qed.
End Plans.

Lemma pop_args_on (K : bytes -> Prop) cmd left rest :
  Forall valid_key rest -> (forall k more, rest = k :: more -> K k) -> plan_on K (pop_args cmd left rest).
Proof using Type.
  intros Hv HK. unfold pop_args. destruct rest as [|k rest]; [done|]. apply Forall_cons in Hv as [Hk _].
  specialize (HK k rest eq_refl). repeat case_match; subst; first [by apply pop_plan_on|done].
Qed.

(** One entry of the table. *)
Ltac plan_keys :=
  match goal with
  | |- plan_on _ (count_plan _ _ _) =>
      apply count_plan_on; [done|by apply list.Forall_cons|]; apply list.Forall_forall; intros ? ?;
      apply every_key; [reflexivity|assumption]
  | |- plan_on _ (fields_plan _ _ _) => apply fields_plan_on; [assumption|apply first_key; reflexivity]
  | |- plan_on _ (set_plan _ _ _ _) => apply set_plan_on; [assumption|apply first_key; reflexivity]
  | |- plan_on _ (expire_plan _ _ _ _) => apply expire_plan_on; [assumption|apply first_key; reflexivity]
  | |- plan_on _ (zadd_plan _ _ _) => apply zadd_plan_on; [assumption|apply first_key; reflexivity]
  | |- plan_on _ (zrange_plan _ _ _ _ _) => apply zrange_plan_on; [assumption|apply first_key; reflexivity]
  | |- plan_on _ (zrangebyscore_plan _ _ _ _ _) => apply zrangebyscore_plan_on; [assumption|apply first_key; reflexivity]
  | |- plan_on _ (ask _ _) => eapply ask_on; [| |reflexivity]; [assumption|apply first_key; reflexivity]
  | |- plan_on _ (Answer _) => exact I
  end.

Lemma meanings_on v :
  Forall (fun e => e.1 ∈ wide_verbs \/
    forall rest, Forall valid_key rest -> plan_on (fun k => k ∈ verb_keys e.1 rest) (e.2 rest)) (meanings v).
Proof using Type.
  unfold meanings. repeat apply List.Forall_cons; [..|apply List.Forall_nil]; cbn [fst snd];
    first [left; apply (bool_decide_unpack _); vm_compute; exact I|right]; intros rest Hv;
    try match goal with |- plan_on _ (pop_args _ _ _) =>
      apply pop_args_on; [done|]; intros ? ? ->; apply first_key; reflexivity end;
    repeat case_match; subst;
    repeat match goal with Hx : Forall valid_key (_ :: _) |- _ => apply list.Forall_cons in Hx as [? Hx] end;
    plan_keys.
Qed.
(** A request works on no other keys than those. *)
Lemma request_on_keys K id args :
  Forall valid_key args -> keyed_request args -> (forall k, k ∈ request_keys args -> K k) -> request_on K id args.
Proof using Type.
  intros Hv Hkeyed HK v. unfold react, SessionRefine.react. cbv zeta.
  assert (Hwide : forall name, name ∈ wide_verbs -> verb args <> name)
    by (intros name Hn Hx; apply Hkeyed; by rewrite Hx).
  repeat case_bool_decide; try done.
  - exfalso. apply (Hwide (B "FLUSHALL")); [by left|done].
  - exfalso. apply (Hwide (B "FLUSHDB")); [right; by left|done].
  - cbn [plan]. destruct args as [|name rest]; [done|]. apply Forall_cons in Hv as [_ Hv]. cbn [meaning].
    destruct (meaning_table v !! _) as [m|] eqn:Hm; [|done]. apply elem_of_list_to_map_2 in Hm.
    pose proof (meanings_on v) as Hon. rewrite list.Forall_forall in Hon.
    destruct (Hon _ Hm) as [Hw|Hp]; [by destruct (Hwide _ Hw)|].
    eapply plan_on_ext; [|by apply Hp]. exact HK.
Qed.

Lemma keys_used_in reqs args k : args ∈ reqs -> k ∈ request_keys args -> k ∈ keys_used reqs.
Proof using Type.
  intros Ha Hk. apply elem_of_list_to_set, list_elem_of_bind. by exists args.
Qed.

(** C13. A connection whose keys nobody else uses is served as if it were alone:
    however the calls on the store of any number of connections interleave, and
    whatever races the others run on their keys, the replies it receives are what
    its requests, as far as they are answered, are answered on the abstract
    database, one after the other, at times read one after the other during the
    run; and between two requests the store holds its keys as those answers say.
    It asks for room for what the connection itself adds, and for time for the
    versions all of them take. *)
Theorem private_keys_session (s : St) (d : Db) (scripts : list (list (list bytes)))
  (schedule : list nat) (i : nat) (reqs : list (list bytes)) :
  Inv s d -> Forall (Forall (Forall valid_key)) scripts -> Forall (Forall keyed_request) scripts ->
  scripts !! i = Some reqs ->
  (forall j reqs', j <> i -> scripts !! j = Some reqs' -> keys_used reqs' ## keys_used reqs) ->
  words reqs < 2 ^ 32 -> spare (words reqs) d -> ticks_left (1 + total (words <$> scripts)) s ->
  let p := run_links schedule (accept_all s scripts) in
  exists c, parties p !! i = Some c /\ exists done rest tss d' n,
    reqs = done ++ rest /\
    session_answered (Z.of_nat i + 1) V2 done tss d d' (replies c) /\
    readings s (tick s) (concat tss) n /\ (n <= tick (common p))%nat /\
    (task c = None ->
       holds_keys (fun k => k ∈ keys_used reqs) (common p) d' /\
       (requests c = rest \/ requests c = [] /\ ended_by done)).
Proof.
  intros HI Hval Hkeyed Hi Hapart Hw Hs Ht p. set (K := fun k => k ∈ keys_used reqs).
  assert (Hon : forall K' j reqs', scripts !! j = Some reqs' -> (forall k, k ∈ keys_used reqs' -> K' k) ->
    Forall (request_on K' (Z.of_nat j + 1)) reqs').
  { intros K' j reqs' Hj HK. rewrite list.Forall_forall in Hval, Hkeyed. apply list_elem_of_lookup_2 in Hj.
    specialize (Hval _ Hj). specialize (Hkeyed _ Hj). rewrite list.Forall_forall in Hval, Hkeyed |- *.
    intros args Ha. apply request_on_keys; [by apply Hval|by apply Hkeyed|].
    intros k Hk. apply HK. by eapply keys_used_in. }
  assert (Hv : Forall (Forall valid_key) reqs) by (rewrite list.Forall_forall in Hval; by eapply Hval, list_elem_of_lookup_2).
  assert (Hkeep : links_keep K i s d reqs p).
  { apply links_run; [done|by apply accept_in_time|]. apply links_start; [done..|]. intros j reqs' Hj.
    apply Hon; [done|]. intros k Hk. unfold keys_of.
    destruct (decide (j = i)) as [->|Hne]; [replace reqs' with reqs in Hk by congruence; exact Hk|]. intros Hk'.
    by apply (Hapart j reqs' Hne Hj k). }
  destruct (lookup_lt_is_Some_2 (parties p) i) as [c Hc].
  { unfold p. rewrite pool_run_length. cbn. rewrite length_imap. by eapply lookup_lt_Some. }
  exists c. split; [done|]. by eapply private_so_far, (keep_link _ _ _ _ _ _ Hkeep i c Hc).
Qed.
End Namespaces.

(** ** Witness *)

(** The first connection has its list and its string to itself; the others race on
    a third key. *)
Definition my_requests : list (list bytes) :=
  [[B "rpush"; B "l"; B "x"; B "y"]; [B "LPOP"; B "l"]; [B "HELLO"; B "3"]; [B "SET"; B "a"; B "1"; B "EX"; B "10"];
   [B "DEL"; B "l"; B "a"]].

Definition demo_scripts : list (list (list bytes)) :=
  [my_requests; [[B "SET"; B "k"; B "v"]; [B "DEL"; B "k"]]; [[B "SET"; B "k"; B "w"]; [B "GET"; B "k"]]].

Definition demo_schedule : list nat := concat (replicate 60 [0; 1; 2; 2]%nat).
Abbreviation demo_links := (pool_run (link_turn (B "0.1")) demo_schedule (accept_all steady_state demo_scripts)).

Definition my_replies : list Frame :=
  [Integer 2; Bulk (B "x"); hello_reply (B "0.1") V3 1; Simple (B "OK"); Integer 2].

Lemma demo_links_end :
  replies <$> parties demo_links = [my_replies; [Simple (B "OK"); Integer 1]; [Simple (B "OK"); Bulk (B "v")]] /\
  (fun c => bool_decide (link_done c)) <$> parties demo_links = [true; true; true].
Proof. split; vm_compute; reflexivity. Qed.

Lemma demo_scripts_valid : Forall (Forall (Forall valid_key)) demo_scripts.
Proof.
  repeat (apply List.Forall_cons; [apply short_words, (bool_decide_unpack _); vm_compute; exact I|]). constructor.
Qed.

Lemma demo_scripts_keyed : Forall (Forall keyed_request) demo_scripts.
Proof. repeat constructor; apply (bool_decide_unpack _); vm_compute; exact I. Qed.

Lemma demo_scripts_apart j reqs :
  j <> 0%nat -> demo_scripts !! j = Some reqs -> keys_used reqs ## keys_used my_requests.
Proof.
  destruct j as [|[|[|j]]]; intros Hj Hr; [done|injection Hr as <-..|done]; apply (bool_decide_unpack _); vm_compute; exact I.
Qed.

Lemma private_keys_session_witness :
  replies <$> parties demo_links = [my_replies; [Simple (B "OK"); Integer 1]; [Simple (B "OK"); Bulk (B "v")]] /\
  exists tss d' n, session_answered (B "0.1") 1 V2 my_requests tss ∅ d' my_replies /\
    readings steady_state 0 (concat tss) n /\ holds_keys (fun k => k ∈ keys_used my_requests) (common demo_links) d'.
Proof.
  destruct demo_links_end as [Hrep Hend]. split; [exact Hrep|].
  assert (Hw : words my_requests < 2 ^ 32) by (vm_compute; reflexivity).
  destruct (steady_budget (words my_requests) Hw) as [_ _ Hs].
  assert (Ht : ticks_left (1 + total (words <$> demo_scripts)) steady_state)
    by (apply steady_budget; vm_compute; reflexivity).
  pose proof (private_keys_session (B "0.1") steady_state ∅ demo_scripts demo_schedule 0
    my_requests steady_inv demo_scripts_valid demo_scripts_keyed eq_refl demo_scripts_apart Hw Hs Ht) as Hthm.
  cbv zeta in Hthm. revert Hthm Hrep Hend. generalize demo_links. intros p Hthm Hrep Hend.
  destruct Hthm as (c & Hc & done & rest & tss & d' & n & Hreqs & Hans & Hread & _ & Hrest).
  pose proof (fmap_at replies _ _ _ _ Hrep Hc) as Hc1. pose proof (fmap_at _ _ _ _ _ Hend Hc) as Hc2.
  injection Hc1 as Hc1. injection Hc2 as Hc2. apply eq_sym, bool_decide_eq_true in Hc2.
  destruct Hc2 as [Htask Hnil]. destruct (Hrest Htask) as [Hh [Hr|(_ & args & Hlast & Hq)]].
  - rewrite Hnil in Hr. subst rest. rewrite app_nil_r in Hreqs. subst done. rewrite <- Hc1 in Hans.
    by exists tss, d', n.
  - exfalso. assert (Hin : args ∈ my_requests) by (rewrite Hreqs; apply elem_of_app; left; by apply last_Some_elem_of).
    clear -Hin Hq. assert (Hno : Forall (fun args => verb args <> B "QUIT") my_requests)
      by (repeat constructor; apply (bool_decide_unpack _); vm_compute; exact I).
    rewrite list.Forall_forall in Hno. by apply (Hno args Hin).
Defined.
