(* ===== verification/SpikeEncoding.v ===== *)
(** * The prototype's records

    Models spike/rust/src/encoding.rs and gc.rs, the on-disk format and the
    version table of the Rust prototype that preceded the crates.  The struct
    [Meta] is the one of Encoding.v.  The theorems compare the two programs: the
    bytes are the same, parsed alike, and what one compaction filter decides about
    strings and hashes the other decides too, so that either program can open
    what the other wrote. *)

From S2P Require Import Prelude Encoding Engine Gc.

Module Spike.

Definition META_PREFIX : byte := x01%byte.
Definition SUBKEY_PREFIX : byte := x02%byte.
Definition TYPE_STRING : byte := x01%byte.
Definition TYPE_HASH : byte := x02%byte.
Definition META_HEADER_LEN : nat := 1 + 8 + 8.

Definition meta_key (user_key : bytes) : bytes := META_PREFIX :: user_key.

Definition subkey_prefix (user_key : bytes) (version : Z) : bytes :=
  SUBKEY_PREFIX :: u32_be (Z.of_nat (length user_key)) ++ user_key ++ u64_be version.

Definition subkey (user_key : bytes) (version : Z) (field : bytes) : bytes :=
  subkey_prefix user_key version ++ field.

(** The indices are below [2 ^ 33] and cannot overflow. *)
Definition parse_subkey (raw : bytes) : option (bytes * Z * bytes) :=
  if bool_decide (raw = []) || negb (bool_decide (head raw = Some SUBKEY_PREFIX)) ||
     Nat.ltb (length raw) (1 + 4 + 8)
  then None
  else
    let klen := of_be_bytes (slice raw 1 5) in
    let key_start := 5 in
    let key_end := key_start + klen in
    let ver_end := key_end + 8 in
    if Z.of_nat (length raw) <? ver_end then None
    else
      let user_key := slice raw (Z.to_nat key_start) (Z.to_nat key_end) in
      let version := of_be_bytes (slice raw (Z.to_nat key_end) (Z.to_nat ver_end)) in
      Some (user_key, version, drop (Z.to_nat ver_end) raw).

Definition Meta_encode (m : Meta) : bytes :=
  type_id m :: u64_be (version m) ++ u64_be (expire_ms m) ++ payload m.

Definition Meta_decode (raw : bytes) : option Meta :=
  if Nat.ltb (length raw) META_HEADER_LEN then None
  else
    t ← head raw;
    Some (mk_Meta t (of_be_bytes (slice raw 1 9)) (of_be_bytes (slice raw 9 17)) (drop META_HEADER_LEN raw)).

Definition field_count (m : Meta) : Z :=
  if bool_decide (type_id m = TYPE_HASH) && Nat.leb 4 (length (payload m))
  then of_be_bytes (take 4 (payload m))
  else 0.

Definition set_field_count (m : Meta) (n : Z) : Meta :=
  mk_Meta (type_id m) (version m) (expire_ms m) (u32_be n).

(** [VersionMap], on the table it shares. *)
Definition VersionMap_new : version_table := ∅.
Definition VersionMap_set (t : version_table) (user_key : bytes) (version : Z) : version_table :=
  <[user_key := version]> t.
Definition VersionMap_remove (t : version_table) (user_key : bytes) : version_table := delete user_key t.
Definition VersionMap_get (t : version_table) (user_key : bytes) : option Z := t !! user_key.

Definition should_keep (t : version_table) (key : bytes) : bool :=
  match parse_subkey key with
  | None => true
  | Some (user_key, version, _) =>
      match VersionMap_get t user_key with
      | Some current => version =? current
      | None => false
      end
  end.

End Spike.

(** ** The formats are the same *)

Lemma spike_meta_key k : Spike.meta_key k = meta_key k.
Proof. done. Qed.

Lemma spike_subkey k v f : Spike.subkey k v f = subkey k v f.
Proof. done. Qed.

Lemma spike_subkey_prefix k v : Spike.subkey_prefix k v = subkey_prefix k v.
Proof. done. Qed.

Lemma spike_encode m : Spike.Meta_encode m = Meta_encode m.
Proof. done. Qed.

Lemma spike_decode raw : Spike.Meta_decode raw = Meta_decode raw.
Proof. done. Qed.

(** The crates count the members of sets and sorted sets too. *)
Lemma spike_field_count m : type_id m = TYPE_HASH -> Spike.field_count m = field_count m.
Proof. intros Ht. unfold Spike.field_count, field_count, counted_type. by rewrite Ht. Qed.

Theorem spike_parse_subkey raw : Spike.parse_subkey raw = parse_subkey raw.
Proof.
  unfold Spike.parse_subkey, parse_subkey, parse_versioned. destruct raw as [|b raw]; [done|].
  rewrite (bool_decide_eq_false_2 (b :: raw = [])) by done.
  assert (Hhead : bool_decide (head (b :: raw) = Some Spike.SUBKEY_PREFIX) = bool_decide (b = SUBKEY_PREFIX)).
  { apply bool_decide_ext. change Spike.SUBKEY_PREFIX with SUBKEY_PREFIX. cbn. split; congruence. }
  rewrite Hhead. cbn [orb]. destruct (negb _); [done|]. cbn [orb].
  destruct (Nat.ltb_spec (length (b :: raw)) (1 + 4 + 8)) as [|Hlen]; [done|].
  pose proof (of_be_bytes_range (slice (b :: raw) 1 5)) as Hr. rewrite length_slice in Hr by lia.
  change (256 ^ Z.of_nat (5 - 1)) with (2 ^ 32) in Hr. unfold usize_checked_add.
  rewrite decide_True by (unfold in_u64; lia). cbn [mbind option_bind].
  rewrite decide_True by (unfold in_u64; lia). done.
Qed.

(** On every record that is not of a sorted set's index the two filters agree. *)
Theorem spike_should_keep t raw :
  head raw <> Some ZSCORE_PREFIX -> Spike.should_keep t raw = VersionMap_should_keep t raw.
Proof.
  intros Hz. unfold Spike.should_keep, VersionMap_should_keep. rewrite spike_parse_subkey.
  unfold parse_owner_version, parse_subkey. destruct raw as [|b raw]; [done|]. cbn [head mbind option_bind] in *.
  rewrite (bool_decide_eq_false_2 (b = ZSCORE_PREFIX)) by congruence. cbn [negb andb]. rewrite andb_true_r.
  destruct (decide (b = SUBKEY_PREFIX)) as [->|Hne].
  - rewrite bool_decide_eq_true_2 by done. cbn [negb]. by destruct (parse_versioned _ _) as [[[uk ver] f]|].
  - rewrite bool_decide_eq_false_2 by done. unfold parse_versioned. by rewrite bool_decide_eq_false_2.
Qed.

Lemma spike_should_keep_witness :
  Spike.should_keep {[ B "h" := 7 ]} (subkey (B "h") 6 (B "f")) =
  VersionMap_should_keep {[ B "h" := 7 ]} (subkey (B "h") 6 (B "f")).
Proof. apply (spike_should_keep {[ B "h" := 7 ]} (subkey (B "h") 6 (B "f"))). discriminate. Defined.
