(* ===== verification/SpikeStore.v ===== *)
(** * The prototype's store

    Models spike/rust/src/storage.rs.  The prototype calls RocksDB directly:
    [SpikeRocks] adds to [RocksDb] the calls it makes besides, with their
    documented behaviour in [SpikeRocksLaws].  Where the crates return an error
    the prototype ignores it, takes the record as missing, or panics
    ([expect], [unwrap]); a panic ends a run ([None]).  Arithmetic wraps as in a
    release build. *)

From S2P Require Import Prelude Encoding Engine Gc Rocks RocksOpen Store SpikeEncoding.

(** ** RocksDB as the prototype uses it *)

Class SpikeRocks (DB : Type) `{RocksDb DB} : Type := {
  rocks_put : DB -> bytes -> bytes -> DB * result rocks_error unit;
  rocks_delete : DB -> bytes -> DB * result rocks_error unit;
  (** [iterator(IteratorMode::Start)]. *)
  rocks_iterator_start : DB -> list (result rocks_error (bytes * bytes));
}.

(** What the crates' handle promises, of the calls above. *)
Class SpikeRocksLaws (DB : Type) `{RocksDbLaws DB, !SpikeRocks DB} : Type := {
  reliable_put d k v : db_reliable d ->
    exists d', rocks_put d k v = (d', Ok tt) /\ db_reliable d' /\ db_contents d' = <[k := v]> (db_contents d);
  reliable_delete_record d k : db_reliable d ->
    exists d', rocks_delete d k = (d', Ok tt) /\ db_reliable d' /\ db_contents d' = delete k (db_contents d);
  reliable_iterator_start d : db_reliable d ->
    rocks_iterator_start d = Ok <$> sorted_entries (db_contents d);
}.

(** ** State *)

Module Spike.
Export SpikeEncoding.Spike.

Record Store (DB : Type) : Type := mk_Store {
  db : DB;
  versions : version_table;
  VERSION_CLOCK : Z;
  clock : nat -> Z;
  tick : nat;
}.
Arguments mk_Store {DB} _ _ _ _ _.
Arguments db {DB} _.
Arguments versions {DB} _.
Arguments VERSION_CLOCK {DB} _.
Arguments clock {DB} _ _.
Arguments tick {DB} _.

(** [None] when the thread has panicked. *)
Definition M (DB A : Type) : Type := Store DB -> Store DB * option A.

#[global] Instance M_ret {DB} : MRet (M DB) := fun A a s => (s, Some a).
#[global] Instance M_bind {DB} : MBind (M DB) := fun A C f m s =>
  match m s with
  | (s', Some a) => f a s'
  | (s', None) => (s', None)
  end.

Section Store.
Context {DB : Type} `{SpikeRocks DB}.

Abbreviation St := (Store DB).

Definition with_db (s : St) (d : DB) : St := mk_Store d (versions s) (VERSION_CLOCK s) (clock s) (tick s).
Definition with_versions (s : St) (t : version_table) : St :=
  mk_Store (db s) t (VERSION_CLOCK s) (clock s) (tick s).

(** [self.db.get(key).ok().flatten()]. *)
Definition db_get (key : bytes) : M DB (option bytes) := fun s =>
  (s, Some (match rocks_get (db s) key with Ok o => o | Err _ => None end)).

(** [.expect(..)] on the outcome of a write. *)
Definition expect_written (r : DB * result rocks_error unit) : M DB unit := fun s =>
  (with_db s r.1, match r.2 with Ok tt => Some tt | Err _ => None end).

Definition db_put (key value : bytes) : M DB unit := fun s => expect_written (rocks_put (db s) key value) s.
Definition db_write (b : WriteBatch) : M DB unit := fun s =>
  expect_written (rocks_write (db s) (to_rocks_batch b)) s.

(** [let _ = self.db.delete(..)]. *)
Definition db_delete (key : bytes) : M DB unit := fun s => (with_db s (rocks_delete (db s) key).1, Some tt).

Definition db_iterator_from (start : bytes) : M DB (list (result rocks_error (bytes * bytes))) := fun s =>
  (s, Some (rocks_iterator_from (db s) start)).
Definition db_iterator_start : M DB (list (result rocks_error (bytes * bytes))) := fun s =>
  (s, Some (rocks_iterator_start (db s))).

Definition update_versions (f : version_table -> version_table) : M DB unit := fun s =>
  (with_versions s (f (versions s)), Some tt).
Definition versions_set (k : bytes) (v : Z) : M DB unit := update_versions (fun t => VersionMap_set t k v).
Definition versions_remove (k : bytes) : M DB unit := update_versions (fun t => VersionMap_remove t k).

(** ** Clocks *)

(** [duration_since(UNIX_EPOCH).unwrap()] panics before the epoch. *)
Definition read_clock : M DB Z := fun s =>
  let t := clock s (tick s) in
  (mk_Store (db s) (versions s) (VERSION_CLOCK s) (clock s) (S (tick s)), if 0 <=? t then Some t else None).

Definition now_ms : M DB Z := ns ← read_clock; mret (as_millis ns).
Definition now_micros : M DB Z := ns ← read_clock; mret (as_micros ns).

(** One round of the loop, whose exchange succeeds when no other thread
    interferes. *)
Definition bump_version_clock (micros : Z) : M DB Z := fun s =>
  let candidate := Z.max (wrap_u64 (VERSION_CLOCK s + 1)) micros in
  (mk_Store (db s) (versions s) candidate (clock s) (tick s), Some candidate).
Definition next_version : M DB Z := micros ← now_micros; bump_version_clock micros.

(** ** Opening *)

Fixpoint rebuild_loop (items : list (result rocks_error (bytes * bytes))) (t : version_table) : version_table :=
  match items with
  | [] => t
  | Err _ :: rest => rebuild_loop rest t
  | Ok (k, v) :: rest =>
      if bool_decide (head k = Some META_PREFIX) then
        match Meta_decode v with
        | Some meta =>
            if bool_decide (type_id meta = TYPE_HASH)
            then rebuild_loop rest (VersionMap_set t (drop 1 k) (version meta))
            else rebuild_loop rest t
        | None => rebuild_loop rest t
        end
      else rebuild_loop rest t
  end.

Definition rebuild_version_map : M DB unit :=
  items ← db_iterator_start;
  update_versions (rebuild_loop items).

Definition open_options : list RocksOption :=
  [CreateIfMissing true; LevelCompaction; CompactionFilter (B "gamestore-subkey-gc")].

(** [Store::open] in a process that has read no clock yet. *)
Definition open (db_open : list RocksOption -> bytes -> result rocks_error DB) (path : bytes) (clk : nat -> Z) :
  result bytes St :=
  match db_open open_options path with
  | Ok d => Ok (rebuild_version_map (mk_Store d VersionMap_new 0 clk 0)).1
  | Err e => Err (rocks_error_text e)
  end.

(** ** Metadata *)

Definition load_meta (user_key : bytes) : M DB (option Meta) :=
  raw ← db_get (meta_key user_key);
  mret (raw ≫= Meta_decode).

Definition put_meta (user_key : bytes) (meta : Meta) : M DB unit := db_put (meta_key user_key) (Meta_encode meta).

Definition logical_delete (user_key : bytes) : M DB unit :=
  _ ← db_delete (meta_key user_key);
  versions_remove user_key.

Definition expired (meta : Meta) : M DB bool :=
  if negb (expire_ms meta =? 0) then now ← now_ms; mret (expire_ms meta <=? now) else mret false.

Definition load_live_meta (user_key : bytes) : M DB (option Meta) :=
  o ← load_meta user_key;
  match o with
  | None => mret None
  | Some meta =>
      x ← expired meta;
      if (x : bool) then _ ← logical_delete user_key; mret None else mret (Some meta)
  end.

(** [Some(m) if m.type_id == TYPE_HASH => m, _ => ..]. *)
Definition of_type (ty : byte) (o : option Meta) : option Meta :=
  match o with Some m => if bool_decide (type_id m = ty) then Some m else None | None => None end.

(** ** Strings and generic operations *)

Definition set (key value : bytes) (expire : Z) : M DB unit :=
  _ ← versions_remove key;
  v ← next_version;
  put_meta key (mk_Meta TYPE_STRING v expire value).

Definition get (key : bytes) : M DB (option bytes) :=
  o ← load_live_meta key;
  mret (payload <$> of_type TYPE_STRING o).

Definition exists_ (key : bytes) : M DB bool := o ← load_live_meta key; mret (is_some o).

Definition type_of (key : bytes) : M DB bytes :=
  o ← load_live_meta key;
  mret (match o with
  | Some m =>
      if bool_decide (type_id m = TYPE_STRING) then B "string"
      else if bool_decide (type_id m = TYPE_HASH) then B "hash" else B "none"
  | None => B "none"
  end).

Definition del (key : bytes) : M DB bool :=
  o ← load_live_meta key;
  if is_some o then _ ← logical_delete key; mret true else mret false.

Definition expire_at (key : bytes) (expire_at_ms : Z) : M DB Z :=
  o ← load_live_meta key;
  match o with
  | Some meta =>
      _ ← put_meta key (mk_Meta (type_id meta) (version meta) expire_at_ms (payload meta)); mret 1
  | None => mret 0
  end.

Definition pttl (key : bytes) : M DB Z :=
  o ← load_live_meta key;
  match o with
  | None => mret (-2)
  | Some meta =>
      if expire_ms meta =? 0 then mret (-1)
      else now ← now_ms; mret (wrap_i64 (saturating_sub (expire_ms meta) now))
  end.

(** ** Hashes *)

Definition load_or_new_hash (key : bytes) : M DB Meta :=
  o ← load_live_meta key;
  match of_type TYPE_HASH o with
  | Some m => mret m
  | None =>
      v ← next_version;
      _ ← versions_set key v;
      mret (set_field_count (mk_Meta TYPE_HASH v 0 []) 0)
  end.

Fixpoint hset_loop (key : bytes) (ver : Z) (pairs : list (bytes * bytes)) (fc created : Z) (batch : WriteBatch) :
  M DB (Z * Z * WriteBatch) :=
  match pairs with
  | [] => mret (fc, created, batch)
  | (field, value) :: rest =>
      let sk := subkey key ver field in
      existed ← db_get sk;
      let '(fc, created) :=
        if negb (is_some existed) then (wrap_u32 (fc + 1), wrap_i64 (created + 1)) else (fc, created) in
      hset_loop key ver rest fc created (batch_put batch sk value)
  end.

Definition hset (key : bytes) (pairs : list (bytes * bytes)) : M DB Z :=
  meta ← load_or_new_hash key;
  '(fc, created, batch) ← hset_loop key (version meta) pairs (field_count meta) 0 WriteBatch_new;
  let meta := set_field_count meta fc in
  _ ← db_write (batch_put batch (meta_key key) (Meta_encode meta));
  mret created.

Definition hget (key field : bytes) : M DB (option bytes) :=
  o ← load_live_meta key;
  match of_type TYPE_HASH o with
  | None => mret None
  | Some meta => db_get (subkey key (version meta) field)
  end.

(** The loop breaks at an error and at the first key without the prefix. *)
Fixpoint hgetall_loop (prefix : bytes) (items : list (result rocks_error (bytes * bytes)))
  (out : list (bytes * bytes)) : list (bytes * bytes) :=
  match items with
  | Ok (k, v) :: rest =>
      if decide (prefix `prefix_of` k) then hgetall_loop prefix rest (out ++ [(drop (length prefix) k, v)])
      else out
  | _ => out
  end.

Definition hgetall (key : bytes) : M DB (list (bytes * bytes)) :=
  o ← load_live_meta key;
  match of_type TYPE_HASH o with
  | None => mret []
  | Some meta =>
      let prefix := subkey_prefix key (version meta) in
      items ← db_iterator_from prefix;
      mret (hgetall_loop prefix items [])
  end.

Fixpoint hdel_loop (key : bytes) (ver : Z) (fields : list bytes) (fc removed : Z) (batch : WriteBatch) :
  M DB (Z * Z * WriteBatch) :=
  match fields with
  | [] => mret (fc, removed, batch)
  | field :: rest =>
      let sk := subkey key ver field in
      existed ← db_get sk;
      if is_some existed
      then hdel_loop key ver rest (saturating_sub fc 1) (wrap_i64 (removed + 1)) (batch_delete batch sk)
      else hdel_loop key ver rest fc removed batch
  end.

Definition hdel (key : bytes) (fields : list bytes) : M DB Z :=
  o ← load_live_meta key;
  match of_type TYPE_HASH o with
  | None => mret 0
  | Some meta =>
      '(fc, removed, batch) ← hdel_loop key (version meta) fields (field_count meta) 0 WriteBatch_new;
      _ ← (if 0 <? removed then
             if fc =? 0 then _ ← logical_delete key; db_write batch
             else db_write (batch_put batch (meta_key key) (Meta_encode (set_field_count meta fc)))
           else mret tt);
      mret removed
  end.

Definition hlen (key : bytes) : M DB Z :=
  o ← load_live_meta key;
  mret (match of_type TYPE_HASH o with Some m => wrap_i64 (field_count m) | None => 0 end).

Definition hexists (key field : bytes) : M DB bool := o ← hget key field; mret (is_some o).

(** ** Administration *)

(** [filter_map(|item| item.ok().map(|(k, _)| k))]. *)
Definition ok_keys (items : list (result rocks_error (bytes * bytes))) : list bytes :=
  omap (fun item : result rocks_error (bytes * bytes) => match item with Ok (k, _) => Some k | Err _ => None end) items.

Definition versions_clear : M DB unit :=
  items ← db_iterator_start;
  update_versions (fold_left (fun t k =>
    if bool_decide (head k = Some META_PREFIX) then VersionMap_remove t (drop 1 k) else t) (ok_keys items)).

Definition flushdb : M DB unit :=
  items ← db_iterator_start;
  _ ← db_write (fold_left batch_delete (ok_keys items) WriteBatch_new);
  versions_clear.

Definition count_prefix (prefix : byte) : M DB Z :=
  items ← db_iterator_start;
  mret (wrap_i64 (Z.of_nat (length (filter (fun k => head k = Some prefix) (ok_keys items))))).

Definition dbsize : M DB Z := count_prefix META_PREFIX.
Definition raw_subkey_count : M DB Z := count_prefix SUBKEY_PREFIX.

(** The filter closure of [open]: it answers [true] for records to remove. *)
Definition filter_removes (t : version_table) (key _value : bytes) : bool :=
  if should_keep t key then false else true.

Definition compact : M DB unit := fun s =>
  let d := (rocks_flush (db s)).1 in
  (with_db s (rocks_compact_range (filter_removes (versions s)) d None None), Some tt).

End Store.
End Spike.

(** ** The in-memory handle *)

#[export] Instance MemDb_spike : SpikeRocks MemDb := {
  rocks_put d k v := MemDb_write d (batch_put WriteBatch_new k v);
  rocks_delete d k := MemDb_write d (batch_delete WriteBatch_new k);
  rocks_iterator_start d := MemDb_iterator d [];
}.

Lemma MemDb_write_reliable (d : MemDb) b : db_reliable d ->
  exists d', MemDb_write d b = (d', Ok tt) /\ db_reliable d' /\ db_contents d' = apply_batch b (db_contents d).
Proof.
  intros [Hf Hs]. unfold MemDb_write. destruct Hf as [|f fs -> Hf]; eexists; by (split; [done|]).
Qed.

Lemma entries_from_start (m : gmap bytes bytes) : entries_from [] m = sorted_entries m.
Proof.
  unfold entries_from. induction (sorted_entries m) as [|kv l IH]; [done|].
  rewrite filter_cons, decide_True; [by rewrite IH|]. by destruct kv as [[|b k] v].
Qed.

#[export] Program Instance MemDb_spike_laws : SpikeRocksLaws MemDb.
Next Obligation. intros d k v. apply (MemDb_write_reliable d (batch_put WriteBatch_new k v)). Qed.
Next Obligation. intros d k. apply (MemDb_write_reliable d (batch_delete WriteBatch_new k)). Qed.
Next Obligation.
  intros d [_ Hs]. cbn. unfold MemDb_iterator. rewrite Hs. f_equal. apply entries_from_start.
Qed.
