(* ===== verification/SpikeAgree.v ===== *)
(** * The prototype and the crates agree

    From states that hold the same records, versions and clocks, and over handles
    that do not fail, an operation of the prototype's store answers what the
    crates' answers and leaves the same records, versions and clocks: [agrees],
    proved along the text of both programs.  Where the crates refuse a key of
    another type the prototype takes it as missing, except that its HSET replaces
    it; where they report a corrupt record it goes on. *)

From S2P Require Import Prelude F64 Encoding Engine Gc Rocks Store StoreSpec StoreRep StoreInv StoreRefine SpikeEncoding SpikeStore.

Section Agree.
Context {DB : Type} `{SpikeRocksLaws DB}.
Context {E : Type} `{EngineLaws E}.

Record twin (s : Spike.Store DB) (t : State E) : Prop := {
  twin_left : db_reliable (Spike.db s);
  twin_right : reliable (engine t);
  twin_contents : db_contents (Spike.db s) = contents (engine t);
  twin_versions : Spike.versions s = versions t;
  twin_counter : Spike.VERSION_CLOCK s = VERSION_CLOCK t;
  twin_clock : Spike.clock s = clock t;
  twin_tick : Spike.tick s = tick t;
  twin_epoch i : 0 <= clock t i;
}.

(** [R] relates the answers; nothing is said of runs in which the crates report
    an error, but a wrong type when [typed]. *)
Definition agrees {A C} (typed : bool) (R : A -> result EngineError C -> Prop) (m : Spike.M DB A) (n : M E C) : Prop :=
  forall s t, twin s t ->
    match n t with
    | (t', r) =>
        match r with
        | Err WrongType => typed = true
        | Ok _ => True
        | Err _ => False
        end ->
        exists s' a, m s = (s', Some a) /\ twin s' t' /\ R a r
    end.

Definition equally {A C} (R : A -> C -> Prop) (a : A) (r : result EngineError C) : Prop :=
  match r with Ok c => R a c | Err _ => False end.

(** The same answer, or [missing] for a key of another type. *)
Definition same_or {A} (missing : A) (a : A) (r : result EngineError A) : Prop :=
  match r with Ok c => a = c | Err _ => a = missing end.

Lemma agrees_bind {A A' C C'} typed (R : A -> C -> Prop) (R' : A' -> result EngineError C' -> Prop) m n f g :
  agrees typed (equally R) m n -> (forall a c, R a c -> agrees typed R' (f a) (g c)) ->
  agrees typed R' (m ≫= f) (n ≫= g).
Proof using Type.
  intros Hm Hf s t Ht. specialize (Hm s t Ht). unfold mbind, Spike.M_bind, M_bind.
  destruct (n t) as [t1 [c|e]].
  - destruct (Hm I) as (s1 & a & -> & Ht1 & HR). apply (Hf a c HR s1 t1 Ht1).
  - destruct e; try done. intros Hty. by destruct (Hm Hty) as (s1 & a & _ & _ & []).
Qed.

Lemma agrees_ret {A C} typed (R : A -> result EngineError C -> Prop) a c :
  R a (Ok c) -> agrees typed R (mret a) (mret c).
Proof using Type. intros HR s t Ht _. by exists s, a. Qed.

Lemma agrees_wrong_type {A C} typed (R : A -> result EngineError C -> Prop) a :
  R a (Err WrongType) -> agrees typed R (mret a) (throw WrongType).
Proof using Type. intros HR s t Ht _. by exists s, a. Qed.

Lemma agrees_assoc {A C D F} typed (R : A -> result EngineError F -> Prop) m (n : M E C) (g : C -> M E D) (h : D -> M E F) :
  agrees typed R m (n ≫= fun c => g c ≫= h) -> agrees typed R m ((n ≫= g) ≫= h).
Proof using Type.
  intros Hm s t Ht. specialize (Hm s t Ht). unfold mbind, M_bind in *. by destruct (n t) as [t1 [c|e]].
Qed.

Lemma agrees_weaken {A C} typed (R R' : A -> result EngineError C -> Prop) m n :
  agrees typed R m n -> (forall a r, R a r -> R' a r) -> agrees typed R' m n.
Proof using Type.
  intros Hm HR s t Ht. specialize (Hm s t Ht). destruct (n t) as [t' r]. intros Hr.
  destruct (Hm Hr) as (s' & a & Hs & Ht' & Ha). eauto 6.
Qed.

Lemma agrees_same_or {A} typed (missing : A) (m : Spike.M DB A) (n : M E A) :
  agrees typed (equally eq) m n -> agrees typed (same_or missing) m n.
Proof using Type. intros Hm. eapply agrees_weaken; [done|]. by intros a [c|e]. Qed.

(** What is made of the answer. *)
Lemma agrees_then {A A'} typed (missing : A) (f : A -> A') (m : Spike.M DB A) (n : M E A) :
  agrees typed (same_or missing) m n ->
  agrees typed (same_or (f missing)) (a ← m; mret (f a)) (a ← n; mret (f a)).
Proof using Type.
  intros Hm s t Ht. specialize (Hm s t Ht). unfold mbind, Spike.M_bind, M_bind.
  destruct (n t) as [t' [c|e]]; cbn.
  - intros _. destruct (Hm I) as (s' & a & -> & Ht' & ->). by exists s', (f c).
  - intros He. destruct (Hm He) as (s' & a & -> & Ht' & ->). by exists s', (f missing).
Qed.

(** ** The calls *)

Section Calls.
Context {typed : bool}.


Lemma agrees_get key : agrees typed (equally eq) (Spike.db_get key) (engine_get key).
Proof using Type.
  intros s t [Hl Hr Hc Hv Hn Hk Hi He]. unfold engine_get. rewrite reliable_get by done. intros _.
  eexists _, _. split; [unfold Spike.db_get; by rewrite db_reliable_get|]. by rewrite Hc.
Qed.

Lemma agrees_put key v :
  agrees typed (equally eq) (Spike.db_put key v) (engine_write (batch_put WriteBatch_new key v)).
Proof using All.
  intros s t [Hl Hr Hc Hv Hn Hk Hi He]. unfold engine_write.
  destruct (reliable_write (engine t) (batch_put WriteBatch_new key v) Hr) as (e & Hw & Hre). rewrite Hw. intros _.
  pose proof (write_ok _ _ _ Hw) as Hce.
  destruct (reliable_put (Spike.db s) key v Hl) as (d & Hp & Hrd & Hcd).
  exists (Spike.with_db s d), tt. unfold Spike.db_put, Spike.expect_written. rewrite Hp. split; [done|].
  split; [|done]. split; try done. cbn. by rewrite Hcd, Hce, apply_batch_put, apply_batch_new, Hc.
Qed.

Lemma agrees_write b : agrees typed (equally eq) (Spike.db_write b) (engine_write b).
Proof using All.
  intros s t [Hl Hr Hc Hv Hn Hk Hi He]. unfold engine_write.
  destruct (reliable_write (engine t) b Hr) as (e & Hw & Hre). rewrite Hw. intros _.
  pose proof (write_ok _ _ _ Hw) as Hce.
  destruct (db_reliable_write (Spike.db s) (to_rocks_batch b) Hl) as (d & Hp & Hrd).
  pose proof (rocks_write_ok _ _ _ Hp) as Hcd.
  exists (Spike.with_db s d), tt. unfold Spike.db_write, Spike.expect_written. rewrite Hp. split; [done|].
  split; [|done]. split; try done. cbn. by rewrite Hcd, Hce, to_rocks_batch_effect, Hc.
Qed.

Lemma agrees_versions_remove k : agrees typed (equally eq) (Spike.versions_remove k) (versions_remove k).
Proof using All.
  intros s t [Hl Hr Hc Hv Hn Hk Hi He] _. eexists _, tt. split; [done|]. split; [|done].
  split; try done. cbn. by rewrite Hv.
Qed.

Lemma agrees_versions_set k v : agrees typed (equally eq) (Spike.versions_set k v) (versions_set k v).
Proof using All.
  intros s t [Hl Hr Hc Hv Hn Hk Hi He] _. eexists _, tt. split; [done|]. split; [|done].
  split; try done. cbn. by rewrite Hv.
Qed.

Lemma agrees_logical_delete k : agrees typed (equally eq) (Spike.logical_delete k) (logical_delete k).
Proof using All.
  unfold Spike.logical_delete, logical_delete. eapply (agrees_bind _ eq); [|intros [] [] _; apply agrees_versions_remove].
  intros s t [Hl Hr Hc Hv Hn Hk Hi He]. unfold engine_write.
  destruct (reliable_write (engine t) (batch_delete WriteBatch_new (meta_key k)) Hr) as (e & Hw & Hre).
  rewrite Hw. intros _. pose proof (write_ok _ _ _ Hw) as Hce.
  destruct (reliable_delete_record (Spike.db s) (meta_key k) Hl) as (d & Hp & Hrd & Hcd).
  exists (Spike.with_db s d), tt. unfold Spike.db_delete. rewrite spike_meta_key, Hp. split; [done|].
  split; [|done]. split; try done. cbn. by rewrite Hcd, Hce, apply_batch_delete, apply_batch_new, Hc.
Qed.

Lemma agrees_read_clock : agrees typed (equally eq) Spike.read_clock read_clock.
Proof using All.
  intros s t [Hl Hr Hc Hv Hn Hk Hi He] _. specialize (He (tick t)) as Hpos.
  unfold Spike.read_clock, read_clock. rewrite Hk, Hi. eexists _, (clock t (tick t)).
  split; [by rewrite (proj2 (Z.leb_le _ _) Hpos)|]. split; [split; cbn; congruence|]. cbn. lia.
Qed.

Lemma agrees_now_ms : agrees typed (equally eq) Spike.now_ms now_ms.
Proof using All.
  eapply (agrees_bind _ eq); [apply agrees_read_clock|]. intros a _ <-. by apply agrees_ret.
Qed.

Lemma agrees_next_version : agrees typed (equally eq) Spike.next_version next_version.
Proof using All.
  eapply (agrees_bind _ eq).
  - eapply (agrees_bind _ eq); [apply agrees_read_clock|]. intros a _ <-. by apply agrees_ret.
  - intros a _ <- s t [Hl Hr Hc Hv Hn Hk Hi He] _. unfold Spike.bump_version_clock, bump_version_clock.
    eexists _, _. split; [done|]. rewrite Hn. split; [by split|done].
Qed.

(** ** Metadata *)

Lemma agrees_corrupt {A C} (R : A -> result EngineError C -> Prop) m msg :
  agrees typed R m (throw (Corruption msg)).
Proof using Type. by intros s t Ht []. Qed.

Lemma agrees_refused {A C} (R : A -> result EngineError C -> Prop) m :
  typed = false -> agrees typed R m (throw WrongType).
Proof using Type. intros -> s t Ht. done. Qed.

Lemma agrees_load_live_meta k : agrees typed (equally eq) (Spike.load_live_meta k) (load_live_meta k).
Proof using All.
  eapply (agrees_bind _ eq).
  - eapply (agrees_bind _ eq); [apply agrees_get|]. intros raw _ <-. destruct raw as [raw|]; [|by apply agrees_ret].
    cbn [mbind option_bind]. rewrite spike_decode. unfold some_or, lift.
    destruct (Meta_decode raw); [by apply agrees_ret|apply agrees_corrupt].
  - intros o _ <-. destruct o as [meta|]; [|by apply agrees_ret].
    eapply (agrees_bind _ eq).
    + unfold Spike.expired, expired. destruct (negb _); [|by apply agrees_ret].
      eapply (agrees_bind _ eq); [apply agrees_now_ms|]. intros now _ <-. by apply agrees_ret.
    + intros x _ <-. destruct x; [|by apply agrees_ret].
      eapply (agrees_bind _ eq); [apply agrees_logical_delete|]. intros _ _ _. by apply agrees_ret.
Qed.

(** A typed operation, in the prototype's words and in the crates'. *)
Lemma agrees_typed {A C} (R : A -> result EngineError C -> Prop) k ty
  (f : option Meta -> Spike.M DB A) (g : option Meta -> M E C) :
  (forall o, (forall m, o = Some m -> type_id m = ty) -> agrees typed R (f o) (g o)) ->
  agrees typed R (f None) (throw WrongType) ->
  agrees typed R (o ← Spike.load_live_meta k; f (Spike.of_type ty o)) (o ← load_typed k ty; g o).
Proof using All.
  intros Hfg Hwrong. intros s t Ht.
  assert (Hassoc : (o ← load_typed k ty; g o) t = (o ← load_live_meta k; match o with
    | Some m => if decide (type_id m = ty) then g (Some m) else throw WrongType | None => g None end) t).
  { unfold load_typed, mbind, M_bind. destruct (load_live_meta k t) as [t' [[m|]|e]]; [|done..].
    by destruct (decide (type_id m = ty)). }
  rewrite Hassoc. revert s t Ht Hassoc. intros s t Ht _. revert s t Ht.
  change (agrees typed R (o ← Spike.load_live_meta k; f (Spike.of_type ty o))
    (o ← load_live_meta k; match o with
    | Some m => if decide (type_id m = ty) then g (Some m) else throw WrongType | None => g None end)).
  eapply (agrees_bind _ eq); [apply agrees_load_live_meta|]. intros o _ <-. destruct o as [m|]; cbn [Spike.of_type].
  - destruct (decide (type_id m = ty)) as [Hty|Hty].
    + rewrite bool_decide_eq_true_2 by done. apply Hfg. congruence.
    + by rewrite bool_decide_eq_false_2.
  - by apply Hfg.
Qed.

(** ** The operations *)

Lemma agrees_put_meta k m : agrees typed (equally eq) (Spike.put_meta k m) (put_meta k m).
Proof using All. apply agrees_put. Qed.

Lemma agrees_set k v expire : agrees typed (equally eq) (Spike.set k v expire) (set k v expire).
Proof using All.
  eapply (agrees_bind _ eq); [apply agrees_versions_remove|]. intros _ _ _.
  eapply (agrees_bind _ eq); [apply agrees_next_version|]. intros ver _ <-. apply agrees_put_meta.
Qed.

Lemma agrees_get_string k : agrees typed (same_or None) (Spike.get k) (get k).
Proof using All.
  eapply (agrees_bind _ eq); [apply agrees_load_live_meta|]. intros o _ <-. destruct o as [m|]; [|by apply agrees_ret].
  cbn [Spike.of_type]. change Spike.TYPE_STRING with TYPE_STRING.
  destruct (bool_decide (type_id m = TYPE_STRING)); cbn [negb]; [by apply agrees_ret|by apply agrees_wrong_type].
Qed.

Lemma agrees_exists k : agrees typed (equally eq) (Spike.exists_ k) (exists_ k).
Proof using All.
  eapply (agrees_bind _ eq); [apply agrees_load_live_meta|]. intros o _ <-. by apply agrees_ret.
Qed.

Lemma agrees_del k : agrees typed (equally eq) (Spike.del k) (del k).
Proof using All.
  eapply (agrees_bind _ eq); [apply agrees_load_live_meta|]. intros o _ <-.
  destruct (is_some o); [|by apply agrees_ret].
  eapply (agrees_bind _ eq); [apply agrees_logical_delete|]. intros _ _ _. by apply agrees_ret.
Qed.

Lemma agrees_expire_at k expire :
  agrees typed (equally (fun n b => n = Z.b2z b)) (Spike.expire_at k expire) (expire_at k expire).
Proof using All.
  eapply (agrees_bind _ eq); [apply agrees_load_live_meta|]. intros o _ <-. destruct o as [m|]; [|by apply agrees_ret].
  eapply (agrees_bind _ eq); [apply agrees_put_meta|]. intros _ _ _. by apply agrees_ret.
Qed.

Lemma agrees_pttl k : agrees typed (equally eq) (Spike.pttl k) (pttl k).
Proof using All.
  eapply (agrees_bind _ eq); [apply agrees_load_live_meta|]. intros o _ <-. destruct o as [m|]; [|by apply agrees_ret].
  destruct (expire_ms m =? 0); [by apply agrees_ret|].
  eapply (agrees_bind _ eq); [apply agrees_now_ms|]. intros now _ <-. by apply agrees_ret.
Qed.

Lemma agrees_hset_loop k ver pairs fc created b :
  agrees typed (equally eq) (Spike.hset_loop k ver pairs fc created b) (hset_loop k ver pairs fc created b).
Proof using All.
  revert fc created b. induction pairs as [|[f v] pairs IH]; intros fc created b; [by apply agrees_ret|].
  eapply (agrees_bind _ eq); [apply agrees_get|]. intros o _ <-.
  by destruct (negb (is_some o)).
Qed.

Lemma agrees_load_or_new k : typed = false ->
  agrees typed (equally (fun m m' => m = m' /\ type_id m = TYPE_HASH))
    (Spike.load_or_new_hash k) (load_or_new_counted k TYPE_HASH).
Proof using All.
  intros Hty. apply (agrees_typed _ k TYPE_HASH (fun o => match o with
    | Some m => mret m
    | None => v ← Spike.next_version; _ ← Spike.versions_set k v;
              mret (Spike.set_field_count (mk_Meta Spike.TYPE_HASH v 0 []) 0) end)).
  2: by apply agrees_refused.
  intros [m|] Hm; [apply agrees_ret; split; [done|by apply Hm]|]. unfold new_composite_meta.
  apply agrees_assoc. eapply (agrees_bind _ eq); [apply agrees_next_version|]. intros v _ <-.
  apply agrees_assoc. eapply (agrees_bind _ eq); [apply agrees_versions_set|]. intros _ _ _. by apply agrees_ret.
Qed.

Lemma agrees_hset k pairs : typed = false -> agrees typed (equally eq) (Spike.hset k pairs) (hset k pairs).
Proof using All.
  intros Hty. eapply (agrees_bind _ (fun m m' => m = m' /\ type_id m = TYPE_HASH)); [by apply agrees_load_or_new|].
  intros m _ [<- Hm]. rewrite spike_field_count by done.
  eapply (agrees_bind _ eq); [apply agrees_hset_loop|]. intros [[fc created] b] _ <-.
  eapply (agrees_bind _ eq); [apply agrees_write|]. intros _ _ _. by apply agrees_ret.
Qed.

Lemma agrees_hget k f : agrees typed (same_or None) (Spike.hget k f) (hget k f).
Proof using All.
  apply (agrees_typed _ k TYPE_HASH (fun o => match o with
    | None => mret None | Some meta => Spike.db_get (Spike.subkey k (version meta) f) end)).
  - intros [m|] Hm; [|by apply agrees_ret].
    apply agrees_same_or, agrees_get.
  - by apply agrees_wrong_type.
Qed.

Lemma agrees_hexists k f : agrees typed (same_or false) (Spike.hexists k f) (hexists k f).
Proof using All. apply (agrees_then typed None), agrees_hget. Qed.

Lemma agrees_hlen k : agrees typed (same_or 0) (Spike.hlen k) (hlen k).
Proof using All.
  apply (agrees_typed _ k TYPE_HASH (fun o =>
    mret (match o with Some m => wrap_i64 (Spike.field_count m) | None => 0 end))).
  - intros [m|] Hm; [|by apply agrees_ret]. rewrite spike_field_count by by apply Hm. by apply agrees_ret.
  - by apply agrees_wrong_type.
Qed.

(** The scan of the prototype stops where the records under the prefix do. *)
Lemma hgetall_loop_ok (p : bytes) (l : list (bytes * bytes)) out :
  Spike.hgetall_loop p (Ok <$> l) out =
  out ++ ((fun kv : bytes * bytes => (drop (length p) kv.1, kv.2)) <$> take_while (fun kv : bytes * bytes => p `prefix_of` kv.1) l).
Proof using Type.
  revert out. induction l as [|[k v] l IH]; intros out; cbn; [by rewrite app_nil_r|].
  destruct (decide (p `prefix_of` k)); [|cbn; by rewrite app_nil_r]. by rewrite IH, <- app_assoc.
Qed.

Lemma agrees_hgetall k : agrees typed (same_or []) (Spike.hgetall k) (hgetall k).
Proof using All.
  apply (agrees_typed _ k TYPE_HASH (fun o => match o with
    | None => mret []
    | Some meta =>
        items ← Spike.db_iterator_from (Spike.subkey_prefix k (version meta));
        mret (Spike.hgetall_loop (Spike.subkey_prefix k (version meta)) items []) end)).
  - intros [m|] Hm; [|by apply agrees_ret]. rewrite spike_subkey_prefix. set (p := subkey_prefix k (version m)).
    intros s t Ht. unfold engine_scan_prefix. unfold mbind, M_bind, Spike.M_bind, Spike.db_iterator_from.
    rewrite reliable_scan by apply Ht. rewrite collect_items_ok. intros _. eexists _, _. split; [done|]. split; [done|].
    rewrite db_reliable_iterator by apply Ht. rewrite hgetall_loop_ok, (twin_contents _ _ Ht).
    unfold entries_from. by rewrite scan_entries_seek.
  - by apply agrees_wrong_type.
Qed.

(** A batch of deletions commutes with one more. *)
Definition only_deletes (b : WriteBatch) : Prop := Forall (fun o => exists k, o = Delete k) (ops b).

Lemma apply_deletes b k m : only_deletes b -> apply_batch b (delete k m) = delete k (apply_batch b m).
Proof using Type.
  unfold only_deletes, apply_batch. intros Hb. revert m. induction Hb as [|o l [k' ->] _ IH]; intros m; [done|].
  cbn. rewrite <- IH. f_equal. apply delete_delete.
Qed.

Lemma agrees_hdel_loop k ver fields fc removed b :
  only_deletes b ->
  agrees typed (equally (fun x y => x = y /\ only_deletes x.2))
    (Spike.hdel_loop k ver fields fc removed b) (hdel_loop k ver fields fc removed b).
Proof using All.
  revert fc removed b. induction fields as [|f fields IH]; intros fc removed b Hb; [by apply agrees_ret|].
  eapply (agrees_bind _ eq); [apply agrees_get|]. intros o _ <-. destruct (is_some o); apply IH; [|done].
  apply Forall_app_2; [done|]. by repeat econstructor.
Qed.

(** The two programs end a removal that empties the hash in opposite orders. *)
Lemma agrees_empty k b : only_deletes b ->
  agrees typed (equally eq) (_ ← Spike.logical_delete k; Spike.db_write b) (_ ← engine_write b; logical_delete k).
Proof using All.
  intros Hb s t Ht.
  assert (Hr := twin_right _ _ Ht). unfold logical_delete, engine_write, mbind, M_bind.
  destruct (reliable_write (engine t) b Hr) as (e1 & Hw1 & Hr1). rewrite Hw1. cbn [with_engine_state engine].
  destruct (reliable_write e1 (batch_delete WriteBatch_new (meta_key k)) Hr1) as (e2 & Hw2 & Hr2). rewrite Hw2.
  pose proof (write_ok _ _ _ Hw1) as Hc1. pose proof (write_ok _ _ _ Hw2) as Hc2. intros _.
  pose proof (agrees_logical_delete k s t Ht) as Hdel. unfold logical_delete, engine_write, mbind, M_bind in Hdel.
  destruct (reliable_write (engine t) (batch_delete WriteBatch_new (meta_key k)) Hr) as (e3 & Hw3 & Hr3).
  rewrite Hw3 in Hdel. destruct (Hdel I) as (s1 & [] & Hs1 & Ht1 & _).
  destruct (reliable_write e3 b Hr3) as (e4 & Hw4 & Hr4).
  pose proof (agrees_write b s1 _ Ht1) as Hwr. unfold engine_write in Hwr. cbn in Hwr. rewrite Hw4 in Hwr.
  destruct (Hwr I) as (s2 & [] & Hs2 & [Hl2 _ Hc2' Hv2 Hn2 Hk2 Hi2 He2] & _).
  pose proof (write_ok _ _ _ Hw3) as Hc3. pose proof (write_ok _ _ _ Hw4) as Hc4.
  exists s2, tt. unfold Spike.M_bind. rewrite Hs1. split; [exact Hs2|]. split; [|done].
  split; try done. etransitivity; [exact Hc2'|]. cbn [engine]. etransitivity; [exact Hc4|].
  rewrite Hc3. cbn [engine with_versions with_engine_state]. rewrite Hc2, Hc1, !apply_batch_delete, !apply_batch_new. by apply apply_deletes.
Qed.

Lemma agrees_hdel k fields : agrees typed (same_or 0) (Spike.hdel k fields) (hdel k fields).
Proof using All.
  apply (agrees_typed _ k TYPE_HASH (fun o => match o with
    | None => mret 0
    | Some meta =>
        '(fc, removed, batch) ← Spike.hdel_loop k (version meta) fields (Spike.field_count meta) 0 WriteBatch_new;
        _ ← (if 0 <? removed then
               if fc =? 0 then _ ← Spike.logical_delete k; Spike.db_write batch
               else Spike.db_write (batch_put batch (Spike.meta_key k)
                      (Spike.Meta_encode (Spike.set_field_count meta fc)))
             else mret tt);
        mret removed end)); [|by apply agrees_wrong_type].
  intros [m|] Hm; [|by apply agrees_ret]. rewrite spike_field_count by by apply Hm.
  eapply agrees_bind; [by apply agrees_hdel_loop; constructor|].
  intros [[fc removed] b] _ [<- Hb]. eapply (agrees_bind _ eq); [|intros _ _ _; by apply agrees_ret].
  unfold finish_removal. destruct (0 <? removed); [|by apply agrees_ret].
  destruct (fc =? 0); [by apply agrees_empty|apply agrees_write].
Qed.

Lemma count_items_wraps (l : list (bytes * bytes)) n (t : State E) :
  in_i64 n -> count_items (Ok <$> l) n t = (t, Ok (wrap_i64 (n + Z.of_nat (length l)))).
Proof using Type.
  revert n. induction l as [|kv l IH]; intros n Hn; cbn [fmap list_fmap length count_items].
  - by rewrite Z.add_0_r, wrap_i64_small.
  - unfold lift. unfold mbind at 1, M_bind at 1. rewrite IH by (unfold in_i64, wrap_i64; pose proof (Z.mod_pos_bound (n + 1 + 2 ^ 63) (2 ^ 64)); lia).
    do 2 f_equal. unfold wrap_i64.
    replace ((n + 1 + 2 ^ 63) mod 2 ^ 64 - 2 ^ 63 + Z.of_nat (length l) + 2 ^ 63)
      with ((n + 1 + 2 ^ 63) mod 2 ^ 64 + Z.of_nat (length l)) by lia.
    rewrite Z.add_mod_idemp_l by lia. do 2 f_equal. lia.
Qed.

Lemma agrees_dbsize : agrees typed (equally eq) Spike.dbsize dbsize.
Proof using All.
  intros s t Ht. unfold dbsize, engine_scan_prefix, mbind, M_bind. rewrite reliable_scan by apply Ht.
  rewrite count_items_wraps by done. intros _. eexists s, _. split; [done|]. split; [done|].
  cbn [equally]. f_equal. rewrite reliable_iterator_start, (twin_contents _ _ Ht), scan_entries_filter by apply Ht.
  unfold Spike.ok_keys. rewrite Z.add_0_l. f_equal.
  induction (sorted_entries (contents (engine t))) as [|[k v] l IH]; [done|].
  cbn. assert (Hp : head k = Some Spike.META_PREFIX <-> [META_PREFIX] `prefix_of` k).
  { destruct k as [|b k]; cbn; [split; [done|by intros [? ?]]|].
    split; [intros [= ->]; by exists k|by intros [k' [= -> _]]]. }
  destruct (decide (head k = _)), (decide ([META_PREFIX] `prefix_of` k)); cbn; [by f_equal|tauto|tauto|exact IH].
Qed.

End Calls.

(** ** The two programs side by side *)

(** The prototype's operation for one of the crates'; it has no sets, sorted sets
    or lists. *)
Definition counterpart (op : Op) : option (Spike.M DB Reply) :=
  match op with
  | OSet k v e => Some (_ ← Spike.set k v e; mret RUnit)
  | OGet k => Some (v ← Spike.get k; mret (RValue v))
  | OExists k => Some (b ← Spike.exists_ k; mret (RBool b))
  | ODel k => Some (b ← Spike.del k; mret (RBool b))
  | OExpireAt k t => Some (n ← Spike.expire_at k t; mret (RBool (n =? 1)))
  | OPttl k => Some (n ← Spike.pttl k; mret (RInt n))
  | OHset k p => Some (n ← Spike.hset k p; mret (RInt n))
  | OHget k f => Some (v ← Spike.hget k f; mret (RValue v))
  | OHgetall k => Some (l ← Spike.hgetall k; mret (RPairs l))
  | OHdel k l => Some (n ← Spike.hdel k l; mret (RInt n))
  | OHlen k => Some (n ← Spike.hlen k; mret (RInt n))
  | OHexists k f => Some (b ← Spike.hexists k f; mret (RBool b))
  | ODbsize => Some (n ← Spike.dbsize; mret (RInt n))
  | _ => None
  end.

(** What the prototype answers where the crates refuse the key's type, unless it
    is an HSET. *)
Definition taken_as_missing (op : Op) : option Reply :=
  match op with
  | OGet _ | OHget _ _ => Some (RValue None)
  | OHgetall _ => Some (RPairs [])
  | OHdel _ _ | OHlen _ => Some (RInt 0)
  | OHexists _ _ => Some (RBool false)
  | _ => None
  end.

(** The answer expected of the prototype, if the crates answer [r]. *)
Definition expected (op : Op) (r : result EngineError Reply) : option Reply :=
  match r with
  | Ok a => Some a
  | Err WrongType => taken_as_missing op
  | Err _ => None
  end.

Lemma agrees_reply {A C} typed (R : A -> result EngineError C -> Prop) (f : A -> Reply) (g : C -> Reply)
  (m : Spike.M DB A) (n : M E C) s t t' r :
  agrees typed R m n -> twin s t -> (g <$> n) t = (t', r) ->
  match r with Ok _ => True | Err WrongType => typed = true | Err _ => False end ->
  exists s' x y, (x ← m; mret (f x)) s = (s', Some (f x)) /\ twin s' t' /\ R x y /\
    r = match y with Ok c => Ok (g c) | Err e => Err e end.
Proof using Type.
  intros Hm Ht Hn Hr. specialize (Hm s t Ht). unfold fmap, M_fmap in Hn.
  destruct (n t) as [t1 y]. assert (t1 = t' /\ r = match y with Ok c => Ok (g c) | Err e => Err e end) as [-> ->].
  { by destruct y; injection Hn as <- <-. }
  destruct Hm as (s' & x & Hs & Ht' & HR); [by destruct y|].
  exists s', x, y. unfold mbind, Spike.M_bind. by rewrite Hs.
Qed.

Lemma exec_agrees op m s t t' r a :
  counterpart op = Some m -> twin s t -> exec op t = (t', r) -> expected op r = Some a ->
  exists s', m s = (s', Some a) /\ twin s' t'.
Proof using All.
  intros Hop Ht Hx Ha.
  destruct op; try done; injection Hop as <-; cbn [exec] in Hx;
  match type of Hx with (?g <$> ?n) _ = _ =>
    match goal with |- exists s', (x ← ?m; mret (@?f x)) _ = _ /\ _ =>
      edestruct (fun ty R H => agrees_reply ty R f g m n s t t' r H Ht Hx) as (s' & x & y & Hs & Ht' & HR & ->);
      [ first
        [ apply (agrees_set (typed := true)) | apply (agrees_get_string (typed := true))
        | apply (agrees_exists (typed := true)) | apply (agrees_del (typed := true))
        | apply (agrees_expire_at (typed := true)) | apply (agrees_pttl (typed := true))
        | apply (agrees_hset (typed := false)); reflexivity | apply (agrees_hget (typed := true))
        | apply (agrees_hgetall (typed := true)) | apply (agrees_hdel (typed := true))
        | apply (agrees_hlen (typed := true)) | apply (agrees_hexists (typed := true))
        | apply (agrees_dbsize (typed := true)) ]
      | by destruct r as [|[]]
      | exists s'; split; [|exact Ht']; rewrite Hs; f_equal;
        destruct y as [c|[]]; cbn in HR, Ha |- *; subst; try done; try congruence; injection Ha as <-; by destruct c ]
    end
  end.
Qed.
(** A run of the prototype's operations, up to a panic. *)
Fixpoint spike_run (ms : list (Spike.M DB Reply)) (s : Spike.Store DB) : Spike.Store DB * list Reply :=
  match ms with
  | [] => (s, [])
  | m :: ms' =>
      match m s with
      | (s1, Some a) => let '(s2, answers) := spike_run ms' s1 in (s2, a :: answers)
      | (s1, None) => (s1, [])
      end
  end.

End Agree.

(** ** FLUSHDB *)

Lemma apply_batch_deletes (ks : list bytes) (b : WriteBatch) (m : gmap bytes bytes) (k : bytes) :
  apply_batch (fold_left batch_delete ks b) m !! k = if decide (k ∈ ks) then None else apply_batch b m !! k.
Proof.
  revert b. induction ks as [|k' ks IH]; intros b; cbn [fold_left]; [by rewrite decide_False by set_solver|].
  rewrite IH, apply_batch_delete. destruct (decide (k ∈ ks)) as [Hin|Hin]; [by rewrite decide_True by set_solver|].
  destruct (decide (k = k')) as [->|Hne].
  - rewrite decide_True by set_solver. apply lookup_delete_eq.
  - rewrite decide_False by set_solver. by apply lookup_delete_ne.
Qed.

Lemma ok_keys_all {DB} `{RocksDb DB} (l : list (bytes * bytes)) : Spike.ok_keys (Ok <$> l) = l.*1.
Proof. induction l as [|[k v] l IH]; [done|]. exact (f_equal (cons k) IH). Qed.

(** FLUSHDB of the prototype removes every record but drops no version: it looks
    for the tracked keys after it has deleted their records. *)
Theorem flushdb_keeps_versions {DB} `{SpikeRocksLaws DB} (s : Spike.Store DB) :
  db_reliable (Spike.db s) ->
  exists s', Spike.flushdb s = (s', Some tt) /\ db_contents (Spike.db s') = ∅ /\ Spike.versions s' = Spike.versions s.
Proof.
  intros Hr. unfold Spike.flushdb, Spike.db_iterator_start, Spike.versions_clear, mbind, Spike.M_bind.
  rewrite reliable_iterator_start, ok_keys_all, sorted_entries_keys by done. set (b := fold_left batch_delete _ _).
  destruct (db_reliable_write (Spike.db s) (to_rocks_batch b) Hr) as (d & Hw & Hrd).
  pose proof (rocks_write_ok _ _ _ Hw) as Hc. rewrite to_rocks_batch_effect in Hc.
  assert (Hempty : db_contents d = ∅).
  { rewrite Hc. apply map_eq. intros k. unfold b. rewrite apply_batch_deletes, lookup_empty, apply_batch_new.
    destruct (decide _) as [|Hk]; [done|]. rewrite sorted_keys_elem in Hk. by apply eq_None_not_Some. }
  unfold Spike.db_write, Spike.expect_written. rewrite Hw. cbn [fst snd].
  unfold Spike.db_iterator_start, Spike.update_versions. cbn [Spike.with_db Spike.db].
  rewrite reliable_iterator_start, Hempty, sorted_entries_empty by done.
  eexists. split; [done|]. by split.
Qed.

Lemma flushdb_keeps_versions_witness :
  let s := Spike.mk_Store (mk_MemDb {[ meta_key (B "h") := Meta_encode (mk_Meta TYPE_HASH 5 0 (u32_be 0)) ]} [] None)
             {[ B "h" := 5 ]} 5 demo_clock 0 in
  exists s', Spike.flushdb s = (s', Some tt) /\ db_contents (Spike.db s') = ∅ /\ Spike.versions s' = {[ B "h" := 5 ]}.
Proof.
  intros s. apply (flushdb_keeps_versions s). by split; [constructor|].
Defined.

(** ** Witness *)

Definition demo_ops : list Op := [
  OHset (B "h") [(B "f", B "1"); (B "g", B "2")]; OGet (B "h"); OSet (B "s") (B "v") 1700000000050;
  OHdel (B "h") [B "f"; B "g"]; OPttl (B "s"); OHgetall (B "s"); ODbsize; OExpireAt (B "h") 5; ODel (B "s")].

Definition demo_spike : Spike.Store MemDb := Spike.mk_Store MemDb_empty ∅ 0 demo_clock 0.

Definition demo_spike_ops : list (Spike.M MemDb Reply) := omap counterpart demo_ops.

