(* ===== verification/SpikeResp.v ===== *)
(** * The prototype's protocol

    Models spike/rust/src/resp.rs: replies and their RESP2 text, and the blocking
    reader of commands.  A reader is the bytes the client still has to send before
    it closes, so a read that wants more than there is meets the end of the
    stream; reading errors other than that are the operating system's and do not
    occur here.  What the prototype writes is what the crates' encoder writes, and
    it reads what a client of the crates sends. *)

From S2P Require Import Prelude F64 Text F64Text Frame Encode Decode Streaming RoundTrip Config.

Module Resp.

#[local] Unset Elimination Schemes.

Inductive Reply : Type :=
  | Simple (s : bytes)
  | Error (s : bytes)
  | Int (n : Z)
  | Bulk (b : option bytes)
  | Array (items : list Reply).

#[local] Set Elimination Schemes.

Lemma Reply_ind (P : Reply -> Prop) :
  (forall s, P (Simple s)) -> (forall s, P (Error s)) -> (forall n, P (Int n)) -> (forall b, P (Bulk b)) ->
  (forall items, Forall P items -> P (Array items)) -> forall r, P r.
Proof.
  intros HS HE HI HB HA. fix go 1. intros [s|s|n|b|items]; [apply HS|apply HE|apply HI|apply HB|apply HA].
  induction items as [|r items IH]; constructor; [apply go|exact IH].
Qed.

Definition ok : Reply := Simple (B "OK").

Fixpoint write_to (r : Reply) : bytes :=
  match r with
  | Simple s => B "+" ++ s ++ CRLF
  | Error s => B "-" ++ s ++ CRLF
  | Int n => B ":" ++ int_display n ++ CRLF
  | Bulk None => B "$-1" ++ CRLF
  | Bulk (Some b) => B "$" ++ int_display (Z.of_nat (length b)) ++ CRLF ++ b ++ CRLF
  | Array items => B "*" ++ int_display (Z.of_nat (length items)) ++ CRLF ++ concat (write_to <$> items)
  end.

(** ** Reading *)

(** An [io::Error], of which the reader makes two, or a panic. *)
Inductive Failure : Type :=
  | InvalidData (msg : bytes)
  | UnexpectedEof
  | Panic.

(** [read_until(b'\n', ..)]: up to the newline, with it, or to the end. *)
Fixpoint read_until_newline (input : bytes) : bytes * bytes :=
  match input with
  | [] => ([], [])
  | b :: input' =>
      if decide (b = "010"%byte) then ([b], input')
      else let '(line, rest) := read_until_newline input' in (b :: line, rest)
  end.

Fixpoint strip_newlines_rev (line : bytes) : bytes :=
  match line with
  | b :: line' => if decide (b = "010"%byte \/ b = "013"%byte) then strip_newlines_rev line' else line
  | [] => []
  end.

(** [None] at the end of the stream, otherwise the line without its ending. *)
Definition read_line (input : bytes) : bytes * option bytes :=
  let '(raw, rest) := read_until_newline input in
  (rest, if bool_decide (raw = []) then None else Some (rev (strip_newlines_rev (rev raw)))).

Definition parse_int (b : bytes) : result Failure Z :=
  match (if utf8_valid b then i64_from_str (trim b) else None) with
  | Some n => Ok n
  | None => Err (InvalidData (B "invalid integer"))
  end.

(** [vec![0u8; n]] and [Vec::with_capacity(n)] panic when the size in bytes is
    above [isize::MAX]; memory is taken to suffice below. *)
Definition too_large (n size : Z) : bool := i64_max <? n * size.

(** The size of a [Vec<u8>] in bytes. *)
Definition VEC_SIZE : Z := 24.

(** One argument: its bytes, or [None] at the end of the stream. *)
Definition read_arg (input : bytes) : bytes * result Failure (option bytes) :=
  match read_line input with
  | (input, None) => (input, Ok None)
  | (input, Some hdr) =>
      match hdr with
      | b :: digits =>
          if decide (b = "$"%byte) then
            match parse_int digits with
            | Err e => (input, Err e)
            | Ok len =>
                if len <? 0 then (input, Ok (Some []))
                else if too_large (len + 2) 1 then (input, Err Panic)
                else if Z.of_nat (length input) <? len + 2 then ([], Err UnexpectedEof)
                else (drop (Z.to_nat (len + 2)) input, Ok (Some (take (Z.to_nat len) input)))
            end
          else (input, Err (InvalidData (B "expected bulk string")))
      | [] => (input, Err (InvalidData (B "expected bulk string")))
      end
  end.

(** [for _ in 0..count].  An argument takes a byte at least, so as many turns as
    there are bytes, and one for the end of the stream, are enough
    ([read_args_fuel]). *)
Fixpoint read_args (fuel : nat) (count : Z) (args : list bytes) (input : bytes) :
  bytes * result Failure (option (list bytes)) :=
  if count <=? 0 then (input, Ok (Some args))
  else
    match fuel with
    | O => (input, Ok None)
    | S fuel' =>
        match read_arg input with
        | (input, Ok (Some a)) => read_args fuel' (count - 1) (args ++ [a]) input
        | (input, Ok None) => (input, Ok None)
        | (input, Err e) => (input, Err e)
        end
    end.

(** [line.split(|b| b is space or tab).filter(|s| !s.is_empty())]. *)
Fixpoint split_inline (line cur : bytes) : list bytes :=
  let emit := if bool_decide (cur = []) then [] else [cur] in
  match line with
  | [] => emit
  | b :: line' =>
      if decide (b = " "%byte \/ b = "009"%byte) then emit ++ split_inline line' [] else split_inline line' (cur ++ [b])
  end.

Definition read_command (input : bytes) : bytes * result Failure (option (list bytes)) :=
  match read_line input with
  | (input, None) => (input, Ok None)
  | (input, Some line) =>
      match line with
      | [] => (input, Ok (Some []))
      | b :: digits =>
          if decide (b = "*"%byte) then
            match parse_int digits with
            | Err e => (input, Err e)
            | Ok count =>
                if count <=? 0 then (input, Ok (Some []))
                else if too_large count VEC_SIZE then (input, Err Panic)
                else read_args (S (length input)) count [] input
            end
          else (input, Ok (Some (split_inline line [])))
      end
  end.

Example read_get : read_command (B "*2" ++ CRLF ++ B "$3" ++ CRLF ++ B "GET" ++ CRLF ++ B "$1" ++ CRLF ++ B "k" ++ CRLF ++ B "rest") =
  (B "rest", Ok (Some [B "GET"; B "k"])).
Proof. vm_compute. reflexivity. Qed.
Example read_inline : read_command (B "  SET k	v" ++ CRLF ++ B "rest") = (B "rest", Ok (Some [B "SET"; B "k"; B "v"])).
Proof. vm_compute. reflexivity. Qed.
(** The bytes after a value are dropped unread, whatever they are. *)
Example read_unterminated : read_command (B "*1" ++ CRLF ++ B "$1" ++ CRLF ++ B "kxyz") = (B "z", Ok (Some [B "k"])).
Proof. vm_compute. reflexivity. Qed.

(** ** Replies are what the crates write *)

Fixpoint frame_of (r : Reply) : Frame :=
  match r with
  | Simple s => Frame.Simple s
  | Error s => Frame.Error s
  | Int n => Frame.Integer n
  | Bulk None => Frame.Null
  | Bulk (Some b) => Frame.Bulk b
  | Array items => Frame.Array (frame_of <$> items)
  end.

(** Lengths that an [i64] holds. *)
Fixpoint lengths_fit (r : Reply) : bool :=
  match r with
  | Bulk (Some b) => Z.of_nat (length b) <=? i64_max
  | Array items => (Z.of_nat (length items) <=? i64_max) && forallb lengths_fit items
  | _ => true
  end.

Lemma len_i64_fits {A} (l : list A) : (Z.of_nat (length l) <=? i64_max) = true -> len_i64 l = Z.of_nat (length l).
Proof. intros H%Z.leb_le. unfold len_i64. apply wrap_i64_small. unfold in_i64, i64_max in *. lia. Qed.

Theorem write_to_encodes r : lengths_fit r = true -> write_to r = encode_to_vec (frame_of r) V2.
Proof.
  induction r as [s|s|n|[b|]|items IH] using Reply_ind; intros Hfit; try done.
  - unfold encode_to_vec. cbn [frame_of encode]. rewrite encode_bulk_text, len_i64_fits by exact Hfit. done.
  - cbn [lengths_fit] in Hfit. apply andb_true_iff in Hfit as [Hlen Hall].
    unfold encode_to_vec. cbn [frame_of encode]. rewrite encode_items, encode_aggregate_text.
    rewrite len_i64_fits by by rewrite length_fmap. rewrite length_fmap. cbn [write_to].
    change (B "*" ++ ?x) with ("*"%byte :: x). cbn [app]. rewrite <- app_assoc. do 3 f_equal.
    unfold encode_all. rewrite <- list_fmap_compose. f_equal.
    apply list_fmap_ext. intros i r Hr. rewrite list.Forall_forall in IH. apply IH.
    + by eapply list_elem_of_lookup_2.
    + rewrite forallb_forall in Hall. apply Hall, list_elem_of_In. by eapply list_elem_of_lookup_2.
Qed.

(** ** Requests of the crates' clients are read *)

(** A character that is neither white space nor beyond ASCII. *)
Definition graphic (b : byte) : bool := in_range 33 126 b.

Lemma int_display_graphic n : Forall (fun b => graphic b = true) (int_display n).
Proof.
  assert (H : forall m, Forall (fun b => graphic b = true) (dec_digits m)).
  { intros m. eapply List.Forall_impl; [|apply digits_go_digits; constructor].
    intros b Hb%in_range_spec. apply in_range_spec. lia. }
  unfold int_display. destruct (n <? 0); [by constructor|done].
Qed.

Lemma utf8_chars_graphic l : Forall (fun b => graphic b = true) l -> utf8_chars l = (fun b => [b]) <$> l.
Proof.
  unfold utf8_chars. induction 1 as [|b l Hb _ IH]; [done|]. cbn [length utf8_chars_go].
  assert (utf8_follow b l = 0%nat) as -> by (unfold utf8_follow; by destruct b).
  exact (f_equal (cons [b]) IH).
Qed.

Lemma graphic_no_space b : graphic b = true -> is_whitespace [b] = false.
Proof. by destruct b. Qed.

Lemma trim_graphic l : Forall (fun b => graphic b = true) l -> trim l = l.
Proof.
  assert (Hdrop : forall l, Forall (fun b => graphic b = true) l ->
    drop_whitespace ((fun b => [b]) <$> l) = (fun b => [b]) <$> l).
  { intros l0 [|b l1 Hb _]; [done|]. cbn. by rewrite graphic_no_space. }
  intros Hl. unfold trim. rewrite utf8_chars_graphic, Hdrop by done. unfold fmap in *.
  change (@list_fmap byte bytes) with (@map byte bytes) in *. rewrite <- map_rev, Hdrop by by apply List.Forall_rev.
  rewrite map_rev, rev_involutive. clear. induction l as [|b l IH]; [done|]. exact (f_equal (cons b) IH).
Qed.

Lemma parse_int_display n : in_i64 n -> parse_int (int_display n) = Ok n.
Proof.
  intros Hn. unfold parse_int. rewrite int_display_utf8, trim_graphic by apply int_display_graphic.
  by rewrite i64_from_str_display.
Qed.

(** A line of graphic characters and its ending. *)
Lemma read_line_graphic line rest :
  line <> [] -> Forall (fun b => graphic b = true) line ->
  read_line (line ++ CRLF ++ rest) = (rest, Some line).
Proof.
  intros Hne Hl.
  assert (Hread : read_until_newline (line ++ CRLF ++ rest) = (line ++ CRLF, rest)).
  { induction Hl as [|b l Hb _ IH]; [done|]. cbn [app read_until_newline].
    rewrite decide_False by by intros ->. destruct l as [|b' l]; [done|]. by rewrite IH. }
  unfold read_line. rewrite Hread, bool_decide_eq_false_2 by by destruct line.
  rewrite rev_app_distr. cbn [rev app CRLF]. f_equal. f_equal. cbn [strip_newlines_rev].
  assert (Hstrip : strip_newlines_rev (rev line) = rev line).
  { destruct (rev line) as [|b l] eqn:E; [done|]. cbn [strip_newlines_rev].
    assert (Hb : graphic b = true).
    { rewrite list.Forall_forall in Hl. apply Hl. apply list_elem_of_In, in_rev. rewrite E. by left. }
    rewrite decide_False; [done|]. by intros [-> | ->]. }
  etransitivity; [|apply rev_involutive]. f_equal. exact Hstrip.
Qed.

Lemma read_arg_bulk (a rest : bytes) :
  Z.of_nat (length a) + 2 <= i64_max ->
  read_arg (encode_to_vec (Frame.Bulk a) V2 ++ rest) = (rest, Ok (Some a)).
Proof.
  intros Hfit. unfold encode_to_vec. cbn [encode]. rewrite encode_bulk_text, len_i64_fits by (apply Z.leb_le; lia).
  assert (Htext : ("$"%byte :: int_display (Z.of_nat (length a)) ++ CRLF ++ a ++ CRLF) ++ rest =
    ("$"%byte :: int_display (Z.of_nat (length a))) ++ CRLF ++ (a ++ CRLF ++ rest)).
  { cbn [app]. by rewrite <- !app_assoc. }
  rewrite Htext. unfold read_arg. rewrite read_line_graphic;
    [|done|constructor; [done|apply int_display_graphic]].
  rewrite decide_True by done. rewrite parse_int_display by (unfold in_i64, i64_max in *; lia).
  destruct (Z.ltb_spec (Z.of_nat (length a)) 0); [lia|]. unfold too_large.
  destruct (Z.ltb_spec i64_max ((Z.of_nat (length a) + 2) * 1)); [lia|].
  rewrite !length_app. change (length CRLF) with 2%nat.
  destruct (Z.ltb_spec (Z.of_nat (length a + (2 + length rest))) (Z.of_nat (length a) + 2)); [lia|].
  replace (Z.to_nat (Z.of_nat (length a) + 2)) with (length a + 2)%nat by lia. rewrite Nat2Z.id.
  rewrite take_app_length. do 2 f_equal. rewrite app_assoc, drop_app_length'; [done|]. by rewrite length_app.
Qed.

Lemma read_args_bulks fuel (done_ args : list bytes) (rest : bytes) :
  (length args < fuel)%nat -> Forall (fun a => Z.of_nat (length a) + 2 <= i64_max) args ->
  read_args fuel (Z.of_nat (length args)) done_
    (concat ((fun a => encode_to_vec (Frame.Bulk a) V2) <$> args) ++ rest) = (rest, Ok (Some (done_ ++ args))).
Proof.
  intros Hfuel Hall. revert fuel done_ Hfuel. induction Hall as [|a args Ha _ IH]; intros fuel done_ Hfuel.
  - destruct fuel; [lia|]. cbn. by rewrite app_nil_r.
  - destruct fuel as [|fuel]; [lia|]. cbn [length read_args fmap list_fmap concat] in *.
    destruct (Z.leb_spec (Z.of_nat (S (length args))) 0); [lia|].
    rewrite <- app_assoc, read_arg_bulk by done.
    replace (Z.of_nat (S (length args)) - 1) with (Z.of_nat (length args)) by lia.
    rewrite IH by lia. by rewrite <- app_assoc.
Qed.

Lemma length_bulks (args : list bytes) :
  (length args <= length (concat ((fun a => encode_to_vec (Frame.Bulk a) V2) <$> args)))%nat.
Proof.
  induction args as [|a args IH]; [done|].
  assert (1 <= length (encode_to_vec (Frame.Bulk a) V2))%nat.
  { unfold encode_to_vec. cbn [encode]. rewrite encode_bulk_text. cbn [length]. lia. }
  rewrite fmap_cons. cbn [concat length]. rewrite length_app. lia.
Qed.

(** The prototype reads back any request a client of the crates writes, up to the
    sizes it can allocate. *)
Theorem read_request (args : list bytes) (rest : bytes) :
  args <> [] -> Z.of_nat (length args) * VEC_SIZE <= i64_max ->
  Forall (fun a => Z.of_nat (length a) + 2 <= i64_max) args ->
  read_command (encode_request args ++ rest) = (rest, Ok (Some args)).
Proof.
  intros Hne Hn Hall. unfold VEC_SIZE in *. set (cnt := Z.of_nat (length args)).
  assert (Hpos : 0 < cnt) by (destruct args; [done|cbn in cnt; lia]).
  unfold encode_request, encode_to_vec. cbn [encode].
  rewrite encode_items, encode_aggregate_text, len_i64_fits, length_fmap
    by (rewrite length_fmap; apply Z.leb_le; fold cnt; lia).
  unfold encode_all. rewrite <- list_fmap_compose. fold cnt.
  set (items := concat ((fun a => encode_to_vec (Frame.Bulk a) V2) <$> args)).
  change (concat _) with items.
  assert (Htext : (("*"%byte :: int_display cnt ++ CRLF) ++ items) ++ rest =
    ("*"%byte :: int_display cnt) ++ CRLF ++ (items ++ rest)) by (cbn [app]; by rewrite <- !app_assoc).
  rewrite Htext. unfold read_command. rewrite read_line_graphic;
    [|done|constructor; [done|apply int_display_graphic]].
  rewrite decide_True by done. rewrite parse_int_display by (unfold in_i64, i64_max in *; lia).
  destruct (Z.leb_spec cnt 0); [lia|]. unfold too_large.
  destruct (Z.ltb_spec i64_max (cnt * VEC_SIZE)); [unfold VEC_SIZE in *; lia|].
  apply (read_args_bulks _ [] args rest); [|done]. rewrite length_app. unfold items.
  pose proof (length_bulks args). lia.
Qed.

(** ** The fuel of [read_args] *)

Lemma read_line_shorter input rest line : read_line input = (rest, Some line) -> (length rest < length input)%nat.
Proof.
  unfold read_line. destruct (read_until_newline input) as [raw r] eqn:E. case_bool_decide as Hraw; [done|].
  intros [= <- _]. assert (Hlen : length input = (length raw + length r)%nat).
  { clear Hraw. revert raw r E. induction input as [|b input IH]; intros raw r; cbn [read_until_newline].
    - by intros [= <- <-].
    - destruct (decide _); [by intros [= <- <-]|]. destruct (read_until_newline input) as [raw' r'].
      intros [= <- <-]. cbn. by rewrite (IH raw' r'). }
  destruct raw; [done|]. cbn in Hlen. lia.
Qed.

Lemma read_arg_shorter input rest a : read_arg input = (rest, Ok (Some a)) -> (length rest < length input)%nat.
Proof.
  unfold read_arg. destruct (read_line input) as [r [hdr|]] eqn:E; [|done].
  pose proof (read_line_shorter _ _ _ E). destruct hdr as [|b digits]; [done|].
  destruct (decide _); [|done]. destruct (parse_int digits) as [len|]; [|done].
  destruct (len <? 0); [by intros [= <- _]|]. destruct (too_large _ _); [done|]. destruct (_ <? _); [done|].
  intros [= <- _]. rewrite length_drop. lia.
Qed.

(** More turns than bytes are left change nothing. *)
Lemma read_args_fuel f1 f2 count args input :
  (length input < f1)%nat -> (length input < f2)%nat ->
  read_args f1 count args input = read_args f2 count args input.
Proof.
  revert f2 count args input. induction f1 as [|f1 IH]; intros [|f2] count args input H1 H2; [lia..|].
  cbn [read_args]. destruct (count <=? 0); [done|].
  destruct (read_arg input) as [rest [[a|]|e]] eqn:E; [|done..].
  pose proof (read_arg_shorter _ _ _ E). apply IH; lia.
Qed.

(** A client that announces more arguments than a vector can hold makes the thread
    panic before any of them is read. *)
Example huge_count : read_command (B "*9223372036854775807" ++ CRLF) = ([], Err Panic).
Proof. vm_compute. reflexivity. Qed.

End Resp.
