(* ===== verification/SpikeCommands.v ===== *)
(** * The prototype's server

    Models spike/rust/src/commands.rs and main.rs: the dispatch of a command, the
    loop of a connection and the command line.  A thread that panics ends its
    connection; sockets and output errors are outside. *)

From S2P Require Import Prelude Text Frame Encode RoundTrip Config Encoding Engine Gc Rocks RocksOpen Store.
From S2P Require Import StoreRefine SpikeEncoding SpikeStore SpikeResp.

Module Prototype.
Import Resp.

Definition upper (b : bytes) : bytes := to_ascii_uppercase (from_utf8_lossy b).

Definition wrong_args (cmd : bytes) : Reply :=
  Error (B "ERR wrong number of arguments for '" ++ to_ascii_lowercase cmd ++ B "' command").

Definition syntax_error : Reply := Error (B "ERR syntax error").
Definition not_an_integer : Reply := Error (B "ERR value is not an integer or out of range").

Definition parse_u64 (b : bytes) : option Z :=
  if utf8_valid b then uint_from_str u64_max (trim b) else None.

Section Dispatch.
Context {DB : Type} `{SpikeRocks DB}.

Abbreviation Run := (Spike.M DB).

(** [a.iter().filter(|k| f(k)).count()]. *)
Fixpoint count_if (f : bytes -> Run bool) (keys : list bytes) : Run Z :=
  match keys with
  | [] => mret 0
  | k :: rest => b ← f k; n ← count_if f rest; mret (if (b : bool) then n + 1 else n)
  end.

(** The options of SET from [a[i]] on: the expiry, or the reply that ends the
    command. *)
Fixpoint set_options (opts : list bytes) (expire : Z) : Run (Z + Reply) :=
  match opts with
  | [] => mret (inl expire)
  | opt :: rest =>
      let name := upper opt in
      let unit :=
        if bool_decide (name = B "EX") then Some 1000 else if bool_decide (name = B "PX") then Some 1 else None in
      match unit with
      | None => mret (inr syntax_error)
      | Some unit_ms =>
          match rest with
          | [] => mret (inr syntax_error)
          | raw :: rest' =>
              match parse_u64 raw with
              | Some n => now ← Spike.now_ms; set_options rest' (wrap_u64 (now + wrap_u64 (n * unit_ms)))
              | None => mret (inr not_an_integer)
              end
          end
      end
  end.

Definition cmd_set (a : list bytes) : Run Reply :=
  match a with
  | key :: value :: opts =>
      r ← set_options opts 0;
      match r with
      | inr reply => mret reply
      | inl expire => _ ← Spike.set key value expire; mret ok
      end
  | _ => mret (wrong_args (B "set"))
  end.

Definition cmd_expire (a : list bytes) (unit_ms : Z) : Run Reply :=
  match a with
  | [key; raw] =>
      match parse_u64 raw with
      | Some n =>
          now ← Spike.now_ms;
          r ← Spike.expire_at key (wrap_u64 (now + wrap_u64 (n * unit_ms)));
          mret (Int r)
      | None => mret not_an_integer
      end
  | _ => mret (wrong_args (B "expire"))
  end.

Definition cmd_ttl (a : list bytes) (seconds : bool) : Run Reply :=
  match a with
  | [key] =>
      pttl ← Spike.pttl key;
      mret (if pttl <? 0 then Int pttl
            else if seconds then Int (Z.quot (wrap_i64 (pttl + 999)) 1000) else Int pttl)
  | _ => mret (wrong_args (B "ttl"))
  end.

(** [while i + 1 < a.len()]: the arguments in twos. *)
Fixpoint pairs_of (l : list bytes) : list (bytes * bytes) :=
  match l with
  | f :: v :: rest => (f, v) :: pairs_of rest
  | _ => []
  end.

Definition cmd_hset (a : list bytes) (cmd : bytes) : Run Reply :=
  match a with
  | key :: rest =>
      if Nat.ltb (length a) 3 || negb ((length a - 1) mod 2 =? 0)%nat then mret (wrong_args (B "hset"))
      else
        created ← Spike.hset key (pairs_of rest);
        mret (if bool_decide (cmd = B "HMSET") then ok else Int created)
  | [] => mret (wrong_args (B "hset"))
  end.

(** The replies of HMGET, one HGET each. *)
Fixpoint hget_all_of (key : bytes) (fields : list bytes) : Run (list Reply) :=
  match fields with
  | [] => mret []
  | f :: rest => v ← Spike.hget key f; l ← hget_all_of key rest; mret (Bulk v :: l)
  end.

Definition is_cmd (cmd : bytes) (names : list bytes) : bool := bool_decide (cmd ∈ names).

(** The match over the command's name, [a] being the arguments after it. *)
Definition run_command (cmd : bytes) (a : list bytes) : Run Reply :=
  if is_cmd cmd [B "PING"] then
    mret (match a with [] => Simple (B "PONG") | x :: _ => Bulk (Some x) end)
  else if is_cmd cmd [B "ECHO"] then
    mret (match a with [x] => Bulk (Some x) | _ => wrong_args (B "echo") end)
  else if is_cmd cmd [B "CLIENT"; B "SELECT"; B "HELLO"] then mret ok
  else if is_cmd cmd [B "COMMAND"] then mret (Array [])
  else if is_cmd cmd [B "SET"] then cmd_set a
  else if is_cmd cmd [B "GET"] then
    match a with [k] => v ← Spike.get k; mret (Bulk v) | _ => mret (wrong_args (B "get")) end
  else if is_cmd cmd [B "DEL"] then
    match a with [] => mret (wrong_args (B "del")) | _ => n ← count_if Spike.del a; mret (Int n) end
  else if is_cmd cmd [B "EXISTS"] then
    match a with [] => mret (wrong_args (B "exists")) | _ => n ← count_if Spike.exists_ a; mret (Int n) end
  else if is_cmd cmd [B "TYPE"] then
    match a with [k] => t ← Spike.type_of k; mret (Simple t) | _ => mret (wrong_args (B "type")) end
  else if is_cmd cmd [B "EXPIRE"] then cmd_expire a 1000
  else if is_cmd cmd [B "PEXPIRE"] then cmd_expire a 1
  else if is_cmd cmd [B "TTL"] then cmd_ttl a true
  else if is_cmd cmd [B "PTTL"] then cmd_ttl a false
  else if is_cmd cmd [B "HSET"; B "HMSET"] then cmd_hset a cmd
  else if is_cmd cmd [B "HGET"] then
    match a with [k; f] => v ← Spike.hget k f; mret (Bulk v) | _ => mret (wrong_args (B "hget")) end
  else if is_cmd cmd [B "HMGET"] then
    match a with
    | k :: _ :: _ => l ← hget_all_of k (drop 1 a); mret (Array l)
    | _ => mret (wrong_args (B "hmget"))
    end
  else if is_cmd cmd [B "HGETALL"] then
    match a with
    | [k] => l ← Spike.hgetall k; mret (Array (concat ((fun kv => [Bulk (Some kv.1); Bulk (Some kv.2)]) <$> l)))
    | _ => mret (wrong_args (B "hgetall"))
    end
  else if is_cmd cmd [B "HDEL"] then
    match a with
    | k :: _ :: _ => n ← Spike.hdel k (drop 1 a); mret (Int n)
    | _ => mret (wrong_args (B "hdel"))
    end
  else if is_cmd cmd [B "HLEN"] then
    match a with [k] => n ← Spike.hlen k; mret (Int n) | _ => mret (wrong_args (B "hlen")) end
  else if is_cmd cmd [B "HEXISTS"] then
    match a with
    | [k; f] => b ← Spike.hexists k f; mret (Int (if (b : bool) then 1 else 0))
    | _ => mret (wrong_args (B "hexists"))
    end
  else if is_cmd cmd [B "FLUSHDB"; B "FLUSHALL"] then _ ← Spike.flushdb; mret ok
  else if is_cmd cmd [B "DBSIZE"] then n ← Spike.dbsize; mret (Int n)
  else if is_cmd cmd [B "COMPACT"] then _ ← Spike.compact; mret ok
  else if is_cmd cmd [B "RAWCOUNT"] then n ← Spike.raw_subkey_count; mret (Int n)
  else mret (Error (B "ERR unknown command '" ++ to_ascii_lowercase cmd ++ B "'")).

(** The reply, and whether the connection closes. *)
Definition dispatch (args : list bytes) : Run (Reply * bool) :=
  match args with
  | [] => mret (Error (B "ERR empty command"), false)
  | name :: a =>
      let cmd := upper name in
      if is_cmd cmd [B "QUIT"] then mret (ok, true) else r ← run_command cmd a; mret (r, false)
  end.

(** ** A connection *)

(** How a connection ends: the client has gone or has quit, an error, a panic. *)
Inductive End_ : Type := Closed | Broken (e : Failure) | Panicked.

(** The loop over what the client sends, with the bytes written so far.  Every
    turn but the last reads a byte, so one turn more than there are bytes is
    enough ([handle_conn_fuel]). *)
Fixpoint handle_conn (fuel : nat) (input out : bytes) (s : Spike.Store DB) : Spike.Store DB * bytes * option End_ :=
  match fuel with
  | O => (s, out, None)
  | S fuel' =>
      match read_command input with
      | (_, Ok None) => (s, out, Some Closed)
      | (_, Err Panic) => (s, out, Some Panicked)
      | (_, Err e) => (s, out, Some (Broken e))
      | (rest, Ok (Some [])) => handle_conn fuel' rest out s
      | (rest, Ok (Some args)) =>
          match dispatch args s with
          | (s', None) => (s', out, Some Panicked)
          | (s', Some (reply, close)) =>
              let out := out ++ write_to reply in
              if (close : bool) then (s', out, Some Closed) else handle_conn fuel' rest out s'
          end
      end
  end.

Definition serve (input : bytes) (s : Spike.Store DB) : Spike.Store DB * bytes * option End_ :=
  handle_conn (S (length input)) input [] s.

Lemma read_command_shorter input rest args : read_command input = (rest, Ok (Some args)) -> (length rest < length input)%nat.
Proof.
  unfold read_command. destruct (read_line input) as [r [line|]] eqn:E; [|done].
  pose proof (read_line_shorter _ _ _ E) as Hr.
  assert (Hargs : forall fuel count done_ r0, read_args fuel count done_ r0 = (rest, Ok (Some args)) -> (length rest <= length r0)%nat).
  { clear. induction fuel as [|fuel IH]; intros count done_ r0; cbn [read_args];
      (destruct (count <=? 0); [by intros [= <- _]|]); [done|].
    destruct (read_arg r0) as [r1 [[a|]|e]] eqn:E1; [|done..].
    pose proof (read_arg_shorter _ _ _ E1). intros ?%IH. lia. }
  destruct line as [|b digits]; [by intros [= <- _]|].
  destruct (decide _); [|by intros [= <- _]]. destruct (parse_int digits) as [count|]; [|done].
  destruct (count <=? 0); [by intros [= <- _]|]. destruct (too_large _ _); [done|]. intros ?%Hargs. lia.
Qed.

(** More turns than bytes are left change nothing, and a connection always ends. *)
Lemma handle_conn_fuel f1 f2 input out s :
  (length input < f1)%nat -> (length input < f2)%nat -> handle_conn f1 input out s = handle_conn f2 input out s.
Proof.
  revert f2 input out s. induction f1 as [|f1 IH]; intros [|f2] input out s H1 H2; [lia..|]. cbn [handle_conn].
  destruct (read_command input) as [rest [[[|a args]|]|e]] eqn:E; [| |done|by destruct e];
    pose proof (read_command_shorter _ _ _ E); [apply IH; lia|].
  destruct (dispatch (a :: args) s) as [s' [[reply []]|]]; [done| |done]. apply IH; lia.
Qed.

Theorem prototype_ends input s : exists s' out e, serve input s = (s', out, Some e).
Proof.
  unfold serve. generalize (@nil byte) as out. generalize (Nat.lt_succ_diag_r (length input)).
  generalize (S (length input)) as fuel. intros fuel. revert input s.
  induction fuel as [|fuel IH]; intros input s Hf out; [lia|]. cbn [handle_conn].
  destruct (read_command input) as [rest [[[|a args]|]|e]] eqn:E; [| | by repeat eexists|by destruct e; repeat eexists];
    pose proof (read_command_shorter _ _ _ E); [apply IH; lia|].
  destruct (dispatch (a :: args) s) as [s' [[reply []]|]]; [by repeat eexists| |by repeat eexists]. apply IH; lia.
Qed.

(** Requests one after the other. *)
Fixpoint session (reqs : list (list bytes)) (s : Spike.Store DB) : Spike.Store DB * bytes * End_ :=
  match reqs with
  | [] => (s, [], Closed)
  | args :: reqs' =>
      match dispatch args s with
      | (s', None) => (s', [], Panicked)
      | (s', Some (reply, true)) => (s', write_to reply, Closed)
      | (s', Some (reply, false)) =>
          let '(s2, out, e) := session reqs' s' in (s2, write_to reply ++ out, e)
      end
  end.

Definition readable (args : list bytes) : Prop :=
  args <> [] /\ Z.of_nat (length args) * VEC_SIZE <= i64_max /\
  Forall (fun a => Z.of_nat (length a) + 2 <= i64_max) args.

(** What a client of the crates sends is answered request by request. *)
Theorem serve_requests reqs s :
  Forall readable reqs ->
  serve (concat (encode_request <$> reqs)) s = let '(s', out, e) := session reqs s in (s', out, Some e).
Proof.
  intros Hreqs. unfold serve.
  assert (H1 : forall out, handle_conn (S (length (concat (encode_request <$> reqs)))) (concat (encode_request <$> reqs)) out s =
    let '(s', o, e) := session reqs s in (s', out ++ o, Some e)); [|by rewrite H1; destruct (session reqs s) as [[??]?]].
  revert s. induction Hreqs as [|args reqs (Hne & Hn & Hall) _ IH]; intros s out; [cbn; by rewrite app_nil_r|].
  rewrite fmap_cons. cbn [concat handle_conn session]. rewrite read_request by done.
  destruct args as [|a args]; [done|]. destruct (dispatch (a :: args) s) as [s' [[reply []]|]]; [done| |by rewrite app_nil_r].
  rewrite (handle_conn_fuel _ (S (length (concat (encode_request <$> reqs))))); [| |lia].
  - rewrite IH. destruct (session reqs s') as [[s2 o] e]. by rewrite app_assoc.
  - apply (read_command_shorter _ _ (a :: args)). by apply read_request.
Qed.
End Dispatch.

(** ** The command line *)

(** [None] when the port does not parse and the process panics; unknown words are
    passed over. *)
Fixpoint parse_argv (argv : list bytes) (port : Z) (db_path : bytes) : option (Z * bytes) :=
  match argv with
  | [] => Some (port, db_path)
  | [_] => Some (port, db_path)
  | flag :: ((v :: rest) as more) =>
      if bool_decide (flag = B "--port") then
        match uint_from_str u16_max v with
        | Some p => parse_argv rest p db_path
        | None => None
        end
      else if bool_decide (flag = B "--db") then parse_argv rest port v
      else parse_argv more port db_path
  end.

Definition settings (argv : list bytes) : option (Z * bytes) :=
  parse_argv (drop 1 argv) 6380 (B "/tmp/gamestore-spike-rust").

Example settings_skip : settings [B "spike"; B "-v"; B "--port"; B "7000"; B "--db"] =
  Some (7000, B "/tmp/gamestore-spike-rust").
Proof. vm_compute. reflexivity. Qed.

End Prototype.
